(* ===== verification/_CoqProject ===== *)
-Q . S2P
Prelude.v
CoreTypes.v
Text.v
Checksum.v
Header.v
Packet.v
Message.v
Fragment.v
SessionFsm.v
Floor.v
Crypto.v
Identity.v
Fec.v
JitterBuffer.v
Ieee.v
Metrics.v
Congestion.v
Transport.v
NetAddr.v
Discovery.v
Session.v
SessionSeq.v
Audio.v
Handshake.v
Agreement.v
SessionTypes.v
Task.v
JitterTasks.v
MetricTasks.v
Tasks.v
HandshakeTasks.v
Interleave.v
ConcurrentTypes.v
ConcurrentSeq.v
CloseRace.v
JitterRace.v
Codec.v
CodecSession.v
Router.v
RouterTasks.v
RouterRace.v
RouterFloor.v
Relay.v
Rooms.v
RoomsApi.v
Stun.v
StunClient.v
RelayDaemon.v
RelayStart.v
RelayedCall.v
Udp.v
AudioIo.v
Resampler.v
Ffi.v
ErrorText.v
Jni.v
FfiClient.v
PySdk.v
Tone.v
CliAudio.v
CliRooms.v
Ptt.v
Cli.v
