(* ===== verification/Prelude.v ===== *)
(** * Gravital Talk: a verification development

    Gravital Talk is a real-time voice protocol over UDP with its reference
    implementation in Rust.  This library models the protocol core, the
    transport session, the metrics, the codec layer, the audio devices, the
    relay, the C, Java and Python interfaces and the commands of the command
    line tool as executable definitions and proves the properties that make
    them correct.  Paths below are under [src/crates/].

    ** The program and the files that model it

    - [gravital-talk-core] is the wire protocol.  [CoreTypes] holds the
      constants, the error type and the interface of fixed-size payloads
      (classes [WireCodec], [WireCodecLaws]); [Checksum] the CRC-16;
      [Header], [Packet] and [Message] the layers of a datagram;
      [Fragment] reassembly; [SessionFsm] and [Floor] the two state machines;
      [Crypto] the AEAD framing and nonces; [Identity] the challenge-response
      authentication.
    - [gravital-talk-transport] is a session.  [Fec], [JitterBuffer] and
      [Congestion] are its parts; [Transport] its view of the network (class
      [Env]); [Session] its state and operations; [Handshake] the 4-way
      handshake; [SessionTypes] the invariant of all its fields.  [Task] is
      what a thread does as a tree of steps; [JitterTasks], [MetricTasks],
      [Tasks] and [HandshakeTasks] split the operations into the steps between
      which other threads run; [Interleave] is a pool of such threads with a
      program logic for them, used in [ConcurrentTypes], [ConcurrentSeq] and
      [CloseRace], and in [JitterRace] for the two threads of a jitter buffer.
      [Stun] and [StunClient] find the public address, [Discovery] peers on
      the local network, [Udp] is the UDP transport, [Tone] generates the PTT
      tones.
    - [gravital-talk-metrics]: [Metrics], over the IEEE-754 arithmetic of
      [Ieee].
    - [gravital-talk-codec] and [gravital-talk]: [Codec] (PCM, the Opus
      wrapper, negotiation) and [CodecSession] (encoded audio over a session,
      loss concealment).
    - [gravital-talk-relay]: [Router] (groups, eviction, floor arbitration,
      rooms), [Relay] (the UDP loop and the WebSocket handler), [Rooms] (room
      codes), [RoomsApi] (the HTTP endpoint), [RelayDaemon] (configuration and
      the whole daemon as a step relation), [RelayStart] (registration of the
      metrics and start of the process).  [RouterTasks] splits the operations
      of the router at their accesses to its concurrent maps; [RouterRace] and
      [RouterFloor] run them interleaved.  [RelayedCall] puts a session and
      the relay together.
    - [gravital-talk-io]: [AudioIo] (devices, capture, playback) and
      [Resampler].
    - [gravital-talk-ffi]: [Ffi] (the C interface over a heap of sessions) and
      [Jni]; [FfiClient] states what their callers can rely on; [ErrorText]
      has the texts of errors.  [PySdk] is the Python binding of
      [src/sdks/python].
    - [gravital-talk-cli]: [CliAudio] ([gs send], [gs receive]), [CliRooms]
      ([gs room] and the choice of the peer of [gs ptt]), [Ptt] (the
      reconnection loop, tasks and keys of [gs ptt]) and [Cli] (codec names,
      and the commands that report: [gs devices], [gs doctor], [gs discover],
      [gs bench], [gs info]).
    - [Text] and [NetAddr] model what is used of the standard library's
      strings, number parsing and socket addresses.

    ** How the code is represented

    Integers are [Z] with their width written out ([wrap8] .. [wrap64]); a
    byte buffer is a [list Z]; a fallible function returns [result E A]; one
    that can panic (an index, an assertion, an arithmetic overflow in builds
    with overflow checks) returns [checked A].  A definition has the name of
    the Rust item, prefixed with its type where several types share it, and
    follows its branches and early returns in order.

    A [Session] is a record of the fields of the Rust struct.  Its operations
    are computations of the state and error monad [SM] over a [World]: the
    session, the log of datagrams handed to the transport, and how often the
    clock and the socket were read.  What the network delivers, whether a send
    fails and what the clock reads are the class [Env], about which theorems
    assume nothing unless they say so.

    A session is shared between threads.  An operation is there a [task]: a
    tree whose nodes are atomic steps, and taking and releasing the mutexes of
    the session for as long as the source holds their guards.  A step is one
    atomic operation (a load, a store, a [fetch_add]), also of those inside
    the jitter buffer, the counters and the estimators, one access to a field
    under its mutex, one send or one receive; the orderings of atomics are
    read as sequential consistency.  A [pool] interleaves any number of tasks,
    in which calls start at any time and are dropped at any time.  Run alone,
    a task is the operation in [SM] ([tasks_refine_operations], up to the
    state a panic leaves behind), so that theorems about single operations are
    stated in [SM].  The relay's tasks share the router: in [RouterTasks] a
    step is one access to one of its maps, with what is done while the guard
    of the entry is held; the length of a map is read in one step.  In
    [RelayDaemon] and in the command line tool tasks interleave between whole
    operations.

    Third-party code is a class with its documented laws: [Aead]
    (ChaCha20-Poly1305), [Kex] (X25519 and HKDF), [Ed25519], [Audiopus],
    [Rubato], [Prometheus], [PromRegistry], [Libm] (the platform's sine),
    [HttpServer].  The
    operating system is a class too: [LanEnv], [StunEnv], [Sockets] and
    [Socket], [AudioHost] (cpal), [RelayHost] (files and listeners),
    [FfiHost] (allocator and runtimes) and [Jvm].  Toy instances ([toy_aead],
    [toy_kex], [toy_ed25519], ...) show that the laws can hold and run the
    witnesses.

    ** Fuel

    The loops of the handshakes and of [recv_audio] wait for the network and
    have no bound of their own; their models take a number of rounds.  In the
    handshakes in one role the source has a timeout around the loop, which can
    end it after any number of rounds, and using up the rounds stands for it.
    [recv_audio] and [handshake_open] have no timeout: in the source they can
    run for ever ([recv_audio_zero_buffer_spins] is such a run), the number of
    rounds only says how far a call is followed, and [None] that it has not
    returned.  Safety theorems hold for every number of rounds; no theorem
    concludes from it that such a call returns.  The agreement theorem shows
    that the handshake completes in one round per expected packet.
    The attribute loop of [Stun] starts with more fuel than there are bytes,
    and is proved never to run out.  [discover_loop] runs until a deadline the
    clock reaches, [push_i16_loop] and [resample_loop] once per frame or block
    they consume: theorems give the number of rounds that is enough
    ([lan_discovery_correct], [push_i16_terminates], [resampler_stream]).  The
    calls of the C interface use one number of rounds of the host, and block
    when it is used up.  [gs ptt] and its interface run over the list of
    attempts and inputs they meet, its receiving task a round of the receive
    loop at a time.  [cmd_bench] and [cmd_discover] run until a
    deadline of a clock that advances ([bench_terminates]).  All other
    functions are structurally recursive.

    ** What the theorems show

    - Wire format: packets and payloads round-trip ([packet_roundtrip],
      [handshake_payloads_roundtrip], [message_type_codes]); a packet is
      accepted only in its one canonical form ([packet_decode_canonical]); no
      burst of two bytes and no two flipped bits go unnoticed
      ([packet_corruption_detected], over [crc16_ccitt_false_correct]); the
      size limit is exact ([packet_mtu_limit]).
    - Handshake: two honest parties agree on id, codec and keys
      ([handshake_agreement]); keys are installed only after the other side
      proved it holds them ([server_keys_need_proof],
      [client_keys_need_proof]).  Through the relay the handshake cannot
      complete ([relay_blocks_handshake]).
    - Types: from construction on, through any interleaving of calls and
      whatever arrives, all fields of a session stay within their types and
      invariants, and a release build does not panic
      ([interleavings_type_safe]; [session_type_safety] for calls in turn).
    - Concurrency: calls on a shared session never deadlock
      ([calls_never_deadlock], from the order in which locks are taken).
    - Encryption: framing round-trips ([aead_framing_roundtrip]); no nonce is
      used twice, as the packets on the wire carry it, however calls
      interleave and whatever fails
      ([concurrent_nonces_unique]; [session_nonces_unique] for calls in turn);
      audio leaves only sealed until the session is closed
      ([audio_sealed_until_close]), but a frame that is being sent while the
      session is closed can leave in the clear ([close_race_cleartext]) and a
      client handshake that is closed installs its keys nevertheless
      ([connect_close_run]).
    - Audio: a frame crosses a session intact ([audio_end_to_end]); forged
      frames have no effect ([forged_audio_dropped]) but cleartext ones do
      ([cleartext_audio_accepted]); [close] ends a session from every state
      ([close_ends_session]); construction panics exactly as stated
      ([session_new_panics_iff]), and a session with a buffer of 0 ms never
      receives ([recv_audio_zero_buffer_spins]).
    - Parts of a session: the jitter ring refines an abstract buffer
      ([jitter_buffer_refines]) and delivers in order
      ([jitter_in_order_delivery]), also while one thread pushes and another
      pops ([jitter_spsc_order], forward from the first frame pushed), which
      loses no frame before its deadline ([jitter_spsc_lossless]) but may at
      the deadline ([skip_push_race]); FEC recovers one loss per aligned group
      ([fec_group_recovery]) and nothing otherwise
      ([fec_misaligned_never_recovers]); reassembly is order-independent
      ([reassembly_correct]); the controllers and estimators compute what they
      say ([congestion_aimd], [congestion_bounds], [loss_window_exact],
      [loss_burst_mishandled], [rtt_ewma_converges], [jitter_rfc3550]).
    - State machines: [operational_iff_open], [floor_owner_spec], and
      [challenge_response_complete] for identities.
    - Codec: PCM is lossless ([pcm_roundtrip]), gaps are concealed
      ([plc_conceals_gaps], except after sequence number [u32::MAX]), and PCM
      frames above the buffer size are never
      sent ([pcm_frame_limit]).
    - Relay, one event at a time: in every reachable state of the daemon the table is within its
      limits and the connections are accounted for
      ([relay_reachable_invariant], over [router_invariant]), packets reach exactly the other members ([route_contract],
      [relay_datagram_spec]), the floor has one holder for at most 30 seconds
      ([floor_mutual_exclusion]), room codes are valid ([room_codes_valid]),
      the HTTP endpoint is a directory of rooms ([room_directory_correct]), and
      the configuration comes from where it is said ([relay_config_sources]);
      the start of the process does not panic and serves or says what failed
      ([relay_startup]).
    - Relay, interleaved: when one task creates sessions and one registers
      rooms, the calls of the tasks on the router are linearizable
      ([relay_linearizable]) and the floor stays with its holder
      ([relay_floor_exclusive]); with any number of tasks the entries keep
      their invariant and the limit on sessions is exceeded by less than the
      number of creating tasks ([relay_concurrent_limits]), but a WebSocket
      task can undo a grant ([floor_granted_twice]), a room can be registered
      twice ([room_registered_twice]) and the gauge left behind
      ([gauge_left_behind]).
    - Address discovery: STUN parsing is total and correct on every response
      ([stun_response_correct]) and the first server that answers decides
      ([public_addr_discovery]); a listener reads everything that arrives
      before its deadline and collects each announced peer once
      ([lan_discovery_correct]).
    - Audio devices: capture cuts the stream into frames without loss
      ([capture_stream_frames], [push_i16_terminates]); playback is a queue
      ([playback_fifo]); playing and recording gives back the samples up to
      the loss of the float formats ([device_loopback]); the resampler
      processes the stream in whole blocks, however it is pushed
      ([resampler_stream]), unless a block has no frames
      ([zero_frames_never_return]); tones are as specified ([ptt_tones_correct]).
    - C and Java interfaces: correct callers cause no undefined behaviour
      ([ffi_no_undefined_behaviour]), sessions do not affect each other and
      each behaves as the session its creating call made
      ([ffi_sessions_independent]), which failures are recorded, and as what
      ([ffi_error_reporting]), with texts that
      reach the caller ([last_error_reaches_caller], [error_display_injective]),
      and the Java calls are the C calls ([jni_refines_c]).
    - Python: the methods have the effects and results of the C calls
      ([python_matches_c]), and no sequence of them panics once a session is
      constructed ([python_sessions_safe]).
    - Commands: what [gs room] prints is what the relay stores, until it is
      deleted ([room_commands_roundtrip]); the peer of [gs ptt]
      ([ptt_target_correct]) and its reconnection loop ([ptt_loop_correct]);
      the frames of a file [gs send] sends ([wav_last_frame]); the benchmark
      ends ([bench_terminates]).

    ** Not modelled

    The kernel's sockets, DNS, timers and the order in which the scheduler
    picks tasks (theorems hold for every order); weaker memory orderings than
    sequential consistency; the inside of the concurrent maps and of other
    third-party code; argument parsing and the dispatch of commands; log
    messages, [Debug] output and accessors that return a field; the flow
    information and scope id of IPv6 socket addresses; the Android
    application and the deployment files, which have no Rust code.  The web
    wrapper ([src/sdks/web]) refers to messages the core no longer has and
    does not compile. *)

(** ** Prelude

    Results, widths, byte buffers, and the automation the files share. *)

From stdpp Require Export base tactics list numbers option.
From Stdlib Require Export ZArith Lia.

#[export] Set Default Goal Selector "!".

#[global] Open Scope Z_scope.

(** ** Results: [core::result::Result] and panicking computations *)

Inductive result (E A : Type) : Type :=
  | Ok (a : A)
  | Err (e : E).
Arguments Ok {E A} a.
Arguments Err {E A} e.

#[export] Instance result_ret E : MRet (result E) := λ A a, Ok a.
#[export] Instance result_bind E : MBind (result E) := λ A B f r,
  match r with Ok a => f a | Err e => Err e end.
#[export] Instance result_fmap E : FMap (result E) := λ A B f r,
  match r with Ok a => Ok (f a) | Err e => Err e end.

Definition is_ok {E A} (r : result E A) : bool :=
  match r with Ok _ => true | Err _ => false end.

(** [map_err f r] is Rust's [Result::map_err]. *)
Definition map_err {E F A} (f : E → F) (r : result E A) : result F A :=
  match r with Ok a => Ok a | Err e => Err (f e) end.

(** A computation that either finishes with a value or panics (failed
    [assert!], arithmetic overflow with overflow checks, ...). *)
Inductive checked (A : Type) : Type :=
  | Val (a : A)
  | Panic.
Arguments Val {A} a.
Arguments Panic {A}.

#[export] Instance checked_ret : MRet checked := λ A a, Val a.
#[export] Instance checked_bind : MBind checked := λ A B f r,
  match r with Val a => f a | Panic => Panic end.
#[export] Instance checked_fmap : FMap checked := λ A B f r,
  match r with Val a => Val (f a) | Panic => Panic end.

Lemma bind_Ok {E A B} (f : A → result E B) r b :
  r ≫= f = Ok b → ∃ a, r = Ok a ∧ f a = Ok b.
Proof. destruct r; naive_solver. Qed.

Lemma bind_Val {A B} (f : A → checked B) r b :
  r ≫= f = Val b → ∃ a, r = Val a ∧ f a = Val b.
Proof. destruct r; naive_solver. Qed.

#[export] Instance result_eq_dec {E A} `{EqDecision E, EqDecision A} :
  EqDecision (result E A).
Proof. solve_decision. Defined.

(** ** Machine integers

    A [w]-bit unsigned integer is a [Z] in the range of its width. *)

Definition u8 (x : Z) : Prop := 0 ≤ x < 256.
Definition u16 (x : Z) : Prop := 0 ≤ x < 65536.
Definition u32 (x : Z) : Prop := 0 ≤ x < 4294967296.
Definition u64 (x : Z) : Prop := 0 ≤ x < 18446744073709551616.

Definition wrap8 (x : Z) : Z := x mod 256.
Definition wrap16 (x : Z) : Z := x mod 65536.
Definition wrap32 (x : Z) : Z := x mod 4294967296.
Definition wrap64 (x : Z) : Z := x mod 18446744073709551616.

Definition u32_MAX : Z := 4294967295.
Definition u64_MAX : Z := 18446744073709551615.

(** [x as i32] / [x as i64] for an unsigned [x] of the same width. *)
Definition as_i32 (x : Z) : Z := if x <? 2147483648 then x else x - 4294967296.
Definition as_i64 (x : Z) : Z :=
  if x <? 9223372036854775808 then x else x - 18446744073709551616.

#[export] Instance u8_dec x : Decision (u8 x).
Proof. unfold u8. apply _. Defined.
#[export] Instance u16_dec x : Decision (u16 x).
Proof. unfold u16. apply _. Defined.
#[export] Instance u32_dec x : Decision (u32 x).
Proof. unfold u32. apply _. Defined.
#[export] Instance u64_dec x : Decision (u64 x).
Proof. unfold u64. apply _. Defined.

Ltac unfold_width :=
  unfold u8, u16, u32, u64, wrap8, wrap16, wrap32, wrap64, u32_MAX, u64_MAX in *.
Ltac ulia := unfold_width; lia.
Ltac dlia := unfold_width; Z.div_mod_to_equations; lia.

Lemma wrap8_u8 x : u8 (wrap8 x).
Proof. dlia. Qed.
Lemma wrap16_u16 x : u16 (wrap16 x).
Proof. dlia. Qed.
Lemma wrap32_u32 x : u32 (wrap32 x).
Proof. dlia. Qed.
Lemma wrap64_u64 x : u64 (wrap64 x).
Proof. dlia. Qed.
Lemma wrap32_id x : u32 x → wrap32 x = x.
Proof. dlia. Qed.
Lemma wrap16_id x : u16 x → wrap16 x = x.
Proof. dlia. Qed.
Lemma wrap64_id x : u64 x → wrap64 x = x.
Proof. dlia. Qed.

Create HintDb gs discriminated.
#[export] Hint Resolve wrap8_u8 wrap16_u16 wrap32_u32 wrap64_u64 : gs.

(** Bitwise facts on bounded integers. *)

Lemma lxor_bound w a b :
  0 ≤ w → 0 ≤ a < 2 ^ w → 0 ≤ b < 2 ^ w → 0 ≤ Z.lxor a b < 2 ^ w.
Proof.
  intros Hw Ha Hb.
  assert (Hn : 0 ≤ Z.lxor a b) by (apply Z.lxor_nonneg; lia).
  split; [done|].
  assert (Z.lxor a b = Z.lxor a b mod 2 ^ w) as ->; [|apply Z.mod_pos_bound; lia].
  apply Z.bits_inj'. intros n Hn'.
  destruct (Z.lt_ge_cases n w) as [?|?].
  - by rewrite Z.mod_pow2_bits_low.
  - rewrite Z.mod_pow2_bits_high by lia. rewrite Z.lxor_spec.
    rewrite <-(Z.mod_small a (2 ^ w)), <-(Z.mod_small b (2 ^ w)) by done.
    by rewrite !Z.mod_pow2_bits_high by lia.
Qed.

Lemma lxor_u8 a b : u8 a → u8 b → u8 (Z.lxor a b).
Proof. apply (lxor_bound 8). lia. Qed.
Lemma lxor_u16 a b : u16 a → u16 b → u16 (Z.lxor a b).
Proof. apply (lxor_bound 16). lia. Qed.
#[export] Hint Resolve lxor_u8 lxor_u16 : gs.

(** ** Byte buffers

    A [&[u8]] is a [list Z] of bytes. *)

Definition bytes (l : list Z) : Prop := Forall u8 l.

#[export] Instance bytes_dec l : Decision (bytes l).
Proof. unfold bytes. apply _. Defined.

Lemma bytes_nil : bytes [].
Proof. constructor. Qed.
Lemma bytes_cons b l : bytes (b :: l) ↔ u8 b ∧ bytes l.
Proof. apply Forall_cons_iff. Qed.
Lemma bytes_app l1 l2 : bytes (l1 ++ l2) ↔ bytes l1 ∧ bytes l2.
Proof. apply Forall_app. Qed.

(** [&buf[off .. off + n]] *)
Definition slice (off n : nat) (buf : list Z) : list Z := take n (drop off buf).

(** [buf[off .. off + src.len()].copy_from_slice(src)] *)
Definition blit (off : nat) (src buf : list Z) : list Z :=
  take off buf ++ src ++ drop (off + length src) buf.

(** [x.to_be_bytes()] for an [n]-byte integer. *)
Fixpoint be_bytes (n : nat) (x : Z) : list Z :=
  match n with
  | O => []
  | S m => (x / 256 ^ Z.of_nat m) mod 256 :: be_bytes m x
  end.

(** [from_be_bytes]. *)
Definition from_be (l : list Z) : Z := foldl (λ acc b, acc * 256 + b) 0 l.

(** [u16::from_be_bytes([buf[i], buf[i + 1]])] and its wider versions. *)
Definition rd16 (buf : list Z) (i : nat) : Z :=
  from_be [buf !!! i; buf !!! (i + 1)%nat].
Definition rd32 (buf : list Z) (i : nat) : Z :=
  from_be [buf !!! i; buf !!! (i + 1)%nat; buf !!! (i + 2)%nat; buf !!! (i + 3)%nat].
Definition rd64 (buf : list Z) (i : nat) : Z :=
  from_be [buf !!! i; buf !!! (i + 1)%nat; buf !!! (i + 2)%nat; buf !!! (i + 3)%nat;
           buf !!! (i + 4)%nat; buf !!! (i + 5)%nat; buf !!! (i + 6)%nat; buf !!! (i + 7)%nat].

(** *** Big-endian integers *)

Lemma length_be_bytes n x : length (be_bytes n x) = n.
Proof. induction n; simpl; auto. Qed.

Lemma bytes_be_bytes n x : bytes (be_bytes n x).
Proof.
  induction n; simpl; constructor; [|done].
  apply Z.mod_pos_bound; lia.
Qed.

Lemma from_be_app l1 l2 :
  from_be (l1 ++ l2) = from_be l1 * 256 ^ Z.of_nat (length l2) + from_be l2.
Proof.
  unfold from_be. rewrite foldl_app. generalize (foldl (λ acc b, acc * 256 + b) 0 l1).
  induction l2 as [|b l2 IH] using rev_ind; intros a; [simpl; lia|].
  rewrite !foldl_app, length_app. simpl. rewrite IH.
  rewrite Nat2Z.inj_add, Z.pow_add_r by lia. change (256 ^ Z.of_nat 1) with 256. ring.
Qed.

Lemma from_be_be_bytes n x :
  from_be (be_bytes n x) = x mod 256 ^ Z.of_nat n.
Proof.
  induction n as [|n IH]; [simpl; by rewrite Z.mod_1_r|].
  change (be_bytes (S n) x) with ([(x / 256 ^ Z.of_nat n) mod 256] ++ be_bytes n x).
  rewrite from_be_app, IH, length_be_bytes. unfold from_be; simpl.
  rewrite Nat2Z.inj_succ, Z.pow_succ_r, (Z.mul_comm 256), Z.rem_mul_r by lia. lia.
Qed.

Lemma from_be_bound l : bytes l → 0 ≤ from_be l < 256 ^ Z.of_nat (length l).
Proof.
  induction l as [|b l IH] using rev_ind; intros Hl; [by unfold from_be; simpl|].
  apply bytes_app in Hl as [Hl Hb]. apply bytes_cons in Hb as [Hb _].
  specialize (IH Hl). rewrite from_be_app, length_app, Nat2Z.inj_add, Z.pow_add_r by lia.
  change (256 ^ Z.of_nat (length [b])) with 256. change (from_be [b]) with (0 * 256 + b).
  unfold u8 in Hb. lia.
Qed.

Lemma be_bytes_from_be l : bytes l → be_bytes (length l) (from_be l) = l.
Proof.
  induction l as [|b l IH]; intros Hl; [done|].
  apply bytes_cons in Hl as [Hb Hl]. pose proof (from_be_bound l Hl) as Hbound.
  change (b :: l) with ([b] ++ l). rewrite from_be_app.
  unfold from_be at 1; simpl foldl. rewrite Z.add_0_l.
  simpl length. simpl be_bytes.
  rewrite Z.add_comm, Z.div_add by lia.
  rewrite (Z.div_small (from_be l)) by lia. rewrite Z.add_0_l, Z.mod_small by done.
  simpl. f_equal.
  transitivity (be_bytes (length l) (from_be l)); [|by apply IH].
  clear IH Hl. generalize dependent (from_be l).
  generalize (length l) at 1 2 3 4. clear l. intros n.
  assert (∀ m y k, (m ≤ n)%nat → be_bytes m (y + k * 256 ^ Z.of_nat n) = be_bytes m y) as Hm.
  { induction m as [|m IHm]; intros y k Hle; simpl; [done|].
    f_equal; [|apply IHm; lia].
    replace (k * 256 ^ Z.of_nat n) with
      ((k * 256 ^ (Z.of_nat n - Z.of_nat m - 1) * 256) * 256 ^ Z.of_nat m).
    - rewrite Z.div_add, Z.mod_add by lia. done.
    - rewrite <-!Z.mul_assoc. f_equal.
      rewrite <-(Z.pow_1_r 256) at 2. rewrite <-!Z.pow_add_r by lia. f_equal. lia. }
  intros y _. by apply Hm.
Qed.

Lemma be_bytes_inj n x y :
  0 ≤ x < 256 ^ Z.of_nat n → 0 ≤ y < 256 ^ Z.of_nat n →
  be_bytes n x = be_bytes n y → x = y.
Proof.
  intros Hx Hy Heq. apply (f_equal from_be) in Heq.
  rewrite !from_be_be_bytes, !Z.mod_small in Heq; lia.
Qed.

(** *** Slices and copies *)

Lemma length_slice off n buf :
  (off + n ≤ length buf)%nat → length (slice off n buf) = n.
Proof. intros. unfold slice. rewrite length_take, length_drop. lia. Qed.

Lemma bytes_slice off n buf : bytes buf → bytes (slice off n buf).
Proof. intros. unfold slice. by apply Forall_take, Forall_drop. Qed.

Lemma length_blit off src buf :
  (off + length src ≤ length buf)%nat → length (blit off src buf) = length buf.
Proof.
  intros. unfold blit. rewrite !length_app, length_take, length_drop. lia.
Qed.

Lemma bytes_blit off src buf : bytes src → bytes buf → bytes (blit off src buf).
Proof.
  intros. unfold blit, bytes. rewrite !Forall_app.
  split_and!; [by apply Forall_take|done|by apply Forall_drop].
Qed.

Lemma lookup_slice off n buf i :
  (i < n)%nat → slice off n buf !! i = buf !! (off + i)%nat.
Proof. intros. unfold slice. rewrite lookup_take_lt by done. apply lookup_drop. Qed.

Lemma lookup_blit_in off src buf i :
  (off + length src ≤ length buf)%nat → (off ≤ i < off + length src)%nat →
  blit off src buf !! i = src !! (i - off)%nat.
Proof.
  intros. unfold blit.
  rewrite lookup_app_r; rewrite length_take_le by lia; [|lia].
  by rewrite lookup_app_l by lia.
Qed.

Lemma lookup_blit_out off src buf i :
  (off + length src ≤ length buf)%nat → (i < off ∨ off + length src ≤ i)%nat →
  blit off src buf !! i = buf !! i.
Proof.
  intros. unfold blit. destruct (decide (i < off)%nat).
  - by rewrite lookup_app_l, lookup_take_lt by (rewrite ?length_take; lia).
  - rewrite lookup_app_r; rewrite length_take_le by lia; [|lia].
    rewrite lookup_app_r by lia. rewrite lookup_drop. f_equal. lia.
Qed.

Lemma slice_blit_same off src buf n :
  (off + length src ≤ length buf)%nat → n = length src →
  slice off n (blit off src buf) = src.
Proof.
  intros Hl ->. apply list_eq_same_length with (n := length src); [done| |].
  - apply length_slice. by rewrite length_blit.
  - intros i x y Hi. rewrite lookup_slice, lookup_blit_in by lia.
    replace (off + i - off)%nat with i by lia. congruence.
Qed.

Lemma slice_blit_disj off src buf o n :
  (off + length src ≤ length buf)%nat → (o + n ≤ length buf)%nat →
  (o + n ≤ off ∨ off + length src ≤ o)%nat →
  slice o n (blit off src buf) = slice o n buf.
Proof.
  intros Hl Hn Hd. apply list_eq_same_length with (n := n).
  - by apply length_slice.
  - apply length_slice. by rewrite length_blit.
  - intros i x y Hi. rewrite !lookup_slice, lookup_blit_out by lia. congruence.
Qed.

Lemma lookup_total_slice1 (buf : list Z) i :
  (i < length buf)%nat → slice i 1 buf = [buf !!! i].
Proof.
  intros Hi. apply list_lookup_lookup_total_lt in Hi.
  unfold slice. erewrite drop_S by done. simpl. by rewrite take_0.
Qed.

Lemma insert_blit (i : nat) (x : Z) buf :
  (i < length buf)%nat → <[i := x]> buf = blit i [x] buf.
Proof.
  intros Hi. unfold blit. rewrite insert_take_drop by done. simpl.
  by rewrite Nat.add_1_r.
Qed.

Lemma lookup_total_from_slice (buf : list Z) (i : nat) :
  (i < length buf)%nat → buf !!! i = from_be (slice i 1 buf).
Proof. intros Hi. rewrite lookup_total_slice1 by done. by unfold from_be. Qed.

Lemma slice_cons (buf : list Z) (i n : nat) :
  (i < length buf)%nat → slice i (S n) buf = buf !!! i :: slice (i + 1) n buf.
Proof.
  intros Hi. unfold slice. rewrite Nat.add_1_r.
  apply list_lookup_lookup_total_lt in Hi. by erewrite drop_S by done.
Qed.

Lemma slice_0 (buf : list Z) (i : nat) : slice i 0 buf = [].
Proof. unfold slice. by rewrite take_0. Qed.

Lemma rd16_slice buf i : (i + 2 ≤ length buf)%nat → rd16 buf i = from_be (slice i 2 buf).
Proof.
  intros. rewrite !slice_cons, slice_0 by lia. unfold rd16. rewrite <-?Nat.add_assoc. done.
Qed.
Lemma rd32_slice buf i : (i + 4 ≤ length buf)%nat → rd32 buf i = from_be (slice i 4 buf).
Proof.
  intros. rewrite !slice_cons, slice_0 by lia. unfold rd32. rewrite <-?Nat.add_assoc. done.
Qed.
Lemma rd64_slice buf i : (i + 8 ≤ length buf)%nat → rd64 buf i = from_be (slice i 8 buf).
Proof.
  intros. rewrite !slice_cons, slice_0 by lia. unfold rd64. rewrite <-?Nat.add_assoc. done.
Qed.

Lemma lookup_total_u8 buf (i : nat) : bytes buf → u8 (buf !!! i).
Proof.
  intros Hb. destruct (decide (i < length buf)%nat) as [Hi|Hi].
  - apply list_lookup_lookup_total_lt in Hi. by eapply Forall_lookup_1.
  - rewrite list_lookup_total_alt, lookup_ge_None_2 by lia. by split.
Qed.

Lemma rd16_u16 buf i : bytes buf → u16 (rd16 buf i).
Proof.
  intros Hb. apply (from_be_bound [_; _]). repeat constructor; by apply lookup_total_u8.
Qed.
Lemma rd32_u32 buf i : bytes buf → u32 (rd32 buf i).
Proof.
  intros Hb. apply (from_be_bound [_; _; _; _]).
  repeat constructor; by apply lookup_total_u8.
Qed.
Lemma rd64_u64 buf i : bytes buf → u64 (rd64 buf i).
Proof.
  intros Hb. apply (from_be_bound [_; _; _; _; _; _; _; _]).
  repeat constructor; by apply lookup_total_u8.
Qed.
#[export] Hint Resolve lookup_total_u8 rd16_u16 rd32_u32 rd64_u64 bytes_slice : gs.

Lemma from_be_be16 x : u16 x → from_be (be_bytes 2 x) = x.
Proof. intros. rewrite from_be_be_bytes. by apply Z.mod_small. Qed.
Lemma from_be_be32 x : u32 x → from_be (be_bytes 4 x) = x.
Proof. intros. rewrite from_be_be_bytes. by apply Z.mod_small. Qed.
Lemma from_be_be64 x : u64 x → from_be (be_bytes 8 x) = x.
Proof. intros. rewrite from_be_be_bytes. by apply Z.mod_small. Qed.
Lemma from_be_1 x : from_be [x] = x.
Proof. done. Qed.

Lemma be_bytes_slice off n buf :
  bytes buf → (off + n ≤ length buf)%nat →
  be_bytes n (from_be (slice off n buf)) = slice off n buf.
Proof.
  intros Hb Hl. rewrite <-(length_slice off n buf) at 1 by done.
  by apply be_bytes_from_be, bytes_slice.
Qed.

#[global] Arguments be_bytes : simpl never.
#[global] Arguments from_be : simpl never.
#[global] Arguments slice : simpl never.
#[global] Arguments blit : simpl never.
#[global] Arguments rd16 : simpl never.
#[global] Arguments rd32 : simpl never.
#[global] Arguments rd64 : simpl never.

(** Writing right after an already written prefix extends the prefix. *)
Lemma blit_app p src r off :
  off = length p → blit off src (p ++ r) = (p ++ src) ++ drop (length src) r.
Proof.
  intros ->. unfold blit. rewrite take_app_length, drop_app_add', app_assoc by done. done.
Qed.

(** Two buffers of the same length that agree on the two parts of a split
    agree. *)
Lemma slice_full (buf : list Z) n : length buf = n → slice 0 n buf = buf.
Proof. intros <-. unfold slice. rewrite drop_0. by apply firstn_all. Qed.

Lemma slice_split (buf : list Z) o n m :
  (o + (n + m) ≤ length buf)%nat →
  slice o (n + m) buf = slice o n buf ++ slice (o + n) m buf.
Proof.
  intros. unfold slice. rewrite <-drop_drop.
  by rewrite take_take_drop.
Qed.

Lemma drop_blit off src buf k :
  (off + length src ≤ length buf)%nat → (off + length src ≤ k)%nat →
  drop k (blit off src buf) = drop k buf.
Proof.
  intros Hl Hk. apply list_eq. intros i. rewrite !lookup_drop.
  rewrite lookup_blit_out by lia. done.
Qed.

Lemma take_blit off src buf k :
  (off + length src ≤ length buf)%nat → (k ≤ off)%nat →
  take k (blit off src buf) = take k buf.
Proof.
  intros Hl Hk. apply list_eq. intros i. destruct (decide (i < k)%nat).
  - rewrite !lookup_take_lt by lia. apply lookup_blit_out; lia.
  - by rewrite !lookup_take_ge by lia.
Qed.

(** *** Wire-layout automation

    [len] proves length side conditions; [wire] evaluates the fields read
    back from a buffer built by a chain of [blit]s and single-byte writes. *)

Ltac len :=
  repeat first
    [ rewrite length_be_bytes | rewrite length_insert | rewrite length_replicate
    | rewrite length_app | rewrite length_cons | rewrite length_nil
    | rewrite length_blit by len ];
  lia.

(** What a caller needs to know of a buffer after one write. *)
Record blit_spec (off : nat) (src buf buf' : list Z) : Prop := {
  blit_spec_length : length buf' = length buf;
  blit_spec_same n : n = length src → slice off n buf' = src;
  blit_spec_disj o n : (o + n ≤ length buf)%nat → (o + n ≤ off ∨ off + length src ≤ o)%nat →
    slice o n buf' = slice o n buf;
  blit_spec_drop k : (off + length src ≤ k)%nat → drop k buf' = drop k buf;
  blit_spec_bytes : bytes src → bytes buf → bytes buf';
}.

Lemma blit_spec_intro off src buf :
  (off + length src ≤ length buf)%nat → blit_spec off src buf (blit off src buf).
Proof.
  intros Hl. split; [by apply length_blit|..]; intros.
  - by apply slice_blit_same.
  - by apply slice_blit_disj.
  - by apply drop_blit.
  - by apply bytes_blit.
Qed.

(** Replace the innermost write by a fresh buffer and its [blit_spec]. *)
Ltac name_write :=
  match goal with
  | |- context [ <[?i := ?x]> ?b ] =>
      is_var b; rewrite (insert_blit i x b) by lia
  | |- context [ blit ?o ?s ?b ] =>
      is_var b;
      let b' := fresh "b" in let S := fresh "S" in let L := fresh "L" in
      assert (blit_spec o s b (blit o s b)) as S
        by (apply blit_spec_intro; rewrite ?length_be_bytes; simpl length; lia);
      pose proof (blit_spec_length _ _ _ _ S) as L;
      revert S L; generalize (blit o s b); intros b' S L
  end.

Ltac read_field :=
  match goal with
  | S : blit_spec ?o ?s ?b ?b' |- context [ slice ?o' ?n ?b' ] =>
      first
        [ rewrite (blit_spec_same _ _ _ _ S n) by (rewrite ?length_be_bytes; simpl length; lia)
        | rewrite (blit_spec_disj _ _ _ _ S o' n) by (rewrite ?length_be_bytes; simpl length; lia) ]
  | S : blit_spec ?o ?s ?b ?b' |- context [ drop ?k ?b' ] =>
      rewrite (blit_spec_drop _ _ _ _ S k) by (rewrite ?length_be_bytes; simpl length; lia)
  end.

Ltac solve_bytes :=
  repeat match goal with
  | S : blit_spec _ _ _ ?b' |- bytes ?b' =>
      apply (blit_spec_bytes _ _ _ _ S);
      [first [apply bytes_be_bytes | done | by repeat constructor; ulia]|]
  end; done.

Ltac wire :=
  repeat first
    [ rewrite rd16_slice by lia | rewrite rd32_slice by lia
    | rewrite rd64_slice by lia | rewrite lookup_total_from_slice by lia ];
  repeat read_field;
  repeat first
    [ rewrite from_be_1 | rewrite from_be_be16 by (done || ulia)
    | rewrite from_be_be32 by (done || ulia) | rewrite from_be_be64 by (done || ulia) ].

Lemma slice_take (buf : list Z) o n k :
  (o + n ≤ k)%nat → slice o n (take k buf) = slice o n buf.
Proof.
  intros Hk. unfold slice. replace k with (o + (k - o))%nat by lia.
  rewrite <-take_drop_commute, take_take. f_equal. lia.
Qed.

Lemma take_lookup_total (buf : list Z) (i k : nat) :
  (i < k)%nat → take k buf !!! i = buf !!! i.
Proof. intros. rewrite !list_lookup_total_alt. by rewrite lookup_take_lt. Qed.

(** Tactics for the laws of a fixed-layout codec, its operations unfolded. *)
Ltac codec_short := intros; case_decide; [done|lia].

Ltac codec_roundtrip :=
  rewrite (decide_False (P := (_ < _)%nat)) by lia; eexists; split; [reflexivity|];
  repeat name_write;
  split; [lia|split; [by repeat read_field|split; [intros; solve_bytes|]]];
  rewrite (decide_False (P := (_ < _)%nat)) by lia; wire.

Ltac codec_prefix :=
  rewrite !(decide_False (P := (_ < _)%nat)) by (rewrite ?length_take; lia);
  rewrite ?rd16_slice, ?rd32_slice, ?rd64_slice by (rewrite ?length_take; lia);
  repeat rewrite slice_take by lia; repeat rewrite take_lookup_total by lia; try done.

(** ** Filters *)

Lemma filter_ext_in {A} (P Q : A → Prop) `{∀ x, Decision (P x), ∀ x, Decision (Q x)} (l : list A) :
  (∀ x, x ∈ l → P x ↔ Q x) → filter P l = filter Q l.
Proof.
  induction l as [|x l IH]; intros Hpq; [done|]. rewrite !filter_cons.
  rewrite (decide_ext (P x) (Q x)) by (apply Hpq; left).
  rewrite IH by (intros; apply Hpq; by right). done.
Qed.

Lemma count_filter {A} (P : A → Prop) `{∀ x, Decision (P x)} (l : list A) :
  (length (filter P l) + length (filter (λ x, ¬ P x) l) = length l)%nat.
Proof.
  induction l as [|x l IH]; [done|]. rewrite !filter_cons.
  destruct (decide (P x)), (decide (¬ P x)); simpl; try done; lia.
Qed.

(** ** Lists of which one element descends

    What makes threads that each take finitely many steps finish together. *)

Definition one_descends {T} (R : T → T → Prop) (ts' ts : list T) : Prop :=
  ∃ i t t', ts !! i = Some t ∧ R t' t ∧ ts' = <[i := t']> ts.

Lemma one_descends_wf {T} (R : T → T → Prop) : well_founded R → well_founded (one_descends R).
Proof.
  intros Hwf ts. induction ts as [|t ts IH].
  { constructor. by intros ts' (i & t & t' & Hi & _). }
  revert ts IH. induction (Hwf t) as [t _ IHt]. induction 1 as [ts Hts IHts]. constructor.
  intros ts' ([|i] & u & u' & Hi & HR & ->); simplify_eq/=.
  - apply IHt; [done|]. by constructor.
  - apply IHts. by exists i, u, u'.
Qed.
