(* ===== verification/CoreTypes.v ===== *)
(** * Protocol constants and the core error type

    Models [gravital-talk-core/src/constants.rs] and
    [gravital-talk-core/src/error.rs]: the wire constants, the byte offsets of
    the header fields, the [Error] enum and its stable numeric codes. *)

From S2P Require Import Prelude.

(** ** constants.rs *)

Definition MAGIC_BYTES : list Z := [71; 83].  (* b'G', b'S' *)
Definition PROTOCOL_VERSION : Z := 1.
Definition PROTOCOL_VERSION_MIN : Z := 1.
Definition PROTOCOL_VERSION_MAX : Z := 1.
Definition HEADER_SIZE : nat := 24.
Definition DEFAULT_MTU : nat := 1200.
Definition MAX_PAYLOAD_SIZE : nat := DEFAULT_MTU - HEADER_SIZE.
Definition MAX_FRAGMENTS : Z := 16.
Definition FRAGMENT_SUBHEADER_SIZE : nat := 4.
Definition DEFAULT_SAMPLE_RATE : Z := 48000.
Definition DEFAULT_FRAME_DURATION_MS : Z := 20.
Definition DEFAULT_JITTER_BUFFER_MS : Z := 40.
Definition DEFAULT_MAX_BITRATE : Z := 64000.
Definition HEARTBEAT_INTERVAL_MS : Z := 1000.
Definition HEARTBEAT_TIMEOUT_MS : Z := 10000.
Definition HANDSHAKE_TIMEOUT_MS : Z := 10000.
Definition HANDSHAKE_RETRY_BASE_MS : Z := 200.
Definition CLOSE_GRACE_MS : Z := 500.
Definition LOSS_WINDOW_SIZE : Z := 64.
Definition FEC_WINDOW : Z := 4.
Definition CONGESTION_MIN_BITRATE : Z := 8000.
Definition CONGESTION_AIMD_INCREMENT : Z := 2000.

(** Offsets of the header fields. *)
Module offsets.
Definition MAGIC : nat := 0.
Definition VERSION : nat := 2.
Definition FLAGS : nat := 3.
Definition MSG_TYPE : nat := 4.
Definition RESERVED : nat := 5.
Definition SESSION_ID : nat := 8.
Definition SEQUENCE : nat := 12.
Definition TIMESTAMP : nat := 16.
Definition HEADER_END : nat := 24.
End offsets.

Definition PAYLOAD_LEN_TAIL_OFFSET : nat := 4.
Definition CHECKSUM_TAIL_OFFSET : nat := 2.

(** ** error.rs *)

Inductive Error : Type :=
  | TooShort
  | BadMagic
  | ProtocolMismatch
  | LengthMismatch
  | BadChecksum
  | UnknownMessageType (t : Z)
  | BufferTooSmall
  | PayloadTooLarge
  | TooManyFragments
  | FragmentOutOfRange
  | DuplicateFragment
  | IncompleteReassembly
  | InvalidStateTransition
  | MalformedPayload
  | DecryptionFailed
  | ReservedFieldNonZero
  | VersionNegotiationFailed.

#[export] Instance Error_eq_dec : EqDecision Error.
Proof. solve_decision. Defined.

Definition Error_code (e : Error) : Z :=
  match e with
  | TooShort => 1
  | BadMagic => 2
  | ProtocolMismatch => 3
  | LengthMismatch => 4
  | BadChecksum => 5
  | UnknownMessageType _ => 6
  | BufferTooSmall => 7
  | PayloadTooLarge => 8
  | TooManyFragments => 9
  | FragmentOutOfRange => 10
  | DuplicateFragment => 11
  | IncompleteReassembly => 12
  | InvalidStateTransition => 13
  | MalformedPayload => 14
  | DecryptionFailed => 15
  | ReservedFieldNonZero => 16
  | VersionNegotiationFailed => 17
  end.

(** The FFI error code identifies the variant: two errors with one code
    differ at most in the byte carried by [UnknownMessageType]. *)
Lemma Error_code_variant e1 e2 :
  Error_code e1 = Error_code e2 →
  e1 = e2 ∨ ∃ s t, e1 = UnknownMessageType s ∧ e2 = UnknownMessageType t.
Proof. destruct e1, e2; simpl; intros; try discriminate; eauto. Qed.

(** ** Wire codecs

    Every structured payload of the protocol is a fixed-size record written
    into a caller's buffer and read back from a received one.  The class is
    what the payload types promise to the packet, handshake and session
    layers, which rely on nothing else. *)

Class WireCodec (A : Type) : Type := {
  wire_size : nat;
  wire_wf : A → Prop;
  wire_encode : A → list Z → result Error (list Z);
  wire_decode : list Z → result Error A;
}.
Arguments wire_size A {_}.

Class WireCodecLaws (A : Type) `{WireCodec A} : Prop := {
  (** A short output buffer is refused. *)
  wire_encode_short x buf :
    (length buf < wire_size A)%nat → wire_encode x buf = Err BufferTooSmall;
  (** A short input is refused. *)
  wire_decode_short buf :
    (length buf < wire_size A)%nat → wire_decode buf = Err MalformedPayload;
  (** Encoding writes only the first [wire_size] bytes, keeps the buffer's
      length and is decoded to the value it encodes. *)
  wire_roundtrip x buf :
    wire_wf x → (wire_size A ≤ length buf)%nat →
    ∃ buf', wire_encode x buf = Ok buf' ∧ length buf' = length buf
      ∧ drop (wire_size A) buf' = drop (wire_size A) buf
      ∧ (bytes buf → bytes buf')
      ∧ wire_decode buf' = Ok x;
  (** What is decoded from bytes has its fields in their ranges. *)
  wire_decode_wf buf x :
    bytes buf → wire_decode buf = Ok x → wire_wf x;
  (** Decoding looks at the first [wire_size] bytes only. *)
  wire_decode_prefix buf :
    (wire_size A ≤ length buf)%nat →
    wire_decode (take (wire_size A) buf) = wire_decode buf;
}.

(** The payload buffer of the code, [let mut p = [0u8; T::SIZE];
    x.encode(&mut p)]. *)
Definition wire_image {A} `{WireCodec A} (x : A) : result Error (list Z) :=
  wire_encode x (replicate (wire_size A) 0).

Section wire_image.
Context {A : Type} `{WireCodecLaws A}.

Lemma bytes_replicate_0 n : bytes (replicate n 0).
Proof. apply Forall_replicate. by split. Qed.

Lemma wire_image_ok x :
  wire_wf x → ∃ p, wire_image x = Ok p ∧ length p = wire_size A ∧ bytes p
                 ∧ wire_decode p = Ok x.
Proof.
  intros Hwf. unfold wire_image.
  destruct (wire_roundtrip x (replicate (wire_size A) 0)) as (p & ? & Hl & _ & Hb & ?);
    [done|by rewrite length_replicate|].
  rewrite length_replicate in Hl. eauto 10 using bytes_replicate_0.
Qed.

Lemma wire_image_inj x y p :
  wire_wf x → wire_wf y → wire_image x = Ok p → wire_image y = Ok p → x = y.
Proof.
  intros Hx Hy Hpx Hpy.
  destruct (wire_image_ok x) as (p1 & ? & _ & _ & ?); [done|].
  destruct (wire_image_ok y) as (p2 & ? & _ & _ & ?); [done|]. congruence.
Qed.
End wire_image.
