(* ===== verification/Text.v ===== *)
(** * Text

    What the program uses of Rust's strings.  A [&str] is the list of its
    UTF-8 bytes, as in the language; this file holds the validation and lossy
    decoding of UTF-8, the search, splitting and trimming of strings, and the
    decimal notation of unsigned integers, with the facts about them that the
    parsers of LAN announcements, HTTP bodies and addresses rest on. *)

From S2P Require Import Prelude.
From stdpp Require Import strings list.
#[local] Open Scope Z_scope.

(** ** Literals *)

Fixpoint ascii_bytes (s : string) : list Z :=
  match s with
  | EmptyString => []
  | String c s => Z.of_N (Ascii.N_of_ascii c) :: ascii_bytes s
  end.

(** A JSON literal, written with apostrophes for its quotation marks. *)
Definition json (s : string) : list Z :=
  (λ b, if b =? 39 then 34 else b) <$> ascii_bytes s.

Definition ascii (s : list Z) : Prop := Forall (λ b, 0 ≤ b < 128) s.

#[export] Instance ascii_dec s : Decision (ascii s).
Proof. unfold ascii. apply _. Defined.

(** ** UTF-8 *)

Definition byte_in (lo hi b : Z) : bool := (lo <=? b) && (b <=? hi).

Definition is_cont (b : Z) : bool := byte_in 128 191 b.

(** The length of the sequence a lead byte announces, 0 for a byte that
    cannot lead. *)
Definition utf8_width (b0 : Z) : nat :=
  if b0 <? 128 then 1%nat else if byte_in 194 223 b0 then 2%nat
  else if byte_in 224 239 b0 then 3%nat else if byte_in 240 244 b0 then 4%nat else 0%nat.

(** Whether [b1] may follow the lead byte [b0]: overlong forms, surrogates
    and values above U+10FFFF are excluded here. *)
Definition second_ok (b0 b1 : Z) : bool :=
  if b0 =? 224 then byte_in 160 191 b1 else if b0 =? 237 then byte_in 128 159 b1
  else if b0 =? 240 then byte_in 144 191 b1 else if b0 =? 244 then byte_in 128 143 b1
  else is_cont b1.

(** How many of the bytes [rest] after [b0] belong to its sequence of
    [n + 1] bytes, up to the first that does not. *)
Fixpoint conts (n : nat) (rest : list Z) : nat :=
  match n, rest with
  | S n, b :: rest => if is_cont b then S (conts n rest) else 0%nat
  | _, _ => 0%nat
  end.

(** The first sequence of [b0 :: rest]: whether it is a character, and its
    length; a malformed sequence is as long as its well-formed beginning, and
    at least one byte. *)
Definition utf8_next (b0 : Z) (rest : list Z) : bool * nat :=
  match utf8_width b0, rest with
  | 1%nat, _ => (true, 1%nat)
  | S (S n), b1 :: rest =>
      if second_ok b0 b1 then
        let k := conts n rest in ((k =? n)%nat, S (S k))
      else (false, 1%nat)
  | _, _ => (false, 1%nat)
  end.

Fixpoint utf8_split (fuel : nat) (s : list Z) : list (bool * list Z) :=
  match fuel, s with
  | S fuel, b0 :: rest =>
      let '(ok, n) := utf8_next b0 rest in
      (ok, take n s) :: utf8_split fuel (drop n s)
  | _, _ => []
  end.

(** The characters and malformed sequences of a byte string, in order. *)
Definition utf8_pieces (s : list Z) : list (bool * list Z) := utf8_split (length s) s.

Definition valid_utf8 (s : list Z) : bool := forallb fst (utf8_pieces s).

(** [std::str::from_utf8] *)
Definition from_utf8 (s : list Z) : option (list Z) := if valid_utf8 s then Some s else None.

(** [String::from_utf8_lossy]: U+FFFD for each malformed sequence. *)
Definition from_utf8_lossy (s : list Z) : list Z :=
  concat ((λ p : bool * list Z, if p.1 then p.2 else [239; 191; 189]) <$> utf8_pieces s).

(** ** Searching and splitting *)

(** [s.strip_prefix(pat)] *)
Fixpoint after_prefix (pat s : list Z) : option (list Z) :=
  match pat, s with
  | [], _ => Some s
  | p :: pat, b :: s => if p =? b then after_prefix pat s else None
  | _ :: _, [] => None
  end.

(** [s.find(pat)] *)
Fixpoint find_sub (pat s : list Z) : option nat :=
  match after_prefix pat s with
  | Some _ => Some 0%nat
  | None => match s with [] => None | _ :: s => S <$> find_sub pat s end
  end.

(** The part before the first [c], and the part after it if there is one. *)
Fixpoint split_once (c : Z) (s : list Z) : list Z * option (list Z) :=
  match s with
  | [] => ([], None)
  | b :: s =>
      if b =? c then ([], Some s)
      else let '(x, y) := split_once c s in (b :: x, y)
  end.

(** ** Trimming *)

(** The encodings of the characters with the property [White_Space]. *)
Definition WHITE_SPACE : list (list Z) :=
  [[9]; [10]; [11]; [12]; [13]; [32]; [194; 133]; [194; 160]; [225; 154; 128]]
  ++ ((λ b, [226; 128; b]) <$> [128; 129; 130; 131; 132; 133; 134; 135; 136; 137; 138; 168; 169; 175])
  ++ [[226; 129; 159]; [227; 128; 128]].

(** What is left of [s] after the first of [pats] that begins it. *)
Fixpoint strip_one (pats : list (list Z)) (s : list Z) : option (list Z) :=
  match pats with
  | [] => None
  | p :: pats => match after_prefix p s with Some s => Some s | None => strip_one pats s end
  end.

Fixpoint strip_all (pats : list (list Z)) (fuel : nat) (s : list Z) : list Z :=
  match fuel with
  | O => s
  | S fuel => match strip_one pats s with Some s => strip_all pats fuel s | None => s end
  end.

Definition trim_start (s : list Z) : list Z := strip_all WHITE_SPACE (length s) s.
Definition trim_end (s : list Z) : list Z :=
  reverse (strip_all (reverse <$> WHITE_SPACE) (length s) (reverse s)).
Definition trim (s : list Z) : list Z := trim_end (trim_start s).

(** ** Decimal notation *)

Definition is_digit (b : Z) : bool := byte_in 48 57 b.

Fixpoint show_fuel (fuel : nat) (n : Z) : list Z :=
  match fuel with
  | O => []
  | S fuel => if n <? 10 then [48 + n] else show_fuel fuel (n / 10) ++ [48 + n mod 10]
  end.

(** [n.to_string()] for an unsigned integer. *)
Definition show (n : Z) : list Z := show_fuel (S (Z.to_nat (Z.log2 n))) n.

Fixpoint parse_digits (max acc : Z) (s : list Z) : option Z :=
  match s with
  | [] => Some acc
  | b :: s =>
      if is_digit b then
        let acc := acc * 10 + (b - 48) in
        if max <? acc then None else parse_digits max acc s
      else None
  end.

(** [s.parse::<uN>()] with [max] the largest value of the type: a sign [+] is
    accepted. *)
Definition parse_uint (max : Z) (s : list Z) : option Z :=
  match s with
  | [] => None
  | b :: s' =>
      if b =? 43 then match s' with [] => None | _ => parse_digits max 0 s' end
      else parse_digits max 0 s
  end.

(** ** Facts about UTF-8 *)

Lemma conts_le n rest : (conts n rest ≤ n)%nat ∧ (conts n rest ≤ length rest)%nat.
Proof.
  revert rest. induction n as [|n IH]; intros [|b rest]; cbn; try lia.
  destruct (is_cont b); cbn; [|lia]. specialize (IH rest). lia.
Qed.

Lemma conts_app n a b : conts n a = n → conts n (a ++ b) = n.
Proof.
  revert a. induction n as [|n IH]; intros [|x a]; cbn; try lia.
  destruct (is_cont x); [|lia]. intros Ha. rewrite IH; lia.
Qed.

Lemma utf8_next_length b0 rest :
  (1 ≤ (utf8_next b0 rest).2 ≤ S (length rest))%nat.
Proof.
  unfold utf8_next. destruct (utf8_width b0) as [|[|n]], rest as [|b1 rest]; cbn; try lia.
  destruct (second_ok b0 b1); cbn; [|lia]. pose proof (conts_le n rest). lia.
Qed.

(** A character does not depend on what follows it. *)
Lemma utf8_next_app b0 a b :
  (utf8_next b0 a).1 = true → utf8_next b0 (a ++ b) = utf8_next b0 a.
Proof.
  unfold utf8_next. destruct (utf8_width b0) as [|[|n]], a as [|b1 a]; cbn; try done.
  destruct (second_ok b0 b1); cbn; [|done].
  destruct (Nat.eqb_spec (conts n a) n) as [Hn|]; [|done]. intros _.
  by rewrite conts_app, Hn, Nat.eqb_refl.
Qed.

Lemma utf8_split_fuel n m s :
  (length s ≤ n)%nat → (length s ≤ m)%nat → utf8_split n s = utf8_split m s.
Proof.
  revert m s. induction n as [|n IH]; intros m [|b0 rest] Hn Hm; try (by destruct m).
  { cbn in Hn. lia. }
  destruct m as [|m]; [cbn in Hm; lia|]. cbn [utf8_split].
  pose proof (utf8_next_length b0 rest) as Hl.
  destruct (utf8_next b0 rest) as [ok k]. cbn in Hl. f_equal. apply IH; rewrite length_drop;
    cbn in *; lia.
Qed.

Lemma utf8_pieces_cons b0 rest :
  utf8_pieces (b0 :: rest)
  = ((utf8_next b0 rest).1, take (utf8_next b0 rest).2 (b0 :: rest))
    :: utf8_pieces (drop (utf8_next b0 rest).2 (b0 :: rest)).
Proof.
  unfold utf8_pieces. cbn [length utf8_split].
  pose proof (utf8_next_length b0 rest) as Hl.
  destruct (utf8_next b0 rest) as [ok k]. cbn in Hl |- *. f_equal.
  apply utf8_split_fuel; [|done]. rewrite length_drop. cbn. lia.
Qed.

(** Induction along the sequences of a byte string. *)
Lemma utf8_ind (P : list Z → Prop) :
  P [] →
  (∀ b0 rest, P (drop (utf8_next b0 rest).2 (b0 :: rest)) → P (b0 :: rest)) →
  ∀ s, P s.
Proof.
  intros H0 HS s. remember (length s) as n eqn:Hn. revert s Hn.
  induction n as [n IH] using lt_wf_ind; intros [|b0 rest] Hn; [done|].
  apply HS. eapply IH; [|done]. rewrite length_drop.
  pose proof (utf8_next_length b0 rest). cbn in *. lia.
Qed.

Lemma utf8_pieces_concat s : concat (snd <$> utf8_pieces s) = s.
Proof.
  induction s as [|b0 rest IH] using utf8_ind; [done|].
  rewrite utf8_pieces_cons. cbn [fmap list_fmap concat snd].
  rewrite IH. apply take_drop.
Qed.

Lemma utf8_pieces_app a b :
  valid_utf8 a = true → utf8_pieces (a ++ b) = utf8_pieces a ++ utf8_pieces b.
Proof.
  induction a as [|b0 rest IH] using utf8_ind; [done|].
  unfold valid_utf8. rewrite utf8_pieces_cons. cbn [forallb fst].
  rewrite andb_true_iff. intros [Hok Hv].
  change ((b0 :: rest) ++ b) with (b0 :: (rest ++ b)). rewrite utf8_pieces_cons.
  rewrite utf8_next_app by done. cbn [app]. pose proof (utf8_next_length b0 rest) as Hl.
  change (b0 :: rest ++ b) with ((b0 :: rest) ++ b).
  rewrite take_app_le, drop_app_le by (cbn; lia). by rewrite IH.
Qed.

Lemma valid_utf8_app a b : valid_utf8 a = true → valid_utf8 (a ++ b) = valid_utf8 b.
Proof.
  intros Ha. unfold valid_utf8 in *. rewrite utf8_pieces_app by done.
  by rewrite forallb_app, Ha.
Qed.

Lemma valid_utf8_ascii s : ascii s → valid_utf8 s = true.
Proof.
  induction 1 as [|b s Hb _ IH]; [done|].
  unfold valid_utf8. rewrite utf8_pieces_cons. unfold utf8_next, utf8_width.
  rewrite (proj2 (Z.ltb_lt _ _)) by lia. cbn. done.
Qed.

Lemma from_utf8_lossy_valid s : valid_utf8 s = true → from_utf8_lossy s = s.
Proof.
  intros Hv. rewrite <- (utf8_pieces_concat s) at 2. unfold from_utf8_lossy, valid_utf8 in *.
  induction (utf8_pieces s) as [|[ok p] l IH]; [done|]. cbn in *.
  destruct ok; [|done]. by rewrite IH.
Qed.

(** A valid string starts at a character boundary. *)
Definition starts_char (s : list Z) : Prop :=
  match s with [] => True | b :: _ => is_cont b = false end.

Lemma valid_utf8_starts s : valid_utf8 s = true → starts_char s.
Proof.
  destruct s as [|b0 rest]; [done|]. unfold valid_utf8. rewrite utf8_pieces_cons.
  cbn. rewrite andb_true_iff. intros [Hok _]. unfold utf8_next, utf8_width in Hok.
  unfold is_cont, byte_in in *.
  destruct (Z.ltb_spec b0 128); [rewrite (proj2 (Z.leb_gt 128 b0)) by lia; done|].
  destruct (Z.leb_spec b0 191); [|by rewrite andb_false_r].
  rewrite (proj2 (Z.leb_gt 194 b0)), (proj2 (Z.leb_gt 224 b0)), (proj2 (Z.leb_gt 240 b0)) in Hok
    by lia. cbn in Hok. done.
Qed.

(** ** Facts about trimming *)

Lemma after_prefix_spec pat s r : after_prefix pat s = Some r ↔ s = pat ++ r.
Proof.
  revert s. induction pat as [|p pat IH]; intros [|b s]; cbn; [naive_solver..|].
  destruct (Z.eqb_spec p b) as [->|]; [rewrite IH|]; naive_solver.
Qed.

Lemma after_prefix_app pat r : after_prefix pat (pat ++ r) = Some r.
Proof. by apply after_prefix_spec. Qed.

(** No pattern is empty, and none begins another. *)
Definition prefix_free (pats : list (list Z)) : Prop :=
  Forall (λ p, p ≠ [] ∧ Forall (λ q, after_prefix p q = None ∨ p = q) pats) pats.

#[export] Instance prefix_free_dec pats : Decision (prefix_free pats).
Proof. unfold prefix_free. apply _. Defined.

Lemma WHITE_SPACE_free : prefix_free WHITE_SPACE.
Proof. apply (bool_decide_unpack _). vm_compute. exact I. Qed.
Lemma WHITE_SPACE_rev_free : prefix_free (reverse <$> WHITE_SPACE).
Proof. apply (bool_decide_unpack _). vm_compute. exact I. Qed.

Section strip.
Context (pats : list (list Z)) (Hfree : prefix_free pats).

Lemma strip_one_Some s r : strip_one pats s = Some r → ∃ p, p ∈ pats ∧ s = p ++ r.
Proof.
  clear Hfree. induction pats as [|p l IH]; cbn; [done|].
  destruct (after_prefix p s) eqn:Hp.
  - intros [= ->]. apply after_prefix_spec in Hp. exists p. split; [left|done].
  - intros Hr. destruct (IH Hr) as (q & Hq & ->). exists q. split; [by right|done].
Qed.

Lemma strip_one_None s : strip_one pats s = None ↔ ∀ p r, p ∈ pats → s ≠ p ++ r.
Proof.
  clear Hfree. induction pats as [|p l IH]; cbn.
  { split; [|done]. by intros _ p r Hp%elem_of_nil. }
  setoid_rewrite elem_of_cons. destruct (after_prefix p s) eqn:Hp.
  - apply after_prefix_spec in Hp. split; [done|]. intros Hn. by destruct (Hn p l0); [left|].
  - rewrite IH. split; [|naive_solver]. intros Hn q r [->|Hq]; [|by apply Hn].
    intros ->. by rewrite after_prefix_app in Hp.
Qed.

Lemma strip_one_app p r : p ∈ pats → strip_one pats (p ++ r) = Some r.
Proof.
  intros Hp. destruct (strip_one pats (p ++ r)) as [r'|] eqn:E.
  2:{ by destruct (proj1 (strip_one_None _) E p r Hp). }
  apply strip_one_Some in E as (q & Hq & E). unfold prefix_free in Hfree.
  rewrite Forall_forall in Hfree. destruct (Hfree p Hp) as [_ Hpq], (Hfree q Hq) as [_ Hqp].
  rewrite Forall_forall in Hpq, Hqp. apply app_eq_inv in E as [(k & -> & ->)|(k & -> & ->)].
  - destruct (Hqp _ Hp) as [Hn|Hn]; [by rewrite after_prefix_app in Hn|].
    apply (f_equal length) in Hn. rewrite length_app in Hn. by destruct k; cbn in *; [|lia].
  - destruct (Hpq _ Hq) as [Hn|Hn]; [by rewrite after_prefix_app in Hn|].
    apply (f_equal length) in Hn. rewrite length_app in Hn. by destruct k; cbn in *; [|lia].
Qed.

Lemma pat_nonempty p : p ∈ pats → (0 < length p)%nat.
Proof.
  unfold prefix_free in Hfree. rewrite Forall_forall in Hfree.
  intros Hp. destruct (Hfree p Hp) as [Hn _]. by destruct p; cbn; [|lia].
Qed.

(** [strip_all] removes the longest run of patterns at the front. *)
Lemma strip_all_split fuel s :
  (length s ≤ fuel)%nat →
  ∃ ps, Forall (.∈ pats) ps ∧ s = concat ps ++ strip_all pats fuel s
    ∧ strip_one pats (strip_all pats fuel s) = None.
Proof.
  revert s. induction fuel as [|fuel IH]; intros s Hs; cbn [strip_all].
  - exists []. split; [done|]. split; [done|]. destruct s; [|cbn in Hs; lia].
    apply strip_one_None. intros p r Hp E. apply pat_nonempty in Hp.
    apply (f_equal length) in E. rewrite length_app in E. cbn in E. lia.
  - destruct (strip_one pats s) as [s'|] eqn:E; [|by exists []].
    apply strip_one_Some in E as (p & Hp & ->). rewrite length_app in Hs.
    pose proof (pat_nonempty p Hp). destruct (IH s') as (ps & Hps & Heq & Hnone); [lia|].
    exists (p :: ps). split; [by constructor|]. split; [|done]. cbn. rewrite <- app_assoc. congruence.
Qed.

Lemma strip_all_unique fuel ps r :
  Forall (.∈ pats) ps → strip_one pats r = None → (length (concat ps) ≤ fuel)%nat →
  strip_all pats fuel (concat ps ++ r) = r.
Proof.
  revert fuel. induction ps as [|p ps IH]; intros fuel Hps Hr Hl; cbn [concat app].
  - destruct fuel; cbn; [done|by rewrite Hr].
  - apply Forall_cons in Hps as [Hp Hps]. pose proof (pat_nonempty p Hp). cbn in Hl.
    rewrite length_app in Hl. destruct fuel as [|fuel]; [lia|]. cbn [strip_all].
    rewrite <- app_assoc, strip_one_app by done. apply IH; [done|done|lia].
Qed.
End strip.

(** A run of white space. *)
Definition spaces (s : list Z) : Prop := ∃ ps, Forall (.∈ WHITE_SPACE) ps ∧ s = concat ps.

Definition no_ws_start (s : list Z) : Prop := ∀ w r, w ∈ WHITE_SPACE → s ≠ w ++ r.
Definition no_ws_end (s : list Z) : Prop := ∀ w r, w ∈ WHITE_SPACE → s ≠ r ++ w.

Lemma spaces_nil : spaces [].
Proof. by exists []. Qed.

Lemma spaces_app a b : spaces a → spaces b → spaces (a ++ b).
Proof.
  intros (ps & Hp & ->) (qs & Hq & ->). exists (ps ++ qs).
  by rewrite Forall_app, concat_app.
Qed.

Lemma spaces_space : spaces [32].
Proof. exists [[32]]. split; [|done]. repeat constructor. Qed.

Lemma trim_start_spec s :
  ∃ sp, spaces sp ∧ s = sp ++ trim_start s ∧ no_ws_start (trim_start s).
Proof.
  destruct (strip_all_split _ WHITE_SPACE_free (length s) s) as (ps & Hps & Hs & Hn); [done|].
  exists (concat ps). split; [by exists ps|]. split; [exact Hs|].
  intros w r Hw. by apply (proj1 (strip_one_None WHITE_SPACE _) Hn).
Qed.

Lemma trim_start_unique sp r : spaces sp → no_ws_start r → trim_start (sp ++ r) = r.
Proof.
  intros (ps & Hps & ->) Hr. apply strip_all_unique; [exact WHITE_SPACE_free|done| |].
  - apply strip_one_None. intros p t Hp. by apply Hr.
  - rewrite length_app. lia.
Qed.

Lemma reverse_concat (ps : list (list Z)) :
  reverse (concat ps) = concat (reverse (reverse <$> ps)).
Proof.
  induction ps as [|p ps IH]; [done|]. cbn [concat fmap list_fmap].
  rewrite reverse_app, reverse_cons, concat_app, IH. cbn. by rewrite app_nil_r.
Qed.

Lemma reverse_pats_elem ps :
  Forall (.∈ reverse <$> WHITE_SPACE) ps → Forall (.∈ WHITE_SPACE) (reverse (reverse <$> ps)).
Proof.
  rewrite !Forall_forall. setoid_rewrite elem_of_reverse. intros Hps w Hw.
  apply list_elem_of_fmap in Hw as (p & -> & Hp). apply Hps in Hp.
  apply list_elem_of_fmap in Hp as (q & -> & Hq). by rewrite reverse_involutive.
Qed.

Lemma trim_end_spec s :
  ∃ sp, spaces sp ∧ s = trim_end s ++ sp ∧ no_ws_end (trim_end s).
Proof.
  destruct (strip_all_split _ WHITE_SPACE_rev_free (length s) (reverse s))
    as (ps & Hps & Hs & Hn); [by rewrite length_reverse|].
  exists (concat (reverse (reverse <$> ps))). split; [eexists; split; [by apply reverse_pats_elem|done]|].
  split.
  - apply (f_equal reverse) in Hs. rewrite reverse_involutive, reverse_app, reverse_concat in Hs.
    exact Hs.
  - intros w r Hw E. apply (proj1 (strip_one_None _ _) Hn (reverse w) (reverse r)).
    + by apply list_elem_of_fmap_2.
    + rewrite <- reverse_app, <- E. unfold trim_end. by rewrite reverse_involutive.
Qed.

Lemma trim_end_unique sp r : spaces sp → no_ws_end r → trim_end (r ++ sp) = r.
Proof.
  intros (ps & Hps & ->) Hr. unfold trim_end. rewrite reverse_app, reverse_concat.
  rewrite strip_all_unique; [apply reverse_involutive|exact WHITE_SPACE_rev_free| | |].
  - rewrite Forall_forall in Hps |- *. setoid_rewrite elem_of_reverse. intros w Hw.
    apply list_elem_of_fmap in Hw as (p & -> & Hp). by apply list_elem_of_fmap_2, Hps.
  - apply strip_one_None. intros p t Hp E. apply list_elem_of_fmap in Hp as (w & -> & Hw).
    apply (Hr w (reverse t) Hw). rewrite <- (reverse_involutive r), E, reverse_app.
    by rewrite !reverse_involutive.
  - rewrite <- reverse_concat, length_reverse, length_app. lia.
Qed.

Lemma trim_end_nil : trim_end [] = [].
Proof. done. Qed.

(** The continuation bytes of a white-space character are no characters. *)
Lemma white_space_tail w k r :
  w ∈ WHITE_SPACE → w = k ++ r → k ≠ [] → r ≠ [] → ¬ starts_char r.
Proof.
  assert (Forall (λ w, Forall (λ b, is_cont b = true) (tail w)) WHITE_SPACE) as Ht
    by (apply (bool_decide_unpack _); vm_compute; exact I).
  intros Hw -> Hk Hr. rewrite Forall_forall in Ht. apply Ht in Hw.
  destruct k as [|x k]; [done|]. cbn in Hw. apply Forall_app in Hw as [_ Hw].
  destruct r as [|b r]; [done|]. apply Forall_cons in Hw as [Hb _]. cbn. by rewrite Hb.
Qed.

Lemma no_ws_end_app a r : no_ws_end r → r ≠ [] → starts_char r → no_ws_end (a ++ r).
Proof.
  intros Hr Hne Hs w t Hw E.
  apply app_eq_inv in E as [(k & _ & Ek)|(k & Ek & E)]; [|by apply (Hr w k)].
  destruct k as [|x k]; [by apply (Hr w [])|].
  eapply white_space_tail; [exact Hw|exact Ek|done..].
Qed.

(** Trimming the end of a concatenation at a character boundary. *)
Lemma trim_end_app a b :
  starts_char b →
  trim_end (a ++ b) = if decide (trim_end b = []) then trim_end a else a ++ trim_end b.
Proof.
  intros Hs. destruct (trim_end_spec b) as (sp & Hsp & Hb & Hn).
  destruct (decide (trim_end b = [])) as [E|E].
  - rewrite E in Hb. cbn in Hb. destruct (trim_end_spec a) as (sa & Hsa & Ha & Hna).
    rewrite Hb, Ha at 1. rewrite <- app_assoc. apply trim_end_unique; [by apply spaces_app|done].
  - rewrite Hb at 1. rewrite app_assoc. apply trim_end_unique; [done|].
    apply no_ws_end_app; [done|done|]. rewrite Hb in Hs. by destruct (trim_end b).
Qed.

Lemma trim_end_idemp s : trim_end (trim_end s) = trim_end s.
Proof.
  destruct (trim_end_spec s) as (sp & _ & _ & Hn).
  rewrite <- (app_nil_r (trim_end s)) at 1. by apply trim_end_unique; [apply spaces_nil|].
Qed.

Lemma spaces_valid sp : spaces sp → valid_utf8 sp = true.
Proof.
  assert (Forall (λ w, valid_utf8 w = true) WHITE_SPACE) as Hv
    by (apply (bool_decide_unpack _); vm_compute; exact I).
  intros (ps & Hps & ->). rewrite Forall_forall in Hv.
  induction Hps as [|p ps Hp _ IH]; [done|]. cbn [concat]. rewrite valid_utf8_app; [done|by apply Hv].
Qed.

(** Trimming the end first changes nothing. *)
Lemma trim_trim_end s : valid_utf8 s = true → trim (trim_end s) = trim s.
Proof.
  intros Hv. unfold trim. destruct (trim_start_spec s) as (sp & Hsp & Hs & Hn).
  set (m := trim_start s) in *. clearbody m. subst s.
  rewrite valid_utf8_app in Hv by by apply spaces_valid.
  rewrite trim_end_app by by apply valid_utf8_starts.
  destruct (trim_end_spec m) as (se & _ & Hm & _).
  destruct (decide (trim_end m = [])) as [E|E].
  - rewrite E. replace (trim_end sp) with (@nil Z); [done|].
    symmetry. change sp with ([] ++ sp). apply trim_end_unique; [done|]. intros w r Hw Hr.
    apply (f_equal length) in Hr. rewrite length_app in Hr. cbn in Hr.
    pose proof (pat_nonempty _ WHITE_SPACE_free w Hw). lia.
  - rewrite trim_start_unique; [apply trim_end_idemp|done|]. intros w r Hw Hr.
    apply (Hn w (r ++ se) Hw). rewrite Hm, Hr. by rewrite app_assoc.
Qed.

(** ** Facts about decimal notation *)

Lemma show_fuel_digits fuel n : 0 ≤ n → Forall (λ b, is_digit b = true) (show_fuel fuel n).
Proof.
  revert n. induction fuel as [|fuel IH]; intros n Hn; cbn [show_fuel]; [done|].
  assert (∀ d, 0 ≤ d < 10 → is_digit (48 + d) = true) as Hd.
  { intros d Hd. unfold is_digit, byte_in. rewrite andb_true_iff, !Z.leb_le. lia. }
  destruct (Z.ltb_spec n 10); [repeat constructor; apply Hd; lia|].
  apply Forall_app. split; [apply IH, Z.div_pos; lia|].
  repeat constructor. apply Hd, Z.mod_pos_bound. lia.
Qed.

Lemma show_digits n : 0 ≤ n → Forall (λ b, is_digit b = true) (show n).
Proof. apply show_fuel_digits. Qed.

Lemma show_fuel_nonempty fuel n : show_fuel (S fuel) n ≠ [].
Proof.
  cbn [show_fuel]. destruct (n <? 10); [done|].
  by destruct (show_fuel fuel (n / 10)).
Qed.

Lemma parse_digits_app max acc a b :
  parse_digits max acc (a ++ b) = parse_digits max acc a ≫= λ acc, parse_digits max acc b.
Proof.
  revert acc. induction a as [|x a IH]; intros acc; cbn; [done|].
  destruct (is_digit x); [|done]. destruct (max <? _); [done|apply IH].
Qed.

Lemma parse_digits_show_fuel max fuel n :
  0 ≤ n ≤ max → n < 2 ^ Z.of_nat fuel → parse_digits max 0 (show_fuel fuel n) = Some n.
Proof.
  revert n. induction fuel as [|fuel IH]; intros n Hn Hf.
  { change (2 ^ Z.of_nat 0) with 1 in Hf. by replace n with 0 by lia. }
  rewrite Nat2Z.inj_succ, Z.pow_succ_r in Hf by lia.
  assert (∀ d acc, 0 ≤ d < 10 → acc * 10 + d ≤ max →
    parse_digits max acc [48 + d] = Some (acc * 10 + d)) as Hd.
  { intros d acc Hd Hm. cbn. unfold is_digit, byte_in.
    rewrite (proj2 (Z.leb_le 48 _)), (proj2 (Z.leb_le _ 57)) by lia. cbn.
    replace (acc * 10 + (48 + d - 48)) with (acc * 10 + d) by lia.
    by rewrite (proj2 (Z.ltb_ge _ _)) by lia. }
  cbn [show_fuel]. destruct (Z.ltb_spec n 10).
  - rewrite Hd by lia. f_equal; lia.
  - pose proof (Z.div_mod n 10 ltac:(lia)). pose proof (Z.mod_pos_bound n 10 ltac:(lia)).
    rewrite parse_digits_app, IH by lia. cbn [mbind option_bind]. rewrite Hd by lia.
    f_equal. lia.
Qed.

Lemma parse_digits_head max b s :
  is_digit b = true → parse_uint max (b :: s) = parse_digits max 0 (b :: s).
Proof.
  intros Hb. unfold parse_uint. destruct (Z.eqb_spec b 43) as [->|]; [by vm_compute in Hb|done].
Qed.

(** Printing and parsing an unsigned integer. *)
Lemma parse_show max n : 0 ≤ n ≤ max → parse_uint max (show n) = Some n.
Proof.
  intros Hn. pose proof (show_digits n ltac:(lia)) as Hd.
  assert (parse_digits max 0 (show n) = Some n) as Hp.
  { apply parse_digits_show_fuel; [done|]. rewrite Nat2Z.inj_succ, Z2Nat.id by apply Z.log2_nonneg.
    destruct (Z.eq_dec n 0) as [->|]; [done|]. apply Z.log2_spec. lia. }
  destruct (show n) as [|b s] eqn:E.
  - unfold show in E. by apply show_fuel_nonempty in E.
  - apply Forall_cons in Hd as [Hb _]. by rewrite parse_digits_head.
Qed.

Lemma digits_ascii s : Forall (λ b, is_digit b = true) s → ascii s.
Proof.
  intros Hs. eapply Forall_impl; [exact Hs|]. intros b. unfold is_digit, byte_in. rewrite andb_true_iff, !Z.leb_le. lia.
Qed.

Lemma ascii_app a b : ascii (a ++ b) ↔ ascii a ∧ ascii b.
Proof. apply Forall_app. Qed.

(** ** Facts about splitting *)

Lemma split_once_None c s : c ∉ s → split_once c s = (s, None).
Proof.
  induction s as [|b s IH]; cbn; [done|]. rewrite not_elem_of_cons. intros [Hb Hs].
  rewrite (proj2 (Z.eqb_neq _ _)) by done. by rewrite IH.
Qed.

Lemma split_once_app c s t : c ∉ s → split_once c (s ++ c :: t) = (s, Some t).
Proof.
  induction s as [|b s IH]; cbn; [by rewrite Z.eqb_refl|]. rewrite not_elem_of_cons. intros [Hb Hs].
  rewrite (proj2 (Z.eqb_neq _ _)) by done. by rewrite IH.
Qed.

Lemma digit_not_in c s :
  Forall (λ b, is_digit b = true) s → is_digit c = false → c ∉ s.
Proof. intros Hs Hc Hin. rewrite Forall_forall in Hs. apply Hs in Hin. congruence. Qed.

Lemma no_ws_end_digits s :
  Forall (λ b, is_digit b = true) s → no_ws_end s.
Proof.
  assert (Forall (λ w, is_digit (default 48 (last w)) = false) WHITE_SPACE) as Hl
    by (apply (bool_decide_unpack _); vm_compute; exact I).
  intros Hs w r Hw ->. rewrite Forall_forall in Hl. apply Hl in Hw.
  apply Forall_app in Hs as [_ Hs]. destruct (last w) as [b|] eqn:E; [|by vm_compute in Hw].
  apply last_Some in E as [l ->]. apply Forall_app in Hs as [_ Hs].
  apply Forall_cons in Hs as [Hb _]. cbn in Hw. congruence.
Qed.

Lemma parse_digits_bound max acc s n :
  0 ≤ acc ≤ max → parse_digits max acc s = Some n → 0 ≤ n ≤ max.
Proof.
  revert acc. induction s as [|b s IH]; intros acc Ha; cbn; [naive_solver|].
  destruct (is_digit b) eqn:Hb; [|done]. unfold is_digit, byte_in in Hb.
  apply andb_true_iff in Hb as [?%Z.leb_le ?%Z.leb_le].
  destruct (Z.ltb_spec max (acc * 10 + (b - 48))); [done|]. apply IH. lia.
Qed.

Lemma parse_uint_bound max s n : 0 ≤ max → parse_uint max s = Some n → 0 ≤ n ≤ max.
Proof.
  intros Hm. unfold parse_uint. destruct s as [|b s]; [done|]. destruct (b =? 43).
  - destruct s; [done|]. apply parse_digits_bound. lia.
  - apply parse_digits_bound. lia.
Qed.
