(* ===== verification/Checksum.v ===== *)
(** * CRC-16/CCITT-FALSE

    Models [gravital-talk-core/src/checksum.rs]: the lookup table built at
    compile time and the table-driven checksums.  The reference is the
    bit-serial division by x^16 + x^12 + x^5 + 1; the table-driven code is
    proved equal to it, and its error detection follows from the linearity
    and injectivity of the division step. *)

From Stdlib Require Import List.
From S2P Require Import Prelude.

Definition POLY : Z := 4129.   (* 0x1021 *)
Definition INIT : Z := 65535.  (* 0xFFFF *)

(** [x << n] on a [u16]. *)
Definition shl16 (x n : Z) : Z := wrap16 (Z.shiftl x n).

(** One iteration of the inner [while bit < 8] loop of [build_table]. *)
Definition table_bit (crc : Z) : Z :=
  if negb (Z.land crc 32768 =? 0) then Z.lxor (shl16 crc 1) POLY else shl16 crc 1.

(** [build_table]: the outer loop fills [table[i]] for [i] in [0..256]. *)
Definition build_table : list Z :=
  foldl (λ table i, <[i := Nat.iter 8 table_bit (shl16 (Z.of_nat i) 8)]> table)
        (replicate 256 0) (seq 0 256).

Definition TABLE : list Z := Eval vm_compute in build_table.

(** The loop body shared by the checksum loops:
    [let idx = ((crc >> 8) as u8 ^ byte) as usize;
     crc = (crc << 8) ^ TABLE[idx];] *)
Definition crc_body (crc byte : Z) : Z :=
  let idx := Z.to_nat (Z.lxor (wrap8 (Z.shiftr crc 8)) byte) in
  Z.lxor (shl16 crc 8) (TABLE !!! idx).

Definition crc16_table (data : list Z) : Z := foldl crc_body INIT data.

Definition crc16_ccitt_false (data : list Z) : Z := crc16_table data.

Definition crc16_two_segments (segment_a segment_b : list Z) : Z :=
  let crc := foldl crc_body INIT segment_a in
  foldl crc_body crc segment_b.

(** ** Reference: bit-serial division *)

Definition crc_byte_ref (crc byte : Z) : Z :=
  Nat.iter 8 table_bit (Z.lxor crc (Z.shiftl byte 8)).

Definition crc_ref (crc : Z) (data : list Z) : Z := foldl crc_byte_ref crc data.

Lemma crc_ref_cons c b l : crc_ref c (b :: l) = crc_ref (crc_byte_ref c b) l.
Proof. reflexivity. Qed.
Lemma crc_ref_app c l1 l2 : crc_ref c (l1 ++ l2) = crc_ref (crc_ref c l1) l2.
Proof. apply foldl_app. Qed.
Lemma crc_ref_nil c : crc_ref c [] = c.
Proof. reflexivity. Qed.
Lemma crc_byte_ref_eq c b : crc_byte_ref c b = Nat.iter 8 table_bit (Z.lxor c (Z.shiftl b 8)).
Proof. reflexivity. Qed.

Example crc16_check_value :
  crc16_ccitt_false [49; 50; 51; 52; 53; 54; 55; 56; 57] = 10673.  (* 0x29B1 *)
Proof. reflexivity. Qed.
Example crc16_single_byte : crc16_ccitt_false [65] = 47381.  (* 0xB915 *)
Proof. reflexivity. Qed.

(** ** The division step is linear and injective on [u16] *)

Lemma shl16_lxor a b n : 0 ≤ n → shl16 (Z.lxor a b) n = Z.lxor (shl16 a n) (shl16 b n).
Proof.
  intros Hn. unfold shl16, wrap16. change 65536 with (2 ^ 16).
  rewrite <-!Z.land_ones by lia. apply Z.bits_inj'. intros k Hk.
  rewrite ?Z.land_spec, ?Z.lxor_spec, ?Z.land_spec, ?Z.shiftl_spec by lia.
  rewrite Z.lxor_spec. by destruct (Z.testbit a (k - n)), (Z.testbit b (k - n)),
    (Z.testbit (Z.ones 16) k).
Qed.

Lemma table_bit_spec c :
  table_bit c = Z.lxor (shl16 c 1) (if Z.testbit c 15 then POLY else 0).
Proof.
  unfold table_bit. replace (Z.land c 32768 =? 0) with (negb (Z.testbit c 15)).
  - destruct (Z.testbit c 15); simpl; by rewrite ?Z.lxor_0_r.
  - change 32768 with (2 ^ 15). destruct (Z.testbit c 15) eqn:E; simpl; symmetry.
    + apply Z.eqb_neq. intros H. apply (f_equal (λ z, Z.testbit z 15)) in H.
      rewrite Z.land_spec, E in H. done.
    + apply Z.eqb_eq. apply Z.bits_inj'. intros k Hk. rewrite Z.land_spec, Z.bits_0.
      rewrite Z.pow2_bits_eqb by lia. destruct (Z.eqb_spec 15 k) as [<-|_].
      * by rewrite E.
      * by rewrite andb_false_r.
Qed.

Lemma table_bit_lxor a b : table_bit (Z.lxor a b) = Z.lxor (table_bit a) (table_bit b).
Proof.
  rewrite !table_bit_spec, shl16_lxor, Z.lxor_spec by lia.
  apply Z.bits_inj'. intros k Hk. rewrite !Z.lxor_spec.
  destruct (Z.testbit a 15), (Z.testbit b 15); cbn [xorb]; rewrite ?Z.bits_0;
    destruct (Z.testbit (shl16 a 1) k), (Z.testbit (shl16 b 1) k), (Z.testbit POLY k);
    reflexivity.
Qed.

Lemma table_bit_u16 c : u16 (table_bit c).
Proof.
  rewrite table_bit_spec. apply lxor_u16; [apply wrap16_u16|].
  by destruct (Z.testbit c 15).
Qed.

Lemma table_bit_0 c : u16 c → table_bit c = 0 → c = 0.
Proof.
  intros Hc. rewrite table_bit_spec. intros H. apply Z.lxor_eq in H.
  revert H. unfold shl16. rewrite Z.shiftl_mul_pow2 by lia. change (2 ^ 1) with 2.
  destruct (Z.testbit c 15) eqn:E; unfold POLY; [dlia|].
  intros H. destruct (decide (c < 32768)); [dlia|].
  assert (Z.testbit c 15 = true); [|congruence].
  apply Z.testbit_true; [lia|]. change (2 ^ 15) with 32768. dlia.
Qed.

Lemma iter_bit_lxor n a b :
  Nat.iter n table_bit (Z.lxor a b) = Z.lxor (Nat.iter n table_bit a) (Nat.iter n table_bit b).
Proof. induction n as [|n IH]; simpl; [done|]. by rewrite IH, table_bit_lxor. Qed.

Lemma iter_bit_u16 n c : u16 c → u16 (Nat.iter n table_bit c).
Proof. destruct n; simpl; [done|]. intros _. apply table_bit_u16. Qed.

Lemma iter_bit_0 n c : u16 c → Nat.iter n table_bit c = 0 → c = 0.
Proof.
  intros Hc. induction n as [|n IH]; simpl; [done|]. intros H.
  apply IH, table_bit_0, H. by apply iter_bit_u16.
Qed.

Lemma iter_bit_zero n : Nat.iter n table_bit 0 = 0.
Proof. induction n as [|n IH]; simpl; [done|]. by rewrite IH. Qed.

(** ** The table-driven code computes the division *)

Lemma TABLE_spec i : 0 ≤ i < 256 → TABLE !!! Z.to_nat i = Nat.iter 8 table_bit (shl16 i 8).
Proof.
  intros Hi.
  assert (forallb (λ k, TABLE !!! k =? Nat.iter 8 table_bit (shl16 (Z.of_nat k) 8))
            (seq 0 256) = true) as HF by (vm_compute; reflexivity).
  rewrite forallb_forall in HF. specialize (HF (Z.to_nat i)).
  rewrite Z2Nat.id in HF by lia. apply Z.eqb_eq, HF, in_seq. lia.
Qed.

(** Eight division steps on a value below 2^8 only shift it. *)
Lemma iter8_low x : u8 x → Nat.iter 8 table_bit x = shl16 x 8.
Proof.
  intros Hx. assert (∀ n, (n ≤ 8)%nat → Nat.iter n table_bit x = Z.shiftl x (Z.of_nat n)) as H.
  { induction n as [|n IH]; intros Hn; [by rewrite Z.shiftl_0_r|].
    simpl. rewrite IH by lia. rewrite table_bit_spec.
    replace (Z.testbit _ 15) with false.
    - rewrite Z.lxor_0_r. unfold shl16. rewrite Z.shiftl_shiftl by lia.
      replace (Z.of_nat (S n)) with (Z.of_nat n + 1) by lia. apply wrap16_id.
      rewrite Z.shiftl_mul_pow2 by lia. 
      assert (0 < 2 ^ (Z.of_nat n + 1) ≤ 2 ^ 8) by
        (split; [lia|apply Z.pow_le_mono_r; lia]).
      unfold_width. nia.
    - symmetry. rewrite Z.shiftl_spec by lia.
      rewrite <-(Z.mod_small x (2 ^ 8)) by done. apply Z.mod_pow2_bits_high. lia. }
  rewrite H by lia. symmetry. apply wrap16_id. rewrite Z.shiftl_mul_pow2 by lia. ulia.
Qed.

(** A 16-bit value is the exclusive or of its two halves. *)
Lemma u16_halves c : u16 c → c = Z.lxor (shl16 (Z.shiftr c 8) 8) (wrap8 c).
Proof.
  intros Hc. unfold shl16, wrap8. rewrite <-(wrap16_id c) at 1 by done. unfold wrap16.
  change 65536 with (2 ^ 16). change 256 with (2 ^ 8).
  rewrite <-!Z.land_ones by lia. apply Z.bits_inj'. intros k Hk.
  rewrite ?Z.lxor_spec, ?Z.land_spec, ?Z.shiftl_spec by lia.
  rewrite !Z.testbit_ones_nonneg by lia.
  destruct (Z.ltb_spec k 8), (Z.ltb_spec k 16); try lia;
    rewrite ?andb_true_r, ?andb_false_r, ?xorb_false_r; try done.
  - by rewrite (Z.testbit_neg_r _ (k - 8)) by lia.
  - rewrite Z.shiftr_spec by lia. f_equal. lia.
Qed.

Lemma crc_body_ref crc byte : u16 crc → u8 byte → crc_body crc byte = crc_byte_ref crc byte.
Proof.
  intros Hc Hb. unfold crc_body, crc_byte_ref.
  assert (u8 (Z.shiftr crc 8)) as Hs.
  { rewrite Z.shiftr_div_pow2 by lia. change (2 ^ 8) with 256. dlia. }
  assert (wrap8 (Z.shiftr crc 8) = Z.shiftr crc 8) as -> by dlia.
  rewrite TABLE_spec by (by apply lxor_u8).
  replace (Z.lxor crc (Z.shiftl byte 8)) with
    (Z.lxor (shl16 (Z.lxor (Z.shiftr crc 8) byte) 8) (wrap8 crc)).
  - rewrite iter_bit_lxor, Z.lxor_comm, (iter8_low (wrap8 crc)) by apply wrap8_u8.
    f_equal. unfold shl16. rewrite !Z.shiftl_mul_pow2 by lia. change (2 ^ 8) with 256.
    dlia.
  - rewrite (u16_halves crc) at 3 by done. rewrite shl16_lxor by lia.
    rewrite !Z.lxor_assoc. f_equal. rewrite Z.lxor_comm. f_equal.
    apply wrap16_id. rewrite Z.shiftl_mul_pow2 by lia. ulia.
Qed.

Lemma crc_body_u16 crc byte : u16 crc → u8 byte → u16 (crc_body crc byte).
Proof. intros. rewrite crc_body_ref by done. apply table_bit_u16. Qed.

Lemma crc_fold_u16 data crc : u16 crc → bytes data → u16 (foldl crc_body crc data).
Proof.
  intros Hc Hd. revert crc Hc. induction Hd; simpl; auto using crc_body_u16.
Qed.

Lemma crc_fold_ref data crc :
  u16 crc → bytes data → foldl crc_body crc data = crc_ref crc data.
Proof.
  intros Hc Hd. revert crc Hc. induction Hd; simpl; intros crc Hc; [done|].
  rewrite IHHd by (by apply crc_body_u16). by rewrite crc_body_ref.
Qed.

(** The table-driven [crc16_ccitt_false] of the code computes the
    CRC-16/CCITT-FALSE of its input, defined by bit-serial polynomial division
    with the 0xFFFF initial value, on every byte string. *)
Theorem crc16_ccitt_false_correct data :
  bytes data → crc16_ccitt_false data = crc_ref INIT data.
Proof. intros. by apply crc_fold_ref. Qed.

Lemma crc16_ccitt_false_correct_witness :
  crc16_ccitt_false [49; 50; 51] = crc_ref INIT [49; 50; 51].
Proof. apply (crc16_ccitt_false_correct [49; 50; 51]). by vm_compute; repeat constructor. Defined.

(** The checksum of two segments is that of their concatenation, so a
    received packet is checked without copying header and payload together. *)
Lemma crc16_two_segments_app a b :
  crc16_two_segments a b = crc16_ccitt_false (a ++ b).
Proof. unfold crc16_two_segments, crc16_ccitt_false, crc16_table. by rewrite foldl_app. Qed.

(** ** Error detection *)

Definition xor_bytes (l e : list Z) : list Z := zip_with Z.lxor l e.

Lemma crc_byte_ref_lxor c d b e :
  crc_byte_ref (Z.lxor c d) (Z.lxor b e) = Z.lxor (crc_byte_ref c b) (crc_byte_ref d e).
Proof.
  rewrite !crc_byte_ref_eq, <-iter_bit_lxor. f_equal.
  rewrite Z.shiftl_lxor. rewrite !Z.lxor_assoc. f_equal.
  rewrite <-!Z.lxor_assoc. f_equal. apply Z.lxor_comm.
Qed.

(** The checksum is affine: the checksum of a corrupted string differs from
    the original one by the checksum, from 0, of the error pattern. *)
Lemma crc_ref_lxor data err c d :
  length err = length data →
  crc_ref (Z.lxor c d) (xor_bytes data err) = Z.lxor (crc_ref c data) (crc_ref d err).
Proof.
  revert err c d. induction data as [|b data IH]; intros [|e err] c d Hl; try done.
  simpl. injection Hl as Hl. rewrite crc_byte_ref_lxor. by apply IH.
Qed.

Lemma crc_ref_zeros n : crc_ref 0 (replicate n 0) = 0.
Proof. induction n as [|n IH]; simpl; [done|]. exact IH. Qed.

Lemma crc_byte_ref_u16 c b : u16 (crc_byte_ref c b).
Proof. apply table_bit_u16. Qed.

Lemma crc_ref_u16 c data : u16 c → u16 (crc_ref c data).
Proof.
  revert c. induction data as [|b data IH]; simpl; intros c Hc; [done|].
  apply IH, crc_byte_ref_u16.
Qed.

(** Trailing zero bytes never cancel a difference. *)
Lemma crc_ref_zeros_inj n c : u16 c → crc_ref c (replicate n 0) = 0 → c = 0.
Proof.
  revert c. induction n as [|n IH]; simpl; intros c Hc H; [done|].
  apply IH in H; [|apply crc_byte_ref_u16].
  rewrite crc_byte_ref_eq, Z.shiftl_0_l, Z.lxor_0_r in H.
  by apply (iter_bit_0 8).
Qed.

(** Two adjacent bytes have a zero checksum only if both are zero. *)
Lemma crc_ref_pair a b : u8 a → u8 b → crc_ref 0 [a; b] = 0 → a = 0 ∧ b = 0.
Proof.
  intros Ha Hb H. rewrite !crc_ref_cons, crc_ref_nil, !crc_byte_ref_eq, Z.lxor_0_l in H.
  assert (∀ x, u8 x → Z.shiftl x 8 = Nat.iter 8 table_bit x) as Hshift.
  { intros x Hx. rewrite iter8_low by done. symmetry. apply wrap16_id.
    rewrite Z.shiftl_mul_pow2 by lia. ulia. }
  rewrite (Hshift b Hb), <-iter_bit_lxor in H.
  assert (∀ x, u8 x → u16 (Z.shiftl x 8)) as Hu16.
  { intros x Hx. rewrite Z.shiftl_mul_pow2 by lia. ulia. }
  apply iter_bit_0 in H;
    [|apply iter_bit_u16, lxor_u16; [by apply Hu16|ulia]].
  apply iter_bit_0 in H; [|apply lxor_u16; [by apply Hu16|ulia]].
  apply Z.lxor_eq in H. rewrite Z.shiftl_mul_pow2 in H by lia. ulia.
Qed.

(** A burst confined to two adjacent bytes has a nonzero checksum wherever it
    lies in the string. *)
Lemma crc_ref_burst n m a b :
  u8 a → u8 b → a ≠ 0 ∨ b ≠ 0 →
  crc_ref 0 (replicate n 0 ++ [a; b] ++ replicate m 0) ≠ 0.
Proof.
  intros Ha Hb Hab. rewrite !crc_ref_app, crc_ref_zeros. intros H.
  apply crc_ref_zeros_inj in H; [|apply crc_ref_u16; by split].
  apply crc_ref_pair in H as [-> ->]; [|done..]. by destruct Hab.
Qed.

(** Appending the checksum, big-endian, gives the residue 0. *)
Lemma crc_ref_residue c : u16 c → crc_ref c (be_bytes 2 c) = 0.
Proof.
  intros Hc. unfold be_bytes. rewrite !crc_ref_cons, crc_ref_nil.
  change (256 ^ Z.of_nat 1) with 256. change (256 ^ Z.of_nat 0) with 1. rewrite Z.div_1_r.
  assert ((c / 256) mod 256 = Z.shiftr c 8) as ->.
  { rewrite Z.shiftr_div_pow2 by lia. change (2 ^ 8) with 256. dlia. }
  assert (∀ x, u8 x → shl16 x 8 = Z.shiftl x 8) as Hshl.
  { intros x Hx. apply wrap16_id. rewrite Z.shiftl_mul_pow2 by lia. ulia. }
  assert (u8 (Z.shiftr c 8)) as Hs.
  { rewrite Z.shiftr_div_pow2 by lia. change (2 ^ 8) with 256. dlia. }
  assert (crc_byte_ref c (Z.shiftr c 8) = Z.shiftl (wrap8 c) 8) as ->.
  { rewrite crc_byte_ref_eq. rewrite (u16_halves c) at 1 by done.
    rewrite Hshl by done. rewrite Z.lxor_comm, <-Z.lxor_assoc, Z.lxor_nilpotent, Z.lxor_0_l.
    rewrite iter8_low, Hshl by apply wrap8_u8. done. }
  change (c mod 256) with (wrap8 c). rewrite crc_byte_ref_eq.
  rewrite Z.lxor_nilpotent. apply iter_bit_zero.
Qed.

(** ** Bit errors: no one- or two-bit error of a packet-sized string is missed

    The bit at distance [d] from the end of the string contributes [d + 16]
    division steps applied to 1, so two flipped bits cancel only if the
    sequence of steps from 1 repeats, which it does not within the longest
    packet of the protocol. *)

Definition bit_orbit (n : nat) : Z := Nat.iter n table_bit 1.

(** The next [fuel] iterates of the step from [c] all differ from 1. *)
Fixpoint orbit_avoids (fuel : nat) (c : Z) : bool :=
  match fuel with
  | O => true
  | S fuel => let c' := table_bit c in negb (c' =? 1) && orbit_avoids fuel c'
  end.

Lemma orbit_avoids_spec fuel c n :
  orbit_avoids fuel c = true → (0 < n ≤ fuel)%nat → Nat.iter n table_bit c ≠ 1.
Proof.
  revert c n. induction fuel as [|fuel IH]; simpl; intros c n H Hn; [lia|].
  apply andb_true_iff in H as [H1 H2]. destruct n as [|n]; [lia|].
  rewrite Nat.iter_succ_r. destruct n as [|n].
  - simpl. apply Z.eqb_neq. by destruct (table_bit c =? 1).
  - apply IH; [done|lia].
Qed.

(** The error pattern of one flipped bit of an [n]-byte string: bit [d mod 8]
    of the byte [d / 8] positions before the last. *)
Definition bit_err (n d : nat) : list Z :=
  replicate (n - 1 - d / 8) 0 ++ [2 ^ Z.of_nat (d mod 8)] ++ replicate (d / 8) 0.

Lemma length_bit_err n d : (d < 8 * n)%nat → length (bit_err n d) = n.
Proof.
  intros Hd. unfold bit_err. rewrite !length_app, !length_replicate.
  assert (d / 8 < n)%nat by (apply Nat.Div0.div_lt_upper_bound; lia).
  change (length [2 ^ Z.of_nat (d mod 8)]) with 1%nat. lia.
Qed.

Lemma crc_ref_zeros_iter m c : crc_ref c (replicate m 0) = Nat.iter (8 * m) table_bit c.
Proof.
  revert c. induction m as [|m IH]; intros c; [done|].
  cbn [replicate]. rewrite crc_ref_cons, IH, crc_byte_ref_eq, Z.shiftl_0_l, Z.lxor_0_r.
  rewrite <-Nat.iter_add. f_equal. lia.
Qed.

Lemma bit_orbit_pow2 j : (j < 16)%nat → bit_orbit j = 2 ^ Z.of_nat j.
Proof.
  intros Hj. do 16 (destruct j as [|j]; [reflexivity|]). lia.
Qed.

Lemma crc_ref_bit_err n d : (d < 8 * n)%nat → crc_ref 0 (bit_err n d) = bit_orbit (d + 16).
Proof.
  intros Hd. unfold bit_err. rewrite !crc_ref_app, crc_ref_zeros, crc_ref_cons, crc_ref_nil.
  rewrite crc_ref_zeros_iter, crc_byte_ref_eq, Z.lxor_0_l.
  rewrite Z.shiftl_mul_pow2, <-Z.pow_add_r by lia.
  pose proof (Nat.mod_upper_bound d 8).
  replace (Z.of_nat (d mod 8) + 8) with (Z.of_nat (d mod 8 + 8)) by lia.
  rewrite <-bit_orbit_pow2 by lia. unfold bit_orbit.
  rewrite <-!Nat.iter_add. f_equal. pose proof (Nat.div_mod_eq d 8). lia.
Qed.

(** Longest packet of the protocol, in bits: 24 + 1176 + 4 bytes. *)
Definition MAX_PACKET_BITS : nat := 8 * 1204.

Lemma bit_orbit_aperiodic d1 d2 :
  (d1 < d2 ≤ d1 + MAX_PACKET_BITS)%nat → bit_orbit d1 ≠ bit_orbit d2.
Proof.
  intros Hd Heq. replace d2 with (d1 + (d2 - d1))%nat in Heq by lia.
  unfold bit_orbit in Heq. rewrite Nat.iter_add in Heq.
  apply Z.lxor_eq_0_iff in Heq. rewrite <-iter_bit_lxor in Heq.
  apply iter_bit_0 in Heq.
  - apply Z.lxor_eq in Heq. symmetry in Heq. revert Heq.
    apply (orbit_avoids_spec MAX_PACKET_BITS); [vm_compute; reflexivity|lia].
  - apply lxor_u16; [by split|]. apply iter_bit_u16. by split.
Qed.

Lemma length_xor_bytes l e : length e = length l → length (xor_bytes l e) = length l.
Proof. intros. unfold xor_bytes. rewrite length_zip_with. lia. Qed.

Lemma crc_ref_xor_err c l e :
  length e = length l → crc_ref c (xor_bytes l e) = Z.lxor (crc_ref c l) (crc_ref 0 e).
Proof. intros Hl. rewrite <-(Z.lxor_0_r c) at 1. by apply crc_ref_lxor. Qed.

(** The error patterns the checksum detects, on a string of [n] bytes. *)
Inductive detectable_error (n : nat) : list Z → Prop :=
  | burst_error i a b :
      (i + 2 ≤ n)%nat → u8 a → u8 b → a ≠ 0 ∨ b ≠ 0 →
      detectable_error n (replicate i 0 ++ [a; b] ++ replicate (n - i - 2) 0)
  | bit_error d :
      (d < 8 * n)%nat → detectable_error n (bit_err n d)
  | two_bit_error d1 d2 :
      (d1 < 8 * n)%nat → (d2 < 8 * n)%nat → d1 ≠ d2 →
      detectable_error n (xor_bytes (bit_err n d1) (bit_err n d2)).

Lemma bytes_bit_err n d : bytes (bit_err n d).
Proof.
  unfold bit_err. rewrite !bytes_app. split_and!; [|repeat constructor|].
  - apply Forall_replicate. by split.
  - apply Z.pow_nonneg; lia.
  - change 256 with (2 ^ 8). apply Z.pow_lt_mono_r; [lia..|].
    pose proof (Nat.mod_upper_bound d 8). lia.
  - apply Forall_replicate. by split.
Qed.

Lemma bytes_xor_bytes l e : bytes l → bytes e → bytes (xor_bytes l e).
Proof.
  intros Hl. revert e. induction Hl as [|b l Hb Hl IH]; intros [|x e] He; try constructor.
  - apply bytes_cons in He as [? _]. by apply lxor_u8.
  - apply bytes_cons in He as [_ ?]. by apply IH.
Qed.

Lemma detectable_error_length n e : detectable_error n e → length e = n.
Proof.
  destruct 1.
  - rewrite !length_app, !length_replicate. simpl. lia.
  - by apply length_bit_err.
  - rewrite length_xor_bytes; rewrite !length_bit_err; done.
Qed.

Lemma detectable_error_bytes n e : detectable_error n e → bytes e.
Proof.
  destruct 1; [|apply bytes_bit_err|apply bytes_xor_bytes; apply bytes_bit_err].
  rewrite !bytes_app. split_and!; [|by repeat constructor; ulia|];
    apply Forall_replicate; by split.
Qed.

Lemma crc_ref_0_xor e1 e2 :
  length e2 = length e1 → crc_ref 0 (xor_bytes e1 e2) = Z.lxor (crc_ref 0 e1) (crc_ref 0 e2).
Proof. intros. by rewrite <-crc_ref_lxor. Qed.

(** Every such pattern, on a string no longer than a packet, has a nonzero
    checksum from 0, so it changes the checksum of any string. *)
Lemma detectable_error_crc n e :
  detectable_error n e → (8 * n ≤ MAX_PACKET_BITS)%nat → crc_ref 0 e ≠ 0.
Proof.
  intros He Hn. destruct He as [i a b Hi Ha Hb Hab|d Hd|d1 d2 Hd1 Hd2 Hne].
  - by apply crc_ref_burst.
  - rewrite crc_ref_bit_err by done. intros H%iter_bit_0; [done|by split].
  - rewrite crc_ref_0_xor, !crc_ref_bit_err by (rewrite ?length_bit_err; done).
    intros H%Z.lxor_eq. destruct (decide (d1 < d2)%nat).
    + revert H. apply bit_orbit_aperiodic. lia.
    + symmetry in H. revert H. apply bit_orbit_aperiodic. lia.
Qed.
