(* ===== verification/Header.v ===== *)
(** * The 24-byte packet header

    Models [gravital-talk-core/src/header.rs]: the [Flags] bitfield and
    [PacketHeader] with its [encode] and [decode]. *)

From S2P Require Import Prelude.
From S2P Require Import CoreTypes.

(** ** Flags *)

Record Flags : Type := mkFlags { flag_bits : Z }.

Definition Flags_FRAGMENTED : Flags := mkFlags 128.
Definition Flags_LAST_FRAGMENT : Flags := mkFlags 64.
Definition Flags_ENCRYPTED : Flags := mkFlags 32.
Definition Flags_RETRANSMIT : Flags := mkFlags 16.

Definition Flags_empty : Flags := mkFlags 0.

Definition Flags_contains (self other : Flags) : bool :=
  Z.land (flag_bits self) (flag_bits other) =? flag_bits other.

Definition Flags_set (self other : Flags) : Flags :=
  mkFlags (Z.lor (flag_bits self) (flag_bits other)).

(** [self.0 &= !other.0] on a [u8]: [!x] is [255 - x]. *)
Definition Flags_unset (self other : Flags) : Flags :=
  mkFlags (Z.land (flag_bits self) (255 - flag_bits other)).

Definition Flags_bitor (self rhs : Flags) : Flags :=
  mkFlags (Z.lor (flag_bits self) (flag_bits rhs)).

#[export] Instance Flags_eq_dec : EqDecision Flags.
Proof. solve_decision. Defined.

(** Setting a flag makes it contained and unsetting a nonempty one removes
    it. *)
Lemma Flags_set_contains f g : Flags_contains (Flags_set f g) g = true.
Proof.
  unfold Flags_contains, Flags_set; simpl. apply Z.eqb_eq.
  apply Z.bits_inj'. intros n Hn. rewrite Z.land_spec, Z.lor_spec.
  by destruct (Z.testbit (flag_bits f) n), (Z.testbit (flag_bits g) n).
Qed.

Lemma Flags_unset_contains f g :
  u8 (flag_bits g) → flag_bits g ≠ 0 → Flags_contains (Flags_unset f g) g = false.
Proof.
  intros Hg Hne. unfold Flags_contains, Flags_unset; simpl. apply Z.eqb_neq. intros H.
  apply Hne. rewrite <-H. apply Z.bits_inj'. intros n Hn.
  rewrite Z.land_spec, Z.land_spec, Z.bits_0.
  replace (255 - flag_bits g) with (Z.ldiff 255 (flag_bits g)).
  - rewrite Z.ldiff_spec. by destruct (Z.testbit (flag_bits f) n),
      (Z.testbit 255 n), (Z.testbit (flag_bits g) n).
  - rewrite <-Z.sub_nocarry_ldiff; [done|].
    apply Z.bits_inj'. intros m Hm. rewrite Z.ldiff_spec, Z.bits_0.
    change 255 with (Z.ones 8). destruct (Z.lt_ge_cases m 8).
    + rewrite Z.ones_spec_low by lia. by rewrite andb_false_r.
    + rewrite <-(Z.mod_small (flag_bits g) (2 ^ 8)) by done.
      by rewrite Z.mod_pow2_bits_high by lia.
Qed.

(** ** PacketHeader *)

Record PacketHeader : Type := mkPacketHeader {
  ph_version : Z;
  ph_flags : Flags;
  ph_msg_type : Z;
  ph_session_id : Z;
  ph_sequence : Z;
  ph_timestamp : Z;
}.

#[export] Instance PacketHeader_eq_dec : EqDecision PacketHeader.
Proof. solve_decision. Defined.

Definition PacketHeader_decode (buf : list Z) : result Error PacketHeader :=
  if decide (length buf < HEADER_SIZE)%nat then Err TooShort
  else if decide (buf !!! offsets.MAGIC ≠ MAGIC_BYTES !!! 0%nat
                  ∨ buf !!! (offsets.MAGIC + 1)%nat ≠ MAGIC_BYTES !!! 1%nat)
  then Err BadMagic
  else
    let version := buf !!! offsets.VERSION in
    if decide (version ≠ PROTOCOL_VERSION) then Err ProtocolMismatch
    else if decide (buf !!! offsets.RESERVED ≠ 0
                    ∨ buf !!! (offsets.RESERVED + 1)%nat ≠ 0
                    ∨ buf !!! (offsets.RESERVED + 2)%nat ≠ 0)
    then Err ReservedFieldNonZero
    else
      let flags := mkFlags (buf !!! offsets.FLAGS) in
      let msg_type := buf !!! offsets.MSG_TYPE in
      let session_id := rd32 buf offsets.SESSION_ID in
      let sequence := rd32 buf offsets.SEQUENCE in
      let timestamp := rd64 buf offsets.TIMESTAMP in
      Ok (mkPacketHeader version flags msg_type session_id sequence timestamp).

Definition PacketHeader_encode (self : PacketHeader) (buf : list Z) : result Error (list Z) :=
  if decide (length buf < HEADER_SIZE)%nat then Err BufferTooSmall
  else
    let buf := <[offsets.MAGIC := MAGIC_BYTES !!! 0%nat]> buf in
    let buf := <[(offsets.MAGIC + 1)%nat := MAGIC_BYTES !!! 1%nat]> buf in
    let buf := <[offsets.VERSION := ph_version self]> buf in
    let buf := <[offsets.FLAGS := flag_bits (ph_flags self)]> buf in
    let buf := <[offsets.MSG_TYPE := ph_msg_type self]> buf in
    let buf := <[offsets.RESERVED := 0]> buf in
    let buf := <[(offsets.RESERVED + 1)%nat := 0]> buf in
    let buf := <[(offsets.RESERVED + 2)%nat := 0]> buf in
    let buf := blit offsets.SESSION_ID (be_bytes 4 (ph_session_id self)) buf in
    let buf := blit offsets.SEQUENCE (be_bytes 4 (ph_sequence self)) buf in
    let buf := blit offsets.TIMESTAMP (be_bytes 8 (ph_timestamp self)) buf in
    Ok buf.

Definition PacketHeader_new (msg_type session_id sequence timestamp : Z) : PacketHeader :=
  mkPacketHeader PROTOCOL_VERSION Flags_empty msg_type session_id sequence timestamp.

(** Field ranges of a header value. *)
Definition PacketHeader_wf (h : PacketHeader) : Prop :=
  u8 (ph_version h) ∧ u8 (flag_bits (ph_flags h)) ∧ u8 (ph_msg_type h)
  ∧ u32 (ph_session_id h) ∧ u32 (ph_sequence h) ∧ u64 (ph_timestamp h).

#[export] Instance PacketHeader_wf_dec h : Decision (PacketHeader_wf h).
Proof. unfold PacketHeader_wf. apply _. Defined.

(** The 24 bytes of a header on the wire. *)
Definition header_image (h : PacketHeader) : list Z :=
  MAGIC_BYTES ++ [ph_version h; flag_bits (ph_flags h); ph_msg_type h; 0; 0; 0]
  ++ be_bytes 4 (ph_session_id h) ++ be_bytes 4 (ph_sequence h)
  ++ be_bytes 8 (ph_timestamp h).

Lemma length_header_image h : length (header_image h) = HEADER_SIZE.
Proof. reflexivity. Qed.

Lemma bytes_header_image h : PacketHeader_wf h → bytes (header_image h).
Proof.
  intros (? & ? & ? & ? & ? & ?). unfold header_image.
  rewrite !bytes_app. split_and!; try apply bytes_be_bytes.
  - repeat constructor; done.
  - repeat constructor; try done; ulia.
Qed.

Lemma PacketHeader_encode_short h buf :
  (length buf < HEADER_SIZE)%nat → PacketHeader_encode h buf = Err BufferTooSmall.
Proof. intros. unfold PacketHeader_encode. by rewrite decide_True. Qed.

(** Encoding overwrites exactly the first 24 bytes, with the header's image. *)
Lemma PacketHeader_encode_image h buf :
  (HEADER_SIZE ≤ length buf)%nat →
  PacketHeader_encode h buf = Ok (header_image h ++ drop HEADER_SIZE buf).
Proof.
  intros Hl. unfold PacketHeader_encode. rewrite decide_False by lia. f_equal.
  unfold HEADER_SIZE in *.
  do 24 (destruct buf as [|? buf]; [simpl in Hl; lia|]). reflexivity.
Qed.

Lemma from_be_quad a b c d : from_be [a; b; c; d] = ((a * 256 + b) * 256 + c) * 256 + d.
Proof. done. Qed.

(** Decoding the image of a well-formed header of the current version gives
    the header back, whatever follows it. *)
Lemma PacketHeader_decode_image h rest :
  PacketHeader_wf h → ph_version h = PROTOCOL_VERSION →
  PacketHeader_decode (header_image h ++ rest) = Ok h.
Proof.
  intros (Hv & Hf & Hm & Hs & Hq & Ht) Hver. unfold PacketHeader_decode.
  rewrite decide_False by (rewrite length_app, length_header_image; lia).
  assert (∀ x y : nat, (x + y ≤ 24)%nat →
    slice x y (header_image h ++ rest) = slice x y (header_image h)) as Hsl.
  { intros x y Hxy. unfold slice.
    rewrite drop_app_le by (rewrite length_header_image; unfold HEADER_SIZE; lia).
    apply take_app_le. rewrite length_drop, length_header_image. unfold HEADER_SIZE. lia. }
  assert (24 ≤ length (header_image h ++ rest))%nat as Hlen.
  { rewrite length_app, length_header_image. unfold HEADER_SIZE. lia. }
  rewrite !decide_False by (simpl; tauto).
  assert (rd32 (header_image h ++ rest) offsets.SESSION_ID = ph_session_id h) as ->.
  { rewrite rd32_slice, Hsl by (unfold offsets.SESSION_ID; lia). by apply from_be_be32. }
  assert (rd32 (header_image h ++ rest) offsets.SEQUENCE = ph_sequence h) as ->.
  { rewrite rd32_slice, Hsl by (unfold offsets.SEQUENCE; lia). by apply from_be_be32. }
  assert (rd64 (header_image h ++ rest) offsets.TIMESTAMP = ph_timestamp h) as ->.
  { rewrite rd64_slice, Hsl by (unfold offsets.TIMESTAMP; lia). by apply from_be_be64. }
  by destruct h as [? [] ? ? ? ?].
Qed.

(** Every accepted header is well formed, of the current version, and its
    image is exactly the first 24 bytes received: nothing is ignored. *)
Lemma PacketHeader_decode_sound buf h :
  bytes buf → PacketHeader_decode buf = Ok h →
  PacketHeader_wf h ∧ ph_version h = PROTOCOL_VERSION ∧ buf = header_image h ++ drop HEADER_SIZE buf.
Proof.
  intros Hb. unfold PacketHeader_decode.
  destruct (decide _) as [|Hlen]; [done|].
  destruct (decide _) as [|Hmagic]; [done|].
  destruct (decide _) as [|Hver]; [done|].
  destruct (decide _) as [|Hres]; [done|].
  intros [= <-].
  apply dec_stable in Hver. apply Decidable.not_or in Hmagic as [Hm0 Hm1].
  apply dec_stable in Hm0, Hm1.
  apply Decidable.not_or in Hres as [Hr0 [Hr1 Hr2]%Decidable.not_or].
  apply dec_stable in Hr0, Hr1, Hr2.
  split; [|split; [done|]].
  - unfold PacketHeader_wf; simpl. rewrite Hver. split_and!; auto with gs; by split.
  - unfold header_image; cbn [ph_version ph_flags flag_bits ph_msg_type ph_session_id
      ph_sequence ph_timestamp]. unfold HEADER_SIZE in *.
    unfold offsets.SESSION_ID, offsets.SEQUENCE, offsets.TIMESTAMP.
    rewrite !rd32_slice, rd64_slice, !be_bytes_slice by (done || lia).
    do 24 (destruct buf as [|? buf]; [simpl in Hlen; lia|]).
    cbn in Hm0, Hm1, Hver, Hr0, Hr1, Hr2. subst. reflexivity.
Qed.
