(* ===== verification/Packet.v ===== *)
(** * Whole packets

    Models [gravital-talk-core/src/packet.rs]: the layout
    [header (24) | payload (N) | payload_len (2) | checksum (2)], the
    zero-copy [PacketView::decode] and [PacketBuilder::encode]. *)

From S2P Require Import Prelude.
From S2P Require Import CoreTypes.
From S2P Require Import Checksum.
From S2P Require Import Header.

(** ** The checksum loops of packet.rs, with their own copy of the table *)

Definition packet_build_table : list Z :=
  foldl (λ table i, <[i := Nat.iter 8 table_bit (shl16 (Z.of_nat i) 8)]> table)
        (replicate 256 0) (seq 0 256).
Definition packet_TABLE : list Z := Eval vm_compute in packet_build_table.

Definition packet_crc_body (crc byte : Z) : Z :=
  let idx := Z.to_nat (Z.lxor (wrap8 (Z.shiftr crc 8)) byte) in
  Z.lxor (shl16 crc 8) (packet_TABLE !!! idx).

Definition crc_step (crc : Z) (data : list Z) : Z := foldl packet_crc_body crc data.

Definition compute_checksum (header payload : list Z) (payload_len : Z) : Z :=
  let crc := 65535 in
  let crc := crc_step crc header in
  let crc := crc_step crc payload in
  let crc := crc_step crc (be_bytes 2 payload_len) in
  crc.

(** ** Decoding *)

Record PacketView : Type := mkPacketView {
  pv_header : PacketHeader;
  pv_payload : list Z;
}.

Definition PacketView_decode (buf : list Z) : result Error PacketView :=
  let total_len := length buf in
  if decide (total_len < HEADER_SIZE + 4)%nat then Err TooShort
  else
    header ← PacketHeader_decode buf;
    let payload_len_offset := (total_len - PAYLOAD_LEN_TAIL_OFFSET)%nat in
    let checksum_offset := (total_len - CHECKSUM_TAIL_OFFSET)%nat in
    let payload_len := rd16 buf payload_len_offset in
    let expected_len := (HEADER_SIZE + Z.to_nat payload_len + 4)%nat in
    if decide (expected_len ≠ total_len) then Err LengthMismatch
    else if decide (MAX_PAYLOAD_SIZE < Z.to_nat payload_len)%nat then Err PayloadTooLarge
    else
      let payload := slice HEADER_SIZE (Z.to_nat payload_len) buf in
      let stored_checksum := rd16 buf checksum_offset in
      let computed := compute_checksum (take HEADER_SIZE buf) payload payload_len in
      if decide (stored_checksum ≠ computed) then Err BadChecksum
      else Ok (mkPacketView header payload).

(** ** Encoding: the number of bytes written and the new contents of [out] *)

Definition PacketBuilder_encode (header : PacketHeader) (payload out : list Z) :
    result Error (nat * list Z) :=
  let payload_len := length payload in
  if decide (MAX_PAYLOAD_SIZE < payload_len)%nat then Err PayloadTooLarge
  else
    let total := (HEADER_SIZE + payload_len + 4)%nat in
    if decide (length out < total)%nat then Err BufferTooSmall
    else
      head ← PacketHeader_encode header (take HEADER_SIZE out);
      let out := blit 0 head out in
      let out := blit HEADER_SIZE payload out in
      let payload_len_u16 := wrap16 (Z.of_nat payload_len) in
      let payload_len_offset := (total - PAYLOAD_LEN_TAIL_OFFSET)%nat in
      let out := blit payload_len_offset (be_bytes 2 payload_len_u16) out in
      let checksum := crc16_two_segments (take HEADER_SIZE out) payload in
      let checksum := foldl packet_crc_body checksum (be_bytes 2 payload_len_u16) in
      let checksum_offset := (total - CHECKSUM_TAIL_OFFSET)%nat in
      let out := blit checksum_offset (be_bytes 2 checksum) out in
      Ok (total, out).

(** ** The wire image of a packet *)

Definition packet_body (h : PacketHeader) (payload : list Z) : list Z :=
  header_image h ++ payload ++ be_bytes 2 (Z.of_nat (length payload)).

Definition packet_image (h : PacketHeader) (payload : list Z) : list Z :=
  packet_body h payload ++ be_bytes 2 (crc_ref INIT (packet_body h payload)).

(** What a packet must satisfy to be sent. *)
Definition packet_wf (h : PacketHeader) (payload : list Z) : Prop :=
  PacketHeader_wf h ∧ ph_version h = PROTOCOL_VERSION ∧ bytes payload
  ∧ (length payload ≤ MAX_PAYLOAD_SIZE)%nat.

#[export] Instance packet_wf_dec h p : Decision (packet_wf h p).
Proof. unfold packet_wf. apply _. Defined.

Lemma packet_crc_body_eq : packet_crc_body = crc_body.
Proof. reflexivity. Qed.

Lemma bytes_packet_body h p : packet_wf h p → bytes (packet_body h p).
Proof.
  intros (Hh & _ & Hp & _). unfold packet_body. rewrite !bytes_app.
  auto using bytes_header_image, bytes_be_bytes.
Qed.

Lemma length_packet_body h p : length (packet_body h p) = (HEADER_SIZE + length p + 2)%nat.
Proof.
  unfold packet_body. rewrite !length_app, length_header_image, length_be_bytes. lia.
Qed.

Lemma length_packet_image h p : length (packet_image h p) = (HEADER_SIZE + length p + 4)%nat.
Proof. unfold packet_image. rewrite length_app, length_packet_body, length_be_bytes. lia. Qed.

Lemma compute_checksum_ref h p :
  packet_wf h p →
  compute_checksum (header_image h) p (Z.of_nat (length p)) = crc_ref INIT (packet_body h p).
Proof.
  intros Hwf. pose proof (bytes_packet_body h p Hwf) as Hb.
  unfold compute_checksum, crc_step. rewrite packet_crc_body_eq.
  rewrite <-!foldl_app. unfold packet_body in *. by apply crc_fold_ref.
Qed.

Lemma payload_len_u16 h p : packet_wf h p → u16 (Z.of_nat (length p)).
Proof.
  intros (_ & _ & _ & Hl). unfold MAX_PAYLOAD_SIZE, DEFAULT_MTU, HEADER_SIZE in Hl. ulia.
Qed.

(** Encoding writes the image of the packet at the front of the buffer. *)
Lemma PacketBuilder_encode_image h p out :
  packet_wf h p → (HEADER_SIZE + length p + 4 ≤ length out)%nat →
  PacketBuilder_encode h p out =
    Ok ((HEADER_SIZE + length p + 4)%nat,
        packet_image h p ++ drop (HEADER_SIZE + length p + 4) out).
Proof.
  intros Hwf Hout. pose proof (payload_len_u16 h p Hwf) as Hu16.
  pose proof (bytes_packet_body h p Hwf) as Hbytes.
  pose proof Hwf as (_ & _ & _ & Hmax).
  unfold PacketBuilder_encode. rewrite !decide_False by lia.
  rewrite PacketHeader_encode_image by (rewrite length_take; lia).
  rewrite drop_ge, app_nil_r by (rewrite length_take; lia). cbn [mbind result_bind].
  rewrite wrap16_id by done.
  replace (HEADER_SIZE + length p + 4 - PAYLOAD_LEN_TAIL_OFFSET)%nat
    with (HEADER_SIZE + length p)%nat by (unfold PAYLOAD_LEN_TAIL_OFFSET; lia).
  replace (HEADER_SIZE + length p + 4 - CHECKSUM_TAIL_OFFSET)%nat
    with (HEADER_SIZE + length p + 2)%nat by (unfold CHECKSUM_TAIL_OFFSET; lia).
  assert (blit 0 (header_image h) out = header_image h ++ drop HEADER_SIZE out) as ->.
  { by apply (blit_app [] (header_image h) out 0). }
  rewrite blit_app by done.
  rewrite blit_app by (rewrite length_app, length_header_image; done).
  rewrite (take_app_le (_ ++ be_bytes 2 _))
    by (rewrite !length_app, length_header_image; lia).
  rewrite <-app_assoc, take_app_length' by done.
  rewrite crc16_two_segments_app, packet_crc_body_eq.
  unfold crc16_ccitt_false, crc16_table. rewrite <-foldl_app, <-app_assoc.
  fold (packet_body h p). rewrite crc_fold_ref by done.
  rewrite blit_app by (rewrite length_packet_body; done).
  fold (packet_image h p). rewrite !length_be_bytes, !drop_drop.
  done.
Qed.

(** Whatever the fields are, an encoded packet starts with the image of its
    header. *)
Lemma PacketBuilder_encode_header h p out n out' :
  PacketBuilder_encode h p out = Ok (n, out') →
  ∃ rest, take n out' = header_image h ++ rest.
Proof.
  unfold PacketBuilder_encode. destruct (decide _) as [|Hmax]; [done|].
  destruct (decide _) as [|Hout]; [done|].
  rewrite PacketHeader_encode_image by (rewrite length_take; lia).
  rewrite drop_ge, app_nil_r by (rewrite length_take; lia). cbn [mbind result_bind].
  replace (HEADER_SIZE + length p + 4 - PAYLOAD_LEN_TAIL_OFFSET)%nat
    with (HEADER_SIZE + length p)%nat by (unfold PAYLOAD_LEN_TAIL_OFFSET; lia).
  replace (HEADER_SIZE + length p + 4 - CHECKSUM_TAIL_OFFSET)%nat
    with (HEADER_SIZE + length p + 2)%nat by (unfold CHECKSUM_TAIL_OFFSET; lia).
  assert (blit 0 (header_image h) out = header_image h ++ drop HEADER_SIZE out) as ->.
  { by apply (blit_app [] (header_image h) out 0). }
  rewrite blit_app by done.
  rewrite blit_app by (rewrite length_app, length_header_image; done).
  rewrite blit_app by (rewrite !length_app, length_header_image, length_be_bytes; lia).
  rewrite <- !app_assoc. pose proof (length_header_image h) as Hlen. revert Hlen.
  generalize (header_image h). intros head Hlen. injection 1 as <- <-. eexists.
  by rewrite (take_app_ge head) by (unfold HEADER_SIZE in *; lia).
Qed.

Lemma packet_image_split h p :
  packet_image h p =
    header_image h ++ p ++ be_bytes 2 (Z.of_nat (length p))
    ++ be_bytes 2 (crc_ref INIT (packet_body h p)).
Proof. unfold packet_image. unfold packet_body at 1. by rewrite <-!app_assoc. Qed.

Lemma slice_packet_payload h p : slice HEADER_SIZE (length p) (packet_image h p) = p.
Proof.
  rewrite packet_image_split. unfold slice.
  rewrite drop_app_length' by done. by rewrite take_app_length.
Qed.

Lemma slice_packet_len h p :
  slice (HEADER_SIZE + length p) 2 (packet_image h p) = be_bytes 2 (Z.of_nat (length p)).
Proof.
  rewrite packet_image_split, app_assoc. unfold slice.
  rewrite drop_app_length' by (by rewrite length_app). by rewrite take_app_length'.
Qed.

Lemma slice_packet_crc h p :
  slice (HEADER_SIZE + length p + 2) 2 (packet_image h p) =
    be_bytes 2 (crc_ref INIT (packet_body h p)).
Proof.
  unfold packet_image, slice. rewrite drop_app_length' by (by rewrite length_packet_body).
  by rewrite take_ge by (by rewrite length_be_bytes).
Qed.

Lemma PacketView_decode_image h p :
  packet_wf h p → PacketView_decode (packet_image h p) = Ok (mkPacketView h p).
Proof.
  intros Hwf. pose proof (payload_len_u16 h p Hwf) as Hu16.
  pose proof Hwf as (Hh & Hver & Hp & Hmax).
  unfold PacketView_decode. rewrite length_packet_image, decide_False by lia.
  rewrite packet_image_split at 1. rewrite PacketHeader_decode_image by done.
  cbn [mbind result_bind].
  replace (HEADER_SIZE + length p + 4 - PAYLOAD_LEN_TAIL_OFFSET)%nat
    with (HEADER_SIZE + length p)%nat by (unfold PAYLOAD_LEN_TAIL_OFFSET; lia).
  replace (HEADER_SIZE + length p + 4 - CHECKSUM_TAIL_OFFSET)%nat
    with (HEADER_SIZE + length p + 2)%nat by (unfold CHECKSUM_TAIL_OFFSET; lia).
  rewrite !rd16_slice by (rewrite length_packet_image; lia).
  rewrite slice_packet_len, slice_packet_crc, !from_be_be16
    by (done || (apply crc_ref_u16; by split)).
  rewrite Nat2Z.id, slice_packet_payload.
  rewrite packet_image_split, take_app_length' by done.
  rewrite compute_checksum_ref by done.
  by rewrite !decide_False by lia.
Qed.

(** The checks of [decode], read backwards: an accepted buffer is the image
    of the packet it was decoded to. *)
Lemma PacketView_decode_sound buf v :
  bytes buf → PacketView_decode buf = Ok v →
  packet_wf (pv_header v) (pv_payload v) ∧ buf = packet_image (pv_header v) (pv_payload v).
Proof.
  intros Hb. unfold PacketView_decode.
  destruct (decide _) as [|Hlen]; [done|].
  destruct (PacketHeader_decode buf) as [h|] eqn:Hh; [|done]. cbn [mbind result_bind].
  apply PacketHeader_decode_sound in Hh as (Hwf & Hver & Hbuf); [|done].
  destruct (decide _) as [|Hexp]; [done|]. apply dec_stable in Hexp.
  destruct (decide _) as [|Hmax]; [done|].
  destruct (decide _) as [|Hcrc]; [done|]. apply dec_stable in Hcrc.
  intros [= <-]. cbn [pv_header pv_payload].
  unfold PAYLOAD_LEN_TAIL_OFFSET, CHECKSUM_TAIL_OFFSET in *.
  set (n := Z.to_nat (rd16 buf (length buf - 4))) in *.
  assert (Hn : rd16 buf (length buf - 4) = Z.of_nat n).
  { pose proof (rd16_u16 buf (length buf - 4) Hb). unfold u16 in *. lia. }
  set (p := slice HEADER_SIZE n buf) in *.
  assert (Hp : length p = n) by (apply length_slice; lia).
  assert (Hpw : packet_wf h p).
  { split_and!; [done|done|by apply bytes_slice|lia]. }
  split; [done|].
  assert (take HEADER_SIZE buf = header_image h) as Htake.
  { rewrite Hbuf. by rewrite take_app_length'. }
  rewrite Htake, Hn, <-Hp, compute_checksum_ref in Hcrc by done.
  rewrite packet_image_split, <-Hcrc, Hp, <-Hn.
  rewrite !rd16_slice, !be_bytes_slice by (done || lia).
  replace (length buf - 4)%nat with (HEADER_SIZE + n)%nat by lia.
  replace (length buf - 2)%nat with (HEADER_SIZE + n + 2)%nat by lia.
  rewrite <-slice_split by lia. unfold p. rewrite <-slice_split by lia.
  rewrite Hbuf at 1. f_equal. unfold slice. rewrite take_ge; [done|].
  rewrite length_drop. lia.
Qed.

(** C10: encoding a packet whose header fields are in range, whose version is
    the protocol version and whose payload fits [MAX_PAYLOAD_SIZE], into a
    buffer with room for it, succeeds, reports [24 + N + 4] bytes, leaves the
    bytes after them untouched, and decoding exactly the reported bytes gives
    back the header and the payload.  (The documentation of the format counts
    the 4-byte trailer into the 24-byte header and asks for [24 + N] bytes;
    the code writes and requires 4 more.) *)
Theorem packet_roundtrip h p out :
  packet_wf h p → (HEADER_SIZE + length p + 4 ≤ length out)%nat →
  ∃ n out', PacketBuilder_encode h p out = Ok (n, out')
    ∧ n = (HEADER_SIZE + length p + 4)%nat
    ∧ length out' = length out ∧ drop n out' = drop n out
    ∧ PacketView_decode (take n out') = Ok (mkPacketView h p).
Proof.
  intros Hwf Hout. do 2 eexists. split; [by apply PacketBuilder_encode_image|].
  split; [done|]. split_and!.
  - rewrite length_app, length_packet_image, length_drop. lia.
  - by rewrite drop_app_length' by (by rewrite length_packet_image).
  - rewrite take_app_length' by (by rewrite length_packet_image).
    by apply PacketView_decode_image.
Qed.

Lemma packet_roundtrip_witness :
  ∃ n out', PacketBuilder_encode (PacketHeader_new 16 7 42 1000) [1; 2; 3] (replicate 64 0)
      = Ok (n, out')
    ∧ n = 31%nat ∧ length out' = 64%nat ∧ drop n out' = drop n (replicate 64 0)
    ∧ PacketView_decode (take n out')
      = Ok (mkPacketView (PacketHeader_new 16 7 42 1000) [1; 2; 3]).
Proof.
  apply (packet_roundtrip (PacketHeader_new 16 7 42 1000) [1; 2; 3] (replicate 64 0)).
  - apply (bool_decide_unpack _). by vm_compute.
  - rewrite length_replicate. unfold HEADER_SIZE. simpl. lia.
Defined.

(** C28: a received buffer is accepted by [PacketView::decode] only if it is
    byte for byte what [PacketBuilder::encode] writes for the decoded header
    and payload: there is one wire form per packet and no byte of the datagram
    is ignored, so validation cannot be bypassed by a non-canonical frame.
    (The specification asks receivers to ignore the reserved bytes; the code
    refuses a packet in which they are not zero.) *)
Theorem packet_decode_canonical buf v out :
  bytes buf → PacketView_decode buf = Ok v → (length buf ≤ length out)%nat →
  packet_wf (pv_header v) (pv_payload v)
  ∧ ∃ out', PacketBuilder_encode (pv_header v) (pv_payload v) out = Ok (length buf, out')
      ∧ take (length buf) out' = buf.
Proof.
  intros Hb Hdec Hout. apply PacketView_decode_sound in Hdec as [Hwf Heq]; [|done].
  split; [done|]. rewrite Heq in Hout |- *. rewrite length_packet_image in Hout |- *.
  eexists. split; [by apply PacketBuilder_encode_image|].
  by rewrite take_app_length' by (by rewrite length_packet_image).
Qed.

Definition sample_packet : list Z := packet_image (PacketHeader_new 16 7 42 1000) [1; 2; 3].

Lemma sample_packet_bytes : bytes sample_packet.
Proof. apply (bool_decide_unpack _). by vm_compute. Qed.

Lemma packet_decode_canonical_witness :
  packet_wf (PacketHeader_new 16 7 42 1000) [1; 2; 3]
  ∧ ∃ out', PacketBuilder_encode (PacketHeader_new 16 7 42 1000) [1; 2; 3] (replicate 40 0)
              = Ok (length sample_packet, out')
      ∧ take (length sample_packet) out' = sample_packet.
Proof.
  apply (packet_decode_canonical sample_packet
           (mkPacketView (PacketHeader_new 16 7 42 1000) [1; 2; 3]) (replicate 40 0)).
  - apply sample_packet_bytes.
  - by vm_compute.
  - by vm_compute; lia.
Defined.

(** ** Corruption *)

Lemma packet_residue h p : packet_wf h p → crc_ref INIT (packet_image h p) = 0.
Proof.
  intros Hwf. unfold packet_image. rewrite crc_ref_app. apply crc_ref_residue.
  apply crc_ref_u16. by split.
Qed.

(** C11: no datagram obtained from a valid packet by corrupting any two
    adjacent bytes arbitrarily, or by flipping any one or any two bits,
    wherever they lie (header, payload, length or checksum field), is accepted
    by [PacketView::decode]. *)
Theorem packet_corruption_detected buf v e :
  bytes buf → PacketView_decode buf = Ok v → detectable_error (length buf) e →
  ∃ err, PacketView_decode (xor_bytes buf e) = Err err.
Proof.
  intros Hb Hdec He. destruct (PacketView_decode (xor_bytes buf e)) as [v'|err] eqn:Hdec';
    [exfalso|by eauto].
  pose proof (detectable_error_length _ _ He) as Hlen.
  apply PacketView_decode_sound in Hdec as [Hwf Heq]; [|done].
  apply PacketView_decode_sound in Hdec' as [Hwf' Heq'];
    [|apply bytes_xor_bytes; [done|by eapply detectable_error_bytes]].
  pose proof (packet_residue _ _ Hwf) as Hr. rewrite <-Heq in Hr.
  pose proof (packet_residue _ _ Hwf') as Hr'. rewrite <-Heq' in Hr'.
  rewrite crc_ref_xor_err, Hr, Z.lxor_0_l in Hr' by done.
  revert Hr'. apply (detectable_error_crc (length buf)); [done|].
  rewrite Heq, length_packet_image. destruct Hwf as (_ & _ & _ & Hmax).
  change MAX_PACKET_BITS with (8 * 1204)%nat.
  unfold MAX_PAYLOAD_SIZE, DEFAULT_MTU, HEADER_SIZE in *. lia.
Qed.

Lemma packet_corruption_detected_witness :
  ∃ err, PacketView_decode (xor_bytes sample_packet (bit_err (length sample_packet) 40)) = Err err.
Proof.
  apply (packet_corruption_detected sample_packet
           (mkPacketView (PacketHeader_new 16 7 42 1000) [1; 2; 3])).
  - apply sample_packet_bytes.
  - by vm_compute.
  - apply bit_error. vm_compute. lia.
Defined.

(** ** Sizes *)

(** With an output buffer of the default MTU (1200 bytes), as the session
    allocates, a payload is encoded if and only if it has at most 1172 bytes:
    the four trailer bytes are not accounted for in [MAX_PAYLOAD_SIZE], so
    payloads of 1173 to 1176 bytes pass the size check and are then refused
    with [BufferTooSmall]. *)
Theorem packet_mtu_limit h p out :
  packet_wf h p → length out = DEFAULT_MTU →
  (is_ok (PacketBuilder_encode h p out) = true ↔ (length p ≤ 1172)%nat)
  ∧ ((1172 < length p)%nat → PacketBuilder_encode h p out = Err BufferTooSmall).
Proof.
  intros Hwf Hout. pose proof Hwf as (_ & _ & _ & Hmax).
  assert ((1172 < length p)%nat → PacketBuilder_encode h p out = Err BufferTooSmall) as Hbig.
  { intros Hl. unfold PacketBuilder_encode.
    rewrite decide_False by lia. rewrite decide_True; [done|].
    rewrite Hout. unfold DEFAULT_MTU, HEADER_SIZE. lia. }
  split; [|done]. split.
  - intros Hok. destruct (decide (length p ≤ 1172)%nat); [done|].
    rewrite Hbig in Hok by lia. done.
  - intros Hl. rewrite PacketBuilder_encode_image; [done..|].
    rewrite Hout. unfold DEFAULT_MTU, HEADER_SIZE. lia.
Qed.

Lemma packet_mtu_limit_witness :
  (is_ok (PacketBuilder_encode (PacketHeader_new 16 1 1 1) (replicate 1173 0)
            (replicate DEFAULT_MTU 0)) = true ↔ (length (replicate 1173 0) ≤ 1172)%nat)
  ∧ ((1172 < length (replicate 1173 0))%nat →
     PacketBuilder_encode (PacketHeader_new 16 1 1 1) (replicate 1173 0)
       (replicate DEFAULT_MTU 0) = Err BufferTooSmall).
Proof.
  apply (packet_mtu_limit (PacketHeader_new 16 1 1 1) (replicate 1173 0)
           (replicate DEFAULT_MTU 0)).
  - apply (bool_decide_unpack _). by vm_compute.
  - by rewrite length_replicate.
Defined.

(** The order of the checks: what each error of [decode] says. *)
Lemma PacketView_decode_too_short buf :
  (length buf < HEADER_SIZE + 4)%nat → PacketView_decode buf = Err TooShort.
Proof. intros. unfold PacketView_decode. by rewrite decide_True. Qed.
