(* ===== verification/Message.v ===== *)
(** * Message types and structured payloads

    Models [gravital-talk-core/src/message.rs]: the [MessageType] byte codes,
    the fixed-layout payloads of the handshake, FEC, bitrate and
    authentication messages, and the protocol [ErrorCode]s.  Each payload is a
    [WireCodec]. *)

From S2P Require Import Prelude.
From S2P Require Import CoreTypes.

(** ** MessageType *)

Inductive MessageType : Type :=
  | HandshakeClientHello
  | HandshakeServerHello
  | HandshakeSessionConfirm
  | HandshakeKeyExchange
  | AudioFrame
  | AudioFragment
  | AudioFec
  | Heartbeat
  | HeartbeatAck
  | ControlPause
  | ControlResume
  | ControlMetrics
  | ControlBitrate
  | FloorRequest
  | FloorGrant
  | FloorDeny
  | FloorRelease
  | FloorTaken
  | AuthChallenge
  | AuthResponse
  | AuthAccepted
  | AuthRejected
  | Extension (b : Z)
  | MtError
  | MtClose.

#[export] Instance MessageType_eq_dec : EqDecision MessageType.
Proof. solve_decision. Defined.

Definition MessageType_code (m : MessageType) : Z :=
  match m with
  | HandshakeClientHello => 0x01
  | HandshakeServerHello => 0x02
  | HandshakeSessionConfirm => 0x03
  | HandshakeKeyExchange => 0x04
  | AudioFrame => 0x10
  | AudioFragment => 0x11
  | AudioFec => 0x12
  | Heartbeat => 0x20
  | HeartbeatAck => 0x21
  | ControlPause => 0x30
  | ControlResume => 0x31
  | ControlMetrics => 0x32
  | ControlBitrate => 0x33
  | FloorRequest => 0x40
  | FloorGrant => 0x41
  | FloorDeny => 0x42
  | FloorRelease => 0x43
  | FloorTaken => 0x44
  | AuthChallenge => 0x50
  | AuthResponse => 0x51
  | AuthAccepted => 0x52
  | AuthRejected => 0x53
  | Extension b => b
  | MtError => 0xFE
  | MtClose => 0xFF
  end.

Definition in_range (lo hi x : Z) : bool := (lo <=? x) && (x <=? hi).

Definition MessageType_from_code (code : Z) : result Error MessageType :=
  match code with
  | 0x01 => Ok HandshakeClientHello
  | 0x02 => Ok HandshakeServerHello
  | 0x03 => Ok HandshakeSessionConfirm
  | 0x04 => Ok HandshakeKeyExchange
  | 0x10 => Ok AudioFrame
  | 0x11 => Ok AudioFragment
  | 0x12 => Ok AudioFec
  | 0x20 => Ok Heartbeat
  | 0x21 => Ok HeartbeatAck
  | 0x30 => Ok ControlPause
  | 0x31 => Ok ControlResume
  | 0x32 => Ok ControlMetrics
  | 0x33 => Ok ControlBitrate
  | 0x40 => Ok FloorRequest
  | 0x41 => Ok FloorGrant
  | 0x42 => Ok FloorDeny
  | 0x43 => Ok FloorRelease
  | 0x44 => Ok FloorTaken
  | 0x50 => Ok AuthChallenge
  | 0x51 => Ok AuthResponse
  | 0x52 => Ok AuthAccepted
  | 0x53 => Ok AuthRejected
  | 0xFE => Ok MtError
  | 0xFF => Ok MtClose
  | other =>
      if in_range 0x45 0x4F other || in_range 0x54 0x7F other then Ok (Extension other)
      else Err (UnknownMessageType other)
  end.

Definition is_handshake (m : MessageType) : bool :=
  match m with
  | HandshakeClientHello | HandshakeServerHello
  | HandshakeSessionConfirm | HandshakeKeyExchange => true
  | _ => false
  end.

Definition is_floor_control (m : MessageType) : bool :=
  match m with
  | FloorRequest | FloorGrant | FloorDeny | FloorRelease | FloorTaken => true
  | _ => false
  end.

Definition is_auth (m : MessageType) : bool :=
  match m with
  | AuthChallenge | AuthResponse | AuthAccepted | AuthRejected => true
  | _ => false
  end.

(** Message types the receiver can name: extensions carry a code of their
    reserved range. *)
Definition MessageType_valid (m : MessageType) : bool :=
  match m with
  | Extension b => in_range 0x45 0x4F b || in_range 0x54 0x7F b
  | _ => true
  end.

(** A property of every byte, from a check of the 256 of them. *)
Lemma forall_u8 (P : Z → bool) :
  forallb (λ k, P (Z.of_nat k)) (seq 0 256) = true → ∀ x, u8 x → P x = true.
Proof.
  intros HF x Hx. rewrite List.forallb_forall in HF.
  rewrite <-(Z2Nat.id x) by ulia. apply HF, List.in_seq. ulia.
Qed.

Definition from_code_ok (c : Z) : bool :=
  match MessageType_from_code c with
  | Ok m => (MessageType_code m =? c) && MessageType_valid m
  | Err e => bool_decide (e = UnknownMessageType c)
  end.

Lemma from_code_all c : u8 c → from_code_ok c = true.
Proof. apply forall_u8. by vm_compute. Qed.

Definition extension_ok (c : Z) : bool :=
  negb (MessageType_valid (Extension c))
  || bool_decide (MessageType_from_code c = Ok (Extension c)).

Lemma extension_all c : u8 c → extension_ok c = true.
Proof. apply forall_u8. by vm_compute. Qed.

(** The [msg_type] byte and the message types correspond one to one:
    decoding the code of a valid type gives it back, every byte that decodes
    decodes to a valid type with that code, and every other byte is refused
    naming it. *)
Theorem message_type_codes :
  (∀ m, MessageType_valid m = true → MessageType_from_code (MessageType_code m) = Ok m)
  ∧ (∀ c, u8 c →
       (∃ m, MessageType_from_code c = Ok m ∧ MessageType_code m = c
             ∧ MessageType_valid m = true)
       ∨ MessageType_from_code c = Err (UnknownMessageType c)).
Proof.
  split.
  - intros m Hm. destruct m; try reflexivity. simpl in *.
    assert (u8 b) as Hb.
    { unfold in_range in Hm. ulia. }
    pose proof (extension_all b Hb) as He. unfold extension_ok in He. simpl in He.
    rewrite Hm in He. simpl in He. by apply bool_decide_eq_true_1 in He.
  - intros c Hc. pose proof (from_code_all c Hc) as H. unfold from_code_ok in H.
    destruct (MessageType_from_code c) as [m|e].
    + left. apply andb_true_iff in H as [H ?]. exists m. split_and!; [done|lia|done].
    + right. apply bool_decide_eq_true_1 in H. by subst.
Qed.

(** ** ErrorCode *)

Inductive ErrorCode : Type :=
  | EcUnknownMessageType
  | EcInvalidChecksum
  | EcInvalidState
  | EcUnsupportedCodec
  | EcProtocolMismatch
  | EcPeerTimeout
  | EcResourceExhausted
  | EcAuthenticationFailed
  | EcInternal.

Definition ErrorCode_code (e : ErrorCode) : Z :=
  match e with
  | EcUnknownMessageType => 0x01
  | EcInvalidChecksum => 0x02
  | EcInvalidState => 0x03
  | EcUnsupportedCodec => 0x04
  | EcProtocolMismatch => 0x05
  | EcPeerTimeout => 0x06
  | EcResourceExhausted => 0x07
  | EcAuthenticationFailed => 0x08
  | EcInternal => 0xFF
  end.

Definition ErrorCode_from_code (code : Z) : result Error ErrorCode :=
  match code with
  | 0x01 => Ok EcUnknownMessageType
  | 0x02 => Ok EcInvalidChecksum
  | 0x03 => Ok EcInvalidState
  | 0x04 => Ok EcUnsupportedCodec
  | 0x05 => Ok EcProtocolMismatch
  | 0x06 => Ok EcPeerTimeout
  | 0x07 => Ok EcResourceExhausted
  | 0x08 => Ok EcAuthenticationFailed
  | 0xFF => Ok EcInternal
  | _ => Err MalformedPayload
  end.

Lemma ErrorCode_roundtrip e : ErrorCode_from_code (ErrorCode_code e) = Ok e.
Proof. by destruct e. Qed.

(** ** ClientHello (0x01), 80 bytes *)

Record ClientHello : Type := mkClientHello {
  ch_ephemeral_public_key : list Z;
  ch_client_nonce : list Z;
  ch_protocol_version : Z;
  ch_codec_preferred : Z;
  ch_sample_rate : Z;
  ch_channels : Z;
  ch_frame_duration_ms : Z;
  ch_max_bitrate : Z;
  ch_capability_flags : Z;
}.

Definition ClientHello_SIZE : nat := 80.

Definition ClientHello_encode (self : ClientHello) (buf : list Z) : result Error (list Z) :=
  if decide (length buf < ClientHello_SIZE)%nat then Err BufferTooSmall
  else
    let buf := blit 0 (ch_ephemeral_public_key self) buf in
    let buf := blit 32 (ch_client_nonce self) buf in
    let buf := <[64%nat := ch_protocol_version self]> buf in
    let buf := <[65%nat := ch_codec_preferred self]> buf in
    let buf := blit 66 (be_bytes 4 (ch_sample_rate self)) buf in
    let buf := <[70%nat := ch_channels self]> buf in
    let buf := <[71%nat := ch_frame_duration_ms self]> buf in
    let buf := blit 72 (be_bytes 4 (ch_max_bitrate self)) buf in
    let buf := blit 76 (be_bytes 4 (ch_capability_flags self)) buf in
    Ok buf.

Definition ClientHello_decode (buf : list Z) : result Error ClientHello :=
  if decide (length buf < ClientHello_SIZE)%nat then Err MalformedPayload
  else
    let ephemeral_public_key := slice 0 32 buf in
    let client_nonce := slice 32 32 buf in
    Ok (mkClientHello ephemeral_public_key client_nonce
          (buf !!! 64%nat) (buf !!! 65%nat) (rd32 buf 66) (buf !!! 70%nat)
          (buf !!! 71%nat) (rd32 buf 72) (rd32 buf 76)).

(** A [[u8; n]]. *)
Definition byte_array (n : nat) (l : list Z) : Prop := length l = n ∧ bytes l.

#[export] Instance byte_array_dec n l : Decision (byte_array n l).
Proof. unfold byte_array. apply _. Defined.

Lemma byte_array_slice o n buf :
  bytes buf → (o + n ≤ length buf)%nat → byte_array n (slice o n buf).
Proof. split; [by apply length_slice|by apply bytes_slice]. Qed.
#[export] Hint Resolve byte_array_slice : gs.

Definition ClientHello_wf (m : ClientHello) : Prop :=
  byte_array 32 (ch_ephemeral_public_key m) ∧ byte_array 32 (ch_client_nonce m)
  ∧ u8 (ch_protocol_version m) ∧ u8 (ch_codec_preferred m) ∧ u32 (ch_sample_rate m)
  ∧ u8 (ch_channels m) ∧ u8 (ch_frame_duration_ms m) ∧ u32 (ch_max_bitrate m)
  ∧ u32 (ch_capability_flags m).

#[export] Instance ClientHello_wf_dec m : Decision (ClientHello_wf m).
Proof. unfold ClientHello_wf. apply _. Defined.

#[export] Instance ClientHello_codec : WireCodec ClientHello := {|
  wire_size := ClientHello_SIZE;
  wire_wf := ClientHello_wf;
  wire_encode := ClientHello_encode;
  wire_decode := ClientHello_decode;
|}.

(** The five laws, once the operations are unfolded. *)
Ltac codec_laws :=
  split; cbn [wire_size wire_wf wire_encode wire_decode];
  [ codec_short
  | codec_short
  | let x := fresh "x" in intros x ? Hwf ?; destruct x; simpl in Hwf |- *;
    unfold byte_array in Hwf; destruct_and? Hwf; codec_roundtrip; done
  | intros ? ? ?; case_decide; [done|]; intros [= <-]; simpl; split_and?; auto with gs lia
  | intros; codec_prefix ].

#[export] Instance ClientHello_laws : WireCodecLaws ClientHello.
Proof.
  unfold ClientHello_codec, ClientHello_encode, ClientHello_decode, ClientHello_SIZE,
    ClientHello_wf.
  codec_laws.
Qed.

(** ** ServerHello (0x02), 84 bytes *)

Record ServerHello : Type := mkServerHello {
  sh_ephemeral_public_key : list Z;
  sh_server_nonce : list Z;
  sh_session_id : Z;
  sh_protocol_version : Z;
  sh_codec_accepted : Z;
  sh_sample_rate : Z;
  sh_channels : Z;
  sh_frame_duration_ms : Z;
  sh_max_bitrate : Z;
  sh_capability_flags : Z;
}.

Definition ServerHello_SIZE : nat := 84.

Definition ServerHello_encode (self : ServerHello) (buf : list Z) : result Error (list Z) :=
  if decide (length buf < ServerHello_SIZE)%nat then Err BufferTooSmall
  else
    let buf := blit 0 (sh_ephemeral_public_key self) buf in
    let buf := blit 32 (sh_server_nonce self) buf in
    let buf := blit 64 (be_bytes 4 (sh_session_id self)) buf in
    let buf := <[68%nat := sh_protocol_version self]> buf in
    let buf := <[69%nat := sh_codec_accepted self]> buf in
    let buf := blit 70 (be_bytes 4 (sh_sample_rate self)) buf in
    let buf := <[74%nat := sh_channels self]> buf in
    let buf := <[75%nat := sh_frame_duration_ms self]> buf in
    let buf := blit 76 (be_bytes 4 (sh_max_bitrate self)) buf in
    let buf := blit 80 (be_bytes 4 (sh_capability_flags self)) buf in
    Ok buf.

Definition ServerHello_decode (buf : list Z) : result Error ServerHello :=
  if decide (length buf < ServerHello_SIZE)%nat then Err MalformedPayload
  else
    let ephemeral_public_key := slice 0 32 buf in
    let server_nonce := slice 32 32 buf in
    Ok (mkServerHello ephemeral_public_key server_nonce (rd32 buf 64)
          (buf !!! 68%nat) (buf !!! 69%nat) (rd32 buf 70) (buf !!! 74%nat)
          (buf !!! 75%nat) (rd32 buf 76) (rd32 buf 80)).

Definition ServerHello_wf (m : ServerHello) : Prop :=
  byte_array 32 (sh_ephemeral_public_key m) ∧ byte_array 32 (sh_server_nonce m)
  ∧ u32 (sh_session_id m) ∧ u8 (sh_protocol_version m) ∧ u8 (sh_codec_accepted m)
  ∧ u32 (sh_sample_rate m) ∧ u8 (sh_channels m) ∧ u8 (sh_frame_duration_ms m)
  ∧ u32 (sh_max_bitrate m) ∧ u32 (sh_capability_flags m).

#[export] Instance ServerHello_codec : WireCodec ServerHello := {|
  wire_size := ServerHello_SIZE;
  wire_wf := ServerHello_wf;
  wire_encode := ServerHello_encode;
  wire_decode := ServerHello_decode;
|}.

#[export] Instance ServerHello_laws : WireCodecLaws ServerHello.
Proof.
  unfold ServerHello_codec, ServerHello_encode, ServerHello_decode, ServerHello_SIZE,
    ServerHello_wf.
  codec_laws.
Qed.

(** ** KeyExchange (0x04) and SessionConfirm (0x03), 20 bytes *)

Record KeyExchangeMsg : Type := mkKeyExchangeMsg {
  ke_session_id : Z;
  ke_auth_tag : list Z;
}.

Definition KeyExchangeMsg_SIZE : nat := 20.

Definition KeyExchangeMsg_encode (self : KeyExchangeMsg) (buf : list Z) :
    result Error (list Z) :=
  if decide (length buf < KeyExchangeMsg_SIZE)%nat then Err BufferTooSmall
  else
    let buf := blit 0 (be_bytes 4 (ke_session_id self)) buf in
    let buf := blit 4 (ke_auth_tag self) buf in
    Ok buf.

Definition KeyExchangeMsg_decode (buf : list Z) : result Error KeyExchangeMsg :=
  if decide (length buf < KeyExchangeMsg_SIZE)%nat then Err MalformedPayload
  else
    let auth_tag := slice 4 16 buf in
    Ok (mkKeyExchangeMsg (rd32 buf 0) auth_tag).

Definition KeyExchangeMsg_wf (m : KeyExchangeMsg) : Prop :=
  u32 (ke_session_id m) ∧ byte_array 16 (ke_auth_tag m).

#[export] Instance KeyExchangeMsg_codec : WireCodec KeyExchangeMsg := {|
  wire_size := KeyExchangeMsg_SIZE;
  wire_wf := KeyExchangeMsg_wf;
  wire_encode := KeyExchangeMsg_encode;
  wire_decode := KeyExchangeMsg_decode;
|}.

#[export] Instance KeyExchangeMsg_laws : WireCodecLaws KeyExchangeMsg.
Proof.
  unfold KeyExchangeMsg_codec, KeyExchangeMsg_encode, KeyExchangeMsg_decode,
    KeyExchangeMsg_SIZE, KeyExchangeMsg_wf.
  codec_laws.
Qed.

Record SessionConfirm : Type := mkSessionConfirm {
  sc_session_id : Z;
  sc_server_auth_tag : list Z;
}.

Definition SessionConfirm_SIZE : nat := 20.

Definition SessionConfirm_encode (self : SessionConfirm) (buf : list Z) :
    result Error (list Z) :=
  if decide (length buf < SessionConfirm_SIZE)%nat then Err BufferTooSmall
  else
    let buf := blit 0 (be_bytes 4 (sc_session_id self)) buf in
    let buf := blit 4 (sc_server_auth_tag self) buf in
    Ok buf.

Definition SessionConfirm_decode (buf : list Z) : result Error SessionConfirm :=
  if decide (length buf < SessionConfirm_SIZE)%nat then Err MalformedPayload
  else
    let server_auth_tag := slice 4 16 buf in
    Ok (mkSessionConfirm (rd32 buf 0) server_auth_tag).

Definition SessionConfirm_wf (m : SessionConfirm) : Prop :=
  u32 (sc_session_id m) ∧ byte_array 16 (sc_server_auth_tag m).

#[export] Instance SessionConfirm_codec : WireCodec SessionConfirm := {|
  wire_size := SessionConfirm_SIZE;
  wire_wf := SessionConfirm_wf;
  wire_encode := SessionConfirm_encode;
  wire_decode := SessionConfirm_decode;
|}.

#[export] Instance SessionConfirm_laws : WireCodecLaws SessionConfirm.
Proof.
  unfold SessionConfirm_codec, SessionConfirm_encode, SessionConfirm_decode,
    SessionConfirm_SIZE, SessionConfirm_wf.
  codec_laws.
Qed.

(** ** FecHeader (0x12), 9 bytes; a zero window is refused *)

Record FecHeader : Type := mkFecHeader {
  fh_seq_base : Z;
  fh_window : Z;
  fh_data_len : Z;
}.

Definition FecHeader_SIZE : nat := 9.

Definition FecHeader_encode (self : FecHeader) (buf : list Z) : result Error (list Z) :=
  if decide (length buf < FecHeader_SIZE)%nat then Err BufferTooSmall
  else
    let buf := blit 0 (be_bytes 4 (fh_seq_base self)) buf in
    let buf := <[4%nat := fh_window self]> buf in
    let buf := blit 5 (be_bytes 4 (fh_data_len self)) buf in
    Ok buf.

Definition FecHeader_decode (buf : list Z) : result Error FecHeader :=
  if decide (length buf < FecHeader_SIZE)%nat then Err MalformedPayload
  else
    let window := buf !!! 4%nat in
    if decide (window = 0) then Err MalformedPayload
    else Ok (mkFecHeader (rd32 buf 0) window (rd32 buf 5)).

Definition FecHeader_wf (m : FecHeader) : Prop :=
  u32 (fh_seq_base m) ∧ u8 (fh_window m) ∧ fh_window m ≠ 0 ∧ u32 (fh_data_len m).

#[export] Instance FecHeader_codec : WireCodec FecHeader := {|
  wire_size := FecHeader_SIZE;
  wire_wf := FecHeader_wf;
  wire_encode := FecHeader_encode;
  wire_decode := FecHeader_decode;
|}.

#[export] Instance FecHeader_laws : WireCodecLaws FecHeader.
Proof.
  unfold FecHeader_codec, FecHeader_encode, FecHeader_decode, FecHeader_SIZE, FecHeader_wf.
  split; cbn [wire_size wire_wf wire_encode wire_decode].
  - codec_short.
  - codec_short.
  - intros [b w d] buf (? & ? & Hw & ?) Hl; cbn [fh_seq_base fh_window fh_data_len] in *.
    codec_roundtrip.
    by rewrite decide_False.
  - intros buf x Hb. case_decide; [done|]. case_decide; [done|]. intros [= <-]; simpl.
    split_and!; auto with gs.
  - intros. codec_prefix.
Qed.

(** ** ControlBitrate (0x33), 4 bytes *)

Record ControlBitrateMsg : Type := mkControlBitrateMsg { cb_requested_bitrate : Z }.

Definition ControlBitrateMsg_SIZE : nat := 4.

Definition ControlBitrateMsg_encode (self : ControlBitrateMsg) (buf : list Z) :
    result Error (list Z) :=
  if decide (length buf < ControlBitrateMsg_SIZE)%nat then Err BufferTooSmall
  else Ok (blit 0 (be_bytes 4 (cb_requested_bitrate self)) buf).

Definition ControlBitrateMsg_decode (buf : list Z) : result Error ControlBitrateMsg :=
  if decide (length buf < ControlBitrateMsg_SIZE)%nat then Err MalformedPayload
  else Ok (mkControlBitrateMsg (rd32 buf 0)).

#[export] Instance ControlBitrateMsg_codec : WireCodec ControlBitrateMsg := {|
  wire_size := ControlBitrateMsg_SIZE;
  wire_wf m := u32 (cb_requested_bitrate m);
  wire_encode := ControlBitrateMsg_encode;
  wire_decode := ControlBitrateMsg_decode;
|}.

#[export] Instance ControlBitrateMsg_laws : WireCodecLaws ControlBitrateMsg.
Proof.
  unfold ControlBitrateMsg_codec, ControlBitrateMsg_encode, ControlBitrateMsg_decode,
    ControlBitrateMsg_SIZE.
  codec_laws.
Qed.

(** ** AuthChallenge (0x50), 32 bytes, and AuthResponse (0x51), 96 bytes *)

Record AuthChallengeMsg : Type := mkAuthChallengeMsg { ac_nonce : list Z }.

Definition AuthChallengeMsg_SIZE : nat := 32.

Definition AuthChallengeMsg_encode (self : AuthChallengeMsg) (buf : list Z) :
    result Error (list Z) :=
  if decide (length buf < AuthChallengeMsg_SIZE)%nat then Err BufferTooSmall
  else Ok (blit 0 (ac_nonce self) buf).

Definition AuthChallengeMsg_decode (buf : list Z) : result Error AuthChallengeMsg :=
  if decide (length buf < AuthChallengeMsg_SIZE)%nat then Err MalformedPayload
  else Ok (mkAuthChallengeMsg (slice 0 32 buf)).

#[export] Instance AuthChallengeMsg_codec : WireCodec AuthChallengeMsg := {|
  wire_size := AuthChallengeMsg_SIZE;
  wire_wf m := byte_array 32 (ac_nonce m);
  wire_encode := AuthChallengeMsg_encode;
  wire_decode := AuthChallengeMsg_decode;
|}.

#[export] Instance AuthChallengeMsg_laws : WireCodecLaws AuthChallengeMsg.
Proof.
  unfold AuthChallengeMsg_codec, AuthChallengeMsg_encode, AuthChallengeMsg_decode,
    AuthChallengeMsg_SIZE.
  codec_laws.
Qed.

Record AuthResponseMsg : Type := mkAuthResponseMsg {
  ar_public_key : list Z;
  ar_signature : list Z;
}.

Definition AuthResponseMsg_SIZE : nat := 96.

Definition AuthResponseMsg_encode (self : AuthResponseMsg) (buf : list Z) :
    result Error (list Z) :=
  if decide (length buf < AuthResponseMsg_SIZE)%nat then Err BufferTooSmall
  else
    let buf := blit 0 (ar_public_key self) buf in
    let buf := blit 32 (ar_signature self) buf in
    Ok buf.

Definition AuthResponseMsg_decode (buf : list Z) : result Error AuthResponseMsg :=
  if decide (length buf < AuthResponseMsg_SIZE)%nat then Err MalformedPayload
  else Ok (mkAuthResponseMsg (slice 0 32 buf) (slice 32 64 buf)).

#[export] Instance AuthResponseMsg_codec : WireCodec AuthResponseMsg := {|
  wire_size := AuthResponseMsg_SIZE;
  wire_wf m := byte_array 32 (ar_public_key m) ∧ byte_array 64 (ar_signature m);
  wire_encode := AuthResponseMsg_encode;
  wire_decode := AuthResponseMsg_decode;
|}.

#[export] Instance AuthResponseMsg_laws : WireCodecLaws AuthResponseMsg.
Proof.
  unfold AuthResponseMsg_codec, AuthResponseMsg_encode, AuthResponseMsg_decode,
    AuthResponseMsg_SIZE.
  codec_laws.
Qed.

(** ** Payloads survive the wire *)

Section wire_payload.
Context {A : Type} `{WireCodecLaws A}.

(** The payload written for [x] decodes to [x] whatever bytes follow it. *)
Lemma wire_image_decode x rest :
  wire_wf x → ∃ p, wire_image x = Ok p ∧ length p = wire_size A ∧ bytes p
                   ∧ wire_decode (p ++ rest) = Ok x.
Proof.
  intros Hwf. destruct (wire_image_ok x Hwf) as (p & Hp & Hl & Hb & Hd).
  exists p. split_and!; [done..|].
  rewrite <-wire_decode_prefix by (rewrite length_app; lia).
  by rewrite take_app_length'.
Qed.
End wire_payload.

(** The four handshake payloads survive the wire: each well-formed
    [ClientHello], [ServerHello], [KeyExchangeMsg] and [SessionConfirm] is
    encoded into its fixed size and decoded to the same value, also when more
    bytes follow; and what is decoded from received bytes has every field in
    its range. *)
Theorem handshake_payloads_roundtrip ch sh ke sc rest :
  ClientHello_wf ch → ServerHello_wf sh → KeyExchangeMsg_wf ke → SessionConfirm_wf sc →
  (∃ p, wire_image ch = Ok p ∧ length p = 80%nat ∧ ClientHello_decode (p ++ rest) = Ok ch)
  ∧ (∃ p, wire_image sh = Ok p ∧ length p = 84%nat ∧ ServerHello_decode (p ++ rest) = Ok sh)
  ∧ (∃ p, wire_image ke = Ok p ∧ length p = 20%nat ∧ KeyExchangeMsg_decode (p ++ rest) = Ok ke)
  ∧ (∃ p, wire_image sc = Ok p ∧ length p = 20%nat ∧ SessionConfirm_decode (p ++ rest) = Ok sc).
Proof.
  intros Hch Hsh Hke Hsc.
  destruct (wire_image_decode ch rest) as (? & ? & ? & _ & ?); [exact Hch|].
  destruct (wire_image_decode sh rest) as (? & ? & ? & _ & ?); [exact Hsh|].
  destruct (wire_image_decode ke rest) as (? & ? & ? & _ & ?); [exact Hke|].
  destruct (wire_image_decode sc rest) as (? & ? & ? & _ & ?); [exact Hsc|].
  eauto 20.
Qed.

Definition sample_client_hello : ClientHello :=
  mkClientHello (replicate 32 0xAB) (replicate 32 0x11) 1 1 48000 2 10 128000 0xDEADBEEF.
Definition sample_server_hello : ServerHello :=
  mkServerHello (replicate 32 0xCD) (replicate 32 0x22) 0x12345678 1 1 48000 1 20 64000 0.

Lemma handshake_payloads_roundtrip_witness :
  (∃ p, wire_image sample_client_hello = Ok p ∧ length p = 80%nat
        ∧ ClientHello_decode (p ++ [9]) = Ok sample_client_hello)
  ∧ (∃ p, wire_image sample_server_hello = Ok p ∧ length p = 84%nat
        ∧ ServerHello_decode (p ++ [9]) = Ok sample_server_hello)
  ∧ (∃ p, wire_image (mkKeyExchangeMsg 7 (replicate 16 3)) = Ok p ∧ length p = 20%nat
        ∧ KeyExchangeMsg_decode (p ++ [9]) = Ok (mkKeyExchangeMsg 7 (replicate 16 3)))
  ∧ (∃ p, wire_image (mkSessionConfirm 7 (replicate 16 5)) = Ok p ∧ length p = 20%nat
        ∧ SessionConfirm_decode (p ++ [9]) = Ok (mkSessionConfirm 7 (replicate 16 5))).
Proof.
  apply (handshake_payloads_roundtrip sample_client_hello sample_server_hello
           (mkKeyExchangeMsg 7 (replicate 16 3)) (mkSessionConfirm 7 (replicate 16 5)) [9]);
    (split_and!; apply (bool_decide_unpack _); by vm_compute).
Defined.
