(* ===== verification/Fragment.v ===== *)
(** * Fragmentation and reassembly

    Models [gravital-talk-core/src/fragment.rs]: the 4-byte fragment
    sub-header and the [FragmentReassembler] that collects the fragments of
    one frame in any order. *)

From S2P Require Import Prelude.
From S2P Require Import CoreTypes.

(** ** FragmentHeader *)

Record FragmentHeader : Type := mkFragmentHeader {
  fr_index : Z;
  fr_total : Z;
}.

Definition FragmentHeader_SIZE : nat := FRAGMENT_SUBHEADER_SIZE.

Definition FragmentHeader_encode (self : FragmentHeader) (buf : list Z) :
    result Error (list Z) :=
  if decide (length buf < FragmentHeader_SIZE)%nat then Err BufferTooSmall
  else
    let buf := blit 0 (be_bytes 2 (fr_index self)) buf in
    let buf := blit 2 (be_bytes 2 (fr_total self)) buf in
    Ok buf.

Definition FragmentHeader_decode (buf : list Z) : result Error FragmentHeader :=
  if decide (length buf < FragmentHeader_SIZE)%nat then Err MalformedPayload
  else
    let index := rd16 buf 0 in
    let total := rd16 buf 2 in
    if decide (total = 0 ∨ MAX_FRAGMENTS < total) then Err TooManyFragments
    else if decide (total ≤ index) then Err FragmentOutOfRange
    else Ok (mkFragmentHeader index total).

Definition FragmentHeader_wf (m : FragmentHeader) : Prop :=
  0 ≤ fr_index m < fr_total m ∧ fr_total m ≤ MAX_FRAGMENTS.

#[export] Instance FragmentHeader_codec : WireCodec FragmentHeader := {|
  wire_size := FragmentHeader_SIZE;
  wire_wf := FragmentHeader_wf;
  wire_encode := FragmentHeader_encode;
  wire_decode := FragmentHeader_decode;
|}.

#[export] Instance FragmentHeader_laws : WireCodecLaws FragmentHeader.
Proof.
  unfold FragmentHeader_codec, FragmentHeader_encode, FragmentHeader_decode,
    FragmentHeader_SIZE, FRAGMENT_SUBHEADER_SIZE, FragmentHeader_wf, MAX_FRAGMENTS.
  split; cbn [wire_size wire_wf wire_encode wire_decode].
  - codec_short.
  - codec_short.
  - intros [i t] buf (? & ?) Hl; cbn [fr_index fr_total] in *. codec_roundtrip.
    by rewrite !decide_False by lia.
  - intros buf x Hb. case_decide; [done|]. case_decide; [done|]. case_decide; [done|].
    intros [= <-]; simpl. pose proof (rd16_u16 buf 0 Hb). pose proof (rd16_u16 buf 2 Hb).
    ulia.
  - intros. codec_prefix.
Qed.

(** ** FragmentReassembler *)

Record FragmentReassembler : Type := mkFragmentReassembler {
  fra_expected_total : Z;
  fra_buffers : list (option (list Z));
  fra_received : Z;
}.

Definition FragmentReassembler_new (total : Z) : result Error FragmentReassembler :=
  if decide (total = 0 ∨ MAX_FRAGMENTS < total) then Err TooManyFragments
  else Ok (mkFragmentReassembler total (replicate (Z.to_nat total) None) 0).

Definition FragmentReassembler_insert (self : FragmentReassembler) (index : Z)
    (payload : list Z) : result Error FragmentReassembler :=
  if decide (fra_expected_total self ≤ index) then Err FragmentOutOfRange
  else
    match fra_buffers self !!! Z.to_nat index with
    | Some _ => Err DuplicateFragment
    | None =>
        Ok (mkFragmentReassembler (fra_expected_total self)
              (<[Z.to_nat index := Some payload]> (fra_buffers self))
              (fra_received self + 1))
    end.

Definition FragmentReassembler_is_complete (self : FragmentReassembler) : bool :=
  fra_received self =? fra_expected_total self.

Definition FragmentReassembler_finish (self : FragmentReassembler) : result Error (list Z) :=
  if negb (FragmentReassembler_is_complete self) then Err IncompleteReassembly
  else Ok (mjoin (omap id (fra_buffers self))).

(** A sequence of arrivals; a refused insertion leaves the reassembler as it
    was ([&mut self] is not touched before the error is returned). *)
Definition insert_all (r : FragmentReassembler) (evs : list (Z * list Z)) :
    FragmentReassembler :=
  foldl (λ r ev, match FragmentReassembler_insert r ev.1 ev.2 with
                 | Ok r' => r' | Err _ => r end) r evs.

(** ** Specification: the first payload that arrived for each index *)

Fixpoint first_payload (i : Z) (evs : list (Z * list Z)) : option (list Z) :=
  match evs with
  | [] => None
  | (j, p) :: evs => if decide (j = i) then Some p else first_payload i evs
  end.

Definition collected (total : Z) (evs : list (Z * list Z)) : list (option (list Z)) :=
  (λ k, first_payload (Z.of_nat k) evs) <$> seq 0 (Z.to_nat total).

Lemma first_payload_snoc i evs j p :
  first_payload i (evs ++ [(j, p)]) =
    match first_payload i evs with
    | Some q => Some q
    | None => if decide (j = i) then Some p else None
    end.
Proof.
  induction evs as [|[k q] evs IH]; simpl; [done|]. by destruct (decide (k = i)).
Qed.

Lemma lookup_collected total evs k :
  (k < Z.to_nat total)%nat → collected total evs !! k = Some (first_payload (Z.of_nat k) evs).
Proof.
  intros Hk. unfold collected. rewrite list_lookup_fmap, lookup_seq_lt by done. done.
Qed.

Lemma length_collected total evs : length (collected total evs) = Z.to_nat total.
Proof. unfold collected. by rewrite length_fmap, length_seq. Qed.

Lemma collected_snoc_new total evs j p :
  0 ≤ j < total → first_payload j evs = None →
  collected total (evs ++ [(j, p)]) = <[Z.to_nat j := Some p]> (collected total evs).
Proof.
  intros Hj Hnone. apply list_eq_same_length with (n := Z.to_nat total);
    [by rewrite length_insert, length_collected|by rewrite length_collected|].
  intros k x y Hk. rewrite lookup_collected by done. rewrite first_payload_snoc.
  destruct (decide (k = Z.to_nat j)) as [->|Hne].
  - rewrite list_lookup_insert_eq by (by rewrite length_collected).
    rewrite Z2Nat.id, Hnone, decide_True by lia. congruence.
  - rewrite list_lookup_insert_ne, lookup_collected by done.
    rewrite decide_False by lia. destruct (first_payload (Z.of_nat k) evs); by intros [= <-] [= <-].
Qed.

Lemma collected_snoc_old total evs j p :
  total ≤ j ∨ is_Some (first_payload j evs) ∨ j < 0 →
  collected total (evs ++ [(j, p)]) = collected total evs.
Proof.
  intros Hj. unfold collected. apply list_fmap_ext. intros ? k Hk%lookup_seq.
  rewrite first_payload_snoc. destruct (first_payload (Z.of_nat k) evs) eqn:Hf; [done|].
  case_decide; [|done]. subst j. destruct Hj as [?|[[q Hq]|?]]; [lia|congruence|lia].
Qed.

(** How many slots are filled. *)
Definition filled (bufs : list (option (list Z))) : Z := Z.of_nat (length (omap id bufs)).

Lemma filled_insert bufs k p :
  bufs !! k = Some None → filled (<[k := Some p]> bufs) = filled bufs + 1.
Proof.
  unfold filled. revert k. induction bufs as [|b bufs IH]; intros [|k] Hk; try done.
  - injection Hk as ->. csimpl. lia.
  - specialize (IH k Hk). destruct b; csimpl; lia.
Qed.

Lemma filled_le bufs : filled bufs ≤ Z.of_nat (length bufs).
Proof. unfold filled. induction bufs as [|[b|] bufs IH]; csimpl; lia. Qed.

Lemma filled_full bufs :
  filled bufs = Z.of_nat (length bufs) ↔ Forall is_Some bufs.
Proof.
  induction bufs as [|[b|] bufs IH]; unfold filled in *; csimpl.
  - done.
  - rewrite Forall_cons_iff. rewrite <-IH. split; [intros; split; [done|lia]|intros [_ ?]; lia].
  - pose proof (filled_le bufs). unfold filled in *. rewrite Forall_cons_iff.
    split; [lia|]. by intros [[? [=]] _].
Qed.

(** The reassembler's state after a sequence of arrivals. *)
Definition reassembler_at (total : Z) (evs : list (Z * list Z)) : FragmentReassembler :=
  mkFragmentReassembler total (collected total evs) (filled (collected total evs)).

Lemma insert_step total evs j p :
  0 < total ≤ MAX_FRAGMENTS → 0 ≤ j →
  FragmentReassembler_insert (reassembler_at total evs) j p =
    if decide (total ≤ j) then Err FragmentOutOfRange
    else match first_payload j evs with
         | Some _ => Err DuplicateFragment
         | None => Ok (reassembler_at total (evs ++ [(j, p)]))
         end.
Proof.
  intros Ht Hj. unfold FragmentReassembler_insert, reassembler_at; simpl.
  case_decide as Hge; [done|].
  assert (collected total evs !! Z.to_nat j = Some (first_payload j evs)) as Hl.
  { rewrite lookup_collected by lia. by rewrite Z2Nat.id. }
  rewrite list_lookup_total_alt, Hl; simpl.
  destruct (first_payload j evs) eqn:Hf; [done|].
  rewrite collected_snoc_new by (done || lia). by rewrite filled_insert.
Qed.

Lemma insert_all_at total evs r0 :
  FragmentReassembler_new total = Ok r0 → 0 ≤ total → Forall (λ ev, 0 ≤ ev.1) evs →
  insert_all r0 evs = reassembler_at total evs.
Proof.
  unfold FragmentReassembler_new. case_decide as Ht; [done|]. intros [= <-] H0 Hevs.
  induction evs as [|[j p] evs IH] using rev_ind.
  - unfold insert_all, reassembler_at, collected. cbn [foldl first_payload].
    assert ((λ k : nat, None) <$> seq 0 (Z.to_nat total)
            = replicate (Z.to_nat total) (@None (list Z))) as ->.
    { generalize 0%nat. induction (Z.to_nat total); intros; csimpl; congruence. }
    f_equal. unfold filled. induction (Z.to_nat total) as [|n IH]; [done|]. exact IH.
  - apply Forall_app in Hevs as [Hevs Hj]. rewrite Forall_singleton in Hj. simpl in Hj.
    unfold insert_all in *. rewrite foldl_app, IH by done. cbn [foldl fst snd].
    rewrite insert_step by lia. case_decide as Hge.
    + unfold reassembler_at. rewrite collected_snoc_old by auto. done.
    + destruct (first_payload j evs) eqn:Hf; [|done].
      unfold reassembler_at. rewrite collected_snoc_old by (rewrite Hf; eauto). done.
Qed.

(** C29: whatever fragments arrive, in whatever order and with whatever
    duplicates and out-of-range indices, after them the reassembler holds for
    each index the first payload that arrived for it; it is complete exactly
    when every index has arrived; and [finish] then returns the concatenation
    of the payloads by index, and before that [IncompleteReassembly]. *)
Theorem reassembly_correct total evs r0 :
  FragmentReassembler_new total = Ok r0 → 0 ≤ total → Forall (λ ev, 0 ≤ ev.1) evs →
  let r := insert_all r0 evs in
  (∀ k, (k < Z.to_nat total)%nat →
     fra_buffers r !! k = Some (first_payload (Z.of_nat k) evs))
  ∧ (FragmentReassembler_is_complete r = true ↔
       ∀ i, 0 ≤ i < total → is_Some (first_payload i evs))
  ∧ FragmentReassembler_finish r =
      if FragmentReassembler_is_complete r
      then Ok (mjoin (omap id (collected total evs))) else Err IncompleteReassembly.
Proof.
  intros Hnew H0 Hevs r. unfold r. rewrite (insert_all_at total) by done.
  unfold FragmentReassembler_finish. split; [|split].
  - intros k Hk. by apply lookup_collected.
  - unfold FragmentReassembler_is_complete; simpl. rewrite Z.eqb_eq.
    assert (total = Z.of_nat (length (collected total evs))) as Hl
      by (rewrite length_collected; lia).
    rewrite Hl at 2. rewrite filled_full, Forall_lookup. split.
    + intros Hall i Hi. rewrite <-(Z2Nat.id i) by lia.
      apply (Hall (Z.to_nat i)). apply lookup_collected. lia.
    + intros Hall k x Hk. pose proof (lookup_lt_Some _ _ _ Hk) as Hlt.
      rewrite length_collected in Hlt. rewrite lookup_collected in Hk by done.
      injection Hk as <-. apply Hall. lia.
  - by destruct (FragmentReassembler_is_complete _).
Qed.

Lemma reassembly_correct_witness :
  let r := insert_all (mkFragmentReassembler 2 [None; None] 0)
             [(1, [3; 4]); (1, [9]); (5, [7]); (0, [1; 2])] in
  (∀ k, (k < Z.to_nat 2)%nat → fra_buffers r !! k
     = Some (first_payload (Z.of_nat k) [(1, [3; 4]); (1, [9]); (5, [7]); (0, [1; 2])]))
  ∧ (FragmentReassembler_is_complete r = true ↔
       ∀ i, 0 ≤ i < 2 →
         is_Some (first_payload i [(1, [3; 4]); (1, [9]); (5, [7]); (0, [1; 2])]))
  ∧ FragmentReassembler_finish r =
      if FragmentReassembler_is_complete r
      then Ok (mjoin (omap id (collected 2 [(1, [3; 4]); (1, [9]); (5, [7]); (0, [1; 2])])))
      else Err IncompleteReassembly.
Proof.
  apply (reassembly_correct 2 [(1, [3; 4]); (1, [9]); (5, [7]); (0, [1; 2])]
           (mkFragmentReassembler 2 [None; None] 0)); [reflexivity|lia|].
  repeat constructor; simpl; lia.
Defined.

Example reassembly_out_of_order :
  FragmentReassembler_finish (insert_all (mkFragmentReassembler 2 [None; None] 0)
    [(1, [3; 4]); (1, [9]); (5, [7]); (0, [1; 2])]) = Ok [1; 2; 3; 4].
Proof. reflexivity. Qed.
