(* ===== verification/SessionFsm.v ===== *)
(** * Session state machine

    Models [gravital-talk-core/src/session.rs]: [SessionState],
    [SessionEvent] and [SessionStateMachine::transition].  The abstract view
    of the machine is whether the session is operational (may exchange audio):
    it is so exactly from an accepted [HandshakeOk] until an event that ends
    it. *)

From S2P Require Import Prelude.
From S2P Require Import CoreTypes.

Inductive SessionState : Type :=
  | Idle | Handshaking | Active | Paused | Closing | Closed | SError | Reconnecting.

#[export] Instance SessionState_eq_dec : EqDecision SessionState.
Proof. solve_decision. Defined.

Definition SessionState_code (s : SessionState) : Z :=
  match s with
  | Idle => 0 | Handshaking => 1 | Active => 2 | Paused => 3
  | Closing => 4 | Closed => 5 | SError => 6 | Reconnecting => 7
  end.

Definition SessionState_from_code (code : Z) : result Error SessionState :=
  match code with
  | 0 => Ok Idle | 1 => Ok Handshaking | 2 => Ok Active | 3 => Ok Paused
  | 4 => Ok Closing | 5 => Ok Closed | 6 => Ok SError | 7 => Ok Reconnecting
  | _ => Err MalformedPayload
  end.

Definition is_operational (s : SessionState) : bool :=
  match s with Active | Paused => true | _ => false end.

Definition is_terminal (s : SessionState) : bool :=
  match s with Closed | SError => true | _ => false end.

Inductive SessionEvent : Type :=
  | StartConnect | StartAccept | HandshakeOk | HandshakeTimeout | Pause | Resume
  | EvClose | PeerClosed | PeerTimeout | FatalError | Reconnect | ReconnectOk.

#[export] Instance SessionEvent_eq_dec : EqDecision SessionEvent.
Proof. solve_decision. Defined.

Record StateTransitionError : Type := mkStateTransitionError {
  ste_from : SessionState;
  ste_event : SessionEvent;
}.

Record SessionStateMachine : Type := mkSessionStateMachine { sm_state : SessionState }.

Definition SessionStateMachine_new : SessionStateMachine := mkSessionStateMachine Idle.

(** The [match (self.state, event)] of [transition]. *)
Definition next_state (s : SessionState) (e : SessionEvent) : option SessionState :=
  match s, e with
  | Idle, StartConnect | Idle, StartAccept => Some Handshaking
  | Handshaking, HandshakeOk => Some Active
  | Handshaking, HandshakeTimeout | Handshaking, EvClose => Some Closed
  | Handshaking, FatalError => Some SError
  | Active, Pause => Some Paused
  | Active, EvClose => Some Closing
  | Active, PeerClosed => Some Closing
  | Active, PeerTimeout => Some Closing
  | Active, FatalError => Some SError
  | Paused, Resume => Some Active
  | Paused, EvClose => Some Closing
  | Paused, PeerClosed => Some Closing
  | Paused, PeerTimeout => Some Closing
  | Paused, FatalError => Some SError
  | Closing, PeerClosed => Some Closed
  | Closing, EvClose => Some Closed
  | SError, Reconnect | Closed, Reconnect => Some Reconnecting
  | Reconnecting, StartConnect | Reconnecting, StartAccept
  | Reconnecting, ReconnectOk => Some Handshaking
  | Reconnecting, HandshakeTimeout | Reconnecting, FatalError => Some SError
  | _, _ => None
  end.

(** [transition]: the machine after the call and the value returned. *)
Definition SessionStateMachine_transition (self : SessionStateMachine) (event : SessionEvent) :
    SessionStateMachine * result StateTransitionError SessionState :=
  match next_state (sm_state self) event with
  | Some next => (mkSessionStateMachine next, Ok next)
  | None => (self, Err (mkStateTransitionError (sm_state self) event))
  end.

(** Codes are stable and faithful. *)
Lemma SessionState_code_roundtrip s : SessionState_from_code (SessionState_code s) = Ok s.
Proof. by destruct s. Qed.

(** ** Runs

    A run applies events in order, ignoring rejected ones as the callers do
    with [.ok()] or [let _ =]; [accepted] lists the events that took effect. *)

Fixpoint sm_run (m : SessionStateMachine) (evs : list SessionEvent) : SessionStateMachine :=
  match evs with
  | [] => m
  | e :: evs => sm_run (SessionStateMachine_transition m e).1 evs
  end.

Fixpoint accepted (m : SessionStateMachine) (evs : list SessionEvent) : list SessionEvent :=
  match evs with
  | [] => []
  | e :: evs =>
      let '(m', r) := SessionStateMachine_transition m e in
      if is_ok r then e :: accepted m' evs else accepted m' evs
  end.

(** Specification of being operational, on the accepted events alone: a
    handshake completed and nothing has ended the session since. *)
Definition opens (e : SessionEvent) : bool :=
  match e with HandshakeOk => true | _ => false end.
Definition ends (e : SessionEvent) : bool :=
  match e with
  | EvClose | PeerClosed | PeerTimeout | FatalError => true
  | _ => false
  end.
Definition open_after (o : bool) (evs : list SessionEvent) : bool :=
  foldl (λ o e, if opens e then true else if ends e then false else o) o evs.

Lemma transition_err_state m e err :
  (SessionStateMachine_transition m e).2 = Err err →
  (SessionStateMachine_transition m e).1 = m
  ∧ err = mkStateTransitionError (sm_state m) e.
Proof.
  unfold SessionStateMachine_transition.
  destruct (next_state (sm_state m) e); simpl; naive_solver.
Qed.

Lemma open_after_step s e s' :
  next_state s e = Some s' →
  is_operational s' =
    (if opens e then true else if ends e then false else is_operational s).
Proof. destruct s, e; naive_solver. Qed.

Lemma operational_run evs m o :
  is_operational (sm_state m) = o →
  is_operational (sm_state (sm_run m evs)) = open_after o (accepted m evs).
Proof.
  revert m o. induction evs as [|e evs IH]; intros m o Ho; simpl; [done|].
  unfold SessionStateMachine_transition.
  destruct (next_state (sm_state m) e) as [s'|] eqn:Hn; simpl; [|by apply IH].
  apply IH. simpl. rewrite (open_after_step _ _ _ Hn). by rewrite Ho.
Qed.

(** Over every sequence of events from a new machine, the session is
    operational (Active or Paused) exactly when a [HandshakeOk] was accepted
    and no accepted event has closed, timed out or failed it since; in
    particular no sequence of pause, resume or reconnection events makes a
    session operational without a completed handshake. *)
Theorem operational_iff_open evs :
  is_operational (sm_state (sm_run SessionStateMachine_new evs))
    = open_after false (accepted SessionStateMachine_new evs).
Proof. by apply operational_run. Qed.

(** An event outside the transition diagram is refused, the error names
    the state and the event, and the state does not change; a terminal state
    (Closed, Error) is left by no event but [Reconnect]; and each call of
    [transition] that succeeds returns the state it has moved to. *)
Theorem transition_contract m e :
  (∀ err, (SessionStateMachine_transition m e).2 = Err err →
     (SessionStateMachine_transition m e).1 = m
     ∧ err = mkStateTransitionError (sm_state m) e)
  ∧ (∀ s, (SessionStateMachine_transition m e).2 = Ok s →
       sm_state (SessionStateMachine_transition m e).1 = s
       ∧ (is_terminal (sm_state m) = true → e = Reconnect ∧ s = Reconnecting)).
Proof.
  split; [apply transition_err_state|]. intros s.
  unfold SessionStateMachine_transition. destruct m as [st]; simpl.
  destruct st, e; simpl; intros [=]; subst; naive_solver.
Qed.

(** Termination of a session: whatever the state, the two [Close] events that
    [Session::close] applies leave no operational session. *)
Lemma close_twice_not_operational m :
  is_operational (sm_state (sm_run m [EvClose; EvClose])) = false.
Proof. by destruct m as [[]]. Qed.
