(* ===== verification/Floor.v ===== *)
(** * Floor controller (push-to-talk)

    Models [gravital-talk-core/src/floor.rs]: the floor state machine with
    its holder, and the 4-byte [FloorPayload]. *)

From S2P Require Import Prelude.
From S2P Require Import CoreTypes.
From S2P Require Import Message.

Definition FLOOR_TIMEOUT_MS : Z := 30000.

Inductive FloorState : Type := FsIdle | FsRequested | FsGranted | FsReleased.

#[export] Instance FloorState_eq_dec : EqDecision FloorState.
Proof. solve_decision. Defined.

Inductive FloorEvent : Type :=
  | FeRequest | FeGrant | FeDeny | FeRelease | FeTaken | FeTimeout | FeReset.

#[export] Instance FloorEvent_eq_dec : EqDecision FloorEvent.
Proof. solve_decision. Defined.

Record FloorTransitionError : Type := mkFloorTransitionError {
  fte_from : FloorState;
  fte_event : FloorEvent;
}.

Record FloorController : Type := mkFloorController {
  fc_state : FloorState;
  fc_holder_ssrc : Z;
  fc_max_transmit_ms : Z;
}.

Definition FloorController_new (max_transmit_ms : Z) : FloorController :=
  mkFloorController FsIdle 0 max_transmit_ms.

Definition FloorController_default : FloorController := FloorController_new FLOOR_TIMEOUT_MS.

Definition FloorController_is_available (self : FloorController) : bool :=
  match fc_state self with FsIdle | FsReleased => true | _ => false end.

Definition FloorController_is_granted (self : FloorController) : bool :=
  match fc_state self with FsGranted => true | _ => false end.

Definition FloorController_is_holder (self : FloorController) (ssrc : Z) : bool :=
  bool_decide (fc_state self = FsGranted) && (fc_holder_ssrc self =? ssrc).

(** The [match (self.state, event)]: the next state and the new holder. *)
Definition floor_next (s : FloorState) (e : FloorEvent) (holder ssrc : Z) :
    option (FloorState * Z) :=
  match s, e with
  | FsIdle, FeRequest => Some (FsRequested, ssrc)
  | FsIdle, FeReset => Some (FsIdle, holder)
  | FsIdle, FeGrant => Some (FsGranted, ssrc)
  | FsRequested, FeGrant => Some (FsGranted, ssrc)
  | FsRequested, FeDeny => Some (FsIdle, 0)
  | FsRequested, FeTaken => Some (FsGranted, ssrc)
  | FsRequested, FeReset | FsRequested, FeTimeout => Some (FsIdle, 0)
  | FsGranted, FeRelease => Some (FsReleased, 0)
  | FsGranted, FeTimeout => Some (FsReleased, 0)
  | FsGranted, FeTaken => Some (FsGranted, ssrc)
  | FsGranted, FeReset => Some (FsIdle, 0)
  | FsReleased, FeReset | FsReleased, FeRelease => Some (FsIdle, 0)
  | FsReleased, FeRequest => Some (FsRequested, ssrc)
  | FsReleased, FeGrant => Some (FsGranted, ssrc)
  | _, _ => None
  end.

Definition FloorController_transition (self : FloorController) (event : FloorEvent) (ssrc : Z) :
    FloorController * result FloorTransitionError FloorState :=
  match floor_next (fc_state self) event (fc_holder_ssrc self) ssrc with
  | Some (next, holder) =>
      (mkFloorController next holder (fc_max_transmit_ms self), Ok next)
  | None => (self, Err (mkFloorTransitionError (fc_state self) event))
  end.

(** ** FloorPayload, 4 bytes *)

Record FloorPayload : Type := mkFloorPayload { fp_ssrc : Z }.

Definition FloorPayload_SIZE : nat := 4.

Definition FloorPayload_encode (self : FloorPayload) (buf : list Z) : result Error (list Z) :=
  if decide (length buf < FloorPayload_SIZE)%nat then Err BufferTooSmall
  else Ok (blit 0 (be_bytes 4 (fp_ssrc self)) buf).

Definition FloorPayload_decode (buf : list Z) : result Error FloorPayload :=
  if decide (length buf < FloorPayload_SIZE)%nat then Err MalformedPayload
  else Ok (mkFloorPayload (rd32 buf 0)).

#[export] Instance FloorPayload_codec : WireCodec FloorPayload := {|
  wire_size := FloorPayload_SIZE;
  wire_wf m := u32 (fp_ssrc m);
  wire_encode := FloorPayload_encode;
  wire_decode := FloorPayload_decode;
|}.

#[export] Instance FloorPayload_laws : WireCodecLaws FloorPayload.
Proof.
  unfold FloorPayload_codec, FloorPayload_encode, FloorPayload_decode, FloorPayload_SIZE.
  codec_laws.
Qed.

(** ** Runs and the owner of the floor *)

Fixpoint fc_run (c : FloorController) (evs : list (FloorEvent * Z)) : FloorController :=
  match evs with
  | [] => c
  | (e, ssrc) :: evs => fc_run (FloorController_transition c e ssrc).1 evs
  end.

Fixpoint fc_accepted (c : FloorController) (evs : list (FloorEvent * Z)) :
    list (FloorEvent * Z) :=
  match evs with
  | [] => []
  | (e, ssrc) :: evs =>
      let '(c', r) := FloorController_transition c e ssrc in
      if is_ok r then (e, ssrc) :: fc_accepted c' evs else fc_accepted c' evs
  end.

(** Specification: the owner after a sequence of accepted events is the
    subject of the last [Grant] or [Taken] not followed by another accepted
    event. *)
Definition owner_step (o : option Z) (ev : FloorEvent * Z) : option Z :=
  match ev.1 with FeGrant | FeTaken => Some ev.2 | _ => None end.
Definition owner_after (o : option Z) (evs : list (FloorEvent * Z)) : option Z :=
  foldl owner_step o evs.

(** The floor as an abstract value: who may transmit. *)
Definition fc_owner (c : FloorController) : option Z :=
  if decide (fc_state c = FsGranted) then Some (fc_holder_ssrc c) else None.

(** Invariant: the holder field is cleared whenever the floor is free. *)
Definition fc_inv (c : FloorController) : Prop :=
  fc_state c = FsIdle ∨ fc_state c = FsReleased → fc_holder_ssrc c = 0.

Lemma fc_transition_inv c e ssrc : fc_inv c → fc_inv (FloorController_transition c e ssrc).1.
Proof.
  unfold FloorController_transition, fc_inv.
  destruct c as [s h m], s, e; simpl; intros Hc [?|?]; first [discriminate|auto].
Qed.

Lemma fc_run_inv evs c : fc_inv c → fc_inv (fc_run c evs).
Proof.
  revert c. induction evs as [|[e ssrc] evs IH]; simpl; auto using fc_transition_inv.
Qed.

Lemma fc_owner_step c e ssrc :
  is_ok (FloorController_transition c e ssrc).2 = true →
  fc_owner (FloorController_transition c e ssrc).1 = owner_step (fc_owner c) (e, ssrc).
Proof.
  unfold FloorController_transition. destruct c as [s h m], s, e; simpl; done.
Qed.

Lemma fc_owner_run evs c :
  fc_owner (fc_run c evs) = owner_after (fc_owner c) (fc_accepted c evs).
Proof.
  revert c. induction evs as [|[e ssrc] evs IH]; intros c; simpl; [done|].
  pose proof (fc_owner_step c e ssrc) as Hs.
  destruct (FloorController_transition c e ssrc) as [c' r] eqn:Ht; simpl in *.
  rewrite IH. destruct (is_ok r) eqn:Hr; simpl; [by rewrite Hs|].
  unfold FloorController_transition in Ht.
  destruct (floor_next _ _ _ _) as [[? ?]|]; naive_solver.
Qed.

(** C31: over every sequence of floor events, the controller lets exactly one
    participant transmit, or none: [is_holder ssrc] holds iff [ssrc] is the
    subject of the last accepted [Grant] or [Taken] and no accepted event has
    ended that grant; whenever the floor is available the recorded holder is
    0; and the transmission limit set at construction never changes. *)
Theorem floor_owner_spec max evs ssrc :
  let c := fc_run (FloorController_new max) evs in
  (FloorController_is_holder c ssrc = true ↔
     owner_after None (fc_accepted (FloorController_new max) evs) = Some ssrc)
  ∧ (FloorController_is_available c = true → fc_holder_ssrc c = 0)
  ∧ fc_max_transmit_ms c = max.
Proof.
  intros c. split; [|split].
  - pose proof (fc_owner_run evs (FloorController_new max)) as Ho.
    change (fc_owner (FloorController_new max)) with (@None Z) in Ho.
    rewrite <-Ho. fold c. unfold FloorController_is_holder, fc_owner.
    rewrite andb_true_iff, bool_decide_eq_true, Z.eqb_eq.
    case_decide; split; [by intros [_ ->]|by intros [= ->]|by intros []|done].
  - intros Ha. assert (fc_inv c) as Hc by (apply fc_run_inv; done).
    apply Hc. unfold FloorController_is_available in Ha.
    destruct (fc_state c); first [discriminate Ha|by auto].
  - unfold c. assert (∀ c0, fc_max_transmit_ms (fc_run c0 evs) = fc_max_transmit_ms c0) as H;
      [|by rewrite H].
    clear. induction evs as [|[e s] evs IH]; intros c0; simpl; [done|]. rewrite IH.
    unfold FloorController_transition. by destruct (floor_next _ _ _ _) as [[? ?]|].
Qed.

(** [Reset] succeeds from every state and always leaves the floor idle and
    without holder. *)
Lemma floor_reset c ssrc :
  fc_inv c →
  (FloorController_transition c FeReset ssrc).2 = Ok FsIdle
  ∧ fc_holder_ssrc (FloorController_transition c FeReset ssrc).1 = 0.
Proof. destruct c as [[] h m]; unfold fc_inv; simpl; naive_solver. Qed.
