(* ===== verification/Crypto.v ===== *)
(** * AEAD framing

    Models [gravital-talk-core/src/crypto.rs].  The cipher itself
    (ChaCha20-Poly1305, a third-party crate) is the class [Aead]; its
    documented behaviour is the class [AeadLaws].  The nonce construction and
    the in-place buffer handling around the cipher are the code's own. *)

From S2P Require Import Prelude.
From S2P Require Import CoreTypes.
From S2P Require Import Checksum.

Definition KEY_SIZE : nat := 32.
Definition TAG_SIZE : nat := 16.
Definition NONCE_SIZE : nat := 12.

(** [encrypt_in_place_detached key nonce aad plaintext] gives the ciphertext
    that replaces the plaintext and the detached tag;
    [decrypt_in_place_detached] gives the plaintext that replaces the
    ciphertext, or fails when the tag does not authenticate. *)
Class Aead : Type := {
  aead_encrypt : list Z → list Z → list Z → list Z → option (list Z * list Z);
  aead_decrypt : list Z → list Z → list Z → list Z → list Z → option (list Z);
}.

Class AeadLaws `{Aead} : Prop := {
  (** A message of at most 65,535 bytes is far below the cipher's limit. *)
  aead_encrypt_total k n aad m :
    Z.of_nat (length m) ≤ 65535 → is_Some (aead_encrypt k n aad m);
  aead_encrypt_length k n aad m c t :
    aead_encrypt k n aad m = Some (c, t) → length c = length m ∧ length t = TAG_SIZE;
  aead_encrypt_bytes k n aad m c t :
    bytes m → aead_encrypt k n aad m = Some (c, t) → bytes c ∧ bytes t;
  aead_decrypt_length k n aad c t m :
    aead_decrypt k n aad c t = Some m → length m = length c;
  aead_decrypt_bytes k n aad c t m :
    bytes c → aead_decrypt k n aad c t = Some m → bytes m;
  aead_correct k n aad m c t :
    aead_encrypt k n aad m = Some (c, t) → aead_decrypt k n aad c t = Some m;
}.

Definition make_nonce (sequence session_id : Z) : list Z :=
  let n := replicate NONCE_SIZE 0 in
  let n := blit 0 (be_bytes 4 sequence) n in
  blit 4 (be_bytes 4 session_id) n.

Section crypto.
Context `{Aead}.

(** The buffer after the call and the number of bytes written. *)
Definition encrypt_in_place (key nonce aad buffer : list Z) (plaintext_len : nat) :
    result Error (list Z * nat) :=
  if decide (length buffer < plaintext_len + TAG_SIZE)%nat then Err BufferTooSmall
  else match aead_encrypt key nonce aad (take plaintext_len buffer) with
       | None => Err DecryptionFailed
       | Some (ct, tag) =>
           let buffer := blit 0 ct buffer in
           let buffer := blit plaintext_len tag buffer in
           Ok (buffer, (plaintext_len + TAG_SIZE)%nat)
       end.

Definition decrypt_in_place (key nonce aad buffer : list Z) (ciphertext_len : nat) :
    result Error (list Z * nat) :=
  if decide (ciphertext_len < TAG_SIZE)%nat then Err TooShort
  else if decide (length buffer < ciphertext_len)%nat then Err BufferTooSmall
  else
    let plaintext_len := (ciphertext_len - TAG_SIZE)%nat in
    let tag := slice plaintext_len TAG_SIZE buffer in
    match aead_decrypt key nonce aad (take plaintext_len buffer) tag with
    | None => Err DecryptionFailed
    | Some pt => Ok (blit 0 pt buffer, plaintext_len)
    end.
End crypto.

(** ** The nonce *)

Lemma length_make_nonce s i : length (make_nonce s i) = NONCE_SIZE.
Proof.
  unfold make_nonce. by rewrite !length_blit by (rewrite ?length_blit, !length_be_bytes; simpl; lia).
Qed.

Lemma make_nonce_inj s1 i1 s2 i2 :
  u32 s1 → u32 i1 → u32 s2 → u32 i2 →
  make_nonce s1 i1 = make_nonce s2 i2 → s1 = s2 ∧ i1 = i2.
Proof.
  intros Hs1 Hi1 Hs2 Hi2 Heq.
  assert (∀ s i, slice 0 4 (make_nonce s i) = be_bytes 4 s ∧ slice 4 4 (make_nonce s i) = be_bytes 4 i)
    as Hsl.
  { intros s i. unfold make_nonce. split; [rewrite slice_blit_disj|];
      rewrite ?slice_blit_same; rewrite ?length_blit, ?length_be_bytes;
      rewrite ?length_be_bytes; simpl; try lia; done. }
  destruct (Hsl s1 i1) as [Ha1 Hb1], (Hsl s2 i2) as [Ha2 Hb2].
  rewrite Heq in Ha1, Hb1.
  split; apply (be_bytes_inj 4); ulia || congruence.
Qed.

(** ** Round trip *)

Section crypto_laws.
Context `{AeadLaws}.

Lemma encrypt_in_place_ok key nonce aad buffer n :
  (n + TAG_SIZE ≤ length buffer)%nat → Z.of_nat n ≤ 65535 →
  ∃ ct tag, aead_encrypt key nonce aad (take n buffer) = Some (ct, tag)
    ∧ length ct = n ∧ length tag = TAG_SIZE
    ∧ encrypt_in_place key nonce aad buffer n
      = Ok (ct ++ tag ++ drop (n + TAG_SIZE) buffer, (n + TAG_SIZE)%nat).
Proof.
  intros Hlen Hn.
  assert (length (take n buffer) = n) as Htk by (rewrite length_take; lia).
  destruct (aead_encrypt_total key nonce aad (take n buffer)) as [[ct tag] He]; [lia|].
  destruct (aead_encrypt_length _ _ _ _ _ _ He) as [Hc Ht].
  exists ct, tag. split_and!; [done|lia|done|].
  unfold encrypt_in_place. rewrite decide_False by lia. rewrite He.
  do 2 f_equal. unfold blit. rewrite Hc, Htk, Ht. simpl.
  rewrite take_app_le, drop_app_ge by lia.
  rewrite take_ge by lia. rewrite drop_drop. do 3 f_equal. lia.
Qed.

Lemma decrypt_in_place_ok key nonce aad ct tag rest pt :
  length tag = TAG_SIZE → aead_decrypt key nonce aad ct tag = Some pt →
  decrypt_in_place key nonce aad (ct ++ tag ++ rest) (length ct + TAG_SIZE)
  = Ok (pt ++ tag ++ rest, length ct).
Proof.
  intros Ht Hd. unfold decrypt_in_place.
  rewrite !decide_False by (rewrite ?length_app; lia).
  replace (length ct + TAG_SIZE - TAG_SIZE)%nat with (length ct) by lia.
  unfold slice. rewrite take_app_length, drop_app_length, take_app_le, take_ge by lia.
  rewrite Hd. do 2 f_equal. unfold blit. simpl.
  by rewrite (aead_decrypt_length _ _ _ _ _ _ Hd), drop_app_length.
Qed.

(** What decryption accepts is exactly what the cipher authenticates under
    the given key, nonce and associated data. *)
Lemma decrypt_in_place_inv key nonce aad buffer n buf' m :
  decrypt_in_place key nonce aad buffer n = Ok (buf', m) →
  (TAG_SIZE ≤ n ≤ length buffer)%nat ∧ m = (n - TAG_SIZE)%nat
  ∧ aead_decrypt key nonce aad (take m buffer) (slice m TAG_SIZE buffer) = Some (take m buf')
  ∧ drop m buf' = drop m buffer.
Proof.
  unfold decrypt_in_place. repeat case_decide; [done..|].
  destruct (aead_decrypt _ _ _ _ _) as [pt|] eqn:Hd; [|done]. intros [= <- <-].
  apply aead_decrypt_length in Hd as Hl. rewrite length_take in Hl.
  unfold blit. simpl. rewrite take_app_le, (take_ge pt), drop_app_ge by lia.
  rewrite Hl, drop_drop, Hd. split_and!; [lia..|done|]. f_equal. lia.
Qed.
End crypto_laws.

(** Encrypting the first [n] bytes of any buffer with room for the tag
    succeeds, keeps the buffer's length and everything behind the tag, and
    decrypting the result with the same key, nonce and associated data
    restores the plaintext; a buffer without room is refused before the
    cipher runs, and a ciphertext shorter than a tag is refused by
    decryption. *)
Theorem aead_framing_roundtrip `{AeadLaws} key nonce aad buffer n :
  Z.of_nat n ≤ 65535 →
  ((length buffer < n + TAG_SIZE)%nat →
     encrypt_in_place key nonce aad buffer n = Err BufferTooSmall)
  ∧ ((n < TAG_SIZE)%nat → decrypt_in_place key nonce aad buffer n = Err TooShort)
  ∧ ((n + TAG_SIZE ≤ length buffer)%nat →
     ∃ buf' buf'',
       encrypt_in_place key nonce aad buffer n = Ok (buf', (n + TAG_SIZE)%nat)
       ∧ length buf' = length buffer
       ∧ drop (n + TAG_SIZE) buf' = drop (n + TAG_SIZE) buffer
       ∧ decrypt_in_place key nonce aad buf' (n + TAG_SIZE) = Ok (buf'', n)
       ∧ take n buf'' = take n buffer).
Proof.
  intros Hn. split_and!.
  - intros ?. unfold encrypt_in_place. by rewrite decide_True.
  - intros ?. unfold decrypt_in_place. by rewrite decide_True.
  - intros Hlen.
    destruct (encrypt_in_place_ok key nonce aad buffer n) as (ct & tag & He & Hc & Ht & ->);
      [done..|].
    apply aead_correct in He.
    eexists _, _. split_and!; [done|..].
    + rewrite !length_app, length_drop. lia.
    + by rewrite (app_assoc ct), drop_app_ge, length_app, Hc, Ht, Nat.sub_diag
        by (rewrite length_app; lia).
    + rewrite <-Hc at 2. by rewrite (decrypt_in_place_ok _ _ _ _ _ _ _ Ht He), Hc.
    + assert (length (take n buffer) = n) as Hl by (rewrite length_take; lia).
      rewrite take_app_le, take_ge by lia. done.
Qed.

(** Two packets of one session are encrypted under the same nonce only if
    they carry the same sequence number, and packets of two sessions never
    share a nonce: the nonce determines both 32-bit inputs. *)
Theorem nonce_unique s1 i1 s2 i2 :
  u32 s1 → u32 i1 → u32 s2 → u32 i2 →
  (make_nonce s1 i1 = make_nonce s2 i2 ↔ s1 = s2 ∧ i1 = i2)
  ∧ length (make_nonce s1 i1) = NONCE_SIZE ∧ bytes (make_nonce s1 i1).
Proof.
  intros. split_and!; [split; [by apply make_nonce_inj|by intros [-> ->]]|..].
  - apply length_make_nonce.
  - unfold make_nonce. repeat apply bytes_blit; auto using bytes_be_bytes, bytes_replicate_0.
Qed.

(** ** A concrete cipher for the witnesses

    It does not hide the plaintext; its tag is a checksum of all the inputs,
    so that a wrong key, nonce or header is rejected. *)

Definition toy_tag (k n aad m : list Z) : list Z :=
  be_bytes 2 (crc16_ccitt_false (k ++ n ++ aad ++ m)) ++ replicate 14 0.

#[export] Instance toy_aead : Aead := {|
  aead_encrypt k n aad m :=
    if decide (Z.of_nat (length m) ≤ 65535) then Some (m, toy_tag k n aad m) else None;
  aead_decrypt k n aad c t := if decide (t = toy_tag k n aad c) then Some c else None;
|}.

#[export] Instance toy_aead_laws : AeadLaws.
Proof.
  split; cbn; intros; repeat case_decide; simplify_eq; try done.
  split; [done|]. apply bytes_app. split; auto using bytes_be_bytes, bytes_replicate_0.
Qed.

Lemma aead_framing_roundtrip_witness :
  let buf := replicate 40 7 in
  Z.of_nat 20 ≤ 65535
  ∧ ∃ buf' buf'', encrypt_in_place (replicate 32 1) (make_nonce 1 2) [3] buf 20 = Ok (buf', 36%nat)
     ∧ decrypt_in_place (replicate 32 1) (make_nonce 1 2) [3] buf' 36 = Ok (buf'', 20%nat)
     ∧ take 20 buf'' = take 20 buf.
Proof.
  split; [lia|].
  destruct (aead_framing_roundtrip (replicate 32 1) (make_nonce 1 2) [3] (replicate 40 7) 20)
    as (_ & _ & Hok); [lia|].
  destruct Hok as (b1 & b2 & ? & _ & _ & ? & ?); [unfold TAG_SIZE; simpl; lia|]. by exists b1, b2.
Defined.

Lemma nonce_unique_witness :
  bool_decide (make_nonce 1 7 = make_nonce 2 7) = false ∧ length (make_nonce 1 7) = NONCE_SIZE.
Proof.
  destruct (nonce_unique 1 7 2 7) as [Hiff [Hlen _]]; [ulia..|].
  split; [|exact Hlen]. apply bool_decide_eq_false. rewrite Hiff. lia.
Defined.
