(* ===== verification/Identity.v ===== *)
(** * Ed25519 identities

    Models [gravital-talk-core/src/identity.rs]: the two payloads of the
    challenge-response authentication and the identity types in both builds,
    with the [identity] feature (over the [Ed25519] class, which stands for
    the third-party signature crate) and without it (the stub). *)

From S2P Require Import Prelude.
From S2P Require Import CoreTypes.
From S2P Require Import Checksum.
From S2P Require Import Message.

Record AuthChallengePayload : Type := mkAuthChallengePayload { acp_nonce : list Z }.

Definition AuthChallengePayload_SIZE : nat := 32.

Definition AuthChallengePayload_encode (self : AuthChallengePayload) (buf : list Z) :
    result Error (list Z) :=
  if decide (length buf < AuthChallengePayload_SIZE)%nat then Err BufferTooSmall
  else Ok (blit 0 (acp_nonce self) buf).

Definition AuthChallengePayload_decode (buf : list Z) : result Error AuthChallengePayload :=
  if decide (length buf < AuthChallengePayload_SIZE)%nat then Err MalformedPayload
  else Ok (mkAuthChallengePayload (slice 0 32 buf)).

Record AuthResponsePayload : Type := mkAuthResponsePayload {
  arp_public_key : list Z;
  arp_signature : list Z;
}.

Definition AuthResponsePayload_SIZE : nat := 96.

Definition AuthResponsePayload_encode (self : AuthResponsePayload) (buf : list Z) :
    result Error (list Z) :=
  if decide (length buf < AuthResponsePayload_SIZE)%nat then Err BufferTooSmall
  else
    let buf := blit 0 (arp_public_key self) buf in
    let buf := blit 32 (arp_signature self) buf in
    Ok buf.

Definition AuthResponsePayload_decode (buf : list Z) : result Error AuthResponsePayload :=
  if decide (length buf < AuthResponsePayload_SIZE)%nat then Err MalformedPayload
  else
    let public_key := slice 0 32 buf in
    let signature := slice 32 64 buf in
    Ok (mkAuthResponsePayload public_key signature).

#[export] Instance AuthChallengePayload_codec : WireCodec AuthChallengePayload := {|
  wire_size := AuthChallengePayload_SIZE;
  wire_wf m := byte_array 32 (acp_nonce m);
  wire_encode := AuthChallengePayload_encode;
  wire_decode := AuthChallengePayload_decode;
|}.

#[export] Instance AuthChallengePayload_laws : WireCodecLaws AuthChallengePayload.
Proof.
  unfold AuthChallengePayload_codec, AuthChallengePayload_encode, AuthChallengePayload_decode,
    AuthChallengePayload_SIZE.
  codec_laws.
Qed.

#[export] Instance AuthResponsePayload_codec : WireCodec AuthResponsePayload := {|
  wire_size := AuthResponsePayload_SIZE;
  wire_wf m := byte_array 32 (arp_public_key m) ∧ byte_array 64 (arp_signature m);
  wire_encode := AuthResponsePayload_encode;
  wire_decode := AuthResponsePayload_decode;
|}.

#[export] Instance AuthResponsePayload_laws : WireCodecLaws AuthResponsePayload.
Proof.
  unfold AuthResponsePayload_codec, AuthResponsePayload_encode, AuthResponsePayload_decode,
    AuthResponsePayload_SIZE.
  codec_laws.
Qed.

(** ** Identities with the [identity] feature *)

Class Ed25519 : Type := {
  SigningKey : Type;
  VerifyingKey : Type;
  Signature : Type;
  sk_from_bytes : list Z → SigningKey;
  sk_to_bytes : SigningKey → list Z;
  sk_verifying_key : SigningKey → VerifyingKey;
  sk_sign : SigningKey → list Z → Signature;
  vk_to_bytes : VerifyingKey → list Z;
  vk_from_bytes : list Z → option VerifyingKey;
  vk_verify : VerifyingKey → list Z → Signature → bool;
  sig_to_bytes : Signature → list Z;
  sig_from_bytes : list Z → option Signature;
}.

Class Ed25519Laws `{Ed25519} : Prop := {
  vk_bytes_roundtrip sk :
    vk_from_bytes (vk_to_bytes (sk_verifying_key sk)) = Some (sk_verifying_key sk);
  vk_bytes_wf sk : byte_array 32 (vk_to_bytes (sk_verifying_key sk));
  sig_bytes_roundtrip sk m : sig_from_bytes (sig_to_bytes (sk_sign sk m)) = Some (sk_sign sk m);
  sig_bytes_wf sk m : byte_array 64 (sig_to_bytes (sk_sign sk m));
  sign_verify sk m : vk_verify (sk_verifying_key sk) m (sk_sign sk m) = true;
}.

Record IdentityPublic : Type := mkIdentityPublic { ip_bytes : list Z }.

Section with_feature.
Context `{Ed25519}.

Definition IdentityPublic_verify (self : IdentityPublic) (message signature_bytes : list Z) :
    bool :=
  match vk_from_bytes (ip_bytes self) with
  | None => false
  | Some vk =>
      match sig_from_bytes signature_bytes with
      | None => false
      | Some sig => vk_verify vk message sig
      end
  end.

Record Identity : Type := mkIdentity { signing_key : SigningKey }.

(** [rng_key] is the key drawn from the operating system's generator. *)
Definition Identity_generate (rng_key : SigningKey) : Identity := mkIdentity rng_key.
Definition Identity_from_bytes (secret_bytes : list Z) : Identity :=
  mkIdentity (sk_from_bytes secret_bytes).
Definition Identity_to_bytes (self : Identity) : list Z := sk_to_bytes (signing_key self).
Definition Identity_public (self : Identity) : IdentityPublic :=
  mkIdentityPublic (vk_to_bytes (sk_verifying_key (signing_key self))).
Definition Identity_sign (self : Identity) (message : list Z) : list Z :=
  sig_to_bytes (sk_sign (signing_key self) message).
Definition Identity_respond_to_challenge (self : Identity) (nonce : list Z) :
    AuthResponsePayload :=
  mkAuthResponsePayload (ip_bytes (Identity_public self)) (Identity_sign self nonce).
End with_feature.

(** ** The stub, without the feature *)

Definition IdentityPublic_verify_stub (self : IdentityPublic)
    (message signature_bytes : list Z) : bool := false.

Record IdentityStub : Type := mkIdentityStub { secret_bytes : list Z }.

Definition IdentityStub_generate : IdentityStub := mkIdentityStub (replicate 32 0).
Definition IdentityStub_from_bytes (secret_bytes : list Z) : IdentityStub :=
  mkIdentityStub secret_bytes.
Definition IdentityStub_to_bytes (self : IdentityStub) : list Z := secret_bytes self.
Definition IdentityStub_public (self : IdentityStub) : IdentityPublic :=
  mkIdentityPublic (replicate 32 0).
Definition IdentityStub_sign (self : IdentityStub) (message : list Z) : list Z :=
  replicate 64 0.
Definition IdentityStub_respond_to_challenge (self : IdentityStub) (nonce : list Z) :
    AuthResponsePayload :=
  mkAuthResponsePayload (replicate 32 0) (replicate 64 0).

(** ** The exchange over the wire *)

(** What the verifier does with the bytes of the two messages. *)
Definition auth_exchange `{Ed25519} (self : Identity) (nonce : list Z) : result Error bool :=
  challenge ← wire_image (mkAuthChallengePayload nonce);
  c ← AuthChallengePayload_decode challenge;
  response ← wire_image (Identity_respond_to_challenge self (acp_nonce c));
  r ← AuthResponsePayload_decode response;
  Ok (IdentityPublic_verify (mkIdentityPublic (arp_public_key r)) nonce (arp_signature r)).

(** The challenge-response authentication is complete: the response that
    an identity computes from a decoded challenge, sent through both wire
    payloads, verifies against the public key it carries, which is the
    identity's own; the build without the feature accepts no response. *)
Theorem challenge_response_complete `{Ed25519Laws} self nonce :
  byte_array 32 nonce →
  auth_exchange self nonce = Ok true
  ∧ arp_public_key (Identity_respond_to_challenge self nonce) = ip_bytes (Identity_public self)
  ∧ (∀ stub pk,
       IdentityPublic_verify_stub pk nonce
         (arp_signature (IdentityStub_respond_to_challenge stub nonce)) = false).
Proof.
  intros Hn. split_and!; [|done..]. unfold auth_exchange.
  destruct (wire_image_ok (mkAuthChallengePayload nonce)) as (p & -> & _ & _ & Hd); [done|].
  cbn [mbind result_bind].
  change AuthChallengePayload_decode with (wire_decode (A := AuthChallengePayload)).
  rewrite Hd. cbn [mbind result_bind acp_nonce].
  destruct (wire_image_ok (Identity_respond_to_challenge self nonce)) as (q & -> & _ & _ & Hr).
  { split; [apply vk_bytes_wf|apply sig_bytes_wf]. }
  simpl. change AuthResponsePayload_decode with (wire_decode (A := AuthResponsePayload)).
  rewrite Hr. simpl. unfold IdentityPublic_verify, Identity_sign. simpl.
  by rewrite vk_bytes_roundtrip, sig_bytes_roundtrip, sign_verify.
Qed.

(** A concrete scheme for the witness: two keys, and signatures that repeat
    the key and a checksum of the message. *)
Definition toy_key_byte (k : bool) : Z := if k then 1 else 0.
Definition toy_sign (k : bool) (m : list Z) : list Z :=
  replicate 62 (toy_key_byte k) ++ be_bytes 2 (crc16_ccitt_false m).

#[export] Instance toy_ed25519 : Ed25519 := {|
  SigningKey := bool;
  VerifyingKey := bool;
  Signature := list Z;
  sk_from_bytes l := bool_decide (l !! 0%nat = Some 1);
  sk_to_bytes k := replicate 32 (toy_key_byte k);
  sk_verifying_key k := k;
  sk_sign := toy_sign;
  vk_to_bytes k := replicate 32 (toy_key_byte k);
  vk_from_bytes l := Some (bool_decide (l !! 0%nat = Some 1));
  vk_verify k m s := bool_decide (s = toy_sign k m);
  sig_to_bytes s := s;
  sig_from_bytes l := Some l;
|}.

Lemma toy_key_bytes n k : bytes (replicate n (toy_key_byte k)).
Proof. apply Forall_replicate. destruct k; simpl; ulia. Qed.

Lemma toy_sign_wf k m : byte_array 64 (toy_sign k m).
Proof.
  split; [done|]. apply bytes_app. split; [apply toy_key_bytes|apply bytes_be_bytes].
Qed.

#[export] Instance toy_ed25519_laws : Ed25519Laws.
Proof.
  split; cbn -[toy_sign]; intros; try done.
  - by destruct sk.
  - split; [done|apply (toy_key_bytes 32)].
  - apply toy_sign_wf.
  - by apply bool_decide_eq_true.
Qed.

Lemma challenge_response_complete_witness :
  byte_array 32 (replicate 32 9)
  ∧ auth_exchange (mkIdentity (H := toy_ed25519) true) (replicate 32 9) = Ok true.
Proof.
  assert (byte_array 32 (replicate 32 9)) as Hn by (by apply (bool_decide_unpack _)).
  split; [done|]. by destruct (challenge_response_complete (mkIdentity (H := toy_ed25519) true) _ Hn) as [? _].
Defined.
