(* ===== verification/Fec.v ===== *)
(** * XOR forward error correction

    Models [gravital-talk-transport/src/fec.rs]: the encoder that emits one
    parity packet per window of frames and the decoder that rebuilds a single
    lost frame of a group. *)

From S2P Require Import Prelude.
From S2P Require Import CoreTypes.

(** [xor_into(accumulator, data)]: byte-wise, up to the shorter length. *)
Fixpoint xor_into (accumulator data : list Z) : list Z :=
  match accumulator, data with
  | a :: accumulator, d :: data => Z.lxor a d :: xor_into accumulator data
  | _, _ => accumulator
  end.

Record FecParity : Type := mkFecParity {
  par_seq_base : Z;
  par_window : Z;
  par_payload : list Z;
}.

(** ** Encoder *)

Record FecEncoder : Type := mkFecEncoder {
  fe_window : Z;
  fe_parity_buf : list Z;
  fe_count : Z;
  fe_seq_base : Z;
}.

Definition FecEncoder_new (window : Z) : FecEncoder := mkFecEncoder (Z.max window 2) [] 0 0.
Definition FecEncoder_with_default_window : FecEncoder := FecEncoder_new FEC_WINDOW.

(** [Vec::resize(n, 0)], used only to grow. *)
Definition resize0 (n : nat) (l : list Z) : list Z := l ++ replicate (n - length l) 0.

Definition FecEncoder_push (self : FecEncoder) (sequence : Z) (payload : list Z) :
    FecEncoder * option FecParity :=
  let '(seq_base, parity_buf) :=
    if fe_count self =? 0 then (sequence, replicate (length payload) 0)
    else (fe_seq_base self, fe_parity_buf self) in
  let parity_buf :=
    if decide (length parity_buf < length payload)%nat
    then resize0 (length payload) parity_buf else parity_buf in
  let parity_buf := xor_into parity_buf payload in
  let count := fe_count self + 1 in
  if fe_window self <=? count then
    (mkFecEncoder (fe_window self) [] 0 seq_base,
     Some (mkFecParity seq_base (fe_window self) parity_buf))
  else (mkFecEncoder (fe_window self) parity_buf count seq_base, None).

(** ** Decoder *)

Record FecDecoder : Type := mkFecDecoder {
  fd_window : Z;
  fd_seq_base : Z;
  fd_received : list (option (list Z));
  fd_parity : option (list Z);
  fd_active : bool;
}.

Definition FecDecoder_new (window : Z) : FecDecoder :=
  mkFecDecoder (Z.max window 2) 0 [] None false.
Definition FecDecoder_with_default_window : FecDecoder := FecDecoder_new FEC_WINDOW.

Definition FecDecoder_start_group (self : FecDecoder) (seq_base : Z) : FecDecoder :=
  mkFecDecoder (fd_window self) seq_base (replicate (Z.to_nat (fd_window self)) None) None true.

(** [self.received[offset] = Some(payload)] panics out of range. *)
Definition FecDecoder_push_data (self : FecDecoder) (sequence : Z) (payload : list Z) :
    checked (FecDecoder * bool) :=
  let window := fd_window self in
  let group_base := sequence - sequence mod window in
  let self :=
    if negb (fd_active self) || negb (fd_seq_base self =? group_base)
    then FecDecoder_start_group self group_base else self in
  let offset := sequence - fd_seq_base self in
  if offset <? fd_window self then
    if decide (Z.to_nat offset < length (fd_received self))%nat then
      Val (mkFecDecoder (fd_window self) (fd_seq_base self)
             (<[Z.to_nat offset := Some payload]> (fd_received self))
             (fd_parity self) (fd_active self), true)
    else Panic
  else Val (self, false).

(** The indices of the [None] entries: [.iter().enumerate().filter(..).map(..)]. *)
Definition fec_missing (received : list (option (list Z))) : list nat :=
  filter (λ i, received !! i = Some None) (seq 0 (length received)).

(** The loop over [received.iter().enumerate()] that skips [lost_idx]. *)
Definition fec_xor_frames (lost_idx : nat) (recovered : list Z)
    (received : list (option (list Z))) : list Z :=
  foldl (λ recovered '(i, frame),
           if decide (i = lost_idx) then recovered
           else match frame with
                | Some data => xor_into recovered data
                | None => recovered
                end) recovered (imap pair received).

Definition FecDecoder_try_recover (self : FecDecoder) : option (Z * list Z) :=
  parity ← fd_parity self;
  let missing := fec_missing (fd_received self) in
  if decide (length missing ≠ 1)%nat then None
  else
    let lost_idx := missing !!! 0%nat in
    let recovered := fec_xor_frames lost_idx parity (fd_received self) in
    let seq := wrap32 (fd_seq_base self + Z.of_nat lost_idx) in
    Some (seq, recovered).

Definition FecDecoder_push_parity (self : FecDecoder) (parity : FecParity) :
    FecDecoder * option (Z * list Z) :=
  let self :=
    if negb (fd_active self) || negb (fd_seq_base self =? par_seq_base parity)
    then FecDecoder_start_group self (par_seq_base parity) else self in
  let self := mkFecDecoder (fd_window self) (fd_seq_base self) (fd_received self)
                (Some (par_payload parity)) (fd_active self) in
  (self, FecDecoder_try_recover self).

Definition FecDecoder_reset (self : FecDecoder) : FecDecoder :=
  mkFecDecoder (fd_window self) (fd_seq_base self) [] None false.

(** ** XOR of frames *)

(** Column [i] of the XOR of a list of frames; a byte past the end of a frame
    counts as 0. *)
Definition byte_at (l : list Z) (i : nat) : Z := default 0 (l !! i).
Definition xor_col (ps : list (list Z)) (i : nat) : Z :=
  foldr (λ p x, Z.lxor (byte_at p i) x) 0 ps.

Definition max_len (ps : list (list Z)) : nat := foldr (λ p n, length p `max` n)%nat 0%nat ps.

Lemma byte_at_ge l i : (length l ≤ i)%nat → byte_at l i = 0.
Proof. intros. unfold byte_at. by rewrite lookup_ge_None_2. Qed.

Lemma byte_at_app l k i :
  byte_at (l ++ k) i
  = if decide (i < length l)%nat then byte_at l i else byte_at k (i - length l).
Proof.
  unfold byte_at. case_decide; [by rewrite lookup_app_l|by rewrite lookup_app_r by lia].
Qed.

Lemma byte_at_replicate n i : byte_at (replicate n 0) i = 0.
Proof.
  unfold byte_at. destruct (replicate n 0 !! i) as [x|] eqn:Hx; [|done].
  by apply lookup_replicate in Hx as [-> _].
Qed.

Lemma list_eq_byte_at (l k : list Z) :
  length l = length k → (∀ i, (i < length l)%nat → byte_at l i = byte_at k i) → l = k.
Proof.
  intros Hl Hi. apply list_eq_same_length with (n := length l); [done..|].
  intros i x y Hlt Hx Hy. specialize (Hi i Hlt). unfold byte_at in Hi.
  by rewrite Hx, Hy in Hi.
Qed.

Lemma length_xor_into acc d : length (xor_into acc d) = length acc.
Proof. revert d. induction acc as [|a acc IH]; intros [|b d]; simpl; auto. Qed.

Lemma lookup_xor_into acc d i :
  (i < length acc)%nat → byte_at (xor_into acc d) i = Z.lxor (byte_at acc i) (byte_at d i).
Proof.
  revert d i. induction acc as [|a acc IH]; intros [|b d] i Hi; simpl in *; [lia..| |].
  - rewrite (byte_at_ge []) by (simpl; lia). by rewrite Z.lxor_0_r.
  - destruct i as [|i]; [done|]. apply (IH d i). lia.
Qed.

Lemma byte_at_resize0 n l i : byte_at (resize0 n l) i = byte_at l i.
Proof.
  unfold resize0. rewrite byte_at_app. case_decide; [done|].
  rewrite byte_at_replicate, byte_at_ge by lia. done.
Qed.

Lemma length_resize0 n l : length (resize0 n l) = (n `max` length l)%nat.
Proof. unfold resize0. rewrite length_app, length_replicate. lia. Qed.

(** The parity accumulated over a group. *)
Definition parity_step (acc p : list Z) : list Z := xor_into (resize0 (length p) acc) p.
Definition parity_of (ps : list (list Z)) : list Z := foldl parity_step [] ps.

Lemma parity_of_snoc ps p : parity_of (ps ++ [p]) = parity_step (parity_of ps) p.
Proof. unfold parity_of. by rewrite foldl_app. Qed.

Lemma max_len_snoc ps p : max_len (ps ++ [p]) = (max_len ps `max` length p)%nat.
Proof. induction ps as [|q ps IH]; simpl; [lia|]. rewrite IH. lia. Qed.

Lemma max_len_lookup ps j p : ps !! j = Some p → (length p ≤ max_len ps)%nat.
Proof.
  revert j. induction ps as [|q ps IH]; intros [|j] Hj; simpl in *; simplify_eq; [lia|].
  specialize (IH _ Hj). lia.
Qed.

Lemma xor_col_snoc ps p i : xor_col (ps ++ [p]) i = Z.lxor (xor_col ps i) (byte_at p i).
Proof.
  induction ps as [|q ps IH]; simpl; [apply Z.lxor_0_r|]. by rewrite IH, Z.lxor_assoc.
Qed.

Lemma length_parity_of ps : length (parity_of ps) = max_len ps.
Proof.
  induction ps as [|p ps IH] using rev_ind; [done|].
  rewrite parity_of_snoc, max_len_snoc. unfold parity_step.
  rewrite length_xor_into, length_resize0, IH. lia.
Qed.

Lemma xor_col_ge ps i : (max_len ps ≤ i)%nat → xor_col ps i = 0.
Proof.
  induction ps as [|p ps IH]; simpl; [done|]. intros Hi.
  rewrite byte_at_ge, IH by lia. done.
Qed.

Lemma lookup_parity_of ps i : byte_at (parity_of ps) i = xor_col ps i.
Proof.
  destruct (decide (i < max_len ps)%nat) as [Hi|Hi];
    [|rewrite xor_col_ge, byte_at_ge by (rewrite ?length_parity_of; lia); done].
  induction ps as [|p ps IH] using rev_ind; [simpl in Hi; lia|].
  rewrite max_len_snoc in Hi. rewrite parity_of_snoc, xor_col_snoc. unfold parity_step.
  rewrite lookup_xor_into, byte_at_resize0
    by (rewrite length_resize0, length_parity_of; lia).
  f_equal. destruct (decide (i < max_len ps)%nat); [by apply IH|].
  rewrite xor_col_ge, byte_at_ge by (rewrite ?length_parity_of; lia). done.
Qed.

(** XOR of the frames present in the decoder's table. *)
Definition xor_present (rs : list (option (list Z))) (i : nat) : Z :=
  foldr (λ f x, match f with Some p => Z.lxor (byte_at p i) x | None => x end) 0 rs.

Lemma xor_present_all ps i : xor_present (Some <$> ps) i = xor_col ps i.
Proof.
  induction ps as [|p ps IH]; [done|]. unfold xor_present, xor_col in *. simpl. by f_equal.
Qed.

Lemma lxor_cancel q a b : Z.lxor (Z.lxor q a) (Z.lxor q b) = Z.lxor a b.
Proof.
  apply Z.bits_inj'. intros n _. rewrite !Z.lxor_spec.
  by destruct (Z.testbit q n), (Z.testbit a n), (Z.testbit b n).
Qed.

Lemma xor_present_hole ps j p i :
  ps !! j = Some p →
  Z.lxor (xor_col ps i) (xor_present (<[j := None]> (Some <$> ps)) i) = byte_at p i.
Proof.
  revert j. induction ps as [|q ps IH]; intros [|j] Hj; try done.
  - injection Hj as ->. change (<[0%nat := None]> _) with (None :: (Some <$> ps)).
    change (xor_present (None :: ?rs) i) with (xor_present rs i).
    change (xor_col (p :: ps) i) with (Z.lxor (byte_at p i) (xor_col ps i)).
    rewrite xor_present_all, Z.lxor_assoc, Z.lxor_nilpotent. apply Z.lxor_0_r.
  - rewrite <-(IH _ Hj). unfold xor_present, xor_col. simpl. apply lxor_cancel.
Qed.

Lemma fec_xor_frames_spec rs lost rec :
  rs !! lost = Some None →
  length (fec_xor_frames lost rec rs) = length rec
  ∧ ∀ i, (i < length rec)%nat →
      byte_at (fec_xor_frames lost rec rs) i = Z.lxor (byte_at rec i) (xor_present rs i).
Proof.
  intros Hlost. unfold fec_xor_frames.
  assert (∀ k, (∀ f, rs !! (lost - k)%nat = Some f → (k ≤ lost)%nat → f = None) →
    length (foldl (λ r '(i, frame), if decide (i = lost) then r
              else match frame with Some data => xor_into r data | None => r end) rec
            (imap (λ i f, (k + i, f)%nat) rs)) = length rec
    ∧ ∀ i, (i < length rec)%nat →
      byte_at (foldl (λ r '(i, frame), if decide (i = lost) then r
              else match frame with Some data => xor_into r data | None => r end) rec
            (imap (λ i f, (k + i, f)%nat) rs)) i
      = Z.lxor (byte_at rec i) (xor_present rs i)) as Hgen.
  2:{ apply (Hgen 0%nat). intros f Hf _. rewrite Nat.sub_0_r in Hf. congruence. }
  clear Hlost. revert rec. induction rs as [|f rs IH]; intros rec k Hk; simpl.
  { split; [done|]. intros. by rewrite Z.lxor_0_r. }
  rewrite Nat.add_0_r.
  rewrite (imap_ext _ (λ i f, (S k + i, f)%nat)) by (intros; simpl; f_equal; lia).
  assert (∀ g, rs !! (lost - S k)%nat = Some g → (S k ≤ lost)%nat → g = None) as Hk'.
  { intros g Hg Hle. apply Hk; [|lia]. by replace (lost - k)%nat with (S (lost - S k)) by lia. }
  case_decide as Heq.
  - subst k. rewrite (Hk f) by (rewrite ?Nat.sub_diag; done). by apply IH.
  - destruct f as [data|]; [|by apply IH].
    destruct (IH (xor_into rec data) (S k) Hk') as [Hl Hi]. rewrite length_xor_into in Hl, Hi.
    split; [done|]. intros i Hlt. rewrite Hi, lookup_xor_into by done.
    by rewrite Z.lxor_assoc.
Qed.

(** ** Groups *)

Fixpoint fec_push_all (e : FecEncoder) (sequence : Z) (ps : list (list Z)) :
    FecEncoder * list (option FecParity) :=
  match ps with
  | [] => (e, [])
  | p :: ps =>
      let '(e, o) := FecEncoder_push e sequence p in
      let '(e, os) := fec_push_all e (sequence + 1) ps in (e, o :: os)
  end.

(** The frames of the group at [base] that arrive, by index, in the order of
    arrival. *)
Fixpoint fec_deliver (d : FecDecoder) (base : Z) (ps : list (list Z)) (order : list nat) :
    checked FecDecoder :=
  match order with
  | [] => Val d
  | i :: order =>
      r ← FecDecoder_push_data d (base + Z.of_nat i) (default [] (ps !! i));
      fec_deliver r.1 base ps order
  end.

Lemma parity_step_first acc p :
  length acc = length p → (∀ i, byte_at acc i = 0) →
  xor_into acc p = parity_step [] p.
Proof.
  intros Hl Hz. apply list_eq_byte_at.
  - unfold parity_step. rewrite !length_xor_into, length_resize0. simpl. lia.
  - intros i Hi. unfold parity_step. rewrite length_xor_into in Hi.
    rewrite !lookup_xor_into, byte_at_resize0, Hz; [done|rewrite length_resize0; simpl; lia|done].
Qed.

Lemma FecEncoder_push_eq e sequence p :
  FecEncoder_push e sequence p =
  let base := if fe_count e =? 0 then sequence else fe_seq_base e in
  let buf := parity_step (if fe_count e =? 0 then [] else fe_parity_buf e) p in
  if fe_window e <=? fe_count e + 1
  then (mkFecEncoder (fe_window e) [] 0 base, Some (mkFecParity base (fe_window e) buf))
  else (mkFecEncoder (fe_window e) buf (fe_count e + 1) base, None).
Proof.
  unfold FecEncoder_push. destruct (fe_count e =? 0); simpl.
  - rewrite decide_False by (rewrite length_replicate; lia).
    rewrite (parity_step_first (replicate _ _)); [done|apply length_replicate|].
    intros. apply byte_at_replicate.
  - case_decide; [done|]. assert (resize0 (length p) (fe_parity_buf e) = fe_parity_buf e) as Hr.
    { unfold resize0. replace (_ - _)%nat with 0%nat by lia. apply app_nil_r. }
    unfold parity_step. by rewrite Hr.
Qed.

(** Pushing the rest of a group of which [done] has been pushed already. *)
Lemma fec_push_rest ps e base done_ :
  ps ≠ [] → (done_ = [] → fe_count e = 0) →
  fe_count e = Z.of_nat (length done_) →
  (done_ ≠ [] → fe_seq_base e = base ∧ fe_parity_buf e = parity_of done_) →
  fe_window e = Z.of_nat (length done_ + length ps) →
  fec_push_all e (base + Z.of_nat (length done_)) ps =
  (mkFecEncoder (fe_window e) [] 0 base,
   replicate (length ps - 1) None
     ++ [Some (mkFecParity base (fe_window e) (parity_of (done_ ++ ps)))]).
Proof.
  revert e done_. induction ps as [|p ps IH]; intros e done_ Hne H0 Hc Hs Hw; [done|].
  cbn [fec_push_all]. rewrite FecEncoder_push_eq. cbv zeta.
  assert ((if fe_count e =? 0 then base + Z.of_nat (length done_) else fe_seq_base e) = base
    ∧ parity_step (if fe_count e =? 0 then [] else fe_parity_buf e) p
      = parity_of (done_ ++ [p])) as [-> ->].
  { rewrite parity_of_snoc. destruct done_ as [|q done_].
    - rewrite H0 by done. simpl. split; [lia|done].
    - destruct (fe_count e =? 0) eqn:E; [apply Z.eqb_eq in E; simpl in Hc; lia|].
      destruct Hs as [-> ->]; done. }
  simpl in Hw. destruct ps as [|q ps].
  - destruct (Z.leb_spec (fe_window e) (fe_count e + 1)); [done|simpl in Hw; lia].
  - destruct (Z.leb_spec (fe_window e) (fe_count e + 1)); [simpl in Hw; lia|].
    set (e' := mkFecEncoder _ _ _ _).
    specialize (IH e' (done_ ++ [p])). rewrite length_app in IH.
    replace (base + Z.of_nat (length done_) + 1)
      with (base + Z.of_nat (length done_ + length [p])) by (simpl; lia).
    rewrite IH; clear IH; simpl; [|done|..].
    + by rewrite Nat.sub_0_r, <-app_assoc.
    + by destruct done_.
    + lia.
    + done.
    + simpl in Hw. lia.
Qed.

Definition fd_table (ps : list (list Z)) (order : list nat) : list (option (list Z)) :=
  imap (λ i p, if decide (i ∈ order) then Some p else None) ps.

(** The decoder's state after some frames of the group at [base] arrived. *)
Definition fd_group (d : FecDecoder) (base : Z) (ps : list (list Z)) (order : list nat) : Prop :=
  fd_window d = Z.of_nat (length ps)
  ∧ if decide (order = []) then fd_active d = true → fd_seq_base d ≠ base
    else fd_active d = true ∧ fd_seq_base d = base ∧ fd_received d = fd_table ps order.

Lemma fd_table_nil ps : fd_table ps [] = replicate (length ps) None.
Proof.
  apply list_eq_same_length with (n := length ps).
  - apply length_replicate.
  - unfold fd_table. apply length_imap.
  - intros i x y Hi Hx Hy. apply lookup_replicate in Hy as [-> _].
    unfold fd_table in Hx. rewrite list_lookup_imap in Hx.
    destruct (ps !! i); cbn [fmap option_fmap option_map] in Hx; [|done].
    rewrite decide_False in Hx; [by inversion Hx|apply not_elem_of_nil].
Qed.

Lemma fd_table_insert ps order i p :
  ps !! i = Some p → <[i := Some p]> (fd_table ps order) = fd_table ps (i :: order).
Proof.
  intros Hp. apply list_eq. intros j. unfold fd_table.
  assert (i < length ps)%nat by (by eapply lookup_lt_Some).
  destruct (decide (i = j)) as [->|Hne].
  - rewrite list_lookup_insert_eq, list_lookup_imap, Hp by (rewrite length_imap; done).
    simpl. rewrite decide_True; [done|left].
  - rewrite list_lookup_insert_ne, !list_lookup_imap by done.
    destruct (ps !! j); simpl; [|done]. f_equal.
    apply decide_ext. rewrite elem_of_cons. split; [by right|by intros [->|]].
Qed.

Lemma fd_group_push d base ps order i p :
  fd_group d base ps order → (0 < length ps)%nat →
  base mod Z.of_nat (length ps) = 0 → ps !! i = Some p →
  ∃ d', FecDecoder_push_data d (base + Z.of_nat i) p = Val (d', true)
    ∧ fd_group d' base ps (i :: order).
Proof.
  intros [Hw Hg] Hpos Hb Hp.
  assert (i < length ps)%nat as Hi by (by eapply lookup_lt_Some).
  assert (base + Z.of_nat i - (base + Z.of_nat i) mod Z.of_nat (length ps) = base) as Hgb.
  { rewrite Z.add_mod, Hb, Z.add_0_l, Z.mod_mod, Z.mod_small by lia. lia. }
  unfold FecDecoder_push_data. rewrite Hw, Hgb.
  set (d0 := if negb (fd_active d) || negb (fd_seq_base d =? base)
             then FecDecoder_start_group d base else d).
  assert (fd_window d0 = Z.of_nat (length ps) ∧ fd_seq_base d0 = base
    ∧ fd_active d0 = true ∧ fd_received d0 = fd_table ps order) as (Hw0 & Hs0 & Ha0 & Hr0).
  { subst d0. case_decide as Ho.
    - subst order. destruct (fd_active d) eqn:Ha; simpl.
      + rewrite (proj2 (Z.eqb_neq _ _)) by auto. simpl.
        by rewrite Hw, Nat2Z.id, fd_table_nil.
      + by rewrite Hw, Nat2Z.id, fd_table_nil.
    - destruct Hg as (Ha & Hs & Hr). rewrite Ha, Hs, Z.eqb_refl. simpl. auto. }
  rewrite Hs0, Hw0, Hr0. replace (base + Z.of_nat i - base) with (Z.of_nat i) by lia.
  rewrite (proj2 (Z.ltb_lt _ _)), Nat2Z.id by lia.
  rewrite decide_True by (unfold fd_table; rewrite length_imap; done).
  eexists. split; [done|]. split; [done|]. rewrite decide_False by done. simpl.
  by rewrite (fd_table_insert _ _ _ p).
Qed.

Lemma fd_group_deliver order d base ps done_ :
  fd_group d base ps done_ → (0 < length ps)%nat →
  base mod Z.of_nat (length ps) = 0 → Forall (λ i, (i < length ps)%nat) order →
  ∃ d', fec_deliver d base ps order = Val d' ∧ fd_group d' base ps (rev order ++ done_).
Proof.
  revert d done_. induction order as [|i order IH]; intros d done_ Hg Hpos Hb Hf; simpl.
  { eauto. }
  apply Forall_cons_1 in Hf as [Hi Hf].
  destruct (lookup_lt_is_Some_2 ps i Hi) as [p Hp]. rewrite Hp. simpl.
  destruct (fd_group_push d base ps done_ i p) as (d1 & -> & Hg1); [done..|]. simpl.
  destruct (IH d1 (i :: done_)) as (d2 & -> & Hg2); [done..|].
  exists d2. split; [done|]. by rewrite <-app_assoc.
Qed.

(** The frames of a group that never arrived. *)
Definition fec_lost (ps : list (list Z)) (order : list nat) : list nat :=
  filter (λ i, i ∉ order) (seq 0 (length ps)).

Lemma fec_missing_table ps order : fec_missing (fd_table ps order) = fec_lost ps order.
Proof.
  unfold fec_missing, fec_lost.
  assert (length (fd_table ps order) = length ps) as -> by apply length_imap.
  apply filter_ext_in. intros i Hi. apply elem_of_seq in Hi. unfold fd_table.
  rewrite list_lookup_imap.
  destruct (lookup_lt_is_Some_2 ps i) as [p ->]; [lia|]. cbn [fmap option_fmap option_map].
  case_decide; split; done.
Qed.

Lemma fd_group_parity d base ps order par :
  fd_group d base ps order → par_seq_base par = base →
  (FecDecoder_push_parity d par).2
  = FecDecoder_try_recover
      (mkFecDecoder (Z.of_nat (length ps)) base (fd_table ps order) (Some (par_payload par)) true).
Proof.
  intros [Hw Hg] <-. unfold FecDecoder_push_parity. cbn [snd]. f_equal.
  case_decide as Ho.
  - subst order.
    assert (negb (fd_active d) || negb (fd_seq_base d =? par_seq_base par) = true) as ->.
    { destruct (fd_active d); [|done]. simpl. apply negb_true_iff, Z.eqb_neq. auto. }
    unfold FecDecoder_start_group. simpl. by rewrite Hw, Nat2Z.id, fd_table_nil.
  - destruct Hg as (Ha & Hs & Hr). rewrite Ha, Hs, Z.eqb_refl. simpl. by rewrite Hw, Hs, Ha, Hr.
Qed.

(** A table with the single hole [j]. *)
Lemma fd_table_hole ps order j p :
  ps !! j = Some p → (∀ i, (i < length ps)%nat → i ∉ order ↔ i = j) →
  fd_table ps order = <[j := None]> (Some <$> ps).
Proof.
  intros Hp Ho. apply list_eq. intros i. unfold fd_table. rewrite list_lookup_imap.
  assert (j < length ps)%nat by (by eapply lookup_lt_Some).
  destruct (decide (i = j)) as [->|Hne].
  - rewrite Hp, list_lookup_insert_eq by (by rewrite length_fmap).
    cbn [fmap option_fmap option_map]. rewrite decide_False; [done|]. by apply Ho.
  - rewrite list_lookup_insert_ne, list_lookup_fmap by done.
    destruct (ps !! i) as [q|] eqn:Hq; [|done]. cbn [fmap option_fmap option_map].
    apply lookup_lt_Some in Hq. destruct (decide (i ∈ order)) as [|Hn]; [done|].
    by apply Ho in Hn.
Qed.

Lemma fec_recover_hole base w ps order j p :
  ps !! j = Some p → fec_lost ps order = [j] →
  FecDecoder_try_recover
    (mkFecDecoder w base (fd_table ps order) (Some (parity_of ps)) true)
  = Some (wrap32 (base + Z.of_nat j), resize0 (max_len ps) p).
Proof.
  intros Hp Hlost. unfold FecDecoder_try_recover. simpl.
  rewrite fec_missing_table, Hlost. rewrite decide_False by (simpl; lia).
  change ([j] !!! 0%nat) with j. do 2 f_equal.
  assert (∀ i, (i < length ps)%nat → i ∉ order ↔ i = j) as Ho.
  { intros i Hi. rewrite <-list_elem_of_singleton, <-Hlost. unfold fec_lost.
    rewrite list_elem_of_filter, elem_of_seq. split; [|tauto]. split; [done|lia]. }
  assert (j < length ps)%nat as Hj by (by eapply lookup_lt_Some).
  rewrite (fd_table_hole _ _ j p) by done.
  destruct (fec_xor_frames_spec (<[j := None]> (Some <$> ps)) j (parity_of ps)) as [Hl Hi].
  { rewrite list_lookup_insert_eq by (by rewrite length_fmap). done. }
  apply max_len_lookup in Hp as Hmax.
  rewrite length_parity_of in Hl, Hi. apply list_eq_byte_at.
  - rewrite Hl, length_resize0. lia.
  - intros i Hlt. rewrite Hl in Hlt.
    rewrite Hi, lookup_parity_of, byte_at_resize0 by done. by apply xor_present_hole.
Qed.

(** C9: for every group of [w] frames whose first sequence number is a
    multiple of [w], the encoder emits its parity exactly with the last
    frame, and the decoder, fed any subset of the frames in any order
    (duplicates included) and then the parity, never panics; it recovers a
    frame iff exactly one of the group is missing, under that frame's own
    sequence number and with its payload zero-padded to the longest payload
    of the group. *)
Theorem fec_group_recovery (ps : list (list Z)) (base : Z) (order : list nat)
    (e : FecEncoder) (d : FecDecoder) :
  (2 ≤ length ps)%nat → 0 ≤ base → base + Z.of_nat (length ps) ≤ 4294967296 →
  base mod Z.of_nat (length ps) = 0 →
  fe_window e = Z.of_nat (length ps) → fe_count e = 0 →
  fd_window d = Z.of_nat (length ps) → (fd_active d = true → fd_seq_base d ≠ base) →
  Forall (λ i, (i < length ps)%nat) order →
  ∃ e' par d',
    fec_push_all e base ps = (e', replicate (length ps - 1) None ++ [Some par])
    ∧ fe_count e' = 0
    ∧ fec_deliver d base ps order = Val d'
    ∧ (FecDecoder_push_parity d' par).2 =
      match fec_lost ps order with
      | [j] => Some (base + Z.of_nat j, resize0 (max_len ps) (default [] (ps !! j)))
      | _ => None
      end.
Proof.
  intros Hlen Hb0 Hb1 Hb He Hc Hd Ha Ho.
  assert (fd_group d base ps []) as Hg by (split; [done|by rewrite decide_True]).
  destruct (fd_group_deliver order d base ps []) as (d' & Hdel & Hg'); [done|lia|done..|].
  rewrite app_nil_r in Hg'.
  assert (ps ≠ []) as Hne by (intros ->; simpl in Hlen; lia).
  eexists _, _, d'. split.
  { rewrite <-(Z.add_0_r base) at 1. by apply (fec_push_rest ps e base []). }
  split_and!; [done|exact Hdel|].
  rewrite (fd_group_parity _ _ _ _ _ Hg') by done. cbn [par_payload app].
  assert (fec_lost ps (rev order) = fec_lost ps order) as Hl.
  { apply filter_ext_in. intros i _. by rewrite !list_elem_of_In, <-in_rev. }
  destruct (fec_lost ps order) as [|j [|j' l]] eqn:Hlost.
  - unfold FecDecoder_try_recover. simpl. by rewrite fec_missing_table, Hl.
  - assert (j < length ps)%nat as Hj.
    { assert (j ∈ fec_lost ps order) as Hj by (rewrite Hlost; left).
      apply list_elem_of_filter in Hj as [_ Hj]. apply elem_of_seq in Hj. lia. }
    destruct (lookup_lt_is_Some_2 ps j Hj) as [p Hp].
    rewrite (fec_recover_hole _ _ _ _ j p) by done. rewrite Hp.
    by rewrite wrap32_id by ulia.
  - unfold FecDecoder_try_recover. simpl. by rewrite fec_missing_table, Hl.
Qed.

Lemma fec_group_recovery_witness :
  let ps := [[1; 2]; [3]; [4; 5; 6]; [7]] in
  ∃ e' par d',
    fec_push_all FecEncoder_with_default_window 8 ps = (e', [None; None; None; Some par])
    ∧ fec_deliver FecDecoder_with_default_window 8 ps [3; 0; 2; 0]%nat = Val d'
    ∧ (FecDecoder_push_parity d' par).2 = Some (9, [3; 0; 0]).
Proof.
  intros ps.
  destruct (fec_group_recovery ps 8 [3; 0; 2; 0]%nat
    FecEncoder_with_default_window FecDecoder_with_default_window)
    as (e' & par & d' & Hp & _ & Hd & Hr);
    [unfold ps; cbn [length]; first [lia|discriminate|reflexivity|repeat constructor]..|].
  exists e', par, d'. split; [exact Hp|split; [exact Hd|]].
  assert (fec_lost ps [3; 0; 2; 0]%nat = [1%nat]) as Hl by (vm_compute; reflexivity).
  rewrite Hr, Hl. vm_compute. reflexivity.
Defined.

(** ** Every decoder run *)

Inductive fec_op : Type :=
  | FecData (sequence : Z) (payload : list Z)
  | FecPar (parity : FecParity)
  | FecReset.

Fixpoint fec_run (d : FecDecoder) (ops : list fec_op) :
    checked (FecDecoder * list (option (Z * list Z))) :=
  match ops with
  | [] => Val (d, [])
  | FecData s p :: ops =>
      r ← FecDecoder_push_data d s p; fec_run r.1 ops
  | FecPar q :: ops =>
      let '(d, o) := FecDecoder_push_parity d q in
      r ← fec_run d ops; Val (r.1, o :: r.2)
  | FecReset :: ops => fec_run (FecDecoder_reset d) ops
  end.

(** A group that was opened by a misaligned parity never holds a frame. *)
Definition fd_inv (w : Z) (d : FecDecoder) : Prop :=
  fd_window d = w
  ∧ (fd_active d = true →
     length (fd_received d) = Z.to_nat w
     ∧ (fd_seq_base d mod w ≠ 0 → fd_received d = replicate (Z.to_nat w) None)).

Lemma fd_inv_new w : 2 ≤ w → fd_inv w (FecDecoder_new w).
Proof. intros. split; [simpl; lia|done]. Qed.

Lemma fd_inv_start w d b : fd_window d = w → fd_inv w (FecDecoder_start_group d b).
Proof. intros <-. split; [done|]. intros _. simpl. by rewrite length_replicate. Qed.

Lemma fd_inv_push_data w d s p :
  2 ≤ w → fd_inv w d → 0 ≤ s →
  ∃ d', FecDecoder_push_data d s p = Val (d', true) ∧ fd_inv w d'.
Proof.
  intros Hw [Hwd Hd] Hs. unfold FecDecoder_push_data. rewrite Hwd.
  set (d0 := if negb (fd_active d) || negb (fd_seq_base d =? s - s mod w)
             then FecDecoder_start_group d (s - s mod w) else d).
  assert (fd_inv w d0 ∧ fd_seq_base d0 = s - s mod w ∧ fd_active d0 = true) as (Hi & Hb & Ha).
  { subst d0. destruct (fd_active d) eqn:E1, (Z.eqb_spec (fd_seq_base d) (s - s mod w)); simpl;
      try (split; [by apply fd_inv_start|done]).
    split; [split; [done|by rewrite E1]|done]. }
  destruct Hi as [Hw0 Hi]. destruct (Hi Ha) as [Hl _]. rewrite Hb, Hw0.
  pose proof (Z.mod_pos_bound s w). replace (s - (s - s mod w)) with (s mod w) by lia.
  rewrite (proj2 (Z.ltb_lt _ _)), decide_True by lia.
  eexists. split; [done|]. split; [done|]. intros _. simpl.
  rewrite length_insert. split; [done|]. intros Hm. destruct Hm.
  rewrite Zminus_mod, Z.mod_mod, Z.sub_diag by lia. done.
Qed.

Lemma fd_inv_push_parity w d q :
  2 ≤ w → fd_inv w d →
  fd_inv w (FecDecoder_push_parity d q).1
  ∧ (par_seq_base q mod w ≠ 0 → (FecDecoder_push_parity d q).2 = None).
Proof.
  intros Hw Hd. unfold FecDecoder_push_parity.
  set (d0 := if negb (fd_active d) || negb (fd_seq_base d =? par_seq_base q)
             then FecDecoder_start_group d (par_seq_base q) else d).
  assert (fd_inv w d0 ∧ fd_seq_base d0 = par_seq_base q ∧ fd_active d0 = true)
    as ([Hw0 Hi] & Hb & Ha).
  { subst d0. destruct Hd as [Hwd Hd].
    destruct (fd_active d) eqn:E1, (Z.eqb_spec (fd_seq_base d) (par_seq_base q)); simpl;
      try (split; [by apply fd_inv_start|done]).
    split; [split; [done|by rewrite E1]|done]. }
  destruct (Hi Ha) as [Hl Hn]. split; [done|]. rewrite Hb in Hn. intros Hm.
  cbn [snd]. unfold FecDecoder_try_recover. cbn [fd_parity fd_received mbind option_bind].
  rewrite (Hn Hm). rewrite decide_True; [done|]. unfold fec_missing.
  rewrite length_replicate.
  rewrite (filter_ext_in _ (λ _, True)).
  - replace (Z.to_nat w) with (S (S (Z.to_nat w - 2))) by lia. simpl.
    lia.
  - intros i Hin. apply elem_of_seq in Hin. split; [done|]. intros _.
    apply lookup_replicate_2. lia.
Qed.

(** Over any interleaving of data frames, parities and resets the decoder
    never panics, and a parity whose base is not a multiple of the window
    never recovers anything: once the sender's groups lose the alignment that
    the receiver infers, error correction is inert. *)
Theorem fec_misaligned_never_recovers w ops :
  2 ≤ w →
  Forall (λ o, match o with FecData s _ => 0 ≤ s | _ => True end) ops →
  ∃ d outs, fec_run (FecDecoder_new w) ops = Val (d, outs)
    ∧ Forall2 (λ q o, par_seq_base q mod w ≠ 0 → o = None)
        (omap (λ o, match o with FecPar q => Some q | _ => None end) ops) outs.
Proof.
  intros Hw. pose proof (fd_inv_new w Hw) as Hinv. revert Hinv.
  generalize (FecDecoder_new w) as d. induction ops as [|o ops IH]; intros d Hd Hf.
  { exists d, []. split; [done|constructor]. }
  apply Forall_cons_1 in Hf as [Ho Hf]. destruct o as [s p|q|]; cbn [fec_run omap list_omap].
  - destruct (fd_inv_push_data w d s p) as (d1 & -> & Hd1); [done..|]. by apply IH.
  - destruct (fd_inv_push_parity w d q Hw Hd) as [Hd1 Hq].
    destruct (FecDecoder_push_parity d q) as [d1 o]. simpl in *.
    destruct (IH d1 Hd1 Hf) as (d2 & outs & Hrun & Hall).
    exists d2, (o :: outs). rewrite Hrun. split; [done|]. by constructor.
  - apply IH; [|done]. destruct Hd. by split.
Qed.

Lemma fec_misaligned_never_recovers_witness :
  ∃ d outs, fec_run (FecDecoder_new 4)
      [FecData 1 [10]; FecData 2 [20]; FecData 3 [30]; FecPar (mkFecParity 1 4 [50])]
    = Val (d, outs)
    ∧ outs = [None].
Proof.
  destruct (fec_misaligned_never_recovers 4
    [FecData 1 [10]; FecData 2 [20]; FecData 3 [30]; FecPar (mkFecParity 1 4 [50])])
    as (d & outs & Hr & Hall); [lia|repeat constructor; lia|].
  exists d, outs. split; [exact Hr|].
  cbn in Hall. inversion Hall as [|? ? ? ? Ho Hn]; subst. inversion Hn; subst.
  rewrite Ho; [done|by vm_compute].
Defined.

(** When the sender skips a sequence number inside a group (numbers 0, 1, 3,
    4 for the four frames) and the last frame is lost, the decoder hands out
    the payload of frame 4 as frame 2. *)
Example fec_gap_misattributed :
  let '(e1, _) := FecEncoder_push (FecEncoder_new 4) 0 [10] in
  let '(e2, _) := FecEncoder_push e1 1 [11] in
  let '(e3, _) := FecEncoder_push e2 3 [13] in
  let '(_, par) := FecEncoder_push e3 4 [14] in
  (fun q => (fun r => match r with Val (_, o) => o | Panic => [] end)
     (fec_run (FecDecoder_new 4) [FecData 0 [10]; FecData 1 [11]; FecData 3 [13]; FecPar q]))
  <$> par = Some [Some (2, [14])].
Proof. vm_compute. reflexivity. Qed.
