(* ===== verification/JitterBuffer.v ===== *)
(** * Jitter buffer

    Models [gravital-talk-transport/src/jitter_buffer.rs]: the ring of slots
    indexed by the low bits of the sequence number, its cursor, and the four
    operations.  The ring refines an abstract buffer that maps sequence
    numbers to frames. *)

From stdpp Require Import gmap.
From Stdlib Require Import Sorted.
From S2P Require Import Prelude.

Record Frame : Type := mkFrame {
  fr_sequence : Z;
  fr_timestamp : Z;
  fr_payload : list Z;
}.

Record Slot : Type := mkSlot {
  sl_occupied : bool;
  sl_sequence : Z;
  sl_frame : option Frame;
}.

Definition Slot_empty : Slot := mkSlot false 0 None.

Record JitterBuffer : Type := mkJitterBuffer {
  jb_slots : list Slot;
  jb_capacity : Z;
  jb_mask : Z;
  jb_next_seq : Z;
  jb_primed : bool;
}.

Definition is_power_of_two (c : Z) : bool := (0 <? c) && (Z.land c (c - 1) =? 0).

(** The two [assert!]s panic. *)
Definition JitterBuffer_new (capacity : Z) : checked JitterBuffer :=
  if negb (is_power_of_two capacity) then Panic
  else if negb (capacity <=? 2048) then Panic
  else Val (mkJitterBuffer (replicate (Z.to_nat capacity) Slot_empty) capacity (capacity - 1)
              0 false).

Definition with_slot (self : JitterBuffer) (idx : nat) (s : Slot) (next : Z) : JitterBuffer :=
  mkJitterBuffer (<[idx := s]> (jb_slots self)) (jb_capacity self) (jb_mask self) next
    (jb_primed self).

(** [self.slots[idx]], which panics out of range. *)
Definition slot_at (self : JitterBuffer) (idx : nat) : checked Slot :=
  match jb_slots self !! idx with Some s => Val s | None => Panic end.

Definition slot_index (self : JitterBuffer) (sequence : Z) : nat :=
  Z.to_nat (Z.land sequence (jb_mask self)).

(** The second half of [push], once the frame is known to be in the window. *)
Definition push_store (self : JitterBuffer) (frame : Frame) : checked (JitterBuffer * bool) :=
  let idx := slot_index self (fr_sequence frame) in
  slot ← slot_at self idx;
  if sl_occupied slot && negb (sl_sequence slot =? fr_sequence frame) then Val (self, false)
  else Val (with_slot self idx (mkSlot true (fr_sequence frame) (Some frame))
              (jb_next_seq self), true).

Definition set_cursor (self : JitterBuffer) (next : Z) (primed : bool) : JitterBuffer :=
  mkJitterBuffer (jb_slots self) (jb_capacity self) (jb_mask self) next primed.

Definition JitterBuffer_push (self : JitterBuffer) (frame : Frame) :
    checked (JitterBuffer * bool) :=
  if negb (jb_primed self) then push_store (set_cursor self (fr_sequence frame) true) frame
  else
    let next := jb_next_seq self in
    if 2147483648 <? wrap32 (fr_sequence frame - next) then Val (self, false)
    else if jb_capacity self <=? wrap32 (fr_sequence frame - next) then Val (self, false)
    else push_store self frame.

Definition JitterBuffer_pop (self : JitterBuffer) : checked (JitterBuffer * option Frame) :=
  if negb (jb_primed self) then Val (self, None)
  else
    let next := jb_next_seq self in
    let idx := slot_index self next in
    slot ← slot_at self idx;
    if negb (sl_occupied slot) then Val (self, None)
    else if negb (sl_sequence slot =? next) then Val (self, None)
    else Val (with_slot self idx (mkSlot false (sl_sequence slot) None) (wrap32 (next + 1)),
              sl_frame slot).

(** The loop [for i in i0..i0 + n] of [skip]. *)
Fixpoint skip_loop (self : JitterBuffer) (next i : Z) (n : nat) : checked JitterBuffer :=
  match n with
  | O => Val self
  | S n =>
      let idx := slot_index self (wrap32 (next + i)) in
      slot ← slot_at self idx;
      skip_loop (with_slot self idx (mkSlot false (sl_sequence slot) None) (jb_next_seq self))
        next (i + 1) n
  end.

Definition JitterBuffer_skip (self : JitterBuffer) (count : Z) : checked JitterBuffer :=
  if negb (jb_primed self) then Val self
  else
    let next := jb_next_seq self in
    self ← skip_loop self next 0 (Z.to_nat count);
    Val (set_cursor self (wrap32 (next + count)) (jb_primed self)).

Definition JitterBuffer_pop_with_deadline (self : JitterBuffer) (now_us deadline_us : Z) :
    checked (JitterBuffer * option Frame) :=
  r ← JitterBuffer_pop self;
  match r.2 with
  | Some frame => Val (r.1, Some frame)
  | None =>
      if deadline_us <=? now_us then
        self ← JitterBuffer_skip r.1 1; Val (self, None)
      else Val (r.1, None)
  end.

(** [occupied], the numerator of [fill_percent]. *)
Definition JitterBuffer_occupied (self : JitterBuffer) : nat :=
  length (filter (λ s, sl_occupied s = true) (jb_slots self)).

(** ** The abstract buffer

    [js_next] is the sequence number the next [pop] returns, unset before the
    first frame; [js_buf] the frames waiting. *)

Record jspec : Type := mkJspec {
  js_next : option Z;
  js_buf : gmap Z Frame;
}.

Definition js_new : jspec := mkJspec None ∅.

Definition js_push (cap : Z) (sp : jspec) (f : Frame) : jspec * bool :=
  match js_next sp with
  | None => (mkJspec (Some (fr_sequence f)) {[ fr_sequence f := f ]}, true)
  | Some n =>
      if decide (wrap32 (fr_sequence f - n) < cap)
      then (mkJspec (Some n) (<[ fr_sequence f := f ]> (js_buf sp)), true)
      else (sp, false)
  end.

Definition js_advance (sp : jspec) : jspec :=
  match js_next sp with
  | None => sp
  | Some n => mkJspec (Some (wrap32 (n + 1))) (delete n (js_buf sp))
  end.

Definition js_pop (sp : jspec) : jspec * option Frame :=
  match js_next sp ≫= (λ n, js_buf sp !! n) with
  | None => (sp, None)
  | Some f => (js_advance sp, Some f)
  end.

Inductive jop : Type :=
  | JPush (f : Frame)
  | JPop
  | JPopDeadline (now_us deadline_us : Z)
  | JSkip (count : Z).

Inductive jout : Type := JoBool (b : bool) | JoFrame (o : option Frame) | JoUnit.

Definition js_step (cap : Z) (sp : jspec) (op : jop) : jspec * jout :=
  match op with
  | JPush f => let '(sp, b) := js_push cap sp f in (sp, JoBool b)
  | JPop => let '(sp, o) := js_pop sp in (sp, JoFrame o)
  | JPopDeadline now deadline =>
      match js_pop sp with
      | (sp, Some f) => (sp, JoFrame (Some f))
      | (sp, None) => (if deadline <=? now then js_advance sp else sp, JoFrame None)
      end
  | JSkip count => (Nat.iter (Z.to_nat count) js_advance sp, JoUnit)
  end.

Definition jb_step (jb : JitterBuffer) (op : jop) : checked (JitterBuffer * jout) :=
  match op with
  | JPush f => r ← JitterBuffer_push jb f; Val (r.1, JoBool r.2)
  | JPop => r ← JitterBuffer_pop jb; Val (r.1, JoFrame r.2)
  | JPopDeadline now deadline =>
      r ← JitterBuffer_pop_with_deadline jb now deadline; Val (r.1, JoFrame r.2)
  | JSkip count => jb ← JitterBuffer_skip jb count; Val (jb, JoUnit)
  end.

Fixpoint js_run (cap : Z) (sp : jspec) (ops : list jop) : jspec * list jout :=
  match ops with
  | [] => (sp, [])
  | op :: ops =>
      let '(sp, o) := js_step cap sp op in
      let '(sp, os) := js_run cap sp ops in (sp, o :: os)
  end.

Fixpoint jb_run (jb : JitterBuffer) (ops : list jop) : checked (JitterBuffer * list jout) :=
  match ops with
  | [] => Val (jb, [])
  | op :: ops => r ← jb_step jb op; rs ← jb_run r.1 ops; Val (rs.1, r.2 :: rs.2)
  end.

(** ** Arithmetic of the ring *)

Lemma wrap32_dist_0 n : wrap32 (n - n) = 0.
Proof. by rewrite Z.sub_diag. Qed.

(** Two sequence numbers of one window that share a slot are equal. *)
Lemma window_unique k n s t :
  0 ≤ k ≤ 32 → u32 s → u32 t →
  wrap32 (s - n) < 2 ^ k → wrap32 (t - n) < 2 ^ k →
  s mod 2 ^ k = t mod 2 ^ k → s = t.
Proof.
  intros Hk Hs Ht Hds Hdt Hm.
  assert (0 < 2 ^ k) by lia.
  assert (∀ x, wrap32 x mod 2 ^ k = x mod 2 ^ k) as Hw.
  { intros x. unfold wrap32. change 4294967296 with (2 ^ 32).
    replace 32 with (k + (32 - k)) by lia. rewrite Z.pow_add_r by lia.
    rewrite Z.rem_mul_r by lia. rewrite Z.mul_comm, Z.mod_add by lia. apply Z.mod_mod. lia. }
  assert (wrap32 (s - n) = wrap32 (t - n)) as He.
  { rewrite <-(Z.mod_small (wrap32 (s - n)) (2 ^ k)), <-(Z.mod_small (wrap32 (t - n)) (2 ^ k))
      by (split; [dlia|done]).
    rewrite !Hw, (Zminus_mod s), (Zminus_mod t), Hm. done. }
  clear -He Hs Ht. dlia.
Qed.

Lemma wrap32_dist_next n s c :
  u32 n → u32 s → wrap32 (s - n) < c → s ≠ n → wrap32 (s - wrap32 (n + 1)) < c.
Proof. dlia. Qed.

Lemma pow2_capacity c :
  is_power_of_two c = true → c ≤ 2048 → c = 2 ^ Z.log2 c ∧ 0 ≤ Z.log2 c ≤ 11.
Proof.
  intros Hp Hc.
  assert (0 < c) as Hpos. { unfold is_power_of_two in Hp. lia. }
  assert (forallb (λ i, implb (is_power_of_two (Z.of_nat i))
            ((Z.of_nat i =? 2 ^ Z.log2 (Z.of_nat i)) && (Z.log2 (Z.of_nat i) <=? 11)))
            (seq 0 2049) = true) as Hall by (vm_compute; reflexivity).
  rewrite forallb_forall in Hall. specialize (Hall (Z.to_nat c)).
  rewrite in_seq, Z2Nat.id in Hall by lia. rewrite Hp in Hall. simpl in Hall.
  pose proof (Z.log2_nonneg c). lia.
Qed.

(** ** Invariant and refinement relation *)

Definition slot_ok (cap next : Z) (i : nat) (s : Slot) : Prop :=
  if sl_occupied s then
    ∃ f, sl_frame s = Some f ∧ fr_sequence f = sl_sequence s ∧ u32 (sl_sequence s)
      ∧ sl_sequence s mod cap = Z.of_nat i ∧ wrap32 (sl_sequence s - next) < cap
  else sl_frame s = None.

Record jb_inv (jb : JitterBuffer) : Prop := {
  ji_capacity : ∃ k, jb_capacity jb = 2 ^ k ∧ 0 ≤ k ≤ 11;
  ji_mask : jb_mask jb = jb_capacity jb - 1;
  ji_length : length (jb_slots jb) = Z.to_nat (jb_capacity jb);
  ji_next : u32 (jb_next_seq jb);
  ji_unprimed :
    jb_primed jb = false → ∀ i s, jb_slots jb !! i = Some s → sl_occupied s = false;
  ji_slots i s :
    jb_slots jb !! i = Some s → slot_ok (jb_capacity jb) (jb_next_seq jb) i s;
}.

(** The frame buffered under sequence number [q]. *)
Definition jb_lookup (jb : JitterBuffer) (q : Z) : option Frame :=
  s ← jb_slots jb !! slot_index jb q;
  if sl_occupied s && (sl_sequence s =? q) then sl_frame s else None.

Definition jb_refines (jb : JitterBuffer) (sp : jspec) : Prop :=
  jb_inv jb
  ∧ js_next sp = (if jb_primed jb then Some (jb_next_seq jb) else None)
  ∧ ∀ q, js_buf sp !! q = jb_lookup jb q.

Lemma slot_index_mod jb q :
  jb_inv jb → 0 ≤ q → slot_index jb q = Z.to_nat (q mod jb_capacity jb).
Proof.
  intros [(k & Hk & ?) Hm _ _ _ _] Hq. unfold slot_index.
  by rewrite Hm, Hk, Z.sub_1_r, <-Z.ones_equiv, Z.land_ones by lia.
Qed.

Lemma slot_index_lt jb q :
  jb_inv jb → 0 ≤ q → (slot_index jb q < length (jb_slots jb))%nat.
Proof.
  intros Hi Hq. rewrite slot_index_mod by done. destruct Hi as [(k & Hk & ?) _ -> _ _ _].
  pose proof (Z.mod_pos_bound q (jb_capacity jb)). lia.
Qed.

Lemma slot_at_ok jb q :
  jb_inv jb → 0 ≤ q →
  ∃ s, slot_at jb (slot_index jb q) = Val s ∧ jb_slots jb !! slot_index jb q = Some s
    ∧ slot_ok (jb_capacity jb) (jb_next_seq jb) (slot_index jb q) s.
Proof.
  intros Hi Hq. destruct (lookup_lt_is_Some_2 _ _ (slot_index_lt jb q Hi Hq)) as [s Hs].
  exists s. unfold slot_at. rewrite Hs. split_and!; [done..|]. by apply Hi.
Qed.

(** A slot found at the index of a number in the window holds that number. *)
Lemma slot_window jb q s :
  jb_inv jb → u32 q → wrap32 (q - jb_next_seq jb) < jb_capacity jb →
  slot_ok (jb_capacity jb) (jb_next_seq jb) (slot_index jb q) s →
  sl_occupied s = true → sl_sequence s = q.
Proof.
  intros Hi Hq Hd Hs Ho. unfold slot_ok in Hs. rewrite Ho in Hs.
  destruct Hs as (f & _ & _ & Hu & Hm & Hw).
  rewrite slot_index_mod in Hm by (done || ulia).
  destruct Hi as [(k & Hk & ?) _ _ _ _ _]. rewrite Hk in *.
  pose proof (Z.mod_pos_bound q (2 ^ k)).
  apply (window_unique k (jb_next_seq jb)); try lia; done.
Qed.

Lemma jb_lookup_window jb q f :
  jb_inv jb → jb_lookup jb q = Some f →
  u32 q ∧ fr_sequence f = q ∧ wrap32 (q - jb_next_seq jb) < jb_capacity jb
  ∧ jb_primed jb = true.
Proof.
  intros Hi. unfold jb_lookup.
  destruct (jb_slots jb !! slot_index jb q) as [s|] eqn:Hs; [|done]. simpl.
  apply (ji_slots _ Hi) in Hs as Hok. unfold slot_ok in Hok.
  destruct (sl_occupied s) eqn:Ho; [|done]. simpl.
  destruct (Z.eqb_spec (sl_sequence s) q) as [Hq|]; [|done]. subst q. intros Hf.
  destruct Hok as (g & Hg & Hseq & Hu & _ & Hw). rewrite Hg in Hf. injection Hf as ->.
  split_and!; [done..|]. destruct (jb_primed jb) eqn:Hp; [done|].
  by rewrite (ji_unprimed _ Hi Hp _ _ Hs) in Ho.
Qed.

Lemma jb_new_refines cap jb :
  JitterBuffer_new cap = Val jb → jb_refines jb js_new ∧ jb_capacity jb = cap.
Proof.
  unfold JitterBuffer_new. destruct (is_power_of_two cap) eqn:Hp; [|done]. simpl.
  destruct (Z.leb_spec cap 2048); [|done]. simpl. intros [= <-].
  destruct (pow2_capacity cap) as [Hc ?]; [done..|].
  split; [|done]. split_and!; [|done|].
  - split; simpl; [by exists (Z.log2 cap)|done|apply length_replicate|ulia|..].
    + intros _ i s Hs. by apply lookup_replicate in Hs as [-> _].
    + intros i s Hs. by apply lookup_replicate in Hs as [-> _].
  - intros q. unfold jb_lookup. simpl.
    destruct (replicate _ _ !! _) as [s|] eqn:Hs; [|done].
    by apply lookup_replicate in Hs as [-> _].
Qed.

(** Storing the frame [f] in its slot. *)
Lemma jb_store_inv jb f :
  jb_inv jb → jb_primed jb = true → u32 (fr_sequence f) →
  wrap32 (fr_sequence f - jb_next_seq jb) < jb_capacity jb →
  jb_inv (with_slot jb (slot_index jb (fr_sequence f))
            (mkSlot true (fr_sequence f) (Some f)) (jb_next_seq jb)).
Proof.
  intros Hi Hp Hu Hw. pose proof (slot_index_mod jb (fr_sequence f) Hi) as Hidx.
  destruct Hi as [Hc Hm Hl Hn Hup Hs]. split; simpl; try done.
  - by rewrite length_insert.
  - by rewrite Hp.
  - intros i s Hlk. apply list_lookup_insert_Some in Hlk as [(<- & <- & _)|(? & Hlk)];
      [|by apply Hs].
    exists f. simpl. split_and!; try done. destruct Hc as (k & Hk & ?).
    rewrite Hidx, Hk by ulia. pose proof (Z.mod_pos_bound (fr_sequence f) (2 ^ k)). lia.
Qed.

Lemma jb_lookup_store jb f q s :
  jb_inv jb → u32 (fr_sequence f) →
  jb_slots jb !! slot_index jb (fr_sequence f) = Some s →
  (sl_occupied s = true → sl_sequence s = fr_sequence f) →
  jb_lookup (with_slot jb (slot_index jb (fr_sequence f))
               (mkSlot true (fr_sequence f) (Some f)) (jb_next_seq jb)) q
  = if decide (q = fr_sequence f) then Some f else jb_lookup jb q.
Proof.
  intros Hi Hu Hs Ho. unfold jb_lookup, slot_index at 1. simpl. fold (slot_index jb q).
  apply lookup_lt_Some in Hs as Hlt. case_decide as Hq.
  - subst q. rewrite list_lookup_insert_eq by done. simpl. by rewrite Z.eqb_refl.
  - destruct (decide (slot_index jb q = slot_index jb (fr_sequence f))) as [He|Hne].
    + rewrite He, list_lookup_insert_eq, Hs by done. simpl.
      rewrite (proj2 (Z.eqb_neq _ _)) by congruence.
      destruct (sl_occupied s); [|done]. rewrite Ho by done. simpl.
      by rewrite (proj2 (Z.eqb_neq _ _)) by congruence.
    + by rewrite list_lookup_insert_ne by done.
Qed.

Lemma jb_store_refines jb sp f :
  jb_refines jb sp → jb_primed jb = true → u32 (fr_sequence f) →
  wrap32 (fr_sequence f - jb_next_seq jb) < jb_capacity jb →
  ∃ jb', push_store jb f = Val (jb', true) ∧ jb_capacity jb' = jb_capacity jb
    ∧ jb_refines jb' (mkJspec (js_next sp) (<[fr_sequence f := f]> (js_buf sp))).
Proof.
  intros (Hi & Hn & Hl) Hp Hu Hw.
  destruct (slot_at_ok jb (fr_sequence f)) as (s & Hs & Hlk & Hok); [done|ulia|].
  pose proof (slot_window jb (fr_sequence f) s Hi Hu Hw Hok) as Hseq.
  unfold push_store. rewrite Hs. cbn [mbind checked_bind].
  assert (sl_occupied s && negb (sl_sequence s =? fr_sequence f) = false) as ->.
  { destruct (sl_occupied s); [|done]. by rewrite Hseq, Z.eqb_refl. }
  eexists. split; [done|]. split; [done|]. split_and!; [by apply jb_store_inv|done|].
  intros q. cbn [js_buf]. rewrite (jb_lookup_store _ _ _ s), <-Hl by done.
  case_decide; subst; [by rewrite lookup_insert_eq|by rewrite lookup_insert_ne].
Qed.

Lemma jb_prime_refines jb sp n :
  jb_refines jb sp → jb_primed jb = false → u32 n →
  jb_refines (set_cursor jb n true) (mkJspec (Some n) ∅).
Proof.
  intros ([Hc Hm Hl Hn Hup Hs] & _ & _) Hp Hu. split_and!; [|done|].
  - split; simpl; try done. intros i s Hlk. specialize (Hs _ _ Hlk). revert Hs.
    unfold slot_ok. by rewrite (Hup Hp _ _ Hlk).
  - intros q. unfold jb_lookup. simpl. unfold slot_index. simpl.
    destruct (jb_slots jb !! _) as [s|] eqn:Hlk; [|done]. simpl. by rewrite (Hup Hp _ _ Hlk).
Qed.

Lemma jb_push_refines jb sp f :
  jb_refines jb sp → u32 (fr_sequence f) →
  ∃ jb', JitterBuffer_push jb f = Val (jb', (js_push (jb_capacity jb) sp f).2)
    ∧ jb_capacity jb' = jb_capacity jb ∧ jb_refines jb' (js_push (jb_capacity jb) sp f).1.
Proof.
  intros Hr Hu. pose proof Hr as (Hi & Hn & Hl). unfold JitterBuffer_push, js_push. rewrite Hn.
  destruct (ji_capacity _ Hi) as (k & Hk & ?).
  assert (0 < jb_capacity jb ≤ 2048) as Hcap.
  { rewrite Hk. split; [lia|]. change 2048 with (2 ^ 11). apply Z.pow_le_mono_r; lia. }
  destruct (jb_primed jb) eqn:Hp; cbn [negb].
  - assert (0 ≤ wrap32 (fr_sequence f - jb_next_seq jb)) by dlia.
    case_decide.
    + rewrite (proj2 (Z.ltb_ge _ _)), (proj2 (Z.leb_gt _ _)) by lia. cbn [fst snd].
      rewrite <-Hn. by apply jb_store_refines.
    + destruct (_ <? _); [by exists jb|].
      rewrite (proj2 (Z.leb_le _ _)) by lia. by exists jb.
  - apply (jb_prime_refines jb sp (fr_sequence f)) in Hr as Hr'; [|done..].
    destruct (jb_store_refines _ _ f Hr') as (jb' & -> & Hc & Hr''); [done..| |].
    { simpl. rewrite wrap32_dist_0. lia. }
    exists jb'. done.
Qed.

(** Emptying the slot of the cursor and advancing it. *)
Definition jb_advance (jb : JitterBuffer) (s : Slot) : JitterBuffer :=
  with_slot jb (slot_index jb (jb_next_seq jb)) (mkSlot false (sl_sequence s) None)
    (wrap32 (jb_next_seq jb + 1)).

Lemma jb_advance_refines jb sp s :
  jb_refines jb sp → jb_primed jb = true →
  jb_refines (jb_advance jb s) (js_advance sp).
Proof.
  intros (Hi & Hn & Hl) Hp. unfold js_advance. rewrite Hn, Hp.
  pose proof (ji_next _ Hi) as Hu.
  destruct (slot_at_ok jb (jb_next_seq jb)) as (s0 & _ & Hlk0 & Hok0); [done|ulia|].
  assert (wrap32 (jb_next_seq jb - jb_next_seq jb) < jb_capacity jb) as Hw0.
  { rewrite wrap32_dist_0. destruct (ji_capacity _ Hi) as (k & -> & ?). lia. }
  pose proof (slot_window jb _ s0 Hi Hu Hw0 Hok0) as Hseq0.
  assert (∀ q, jb_lookup (jb_advance jb s) q
               = if decide (q = jb_next_seq jb) then None else jb_lookup jb q) as Hlook.
  { intros q. unfold jb_lookup, slot_index at 1. simpl. fold (slot_index jb q).
    apply lookup_lt_Some in Hlk0 as Hlt.
    destruct (decide (slot_index jb q = slot_index jb (jb_next_seq jb))) as [He|Hne].
    - rewrite He, list_lookup_insert_eq, Hlk0 by done. simpl.
      case_decide as Hq; [done|]. destruct (sl_occupied s0); [|done].
      rewrite Hseq0 by done. simpl. by rewrite (proj2 (Z.eqb_neq _ _)) by congruence.
    - rewrite list_lookup_insert_ne by done. case_decide; [by subst|done]. }
  split_and!; [|unfold jb_advance, with_slot; cbn; by rewrite Hp|].
  - pose proof Hi as [Hc Hm Hlen _ Hup Hs]. split; simpl; try done.
    + by rewrite length_insert.
    + auto with gs.
    + by rewrite Hp.
    + intros i t Hlk. apply list_lookup_insert_Some in Hlk as [(<- & <- & _)|(Hne & Hlk)]; [done|].
      specialize (Hs _ _ Hlk). unfold slot_ok in *. destruct (sl_occupied t); [|done].
      destruct Hs as (f & Hf & Hfs & Ht & Hmod & Hw). exists f. split_and!; try done.
      apply wrap32_dist_next; try done. intros Heq. apply Hne.
      rewrite slot_index_mod by (done || ulia). rewrite <-Heq, Hmod. lia.
  - intros q. rewrite Hlook, <-Hl. cbn [js_buf]. case_decide.
    + subst q. by rewrite lookup_delete_eq.
    + by rewrite lookup_delete_ne.
Qed.

Lemma jb_pop_refines jb sp :
  jb_refines jb sp →
  ∃ jb', JitterBuffer_pop jb = Val (jb', (js_pop sp).2)
    ∧ jb_capacity jb' = jb_capacity jb ∧ jb_refines jb' (js_pop sp).1.
Proof.
  intros Hr. pose proof Hr as (Hi & Hn & Hl). unfold JitterBuffer_pop, js_pop. rewrite Hn.
  destruct (jb_primed jb) eqn:Hp; cbn [negb mbind option_bind]; [|by exists jb].
  pose proof (ji_next _ Hi) as Hu.
  destruct (slot_at_ok jb (jb_next_seq jb)) as (s & Hs & Hlk & Hok); [done|ulia|].
  rewrite Hs, Hl. cbn [mbind checked_bind]. unfold jb_lookup. rewrite Hlk.
  cbn [mbind option_bind]. unfold slot_ok in Hok.
  destruct (sl_occupied s); cbn [negb andb]; [|by exists jb].
  destruct (sl_sequence s =? jb_next_seq jb); cbn [negb]; [|by exists jb].
  destruct Hok as (f & Hf & _). rewrite Hf. exists (jb_advance jb s).
  split_and!; [done..|]. by apply jb_advance_refines.
Qed.

Lemma skip_loop_refines n jb sp next i n0 :
  jb_refines jb sp → jb_primed jb = true → jb_next_seq jb = wrap32 (next + i) →
  ∃ jb', skip_loop (set_cursor jb n0 true) next i n = Val (set_cursor jb' n0 true)
    ∧ jb_refines jb' (Nat.iter n js_advance sp) ∧ jb_primed jb' = true
    ∧ jb_next_seq jb' = wrap32 (next + i + Z.of_nat n) ∧ jb_capacity jb' = jb_capacity jb.
Proof.
  revert jb sp i. induction n as [|n IH]; intros jb sp i Hr Hp Hn.
  { exists jb. rewrite Z.add_0_r. done. }
  cbn [skip_loop]. change (slot_index (set_cursor jb n0 true)) with (slot_index jb).
  rewrite <-Hn. pose proof (ji_next _ (proj1 Hr)) as Hu.
  destruct (slot_at_ok jb (jb_next_seq jb)) as (s & Hs & _ & _); [apply Hr|ulia|].
  change (slot_at (set_cursor jb n0 true)) with (slot_at jb). rewrite Hs.
  cbn [mbind checked_bind].
  destruct (IH (jb_advance jb s) (js_advance sp) (i + 1)) as (jb' & Hl & Hr' & ? & Hn' & ?).
  - by apply jb_advance_refines.
  - done.
  - unfold jb_advance. simpl. rewrite Hn. clear. dlia.
  - rewrite Nat.iter_succ_r. exists jb'. split_and!; try done.
    rewrite Hn'. f_equal. lia.
Qed.

Lemma jb_skip_refines jb sp count :
  jb_refines jb sp → 0 ≤ count →
  ∃ jb', JitterBuffer_skip jb count = Val jb' ∧ jb_capacity jb' = jb_capacity jb
    ∧ jb_refines jb' (Nat.iter (Z.to_nat count) js_advance sp).
Proof.
  intros Hr Hc. pose proof Hr as (Hi & Hn & _). unfold JitterBuffer_skip.
  destruct (jb_primed jb) eqn:Hp; cbn [negb].
  - pose proof (ji_next _ Hi) as Hu.
    destruct (skip_loop_refines (Z.to_nat count) jb sp (jb_next_seq jb) 0 (jb_next_seq jb))
      as (jb' & Hl & Hr' & Hp' & Hn' & ?); [done..| |].
    { rewrite Z.add_0_r. symmetry. by apply wrap32_id. }
    assert (set_cursor jb (jb_next_seq jb) true = jb) as Hsc
      by (unfold set_cursor; rewrite <-Hp; by destruct jb).
    rewrite Hsc in Hl. rewrite Hl. cbn [mbind checked_bind]. eexists. split; [done|].
    split; [done|]. rewrite Z.add_0_r, Z2Nat.id in Hn' by done.
    unfold set_cursor. simpl. rewrite <-Hn', <-Hp'. by destruct jb'.
  - exists jb. split_and!; [done..|].
    enough (∀ n, Nat.iter n js_advance sp = sp) as -> by done.
    induction n as [|n IH]; [done|]. simpl. rewrite IH. unfold js_advance. by rewrite Hn.
Qed.

Definition jop_wf (op : jop) : Prop :=
  match op with
  | JPush f => u32 (fr_sequence f)
  | JSkip count => 0 ≤ count
  | _ => True
  end.

Lemma jb_step_refines jb sp op :
  jb_refines jb sp → jop_wf op →
  ∃ jb', jb_step jb op = Val (jb', (js_step (jb_capacity jb) sp op).2)
    ∧ jb_capacity jb' = jb_capacity jb ∧ jb_refines jb' (js_step (jb_capacity jb) sp op).1.
Proof.
  intros Hr Hwf. destruct op as [f| |now deadline|count]; cbn [jb_step js_step].
  - destruct (jb_push_refines jb sp f) as (jb' & -> & ? & ?); [done..|].
    destruct (js_push _ _ _). by exists jb'.
  - destruct (jb_pop_refines jb sp Hr) as (jb' & -> & ? & ?).
    destruct (js_pop _). by exists jb'.
  - destruct (jb_pop_refines jb sp Hr) as (jb' & Hpop & Hc & Hr').
    unfold JitterBuffer_pop_with_deadline. rewrite Hpop. cbn [mbind checked_bind fst snd].
    destruct (js_pop sp) as [sp' [f|]]; simpl in Hr' |- *; [by exists jb'|].
    destruct (deadline <=? now); [|by exists jb'].
    destruct (jb_skip_refines jb' sp' 1) as (jb'' & -> & Hc' & ?); [done..|].
    exists jb''. simpl. split_and!; [done|congruence|done].
  - destruct (jb_skip_refines jb sp count) as (jb' & -> & ? & ?); [done..|]. by exists jb'.
Qed.

Lemma jb_run_refines ops jb sp :
  Forall jop_wf ops → jb_refines jb sp →
  ∃ jb', jb_run jb ops = Val (jb', (js_run (jb_capacity jb) sp ops).2)
    ∧ jb_refines jb' (js_run (jb_capacity jb) sp ops).1.
Proof.
  intros Hf. revert jb sp. induction Hf as [|op ops Ho Hf IH]; intros jb sp Hr; [by exists jb|].
  cbn [jb_run js_run].
  destruct (jb_step_refines jb sp op Hr Ho) as (jb1 & -> & Hc & Hr1).
  destruct (js_step _ _ _) as [sp1 o]. cbn [mbind checked_bind fst snd] in *.
  destruct (IH jb1 sp1 Hr1) as (jb2 & -> & Hr2). rewrite Hc in *.
  destruct (js_run _ _ _) as [sp2 os]. by exists jb2.
Qed.

(** C6: the ring buffer refines the abstract buffer keyed by sequence number:
    for every capacity the constructor accepts (exactly the powers of two up
    to 2048) and every sequence of pushes, pops, deadline pops and skips, no
    operation panics and every result is the abstract one.  In particular a
    frame is accepted iff it lies in the window of [capacity] numbers that
    starts at the cursor, and slots never collide. *)
Theorem jitter_buffer_refines cap ops :
  Forall jop_wf ops →
  match JitterBuffer_new cap with
  | Panic => is_power_of_two cap = false ∨ 2048 < cap
  | Val jb => ∃ jb', jb_run jb ops = Val (jb', (js_run cap js_new ops).2)
                ∧ jb_refines jb' (js_run cap js_new ops).1
  end.
Proof.
  intros Hf. destruct (JitterBuffer_new cap) as [jb|] eqn:Hnew.
  - apply jb_new_refines in Hnew as [Hr <-]. by apply jb_run_refines.
  - unfold JitterBuffer_new in Hnew. destruct (is_power_of_two cap); [right|by left].
    simpl in Hnew. destruct (Z.leb_spec cap 2048); [done|lia].
Qed.

Definition sample_frame (s : Z) : Frame := mkFrame s (s * 20000) [s mod 256].

Lemma jitter_buffer_refines_witness :
  let ops := [JPush (sample_frame 4294967295); JPush (sample_frame 1); JPush (sample_frame 5);
              JPop; JPop; JPopDeadline 10 5; JPop] in
  Forall jop_wf ops
  ∧ (js_run 4 js_new ops).2 =
    [JoBool true; JoBool true; JoBool false; JoFrame (Some (sample_frame 4294967295));
     JoFrame None; JoFrame None; JoFrame (Some (sample_frame 1))]
  ∧ ∃ jb jb', JitterBuffer_new 4 = Val jb ∧ jb_run jb ops = Val (jb', (js_run 4 js_new ops).2).
Proof.
  intros ops.
  assert (Forall jop_wf ops) as Hf by (repeat constructor; simpl; ulia).
  split; [exact Hf|]. split; [vm_compute; reflexivity|].
  destruct (jitter_buffer_refines 4 ops Hf) as (jb' & Hrun & _).
  eexists _, jb'. split; [reflexivity|exact Hrun].
Defined.

(** ** Delivery order *)

Definition delivered (outs : list jout) : list Frame :=
  omap (λ o, match o with JoFrame (Some f) => Some f | _ => None end) outs.

Definition pushed (ops : list jop) : list Frame :=
  omap (λ op, match op with JPush f => Some f | _ => None end) ops.

(** How far the cursor can have moved. *)
Definition advances (ops : list jop) : Z :=
  foldr (λ op n, match op with JPush _ => 0 | JSkip count => count | _ => 1 end + n) 0 ops.

Lemma advances_nonneg ops : Forall jop_wf ops → 0 ≤ advances ops.
Proof. induction 1 as [|op ops Hop _ IH]; simpl; [done|]. destruct op; simpl in *; lia. Qed.

Definition js_keyed (sp : jspec) : Prop :=
  ∀ q f, js_buf sp !! q = Some f → fr_sequence f = q ∧ js_next sp ≠ None.

Lemma js_advance_iter sp n c :
  js_keyed sp → js_next sp = Some (wrap32 c) →
  js_keyed (Nat.iter n js_advance sp)
  ∧ js_next (Nat.iter n js_advance sp) = Some (wrap32 (c + Z.of_nat n))
  ∧ (∀ q f, js_buf (Nat.iter n js_advance sp) !! q = Some f → js_buf sp !! q = Some f).
Proof.
  intros Hk Hn. induction n as [|n (IHk & IHn & IHb)].
  { simpl. by rewrite Z.add_0_r. }
  rewrite Nat.iter_succ. set (sp1 := Nat.iter n js_advance sp) in *.
  unfold js_advance, js_keyed. rewrite IHn. cbn [js_next js_buf]. split_and!.
  - intros q f Hq. apply lookup_delete_Some in Hq as [_ Hq]. split; [by apply IHk in Hq as []|done].
  - f_equal. clear. dlia.
  - intros q f Hq. apply lookup_delete_Some in Hq as [_ Hq]. by apply IHb.
Qed.

(** One step moves the cursor by at most its allowance and delivers only the
    frame under it. *)
Lemma js_step_cursor cap sp op c :
  js_keyed sp → js_next sp = Some (wrap32 c) → jop_wf op →
  let r := js_step cap sp op in
  js_keyed r.1
  ∧ ∃ d, 0 ≤ d ≤ advances [op] ∧ js_next r.1 = Some (wrap32 (c + d))
    ∧ (∀ f, r.2 = JoFrame (Some f) → d = 1 ∧ fr_sequence f = wrap32 c ∧ js_buf sp !! wrap32 c = Some f)
    ∧ (∀ q f, js_buf r.1 !! q = Some f → js_buf sp !! q = Some f ∨ op = JPush f).
Proof.
  intros Hk Hn Hwf.
  assert (js_keyed (js_advance sp) ∧ js_next (js_advance sp) = Some (wrap32 (c + 1))
    ∧ (∀ q f, js_buf (js_advance sp) !! q = Some f → js_buf sp !! q = Some f)) as (Hak & Han & Hab)
    by apply (js_advance_iter sp 1 c Hk Hn).
  assert (Some (wrap32 c) = Some (wrap32 (c + 0))) as H0 by (by rewrite Z.add_0_r).
  destruct op as [f| |now deadline|count]; cbn [js_step].
  - unfold js_push. rewrite Hn. case_decide; cbn [fst snd js_next js_buf].
    + split; [|exists 0; split_and!; simpl; try lia; try done; []].
      * intros q g Hq. cbn [js_buf js_next] in *.
        apply lookup_insert_Some in Hq as [[<- <-]|[_ Hq]]; [done|].
        split; [by apply Hk in Hq as []|done].
      * intros q g Hq. apply lookup_insert_Some in Hq as [[_ <-]|[_ Hq]]; [by right|by left].
    + split; [done|]. exists 0. rewrite Hn. simpl. split_and!; [lia..|done|done|by left].
  - unfold js_pop. rewrite Hn. cbn [mbind option_bind].
    destruct (js_buf sp !! wrap32 c) as [g|] eqn:Hg; cbn [fst snd].
    + split; [done|]. exists 1. simpl. split_and!; try lia; try done; [|by eauto].
      intros f [= <-]. by apply Hk in Hg as [].
    + split; [done|]. exists 0. rewrite Hn. simpl. split_and!; [lia..|done|done|by left].
  - unfold js_pop. rewrite Hn. cbn [mbind option_bind].
    destruct (js_buf sp !! wrap32 c) as [g|] eqn:Hg; cbn [fst snd].
    + split; [done|]. exists 1. simpl. split_and!; try lia; try done; [|by eauto].
      intros f [= <-]. by apply Hk in Hg as [].
    + destruct (deadline <=? now).
      * split; [done|]. exists 1. simpl. split_and!; try lia; try done. by eauto.
      * split; [done|]. exists 0. rewrite Hn. simpl. split_and!; [lia..|done|done|by left].
  - destruct (js_advance_iter sp (Z.to_nat count) c Hk Hn) as (Hik & Hin & Hib).
    simpl in Hwf. cbn [fst snd]. split; [done|]. exists count. simpl.
    rewrite Z2Nat.id in Hin by done. split_and!; try lia; try done. by eauto.
Qed.

Definition dist_from (first : Z) (f : Frame) : Z := wrap32 (fr_sequence f - first).

Lemma js_run_order ops cap sp first c P :
  Forall jop_wf ops → js_keyed sp → js_next sp = Some (wrap32 (first + c)) →
  0 ≤ c → c + advances ops ≤ 4294967296 →
  (∀ q f, js_buf sp !! q = Some f → P f) → (∀ f, f ∈ pushed ops → P f) →
  let ds := delivered (js_run cap sp ops).2 in
  Forall (λ f, c ≤ dist_from first f ∧ P f) ds
  ∧ StronglySorted Z.lt (dist_from first <$> ds).
Proof.
  intros Hf. revert sp c. induction Hf as [|op ops Hop Hf IH]; intros sp c Hk Hn Hc Hadv Hb Hp.
  { split; constructor. }
  cbn [js_run].
  destruct (js_step_cursor cap sp op _ Hk Hn Hop) as (Hk1 & d & Hd & Hn1 & Hout & Hb1).
  destruct (js_step cap sp op) as [sp1 o]. cbn [fst snd] in *.
  assert (advances (op :: ops) = advances [op] + advances ops) as Ha by (simpl; lia).
  pose proof (advances_nonneg _ Hf).
  destruct (IH sp1 (c + d)) as [IHf IHs]; [done| |lia..| | |].
  - by rewrite Z.add_assoc.
  - intros q f Hq. apply Hb1 in Hq as [Hq| ->]; [by eapply Hb|]. apply Hp. left.
  - intros f Hin. apply Hp. unfold pushed. simpl. destruct op; simpl; [by right|done..].
  - destruct (js_run cap sp1 ops) as [sp2 os]. cbn [snd] in *.
    assert (∀ f, c + d ≤ dist_from first f ∧ P f → c ≤ dist_from first f ∧ P f) as Hw
      by (intros f [? ?]; split; [lia|done]).
    assert (Forall (λ f, c ≤ dist_from first f ∧ P f) (delivered os)) as IHf'
      by (eapply Forall_impl; [exact Hw|exact IHf]).
    destruct o as [b|[f|]|]; [by split| |by split..].
    change (delivered (JoFrame (Some f) :: os)) with (f :: delivered os).
    destruct (Hout f eq_refl) as (-> & Hseq & Hbuf).
    assert (dist_from first f = c) as Hdist.
    { unfold dist_from. rewrite Hseq. clear -Hc Hadv Ha Hd H. dlia. }
    split; [constructor|].
    + split; [lia|by eapply Hb].
    + done.
    + rewrite fmap_cons. constructor; [done|]. rewrite Hdist. apply Forall_fmap.
      eapply Forall_impl; [|exact IHf]. intros g [? _]. simpl. lia.
Qed.

Lemma js_run_unprimed ops cap P :
  Forall jop_wf ops → advances ops ≤ 4294967296 → (∀ f, f ∈ pushed ops → P f) →
  let ds := delivered (js_run cap js_new ops).2 in
  Forall P ds
  ∧ StronglySorted Z.lt
      (dist_from (from_option fr_sequence 0 (head (pushed ops))) <$> ds).
Proof.
  induction 1 as [|op ops Hop Hf IH]; intros Ha Hp; [split; constructor|].
  pose proof (advances_nonneg _ Hf).
  assert (∀ n, Nat.iter n js_advance js_new = js_new) as Hit.
  { induction n as [|n IHn]; [done|]. simpl. by rewrite IHn. }
  destruct op as [f| |now deadline|count]; cbn [js_run js_step].
  - cbn [js_push js_new js_next].
    pose proof (js_run_order ops cap (mkJspec (Some (fr_sequence f)) {[fr_sequence f := f]})
      (fr_sequence f) 0 P Hf) as Ho.
    destruct Ho as [Ho1 Ho2]; [| |lia|simpl in Ha; lia|..].
    + intros q g Hq. cbn [js_buf] in Hq. apply lookup_singleton_Some in Hq as [<- <-]. done.
    + simpl. f_equal. rewrite Z.add_0_r. symmetry. by apply wrap32_id.
    + intros q g Hq. cbn [js_buf] in Hq. apply lookup_singleton_Some in Hq as [_ <-]. apply Hp. left.
    + intros g Hg. apply Hp. by right.
    + clear IH. destruct (js_run _ _ _) as [sp2 os]. cbn [snd] in *.
      change (delivered (JoBool true :: os)) with (delivered os).
      split; [|exact Ho2]. eapply Forall_impl; [|exact Ho1]. by intros g [].
  - destruct IH as [IH1 IH2]; [simpl in Ha; lia|done|].
    change (js_pop js_new) with (js_new, @None Frame). cbv beta iota. destruct (js_run _ _ _). by split.
  - destruct IH as [IH1 IH2]; [simpl in Ha; lia|done|].
    change (js_pop js_new) with (js_new, @None Frame).
    cbv beta iota. change (js_advance js_new) with js_new.
    destruct (deadline <=? now); destruct (js_run _ _ _); by split.
  - simpl in Hop. destruct IH as [IH1 IH2]; [simpl in Ha; lia|done|].
    rewrite Hit. cbv beta iota. destruct (js_run _ _ _). by split.
Qed.

(** Whatever order frames arrive in, the buffer hands them out in strictly
    increasing order of their distance from the first frame, hence without
    duplicates and across the 32-bit wrap-around, and hands out only frames
    that were pushed, unmodified; for runs whose cursor moves by at most
    2^32. *)
Theorem jitter_in_order_delivery cap jb ops :
  Forall jop_wf ops → JitterBuffer_new cap = Val jb → advances ops ≤ 4294967296 →
  ∃ jb' outs, jb_run jb ops = Val (jb', outs)
    ∧ Forall (λ f, f ∈ pushed ops) (delivered outs)
    ∧ StronglySorted Z.lt
        (dist_from (from_option fr_sequence 0 (head (pushed ops))) <$> delivered outs).
Proof.
  intros Hf Hnew Ha. apply jb_new_refines in Hnew as [Hr Hcap].
  destruct (jb_run_refines ops jb js_new Hf Hr) as (jb' & Hrun & _). rewrite Hcap in Hrun.
  exists jb', (js_run cap js_new ops).2. split; [done|]. by apply js_run_unprimed.
Qed.

Lemma jitter_in_order_delivery_witness :
  let ops := [JPush (sample_frame 4294967295); JPush (sample_frame 1); JPush (sample_frame 0);
              JPop; JPop; JPop] in
  ∃ jb jb' outs, JitterBuffer_new 4 = Val jb ∧ jb_run jb ops = Val (jb', outs)
    ∧ StronglySorted Z.lt (dist_from 4294967295 <$> delivered outs).
Proof.
  intros ops.
  destruct (jitter_in_order_delivery 4
    (mkJitterBuffer (replicate 4 Slot_empty) 4 3 0 false) ops) as (jb' & outs & Hrun & _ & Hs);
    [repeat constructor; simpl; ulia|reflexivity|vm_compute; discriminate|].
  exists (mkJitterBuffer (replicate 4 Slot_empty) 4 3 0 false), jb', outs.
  split; [reflexivity|]. split; [exact Hrun|exact Hs].
Defined.

(** ** Types

    What holds of the ring between any two accesses, whatever interferes: its
    size is fixed, and its fields hold values of their types.  It is all that
    indexing into the ring needs. *)

Definition slot_typed (s : Slot) : Prop :=
  u32 (sl_sequence s) ∧ match sl_frame s with Some f => u32 (fr_sequence f) | None => True end.

Record jb_typed (jb : JitterBuffer) : Prop := {
  jt_capacity : ∃ k, jb_capacity jb = 2 ^ k ∧ 0 ≤ k ≤ 11;
  jt_mask : jb_mask jb = jb_capacity jb - 1;
  jt_length : length (jb_slots jb) = Z.to_nat (jb_capacity jb);
  jt_next : u32 (jb_next_seq jb);
  jt_slots : Forall slot_typed (jb_slots jb);
}.

Lemma jb_typed_new cap jb : JitterBuffer_new cap = Val jb → jb_typed jb.
Proof.
  intros Hn. destruct (jb_new_refines cap jb Hn) as [[[Hc Hm Hl Hx _ _] _] _]. split; try done.
  unfold JitterBuffer_new in Hn. do 2 (case_match; [done|]). injection Hn as <-.
  apply Forall_replicate. split; [simpl; ulia|done].
Qed.

Lemma slot_typed_at jb q :
  jb_typed jb → 0 ≤ q →
  ∃ s, slot_at jb (slot_index jb q) = Val s ∧ jb_slots jb !! slot_index jb q = Some s
    ∧ slot_typed s.
Proof.
  intros [(k & Hk & ?) Hm Hl _ Hs] Hq.
  assert (slot_index jb q < length (jb_slots jb))%nat as Hlt.
  { unfold slot_index. rewrite Hl, Hm, Hk, Z.sub_1_r, <-Z.ones_equiv, Z.land_ones by lia.
    pose proof (Z.mod_pos_bound q (2 ^ k)). lia. }
  apply lookup_lt_is_Some_2 in Hlt as [s E]. exists s. unfold slot_at. rewrite E.
  split_and!; [done..|]. by eapply Forall_lookup_1.
Qed.

Lemma jb_typed_with jb idx s n :
  jb_typed jb → slot_typed s → u32 n → jb_typed (with_slot jb idx s n).
Proof.
  intros [Hc Hm Hl _ Hs] Ht Hn. split; simpl; [done|done|by rewrite length_insert|done|].
  by apply Forall_insert.
Qed.
Lemma jb_typed_cursor jb n p : jb_typed jb → u32 n → jb_typed (set_cursor jb n p).
Proof. intros [Hc Hm Hl _ Hs] Hn. by split. Qed.

Lemma jb_typed_push jb f :
  jb_typed jb → u32 (fr_sequence f) → ∃ r, JitterBuffer_push jb f = Val r ∧ jb_typed r.1.
Proof.
  intros Hj Hf.
  assert (∀ jb, jb_typed jb → ∃ r, push_store jb f = Val r ∧ jb_typed r.1) as Hst.
  { clear jb Hj. intros jb Hj. unfold push_store.
    destruct (slot_typed_at jb (fr_sequence f) Hj) as (s & -> & _); [ulia|].
    cbn [mbind checked_bind]. destruct (_ && _); eexists; (split; [done|]); [done|].
    apply jb_typed_with; [done|by split|apply Hj]. }
  unfold JitterBuffer_push. destruct (negb _); [by apply Hst, jb_typed_cursor|].
  destruct (_ <? _); [by eexists|]. destruct (_ <=? _); [by eexists|]. by apply Hst.
Qed.

Lemma jb_typed_pop jb : jb_typed jb → ∃ r, JitterBuffer_pop jb = Val r ∧ jb_typed r.1.
Proof.
  intros Hj. unfold JitterBuffer_pop. destruct (negb _); [by eexists|].
  destruct (slot_typed_at jb (jb_next_seq jb) Hj) as (s & -> & _ & Hs);
    [pose proof (jt_next _ Hj); ulia|].
  cbn [mbind checked_bind]. destruct (negb _); [by eexists|]. destruct (negb _); [by eexists|].
  eexists. split; [done|]. apply jb_typed_with; [done|split; [apply Hs|done]|apply wrap32_u32].
Qed.

Lemma jb_typed_pop_with_deadline jb now deadline :
  jb_typed jb → ∃ r, JitterBuffer_pop_with_deadline jb now deadline = Val r ∧ jb_typed r.1.
Proof.
  intros Hj. unfold JitterBuffer_pop_with_deadline.
  destruct (jb_typed_pop jb Hj) as ([jb' [f|]] & -> & Hj'); cbn [mbind checked_bind snd fst];
    [by eexists|]. simpl in Hj'. destruct (deadline <=? now); [|by eexists].
  unfold JitterBuffer_skip. destruct (negb _); [by eexists|].
  change (Z.to_nat 1) with 1%nat. cbn [skip_loop].
  destruct (slot_typed_at jb' (wrap32 (jb_next_seq jb' + 0)) Hj') as (s & -> & _ & Hs);
    [pose proof (wrap32_u32 (jb_next_seq jb' + 0)); ulia|].
  cbn [mbind checked_bind]. eexists. split; [done|]. apply jb_typed_cursor; [|apply wrap32_u32].
  apply jb_typed_with; [done|split; [apply Hs|done]|apply Hj'].
Qed.
