(* ===== verification/Ieee.v ===== *)
(** * IEEE-754 arithmetic of the metrics

    The [f32] and [f64] values of the metrics and congestion code, over the
    Standard Library's executable specification of binary floats (round to
    nearest even). *)

From Stdlib Require Import SpecFloat.
From S2P Require Import Prelude.

Definition f32_prec : Z := 24.
Definition f32_emax : Z := 128.
Definition f64_prec : Z := 53.
Definition f64_emax : Z := 1024.

Definition float : Type := spec_float.

(** [n as f32], [n as f64]: the nearest representable value. *)
Definition f32_of_Z (n : Z) : float := binary_normalize f32_prec f32_emax n 0 false.
Definition f64_of_Z (n : Z) : float := binary_normalize f64_prec f64_emax n 0 false.

Definition f32_add : float → float → float := SFadd f32_prec f32_emax.
Definition f32_sub : float → float → float := SFsub f32_prec f32_emax.
Definition f32_mul : float → float → float := SFmul f32_prec f32_emax.
Definition f32_div : float → float → float := SFdiv f32_prec f32_emax.
Definition f64_mul : float → float → float := SFmul f64_prec f64_emax.
Definition f64_div : float → float → float := SFdiv f64_prec f64_emax.

(** The literal [a/b] for integers that are exactly representable: the
    quotient is correctly rounded, as the literal is. *)
Definition f32_lit (a b : Z) : float := f32_div (f32_of_Z a) (f32_of_Z b).
Definition f64_lit (a b : Z) : float := f64_div (f64_of_Z a) (f64_of_Z b).

(** [x > y] on floats; false when either is NaN. *)
Definition f_gt (x y : float) : bool := SFltb y x.
Definition f_lt (x y : float) : bool := SFltb x y.

(** [x.clamp(min, max)] on floats; NaN passes through. *)
Definition f_clamp (x min max : float) : float :=
  let x := if f_lt x min then min else x in
  if f_gt x max then max else x.

(** The integer part of a finite value. *)
Definition f_trunc (m : positive) (e : Z) : Z :=
  if 0 <=? e then Z.pos m * 2 ^ e else Z.pos m / 2 ^ (- e).

(** [x as u32] / [x as u64]: truncation, saturating; NaN gives 0. *)
Definition f_to_uint (umax : Z) (x : float) : Z :=
  match x with
  | S754_nan => 0
  | S754_zero _ => 0
  | S754_infinity s => if s then 0 else umax
  | S754_finite s m e => if s then 0 else Z.min umax (f_trunc m e)
  end.

(** ** Small integers are exact in [f64] *)

Lemma digits2_pos_size p : Z.pos (digits2_pos p) = Z.log2 (Z.pos p) + 1.
Proof.
  induction p as [p IH|p IH|]; simpl digits2_pos; [| |done].
  - rewrite Pos2Z.inj_succ, IH, Pos2Z.inj_xI, Z.log2_succ_double; lia.
  - rewrite Pos2Z.inj_succ, IH, Pos2Z.inj_xO, Z.log2_double; lia.
Qed.

Lemma iter_xO_mul m k : Z.pos (Pos.iter xO m k) = Z.pos m * 2 ^ Z.pos k.
Proof.
  induction k as [|k IH] using Pos.peano_ind; [simpl; lia|].
  rewrite Pos.iter_succ, Pos2Z.inj_succ, Z.pow_succ_r by lia.
  rewrite Pos2Z.inj_xO, IH. lia.
Qed.

Lemma f64_of_Z_pos m :
  Z.pos m < 2 ^ 32 →
  ∃ k, (21 ≤ Z.pos k ≤ 52) ∧ Z.pos k = 52 - Z.log2 (Z.pos m)
    ∧ f64_of_Z (Z.pos m) = S754_finite false (Pos.iter xO m k) (- Z.pos k).
Proof.
  intros Hm.
  assert (0 ≤ Z.log2 (Z.pos m) < 32) as Hlog.
  { split; [apply Z.log2_nonneg|]. apply Z.log2_lt_pow2; lia. }
  assert (∃ k, 52 - Z.log2 (Z.pos m) = Z.pos k) as [k Hk].
  { destruct (52 - Z.log2 (Z.pos m)) as [|k|k] eqn:E; [lia|by exists k|lia]. }
  exists k. split; [lia|]. split; [done|].
  unfold f64_of_Z, binary_normalize, binary_round, fexp, SpecFloat.emin, f64_prec, f64_emax.
  rewrite digits2_pos_size.
  replace (Z.max _ _) with (- Z.pos k) by lia.
  unfold shl_align. replace (- Z.pos k - 0) with (Z.neg k) by lia.
  set (m' := Pos.iter xO m k).
  assert (Zdigits2 (Z.pos m') = 53) as Hd.
  { simpl Zdigits2. rewrite digits2_pos_size. unfold m'. rewrite iter_xO_mul.
    rewrite Z.log2_mul_pow2 by lia. lia. }
  unfold binary_round_aux, shr_fexp, fexp, SpecFloat.emin. rewrite Hd.
  replace (Z.max _ _ - - Z.pos k) with 0 by lia.
  cbn [shr shr_record_of_loc shr_m loc_of_shr_record round_nearest_even]. rewrite Hd.
  replace (Z.max _ _ - - Z.pos k) with 0 by lia. cbn [shr shr_m].
  rewrite (proj2 (Z.leb_le _ _)) by lia. done.
Qed.

Lemma f64_roundtrip n :
  0 ≤ n < 2 ^ 32 → f_to_uint u32_MAX (f64_of_Z n) = n.
Proof.
  intros Hn. destruct n as [|m|]; [done| |lia].
  destruct (f64_of_Z_pos m) as (k & Hk & _ & ->); [lia|]. unfold f_to_uint, f_trunc.
  rewrite (proj2 (Z.leb_gt _ _)), Z.opp_involutive, iter_xO_mul, Z.div_mul by lia.
  unfold u32_MAX. lia.
Qed.

(** ** Products

    Rounding a product to 53 bits moves it by less than one unit in the last
    place. *)

Lemma shr_1_half r : 0 ≤ shr_m r → shr_m (shr_1 r) = shr_m r / 2.
Proof.
  destruct r as [m b s]. simpl. intros Hm. destruct m as [|[p|p|]|p]; try done; simpl; try lia.
  - rewrite Pos2Z.inj_xI. Z.div_mod_to_equations. lia.
  - rewrite Pos2Z.inj_xO. Z.div_mod_to_equations. lia.
Qed.

Lemma iter_shr_div p r : 0 ≤ shr_m r → shr_m (SpecFloat.iter_pos shr_1 p r) = shr_m r / 2 ^ Z.pos p.
Proof.
  revert r. induction p as [p IH|p IH|]; intros r Hr; cbn [SpecFloat.iter_pos].
  - assert (0 ≤ shr_m (shr_1 r)) as H1 by (rewrite shr_1_half by done; apply Z.div_pos; lia).
    assert (0 ≤ shr_m (SpecFloat.iter_pos shr_1 p (shr_1 r))) as H2
      by (rewrite IH by done; apply Z.div_pos; lia).
    rewrite !IH, shr_1_half, !Z.div_div by (done || lia). f_equal.
    replace (Z.pos p~1) with (1 + Z.pos p + Z.pos p) by lia. rewrite !Z.pow_add_r by lia. lia.
  - assert (0 ≤ shr_m (SpecFloat.iter_pos shr_1 p r)) as H2
      by (rewrite IH by done; apply Z.div_pos; lia).
    rewrite !IH, !Z.div_div by (done || lia). f_equal.
    replace (Z.pos p~0) with (Z.pos p + Z.pos p) by lia. by rewrite Z.pow_add_r by lia.
  - by rewrite shr_1_half.
Qed.

Lemma round_nearest_even_bounds m l : m ≤ round_nearest_even m l ≤ m + 1.
Proof. destruct l as [|[]]; simpl; try lia. destruct (Z.even m); lia. Qed.

(** The integer part of a rounded product with [n] bits to drop, of which the
    exponent leaves at least two fractional bits. *)
Lemma round_product_trunc mx e n :
  Zdigits2 (Z.pos mx) = 53 + Z.pos n → -1000 < e → e + Z.pos n < -1 →
  ∃ r, Z.pos mx / 2 ^ Z.pos n ≤ r ≤ Z.pos mx / 2 ^ Z.pos n + 1
    ∧ f_to_uint u32_MAX (binary_round_aux f64_prec f64_emax false (Z.pos mx) e loc_Exact)
      = Z.min u32_MAX (r / 2 ^ (- (e + Z.pos n))).
Proof.
  intros Hd He Hen.
  assert (2 ^ 52 * 2 ^ Z.pos n ≤ Z.pos mx < 2 ^ 53 * 2 ^ Z.pos n) as Hmx.
  { simpl in Hd. rewrite digits2_pos_size in Hd.
    pose proof (Z.log2_spec (Z.pos mx)) as Hl. rewrite <-!Z.pow_add_r by lia.
    replace (52 + Z.pos n) with (Z.log2 (Z.pos mx)) by lia.
    replace (53 + Z.pos n) with (Z.succ (Z.log2 (Z.pos mx))) by lia. lia. }
  set (q := Z.pos mx / 2 ^ Z.pos n).
  assert (2 ^ 52 ≤ q < 2 ^ 53) as Hq.
  { unfold q. split; [apply Z.div_le_lower_bound; lia|apply Z.div_lt_upper_bound; lia]. }
  unfold binary_round_aux, shr_fexp at 1, fexp, SpecFloat.emin, f64_prec, f64_emax. rewrite Hd.
  replace (Z.max _ _ - e) with (Z.pos n) by lia. cbn [shr shr_record_of_loc].
  set (mrs := SpecFloat.iter_pos shr_1 n _).
  assert (shr_m mrs = q) as Hm by (unfold mrs; by rewrite iter_shr_div).
  rewrite Hm. set (r := round_nearest_even q _).
  assert (q ≤ r ≤ q + 1) as Hr by apply round_nearest_even_bounds.
  exists r. split; [done|]. clearbody r. clear mrs Hm.
  unfold shr_fexp, fexp, SpecFloat.emin. destruct r as [|r|]; [lia| |lia].
  destruct (decide (Z.pos r = 2 ^ 53)) as [Hov|Hov].
  - assert (r = 9007199254740992)%positive as -> by lia.
    change (Zdigits2 9007199254740992) with 54.
    replace (Z.max _ _ - (e + Z.pos n)) with 1 by lia. cbn [shr].
    change (shr_m (SpecFloat.iter_pos shr_1 1 (shr_record_of_loc 9007199254740992 loc_Exact)))
      with 4503599627370496. cbn iota.
    rewrite (proj2 (Z.leb_le _ _)) by lia. unfold f_to_uint, f_trunc.
    rewrite (proj2 (Z.leb_gt _ _)) by lia. f_equal.
    change 9007199254740992 with (4503599627370496 * 2).
    replace (- (e + Z.pos n)) with (- (e + Z.pos n + 1) + 1) by lia.
    rewrite Z.pow_add_r, Z.div_mul_cancel_r by lia. done.
  - assert (Zdigits2 (Z.pos r) = 53) as Hd'.
    { simpl. rewrite digits2_pos_size. enough (Z.log2 (Z.pos r) = 52) by lia.
      apply Z.log2_unique; lia. }
    rewrite Hd'. replace (Z.max _ _ - (e + Z.pos n)) with 0 by lia.
    cbn [shr shr_m shr_record_of_loc]. rewrite (proj2 (Z.leb_le _ _)) by lia.
    unfold f_to_uint, f_trunc. by rewrite (proj2 (Z.leb_gt _ _)) by lia.
Qed.

(** [(c as f64 * l) as u32] for a literal [l = ml * 2^-53] below 1. *)
(** A product of two 53-bit significands has 105 or 106 bits. *)
Lemma product_digits mx a b :
  Z.pos mx = a * b → 2 ^ 52 ≤ a < 2 ^ 53 → 2 ^ 52 ≤ b < 2 ^ 53 →
  ∃ n, (52 ≤ Z.pos n ≤ 53) ∧ Zdigits2 (Z.pos mx) = 53 + Z.pos n.
Proof.
  intros Hmx Ha Hb. simpl Zdigits2. rewrite digits2_pos_size.
  assert (2 ^ 104 ≤ Z.pos mx < 2 ^ 106) as Hm.
  { rewrite Hmx. split.
    - change (2 ^ 104) with (2 ^ 52 * 2 ^ 52). apply Z.mul_le_mono_nonneg; lia.
    - change (2 ^ 106) with (2 ^ 53 * 2 ^ 53). apply Z.mul_lt_mono_nonneg; lia. }
  destruct (decide (Z.pos mx < 2 ^ 105)).
  - exists 52%positive. split; [lia|]. rewrite (Z.log2_unique _ 104); lia.
  - exists 53%positive. split; [lia|]. rewrite (Z.log2_unique _ 105); lia.
Qed.

Lemma div_bounds a b : 0 < b → a / b * b ≤ a < (a / b + 1) * b.
Proof. intros Hb. pose proof (Z.div_mod a b). pose proof (Z.mod_pos_bound a b). lia. Qed.

Lemma f64_scale_trunc c ml :
  0 < c < 2 ^ 32 → 2 ^ 52 ≤ Z.pos ml < 2 ^ 53 →
  let v := f_to_uint u32_MAX (f64_mul (f64_of_Z c) (S754_finite false ml (-53))) in
  v * 2 ^ 53 ≤ c * Z.pos ml + 2 ^ 32 ∧ c * Z.pos ml < (v + 1) * 2 ^ 53.
Proof.
  intros Hc Hml. destruct c as [|c|]; [lia| |lia].
  destruct (f64_of_Z_pos c) as (k & Hk & Hlog & ->); [lia|].
  unfold f64_mul, SFmul. cbn [xorb].
  set (mx := (Pos.iter xO c k * ml)%positive).
  assert (Z.pos mx = Z.pos c * 2 ^ Z.pos k * Z.pos ml) as Hmx
    by (unfold mx; by rewrite Pos2Z.inj_mul, iter_xO_mul).
  assert (2 ^ 52 ≤ Z.pos c * 2 ^ Z.pos k < 2 ^ 53) as Hck.
  { pose proof (Z.log2_spec (Z.pos c)) as Hl.
    replace 52 with (Z.log2 (Z.pos c) + Z.pos k) by lia.
    replace 53 with (Z.succ (Z.log2 (Z.pos c)) + Z.pos k) by lia.
    rewrite !Z.pow_add_r by lia. nia. }
  destruct (product_digits mx _ _ Hmx Hck Hml) as (n & Hn & Hdig).
  destruct (round_product_trunc mx (- Z.pos k + -53) n) as (r & Hr & ->); [done|lia..|].
  replace (- (- Z.pos k + -53 + Z.pos n)) with (Z.pos k + (53 - Z.pos n)) by lia.
  set (w := Z.pos k + (53 - Z.pos n)). set (v := r / 2 ^ w).
  assert (2 ^ w * 2 ^ Z.pos n = 2 ^ 53 * 2 ^ Z.pos k) as Hpow.
  { rewrite <-!Z.pow_add_r by (unfold w; lia). f_equal. unfold w. lia. }
  assert (0 < 2 ^ w ∧ 0 < 2 ^ Z.pos n ∧ 0 < 2 ^ Z.pos k) as (Hw0 & Hn0 & Hk0)
    by (unfold w; lia).
  assert (2 ^ Z.pos n ≤ 2 ^ 32 * 2 ^ Z.pos k) as Hnk.
  { rewrite <-Z.pow_add_r by lia. apply Z.pow_le_mono_r; lia. }
  pose proof (div_bounds r (2 ^ w) Hw0) as Hv. fold v in Hv.
  pose proof (div_bounds (Z.pos mx) (2 ^ Z.pos n) Hn0) as Hq.
  set (q := Z.pos mx / 2 ^ Z.pos n) in *.
  assert (v * 2 ^ 53 ≤ Z.pos c * Z.pos ml + 2 ^ 32) as Hup.
  { apply (Z.mul_le_mono_pos_r _ _ (2 ^ Z.pos k)); [done|].
    rewrite <-Z.mul_assoc, <-Hpow. nia. }
  assert (Z.pos c * Z.pos ml < (v + 1) * 2 ^ 53) as Hlo.
  { apply (Z.mul_lt_mono_pos_r (2 ^ Z.pos k)); [done|].
    rewrite <-(Z.mul_assoc (v + 1)), <-Hpow. nia. }
  assert (v ≤ u32_MAX) by (unfold u32_MAX; nia).
  rewrite Z.min_r by done. done.
Qed.
