(* ===== verification/Metrics.v ===== *)
(** * Session metrics

    Models the crate [gravital-talk-metrics]: the loss bitmap, the jitter and
    RTT filters, the counters, the MOS estimate and the snapshot.  The atomics
    are single-producer cells, so that every [record] is one step on the
    state.  [overflow_checks] is the build's setting: with it an arithmetic
    overflow panics, without it the operation wraps. *)

From S2P Require Import Prelude.
From S2P Require Import CoreTypes.
From S2P Require Import Ieee.

(** ** LossTracker (loss.rs) *)

Record LossTracker : Type := mkLossTracker {
  lt_bitmap : Z;
  lt_high_seq : Z;
  lt_total_packets : Z;
  lt_reorder_count : Z;
  lt_initialised : Z;
}.

Definition LossTracker_new : LossTracker := mkLossTracker 0 0 0 0 0.

(** [x << n] on [u64]: a shift by the width or more overflows. *)
Definition u64_shl (overflow_checks : bool) (x n : Z) : checked Z :=
  if n <? 64 then Val (wrap64 (Z.shiftl x n))
  else if overflow_checks then Panic else Val (wrap64 (Z.shiftl x (n mod 64))).

(** [x + y] on [u64]. *)
Definition u64_add (overflow_checks : bool) (x y : Z) : checked Z :=
  if overflow_checks && (u64_MAX <? x + y) then Panic else Val (wrap64 (x + y)).

Lemma u64_add_fits overflow_checks x y : u64 (x + y) → u64_add overflow_checks x y = Val (x + y).
Proof.
  intros Hu. unfold u64_add. rewrite (proj2 (Z.ltb_ge _ _)) by ulia. rewrite andb_false_r.
  by rewrite wrap64_id.
Qed.

(** [-x as u32] for an [i32]. *)
Definition i32_neg (overflow_checks : bool) (x : Z) : checked Z :=
  if x =? -2147483648 then if overflow_checks then Panic else Val 2147483648
  else Val (wrap32 (- x)).

Definition LossTracker_record (overflow_checks : bool) (self : LossTracker) (sequence : Z) :
    checked LossTracker :=
  if lt_initialised self =? 0 then
    Val (mkLossTracker 1 sequence 1 (lt_reorder_count self) 1)
  else
    let high := lt_high_seq self in
    let diff := as_i32 (wrap32 (sequence - high)) in
    self ←
      (if 0 <? diff then
         let shift := Z.min diff LOSS_WINDOW_SIZE in
         bm ← u64_shl overflow_checks (lt_bitmap self) shift;
         Val (mkLossTracker (Z.lor bm 1) sequence (lt_total_packets self)
                (lt_reorder_count self) (lt_initialised self))
       else if diff <? 0 then
         gap ← i32_neg overflow_checks diff;
         let bm := lt_bitmap self in
         let bm :=
           if gap <? LOSS_WINDOW_SIZE then
             let bit := Z.shiftl 1 gap in
             if Z.land bm bit =? 0 then Z.lor bm bit else bm
           else bm in
         Val (mkLossTracker bm (lt_high_seq self) (lt_total_packets self)
                (wrap32 (lt_reorder_count self + 1)) (lt_initialised self))
       else Val self);
    Val (mkLossTracker (lt_bitmap self) (lt_high_seq self)
           (wrap32 (lt_total_packets self + 1)) (lt_reorder_count self) (lt_initialised self)).

(** [bm.count_ones()] *)
Definition count_ones (bm : Z) : nat :=
  length (filter (λ i, Z.testbit bm (Z.of_nat i) = true) (seq 0 64)).

(** The [lost] of [loss_percent]. *)
Definition LossTracker_lost (self : LossTracker) : Z :=
  Z.max 0 (LOSS_WINDOW_SIZE - Z.of_nat (count_ones (lt_bitmap self))).

Definition LossTracker_loss_percent (self : LossTracker) : float :=
  if lt_initialised self =? 0 then f32_of_Z 0
  else f32_mul (f32_div (f32_of_Z (LossTracker_lost self)) (f32_of_Z LOSS_WINDOW_SIZE))
         (f32_of_Z 100).

Definition LossTracker_reorder_percent (self : LossTracker) : float :=
  if lt_total_packets self =? 0 then f32_of_Z 0
  else f32_mul (f32_div (f32_of_Z (lt_reorder_count self)) (f32_of_Z (lt_total_packets self)))
         (f32_of_Z 100).

(** ** JitterEstimator (jitter.rs) *)

Definition i64_MIN : Z := -9223372036854775808.
Definition i64_MAX : Z := 9223372036854775807.

Record JitterEstimator : Type := mkJitterEstimator {
  je_jitter_us : Z;
  je_prev_diff_us : Z;
}.

Definition JitterEstimator_new : JitterEstimator := mkJitterEstimator 0 i64_MIN.

(** [a - b] on [i64]. *)
Definition i64_sub (overflow_checks : bool) (a b : Z) : checked Z :=
  if (i64_MIN <=? a - b) && (a - b <=? i64_MAX) then Val (a - b)
  else if overflow_checks then Panic else Val (as_i64 (wrap64 (a - b))).

Definition JitterEstimator_record (overflow_checks : bool) (self : JitterEstimator)
    (send_ts_us recv_ts_us : Z) : checked JitterEstimator :=
  current_diff ← i64_sub overflow_checks (as_i64 recv_ts_us) (as_i64 send_ts_us);
  let prev := je_prev_diff_us self in
  if prev =? i64_MIN then Val (mkJitterEstimator (je_jitter_us self) current_diff)
  else
    delta ← i64_sub overflow_checks current_diff prev;
    let d := Z.abs delta in
    let j := je_jitter_us self in
    let new_j := if j <? d then j + (d - j) / 16 else j - (j - d) / 16 in
    let clamped := Z.min new_j u32_MAX in
    Val (mkJitterEstimator clamped current_diff).

Definition JitterEstimator_current_us (self : JitterEstimator) : Z := je_jitter_us self.
Definition JitterEstimator_current_ms (self : JitterEstimator) : float :=
  f32_div (f32_of_Z (JitterEstimator_current_us self)) (f32_of_Z 1000).

(** ** RttEstimator (rtt.rs) *)

Record RttEstimator : Type := mkRttEstimator { re_rtt_us : Z }.

Definition ALPHA_NUM : Z := 1.
Definition ALPHA_DEN : Z := 8.

Definition RttEstimator_new : RttEstimator := mkRttEstimator u32_MAX.

Definition RttEstimator_record (self : RttEstimator) (sample_us : Z) : RttEstimator :=
  let prev := re_rtt_us self in
  if prev =? u32_MAX then mkRttEstimator sample_us
  else
    let diff :=
      if prev <? sample_us then
        let d := sample_us - prev in prev + d * ALPHA_NUM / ALPHA_DEN
      else
        let d := prev - sample_us in Z.max 0 (prev - d * ALPHA_NUM / ALPHA_DEN) in
    mkRttEstimator (Z.min diff u32_MAX).

Definition RttEstimator_current_us (self : RttEstimator) : option Z :=
  if re_rtt_us self =? u32_MAX then None else Some (re_rtt_us self).

Definition RttEstimator_current_ms (self : RttEstimator) : float :=
  from_option (λ us, f32_div (f32_of_Z us) (f32_of_Z 1000)) (f32_of_Z 0)
    (RttEstimator_current_us self).

(** ** Counters (counters.rs) *)

Record Counters : Type := mkCounters {
  packets_sent : Z;
  packets_received : Z;
  bytes_sent : Z;
  bytes_received : Z;
  integrity_errors : Z;
}.

Definition Counters_new : Counters := mkCounters 0 0 0 0 0.

Definition Counters_record_sent (self : Counters) (bytes : Z) : Counters :=
  mkCounters (wrap64 (packets_sent self + 1)) (packets_received self)
    (wrap64 (bytes_sent self + bytes)) (bytes_received self) (integrity_errors self).

Definition Counters_record_received (self : Counters) (bytes : Z) : Counters :=
  mkCounters (packets_sent self) (wrap64 (packets_received self + 1))
    (bytes_sent self) (wrap64 (bytes_received self + bytes)) (integrity_errors self).

Definition Counters_record_integrity_error (self : Counters) : Counters :=
  mkCounters (packets_sent self) (packets_received self) (bytes_sent self)
    (bytes_received self) (wrap64 (integrity_errors self + 1)).

(** ** Quality (quality.rs) *)

Definition r_to_mos (r : float) : float :=
  if f_lt r (f32_of_Z 0) then f32_of_Z 1
  else if f_gt r (f32_of_Z 100) then f32_lit 45 10
  else
    f32_add (f32_add (f32_of_Z 1) (f32_mul (f32_lit 35 1000) r))
      (f32_mul (f32_mul (f32_mul r (f32_sub r (f32_of_Z 60))) (f32_sub (f32_of_Z 100) r))
         (f32_lit 7 1000000)).

Definition estimate_mos (rtt_ms loss_percent jitter_ms : float) : float :=
  let r := f32_of_Z 93 in
  let one_way := f32_div rtt_ms (f32_of_Z 2) in
  let r :=
    if f_gt one_way (f32_of_Z 160) then
      f32_sub r (f32_add (f32_mul (f32_lit 24 1000) one_way)
                   (f32_mul (f32_lit 11 100) (f32_sub one_way (f32_lit 1773 10))))
    else f32_sub r (f32_mul (f32_lit 24 1000) one_way) in
  let r := f32_sub r (f32_mul loss_percent (f32_lit 25 10)) in
  let r :=
    if f_gt jitter_ms (f32_of_Z 30)
    then f32_sub r (f32_mul (f32_sub jitter_ms (f32_of_Z 30)) (f32_lit 5 10)) else r in
  f_clamp (r_to_mos r) (f32_of_Z 1) (f32_of_Z 5).

(** ** Metrics and its snapshot (lib.rs, snapshot.rs) *)

Record Metrics : Type := mkMetrics {
  m_rtt : RttEstimator;
  m_jitter : JitterEstimator;
  m_loss : LossTracker;
  m_counters : Counters;
}.

Definition Metrics_new : Metrics :=
  mkMetrics RttEstimator_new JitterEstimator_new LossTracker_new Counters_new.

Record MetricsSnapshot : Type := mkMetricsSnapshot {
  ms_rtt_ms : float;
  ms_jitter_ms : float;
  ms_loss_percent : float;
  ms_reorder_percent : float;
  ms_buffer_fill_percent : float;
  ms_estimated_mos : float;
  ms_packets_sent : Z;
  ms_packets_received : Z;
  ms_bytes_sent : Z;
  ms_bytes_received : Z;
}.

Definition Metrics_snapshot (self : Metrics) (buffer_fill_percent : float) : MetricsSnapshot :=
  let rtt_ms := RttEstimator_current_ms (m_rtt self) in
  let jitter_ms := JitterEstimator_current_ms (m_jitter self) in
  let loss_percent := LossTracker_loss_percent (m_loss self) in
  let reorder_percent := LossTracker_reorder_percent (m_loss self) in
  let estimated_mos := estimate_mos rtt_ms loss_percent jitter_ms in
  mkMetricsSnapshot rtt_ms jitter_ms loss_percent reorder_percent buffer_fill_percent
    estimated_mos (packets_sent (m_counters self)) (packets_received (m_counters self))
    (bytes_sent (m_counters self)) (bytes_received (m_counters self)).

(** ** The loss window *)

(** A history of received packets, as unwrapped sequence numbers: each one is
    less than a window ahead of the newest seen and less than 2^31 behind. *)
Fixpoint paced (newest : Z) (xs : list Z) : Prop :=
  match xs with
  | [] => True
  | x :: xs => -2147483648 < x - newest < LOSS_WINDOW_SIZE ∧ paced (Z.max newest x) xs
  end.

Fixpoint record_all (oc : bool) (t : LossTracker) (xs : list Z) : checked LossTracker :=
  match xs with
  | [] => Val t
  | x :: xs => t ← LossTracker_record oc t (wrap32 x); record_all oc t xs
  end.

Record loss_inv (t : LossTracker) (newest : Z) (seen : list Z) : Prop := {
  li_init : lt_initialised t = 1;
  li_high : lt_high_seq t = wrap32 newest;
  li_bits i : 0 ≤ i < 64 → Z.testbit (lt_bitmap t) i = true ↔ newest - i ∈ seen;
  li_newest : newest ∈ seen;
  li_seen x : x ∈ seen → x ≤ newest;
}.

Lemma as_i32_diff x y :
  -2147483648 < x - y < 2147483648 → as_i32 (wrap32 (wrap32 x - wrap32 y)) = x - y.
Proof.
  intros Hd. unfold as_i32. destruct (Z.ltb_spec (wrap32 (wrap32 x - wrap32 y)) 2147483648); dlia.
Qed.

Lemma testbit_wrap64 x i : 0 ≤ i < 64 → Z.testbit (wrap64 x) i = Z.testbit x i.
Proof.
  intros. unfold wrap64. change 18446744073709551616 with (2 ^ 64).
  apply Z.mod_pow2_bits_low. lia.
Qed.

Lemma testbit_1 i : 0 ≤ i → Z.testbit 1 i = (i =? 0).
Proof.
  intros. destruct (Z.eqb_spec i 0) as [->|]; [done|]. by rewrite Z.bits_above_log2 by (simpl; lia).
Qed.

(** Setting the bit of a late packet, unless it is set already. *)
Lemma late_bit bitmap d i :
  0 ≤ d → 0 ≤ i →
  Z.testbit (if Z.land bitmap (Z.shiftl 1 d) =? 0 then Z.lor bitmap (Z.shiftl 1 d) else bitmap) i
  = true ↔ Z.testbit bitmap i = true ∨ i = d.
Proof.
  intros Hd Hi.
  assert (∀ j, 0 ≤ j → Z.testbit (Z.shiftl 1 d) j = (j =? d)) as Hbit.
  { intros j Hj. rewrite Z.shiftl_1_l, Z.pow2_bits_eqb by lia. apply Z.eqb_sym. }
  destruct (Z.eqb_spec (Z.land bitmap (Z.shiftl 1 d)) 0) as [_|Hnz].
  - by rewrite Z.lor_spec, Hbit, orb_true_iff, Z.eqb_eq by lia.
  - split; [by left|]. intros [?| ->]; [done|].
    destruct (Z.testbit bitmap d) eqn:E; [done|]. destruct Hnz.
    apply Z.bits_inj'. intros j Hj. rewrite Z.land_spec, Hbit, Z.bits_0 by done.
    destruct (Z.eqb_spec j d) as [->|]; [by rewrite E|apply andb_false_r].
Qed.

Lemma loss_inv_step oc t newest seen x :
  loss_inv t newest seen → -2147483648 < x - newest < LOSS_WINDOW_SIZE →
  ∃ t', LossTracker_record oc t (wrap32 x) = Val t'
    ∧ loss_inv t' (Z.max newest x) (x :: seen).
Proof.
  unfold LOSS_WINDOW_SIZE. intros [Hi Hh Hb Hn Hs] Hx. unfold LossTracker_record.
  rewrite Hi, Hh, as_i32_diff by lia. cbn [Z.eqb].
  destruct (Z.ltb_spec 0 (x - newest)) as [Hf|Hf]; [|destruct (Z.ltb_spec (x - newest) 0)].
  - unfold LOSS_WINDOW_SIZE. rewrite Z.min_l by lia. unfold u64_shl.
    rewrite (proj2 (Z.ltb_lt _ _)) by lia. cbn [mbind checked_bind].
    eexists. split; [done|]. rewrite Z.max_r by lia.
    split; cbn [lt_initialised lt_high_seq lt_bitmap lt_total_packets lt_reorder_count]; try done.
    + intros i Hlt. rewrite Z.lor_spec, testbit_wrap64, Z.shiftl_spec, testbit_1 by lia.
      rewrite orb_true_iff, Z.eqb_eq, elem_of_cons.
      destruct (decide (i < x - newest)) as [Hlo|Hhi].
      * rewrite Z.testbit_neg_r by lia. split.
        -- intros [[=]|Hz]. left. lia.
        -- intros [Heq|Hin]; [right; lia|]. apply Hs in Hin. lia.
      * rewrite Hb by lia. replace (newest - (i - (x - newest))) with (x - i) by lia.
        split; [intros [?|?]; [by right|left; lia]|intros [?|?]; [right; lia|by left]].
    + left.
    + intros y [->|Hin]%elem_of_cons; [lia|]. apply Hs in Hin. lia.
  - unfold i32_neg. rewrite (proj2 (Z.eqb_neq _ _)) by lia. cbn [mbind checked_bind].
    rewrite wrap32_id by ulia. eexists. split; [done|]. rewrite Z.max_l by lia.
    split; cbn [lt_initialised lt_high_seq lt_bitmap lt_total_packets lt_reorder_count]; try done.
    + intros i Hlt. unfold LOSS_WINDOW_SIZE. rewrite elem_of_cons, <-Hb by done.
      destruct (Z.ltb_spec (- (x - newest)) 64) as [Hg|Hg];
        [|split; [by right|intros [?|?]; [lia|done]]].
      rewrite late_bit by lia.
      split; [intros [?|?]; [by right|left; lia]|intros [?|?]; [right; lia|by left]].
    + by right.
    + intros y [->|Hin]%elem_of_cons; [lia|]. by apply Hs.
  - cbn [mbind checked_bind]. eexists. split; [done|].
    assert (x = newest) as -> by lia. rewrite Z.max_id.
    split; cbn [lt_initialised lt_high_seq lt_bitmap lt_total_packets lt_reorder_count]; try done.
    + intros i Hlt. rewrite Hb, elem_of_cons by done.
      split; [by right|intros [Heq|?]; [by rewrite Heq|done]].
    + left.
    + intros y [->|Hin]%elem_of_cons; [lia|]. by apply Hs.
Qed.

Lemma loss_inv_run oc xs t newest seen :
  loss_inv t newest seen → paced newest xs →
  ∃ t', record_all oc t xs = Val t'
    ∧ loss_inv t' (foldl Z.max newest xs) (rev xs ++ seen).
Proof.
  revert t newest seen. induction xs as [|x xs IH]; intros t newest seen Ht Hp; simpl.
  { by exists t. }
  destruct Hp as [Hx Hp].
  destruct (loss_inv_step oc t newest seen x Ht Hx) as (t1 & -> & Ht1).
  destruct (IH t1 _ _ Ht1 Hp) as (t2 & Hr & Ht2). exists t2. split; [done|].
  by rewrite <-app_assoc.
Qed.

(** The packets of the last 64 that never arrived. *)
Definition lost_of (newest : Z) (xs : list Z) : nat :=
  length (filter (λ i, newest - Z.of_nat i ∉ xs) (seq 0 64)).

(** For every history of received packets in which no packet is 64 or
    more ahead of the newest one, in either build and across the 32-bit
    wrap-around, the tracker does not panic, its bitmap is exactly the set of
    received packets among the last 64, and the number of losses it reports
    is the number of packets of the last 64 that did not arrive. *)
Theorem loss_window_exact oc x0 xs :
  paced x0 xs →
  ∃ t, record_all oc LossTracker_new (x0 :: xs) = Val t
    ∧ (∀ i, 0 ≤ i < 64 →
         Z.testbit (lt_bitmap t) i = true ↔ foldl Z.max x0 xs - i ∈ x0 :: xs)
    ∧ LossTracker_lost t = Z.of_nat (lost_of (foldl Z.max x0 xs) (x0 :: xs)).
Proof.
  intros Hp. cbn [record_all].
  change (LossTracker_record oc LossTracker_new (wrap32 x0))
    with (Val (mkLossTracker 1 (wrap32 x0) 1 0 1)). cbn [mbind checked_bind].
  set (t0 := mkLossTracker 1 (wrap32 x0) 1 0 1).
  assert (loss_inv t0 x0 [x0]) as H0.
  { split; try done; cbn [lt_bitmap t0].
    - intros i Hi. rewrite testbit_1, Z.eqb_eq, list_elem_of_singleton by lia. lia.
    - left.
    - intros x ->%list_elem_of_singleton. done. }
  destruct (loss_inv_run oc xs t0 x0 [x0] H0 Hp) as (t & Hr & Ht). exists t. split; [done|].
  assert (∀ i, 0 ≤ i < 64 →
    Z.testbit (lt_bitmap t) i = true ↔ foldl Z.max x0 xs - i ∈ x0 :: xs) as Hb.
  { intros i Hi. rewrite (li_bits _ _ _ Ht i Hi).
    rewrite elem_of_app, list_elem_of_singleton, elem_of_cons, !list_elem_of_In, <-in_rev. tauto. }
  split; [done|]. unfold LossTracker_lost, count_ones, lost_of, LOSS_WINDOW_SIZE.
  pose proof (count_filter (λ i, Z.testbit (lt_bitmap t) (Z.of_nat i) = true) (seq 0 64)) as Hc.
  rewrite length_seq in Hc.
  rewrite (filter_ext_in (λ i, foldl Z.max x0 xs - Z.of_nat i ∉ x0 :: xs)
             (λ i, Z.testbit (lt_bitmap t) (Z.of_nat i) ≠ true)); [lia|].
  intros i Hi. apply elem_of_seq in Hi. rewrite Hb by lia. done.
Qed.

Lemma loss_window_exact_witness :
  paced 4294967290 [4294967291; 4294967295; 4294967293; 4294967300]
  ∧ ∃ t, record_all true LossTracker_new
           [4294967290; 4294967291; 4294967295; 4294967293; 4294967300] = Val t
      ∧ LossTracker_lost t = 59.
Proof.
  assert (paced 4294967290 [4294967291; 4294967295; 4294967293; 4294967300]) as Hp
    by (simpl; unfold LOSS_WINDOW_SIZE; lia).
  split; [exact Hp|]. destruct (loss_window_exact true _ _ Hp) as (t & Hr & _ & Hl).
  exists t. split; [exact Hr|]. rewrite Hl. vm_compute. reflexivity.
Defined.

(** A burst of 64 or more consecutive losses is not recorded: with
    overflow checks the tracker panics on the next packet, and without them
    the shift amount 64 is taken modulo 64, so that the bitmap keeps the bits
    of packets that have left the window; a full window still reports no
    loss at all. *)
Theorem loss_burst_mishandled t sequence :
  lt_initialised t ≠ 0 →
  64 ≤ as_i32 (wrap32 (sequence - lt_high_seq t)) →
  LossTracker_record true t sequence = Panic
  ∧ ∃ t', LossTracker_record false t sequence = Val t'
      ∧ lt_high_seq t' = sequence
      ∧ (u64 (lt_bitmap t) → lt_bitmap t' = Z.lor (lt_bitmap t) 1)
      ∧ (lt_bitmap t = u64_MAX → LossTracker_lost t' = 0).
Proof.
  intros Hi Hd. unfold LossTracker_record. rewrite (proj2 (Z.eqb_neq _ _)) by done.
  set (diff := as_i32 _) in *. rewrite (proj2 (Z.ltb_lt 0 diff)) by lia.
  unfold LOSS_WINDOW_SIZE. rewrite (Z.min_r diff) by lia. unfold u64_shl. cbn [Z.ltb Z.compare].
  cbn [mbind checked_bind]. split; [done|]. change (64 mod 64) with 0. rewrite Z.shiftl_0_r.
  eexists. split; [done|]. split; [done|].
  cbn [lt_initialised lt_high_seq lt_bitmap lt_total_packets lt_reorder_count].
  split; [by intros ?%wrap64_id; f_equal|]. intros Hb. rewrite Hb. vm_compute. reflexivity.
Qed.

Lemma loss_burst_mishandled_witness :
  let t := mkLossTracker u64_MAX 63 64 0 1 in
  LossTracker_record true t 1000 = Panic
  ∧ ∃ t', LossTracker_record false t 1000 = Val t' ∧ LossTracker_lost t' = 0.
Proof.
  intros t. destruct (loss_burst_mishandled t 1000) as (? & t' & ? & _ & _ & Hl);
    [done|vm_compute; discriminate|].
  split; [assumption|]. exists t'. split; [assumption|by apply Hl].
Defined.

(** ** The RTT filter *)

Definition rtt_samples (self : RttEstimator) (n : nat) (sample : Z) : RttEstimator :=
  Nat.iter n (λ r, RttEstimator_record r sample) self.

Lemma rtt_record_step prev s :
  u32 s → s ≠ u32_MAX → u32 prev → prev ≠ u32_MAX →
  let new := re_rtt_us (RttEstimator_record (mkRttEstimator prev) s) in
  Z.min prev s ≤ new ≤ Z.max prev s ∧ Z.abs (new - s) = Z.abs (prev - s) - Z.abs (prev - s) / 8.
Proof.
  intros Hs Hsm Hp Hpm. unfold RttEstimator_record, ALPHA_NUM, ALPHA_DEN. cbn [re_rtt_us].
  rewrite (proj2 (Z.eqb_neq _ _)) by done. rewrite !Z.mul_1_r.
  destruct (Z.ltb_spec prev s); cbn [re_rtt_us]; dlia.
Qed.

Lemma rtt_samples_step prev s n :
  u32 s → s ≠ u32_MAX → u32 prev → prev ≠ u32_MAX →
  let v := re_rtt_us (rtt_samples (mkRttEstimator prev) n s) in
  u32 v ∧ v ≠ u32_MAX ∧ (Z.abs (v - s) < 8 ∨ Z.abs (v - s) + Z.of_nat n ≤ Z.abs (prev - s)).
Proof.
  intros Hs Hsm Hp Hpm. induction n as [|n (IHu & IHm & IH)].
  { split_and!; [done..|]. right. simpl. lia. }
  unfold rtt_samples in *. rewrite Nat.iter_succ.
  set (r := Nat.iter n _ _) in *. destruct r as [v]. cbn [re_rtt_us] in *.
  destruct (rtt_record_step v s) as [Hb Ha]; [done..|].
  set (w := re_rtt_us (RttEstimator_record _ _)) in *. split_and!; [ulia..|].
  destruct IH as [IH|IH]; [left; dlia|].
  destruct (decide (Z.abs (v - s) < 8)); [left; dlia|right; dlia].
Qed.

(** The RTT estimate is a contraction towards the samples: each update
    stays between the previous estimate and the sample and removes exactly
    one eighth (rounded down) of the error, never reaching the "no samples"
    sentinel; under a constant sample the estimate is within 8 microseconds
    after at most as many samples as the initial error. *)
Theorem rtt_ewma_converges prev s :
  u32 s → s ≠ u32_MAX → u32 prev → prev ≠ u32_MAX →
  (let new := re_rtt_us (RttEstimator_record (mkRttEstimator prev) s) in
   Z.min prev s ≤ new ≤ Z.max prev s
   ∧ Z.abs (new - s) = Z.abs (prev - s) - Z.abs (prev - s) / 8)
  ∧ (∀ n, Z.abs (prev - s) ≤ Z.of_nat n →
       ∃ v, RttEstimator_current_us (rtt_samples (mkRttEstimator prev) n s) = Some v
         ∧ Z.abs (v - s) < 8)
  ∧ RttEstimator_current_us (RttEstimator_record RttEstimator_new s) = Some s.
Proof.
  intros Hs Hsm Hp Hpm. split; [by apply rtt_record_step|]. split.
  - intros n Hn. destruct (rtt_samples_step prev s n) as (_ & Hm & Hv); [done..|].
    unfold RttEstimator_current_us. rewrite (proj2 (Z.eqb_neq _ _)) by done.
    eexists. split; [done|]. lia.
  - unfold RttEstimator_current_us. simpl. by rewrite (proj2 (Z.eqb_neq _ _)).
Qed.

Lemma rtt_ewma_converges_witness :
  ∃ v, RttEstimator_current_us (rtt_samples (mkRttEstimator 100) 60 50) = Some v
    ∧ Z.abs (v - 50) < 8.
Proof.
  destruct (rtt_ewma_converges 100 50) as (_ & Hc & _); [ulia|ulia|ulia|ulia|].
  apply Hc. lia.
Defined.

(** ** The jitter filter *)

(** The jitter estimate follows RFC 3550: on timestamps whose differences
    fit in an [i64], the first sample only sets the reference, every later one
    moves the estimate towards the transit-time variation [d] by a sixteenth
    (rounded down) of the distance, saturating at [u32::MAX]; and a header
    timestamp of 2^63 overflows the subtraction, which panics in a build with
    overflow checks whatever the state. *)
Theorem jitter_rfc3550 oc self send recv :
  0 ≤ send < 9223372036854775808 → 0 ≤ recv < 9223372036854775808 →
  u32 (je_jitter_us self) →
  (je_prev_diff_us self = i64_MIN →
     JitterEstimator_record oc self send recv
     = Val (mkJitterEstimator (je_jitter_us self) (recv - send)))
  ∧ (∀ d, -4611686018427387904 < recv - send < 4611686018427387904 →
       -4611686018427387904 < je_prev_diff_us self < 4611686018427387904 →
       d = Z.abs ((recv - send) - je_prev_diff_us self) →
       ∃ self', JitterEstimator_record oc self send recv = Val self'
         ∧ je_prev_diff_us self' = recv - send
         ∧ u32 (je_jitter_us self')
         ∧ (d ≤ u32_MAX →
            Z.min (je_jitter_us self) d ≤ je_jitter_us self' ≤ Z.max (je_jitter_us self) d
            ∧ Z.abs (d - je_jitter_us self')
              = Z.abs (d - je_jitter_us self) - Z.abs (d - je_jitter_us self) / 16))
  ∧ JitterEstimator_record true self 9223372036854775808 recv = Panic.
Proof.
  intros Hs Hr Hj.
  assert (as_i64 send = send ∧ as_i64 recv = recv) as [Es Er].
  { unfold as_i64. destruct (Z.ltb_spec send 9223372036854775808),
      (Z.ltb_spec recv 9223372036854775808); lia. }
  assert (∀ a b, i64_MIN ≤ a - b ≤ i64_MAX → i64_sub oc a b = Val (a - b)) as Hsub.
  { intros a b Hab. unfold i64_sub.
    by destruct (Z.leb_spec i64_MIN (a - b)), (Z.leb_spec (a - b) i64_MAX); try lia. }
  unfold JitterEstimator_record. rewrite Es, Er, Hsub by (unfold i64_MIN, i64_MAX; lia).
  cbn [mbind checked_bind]. split_and!.
  - intros ->. by rewrite Z.eqb_refl.
  - intros d Hc Hp ->. rewrite (proj2 (Z.eqb_neq _ _)) by (unfold i64_MIN; lia).
    rewrite Hsub by (unfold i64_MIN, i64_MAX; lia). cbn [mbind checked_bind].
    eexists. split; [done|]. cbn [je_prev_diff_us je_jitter_us]. split; [done|].
    destruct (Z.ltb_spec (je_jitter_us self) (Z.abs (recv - send - je_prev_diff_us self)));
      split; [dlia|intros; dlia|dlia|intros; dlia].
  - unfold i64_sub. change (as_i64 9223372036854775808) with i64_MIN.
    rewrite (proj2 (Z.leb_gt (recv - i64_MIN) _)) by (unfold i64_MIN, i64_MAX; lia).
    by rewrite andb_false_r.
Qed.

Lemma jitter_rfc3550_witness :
  ∃ self', JitterEstimator_record true (mkJitterEstimator 0 (-100)) 1000 2500 = Val self'
    ∧ je_jitter_us self' = 100.
Proof.
  destruct (jitter_rfc3550 true (mkJitterEstimator 0 (-100)) 1000 2500) as (_ & Hd & _);
    [lia|lia|simpl; ulia|].
  destruct (Hd 1600) as (s & Hs & _ & _ & Hb); [lia|simpl; lia|reflexivity|].
  exists s. split; [exact Hs|]. cbn [je_jitter_us] in Hb.
  destruct Hb as [Hb1 Hb2]; [ulia|]. dlia.
Defined.

(** The snapshot's MOS never leaves the scale. *)
Lemma f_clamp_bounds x lo hi :
  f_gt lo hi = false → f_lt lo lo = false → f_gt hi hi = false → f_lt hi lo = false →
  f_lt (f_clamp x lo hi) lo = false ∧ f_gt (f_clamp x lo hi) hi = false.
Proof.
  intros ? ? ? ?. unfold f_clamp.
  destruct (f_lt x lo) eqn:E1; [rewrite H; auto|]. destruct (f_gt x hi) eqn:E2; auto.
Qed.

Lemma estimate_mos_bounds rtt loss jitter :
  f_lt (estimate_mos rtt loss jitter) (f32_of_Z 1) = false
  ∧ f_gt (estimate_mos rtt loss jitter) (f32_of_Z 5) = false.
Proof. apply f_clamp_bounds; vm_compute; reflexivity. Qed.

(** Without overflow checks recording never panics. *)
Lemma LossTracker_record_wrapping t s : ∃ t', LossTracker_record false t s = Val t'.
Proof.
  unfold LossTracker_record, u64_shl, i32_neg.
  repeat (case_match; cbn [mbind checked_bind] in *; try by eexists); try done.
Qed.

Lemma JitterEstimator_record_wrapping j a b : ∃ j', JitterEstimator_record false j a b = Val j'.
Proof.
  unfold JitterEstimator_record, i64_sub.
  repeat (case_match; cbn [mbind checked_bind] in *; try by eexists); try done.
Qed.
