(* ===== verification/Congestion.v ===== *)
(** * Congestion controller

    Models [gravital-talk-transport/src/congestion.rs]: the AIMD bitrate
    controller, floats included. *)

From Stdlib Require Import SpecFloat.
From S2P Require Import Prelude.
From S2P Require Import CoreTypes.
From S2P Require Import Ieee.

(** [LOSS_THRESHOLD], the [f32] 0.05. *)
Definition LOSS_THRESHOLD : float := f32_lit 5 100.
Definition RTT_THRESHOLD_US : Z := 150000.

Record CongestionController : Type := mkCongestionController {
  cc_current_bitrate : Z;
  cc_min_bitrate : Z;
  cc_max_bitrate : Z;
}.

(** [u32::clamp], which asserts [min <= max]. *)
Definition u32_clamp (x min max : Z) : checked Z :=
  if min <=? max then Val (if x <? min then min else if max <? x then max else x) else Panic.

Definition CongestionController_new (initial_bitrate min_bitrate max_bitrate : Z) :
    checked CongestionController :=
  let min_bitrate := Z.max min_bitrate CONGESTION_MIN_BITRATE in
  clamped ← u32_clamp initial_bitrate min_bitrate max_bitrate;
  Val (mkCongestionController clamped min_bitrate max_bitrate).

(** [(current * 0.85) as u32] and the like. *)
Definition scale_bitrate (current : Z) (num den : Z) : Z :=
  f_to_uint u32_MAX (f64_mul (f64_of_Z current) (f64_lit num den)).

Definition CongestionController_update (self : CongestionController) (loss_rate : float)
    (rtt_us : Z) : checked CongestionController :=
  let current := cc_current_bitrate self in
  let new_bitrate :=
    if f_gt loss_rate LOSS_THRESHOLD then scale_bitrate current 85 100
    else if RTT_THRESHOLD_US <? rtt_us then scale_bitrate current 95 100
    else Z.min u32_MAX (f_to_uint u32_MAX (f64_of_Z current) + CONGESTION_AIMD_INCREMENT) in
  clamped ← u32_clamp new_bitrate (cc_min_bitrate self) (cc_max_bitrate self);
  Val (mkCongestionController clamped (cc_min_bitrate self) (cc_max_bitrate self)).

Definition CongestionController_set_bitrate (self : CongestionController) (bitrate : Z) :
    checked CongestionController :=
  clamped ← u32_clamp bitrate (cc_min_bitrate self) (cc_max_bitrate self);
  Val (mkCongestionController clamped (cc_min_bitrate self) (cc_max_bitrate self)).

(** ** The invariant *)

Definition cc_inv (c : CongestionController) : Prop :=
  CONGESTION_MIN_BITRATE ≤ cc_min_bitrate c ≤ cc_current_bitrate c
  ∧ cc_current_bitrate c ≤ cc_max_bitrate c < 2 ^ 32.

Lemma u32_clamp_ok x lo hi : lo ≤ hi → u32_clamp x lo hi = Val (Z.max lo (Z.min x hi)).
Proof.
  intros. unfold u32_clamp. rewrite (proj2 (Z.leb_le _ _)) by done. f_equal.
  destruct (Z.ltb_spec x lo), (Z.ltb_spec hi x); lia.
Qed.

(** The two factors as 53-bit mantissas, both slightly below the decimal. *)
Lemma lit_085 : f64_lit 85 100 = S754_finite false 7656119366529843 (-53).
Proof. vm_compute. reflexivity. Qed.
Lemma lit_095 : f64_lit 95 100 = S754_finite false 8556839292003942 (-53).
Proof. vm_compute. reflexivity. Qed.

(** Multiplication by a factor [num/20] loses at most one unit to rounding. *)
Lemma scale_085 c : 0 < c < 2 ^ 32 → 17 * c / 20 - 1 ≤ scale_bitrate c 85 100 ≤ 17 * c / 20.
Proof.
  intros Hc. unfold scale_bitrate. rewrite lit_085.
  pose proof (f64_scale_trunc c 7656119366529843 Hc ltac:(lia)) as [Hu Hl].
  set (v := f_to_uint _ _) in *. Z.div_mod_to_equations. lia.
Qed.

Lemma scale_095 c : 0 < c < 2 ^ 32 → 19 * c / 20 - 1 ≤ scale_bitrate c 95 100 ≤ 19 * c / 20.
Proof.
  intros Hc. unfold scale_bitrate. rewrite lit_095.
  pose proof (f64_scale_trunc c 8556839292003942 Hc ltac:(lia)) as [Hu Hl].
  set (v := f_to_uint _ _) in *. Z.div_mod_to_equations. lia.
Qed.

(** C40: the controller is AIMD within its bounds: from any state with the
    bitrate in range no update panics and the new bitrate is in range; under
    loss above 5 percent it is 0.85 times the current one rounded down, or one
    less, under high RTT 0.95 times, both clamped from below by the minimum;
    otherwise it grows by exactly 2000 bit/s up to the maximum. *)
Theorem congestion_aimd c loss_rate rtt_us :
  cc_inv c →
  ∃ c', CongestionController_update c loss_rate rtt_us = Val c' ∧ cc_inv c'
    ∧ let b := cc_current_bitrate c in let b' := cc_current_bitrate c' in
      let lo := cc_min_bitrate c in
      if f_gt loss_rate LOSS_THRESHOLD then
        Z.max lo (17 * b / 20 - 1) ≤ b' ≤ Z.max lo (17 * b / 20)
      else if RTT_THRESHOLD_US <? rtt_us then
        Z.max lo (19 * b / 20 - 1) ≤ b' ≤ Z.max lo (19 * b / 20)
      else b' = Z.min (cc_max_bitrate c) (b + CONGESTION_AIMD_INCREMENT).
Proof.
  intros [Hmin Hmax]. unfold CongestionController_update.
  rewrite u32_clamp_ok by lia. cbn [mbind checked_bind]. eexists. split; [done|].
  cbn [cc_current_bitrate cc_min_bitrate cc_max_bitrate].
  set (nb := if f_gt _ _ then _ else _).
  split; [unfold cc_inv; cbn [cc_current_bitrate cc_min_bitrate cc_max_bitrate]; lia|].
  unfold CONGESTION_MIN_BITRATE in Hmin.
  pose proof (scale_085 (cc_current_bitrate c)). pose proof (scale_095 (cc_current_bitrate c)).
  subst nb. destruct (f_gt _ _); [|destruct (_ <? _)].
  - Z.div_mod_to_equations. lia.
  - Z.div_mod_to_equations. lia.
  - rewrite f64_roundtrip by lia. unfold CONGESTION_AIMD_INCREMENT, u32_MAX. lia.
Qed.

(** The constructor panics exactly when the maximum is below the larger of
    the requested minimum and 8000 bit/s; otherwise it establishes the
    invariant, which [set_bitrate] (a peer's [ControlBitrate] message)
    preserves for every requested value. *)
Theorem congestion_bounds initial lo hi :
  u32 initial → u32 lo → u32 hi →
  match CongestionController_new initial lo hi with
  | Panic => hi < Z.max lo CONGESTION_MIN_BITRATE
  | Val c => Z.max lo CONGESTION_MIN_BITRATE ≤ hi ∧ cc_inv c
      ∧ ∀ b, ∃ c', CongestionController_set_bitrate c b = Val c' ∧ cc_inv c'
               ∧ cc_current_bitrate c' = Z.max (cc_min_bitrate c) (Z.min b (cc_max_bitrate c))
  end.
Proof.
  intros Hi Hl Hh. unfold CongestionController_new, cc_inv, CONGESTION_MIN_BITRATE.
  destruct (decide (Z.max lo 8000 ≤ hi)) as [Hle|Hgt].
  - rewrite u32_clamp_ok by done. cbn -[Z.max Z.min Z.pow]. split; [done|]. split; [ulia|].
    intros b. unfold CongestionController_set_bitrate. cbn -[Z.max Z.min Z.pow].
    rewrite u32_clamp_ok by done. cbn -[Z.max Z.min Z.pow].
    eexists. split; [done|]. cbn -[Z.max Z.min Z.pow]. ulia.
  - unfold u32_clamp. rewrite (proj2 (Z.leb_gt _ _)) by lia. cbn. lia.
Qed.

Lemma congestion_aimd_witness :
  ∃ c', CongestionController_update (mkCongestionController 64000 8000 128000) (f32_lit 1 10) 0
        = Val c' ∧ 54399 ≤ cc_current_bitrate c' ≤ 54400.
Proof.
  destruct (congestion_aimd (mkCongestionController 64000 8000 128000) (f32_lit 1 10) 0)
    as (c' & Hu & _ & Hb); [unfold cc_inv, CONGESTION_MIN_BITRATE; simpl; lia|].
  exists c'. split; [exact Hu|].
  change (f_gt (f32_lit 1 10) LOSS_THRESHOLD) with true in Hb. exact Hb.
Defined.

Lemma congestion_bounds_witness :
  CongestionController_new 64000 8000 6000 = Panic ∧ 6000 < Z.max 8000 CONGESTION_MIN_BITRATE.
Proof.
  split; [reflexivity|].
  assert (u32 64000 ∧ u32 8000 ∧ u32 6000) as (H1 & H2 & H3) by ulia.
  exact (congestion_bounds 64000 8000 6000 H1 H2 H3).
Defined.
