(* ===== verification/Transport.v ===== *)
(** * The transport interface

    Models [gravital-talk-transport/src/error.rs] and [traits.rs]: the error
    type with its stable codes, socket addresses, and the environment a
    session runs in.  The network, the clock and the build's overflow setting
    are the class [Env]; the [Transport] implementations themselves (sockets)
    are outside the model. *)

From stdpp Require Import strings.
From S2P Require Import Prelude.
From S2P Require Import CoreTypes.

Inductive IpAddr : Type :=
  | V4 (octets : list Z)
  | V6 (octets : list Z).

#[export] Instance IpAddr_eq_dec : EqDecision IpAddr.
Proof. solve_decision. Defined.

(** The flow information and the scope id of an IPv6 socket address are left
    out, so that two addresses that differ only in them are one here; the
    parser of addresses reads them and does not keep them. *)
Record SocketAddr : Type := mkSocketAddr {
  sa_ip : IpAddr;
  sa_port : Z;
}.

#[export] Instance SocketAddr_eq_dec : EqDecision SocketAddr.
Proof. solve_decision. Defined.

Inductive TransportError : Type :=
  | TeIo
  | TeTimeout
  | TeClosed
  | TeBufferTooSmall (needed have : Z)
  | TeProtocol (e : Error)
  | TeHandshake (why : string)
  | TeInvalidState (why : string)
  | TePeerClosed (why : string)
  | TeAuthenticationFailed (why : string).

#[export] Instance TransportError_eq_dec : EqDecision TransportError.
Proof. solve_decision. Defined.

Definition TransportError_code (e : TransportError) : Z :=
  match e with
  | TeIo => -1
  | TeTimeout => -2
  | TeClosed => -3
  | TeBufferTooSmall _ _ => -4
  | TeProtocol _ => -5
  | TeHandshake _ => -6
  | TeInvalidState _ => -7
  | TePeerClosed _ => -8
  | TeAuthenticationFailed _ => -9
  end.

(** What one wait on [transport.recv] ends with: a datagram ([buf[..n]] and
    its source), an error, or the expiry of the surrounding [timeout]. *)
Inductive RecvEvent : Type :=
  | RecvData (data : list Z) (from : SocketAddr)
  | RecvErr (e : TransportError)
  | RecvTimeout.

(** The environment: the clock's value at its [n]-th reading, the result of
    the [n]-th [send_to], and the event that ends the [n]-th [recv]. *)
Class Env : Type := {
  env_clock : nat → Z;
  env_send : nat → list Z → SocketAddr → result TransportError Z;
  env_recv : nat → RecvEvent;
  env_overflow_checks : bool;
}.

(** The clock counts microseconds in a [u64]. *)
Class EnvLaws `{Env} : Prop := {
  env_clock_u64 n : u64 (env_clock n);
}.
