(* ===== verification/NetAddr.v ===== *)
(** * Network addresses in text

    [IpAddr] and [SocketAddr] as the command line, the C interface and the
    relay's configuration read and print them: the grammar of the standard
    library's [FromStr] implementations (a recursive-descent reader that
    restores its position when an alternative fails) and the [Display] of
    addresses.  The flow label and scope of an IPv6 address are read but not
    represented. *)

From S2P Require Import Prelude.
From S2P Require Import Text.
From S2P Require Import Transport.
From stdpp Require Import strings list.
#[local] Open Scope Z_scope.

(** ** Reading *)

(** A reader returns a value and the rest of the input. *)
Definition reader (A : Type) : Type := list Z → option (A * list Z).

#[local] Instance reader_ret : MRet reader := λ A a s, Some (a, s).
#[local] Instance reader_bind : MBind reader := λ A B f r s,
  match r s with Some (a, s) => f a s | None => None end.

Definition read_given_char (c : Z) : reader unit := λ s,
  match s with b :: s => if b =? c then Some (tt, s) else None | [] => None end.

(** [char::to_digit(radix)] *)
Definition to_digit (radix b : Z) : option Z :=
  let d :=
    if byte_in 48 57 b then b - 48 else if byte_in 97 102 b then b - 87
    else if byte_in 65 70 b then b - 55 else 99 in
  if d <? radix then Some d else None.

Fixpoint span_digits (radix : Z) (s : list Z) : list Z * list Z :=
  match s with
  | [] => ([], [])
  | b :: s' =>
      match to_digit radix b with
      | Some d => let '(ds, rest) := span_digits radix s' in (d :: ds, rest)
      | None => ([], s)
      end
  end.

(** [max] is the largest value of the integer type read. *)
Definition read_number (radix max : Z) (max_digits : option nat) (allow_zero_prefix : bool) :
    reader Z := λ s,
  let '(ds, rest) := span_digits radix s in
  let result := foldl (λ acc d, acc * radix + d) 0 ds in
  let has_leading_zero := match ds with d :: _ => d =? 0 | [] => false end in
  if match max_digits with Some m => (m <? length ds)%nat | None => false end then None
  else if (length ds =? 0)%nat then None
  else if negb allow_zero_prefix && has_leading_zero && (1 <? length ds)%nat then None
  else if max <? result then None
  else Some (result, rest).

(** The separator comes before every item but the first. *)
Definition read_separator {A} (sep : Z) (index : nat) (inner : reader A) : reader A :=
  match index with O => inner | S _ => _ ← read_given_char sep; inner end.

Definition read_octet (i : nat) : reader Z :=
  read_separator 46 i (read_number 10 255 (Some 3%nat) false).

Definition read_ipv4_addr : reader (list Z) :=
  a ← read_octet 0; b ← read_octet 1; c ← read_octet 2; d ← read_octet 3; mret [a; b; c; d].

(** [n] groups at most, of which the first has index [i]; the groups read,
    whether they end in an embedded IPv4 address, and the rest. *)
Fixpoint read_groups (n i : nat) (s : list Z) : list Z * bool * list Z :=
  match n with
  | O => ([], false, s)
  | S n =>
      match (match n with O => None | S _ => read_separator 58 i read_ipv4_addr s end) with
      | Some (v4, rest) =>
          ([(v4 !!! 0%nat) * 256 + v4 !!! 1%nat; (v4 !!! 2%nat) * 256 + v4 !!! 3%nat], true, rest)
      | None =>
          match read_separator 58 i (read_number 16 65535 (Some 4%nat) true) s with
          | Some (g, rest) =>
              let '(gs, ipv4, rest) := read_groups n (S i) rest in (g :: gs, ipv4, rest)
          | None => ([], false, s)
          end
      end
  end.

(** The groups after [::], which stands for at least one group. *)
Definition read_ipv6_tail (head : list Z) : reader (list Z) := λ s,
  let '(tail, _, s) := read_groups (8 - (length head + 1)) 0 s in
  Some (head ++ replicate (8 - length head - length tail) 0 ++ tail, s).

Definition read_ipv6_addr : reader (list Z) := λ s,
  let '(head, head_ipv4, s) := read_groups 8 0 s in
  if (length head =? 8)%nat then Some (head, s)
  else if head_ipv4 then None
  else
    let rest : reader (list Z) :=
      _ ← read_given_char 58; _ ← read_given_char 58; read_ipv6_tail head in
    rest s.

Definition v6_of_groups (gs : list Z) : IpAddr := V6 (concat (be_bytes 2 <$> gs)).

(** [a.or_else(b)] *)
Definition read_or {A} (a b : reader A) : reader A := λ s,
  match a s with Some r => Some r | None => b s end.

Definition read_ip_addr : reader IpAddr :=
  read_or (a ← read_ipv4_addr; mret (V4 a)) (gs ← read_ipv6_addr; mret (v6_of_groups gs)).

Definition read_port : reader Z := _ ← read_given_char 58; read_number 10 65535 None true.

Definition read_scope_id : reader Z := _ ← read_given_char 37; read_number 10 u32_MAX None true.

Definition read_socket_addr_v4 : reader SocketAddr :=
  ip ← read_ipv4_addr; port ← read_port; mret (mkSocketAddr (V4 ip) port).

Definition read_socket_addr_v6 : reader SocketAddr :=
  _ ← read_given_char 91;
  gs ← read_ipv6_addr;
  _ ← read_or read_scope_id (mret 0);
  _ ← read_given_char 93;
  port ← read_port;
  mret (mkSocketAddr (v6_of_groups gs) port).

(** The whole input has to be read. *)
Definition parse_with {A} (r : reader A) (s : list Z) : option A :=
  match r s with Some (a, []) => Some a | _ => None end.

Definition parse_ip_addr : list Z → option IpAddr := parse_with read_ip_addr.
Definition parse_socket_addr : list Z → option SocketAddr :=
  parse_with (read_or read_socket_addr_v4 read_socket_addr_v6).

(** [format!("{host}:{port}")] *)
Definition host_port (host : list Z) (port : Z) : list Z := host ++ [58] ++ show port.

(** ** Printing IPv4 addresses *)

Definition show_ipv4 (octets : list Z) : list Z :=
  show (octets !!! 0%nat) ++ [46] ++ show (octets !!! 1%nat) ++ [46] ++ show (octets !!! 2%nat)
  ++ [46] ++ show (octets !!! 3%nat).

(** ** Printing IPv6 and socket addresses *)

Definition hex_digit (n : Z) : Z := if n <? 10 then 48 + n else 87 + n.

(** [{:x}] of a 16-bit group *)
Fixpoint show_hex (fuel : nat) (n : Z) : list Z :=
  match fuel with
  | O => []
  | S fuel => (if n <? 16 then [] else show_hex fuel (n / 16)) ++ [hex_digit (n mod 16)]
  end.

Fixpoint v6_groups (octets : list Z) : list Z :=
  match octets with
  | a :: b :: octets => (a * 256 + b) :: v6_groups octets
  | _ => []
  end.

(** The longest run of zero groups, the first of them, as start and length:
    [here] is the run that ends before the [i]-th group. *)
Fixpoint zero_run (groups : list Z) (i : nat) (here best : nat * nat) : nat * nat :=
  match groups with
  | [] => best
  | g :: groups =>
      if g =? 0 then
        let here := ((if (here.2 =? 0)%nat then i else here.1), S here.2) in
        zero_run groups (S i) here (if (best.2 <? here.2)%nat then here else best)
      else zero_run groups (S i) (0, 0)%nat best
  end.

Fixpoint show_groups (groups : list Z) : list Z :=
  match groups with
  | [] => []
  | [g] => show_hex 4 g
  | g :: groups => show_hex 4 g ++ [58] ++ show_groups groups
  end.

Definition show_ipv6 (octets : list Z) : list Z :=
  if decide (take 12 octets = replicate 10 0 ++ [255; 255])
  then ascii_bytes "::ffff:" ++ show_ipv4 (drop 12 octets)
  else
    let groups := v6_groups octets in
    let '(start, len) := zero_run groups 0 (0, 0)%nat (0, 0)%nat in
    if (1 <? len)%nat
    then show_groups (take start groups) ++ [58; 58] ++ show_groups (drop (start + len) groups)
    else show_groups groups.

(** [format!("{addr}")] *)
Definition show_socket_addr (a : SocketAddr) : list Z :=
  match sa_ip a with
  | V4 octets => host_port (show_ipv4 octets) (sa_port a)
  | V6 octets => host_port ([91] ++ show_ipv6 octets ++ [93]) (sa_port a)
  end.

Example show_socket_addr_v6 :
  show_socket_addr (mkSocketAddr (V6 [32; 1; 13; 184; 0; 0; 0; 0; 0; 0; 0; 0; 0; 0; 0; 1]) 80)
  = ascii_bytes "[2001:db8::1]:80".
Proof. reflexivity. Qed.

(** ** Round trips *)

Lemma to_digit_digit b : is_digit b = true → to_digit 10 b = Some (b - 48).
Proof.
  unfold is_digit, to_digit. intros Hb. rewrite Hb.
  unfold byte_in in Hb. apply andb_true_iff in Hb as [?%Z.leb_le ?%Z.leb_le].
  by rewrite (proj2 (Z.ltb_lt _ _)) by lia.
Qed.

Lemma span_digits_app s rest :
  Forall (λ b, is_digit b = true) s →
  match rest with b :: _ => to_digit 10 b = None | [] => True end →
  span_digits 10 (s ++ rest) = ((λ b, b - 48) <$> s, rest).
Proof.
  intros Hs Hr. induction Hs as [|b s Hb _ IH]; cbn.
  - destruct rest as [|b rest]; cbn; [done|by rewrite Hr].
  - rewrite to_digit_digit by done. by rewrite IH.
Qed.

Lemma parse_digits_value max acc s :
  Forall (λ b, is_digit b = true) s →
  ∀ n, parse_digits max acc s = Some n → foldl (λ acc d, acc * 10 + d) acc ((λ b, b - 48) <$> s) = n.
Proof.
  intros Hs. revert acc. induction Hs as [|b s Hb _ IH]; intros acc n; cbn; [congruence|].
  rewrite Hb. destruct (max <? _); [done|]. apply IH.
Qed.

Lemma show_value n : 0 ≤ n → foldl (λ acc d, acc * 10 + d) 0 ((λ b, b - 48) <$> show n) = n.
Proof.
  intros Hn. pose proof (parse_show n n ltac:(lia)) as Hp. pose proof (show_digits n Hn) as Hd.
  eapply (parse_digits_value n 0); [done|].
  destruct (show n) as [|b s]; [done|]. apply Forall_cons in Hd as [Hb _].
  by rewrite parse_digits_head in Hp.
Qed.

(** The first digit of a number of several digits is not zero. *)
Lemma show_fuel_head fuel n :
  0 ≤ n < 2 ^ Z.of_nat fuel →
  match show_fuel fuel n with [] => n = 0 | [b] => b = 48 + n | b :: _ => b ≠ 48 end.
Proof.
  revert n. induction fuel as [|fuel IH]; intros n Hn.
  { change (2 ^ Z.of_nat 0) with 1 in Hn. cbn. lia. }
  rewrite Nat2Z.inj_succ, Z.pow_succ_r in Hn by lia.
  cbn [show_fuel]. destruct (Z.ltb_spec n 10); [done|].
  assert (0 < n / 10 < 2 ^ Z.of_nat fuel) as Hd.
  { pose proof (Z.div_mod n 10 ltac:(lia)). pose proof (Z.mod_pos_bound n 10 ltac:(lia)). lia. }
  specialize (IH (n / 10) ltac:(lia)).
  destruct (show_fuel fuel (n / 10)) as [|b [|b' s]]; cbn; lia.
Qed.

Lemma show_fuel_length fuel n k : 0 ≤ n < 10 ^ Z.of_nat k → (0 < k)%nat → (length (show_fuel fuel n) ≤ k)%nat.
Proof.
  revert n k. induction fuel as [|fuel IH]; intros n k Hn Hk; cbn [show_fuel]; [cbn; lia|].
  destruct (Z.ltb_spec n 10); [cbn; lia|]. rewrite length_app. cbn [length].
  destruct k as [|[|k]]; [lia|change (10 ^ Z.of_nat 1) with 10 in Hn; lia|].
  rewrite Nat2Z.inj_succ, Z.pow_succ_r in Hn by lia.
  specialize (IH (n / 10) (S k)). assert (0 ≤ n / 10 < 10 ^ Z.of_nat (S k)); [|lia].
  pose proof (Z.div_mod n 10 ltac:(lia)). pose proof (Z.mod_pos_bound n 10 ltac:(lia)). lia.
Qed.

(** A printed number that fits is read back, up to the next non-digit. *)
Lemma read_number_show max max_digits zero n rest :
  0 ≤ n ≤ max →
  match max_digits with Some m => (0 < m)%nat ∧ max < 10 ^ Z.of_nat m | None => True end →
  match rest with b :: _ => to_digit 10 b = None | [] => True end →
  read_number 10 max max_digits zero (show n ++ rest) = Some (n, rest).
Proof.
  intros Hn Hm Hr. unfold read_number. rewrite span_digits_app; [|apply show_digits; lia|done].
  rewrite show_value, length_fmap by lia.
  assert (match max_digits with Some m => (m <? length (show n))%nat | None => false end = false) as ->.
  { destruct max_digits as [m|]; [|done]. apply Nat.ltb_ge. apply show_fuel_length; lia. }
  assert (0 ≤ n < 2 ^ Z.of_nat (S (Z.to_nat (Z.log2 n)))) as Hlog.
  { rewrite Nat2Z.inj_succ, Z2Nat.id by apply Z.log2_nonneg.
    destruct (Z.eq_dec n 0) as [->|]; [done|]. pose proof (Z.log2_spec n ltac:(lia)). lia. }
  pose proof (show_fuel_head _ _ Hlog) as Hhd. fold (show n) in Hhd.
  rewrite (proj2 (Z.ltb_ge _ _)) by lia.
  pose proof (show_fuel_nonempty (Z.to_nat (Z.log2 n)) n) as Hne. fold (show n) in Hne.
  destruct (show n) as [|b [|b' s]]; [done| |]; cbn.
  - by rewrite andb_false_r.
  - rewrite (proj2 (Z.eqb_neq _ _)) by lia. by rewrite andb_false_r.
Qed.

Lemma read_ipv4_show octets rest :
  length octets = 4%nat → bytes octets →
  match rest with b :: _ => to_digit 10 b = None | [] => True end →
  read_ipv4_addr (show_ipv4 octets ++ rest) = Some (octets, rest).
Proof.
  intros Hl Hb Hr. destruct octets as [|a [|b [|c [|d [|]]]]]; try discriminate Hl.
  unfold bytes in Hb. rewrite !Forall_cons in Hb. destruct Hb as (Ha & Hb & Hc & Hd & _).
  unfold u8 in *. unfold read_ipv4_addr, show_ipv4. cbn [lookup_total list_lookup_total].
  rewrite <- !app_assoc.
  unfold read_octet, read_separator, mbind, reader_bind, mret, reader_ret.
  rewrite read_number_show by (done || lia). cbn [app read_given_char Z.eqb Pos.eqb].
  rewrite read_number_show by (done || lia). cbn [app read_given_char Z.eqb Pos.eqb].
  rewrite read_number_show by (done || lia). cbn [app read_given_char Z.eqb Pos.eqb].
  by rewrite read_number_show by (done || lia).
Qed.

(** A printed IPv4 endpoint is read back. *)
Lemma parse_host_port_v4 octets port :
  length octets = 4%nat → bytes octets → u16 port →
  parse_socket_addr (host_port (show_ipv4 octets) port) = Some (mkSocketAddr (V4 octets) port).
Proof.
  intros Hl Hb Hp. unfold parse_socket_addr, parse_with, read_or, host_port, read_socket_addr_v4,
    read_port, mbind, reader_bind, mret, reader_ret.
  rewrite read_ipv4_show by done. cbn [app read_given_char Z.eqb Pos.eqb].
  rewrite <- (app_nil_r (show port)). rewrite read_number_show by (done || ulia). done.
Qed.
