(* ===== verification/Discovery.v ===== *)
(** * LAN discovery

    Models [gravital-talk-transport/src/discovery.rs]: the announcement a peer
    broadcasts, its parsing, and the loop that collects announcements until
    its deadline.  The sockets and the clock are the class [LanEnv]. *)

From S2P Require Import Prelude.
From S2P Require Import Text.
From S2P Require Import Transport.
From S2P Require Import NetAddr.
From stdpp Require Import strings list.
#[local] Open Scope Z_scope.

Definition DISCOVERY_PORT : Z := 9009.

Record PeerInfo : Type := mkPeerInfo {
  pi_addr : SocketAddr;
  pi_session_id : Z;
  pi_name : list Z;
}.

#[export] Instance PeerInfo_eq_dec : EqDecision PeerInfo.
Proof. solve_decision. Defined.

(** Whether binding, enabling broadcast and sending succeed; the clock in
    nanoseconds at its [n]-th reading; and what the [n]-th [recv_from] yields:
    a datagram as it was sent, or an error (a timeout is one). *)
Class LanEnv : Type := {
  lan_bind : SocketAddr → bool;
  lan_set_broadcast : bool;
  lan_send : list Z → SocketAddr → bool;
  lan_set_read_timeout : bool;
  lan_clock : nat → Z;
  lan_recv : nat → option (list Z * SocketAddr);
}.

(** [format!("GT1 {udp_port} {session_id} {name}")] *)
Definition announcement (udp_port session_id : Z) (name : list Z) : list Z :=
  ascii_bytes "GT1 " ++ show udp_port ++ [32] ++ show session_id ++ [32] ++ name.

Definition any_v4 (port : Z) : SocketAddr := mkSocketAddr (V4 [0; 0; 0; 0]) port.
Definition broadcast_v4 (port : Z) : SocketAddr := mkSocketAddr (V4 [255; 255; 255; 255]) port.

Definition parse_announcement (data : list Z) (from : SocketAddr) : option PeerInfo :=
  s ← from_utf8 data;
  rest ← after_prefix (ascii_bytes "GT1 ") (trim s);
  port ← parse_uint 65535 (split_once 32 rest).1;
  rest ← (split_once 32 rest).2;
  session_id ← parse_uint u32_MAX (split_once 32 rest).1;
  Some (mkPeerInfo (mkSocketAddr (sa_ip from) port) session_id
          (trim (default (ascii_bytes "unknown") (split_once 32 rest).2))).

Section lan.
Context `{LanEnv}.

(** The datagrams sent, and whether the call succeeded. *)
Definition announce_lan (udp_port session_id : Z) (name : list Z) :
    list (list Z * SocketAddr) * bool :=
  if negb (lan_bind (any_v4 0)) then ([], false)
  else if negb lan_set_broadcast then ([], false)
  else
    let msg := announcement udp_port session_id name in
    let target := broadcast_v4 DISCOVERY_PORT in
    ([(msg, target)], lan_send msg target).

(** [if !peers.iter().any(..) { peers.push(info) }] *)
Definition add_peer (peers : list PeerInfo) (info : PeerInfo) : list PeerInfo :=
  if existsb (λ p, bool_decide (pi_addr p = pi_addr info)) peers then peers else peers ++ [info].

(** What one received datagram does; the buffer has 512 bytes. *)
Definition on_announcement (peers : list PeerInfo) (d : list Z * SocketAddr) : list PeerInfo :=
  match parse_announcement (take 512 d.1) d.2 with
  | Some info => add_peer peers info
  | None => peers
  end.

(** The loop, with [k] datagrams received so far; [None] when it has not
    ended after [fuel] rounds. *)
Fixpoint discover_loop (fuel k : nat) (deadline : Z) (peers : list PeerInfo) :
    option (list PeerInfo) :=
  match fuel with
  | O => None
  | S fuel =>
      let remaining := Z.max 0 (deadline - lan_clock (S k)) in
      if remaining =? 0 then Some peers
      else
        match lan_recv k with
        | Some d => discover_loop fuel (S k) deadline (on_announcement peers d)
        | None => Some peers
        end
  end.

(** The outer [None] is a loop that has not ended; the inner one an error. *)
Definition discover_lan (fuel : nat) (timeout : Z) : option (option (list PeerInfo)) :=
  if negb (lan_bind (any_v4 DISCOVERY_PORT)) then Some None
  else if negb lan_set_read_timeout then Some None
  else Some <$> discover_loop fuel 0 (lan_clock 0 + timeout) [].
End lan.

(** ** Announcing and parsing *)

(** The name a listener reads: without white space around it, and a
    placeholder when nothing is left. *)
Definition announced_name (name : list Z) : list Z :=
  if decide (trim_end name = []) then ascii_bytes "unknown" else trim name.

Lemma announcement_prefix_digits port sid :
  0 ≤ port → 0 ≤ sid →
  ascii (ascii_bytes "GT1 " ++ show port ++ [32] ++ show sid).
Proof.
  intros Hp Hs. rewrite !ascii_app. split_and!; [..|apply digits_ascii, show_digits, Hs].
  - apply (bool_decide_unpack _). by vm_compute.
  - apply digits_ascii, show_digits, Hp.
  - apply (bool_decide_unpack _). by vm_compute.
Qed.

Lemma show_no_space n : 0 ≤ n → 32 ∉ show n.
Proof. intros Hn. by apply digit_not_in; [apply show_digits|]. Qed.

Lemma no_ws_start_head b s : byte_in 65 90 b = true → no_ws_start (b :: s).
Proof.
  assert (Forall (λ w, byte_in 65 90 (default 65 (head w)) = false) WHITE_SPACE) as Hf
    by (apply (bool_decide_unpack _); vm_compute; exact I).
  intros Hb w r Hw E. rewrite Forall_forall in Hf. apply Hf in Hw. destruct w as [|b' w]; [done|].
  injection E as <- _. cbn in Hw. congruence.
Qed.

(** What is left of an announcement after trimming. *)
Lemma trim_announcement port sid name :
  0 ≤ port → 0 ≤ sid → valid_utf8 name = true →
  trim (announcement port sid name)
  = ascii_bytes "GT1 " ++ show port ++ [32] ++ show sid
    ++ (if decide (trim_end name = []) then [] else 32 :: trim_end name).
Proof.
  intros Hp Hs Hn. unfold trim.
  assert (trim_start (announcement port sid name) = announcement port sid name) as ->.
  { change (announcement port sid name) with ([] ++ announcement port sid name) at 1.
    apply trim_start_unique; [apply spaces_nil|]. by apply no_ws_start_head. }
  set (pre := ascii_bytes "GT1 " ++ show port ++ [32] ++ show sid).
  assert (announcement port sid name = (pre ++ [32]) ++ name) as ->.
  { unfold announcement, pre. by rewrite <- !app_assoc. }
  rewrite trim_end_app by by apply valid_utf8_starts.
  destruct (decide (trim_end name = [])) as [E|E].
  - rewrite trim_end_unique; [unfold pre; by rewrite app_nil_r|apply spaces_space|].
    unfold pre. rewrite !app_assoc. pose proof (show_digits sid Hs) as Hd.
    apply no_ws_end_app; [by apply no_ws_end_digits|apply show_fuel_nonempty|].
    apply valid_utf8_starts, valid_utf8_ascii, digits_ascii, Hd.
  - unfold pre. by rewrite <- !app_assoc.
Qed.

(** A parsed announcement is the one that was made. *)
Lemma parse_announcement_roundtrip port sid name from :
  u16 port → u32 sid → valid_utf8 name = true →
  parse_announcement (announcement port sid name) from
  = Some (mkPeerInfo (mkSocketAddr (sa_ip from) port) sid (announced_name name)).
Proof.
  intros Hp Hs Hn. unfold parse_announcement, from_utf8.
  assert (valid_utf8 (announcement port sid name) = true) as ->.
  { unfold announcement. rewrite !app_assoc. rewrite valid_utf8_app; [done|].
    apply valid_utf8_ascii. rewrite ascii_app. split; [|apply (bool_decide_unpack _); by vm_compute].
    rewrite <- !app_assoc. apply announcement_prefix_digits; ulia. }
  cbn [mbind option_bind]. rewrite trim_announcement by (done || ulia).
  rewrite after_prefix_app. cbn [mbind option_bind app].
  rewrite split_once_app by (apply show_no_space; ulia).
  cbn [fst snd]. rewrite parse_show by ulia. cbn [mbind option_bind]. unfold announced_name.
  assert (32 ∉ show sid) as Hns by (apply show_no_space; ulia).
  destruct (decide (trim_end name = [])) as [E|E].
  - rewrite app_nil_r, split_once_None by done. cbn [fst snd].
    by rewrite parse_show by ulia.
  - rewrite split_once_app by done. cbn [fst snd]. rewrite parse_show by ulia.
    cbn [mbind option_bind from_option id]. by rewrite trim_trim_end.
Qed.

(** ** Collecting announcements *)

Section collect.
Context `{LanEnv}.

(** The loop ends at the [n]-th round: the deadline has passed or the socket
    reports an error. *)
Definition stops (deadline : Z) (n : nat) : Prop :=
  deadline ≤ lan_clock (S n) ∨ lan_recv n = None.

#[local] Instance stops_dec deadline n : Decision (stops deadline n).
Proof. unfold stops. apply _. Defined.

Lemma not_stops deadline n :
  ¬ stops deadline n ↔ lan_clock (S n) < deadline ∧ is_Some (lan_recv n).
Proof.
  unfold stops. rewrite <- not_eq_None_Some. destruct (lan_recv n); split; intros Hn.
  - split; [destruct (decide (lan_clock (S n) < deadline)); [done|]; destruct Hn; left; lia|done].
  - intros [|]; [lia|done].
  - destruct Hn. by right.
  - by destruct Hn as [_ []].
Qed.

(** The first [n] datagrams. *)
Definition received (n : nat) : list (list Z * SocketAddr) :=
  omap lan_recv (seq 0 n).

Lemma discover_loop_run n : ∀ fuel k deadline peers,
  stops deadline (k + n) → (∀ i, (k ≤ i < k + n)%nat → ¬ stops deadline i) → (n < fuel)%nat →
  discover_loop fuel k deadline peers
  = Some (foldl on_announcement peers (omap lan_recv (seq k n))).
Proof.
  induction n as [|n IH]; intros fuel k deadline peers Hstop Hgo Hf;
    (destruct fuel as [|fuel]; [lia|]); cbn [discover_loop seq].
  - rewrite Nat.add_0_r in Hstop. destruct Hstop as [Hs| ->].
    + by rewrite (proj2 (Z.eqb_eq _ _)) by lia.
    + by destruct (_ =? 0).
  - assert (¬ stops deadline k) as Hk by (apply Hgo; lia). unfold stops in Hk.
    rewrite (proj2 (Z.eqb_neq _ _)) by (intros ?; apply Hk; left; lia).
    destruct (lan_recv k) as [d|] eqn:Hd; [|by destruct Hk; right].
    cbn [omap list_omap]. rewrite Hd. cbn [foldl]. apply IH; [|intros i Hi; apply Hgo; lia|lia].
    by rewrite Nat.add_succ_l, <- Nat.add_succ_r.
Qed.

(** Among the datagrams [ds], [info] is the first announcement of its
    address. *)
Definition first_announced (ds : list (list Z * SocketAddr)) (info : PeerInfo) : Prop :=
  ∃ ds1 d ds2, ds = ds1 ++ d :: ds2 ∧ parse_announcement (take 512 d.1) d.2 = Some info
    ∧ ∀ d' info', d' ∈ ds1 → parse_announcement (take 512 d'.1) d'.2 = Some info' →
      pi_addr info' ≠ pi_addr info.

Lemma add_peer_known peers info :
  existsb (λ p, bool_decide (pi_addr p = pi_addr info)) peers = true
  ↔ pi_addr info ∈ (pi_addr <$> peers).
Proof.
  rewrite existsb_exists, list_elem_of_fmap. setoid_rewrite bool_decide_eq_true.
  setoid_rewrite <- list_elem_of_In. naive_solver.
Qed.

Lemma first_announced_snoc ds d info :
  first_announced (ds ++ [d]) info ↔
  first_announced ds info
  ∨ (parse_announcement (take 512 d.1) d.2 = Some info
     ∧ ∀ d' info', d' ∈ ds → parse_announcement (take 512 d'.1) d'.2 = Some info' →
       pi_addr info' ≠ pi_addr info).
Proof.
  split.
  - intros (ds1 & d0 & ds2 & E & Hp & Hf). destruct ds2 as [|d2 ds2 _] using rev_ind.
    + apply app_inj_2 in E as [-> [= ->]]; [|done]. by right.
    + rewrite app_comm_cons, app_assoc in E. apply app_inj_2 in E as [-> _]; [|done].
      left. by exists ds1, d0, ds2.
  - intros [(ds1 & d0 & ds2 & -> & Hp & Hf)|[Hp Hf]].
    + exists ds1, d0, (ds2 ++ [d]). split; [by rewrite <- app_assoc|done].
    + by exists ds, d, [].
Qed.

(** What the fold over the received datagrams collects: each announced
    address once, with the first announcement made for it. *)
Record collected (ds : list (list Z * SocketAddr)) (peers : list PeerInfo) : Prop := {
  co_nodup : NoDup (pi_addr <$> peers);
  co_first p : p ∈ peers ↔ first_announced ds p;
  co_addrs a : a ∈ (pi_addr <$> peers) ↔
    ∃ d info, d ∈ ds ∧ parse_announcement (take 512 d.1) d.2 = Some info ∧ pi_addr info = a;
}.

Lemma collected_fold ds : collected ds (foldl on_announcement [] ds).
Proof.
  induction ds as [|d ds [Hnd Hfst Hadr]] using rev_ind.
  { split; [constructor| |].
    - intros p. rewrite elem_of_nil. split; [done|]. by intros ([|] & d & ds2 & E & _).
    - intros a. rewrite elem_of_nil. split; [done|]. by intros (d & info & Hd%elem_of_nil & _). }
  rewrite foldl_app. cbn [foldl]. set (peers := foldl on_announcement [] ds) in *. clearbody peers.
  assert (∀ p, p ∈ peers ∨ parse_announcement (take 512 d.1) d.2 = Some p
    ∧ pi_addr p ∉ (pi_addr <$> peers) ↔ first_announced (ds ++ [d]) p) as Hsnoc.
  { intros p. rewrite first_announced_snoc, Hfst. rewrite Hadr. naive_solver. }
  assert (∀ a, (∃ d' info, d' ∈ ds ++ [d] ∧ parse_announcement (take 512 d'.1) d'.2 = Some info
    ∧ pi_addr info = a) ↔ a ∈ (pi_addr <$> peers)
    ∨ ∃ info, parse_announcement (take 512 d.1) d.2 = Some info ∧ pi_addr info = a) as Ha.
  { intros a. rewrite Hadr. setoid_rewrite elem_of_app. setoid_rewrite list_elem_of_singleton.
    naive_solver. }
  unfold on_announcement. destruct (parse_announcement _ _) as [info|] eqn:Hp.
  2:{ split; [done| |]; [intros p; rewrite <- Hsnoc|intros a; rewrite Ha]; naive_solver. }
  unfold add_peer. pose proof (add_peer_known peers info) as Hk.
  destruct (existsb _ peers).
  - assert (pi_addr info ∈ (pi_addr <$> peers)) as Hin by by apply Hk.
    split; [done| |]; [intros p; rewrite <- Hsnoc|intros a; rewrite Ha]; naive_solver.
  - assert (pi_addr info ∉ (pi_addr <$> peers)) as Hout by (intros ?%Hk; done).
    split.
    + rewrite fmap_app, NoDup_app. cbn. split_and!; [done| |repeat constructor; by apply not_elem_of_nil].
      intros a Hin. rewrite list_elem_of_singleton. by intros ->.
    + intros p. rewrite elem_of_app, list_elem_of_singleton, <- Hsnoc. naive_solver.
    + intros a. rewrite fmap_app, elem_of_app, Ha. cbn. rewrite list_elem_of_singleton. naive_solver.
Qed.
End collect.

(** The first round that ends the loop, when the clock reaches the deadline. *)
Lemma first_stop `{LanEnv} deadline m :
  deadline ≤ lan_clock (S m) →
  ∃ n, (n ≤ m)%nat ∧ stops deadline n ∧ ∀ i, (i < n)%nat → ¬ stops deadline i.
Proof.
  intros Hm. assert (stops deadline m) as Hs by by left. clear Hm.
  induction m as [m IH] using lt_wf_ind.
  destruct (decide (Exists (stops deadline) (seq 0 m))) as [He|He].
  - apply Exists_exists in He as (i & Hi & Hsi). apply elem_of_seq in Hi.
    destruct (IH i) as (n & Hn & Hsn & Hmin); [lia|done|]. exists n. split; [lia|done].
  - exists m. split; [done|]. split; [done|]. intros i Hi Hsi. apply He, Exists_exists.
    exists i. split; [apply elem_of_seq; lia|done].
Qed.

(** A datagram read in round [i] of the first [n], and the ones before it. *)
Lemma received_split `{LanEnv} n i d :
  (i < n)%nat → lan_recv i = Some d → ∃ ds, received n = received i ++ d :: ds.
Proof.
  intros Hi Hd. exists (omap lan_recv (seq (S i) (n - S i))). unfold received.
  replace n with (i + S (n - S i))%nat at 1 by lia. rewrite seq_app, omap_app. f_equal.
  cbn [Nat.add seq omap list_omap]. by rewrite Hd.
Qed.

Lemma elem_of_received `{LanEnv} n d :
  d ∈ received n ↔ ∃ i, (i < n)%nat ∧ lan_recv i = Some d.
Proof.
  unfold received. rewrite list_elem_of_omap. setoid_rewrite elem_of_seq.
  split; intros (i & Hi & Hd); exists i; (split; [lia|done]).
Qed.

(** C35: LAN discovery finds every peer that announces itself in time.  With a
    clock that reaches the deadline, [discover_lan] returns: its loop ends in
    the first round that starts at or after the deadline or whose receive
    fails, and all datagrams read in the rounds before are taken into account.
    The result holds each announced address exactly once, with the first
    announcement received for it.  In particular, an announcement made by
    [announce_lan], of at most 512 bytes, that is received in a round up to
    which the deadline has not been reached and no receive has failed, is
    found: the result has its sender's address with the announced port and,
    when it is the first for that address, its session id and its name
    without surrounding white space. *)
Theorem lan_discovery_correct (EA : LanEnv) `{LanEnv} port sid name fuel timeout m :
  u16 port → u32 sid → valid_utf8 name = true →
  lan_bind (any_v4 DISCOVERY_PORT) = true → lan_set_read_timeout = true →
  lan_clock 0 + timeout ≤ lan_clock (S m) → (m < fuel)%nat →
  ∃ n peers, discover_lan fuel timeout = Some (Some peers)
    ∧ (lan_clock 0 + timeout ≤ lan_clock (S n) ∨ lan_recv n = None)
    ∧ (∀ i, (i < n)%nat → lan_clock (S i) < lan_clock 0 + timeout ∧ is_Some (lan_recv i))
    ∧ NoDup (pi_addr <$> peers)
    ∧ (∀ p, p ∈ peers ↔ first_announced (received n) p)
    ∧ ∀ i msg to from, announce_lan (H := EA) port sid name = ([(msg, to)], true) →
        (length msg ≤ 512)%nat → lan_recv i = Some (msg, from) →
        (∀ j, (j ≤ i)%nat → lan_clock (S j) < lan_clock 0 + timeout ∧ is_Some (lan_recv j)) →
        let a := mkSocketAddr (sa_ip from) port in
        a ∈ (pi_addr <$> peers)
        ∧ ((∀ j d q, (j < i)%nat → lan_recv j = Some d →
              parse_announcement (take 512 d.1) d.2 = Some q → pi_addr q ≠ a) →
           mkPeerInfo a sid (announced_name name) ∈ peers).
Proof.
  intros Hp Hs Hn Hb Ht Hm Hf. destruct (first_stop _ _ Hm) as (n & Hnm & Hst & Hgo).
  destruct (collected_fold (received n)) as [Hnd Hfst Hadr].
  exists n, (foldl on_announcement [] (received n)). split_and!; [|exact Hst| |done|done|].
  { unfold discover_lan. rewrite Hb, Ht. cbn [negb].
    rewrite (discover_loop_run n); [done|done|intros i Hi; apply Hgo; lia|lia]. }
  { intros i Hi. by apply not_stops, Hgo. }
  intros i msg to from Ha Hl Hrecv Hin.
  assert (msg = announcement port sid name) as ->.
  { unfold announce_lan in Ha. destruct (negb _); [done|]. destruct (negb _); [done|].
    by injection Ha. }
  pose proof (parse_announcement_roundtrip port sid name from Hp Hs Hn) as Hr.
  rewrite <- (take_ge (announcement port sid name) 512) in Hr by done.
  assert (i < n)%nat as Hi.
  { destruct (decide (i < n)%nat) as [|Hge]; [done|]. destruct (proj2 (not_stops _ n) (Hin n ltac:(lia))).
    exact Hst. }
  split.
  - apply Hadr. exists (announcement port sid name, from). eexists.
    split; [|by split; [exact Hr|]]. apply elem_of_received. eauto.
  - intros Hfirst. apply Hfst. destruct (received_split n i _ Hi Hrecv) as [ds Hds].
    exists (received i), (announcement port sid name, from), ds. split; [exact Hds|].
    split; [exact Hr|]. intros d q (j & Hj & Hd)%elem_of_received. by apply (Hfirst j d q Hj Hd).
Qed.

(** Three datagrams arrive before the deadline: noise, an announcement from
    Alice, and another one for the same address. *)
Definition lan_sample : LanEnv := {|
  lan_bind _ := true;
  lan_set_broadcast := true;
  lan_send _ _ := true;
  lan_set_read_timeout := true;
  lan_clock n := 1000 * Z.of_nat n;
  lan_recv n :=
    match n with
    | 0%nat => Some ([255; 1; 2], mkSocketAddr (V4 [10; 0; 0; 9]) 1)
    | 1%nat => Some (announcement 9000 42 (ascii_bytes "Alice "), mkSocketAddr (V4 [10; 0; 0; 7]) 5)
    | _ => Some (announcement 9000 43 (ascii_bytes "Bob"), mkSocketAddr (V4 [10; 0; 0; 7]) 6)
    end;
|}.

Lemma lan_discovery_correct_witness :
  ∃ peers, discover_lan (H := lan_sample) 10 3500 = Some (Some peers)
    ∧ NoDup (pi_addr <$> peers)
    ∧ mkPeerInfo (mkSocketAddr (V4 [10; 0; 0; 7]) 9000) 42 (ascii_bytes "Alice") ∈ peers.
Proof.
  destruct (lan_discovery_correct lan_sample (H := lan_sample) 9000 42 (ascii_bytes "Alice ") 10 3500 3)
    as (n & peers & Hrun & _ & _ & Hnd & _ & Hfound).
  1-7: apply (bool_decide_unpack _); vm_compute; exact I.
  exists peers. split; [exact Hrun|]. split; [exact Hnd|].
  apply (Hfound 1%nat (announcement 9000 42 (ascii_bytes "Alice "))
           (broadcast_v4 DISCOVERY_PORT) (mkSocketAddr (V4 [10; 0; 0; 7]) 5)).
  - reflexivity.
  - apply (bool_decide_unpack _); vm_compute; exact I.
  - reflexivity.
  - intros [|[|j]] Hj; [split; [reflexivity|by eexists]..|lia].
  - intros [|j] d q Hj Hd; [|lia]. injection Hd as <-. vm_compute. discriminate.
Defined.

(** An announcement longer than the listener's buffer is cut, and lost when
    the cut falls inside a character. *)
Example long_name_lost :
  parse_announcement (take 512 (announcement 9000 421 (concat (replicate 250 [195; 177]))))
    (mkSocketAddr (V4 [10; 0; 0; 7]) 5) = None.
Proof. vm_compute. reflexivity. Qed.
