(* ===== verification/Session.v ===== *)
(** * Sessions

    Models [gravital-talk-transport/src/session.rs], apart from the handshake:
    the session's state, audio and control sending, the dispatch of received
    packets, polling, liveness and closing.  Every operation is a computation
    over the whole session and the log of datagrams handed to the transport;
    effects that precede an error persist, as in the code. *)

From stdpp Require Import strings.
From S2P Require Import Prelude.
From S2P Require Import CoreTypes.
From S2P Require Import Header.
From S2P Require Import Packet.
From S2P Require Import Message.
From S2P Require Import SessionFsm.
From S2P Require Import Crypto.
From S2P Require Import Fec.
From S2P Require Import JitterBuffer.
From S2P Require Import Ieee.
From S2P Require Import Metrics.
From S2P Require Import Congestion.
From S2P Require Import Transport.

Local Open Scope Z_scope.

(** ** State *)

Inductive SessionRole : Type := Client | Server.

Record Config : Type := mkConfig {
  cfg_sample_rate : Z;
  cfg_channels : Z;
  cfg_frame_duration_ms : Z;
  cfg_max_bitrate : Z;
  cfg_codec_preferred : Z;
  cfg_supported_codecs : list Z;
  cfg_capability_flags : Z;
  cfg_jitter_buffer_ms : Z;
  cfg_mtu : nat;
}.

Definition Config_default : Config :=
  mkConfig DEFAULT_SAMPLE_RATE 1 DEFAULT_FRAME_DURATION_MS DEFAULT_MAX_BITRATE 1 [1; 2] 0
    DEFAULT_JITTER_BUFFER_MS DEFAULT_MTU.

Record Session : Type := mkSession {
  s_state : SessionStateMachine;
  s_metrics : Metrics;
  s_jitter : JitterBuffer;
  s_config : Config;
  s_peer : option SocketAddr;
  s_session_id : Z;
  s_tx_sequence : Z;
  s_audio_tx_seq : Z;
  s_last_rx : Z;
  s_negotiated_codec : Z;
  s_encrypt_key : option (list Z);
  s_decrypt_key : option (list Z);
  s_congestion : CongestionController;
  s_fec_enc : FecEncoder;
  s_fec_dec : FecDecoder;
  s_ptt_active : bool;
  s_peer_ptt_active : bool;
  s_local_ssrc : Z;
  s_closed : bool;
}.

(** Field updates. *)

Definition set_state (v : SessionStateMachine) (s : Session) : Session :=
  mkSession v (s_metrics s) (s_jitter s) (s_config s) (s_peer s) (s_session_id s)
    (s_tx_sequence s) (s_audio_tx_seq s) (s_last_rx s) (s_negotiated_codec s) (s_encrypt_key s)
    (s_decrypt_key s) (s_congestion s) (s_fec_enc s) (s_fec_dec s) (s_ptt_active s)
    (s_peer_ptt_active s) (s_local_ssrc s) (s_closed s).
Definition set_metrics (v : Metrics) (s : Session) : Session :=
  mkSession (s_state s) v (s_jitter s) (s_config s) (s_peer s) (s_session_id s)
    (s_tx_sequence s) (s_audio_tx_seq s) (s_last_rx s) (s_negotiated_codec s) (s_encrypt_key s)
    (s_decrypt_key s) (s_congestion s) (s_fec_enc s) (s_fec_dec s) (s_ptt_active s)
    (s_peer_ptt_active s) (s_local_ssrc s) (s_closed s).
Definition set_jitter (v : JitterBuffer) (s : Session) : Session :=
  mkSession (s_state s) (s_metrics s) v (s_config s) (s_peer s) (s_session_id s)
    (s_tx_sequence s) (s_audio_tx_seq s) (s_last_rx s) (s_negotiated_codec s) (s_encrypt_key s)
    (s_decrypt_key s) (s_congestion s) (s_fec_enc s) (s_fec_dec s) (s_ptt_active s)
    (s_peer_ptt_active s) (s_local_ssrc s) (s_closed s).
Definition set_peer (v : option SocketAddr) (s : Session) : Session :=
  mkSession (s_state s) (s_metrics s) (s_jitter s) (s_config s) v (s_session_id s)
    (s_tx_sequence s) (s_audio_tx_seq s) (s_last_rx s) (s_negotiated_codec s) (s_encrypt_key s)
    (s_decrypt_key s) (s_congestion s) (s_fec_enc s) (s_fec_dec s) (s_ptt_active s)
    (s_peer_ptt_active s) (s_local_ssrc s) (s_closed s).
Definition set_session_id (v : Z) (s : Session) : Session :=
  mkSession (s_state s) (s_metrics s) (s_jitter s) (s_config s) (s_peer s) v (s_tx_sequence s)
    (s_audio_tx_seq s) (s_last_rx s) (s_negotiated_codec s) (s_encrypt_key s) (s_decrypt_key s)
    (s_congestion s) (s_fec_enc s) (s_fec_dec s) (s_ptt_active s) (s_peer_ptt_active s)
    (s_local_ssrc s) (s_closed s).
Definition set_tx_sequence (v : Z) (s : Session) : Session :=
  mkSession (s_state s) (s_metrics s) (s_jitter s) (s_config s) (s_peer s) (s_session_id s) v
    (s_audio_tx_seq s) (s_last_rx s) (s_negotiated_codec s) (s_encrypt_key s) (s_decrypt_key s)
    (s_congestion s) (s_fec_enc s) (s_fec_dec s) (s_ptt_active s) (s_peer_ptt_active s)
    (s_local_ssrc s) (s_closed s).
Definition set_audio_tx_seq (v : Z) (s : Session) : Session :=
  mkSession (s_state s) (s_metrics s) (s_jitter s) (s_config s) (s_peer s) (s_session_id s)
    (s_tx_sequence s) v (s_last_rx s) (s_negotiated_codec s) (s_encrypt_key s)
    (s_decrypt_key s) (s_congestion s) (s_fec_enc s) (s_fec_dec s) (s_ptt_active s)
    (s_peer_ptt_active s) (s_local_ssrc s) (s_closed s).
Definition set_last_rx (v : Z) (s : Session) : Session :=
  mkSession (s_state s) (s_metrics s) (s_jitter s) (s_config s) (s_peer s) (s_session_id s)
    (s_tx_sequence s) (s_audio_tx_seq s) v (s_negotiated_codec s) (s_encrypt_key s)
    (s_decrypt_key s) (s_congestion s) (s_fec_enc s) (s_fec_dec s) (s_ptt_active s)
    (s_peer_ptt_active s) (s_local_ssrc s) (s_closed s).
Definition set_negotiated_codec (v : Z) (s : Session) : Session :=
  mkSession (s_state s) (s_metrics s) (s_jitter s) (s_config s) (s_peer s) (s_session_id s)
    (s_tx_sequence s) (s_audio_tx_seq s) (s_last_rx s) v (s_encrypt_key s) (s_decrypt_key s)
    (s_congestion s) (s_fec_enc s) (s_fec_dec s) (s_ptt_active s) (s_peer_ptt_active s)
    (s_local_ssrc s) (s_closed s).
Definition set_encrypt_key (v : option (list Z)) (s : Session) : Session :=
  mkSession (s_state s) (s_metrics s) (s_jitter s) (s_config s) (s_peer s) (s_session_id s)
    (s_tx_sequence s) (s_audio_tx_seq s) (s_last_rx s) (s_negotiated_codec s) v
    (s_decrypt_key s) (s_congestion s) (s_fec_enc s) (s_fec_dec s) (s_ptt_active s)
    (s_peer_ptt_active s) (s_local_ssrc s) (s_closed s).
Definition set_decrypt_key (v : option (list Z)) (s : Session) : Session :=
  mkSession (s_state s) (s_metrics s) (s_jitter s) (s_config s) (s_peer s) (s_session_id s)
    (s_tx_sequence s) (s_audio_tx_seq s) (s_last_rx s) (s_negotiated_codec s) (s_encrypt_key s)
    v (s_congestion s) (s_fec_enc s) (s_fec_dec s) (s_ptt_active s) (s_peer_ptt_active s)
    (s_local_ssrc s) (s_closed s).
Definition set_congestion (v : CongestionController) (s : Session) : Session :=
  mkSession (s_state s) (s_metrics s) (s_jitter s) (s_config s) (s_peer s) (s_session_id s)
    (s_tx_sequence s) (s_audio_tx_seq s) (s_last_rx s) (s_negotiated_codec s) (s_encrypt_key s)
    (s_decrypt_key s) v (s_fec_enc s) (s_fec_dec s) (s_ptt_active s) (s_peer_ptt_active s)
    (s_local_ssrc s) (s_closed s).
Definition set_fec_enc (v : FecEncoder) (s : Session) : Session :=
  mkSession (s_state s) (s_metrics s) (s_jitter s) (s_config s) (s_peer s) (s_session_id s)
    (s_tx_sequence s) (s_audio_tx_seq s) (s_last_rx s) (s_negotiated_codec s) (s_encrypt_key s)
    (s_decrypt_key s) (s_congestion s) v (s_fec_dec s) (s_ptt_active s) (s_peer_ptt_active s)
    (s_local_ssrc s) (s_closed s).
Definition set_fec_dec (v : FecDecoder) (s : Session) : Session :=
  mkSession (s_state s) (s_metrics s) (s_jitter s) (s_config s) (s_peer s) (s_session_id s)
    (s_tx_sequence s) (s_audio_tx_seq s) (s_last_rx s) (s_negotiated_codec s) (s_encrypt_key s)
    (s_decrypt_key s) (s_congestion s) (s_fec_enc s) v (s_ptt_active s) (s_peer_ptt_active s)
    (s_local_ssrc s) (s_closed s).
Definition set_ptt_active (v : bool) (s : Session) : Session :=
  mkSession (s_state s) (s_metrics s) (s_jitter s) (s_config s) (s_peer s) (s_session_id s)
    (s_tx_sequence s) (s_audio_tx_seq s) (s_last_rx s) (s_negotiated_codec s) (s_encrypt_key s)
    (s_decrypt_key s) (s_congestion s) (s_fec_enc s) (s_fec_dec s) v (s_peer_ptt_active s)
    (s_local_ssrc s) (s_closed s).
Definition set_peer_ptt_active (v : bool) (s : Session) : Session :=
  mkSession (s_state s) (s_metrics s) (s_jitter s) (s_config s) (s_peer s) (s_session_id s)
    (s_tx_sequence s) (s_audio_tx_seq s) (s_last_rx s) (s_negotiated_codec s) (s_encrypt_key s)
    (s_decrypt_key s) (s_congestion s) (s_fec_enc s) (s_fec_dec s) (s_ptt_active s) v
    (s_local_ssrc s) (s_closed s).
Definition set_local_ssrc (v : Z) (s : Session) : Session :=
  mkSession (s_state s) (s_metrics s) (s_jitter s) (s_config s) (s_peer s) (s_session_id s)
    (s_tx_sequence s) (s_audio_tx_seq s) (s_last_rx s) (s_negotiated_codec s) (s_encrypt_key s)
    (s_decrypt_key s) (s_congestion s) (s_fec_enc s) (s_fec_dec s) (s_ptt_active s)
    (s_peer_ptt_active s) v (s_closed s).
Definition set_closed (v : bool) (s : Session) : Session :=
  mkSession (s_state s) (s_metrics s) (s_jitter s) (s_config s) (s_peer s) (s_session_id s)
    (s_tx_sequence s) (s_audio_tx_seq s) (s_last_rx s) (s_negotiated_codec s) (s_encrypt_key s)
    (s_decrypt_key s) (s_congestion s) (s_fec_enc s) (s_fec_dec s) (s_ptt_active s)
    (s_peer_ptt_active s) (s_local_ssrc s) v.

(** ** Session computations *)

Record World : Type := mkWorld {
  w_sess : Session;
  w_out : list (list Z * SocketAddr);
  w_ticks : nat;
  w_recvs : nat;
}.

Inductive outcome (A : Type) : Type :=
  | Done (a : A)
  | Fail (e : TransportError)
  | Crash.
Arguments Done {A} a.
Arguments Fail {A} e.
Arguments Crash {A}.

Definition SM (A : Type) : Type := World → World * outcome A.

#[export] Instance SM_ret : MRet SM := λ A a w, (w, Done a).
#[export] Instance SM_bind : MBind SM := λ A B f m w,
  let '(w, r) := m w in
  match r with
  | Done a => f a w
  | Fail e => (w, Fail e)
  | Crash => (w, Crash)
  end.

Definition throw {A} (e : TransportError) : SM A := λ w, (w, Fail e).
Definition get : SM Session := λ w, (w, Done (w_sess w)).
Definition modify (f : Session → Session) : SM unit := λ w,
  (mkWorld (f (w_sess w)) (w_out w) (w_ticks w) (w_recvs w), Done tt).

(** [r.map_err(TransportError::Protocol)?] *)
Definition proto {A} (r : result Error A) : SM A := λ w,
  (w, match r with Ok a => Done a | Err e => Fail (TeProtocol e) end).

(** A computation that may panic. *)
Definition may_panic {A} (r : checked A) : SM A := λ w,
  (w, match r with Val a => Done a | Panic => Crash end).

(** [let _ = m] / [m.ok()]: the error is dropped, the effects stay. *)
Definition ignore {A} (m : SM A) : SM unit := λ w,
  let '(w, r) := m w in (w, match r with Crash => Crash | _ => Done tt end).

(** [sm.transition(event)], as [Ok] or [Err]. *)
Definition transition (event : SessionEvent) : SM bool := λ w,
  let '(sm, r) := SessionStateMachine_transition (s_state (w_sess w)) event in
  (mkWorld (set_state sm (w_sess w)) (w_out w) (w_ticks w) (w_recvs w), Done (is_ok r)).

(** [.transition(event).map_err(|_| InvalidState(why))?] *)
Definition transition_or (event : SessionEvent) (why : string) : SM unit :=
  ok ← transition event; if (ok : bool) then mret tt else throw (TeInvalidState why).

(** [tx_sequence.fetch_add(1)] and [audio_tx_seq.fetch_add(1)]. *)
Definition next_sequence : SM Z :=
  s ← get; _ ← modify (set_tx_sequence (wrap32 (s_tx_sequence s + 1))); mret (s_tx_sequence s).
Definition next_audio_seq : SM Z :=
  s ← get; _ ← modify (set_audio_tx_seq (wrap32 (s_audio_tx_seq s + 1)));
  mret (s_audio_tx_seq s).

Definition with_counters (f : Counters → Counters) (m : Metrics) : Metrics :=
  mkMetrics (m_rtt m) (m_jitter m) (m_loss m) (f (m_counters m)).
Definition with_loss (l : LossTracker) (m : Metrics) : Metrics :=
  mkMetrics (m_rtt m) (m_jitter m) l (m_counters m).
Definition with_jitter (j : JitterEstimator) (m : Metrics) : Metrics :=
  mkMetrics (m_rtt m) j (m_loss m) (m_counters m).

Definition count (f : Counters → Counters) : SM unit :=
  modify (λ s, set_metrics (with_counters f (s_metrics s)) s).

Section session.
Context `{Env} `{Aead}.

Definition micros_since_epoch : SM Z := λ w,
  (mkWorld (w_sess w) (w_out w) (S (w_ticks w)) (w_recvs w), Done (env_clock (w_ticks w))).

(** [transport.send_to]: the datagram is logged whether or not it fails. *)
Definition send_to (data : list Z) (dest : SocketAddr) : SM Z := λ w,
  (mkWorld (w_sess w) (w_out w ++ [(data, dest)]) (w_ticks w) (w_recvs w),
   match env_send (length (w_out w)) data dest with Ok n => Done n | Err e => Fail e end).

(** [timeout(.., transport.recv(&mut buf))] *)
Definition recv : SM RecvEvent := λ w,
  (mkWorld (w_sess w) (w_out w) (w_ticks w) (S (w_recvs w)), Done (env_recv (w_recvs w))).

(** Encoding into a buffer of [mtu] bytes, sending and counting: the tail
    of every sending operation. *)
Definition transmit (header : PacketHeader) (payload : list Z) (peer : SocketAddr) : SM unit :=
  s ← get;
  let buf := replicate (cfg_mtu (s_config s)) 0 in
  nb ← proto (PacketBuilder_encode header payload buf);
  sent ← send_to (take nb.1 nb.2) peer;
  count (λ c, Counters_record_sent c sent).

Definition send_control (msg : MessageType) (session_id : Z) (payload : list Z)
    (peer : SocketAddr) : SM unit :=
  seq ← next_sequence;
  ts ← micros_since_epoch;
  let header := PacketHeader_new (MessageType_code msg) session_id seq ts in
  transmit header payload peer.

(** [encrypt_in_place] over a buffer extended by the tag, with the encoded
    header as associated data. *)
Definition seal (key : list Z) (seq sid : Z) (header : PacketHeader) (plain : list Z) :
    SM (list Z) :=
  let nonce := make_nonce seq sid in
  hdr_buf ← proto (PacketHeader_encode header (replicate HEADER_SIZE 0));
  let plain_len := length plain in
  let buffer := plain ++ replicate TAG_SIZE 0 in
  r ← proto (encrypt_in_place key nonce hdr_buf buffer plain_len);
  mret (take r.2 r.1).

Definition send_fec_parity (parity : FecParity) (peer : SocketAddr) (sid : Z) : SM unit :=
  let fec_payload :=
    be_bytes 4 (par_seq_base parity) ++ [par_window parity] ++ par_payload parity in
  seq ← next_sequence;
  ts ← micros_since_epoch;
  let header :=
    mkPacketHeader 1 Flags_ENCRYPTED (MessageType_code AudioFec) sid seq ts in
  s ← get;
  match s_encrypt_key s with
  | Some key =>
      sealed ← seal key seq sid header fec_payload;
      transmit header sealed peer
  | None => mret tt
  end.

Definition send_audio (payload : list Z) : SM unit :=
  s ← get;
  if decide (sm_state (s_state s) ≠ Active) then throw (TeInvalidState "not active")
  else
    match s_peer s with
    | None => throw (TeInvalidState "no peer")
    | Some peer =>
        audio_seq ← next_audio_seq;
        seq ← next_sequence;
        ts ← micros_since_epoch;
        s ← get;
        let sid := s_session_id s in
        let prefixed := be_bytes 4 audio_seq ++ payload in
        let header :=
          mkPacketHeader 1 Flags_ENCRYPTED (MessageType_code AudioFrame) sid seq ts in
        _ ← match s_encrypt_key s with
            | Some key =>
                wire_payload ← seal key seq sid header prefixed;
                transmit header wire_payload peer
            | None =>
                let header :=
                  mkPacketHeader 1 Flags_empty (MessageType_code AudioFrame) sid seq ts in
                transmit header prefixed peer
            end;
        s ← get;
        let '(fec, parity) := FecEncoder_push (s_fec_enc s) audio_seq payload in
        _ ← modify (set_fec_enc fec);
        match parity with
        | Some parity => ignore (send_fec_parity parity peer sid)
        | None => mret tt
        end
    end.

Definition ptt_press : SM unit :=
  _ ← modify (set_ptt_active true);
  s ← get;
  match s_peer s with
  | Some p =>
      let sid := s_session_id s in
      let ssrc_buf := be_bytes 4 sid in
      _ ← send_control FloorRequest sid ssrc_buf p;
      send_control ControlResume sid [] p
  | None => mret tt
  end.

Definition ptt_release : SM unit :=
  _ ← modify (set_ptt_active false);
  s ← get;
  match s_peer s with
  | Some p =>
      let sid := s_session_id s in
      let ssrc_buf := be_bytes 4 sid in
      _ ← send_control FloorRelease sid ssrc_buf p;
      send_control ControlPause sid [] p
  | None => mret tt
  end.
End session.

(** ** Construction *)

(** [u32::next_power_of_two] for a positive argument. *)
Definition next_power_of_two (n : Z) : Z := 2 ^ Z.log2_up n.

Definition jitter_slots (buffer_ms frame_ms : Z) : Z :=
  let frames := Z.max (buffer_ms / Z.max frame_ms 1) 1 in
  Z.max (next_power_of_two frames) 16.

Definition Session_new (config : Config) : checked Session :=
  let jitter_depth := jitter_slots (cfg_jitter_buffer_ms config) (cfg_frame_duration_ms config) in
  let max_br := cfg_max_bitrate config in
  jitter ← JitterBuffer_new jitter_depth;
  congestion ← CongestionController_new max_br CONGESTION_MIN_BITRATE max_br;
  Val (mkSession SessionStateMachine_new Metrics_new jitter config None 0 0 0 0 0 None None
         congestion FecEncoder_with_default_window FecDecoder_with_default_window
         false false 0 false).

(** ** Receiving *)

Section session_recv.
Context `{Env} `{Aead}.

(** [decrypt_in_place] on a copy of the payload. *)
Definition unseal (key : list Z) (seq sid : Z) (raw_buf payload : list Z) :
    result Error (list Z) :=
  let nonce := make_nonce seq sid in
  let aad := take HEADER_SIZE raw_buf in
  r ← decrypt_in_place key nonce aad payload (length payload);
  Ok (take r.2 r.1).

Definition push_jitter (frame : Frame) : SM unit :=
  s ← get;
  r ← may_panic (JitterBuffer_push (s_jitter s) frame);
  modify (set_jitter r.1).

(** The [AudioFrame] arm, once the plaintext is known. *)
Definition deliver_audio (ts : Z) (plaintext : list Z) : SM unit :=
  if decide (length plaintext < 4)%nat then count Counters_record_integrity_error
  else
    let audio_seq := from_be (take 4 plaintext) in
    let audio_payload := drop 4 plaintext in
    let frame := mkFrame audio_seq ts audio_payload in
    s ← get;
    loss ← may_panic (LossTracker_record env_overflow_checks (m_loss (s_metrics s)) audio_seq);
    _ ← modify (λ s, set_metrics (with_loss loss (s_metrics s)) s);
    now ← micros_since_epoch;
    s ← get;
    jit ← may_panic (JitterEstimator_record env_overflow_checks (m_jitter (s_metrics s)) ts now);
    _ ← modify (λ s, set_metrics (with_jitter jit (s_metrics s)) s);
    s ← get;
    fec ← may_panic (FecDecoder_push_data (s_fec_dec s) audio_seq audio_payload);
    _ ← modify (set_fec_dec fec.1);
    push_jitter frame.

Definition dispatch_audio (view : PacketView) (raw_buf : list Z) : SM unit :=
  s ← get;
  let sid := s_session_id s in
  let seq := ph_sequence (pv_header view) in
  let ts := ph_timestamp (pv_header view) in
  if Flags_contains (ph_flags (pv_header view)) Flags_ENCRYPTED then
    match s_decrypt_key s with
    | Some key =>
        match unseal key seq sid raw_buf (pv_payload view) with
        | Ok plaintext => deliver_audio ts plaintext
        | Err _ => count Counters_record_integrity_error
        end
    | None => count Counters_record_integrity_error
    end
  else deliver_audio ts (pv_payload view).

Definition dispatch_fec (view : PacketView) (raw_buf : list Z) : SM unit :=
  s ← get;
  let sid := s_session_id s in
  let seq := ph_sequence (pv_header view) in
  if Flags_contains (ph_flags (pv_header view)) Flags_ENCRYPTED then
    match s_decrypt_key s with
    | Some key =>
        match unseal key seq sid raw_buf (pv_payload view) with
        | Ok fec_data =>
            if decide (5 ≤ length fec_data)%nat then
              let seq_base := from_be (take 4 fec_data) in
              let window := fec_data !!! 4%nat in
              let fec_parity := mkFecParity seq_base window (drop 5 fec_data) in
              let '(fec, recovered) := FecDecoder_push_parity (s_fec_dec s) fec_parity in
              _ ← modify (set_fec_dec fec);
              match recovered with
              | Some (rec_seq, rec_payload) => push_jitter (mkFrame rec_seq 0 rec_payload)
              | None => mret tt
              end
            else mret tt
        | Err _ => count Counters_record_integrity_error
        end
    | None => mret tt
    end
  else mret tt.

Definition dispatch_packet (view : PacketView) (raw_buf : list Z) : SM unit :=
  s ← get;
  match MessageType_from_code (ph_msg_type (pv_header view)) with
  | Ok AudioFrame => dispatch_audio view raw_buf
  | Ok Heartbeat =>
      match s_peer s with
      | Some p => send_control HeartbeatAck (s_session_id s) [] p
      | None => mret tt
      end
  | Ok HeartbeatAck => mret tt
  | Ok AudioFec => dispatch_fec view raw_buf
  | Ok ControlPause => modify (set_peer_ptt_active false)
  | Ok ControlResume => modify (set_peer_ptt_active true)
  | Ok FloorRequest =>
      if negb (s_ptt_active s) then
        match s_peer s with
        | Some p =>
            let ssrc := s_session_id s in
            ignore (send_control FloorGrant (s_session_id s) (be_bytes 4 ssrc) p)
        | None => mret tt
        end
      else mret tt
  | Ok FloorGrant => mret tt
  | Ok FloorDeny => modify (set_ptt_active false)
  | Ok FloorRelease => modify (set_peer_ptt_active false)
  | Ok FloorTaken => mret tt
  | Ok ControlBitrate =>
      match ControlBitrateMsg_decode (pv_payload view) with
      | Ok msg =>
          c ← may_panic (CongestionController_set_bitrate (s_congestion s)
                           (cb_requested_bitrate msg));
          modify (set_congestion c)
      | Err _ => mret tt
      end
  | Ok MtClose =>
      _ ← transition PeerClosed;
      throw (TePeerClosed "remote close")
  | Ok _ => mret tt
  | Err _ => count Counters_record_integrity_error
  end.

(** ** Polling, liveness and closing *)

Definition send_heartbeat : SM unit :=
  s ← get;
  match s_peer s with
  | Some p => send_control Heartbeat (s_session_id s) [] p
  | None => mret tt
  end.

Definition check_liveness : SM unit :=
  now ← micros_since_epoch;
  s ← get;
  let last := s_last_rx s in
  if negb (last =? 0) && (HEARTBEAT_TIMEOUT_MS * 1000 <? Z.max 0 (now - last)) then
    _ ← transition PeerTimeout;
    throw (TePeerClosed "heartbeat timeout")
  else
    let loss_rate := f32_div (LossTracker_loss_percent (m_loss (s_metrics s))) (f32_of_Z 100) in
    let rtt_us := default 0 (RttEstimator_current_us (m_rtt (s_metrics s))) in
    c ← may_panic (CongestionController_update (s_congestion s) loss_rate rtt_us);
    modify (set_congestion c).

(** What [poll_once] and [recv_audio] do with one received datagram. *)
Definition on_datagram (data : list Z) : SM unit :=
  _ ← count (λ c, Counters_record_received c (Z.of_nat (length data)));
  match PacketView_decode data with
  | Ok view =>
      now ← micros_since_epoch;
      _ ← modify (set_last_rx now);
      dispatch_packet view data
  | Err _ => count Counters_record_integrity_error
  end.

Definition poll_once : SM unit :=
  ev ← recv;
  match ev with
  | RecvData data _ => on_datagram data
  | RecvErr e => throw e
  | RecvTimeout =>
      s ← get;
      match sm_state (s_state s) with
      | Active | Paused => _ ← send_heartbeat; check_liveness
      | _ => mret tt
      end
  end.

(** The loop of [recv_audio]; [None] when it has not returned after [fuel]
    rounds.  The source has no bound and no timeout for the whole call: the
    loop may run for ever, and [fuel] only says how far it is followed. *)
Fixpoint recv_audio_loop (fuel : nat) (skip_us deadline_us : Z) : SM (option Frame) :=
  match fuel with
  | O => mret None
  | S fuel =>
      now_us ← micros_since_epoch;
      s ← get;
      r ← may_panic (JitterBuffer_pop_with_deadline (s_jitter s) now_us deadline_us);
      _ ← modify (set_jitter r.1);
      match r.2 with
      | Some frame => mret (Some frame)
      | None =>
          if deadline_us <=? now_us then
            deadline_us ← may_panic (u64_add env_overflow_checks now_us skip_us);
            recv_audio_loop fuel skip_us deadline_us
          else
            ev ← recv;
            match ev with
            | RecvData data _ => _ ← on_datagram data; recv_audio_loop fuel skip_us deadline_us
            | RecvErr e => throw e
            | RecvTimeout => recv_audio_loop fuel skip_us deadline_us
            end
      end
  end.

Definition recv_audio (fuel : nat) : SM (option Frame) :=
  s ← get;
  let skip_us := cfg_jitter_buffer_ms (s_config s) * 3 * 1000 in
  now ← micros_since_epoch;
  deadline_us ← may_panic (u64_add env_overflow_checks now skip_us);
  recv_audio_loop fuel skip_us deadline_us.

Definition close : SM unit :=
  _ ← modify (set_closed true);
  _ ← modify (set_encrypt_key None);
  _ ← modify (set_decrypt_key None);
  s ← get;
  _ ← match s_peer s with
      | Some p => ignore (send_control MtClose (s_session_id s) [] p)
      | None => mret tt
      end;
  _ ← transition EvClose;
  _ ← transition EvClose;
  mret tt.
End session_recv.
