(* ===== verification/SessionSeq.v ===== *)
(** * Sequence numbers and nonces of a session

    Every packet a session sends carries a fresh value of its sequence
    counter, and every encrypted packet is sealed under the nonce made of that
    value.  The proof is compositional: [silent] computations neither send nor
    advance the counter, [seq_emit] computations send at most one packet under
    a given number, and [seq_ok k] computations use at most [k] numbers. *)

From stdpp Require Import strings.
From Stdlib Require Import Sorted.
From S2P Require Import Prelude.
From S2P Require Import CoreTypes.
From S2P Require Import Header.
From S2P Require Import Packet.
From S2P Require Import Message.
From S2P Require Import SessionFsm.
From S2P Require Import Crypto.
From S2P Require Import Fec.
From S2P Require Import JitterBuffer.
From S2P Require Import Ieee.
From S2P Require Import Metrics.
From S2P Require Import Congestion.
From S2P Require Import Transport.
From S2P Require Import Session.

Section seq.
Context `{Env} `{Aead}.

(** [d] is the encoding of a packet numbered [seq]; if its header says it is
    encrypted, its payload was sealed under the nonce of [seq] and the
    session id, with the header as associated data. *)
Definition sent_with (d : list Z) (seq : Z) : Prop :=
  ∃ h payload buf n out,
    PacketBuilder_encode h payload buf = Ok (n, out) ∧ d = take n out
    ∧ ph_sequence h = seq
    ∧ (Flags_contains (ph_flags h) Flags_ENCRYPTED = true →
       ∃ key aad plain sealed m,
         PacketHeader_encode h (replicate HEADER_SIZE 0) = Ok aad
         ∧ encrypt_in_place key (make_nonce seq (ph_session_id h)) aad
             (plain ++ replicate TAG_SIZE 0) (length plain) = Ok (sealed, m)
         ∧ payload = take m sealed).

(** The sequence number a datagram carries: the field [PacketHeader::decode]
    reads. *)
Definition wire_sequence (d : list Z) : Z := rd32 d offsets.SEQUENCE.

(** A packet sent under a 32-bit number carries that number. *)
Lemma wire_sequence_sent d seq : u32 seq → sent_with d seq → wire_sequence d = seq.
Proof.
  intros Hu (h & payload & buf & n & out & Henc & -> & Hseq & _).
  destruct (PacketBuilder_encode_header _ _ _ _ _ Henc) as [rest ->].
  unfold wire_sequence. rewrite rd32_slice.
  2: { rewrite length_app, length_header_image. unfold HEADER_SIZE, offsets.SEQUENCE. lia. }
  change (from_be (be_bytes 4 (ph_sequence h)) = seq). rewrite Hseq. by apply from_be_be32.
Qed.

(** What is known of the numbers of the packets of [out]: each carries a
    32-bit number and is sent, and sealed, under the number it carries, and
    no two carry the same. *)
Definition numbered_apart (out : list (list Z * SocketAddr)) : Prop :=
  Forall (λ dp, u32 (wire_sequence dp.1) ∧ sent_with dp.1 (wire_sequence dp.1)) out
  ∧ NoDup ((λ dp, wire_sequence dp.1) <$> out).

Lemma numbered_apart_intro out seqs :
  Forall2 (λ dp seq, u32 seq ∧ sent_with dp.1 seq) out seqs → NoDup seqs → numbered_apart out.
Proof.
  intros Hf Hnd. assert ((λ dp, wire_sequence dp.1) <$> out = seqs) as Heq.
  { clear Hnd. induction Hf as [|dp seq out seqs [Hu Hs] Hf IH]; [done|].
    rewrite fmap_cons, IH. f_equal. by apply wire_sequence_sent. }
  split; [|by rewrite Heq]. clear Heq Hnd. induction Hf as [|dp seq out seqs [Hu Hs] Hf IH]; [done|].
  constructor; [|done]. by rewrite (wire_sequence_sent dp.1 seq).
Qed.

Definition tx (w : World) : Z := s_tx_sequence (w_sess w).

Definition same_tx (w w' : World) : Prop := tx w' = tx w ∧ w_out w' = w_out w.

Definition silent {A} (m : SM A) : Prop := ∀ w, same_tx w (m w).1.

Definition emitted (seq : Z) (w w' : World) : Prop :=
  tx w' = tx w
  ∧ (w_out w' = w_out w
     ∨ ∃ d p, w_out w' = w_out w ++ [(d, p)] ∧ sent_with d seq).

Definition seq_emit {A} (seq : Z) (m : SM A) : Prop := ∀ w, emitted seq w (m w).1.

(** [w'] is reached from [w] using [n <= k] sequence numbers; the packets
    sent in between are numbered in increasing order among these. *)
Definition seq_ext (k : Z) (w w' : World) : Prop :=
  ∃ n new ks, 0 ≤ n ≤ k
    ∧ tx w' = wrap32 (tx w + n)
    ∧ w_out w' = w_out w ++ new
    ∧ Forall2 (λ dp o, 0 ≤ o < n ∧ sent_with dp.1 (wrap32 (tx w + o))) new ks
    ∧ StronglySorted Z.lt ks.

Definition seq_ok {A} (k : Z) (m : SM A) : Prop :=
  ∀ w, u32 (tx w) → u32 (tx (m w).1) ∧ seq_ext k w (m w).1.

(** After number [seq] has been taken: at most one packet under [seq], then
    at most [k] numbers more. *)
Definition after_seq {A} (seq k : Z) (m : SM A) : Prop :=
  ∀ w, u32 (tx w) → ∃ mid, emitted seq w mid ∧ u32 (tx (m w).1) ∧ seq_ext k mid (m w).1.

(** ** Silent computations *)

Lemma silent_ret {A} (a : A) : silent (mret a).
Proof. by intros w. Qed.
Lemma silent_get : silent get.
Proof. by intros w. Qed.
Lemma silent_throw {A} e : silent (throw (A := A) e).
Proof. by intros w. Qed.
Lemma silent_proto {A} (r : result Error A) : silent (proto r).
Proof. by intros w. Qed.
Lemma silent_may_panic {A} (r : checked A) : silent (may_panic r).
Proof. by intros w. Qed.
Lemma silent_clock : silent micros_since_epoch.
Proof. by intros w. Qed.
Lemma silent_recv : silent recv.
Proof. by intros w. Qed.
Lemma silent_modify f : (∀ s, s_tx_sequence (f s) = s_tx_sequence s) → silent (modify f).
Proof. intros Hf w. split; [apply Hf|done]. Qed.
Lemma silent_transition e : silent (transition e).
Proof. intros w. unfold transition. by destruct (SessionStateMachine_transition _ _). Qed.

Lemma silent_bind {A B} (m : SM A) (f : A → SM B) :
  silent m → (∀ a, silent (f a)) → silent (m ≫= f).
Proof.
  intros Hm Hf w. unfold mbind, SM_bind. specialize (Hm w).
  destruct (m w) as [w1 [a|e|]]; [|done..].
  destruct (Hf a w1), Hm. simpl in *. split; congruence.
Qed.

Lemma silent_ignore {A} (m : SM A) : silent m → silent (ignore m).
Proof. intros Hm w. unfold ignore. specialize (Hm w). by destruct (m w). Qed.

Lemma silent_audio_seq : silent next_audio_seq.
Proof. by intros w. Qed.

Lemma silent_count f : silent (count f).
Proof. by apply silent_modify. Qed.

Lemma silent_seal key seq sid h plain : silent (seal key seq sid h plain).
Proof.
  apply silent_bind; [apply silent_proto|intros]. apply silent_bind; [apply silent_proto|intros].
  apply silent_ret.
Qed.

(** ** One packet *)

Lemma emitted_refl seq w : emitted seq w w.
Proof. split; auto. Qed.

Lemma seq_emit_silent {A} seq (m : SM A) : silent m → seq_emit seq m.
Proof. intros Hm w. destruct (Hm w). split; auto. Qed.

Lemma seq_emit_bind_silent {A B} seq (m : SM A) (f : A → SM B) :
  silent m → (∀ a, seq_emit seq (f a)) → seq_emit seq (m ≫= f).
Proof.
  intros Hm Hf w. unfold mbind, SM_bind. specialize (Hm w).
  destruct (m w) as [w1 [a|e|]]; destruct Hm as [Ht Ho]; simpl in *; [|by split; auto..].
  destruct (Hf a w1) as [Ht' Ho']. split; [congruence|]. by rewrite Ho in Ho'.
Qed.

Lemma seq_emit_then_silent {A B} seq (m : SM A) (f : A → SM B) :
  seq_emit seq m → (∀ a, silent (f a)) → seq_emit seq (m ≫= f).
Proof.
  intros Hm Hf w. unfold mbind, SM_bind. specialize (Hm w).
  destruct (m w) as [w1 [a|e|]]; [|done..].
  destruct (Hf a w1) as [Ht' Ho'], Hm as [Ht Ho]. simpl in *.
  split; [congruence|]. by rewrite Ho'.
Qed.

(** The tail of every sending operation. *)
Lemma seq_emit_transmit seq h payload peer :
  ph_sequence h = seq →
  (Flags_contains (ph_flags h) Flags_ENCRYPTED = true →
     ∃ key aad plain sealed m,
       PacketHeader_encode h (replicate HEADER_SIZE 0) = Ok aad
       ∧ encrypt_in_place key (make_nonce seq (ph_session_id h)) aad
           (plain ++ replicate TAG_SIZE 0) (length plain) = Ok (sealed, m)
       ∧ payload = take m sealed) →
  seq_emit seq (transmit h payload peer).
Proof.
  intros Hs He. apply seq_emit_bind_silent; [apply silent_get|intros s].
  intros w. unfold mbind at 1, SM_bind, proto.
  destruct (PacketBuilder_encode _ _ _) as [[n out]|e] eqn:Henc; [|apply emitted_refl].
  assert (sent_with (take n out) seq) as Hd by (unfold sent_with; eauto 12).
  apply seq_emit_then_silent; [|intros; apply silent_count].
  intros w1. split; [done|]. right. by eexists _, _.
Qed.

Lemma seq_emit_sealed key seq sid h plain peer :
  ph_sequence h = seq → ph_session_id h = sid →
  seq_emit seq (sealed ← seal key seq sid h plain; transmit h sealed peer).
Proof.
  intros Hs Hi w. unfold mbind at 1, SM_bind. unfold seal.
  unfold mbind at 1, SM_bind, proto at 1.
  destruct (PacketHeader_encode _ _) as [aad|] eqn:Ha; [|apply emitted_refl].
  unfold mbind at 1, SM_bind, proto at 1.
  destruct (encrypt_in_place _ _ _ _ _) as [[buf m]|] eqn:He; [|apply emitted_refl].
  unfold mret, SM_ret. cbn [fst snd].
  apply seq_emit_transmit; [done|]. intros _. subst sid. eauto 10.
Qed.

(** ** Extensions *)

Lemma seq_ext_refl w : u32 (tx w) → seq_ext 0 w w.
Proof.
  intros Hu. exists 0, [], []. rewrite Z.add_0_r, app_nil_r.
  split_and!; [lia|lia|by rewrite wrap32_id|done|constructor|constructor].
Qed.

Lemma seq_ext_mono k k' w w' : k ≤ k' → seq_ext k w w' → seq_ext k' w w'.
Proof. intros ? (n & new & ks & Hn & ?). exists n, new, ks. split; [lia|done]. Qed.

Lemma seq_ext_trans k1 k2 w1 w2 w3 :
  seq_ext k1 w1 w2 → seq_ext k2 w2 w3 → seq_ext (k1 + k2) w1 w3.
Proof.
  intros (n1 & new1 & ks1 & Hn1 & Ht1 & Ho1 & Hf1 & Hs1)
         (n2 & new2 & ks2 & Hn2 & Ht2 & Ho2 & Hf2 & Hs2).
  exists (n1 + n2), (new1 ++ new2), (ks1 ++ ((λ o, n1 + o) <$> ks2)). split_and!.
  - lia.
  - lia.
  - rewrite Ht2, Ht1. clear. dlia.
  - by rewrite Ho2, Ho1, app_assoc.
  - apply Forall2_app.
    + eapply Forall2_impl; [|exact Hf1]. intros dp o [? ?]. split; [lia|done].
    + apply Forall2_fmap_r. eapply Forall2_impl; [|exact Hf2]. intros dp o [? Hd]. simpl.
      split; [lia|]. rewrite Ht1 in Hd.
      replace (wrap32 (tx w1 + (n1 + o))) with (wrap32 (wrap32 (tx w1 + n1) + o)); [done|].
      clear. dlia.
  - assert (Forall (λ o, o < n1) ks1) as Hlt.
    { clear -Hf1. induction Hf1; constructor; [lia|done]. }
    assert (Forall (λ o, 0 ≤ o) ks2) as Hge.
    { clear -Hf2. induction Hf2; constructor; [lia|done]. }
    assert (StronglySorted Z.lt ((λ o, n1 + o) <$> ks2)) as Hs2'.
    { clear -Hs2. induction Hs2 as [|k ks ? IH Hk]; simpl; [constructor|].
      constructor; [done|]. apply Forall_fmap. eapply Forall_impl; [|exact Hk].
      intros o ?. unfold compose. lia. }
    clear -Hs1 Hlt Hge Hs2'. induction Hs1 as [|k ks ? IH Hk]; simpl; [done|].
    inversion_clear Hlt. constructor; [by apply IH|]. apply Forall_app. split; [done|].
    apply Forall_fmap. eapply Forall_impl; [|exact Hge]. intros o Ho. cbn beta in Ho. unfold compose. lia.
Qed.

Lemma seq_ext_same w w' : u32 (tx w) → same_tx w w' → seq_ext 0 w w'.
Proof.
  intros Hu [Ht Ho]. destruct (seq_ext_refl w Hu) as (n & new & ks & ? & Htx & Hout & ? & ?).
  exists n, new, ks. split_and!; [lia|lia|congruence|congruence|done|done].
Qed.

(** ** Composition *)

Lemma seq_ok_silent {A} (m : SM A) : silent m → seq_ok 0 m.
Proof.
  intros Hm w Hu. pose proof (Hm w) as Hs. split; [by rewrite (proj1 Hs)|].
  by apply seq_ext_same.
Qed.

Lemma seq_ok_silent_le {A} k (m : SM A) : 0 ≤ k → silent m → seq_ok k m.
Proof.
  intros Hk Hm w Hu. destruct (seq_ok_silent m Hm w Hu) as [? (n & new & ks & Hn & ?)].
  split; [done|]. exists n, new, ks. split; [lia|done].
Qed.

Lemma seq_ok_mono {A} k k' (m : SM A) : k ≤ k' → seq_ok k m → seq_ok k' m.
Proof. intros Hk Hm w Hu. destruct (Hm w Hu). eauto using seq_ext_mono. Qed.

Lemma seq_ok_bind {A B} k1 k2 (m : SM A) (f : A → SM B) :
  0 ≤ k2 → seq_ok k1 m → (∀ a, seq_ok k2 (f a)) → seq_ok (k1 + k2) (m ≫= f).
Proof.
  intros Hk Hm Hf w Hu. unfold mbind, SM_bind. destruct (Hm w Hu) as [Hu1 He1].
  destruct (m w) as [w1 [a|e|]]; simpl in *.
  - destruct (Hf a w1 Hu1). eauto using seq_ext_trans.
  - split; [done|]. eapply seq_ext_mono; [|done]. lia.
  - split; [done|]. eapply seq_ext_mono; [|done]. lia.
Qed.

Lemma seq_ok_ignore {A} k (m : SM A) : seq_ok k m → seq_ok k (ignore m).
Proof. intros Hm w Hu. unfold ignore. specialize (Hm w Hu). by destruct (m w). Qed.

Lemma after_seq_emit {A} seq (m : SM A) : seq_emit seq m → after_seq seq 0 m.
Proof.
  intros Hm w Hu. exists (m w).1. pose proof (Hm w) as He. split; [done|].
  assert (u32 (tx (m w).1)) by (by rewrite (proj1 He)). split; [done|]. by apply seq_ext_refl.
Qed.

Lemma after_seq_bind_silent {A B} seq k (m : SM A) (f : A → SM B) :
  0 ≤ k → silent m → (∀ a, after_seq seq k (f a)) → after_seq seq k (m ≫= f).
Proof.
  intros Hk Hm Hf w Hu. unfold mbind, SM_bind. specialize (Hm w).
  destruct (m w) as [w1 r]; destruct Hm as [Ht Ho]; simpl in *.
  assert (u32 (tx w1)) as Hu1 by (by rewrite Ht).
  assert (∃ mid, emitted seq w mid ∧ u32 (tx w1) ∧ seq_ext k mid w1) as Hstop.
  { exists w1. split; [split; auto|]. split; [done|].
    eapply seq_ext_mono; [|by apply seq_ext_refl]. done. }
  destruct r as [a|e|]; [|done..].
  destruct (Hf a w1 Hu1) as (mid & [Hmt Hmo] & Hrest). exists mid. split; [|done].
  split; [congruence|]. by rewrite Ho in Hmo.
Qed.

Lemma after_seq_emit_bind {A B} seq k (m : SM A) (f : A → SM B) :
  0 ≤ k → seq_emit seq m → (∀ a, seq_ok k (f a)) → after_seq seq k (m ≫= f).
Proof.
  intros Hk Hm Hf w Hu. unfold mbind, SM_bind. specialize (Hm w).
  destruct (m w) as [w1 r]; simpl in *.
  assert (u32 (tx w1)) as Hu1 by (by rewrite (proj1 Hm)).
  exists w1. split; [done|].
  destruct r as [a|e|]; [by apply Hf|..];
    (split; [done|]; eapply seq_ext_mono; [|by apply seq_ext_refl]; done).
Qed.

(** Taking a sequence number. *)
Lemma seq_ok_next {B} k (f : Z → SM B) :
  (∀ seq, after_seq seq k (f seq)) → seq_ok (1 + k) (next_sequence ≫= f).
Proof.
  intros Hf w Hu.
  set (w1 := mkWorld (set_tx_sequence (wrap32 (tx w + 1)) (w_sess w)) (w_out w)
               (w_ticks w) (w_recvs w)).
  change ((next_sequence ≫= f) w) with (f (tx w) w1).
  assert (tx w1 = wrap32 (tx w + 1)) as Htx by done.
  destruct (Hf (tx w) w1) as (mid & [Hmt Hmo] & Hu' & Hext); [rewrite Htx; auto with gs|].
  split; [done|]. eapply (seq_ext_trans 1 k); [|exact Hext].
  destruct Hmo as [Hmo|(d & p & Hmo & Hd)].
  - exists 1, [], []. rewrite Hmt, Hmo, app_nil_r.
    split_and!; [lia|lia|done|done|constructor|constructor].
  - exists 1, [(d, p)], [0]. rewrite Hmt, Hmo. split_and!; [lia|lia|done|done|..].
    + constructor; [|constructor]. split; [lia|]. rewrite Z.add_0_r. by rewrite wrap32_id.
    + repeat constructor.
Qed.
End seq.

#[export] Hint Resolve silent_ret silent_get silent_throw silent_proto silent_may_panic
  silent_clock silent_recv silent_transition silent_audio_seq silent_count silent_seal : gs.

(** Solves [silent] goals by following the structure of the computation. *)
Ltac silent :=
  repeat first
    [ progress intros
    | by auto with gs
    | apply silent_modify
    | apply silent_ignore
    | apply silent_bind
    | match goal with
      | |- silent (let '(_, _) := ?p in _) => destruct p
      | |- silent (match ?x with _ => _ end) => destruct x
      | |- silent (if ?b then _ else _) => destruct b
      end ].

Section seq_ops.
Context `{Env} `{Aead}.

Lemma seq_ok_send_control msg sid payload peer : seq_ok 1 (send_control msg sid payload peer).
Proof.
  apply (seq_ok_next 0). intros seq. apply after_seq_bind_silent; [done|silent|intros ts].
  apply after_seq_emit, seq_emit_transmit; done.
Qed.

Lemma seq_ok_send_fec parity peer sid : seq_ok 1 (send_fec_parity parity peer sid).
Proof.
  apply (seq_ok_next 0). intros seq.
  apply after_seq_bind_silent; [done|silent|intros ts].
  apply after_seq_bind_silent; [done|silent|intros s].
  apply after_seq_emit. destruct (s_encrypt_key s); [by apply seq_emit_sealed|].
  apply seq_emit_silent. silent.
Qed.

Lemma seq_ok_send_audio payload : seq_ok 2 (send_audio payload).
Proof.
  apply (seq_ok_bind 0 2); [done|apply seq_ok_silent; silent|intros s].
  case_decide; [apply seq_ok_silent_le; [done|silent]|].
  destruct (s_peer s) as [peer|]; [|apply seq_ok_silent_le; [done|silent]].
  apply (seq_ok_bind 0 2); [done|apply seq_ok_silent; silent|intros audio_seq].
  apply (seq_ok_next 1). intros seq.
  apply after_seq_bind_silent; [done|silent|intros ts].
  apply after_seq_bind_silent; [done|silent|intros s'].
  apply after_seq_emit_bind; [done|..].
  { destruct (s_encrypt_key s'); [by apply seq_emit_sealed|].
    by apply seq_emit_transmit. }
  intros _. apply (seq_ok_bind 0 1); [done|apply seq_ok_silent; silent|intros s2].
  destruct (FecEncoder_push _ _ _) as [fec parity].
  apply (seq_ok_bind 0 1); [done|apply seq_ok_silent; silent|intros _].
  destruct parity; [apply seq_ok_ignore, seq_ok_send_fec|].
  apply seq_ok_silent_le; [done|silent].
Qed.

(** Both push-to-talk operations send two control packets. *)
Lemma seq_ok_ptt m1 p1 m2 active :
  seq_ok 2 (_ ← modify (set_ptt_active active); s ← get;
            match s_peer s with
            | Some p =>
                _ ← send_control m1 (s_session_id s) (p1 s) p;
                send_control m2 (s_session_id s) [] p
            | None => mret tt
            end).
Proof.
  apply (seq_ok_bind 0 2); [done|apply seq_ok_silent; silent|intros _].
  apply (seq_ok_bind 0 2); [done|apply seq_ok_silent; silent|intros s].
  destruct (s_peer s); [|apply seq_ok_silent_le; [done|silent]].
  apply (seq_ok_bind 1 1); [done|..]; intros; apply seq_ok_send_control.
Qed.

Lemma silent_dispatch_audio view raw : silent (dispatch_audio view raw).
Proof. unfold dispatch_audio, deliver_audio, push_jitter. silent. Qed.

Lemma silent_dispatch_fec view raw : silent (dispatch_fec view raw).
Proof. unfold dispatch_fec, push_jitter. silent. Qed.

Lemma seq_ok_dispatch view raw : seq_ok 1 (dispatch_packet view raw).
Proof.
  apply (seq_ok_bind 0 1); [done|apply seq_ok_silent; silent|intros s].
  pose proof (silent_dispatch_audio view raw). pose proof (silent_dispatch_fec view raw).
  destruct (MessageType_from_code _) as [mt|]; [|apply seq_ok_silent_le; [done|silent]].
  destruct mt; try (apply seq_ok_silent_le; [done|solve [done|silent]]).
  - destruct (s_peer s); [apply seq_ok_send_control|apply seq_ok_silent_le; [done|silent]].
  - destruct (negb _); [|apply seq_ok_silent_le; [done|silent]].
    destruct (s_peer s); [apply seq_ok_ignore, seq_ok_send_control|apply seq_ok_silent_le; [done|silent]].
Qed.

Lemma seq_ok_poll_once : seq_ok 1 poll_once.
Proof.
  apply (seq_ok_bind 0 1); [done|apply seq_ok_silent; silent|intros ev].
  destruct ev as [data from|e|]; [|apply seq_ok_silent_le; [done|silent]|].
  - apply (seq_ok_bind 0 1); [done|apply seq_ok_silent; silent|intros _].
    destruct (PacketView_decode data); [|apply seq_ok_silent_le; [done|silent]].
    apply (seq_ok_bind 0 1); [done|apply seq_ok_silent; silent|intros now].
    apply (seq_ok_bind 0 1); [done|apply seq_ok_silent; silent|intros _].
    apply seq_ok_dispatch.
  - apply (seq_ok_bind 0 1); [done|apply seq_ok_silent; silent|intros s].
    assert (seq_ok 1 (_ ← send_heartbeat; check_liveness)) as Hhb.
    { apply (seq_ok_bind 1 0); [done|..].
      - apply (seq_ok_bind 0 1); [done|apply seq_ok_silent; silent|intros s'].
        destruct (s_peer s'); [apply seq_ok_send_control|apply seq_ok_silent_le; [done|silent]].
      - intros _. apply seq_ok_silent. unfold check_liveness. silent. }
    destruct (sm_state (s_state s)); first [exact Hhb|apply seq_ok_silent_le; [done|silent]].
Qed.

Lemma seq_ok_close : seq_ok 1 close.
Proof.
  do 3 (apply (seq_ok_bind 0 1); [done|apply seq_ok_silent; silent|intros _]).
  apply (seq_ok_bind 0 1); [done|apply seq_ok_silent; silent|intros s].
  apply (seq_ok_bind 1 0); [done|..].
  - destruct (s_peer s); [apply seq_ok_ignore, seq_ok_send_control|].
    apply seq_ok_silent_le; [done|silent].
  - intros _. apply seq_ok_silent. silent.
Qed.
End seq_ops.

(** ** Runs of a session *)

(** The application's calls; [SoPoll] takes the next event of the network. *)
Inductive sop : Type :=
  | SoAudio (payload : list Z)
  | SoPress
  | SoRelease
  | SoPoll
  | SoClose.

Section runs.
Context `{Env} `{Aead}.

Definition run_sop (op : sop) : SM unit :=
  match op with
  | SoAudio payload => send_audio payload
  | SoPress => ptt_press
  | SoRelease => ptt_release
  | SoPoll => poll_once
  | SoClose => close
  end.

(** The application goes on after an error. *)
Definition run_sops (w : World) (ops : list sop) : World :=
  foldl (λ w op, (run_sop op w).1) w ops.

Lemma seq_ok_sop op : seq_ok 2 (run_sop op).
Proof.
  destruct op; cbn [run_sop].
  - apply seq_ok_send_audio.
  - apply (seq_ok_ptt FloorRequest (λ s, be_bytes 4 (s_session_id s)) ControlResume).
  - apply (seq_ok_ptt FloorRelease (λ s, be_bytes 4 (s_session_id s)) ControlPause).
  - apply (seq_ok_mono 1); [done|apply seq_ok_poll_once].
  - apply (seq_ok_mono 1); [done|apply seq_ok_close].
Qed.

Lemma seq_ext_sops ops w :
  u32 (tx w) → seq_ext (2 * Z.of_nat (length ops)) w (run_sops w ops).
Proof.
  revert w. induction ops as [|op ops IH]; intros w Hu; [by apply seq_ext_refl|].
  destruct (seq_ok_sop op w Hu) as [Hu1 He1]. specialize (IH _ Hu1).
  eapply seq_ext_mono; [|exact (seq_ext_trans _ _ _ _ _ He1 IH)]. simpl length. lia.
Qed.

Lemma sorted_wrap_NoDup b ks n :
  StronglySorted Z.lt ks → Forall (λ o, 0 ≤ o < n) ks → n ≤ 4294967296 →
  NoDup ((λ o, wrap32 (b + o)) <$> ks).
Proof.
  intros Hs Hf Hn. induction Hs as [|k ks Hs IH Hk]; [constructor|].
  apply Forall_cons_1 in Hf as [Hk0 Hf]. rewrite fmap_cons. constructor; [|by apply IH].
  intros (o & Heq & Hin)%list_elem_of_fmap.
  apply (proj1 (Forall_forall _ _)) with (x := o) in Hk; [|by apply list_elem_of_In].
  apply (proj1 (Forall_forall _ _)) with (x := o) in Hf; [|by apply list_elem_of_In].
  clear -Heq Hk Hf Hk0 Hn. dlia.
Qed.
End runs.

(** No nonce is ever used twice: over any run of at most 2^31 session
    calls, whatever the network delivers and whichever calls or sends fail,
    all packets handed to the transport carry pairwise different sequence
    numbers, and every packet marked as encrypted is sealed under the nonce
    built from its own sequence number and session id, with its own header as
    associated data. *)
Theorem session_nonces_unique `{Env} `{Aead} w ops :
  u32 (tx w) → w_out w = [] → Z.of_nat (length ops) ≤ 2147483648 →
  numbered_apart (w_out (run_sops w ops)).
Proof.
  intros Hu Hout Hlen.
  destruct (seq_ext_sops ops w Hu) as (n & new & ks & Hn & _ & Ho & Hf & Hs).
  rewrite Hout in Ho. simpl in Ho. rewrite Ho.
  apply (numbered_apart_intro _ ((λ o, wrap32 (tx w + o)) <$> ks)).
  - apply Forall2_fmap_r. eapply Forall2_impl; [|exact Hf]. intros dp o [_ ?].
    split; [apply wrap32_u32|done].
  - apply (sorted_wrap_NoDup _ _ n Hs); [|lia]. clear -Hf. induction Hf; constructor; [lia|done].
Qed.

(** A concrete environment: the clock ticks every millisecond, every send
    succeeds, and the network is silent. *)
Definition quiet_env : Env := {|
  env_clock n := 1000 * Z.of_nat (n mod 1000);
  env_send _ data _ := Ok (Z.of_nat (length data));
  env_recv _ := RecvTimeout;
  env_overflow_checks := false;
|}.

Definition sample_peer : SocketAddr := mkSocketAddr (V4 [192; 168; 1; 2]) 9000.

(** An active session with keys, as the handshake leaves it. *)
Definition sample_session (enc dec : list Z) : Session :=
  mkSession (mkSessionStateMachine Active) Metrics_new
    (mkJitterBuffer (replicate 16 Slot_empty) 16 15 0 false) Config_default (Some sample_peer)
    7 2 0 0 1 (Some enc) (Some dec) (mkCongestionController 64000 8000 64000)
    FecEncoder_with_default_window FecDecoder_with_default_window false false 0 false.

Lemma session_nonces_unique_witness :
  let w := mkWorld (sample_session (replicate 32 1) (replicate 32 2)) [] 0 0 in
  let ops := [SoAudio [1; 2; 3]; SoPress; SoAudio [4]; SoPoll; SoClose] in
  numbered_apart (H0 := toy_aead) (w_out (run_sops (H := quiet_env) (H0 := toy_aead) w ops)).
Proof.
  intros w ops.
  apply (session_nonces_unique (H := quiet_env) (H0 := toy_aead) w ops);
    [unfold tx; simpl; ulia|reflexivity|simpl; lia].
Defined.
