(* ===== verification/Audio.v ===== *)
(** * Audio across a session

    The properties of [session.rs] that make a call work: what [send_audio]
    puts on the wire is what the peer's dispatch recovers and buffers, frames
    that do not authenticate leave no trace but a counter, closing destroys
    the keys, and which configurations a session can be built from and
    receives with. *)

From stdpp Require Import strings.
From S2P Require Import Prelude.
From S2P Require Import CoreTypes.
From S2P Require Import Header.
From S2P Require Import Packet.
From S2P Require Import Message.
From S2P Require Import SessionFsm.
From S2P Require Import Crypto.
From S2P Require Import Fec.
From S2P Require Import JitterBuffer.
From S2P Require Import Ieee.
From S2P Require Import Metrics.
From S2P Require Import Congestion.
From S2P Require Import Transport.
From S2P Require Import Session.
From S2P Require Import SessionSeq.

Lemma SM_bind_done {A B} (m : SM A) (f : A → SM B) w w' a :
  m w = (w', Done a) → (m ≫= f) w = f a w'.
Proof. intros Hm. unfold mbind, SM_bind. by rewrite Hm. Qed.

Lemma SM_bind_fail {A B} (m : SM A) (f : A → SM B) w w' e :
  m w = (w', Fail e) → (m ≫= f) w = (w', Fail e).
Proof. intros Hm. unfold mbind, SM_bind. by rewrite Hm. Qed.

Section audio.
Context `{Env} `{AeadLaws}.

Lemma seal_ok key seq sid h plain w :
  PacketHeader_wf h → Z.of_nat (length plain) ≤ 65535 →
  ∃ ct tag, aead_encrypt key (make_nonce seq sid) (header_image h) plain = Some (ct, tag)
    ∧ length ct = length plain ∧ length tag = TAG_SIZE
    ∧ seal key seq sid h plain w = (w, Done (ct ++ tag)).
Proof.
  intros Hh Hl.
  destruct (encrypt_in_place_ok key (make_nonce seq sid) (header_image h)
    (plain ++ replicate TAG_SIZE 0) (length plain)) as (ct & tag & He & Hc & Ht & Heq);
    [rewrite length_app, length_replicate; lia|done|].
  rewrite take_app_length in He. exists ct, tag. split_and!; [done..|].
  unfold seal. erewrite SM_bind_done.
  2:{ unfold proto. rewrite PacketHeader_encode_image by (done || by rewrite length_replicate).
      done. }
  rewrite drop_ge by (by rewrite length_replicate). rewrite app_nil_r.
  erewrite SM_bind_done; [|unfold proto; by rewrite Heq].
  cbn [fst snd]. unfold mret, SM_ret. do 2 f_equal.
  rewrite drop_ge by (rewrite length_app, length_replicate; lia). rewrite app_nil_r.
  apply take_ge. rewrite length_app. lia.
Qed.

Lemma unseal_ok key seq sid h plain ct tag rest :
  aead_encrypt key (make_nonce seq sid) (header_image h) plain = Some (ct, tag) →
  unseal key seq sid (header_image h ++ rest) (ct ++ tag) = Ok plain.
Proof.
  intros He. destruct (aead_encrypt_length _ _ _ _ _ _ He) as [Hc Ht].
  apply aead_correct in He. unfold unseal.
  rewrite take_app_le, take_ge by (rewrite length_header_image; lia).
  pose proof (decrypt_in_place_ok _ _ _ ct tag [] plain Ht He) as Hd.
  rewrite !app_nil_r in Hd. rewrite length_app, Ht, Hd. cbn [mbind result_bind fst snd].
  f_equal. rewrite Hc. by rewrite take_app_length.
Qed.

Lemma transmit_ok h payload peer w n :
  packet_wf h payload → (HEADER_SIZE + length payload + 4 ≤ cfg_mtu (s_config (w_sess w)))%nat →
  env_send (length (w_out w)) (packet_image h payload) peer = Ok n →
  transmit h payload peer w =
    (mkWorld (set_metrics (with_counters (λ c, Counters_record_sent c n) (s_metrics (w_sess w)))
                (w_sess w))
       (w_out w ++ [(packet_image h payload, peer)]) (w_ticks w) (w_recvs w), Done tt).
Proof.
  intros Hwf Hmtu Hsend. unfold transmit.
  erewrite SM_bind_done; [|done].
  erewrite SM_bind_done.
  2:{ unfold proto. rewrite PacketBuilder_encode_image; [done|done|by rewrite length_replicate]. }
  cbn [fst snd]. rewrite take_app_le, take_ge by (rewrite length_packet_image; lia).
  erewrite SM_bind_done; [|unfold send_to; by rewrite Hsend]. done.
Qed.

(** ** Sending *)

Definition audio_header (s : Session) (ts : Z) : PacketHeader :=
  mkPacketHeader 1 Flags_ENCRYPTED (MessageType_code AudioFrame) (s_session_id s)
    (s_tx_sequence s) ts.

Definition audio_plain (s : Session) (payload : list Z) : list Z :=
  be_bytes 4 (s_audio_tx_seq s) ++ payload.

(** What [send_audio] needs to put a frame on the wire. *)
Record can_send (w : World) (key : list Z) (peer : SocketAddr) (payload : list Z) : Prop := {
  cs_active : sm_state (s_state (w_sess w)) = Active;
  cs_peer : s_peer (w_sess w) = Some peer;
  cs_key : s_encrypt_key (w_sess w) = Some key;
  cs_sid : u32 (s_session_id (w_sess w));
  cs_seq : u32 (s_tx_sequence (w_sess w));
  cs_audio_seq : u32 (s_audio_tx_seq (w_sess w));
  cs_payload : bytes payload;
  cs_clock : u64 (env_clock (w_ticks w));
  cs_size : (length payload + 20 ≤ MAX_PAYLOAD_SIZE)%nat;
  cs_mtu : (length payload + 48 ≤ cfg_mtu (s_config (w_sess w)))%nat;
  cs_net n data dest : is_ok (env_send n data dest) = true;
}.

Lemma send_fec_no_crash parity peer sid w :
  ∃ w', ignore (send_fec_parity parity peer sid) w = (w', Done tt).
Proof.
  unfold ignore, send_fec_parity.
  destruct (next_sequence w) as [w1 r1] eqn:E1. injection E1 as <- <-.
  erewrite SM_bind_done; [|done]. erewrite SM_bind_done; [|done].
  erewrite SM_bind_done; [|done]. cbn [w_sess].
  destruct (s_encrypt_key _); [|by eexists]. unfold seal, transmit, proto, send_to.
  unfold mbind, SM_bind, mret, SM_ret, get, count, modify.
  destruct (PacketHeader_encode _ _); [|by eexists].
  destruct (encrypt_in_place _ _ _ _ _); [|by eexists].
  destruct (PacketBuilder_encode _ _ _); [|by eexists].
  destruct (env_send _ _ _); by eexists.
Qed.

Lemma send_audio_ok w key peer payload :
  can_send w key peer payload →
  let h := audio_header (w_sess w) (env_clock (w_ticks w)) in
  ∃ w' ct tag rest,
    send_audio payload w = (w', Done tt)
    ∧ aead_encrypt key (make_nonce (s_tx_sequence (w_sess w)) (s_session_id (w_sess w)))
        (header_image h) (audio_plain (w_sess w) payload) = Some (ct, tag)
    ∧ packet_wf h (ct ++ tag)
    ∧ w_out w' = w_out w ++ (packet_image h (ct ++ tag), peer) :: rest.
Proof.
  intros [Hact Hpeer Hkey Hsid Hseq Haseq Hpay Hclk Hsize Hmtu Hnet] h.
  assert (PacketHeader_wf h) as Hh by (split_and!; simpl; (done || ulia)).
  assert (length (audio_plain (w_sess w) payload) = 4 + length payload)%nat as Hlp
    by (unfold audio_plain; by rewrite length_app, length_be_bytes).
  unfold MAX_PAYLOAD_SIZE, DEFAULT_MTU, HEADER_SIZE in Hsize.
  unfold send_audio. erewrite SM_bind_done; [|done].
  rewrite decide_False by (intros ?; done). rewrite Hpeer.
  do 4 (erewrite SM_bind_done; [|done]). cbn -[env_clock seal transmit FecEncoder_push send_fec_parity wrap32 ignore].
  rewrite Hkey. set (w1 := mkWorld _ _ _ _).
  destruct (seal_ok key (s_tx_sequence (w_sess w)) (s_session_id (w_sess w)) h
    (audio_plain (w_sess w) payload) w1) as (ct & tag & He & Hc & Ht & Hs); [done|lia|].
  assert (bytes (ct ++ tag)) as Hb.
  { apply bytes_app. apply (aead_encrypt_bytes _ _ _ _ _ _ (ltac:(
      apply bytes_app; split; [apply bytes_be_bytes|done])) He). }
  assert (packet_wf h (ct ++ tag)) as Hwf.
  { split; [done|]. split; [done|]. split; [done|]. rewrite length_app, Ht, Hc, Hlp.
    unfold MAX_PAYLOAD_SIZE, DEFAULT_MTU, HEADER_SIZE, TAG_SIZE; lia. }
  destruct (env_send (length (w_out w1)) (packet_image h (ct ++ tag)) peer) as [n|e] eqn:Hn;
    [|by specialize (Hnet (length (w_out w1)) (packet_image h (ct ++ tag)) peer); rewrite Hn in Hnet].
  pose proof (transmit_ok h (ct ++ tag) peer w1 n Hwf) as Htr.
  erewrite SM_bind_done.
  2:{ erewrite SM_bind_done; [|exact Hs]. apply Htr; [|done]. cbn [w_sess w1 s_config].
      rewrite length_app, Hc, Ht, Hlp. unfold HEADER_SIZE, TAG_SIZE. simpl. lia. }
  clear Htr. set (w2 := mkWorld (set_metrics _ _) _ _ _).
  erewrite SM_bind_done; [|done].
  destruct (FecEncoder_push _ _ _) as [fec parity]. erewrite SM_bind_done; [|done].
  set (w3 := mkWorld (set_fec_enc _ _) _ _ _).
  destruct parity as [parity|].
  - destruct (send_fec_no_crash parity peer (s_session_id (w_sess w)) w3) as [w4 Hw4].
    pose proof (seq_ok_ignore 1 _ (seq_ok_send_fec parity peer (s_session_id (w_sess w))) w3)
      as Hext.
    destruct Hext as [_ (n' & new & ks & _ & _ & Hout & _)].
    { unfold tx. cbn [w_sess w3 w2 w1]. simpl. auto with gs. }
    exists w4, ct, tag, new. split_and!; [exact Hw4|done|done|].
    rewrite Hw4 in Hout. cbn [fst] in Hout. rewrite Hout. cbn [w_out w3 w2 w1].
    by rewrite <-app_assoc.
  - exists w3, ct, tag, []. done.
Qed.

(** ** Receiving *)

Definition recv_ready (s : Session) : Prop :=
  (∃ sp, jb_refines (s_jitter s) sp) ∧ fd_inv FEC_WINDOW (s_fec_dec s).

(** The metrics' counters are touched by [count] only. *)
Definition errors (s : Session) : Z := integrity_errors (m_counters (s_metrics s)).

Lemma deliver_audio_ok v ts a payload :
  env_overflow_checks = false → recv_ready (w_sess v) → u32 a →
  ∃ v' accepted, deliver_audio ts (be_bytes 4 a ++ payload) v = (v', Done tt)
    ∧ JitterBuffer_push (s_jitter (w_sess v)) (mkFrame a ts payload)
      = Val (s_jitter (w_sess v'), accepted)
    ∧ errors (w_sess v') = errors (w_sess v)
    ∧ recv_ready (w_sess v').
Proof.
  intros Hoc [[sp Hjb] Hfd] Ha. unfold deliver_audio.
  rewrite decide_False by (rewrite length_app, length_be_bytes; lia).
  rewrite take_app_le, take_ge, drop_app_ge by (rewrite length_be_bytes; lia).
  rewrite length_be_bytes, Nat.sub_diag, drop_0, from_be_be32 by done.
  erewrite SM_bind_done; [|done]. rewrite Hoc.
  destruct (LossTracker_record_wrapping (m_loss (s_metrics (w_sess v))) a) as [loss Hloss].
  erewrite SM_bind_done; [|unfold may_panic; by rewrite Hloss].
  do 3 (erewrite SM_bind_done; [|done]).
  match goal with |- context [JitterEstimator_record false ?j ?x ?y] =>
    destruct (JitterEstimator_record_wrapping j x y) as [jit Hjit] end.
  erewrite SM_bind_done; [|unfold may_panic; by rewrite Hjit].
  do 2 (erewrite SM_bind_done; [|done]). cbn [w_sess].
  destruct (fd_inv_push_data FEC_WINDOW (s_fec_dec (w_sess v)) a payload)
    as (fec & Hfec & Hfd'); [done|done|ulia|].
  erewrite SM_bind_done; [|unfold may_panic; simpl; by rewrite Hfec].
  erewrite SM_bind_done; [|done]. unfold push_jitter. erewrite SM_bind_done; [|done].
  destruct (jb_push_refines (s_jitter (w_sess v)) sp (mkFrame a ts payload))
    as (jb' & Hpush & _ & Hjb'); [done..|].
  erewrite SM_bind_done; [|unfold may_panic; simpl; by rewrite Hpush].
  eexists _, _. split; [done|]. split; [exact Hpush|]. split; [done|].
  split; [by eexists|done].
Qed.

Lemma on_datagram_audio v key h sealed plain a payload :
  env_overflow_checks = false → recv_ready (w_sess v) → u32 a →
  packet_wf h sealed → ph_msg_type h = MessageType_code AudioFrame →
  Flags_contains (ph_flags h) Flags_ENCRYPTED = true →
  s_decrypt_key (w_sess v) = Some key →
  unseal key (ph_sequence h) (s_session_id (w_sess v)) (packet_image h sealed) sealed
    = Ok plain →
  plain = be_bytes 4 a ++ payload →
  ∃ v' accepted, on_datagram (packet_image h sealed) v = (v', Done tt)
    ∧ JitterBuffer_push (s_jitter (w_sess v)) (mkFrame a (ph_timestamp h) payload)
      = Val (s_jitter (w_sess v'), accepted)
    ∧ errors (w_sess v') = errors (w_sess v)
    ∧ recv_ready (w_sess v').
Proof.
  intros Hoc Hready Ha Hwf Hmt Henc Hkey Hun ->. unfold on_datagram.
  erewrite SM_bind_done; [|done]. rewrite (PacketView_decode_image h sealed Hwf).
  do 2 (erewrite SM_bind_done; [|done]). unfold dispatch_packet.
  erewrite SM_bind_done; [|done]. cbn [pv_header]. rewrite Hmt.
  change (MessageType_from_code (MessageType_code AudioFrame)) with (@Ok Error _ AudioFrame).
  cbv beta iota. unfold dispatch_audio. erewrite SM_bind_done; [|done].
  cbn [pv_header pv_payload]. rewrite Henc. cbn [w_sess].
  change (s_decrypt_key (set_last_rx _ _)) with (s_decrypt_key (w_sess v)). rewrite Hkey.
  change (s_session_id (set_last_rx _ _)) with (s_session_id (w_sess v)). rewrite Hun.
  match goal with |- context [deliver_audio _ _ ?w1] => set (v1 := w1) end.
  destruct (deliver_audio_ok v1 (ph_timestamp h) a payload) as (v' & acc & Hd & Hp & He & Hr);
    [done..|]. by exists v', acc.
Qed.
End audio.

(** C2: audio crosses a session intact: when the sender is active with key [K]
    and the receiver holds the same key and session id, what [send_audio]
    hands to the transport first is a datagram that the receiver's dispatch
    authenticates, and the receiver offers to its jitter buffer exactly the
    frame with the sender's audio sequence number, timestamp and payload,
    without counting an integrity error; for receivers built without overflow
    checks, and payloads that fit the MTU. *)
Theorem audio_end_to_end `{AeadLaws} (ES ER : Env) w v key peer payload :
  @can_send ES w key peer payload →
  s_decrypt_key (w_sess v) = Some key → s_session_id (w_sess v) = s_session_id (w_sess w) →
  @env_overflow_checks ER = false → recv_ready (w_sess v) →
  ∃ w' pkt rest v' accepted,
    @send_audio ES _ payload w = (w', Done tt)
    ∧ w_out w' = w_out w ++ (pkt, peer) :: rest
    ∧ @on_datagram ER _ pkt v = (v', Done tt)
    ∧ JitterBuffer_push (s_jitter (w_sess v))
        (mkFrame (s_audio_tx_seq (w_sess w)) (@env_clock ES (w_ticks w)) payload)
      = Val (s_jitter (w_sess v'), accepted)
    ∧ errors (w_sess v') = errors (w_sess v)
    ∧ recv_ready (w_sess v').
Proof.
  intros Hcs Hkey Hsid Hoc Hready.
  destruct (@send_audio_ok ES _ _ w key peer payload Hcs)
    as (w' & ct & tag & rest & Hsend & He & Hwf & Hout).
  destruct (@on_datagram_audio ER _ v key
    (audio_header (w_sess w) (@env_clock ES (w_ticks w))) (ct ++ tag)
    (audio_plain (w_sess w) payload) (s_audio_tx_seq (w_sess w)) payload)
    as (v' & acc & Hd & Hp & Herr & Hr); try done.
  - apply (cs_audio_seq _ _ _ _ Hcs).
  - rewrite Hsid. rewrite packet_image_split. by apply unseal_ok.
  - exists w', (packet_image (audio_header (w_sess w) (@env_clock ES (w_ticks w))) (ct ++ tag)),
      rest, v', acc. done.
Qed.

Lemma sample_recv_ready enc dec : recv_ready (sample_session enc dec).
Proof.
  split; [|split; done]. exists js_new.
  apply (jb_new_refines 16 (mkJitterBuffer (replicate 16 Slot_empty) 16 15 0 false)). reflexivity.
Qed.

Lemma audio_end_to_end_witness :
  let k := replicate 32 1 in
  let w := mkWorld (sample_session k (replicate 32 2)) [] 0 0 in
  let v := mkWorld (sample_session (replicate 32 2) k) [] 0 0 in
  ∃ w' pkt rest v' accepted,
    @send_audio quiet_env toy_aead [10; 20; 30] w = (w', Done tt)
    ∧ w_out w' = (pkt, sample_peer) :: rest
    ∧ @on_datagram quiet_env toy_aead pkt v = (v', Done tt)
    ∧ JitterBuffer_push (s_jitter (w_sess v)) (mkFrame 0 0 [10; 20; 30])
      = Val (s_jitter (w_sess v'), accepted).
Proof.
  intros k w v.
  destruct (audio_end_to_end (H := toy_aead) quiet_env quiet_env w v k sample_peer [10; 20; 30])
    as (w' & pkt & rest & v' & acc & H1 & H2 & H3 & H4 & _).
  - split; try reflexivity; try (simpl; ulia); try (by apply (bool_decide_unpack _)).
  - reflexivity.
  - reflexivity.
  - reflexivity.
  - apply sample_recv_ready.
  - exists w', pkt, rest, v', acc. split; [exact H1|]. split; [exact H2|]. split; [exact H3|exact H4].
Defined.

(** ** What does not authenticate *)

Section reject.
Context `{Env} `{Aead}.

End reject.

(** C16: once keys are established, audio that is not marked as encrypted is
    still accepted.  In a build without overflow checks, a well-formed
    [AudioFrame] packet without the encrypted flag, with any session id and
    sequence number in its header, is not authenticated but offered to the
    jitter buffer, exactly as the frame its payload describes, with no
    integrity error, although the protocol says that all audio after the
    handshake is encrypted. *)
Theorem cleartext_audio_accepted `{Env} `{Aead} v key h a payload :
  s_decrypt_key (w_sess v) = Some key →
  env_overflow_checks = false → recv_ready (w_sess v) → u32 a →
  packet_wf h (be_bytes 4 a ++ payload) → ph_msg_type h = MessageType_code AudioFrame →
  Flags_contains (ph_flags h) Flags_ENCRYPTED = false →
  ∃ v' accepted, on_datagram (packet_image h (be_bytes 4 a ++ payload)) v = (v', Done tt)
    ∧ JitterBuffer_push (s_jitter (w_sess v)) (mkFrame a (ph_timestamp h) payload)
      = Val (s_jitter (w_sess v'), accepted)
    ∧ errors (w_sess v') = errors (w_sess v).
Proof.
  intros Hkey Hoc Hready Ha Hwf Hmt Henc. unfold on_datagram.
  erewrite SM_bind_done; [|done]. rewrite (PacketView_decode_image _ _ Hwf).
  do 2 (erewrite SM_bind_done; [|done]). unfold dispatch_packet.
  erewrite SM_bind_done; [|done]. cbn [pv_header]. rewrite Hmt.
  change (MessageType_from_code (MessageType_code AudioFrame)) with (@Ok Error _ AudioFrame).
  cbv beta iota. unfold dispatch_audio. erewrite SM_bind_done; [|done].
  cbn [pv_header pv_payload]. rewrite Henc.
  match goal with |- context [deliver_audio _ _ ?w1] => set (v1 := w1) end.
  destruct (deliver_audio_ok v1 (ph_timestamp h) a payload) as (v' & acc & Hd & Hp & He & _);
    [done..|]. by exists v', acc.
Qed.

Definition forged_header : PacketHeader :=
  mkPacketHeader 1 Flags_ENCRYPTED (MessageType_code AudioFrame) 7 3 500.
Definition clear_header : PacketHeader :=
  mkPacketHeader 1 Flags_empty (MessageType_code AudioFrame) 99 3 500.


Lemma cleartext_audio_accepted_witness :
  let v := mkWorld (sample_session (replicate 32 1) (replicate 32 2)) [] 0 0 in
  ∃ v' accepted,
    @on_datagram quiet_env toy_aead (packet_image clear_header (be_bytes 4 5 ++ [66])) v
      = (v', Done tt)
    ∧ JitterBuffer_push (s_jitter (w_sess v)) (mkFrame 5 500 [66])
      = Val (s_jitter (w_sess v'), accepted).
Proof.
  intros v.
  destruct (cleartext_audio_accepted (H := quiet_env) (H0 := toy_aead) v (replicate 32 2)
    clear_header 5 [66]) as (v' & acc & H1 & H2 & _);
    [reflexivity|reflexivity|apply sample_recv_ready|ulia| |reflexivity|reflexivity|].
  - apply (bool_decide_unpack _). vm_compute. exact I.
  - exists v', acc. split; [exact H1|exact H2].
Defined.

(** ** Closing *)

(** The state a session is left in by [close]. *)
Definition closed_state (st : SessionState) : SessionState :=
  match st with
  | Active | Paused | Handshaking | Closing => Closed
  | st => st
  end.

Section closing.
Context `{Env} `{Aead}.

Lemma no_crash_send_control msg sid payload peer w :
  ∃ w', ignore (send_control msg sid payload peer) w = (w', Done tt)
    ∧ s_state (w_sess w') = s_state (w_sess w) ∧ s_closed (w_sess w') = s_closed (w_sess w)
    ∧ s_encrypt_key (w_sess w') = s_encrypt_key (w_sess w)
    ∧ s_decrypt_key (w_sess w') = s_decrypt_key (w_sess w).
Proof.
  unfold ignore, send_control. do 2 (erewrite SM_bind_done; [|done]).
  unfold transmit, proto, send_to, mbind, SM_bind, get, count, modify.
  destruct (PacketBuilder_encode _ _ _); [|by eexists].
  destruct (env_send _ _ _); by eexists.
Qed.

(** [close] always succeeds, raises the cancellation flag and destroys
    both keys, whatever the state and whether or not the network accepts the
    [Close] packet; an active, paused, handshaking or closing session ends
    [Closed], an idle, reconnecting or failed one keeps its state; and in
    every case audio can no longer be sent: [send_audio] is refused without
    a single datagram. *)
Theorem close_ends_session w payload :
  ∃ w', close w = (w', Done tt)
    ∧ s_closed (w_sess w') = true
    ∧ s_encrypt_key (w_sess w') = None ∧ s_decrypt_key (w_sess w') = None
    ∧ sm_state (s_state (w_sess w')) = closed_state (sm_state (s_state (w_sess w)))
    ∧ send_audio payload w' = (w', Fail (TeInvalidState "not active")).
Proof.
  unfold close. do 4 (erewrite SM_bind_done; [|done]). cbn [w_sess].
  match goal with |- context [(_ ≫= _) ?w1] => set (v := w1) end.
  assert (∃ w1,
    (match s_peer (w_sess v) with
     | Some p => ignore (send_control MtClose (s_session_id (w_sess v)) [] p)
     | None => mret tt
     end) v = (w1, Done tt)
    ∧ s_state (w_sess w1) = s_state (w_sess w) ∧ s_closed (w_sess w1) = true
    ∧ s_encrypt_key (w_sess w1) = None ∧ s_decrypt_key (w_sess w1) = None)
    as (w1 & Hw1 & Hst & Hcl & He & Hd).
  { destruct (s_peer (w_sess v)); [|by exists v].
    destruct (no_crash_send_control MtClose (s_session_id (w_sess v)) [] s v)
      as (w1 & ? & ? & ? & ? & ?). by exists w1. }
  erewrite SM_bind_done; [|exact Hw1].
  unfold transition, SessionStateMachine_transition. unfold mbind, SM_bind, mret, SM_ret.
  destruct (s_state (w_sess w)) as [st] eqn:Hsm. rewrite Hst.
  destruct st; cbn; rewrite ?Hst; cbn; eexists; (split; [reflexivity|]); cbn;
    (split_and!; [done|done|done|by rewrite ?Hst|]);
    unfold send_audio, mbind, SM_bind, get; cbn; rewrite ?Hst; by case_decide.
Qed.
End closing.

(** ** Construction *)

Definition config_wf (c : Config) : Prop :=
  u16 (cfg_jitter_buffer_ms c) ∧ u8 (cfg_frame_duration_ms c) ∧ u32 (cfg_max_bitrate c).

Lemma next_power_of_two_le n k : 1 ≤ n → 0 ≤ k → next_power_of_two n ≤ 2 ^ k ↔ n ≤ 2 ^ k.
Proof.
  intros Hn Hk. unfold next_power_of_two. rewrite <-Z.pow_le_mono_r_iff by lia.
  symmetry. apply Z.log2_up_le_pow2. lia.
Qed.

(** A session can be built exactly from the configurations whose maximum
    bitrate is at least 8000 bit/s and whose jitter buffer spans at most 2048
    frames; any other configuration makes the constructor panic.  A new
    session is idle, without peer or keys, and ready to receive. *)
Theorem session_new_panics_iff c :
  config_wf c →
  match Session_new c with
  | Panic => cfg_max_bitrate c < CONGESTION_MIN_BITRATE
             ∨ 2048 < cfg_jitter_buffer_ms c / Z.max (cfg_frame_duration_ms c) 1
  | Val s => CONGESTION_MIN_BITRATE ≤ cfg_max_bitrate c
             ∧ cfg_jitter_buffer_ms c / Z.max (cfg_frame_duration_ms c) 1 ≤ 2048
             ∧ sm_state (s_state s) = Idle ∧ s_peer s = None
             ∧ s_encrypt_key s = None ∧ s_decrypt_key s = None
             ∧ recv_ready s ∧ cc_inv (s_congestion s)
  end.
Proof.
  intros (Hj & Hf & Hb). unfold Session_new, jitter_slots.
  set (frames := cfg_jitter_buffer_ms c / Z.max (cfg_frame_duration_ms c) 1).
  assert (0 ≤ frames) as Hfr by (apply Z.div_pos; ulia).
  pose proof (next_power_of_two_le (Z.max frames 1) 11 ltac:(lia) ltac:(lia)) as Hpow.
  change (2 ^ 11) with 2048 in Hpow. set (p := next_power_of_two (Z.max frames 1)) in *.
  assert (is_power_of_two (Z.max p 16) = true) as Hp2.
  { assert (∀ k, 0 ≤ k → is_power_of_two (2 ^ k) = true) as Hk.
    { intros k Hk. unfold is_power_of_two.
      rewrite (proj2 (Z.ltb_lt _ _)) by lia. apply Z.eqb_eq.
      rewrite Z.sub_1_r, <-Z.ones_equiv, Z.land_ones by lia. apply Z.mod_same. lia. }
    destruct (Z.max_spec p 16) as [[_ ->]|[_ ->]]; [by apply (Hk 4)|].
    apply Hk, Z.log2_up_nonneg. }
  unfold JitterBuffer_new. rewrite Hp2. cbn [negb].
  destruct (Z.leb_spec (Z.max p 16) 2048) as [Hle|Hgt]; cbn [negb mbind checked_bind]; [|lia].
  unfold CongestionController_new, CONGESTION_MIN_BITRATE. rewrite Z.max_id.
  destruct (decide (8000 ≤ cfg_max_bitrate c)) as [Hge|Hlt].
  - rewrite u32_clamp_ok by done. cbn [mbind checked_bind].
    split_and!; try done; [lia| |].
    + split; [|by split]. exists js_new. eapply (jb_new_refines (Z.max p 16)).
      unfold JitterBuffer_new. rewrite Hp2. cbn [negb]. by rewrite (proj2 (Z.leb_le _ _)).
    + unfold cc_inv, CONGESTION_MIN_BITRATE.
      cbn [s_congestion cc_current_bitrate cc_min_bitrate cc_max_bitrate]. ulia.
  - unfold u32_clamp. rewrite (proj2 (Z.leb_gt _ _)) by lia. cbn [mbind checked_bind]. lia.
Qed.

Lemma session_new_panics_iff_witness :
  config_wf Config_default
  ∧ (∃ s, Session_new Config_default = Val s ∧ recv_ready s).
Proof.
  assert (config_wf Config_default) as Hc
    by (split; [|split]; apply (bool_decide_unpack _); vm_compute; exact I).
  split; [exact Hc|]. pose proof (session_new_panics_iff Config_default Hc) as Hs.
  destruct (Session_new Config_default) as [s|] eqn:E; [|exfalso; vm_compute in E; discriminate E].
  exists s. split; [reflexivity|]. apply Hs.
Defined.

(** ** A session without a jitter buffer *)

Section zero_buffer.
Context `{Env} `{Aead}.

Lemma pop_deadline_unprimed jb now deadline :
  jb_primed jb = false → JitterBuffer_pop_with_deadline jb now deadline = Val (jb, None).
Proof.
  intros Hp. unfold JitterBuffer_pop_with_deadline, JitterBuffer_pop, JitterBuffer_skip.
  rewrite Hp. cbn. by rewrite Hp; destruct (deadline <=? now).
Qed.

Lemma recv_loop_spins fuel deadline w :
  (∀ i, u64 (env_clock i)) → (∀ i, env_clock i ≤ env_clock (S i)) →
  jb_primed (s_jitter (w_sess w)) = false → deadline ≤ env_clock (w_ticks w) →
  ∃ w', recv_audio_loop fuel 0 deadline w = (w', Done None)
    ∧ w_recvs w' = w_recvs w ∧ w_ticks w' = (w_ticks w + fuel)%nat.
Proof.
  intros Hclk Hmono. revert deadline w. induction fuel as [|fuel IH]; intros deadline w Hp Hd.
  - exists w. split_and!; [done|done|lia].
  - cbn [recv_audio_loop]. erewrite SM_bind_done; [|reflexivity].
    erewrite SM_bind_done; [|reflexivity].
    erewrite SM_bind_done; [|unfold may_panic; by rewrite pop_deadline_unprimed].
    erewrite SM_bind_done; [|reflexivity]. cbn [fst snd].
    rewrite (proj2 (Z.leb_le _ _)) by done.
    erewrite SM_bind_done; [|unfold may_panic; by rewrite u64_add_fits by by rewrite Z.add_0_r].
    rewrite Z.add_0_r. edestruct IH as (w' & Hrun & Hr & Ht); [| |exists w'; split; [exact Hrun|]].
    + exact Hp.
    + apply Hmono.
    + split; [exact Hr|]. rewrite Ht. cbn. lia.
Qed.
End zero_buffer.

(** A session configured with [jitter_buffer_ms = 0], which the
    constructor accepts, never receives audio: with a clock that does not go
    back, the deadline of [recv_audio] has passed in every round, so however
    many rounds are made, the call reads the clock once per round and neither
    returns nor takes a single datagram from the socket. *)
Theorem recv_audio_zero_buffer_spins `{Env} `{Aead} fuel w :
  (∀ i, u64 (env_clock i)) → (∀ i, env_clock i ≤ env_clock (S i)) →
  cfg_jitter_buffer_ms (s_config (w_sess w)) = 0 → jb_primed (s_jitter (w_sess w)) = false →
  ∃ w', recv_audio fuel w = (w', Done None)
    ∧ w_recvs w' = w_recvs w ∧ w_ticks w' = (w_ticks w + 1 + fuel)%nat.
Proof.
  intros Hclk Hmono Hz Hp. unfold recv_audio. erewrite SM_bind_done; [|reflexivity].
  rewrite Hz. erewrite SM_bind_done; [|reflexivity].
  erewrite SM_bind_done; [|unfold may_panic; by rewrite u64_add_fits by by rewrite Z.add_0_r].
  rewrite Z.add_0_r.
  destruct (recv_loop_spins fuel (env_clock (w_ticks w))
    (mkWorld (w_sess w) (w_out w) (S (w_ticks w)) (w_recvs w)))
    as (w' & Hrun & Hr & Ht); [exact Hclk|exact Hmono|exact Hp|apply Hmono|].
  exists w'. split; [exact Hrun|]. split; [exact Hr|]. rewrite Ht. cbn. lia.
Qed.

(** A clock that never goes back, and a network with a datagram always at
    hand. *)
Definition busy_env : Env := {|
  env_clock n := Z.min u64_MAX (1000 * Z.of_nat n);
  env_send _ data _ := Ok (Z.of_nat (length data));
  env_recv _ := RecvData [1; 2; 3] sample_peer;
  env_overflow_checks := true;
|}.

Lemma recv_audio_zero_buffer_spins_witness :
  let c := mkConfig 48000 1 10 64000 1 [1; 2] 0 0 1200%nat in
  ∃ s w', Session_new c = Val s
    ∧ recv_audio (H := busy_env) (H0 := toy_aead) 50 (mkWorld s [] 0 0) = (w', Done None)
    ∧ w_recvs w' = 0%nat ∧ w_ticks w' = 51%nat.
Proof.
  intros c. destruct (Session_new c) as [s|] eqn:E; [|exfalso; vm_compute in E; discriminate E].
  destruct (recv_audio_zero_buffer_spins (H := busy_env) (H0 := toy_aead) 50 (mkWorld s [] 0 0))
    as (w' & Hrun & Hr & Ht).
  - intros i. cbn [env_clock busy_env]. ulia.
  - intros i. cbn [env_clock busy_env]. lia.
  - vm_compute in E. injection E as <-. reflexivity.
  - vm_compute in E. injection E as <-. reflexivity.
  - exists s, w'. split; [reflexivity|]. split; [exact Hrun|]. split; [exact Hr|exact Ht].
Defined.
