(* ===== verification/Handshake.v ===== *)
(** * The 4-way handshake

    Models the handshake of [gravital-talk-transport/src/session.rs]:
    [handshake], [handshake_open], both roles, key derivation and the
    authentication tags.  X25519 and HKDF-SHA256 are the class [Kex]; the
    random values drawn by each side are arguments.  The surrounding
    [timeout] of a handshake cancels it at one of its waits: [fuel] is the
    number of waits it has before that, and running out of it is the
    cancellation. *)

From stdpp Require Import strings.
From S2P Require Import Prelude.
From S2P Require Import Text.
From S2P Require Import CoreTypes.
From S2P Require Import Header.
From S2P Require Import Packet.
From S2P Require Import Message.
From S2P Require Import SessionFsm.
From S2P Require Import Crypto.
From S2P Require Import Fec.
From S2P Require Import JitterBuffer.
From S2P Require Import Ieee.
From S2P Require Import Metrics.
From S2P Require Import Congestion.
From S2P Require Import Transport.
From S2P Require Import Session.

Class Kex : Type := {
  kex_secret : Type;
  kex_public : kex_secret → list Z;
  kex_shared : kex_secret → list Z → list Z;
  hkdf : option (list Z) → list Z → list Z → nat → list Z;
}.

Class KexLaws `{Kex} : Prop := {
  kex_public_wf s : byte_array 32 (kex_public s);
  (** Diffie-Hellman agreement. *)
  kex_commutes a b : kex_shared a (kex_public b) = kex_shared b (kex_public a);
  hkdf_wf salt ikm info n : byte_array n (hkdf salt ikm info n);
}.

(** ** Cryptographic helpers *)

Definition build_transcript (client_nonce server_nonce : list Z) (session_id : Z) : list Z :=
  let t := replicate 68 0 in
  let t := blit 0 client_nonce t in
  let t := blit 32 server_nonce t in
  blit 64 (be_bytes 4 session_id) t.

(** [constant_time_eq]: accumulates the differences of all 16 bytes. *)
Definition constant_time_eq (a b : list Z) : bool :=
  let diff := foldl (λ diff i, Z.lor diff (Z.lxor (a !!! i) (b !!! i))) 0 (seq 0 16) in
  diff =? 0.

Section kex.
Context `{Kex}.

Definition derive_session_keys (shared_secret transcript : list Z) : list Z * list Z :=
  let encrypt_key := hkdf (Some transcript) shared_secret (ascii_bytes "GS-encrypt-v1") 32 in
  let decrypt_key := hkdf (Some transcript) shared_secret (ascii_bytes "GS-decrypt-v1") 32 in
  (encrypt_key, decrypt_key).

Definition derive_auth_tag (key : list Z) (label : string) (transcript : list Z) : list Z :=
  let info := ascii_bytes label ++ transcript in
  hkdf None key info 16.
End kex.

Definition client_fin : string := "GS-client-fin-v1".
Definition server_fin : string := "GS-server-fin-v1".

(** [match m.await { Ok(..) => .., Err(..) => .. }] *)
Definition catch {A} (m : SM A) : SM (result TransportError A) := λ w,
  let '(w, r) := m w in
  (w, match r with Done a => Done (Ok a) | Fail e => Done (Err e) | Crash => Crash end).

Section handshake.
Context `{Env} `{Kex}.

Record ClientRandom : Type := mkClientRandom {
  cr_secret : kex_secret;
  cr_nonce : list Z;
}.

Record ServerRandom : Type := mkServerRandom {
  sr_secret : kex_secret;
  sr_nonce : list Z;
  sr_session_id : Z;
}.

(** ** Client *)

Definition client_hello_of (config : Config) (r : ClientRandom) : ClientHello :=
  mkClientHello (kex_public (cr_secret r)) (cr_nonce r) PROTOCOL_VERSION_MAX
    (cfg_codec_preferred config) (cfg_sample_rate config) (cfg_channels config)
    (cfg_frame_duration_ms config) (cfg_max_bitrate config) (cfg_capability_flags config).

(** [None]: cancelled by the surrounding timeout. *)
Fixpoint recv_session_confirm (fuel : nat) (peer : SocketAddr) (expected_sid : Z) :
    SM (option SessionConfirm) :=
  match fuel with
  | O => mret None
  | S fuel =>
      ev ← recv;
      match ev with
      | RecvErr e => throw e
      | RecvTimeout => recv_session_confirm fuel peer expected_sid
      | RecvData data from =>
          if decide (from ≠ peer) then recv_session_confirm fuel peer expected_sid
          else
            match PacketView_decode data with
            | Err _ => recv_session_confirm fuel peer expected_sid
            | Ok view =>
                if decide (ph_msg_type (pv_header view)
                           ≠ MessageType_code HandshakeSessionConfirm)
                then recv_session_confirm fuel peer expected_sid
                else
                  confirm ← proto (SessionConfirm_decode (pv_payload view));
                  if decide (sc_session_id confirm ≠ expected_sid)
                  then throw (TeHandshake "session_id mismatch in confirm")
                  else mret (Some confirm)
            end
      end
  end.

(** From a received [ServerHello] to the installed keys (steps 2 to 7). *)
Definition client_finish (fuel : nat) (r : ClientRandom) (peer : SocketAddr)
    (view : PacketView) : SM bool :=
  server_hello ← proto (ServerHello_decode (pv_payload view));
  let neg_ver := sh_protocol_version server_hello in
  if decide (neg_ver < PROTOCOL_VERSION_MIN ∨ PROTOCOL_VERSION_MAX < neg_ver)
  then throw (TeHandshake "version negotiation failed: out of range")
  else
    s ← get;
    if decide (sh_codec_accepted server_hello ∉ cfg_supported_codecs (s_config s))
    then throw (TeHandshake "server selected unsupported codec")
    else
      let shared := kex_shared (cr_secret r) (sh_ephemeral_public_key server_hello) in
      let session_id := sh_session_id server_hello in
      let transcript :=
        build_transcript (cr_nonce r) (sh_server_nonce server_hello) session_id in
      let '(enc_key, dec_key) := derive_session_keys shared transcript in
      let client_auth_tag := derive_auth_tag enc_key client_fin transcript in
      ke_payload ← proto (wire_image (mkKeyExchangeMsg session_id client_auth_tag));
      _ ← send_control HandshakeKeyExchange session_id ke_payload peer;
      confirm ← recv_session_confirm fuel peer session_id;
      match confirm with
      | None => mret false
      | Some confirm =>
          let expected_server_tag := derive_auth_tag dec_key server_fin transcript in
          if negb (constant_time_eq (sc_server_auth_tag confirm) expected_server_tag)
          then throw (TeAuthenticationFailed "server auth tag mismatch")
          else
            _ ← modify (set_session_id session_id);
            let ssrc := Z.lxor session_id (from_be (take 4 enc_key)) in
            _ ← modify (set_local_ssrc ssrc);
            _ ← modify (set_negotiated_codec (sh_codec_accepted server_hello));
            _ ← modify (set_encrypt_key (Some enc_key));
            _ ← modify (set_decrypt_key (Some dec_key));
            mret true
      end.

Fixpoint handshake_client_loop (fuel : nat) (r : ClientRandom) (peer : SocketAddr)
    (hello_payload : list Z) (attempt : Z) : SM bool :=
  _ ← send_control HandshakeClientHello 0 hello_payload peer;
  match fuel with
  | O => mret false
  | S fuel =>
      let continue_ := handshake_client_loop fuel r peer hello_payload
                         (Z.min u32_MAX (attempt + 1)) in
      ev ← recv;
      match ev with
      | RecvData data from =>
          if decide (from ≠ peer) then continue_
          else
            match PacketView_decode data with
            | Err _ => continue_
            | Ok view =>
                if decide (ph_msg_type (pv_header view)
                           ≠ MessageType_code HandshakeServerHello)
                then continue_
                else client_finish fuel r peer view
            end
      | RecvErr _ | RecvTimeout =>
          if 6 <? Z.min u32_MAX (attempt + 1)
          then throw (TeHandshake "client retries exhausted")
          else continue_
      end
  end.

Definition handshake_client (fuel : nat) (r : ClientRandom) (peer : SocketAddr) : SM bool :=
  s ← get;
  hello_payload ← proto (wire_image (client_hello_of (s_config s) r));
  handshake_client_loop fuel r peer hello_payload 0.

(** ** Server *)

(** Waiting for a [ClientHello] from the expected peer. *)
Fixpoint wait_client_hello (fuel : nat) (peer : SocketAddr) : SM (option ClientHello) :=
  match fuel with
  | O => mret None
  | S fuel =>
      ev ← recv;
      match ev with
      | RecvErr e => throw e
      | RecvTimeout => wait_client_hello fuel peer
      | RecvData data from =>
          if decide (from ≠ peer) then wait_client_hello fuel peer
          else
            match PacketView_decode data with
            | Err _ => wait_client_hello fuel peer
            | Ok view =>
                if decide (ph_msg_type (pv_header view)
                           ≠ MessageType_code HandshakeClientHello)
                then wait_client_hello fuel peer
                else h ← proto (ClientHello_decode (pv_payload view)); mret (Some h)
            end
      end
  end.

(** Waiting for a [ClientHello] from anyone; [closed] is checked each time. *)
Fixpoint wait_client_hello_any (fuel : nat) : SM (option (ClientHello * SocketAddr)) :=
  s ← get;
  if s_closed s then throw (TePeerClosed "session closed")
  else
    match fuel with
    | O => mret None
    | S fuel =>
        ev ← recv;
        match ev with
        | RecvErr e => throw e
        | RecvTimeout => wait_client_hello_any fuel
        | RecvData data from =>
            match PacketView_decode data with
            | Err _ => wait_client_hello_any fuel
            | Ok view =>
                if decide (ph_msg_type (pv_header view)
                           ≠ MessageType_code HandshakeClientHello)
                then wait_client_hello_any fuel
                else
                  match ClientHello_decode (pv_payload view) with
                  | Ok h => mret (Some (h, from))
                  | Err _ => wait_client_hello_any fuel
                  end
            end
        end
    end.

(** Waiting for the [KeyExchange]; a repeated [ClientHello] is answered by
    the same [ServerHello]. *)
Fixpoint wait_key_exchange (fuel : nat) (peer : SocketAddr) (session_id : Z)
    (sh_payload : list Z) : SM (option KeyExchangeMsg) :=
  s ← get;
  if s_closed s then throw (TePeerClosed "session closed")
  else
    match fuel with
    | O => mret None
    | S fuel =>
        let continue_ := wait_key_exchange fuel peer session_id sh_payload in
        ev ← recv;
        match ev with
        | RecvErr e => throw e
        | RecvTimeout => continue_
        | RecvData data from =>
            if decide (from ≠ peer) then continue_
            else
              match PacketView_decode data with
              | Err _ => continue_
              | Ok view =>
                  if decide (ph_msg_type (pv_header view)
                             = MessageType_code HandshakeClientHello)
                  then
                    _ ← send_control HandshakeServerHello session_id sh_payload peer;
                    continue_
                  else if decide (ph_msg_type (pv_header view)
                                  ≠ MessageType_code HandshakeKeyExchange)
                  then continue_
                  else m ← proto (KeyExchangeMsg_decode (pv_payload view)); mret (Some m)
              end
        end
    end.

Definition server_hello_of (config : Config) (r : ServerRandom) (ch : ClientHello)
    (negotiated_version chosen_codec : Z) : ServerHello :=
  mkServerHello (kex_public (sr_secret r)) (sr_nonce r) (sr_session_id r) negotiated_version
    chosen_codec (ch_sample_rate ch) (ch_channels ch) (ch_frame_duration_ms ch)
    (Z.min (ch_max_bitrate ch) (cfg_max_bitrate config))
    (Z.land (ch_capability_flags ch) (cfg_capability_flags config)).

(** From the client's hello to the installed keys: the part that the two
    server handshakes have in common. *)
Definition server_finish (fuel : nat) (r : ServerRandom) (peer : SocketAddr)
    (client_hello : ClientHello) : SM bool :=
  let client_ver := ch_protocol_version client_hello in
  if decide (client_ver < PROTOCOL_VERSION_MIN)
  then throw (TeHandshake "version negotiation failed: client version too old")
  else
    let negotiated_version := Z.min client_ver PROTOCOL_VERSION_MAX in
    let session_id := sr_session_id r in
    _ ← modify (set_session_id session_id);
    s ← get;
    let supported := cfg_supported_codecs (s_config s) in
    chosen_codec ←
      (if decide (ch_codec_preferred client_hello ∈ supported)
       then mret (ch_codec_preferred client_hello)
       else match supported with
            | c :: _ => mret c
            | [] => throw (TeHandshake "no supported codecs configured")
            end);
    _ ← modify (set_negotiated_codec chosen_codec);
    sh_payload ← proto (wire_image (server_hello_of (s_config s) r client_hello
                                      negotiated_version chosen_codec));
    _ ← send_control HandshakeServerHello session_id sh_payload peer;
    let shared := kex_shared (sr_secret r) (ch_ephemeral_public_key client_hello) in
    let transcript := build_transcript (ch_client_nonce client_hello) (sr_nonce r) session_id in
    let '(client_enc, client_dec) := derive_session_keys shared transcript in
    let '(enc_key, dec_key) := (client_dec, client_enc) in
    ke_msg ← wait_key_exchange fuel peer session_id sh_payload;
    match ke_msg with
    | None => mret false
    | Some ke_msg =>
        if decide (ke_session_id ke_msg ≠ session_id)
        then throw (TeHandshake "session_id mismatch in KeyExchange")
        else
          let expected_client_tag := derive_auth_tag dec_key client_fin transcript in
          if negb (constant_time_eq (ke_auth_tag ke_msg) expected_client_tag)
          then throw (TeAuthenticationFailed "client auth tag mismatch")
          else
            let server_auth_tag := derive_auth_tag enc_key server_fin transcript in
            sc_payload ← proto (wire_image (mkSessionConfirm session_id server_auth_tag));
            _ ← send_control HandshakeSessionConfirm session_id sc_payload peer;
            _ ← modify (set_encrypt_key (Some enc_key));
            _ ← modify (set_decrypt_key (Some dec_key));
            mret true
    end.

Definition handshake_server (fuel : nat) (r : ServerRandom) (peer : SocketAddr) : SM bool :=
  h ← wait_client_hello fuel peer;
  match h with
  | None => mret false
  | Some client_hello => server_finish fuel r peer client_hello
  end.

Definition handshake_server_any (fuel : nat) (r : ServerRandom) : SM bool :=
  h ← wait_client_hello_any fuel;
  match h with
  | None => mret false
  | Some (client_hello, peer) =>
      _ ← modify (set_peer (Some peer));
      server_finish fuel r peer client_hello
  end.

(** ** The public operations *)

Definition handshake_result (r : result TransportError bool) : SM unit :=
  match r with
  | Ok true => transition_or HandshakeOk "handshake_ok"
  | Err e => _ ← transition HandshakeTimeout; throw e
  | Ok false => _ ← transition HandshakeTimeout; throw TeTimeout
  end.

Definition handshake_as_client (fuel : nat) (r : ClientRandom) (peer : SocketAddr) : SM unit :=
  _ ← modify (set_peer (Some peer));
  _ ← transition_or StartConnect "cannot start handshake";
  res ← catch (handshake_client fuel r peer);
  handshake_result res.

Definition handshake_as_server (fuel : nat) (r : ServerRandom) (peer : SocketAddr) : SM unit :=
  _ ← modify (set_peer (Some peer));
  _ ← transition_or StartAccept "cannot start handshake";
  res ← catch (handshake_server fuel r peer);
  handshake_result res.

(** The retry loop of [handshake_open]; each attempt draws new randomness.
    [None] when the caller gives up after [attempts] attempts. *)
Fixpoint handshake_open_loop (attempts fuel : nat) (rnd : nat → ServerRandom) :
    SM (option unit) :=
  match attempts with
  | O => mret None
  | S attempts =>
      s ← get;
      if s_closed s then
        _ ← transition EvClose; throw (TePeerClosed "session closed")
      else
        res ← catch (handshake_server_any fuel (rnd 0%nat));
        match res with
        | Ok true => _ ← transition_or HandshakeOk "handshake_ok"; mret (Some tt)
        | Err (TePeerClosed _) =>
            _ ← transition EvClose; throw (TePeerClosed "session closed")
        | Err _ | Ok false =>
            _ ← transition HandshakeTimeout;
            _ ← transition Reconnect;
            _ ← transition StartAccept;
            _ ← modify (set_peer None);
            handshake_open_loop attempts fuel (λ n, rnd (S n))
        end
  end.

Definition handshake_open (attempts fuel : nat) (rnd : nat → ServerRandom) : SM (option unit) :=
  _ ← transition_or StartAccept "cannot start open handshake";
  handshake_open_loop attempts fuel rnd.
End handshake.
