(* ===== verification/Agreement.v ===== *)
(** * Correctness of the handshake

    Two honest parties whose four packets are delivered agree on session id,
    codec and crossed keys; and no party, whatever it receives, installs keys
    before its peer has proved knowledge of them. *)

From stdpp Require Import strings.
From S2P Require Import Prelude.
From S2P Require Import CoreTypes.
From S2P Require Import Header.
From S2P Require Import Packet.
From S2P Require Import Message.
From S2P Require Import SessionFsm.
From S2P Require Import Crypto.
From S2P Require Import Fec.
From S2P Require Import JitterBuffer.
From S2P Require Import Ieee.
From S2P Require Import Metrics.
From S2P Require Import Congestion.
From S2P Require Import Transport.
From S2P Require Import Session.
From S2P Require Import SessionSeq.
From S2P Require Import Audio.
From S2P Require Import Handshake.

(** ** Tag comparison *)

Lemma foldl_lor_0 {A} (f : A → Z) (l : list A) d :
  foldl (λ d i, Z.lor d (f i)) d l = 0 ↔ d = 0 ∧ Forall (λ i, f i = 0) l.
Proof.
  revert d. induction l as [|x l IH]; intros d; simpl.
  - split; [intros; split; [done|constructor]|tauto].
  - rewrite IH, Z.lor_eq_0_iff, Forall_cons_iff. tauto.
Qed.

Lemma constant_time_eq_spec a b :
  length a = 16%nat → length b = 16%nat → constant_time_eq a b = true ↔ a = b.
Proof.
  intros Ha Hb. unfold constant_time_eq. rewrite Z.eqb_eq, foldl_lor_0.
  split.
  - intros [_ Hf]. apply list_eq_same_length with (n := 16%nat); [done..|].
    intros i x y Hi Hx Hy. rewrite Forall_forall in Hf.
    specialize (Hf i). rewrite in_seq in Hf. specialize (Hf ltac:(lia)).
    apply Z.lxor_eq in Hf.
    by rewrite (list_lookup_total_correct _ _ _ Hx), (list_lookup_total_correct _ _ _ Hy) in Hf.
  - intros ->. split; [done|]. apply Forall_forall. intros i _. apply Z.lxor_nilpotent.
Qed.

(** ** Control packets *)

Definition control_packet (msg : MessageType) (sid seq ts : Z) (payload : list Z) : list Z :=
  packet_image (PacketHeader_new (MessageType_code msg) sid seq ts) payload.

(** The bytes of a well-formed payload. *)
Definition wire_bytes {A} `{WireCodec A} (x : A) : list Z :=
  match wire_image x with Ok p => p | Err _ => [] end.

Lemma wire_bytes_ok {A} `{WireCodecLaws A} (x : A) :
  wire_wf x →
  wire_image x = Ok (wire_bytes x) ∧ length (wire_bytes x) = wire_size A
  ∧ bytes (wire_bytes x) ∧ wire_decode (wire_bytes x) = Ok x.
Proof.
  intros Hx. unfold wire_bytes. by destruct (wire_image_ok x Hx) as (p & -> & ? & ? & ?).
Qed.

Section control.
Context `{Env}.

(** The world after a control packet was sent. *)
Definition sent_world (w : World) (pkt : list Z) (peer : SocketAddr) (n : Z) : World :=
  mkWorld
    (set_metrics
       (with_counters (λ c, Counters_record_sent c n) (s_metrics (w_sess w)))
       (set_tx_sequence (wrap32 (tx w + 1)) (w_sess w)))
    (w_out w ++ [(pkt, peer)]) (S (w_ticks w)) (w_recvs w).

(** The network accepts everything and the clock is a [u64]. *)
Definition net_ok : Prop :=
  (∀ n data dest, is_ok (env_send n data dest) = true) ∧ (∀ n, u64 (env_clock n)).

Lemma MessageType_code_u8 m : (∀ b, m ≠ Extension b) → u8 (MessageType_code m).
Proof. intros Hm. destruct m; simpl; try ulia. by destruct (Hm b). Qed.

Lemma control_packet_wf msg sid seq ts payload :
  (∀ b, msg ≠ Extension b) → u32 sid → u32 seq → u64 ts → bytes payload →
  (length payload ≤ 84)%nat →
  packet_wf (PacketHeader_new (MessageType_code msg) sid seq ts) payload.
Proof.
  intros Hmsg ? ? ? Hb Hl. split; [|split; [done|split; [done|]]].
  - split; [|split; [|split; [by apply MessageType_code_u8|done]]]; simpl;
      [unfold PROTOCOL_VERSION|]; ulia.
  - unfold MAX_PAYLOAD_SIZE, DEFAULT_MTU, HEADER_SIZE. lia.
Qed.

Lemma send_control_ok msg sid payload peer w :
  net_ok → (∀ b, msg ≠ Extension b) → u32 sid → u32 (tx w) → bytes payload →
  (length payload ≤ 84)%nat → (112 ≤ cfg_mtu (s_config (w_sess w)))%nat →
  ∃ n, send_control msg sid payload peer w
    = (sent_world w (control_packet msg sid (tx w) (env_clock (w_ticks w)) payload) peer n,
       Done tt).
Proof.
  intros [Hnet Hclk] Hmsg Hsid Htx Hb Hl Hmtu. unfold send_control.
  do 2 (erewrite SM_bind_done; [|done]). cbn [w_ticks w_sess].
  set (h := PacketHeader_new _ _ _ _).
  match goal with |- context [transmit _ _ _ ?w1] => set (v := w1) end.
  assert (packet_wf h payload) as Hwf by (by apply control_packet_wf).
  specialize (Hnet (length (w_out v)) (packet_image h payload) peer).
  destruct (env_send (length (w_out v)) (packet_image h payload) peer) as [n|e] eqn:Hs; [|done].
  exists n. rewrite (transmit_ok h payload peer v n Hwf); [done| |done].
  unfold v. cbn [w_sess]. simpl. unfold HEADER_SIZE. lia.
Qed.

(** Decoding a delivered control packet. *)
Lemma control_packet_decode msg sid seq ts payload :
  (∀ b, msg ≠ Extension b) → u32 sid → u32 seq → u64 ts → bytes payload →
  (length payload ≤ 84)%nat →
  PacketView_decode (control_packet msg sid seq ts payload)
  = Ok (mkPacketView (PacketHeader_new (MessageType_code msg) sid seq ts) payload).
Proof.
  intros. by apply PacketView_decode_image, control_packet_wf.
Qed.
End control.

(** ** Either side of a successful handshake *)

Record hs_ready `{Env} (w : World) : Prop := {
  hr_idle : sm_state (s_state (w_sess w)) = Idle;
  hr_tx : u32 (tx w);
  hr_mtu : (112 ≤ cfg_mtu (s_config (w_sess w)))%nat;
  hr_open : s_closed (w_sess w) = false;
  hr_net : net_ok;
}.

(** What both sides hold afterwards. *)
Definition established (s : Session) (sid codec : Z) (enc dec : list Z) : Prop :=
  sm_state (s_state s) = Active ∧ s_session_id s = sid ∧ s_negotiated_codec s = codec
  ∧ s_encrypt_key s = Some enc ∧ s_decrypt_key s = Some dec.

Section sides.
Context `{Env} `{KexLaws}.

Lemma auth_tag_wf key label t : byte_array 16 (derive_auth_tag key label t).
Proof. apply hkdf_wf. Qed.

Lemma tag_check_refl key label t :
  constant_time_eq (derive_auth_tag key label t) (derive_auth_tag key label t) = true.
Proof. apply constant_time_eq_spec; apply auth_tag_wf || done. Qed.

Lemma confirm_wf sid tag : u32 sid → byte_array 16 tag → wire_wf (mkSessionConfirm sid tag).
Proof. by split. Qed.
Lemma key_exchange_wf sid tag : u32 sid → byte_array 16 tag → wire_wf (mkKeyExchangeMsg sid tag).
Proof. by split. Qed.

(** The confirmation arrives at the first wait. *)
Lemma recv_session_confirm_ok fuel peer sid hsid seq ts tag w :
  u32 sid → u32 hsid → u32 seq → u64 ts → byte_array 16 tag →
  env_recv (w_recvs w)
    = RecvData (control_packet HandshakeSessionConfirm hsid seq ts
                  (wire_bytes (mkSessionConfirm sid tag))) peer →
  recv_session_confirm (S fuel) peer sid w
  = (mkWorld (w_sess w) (w_out w) (w_ticks w) (S (w_recvs w)),
     Done (Some (mkSessionConfirm sid tag))).
Proof.
  intros Hsid Hh Hq Ht Htag Hev.
  destruct (wire_bytes_ok (mkSessionConfirm sid tag)) as (_ & Hl & Hb & Hd);
    [by apply confirm_wf|].
  cbn [recv_session_confirm]. erewrite SM_bind_done; [|done]. rewrite Hev.
  rewrite decide_False by auto.
  rewrite control_packet_decode; [|done..|rewrite Hl; cbv; lia].
  cbn [pv_header pv_payload PacketHeader_new ph_msg_type]. rewrite decide_False by auto.
  change SessionConfirm_decode with (wire_decode (A := SessionConfirm)). rewrite Hd.
  erewrite SM_bind_done; [|done]. rewrite decide_False by auto. done.
Qed.

(** The packets of the client. *)
Definition client_hello_pkt (w : World) (rc : ClientRandom) : list Z :=
  control_packet HandshakeClientHello 0 (tx w) (env_clock (w_ticks w))
    (wire_bytes (client_hello_of (s_config (w_sess w)) rc)).

Definition key_exchange_pkt (w : World) (sid : Z) (enc tr : list Z) : list Z :=
  control_packet HandshakeKeyExchange sid (wrap32 (tx w + 1)) (env_clock (S (w_ticks w)))
    (wire_bytes (mkKeyExchangeMsg sid (derive_auth_tag enc client_fin tr))).

Definition client_done (w : World) (sh : ServerHello) (enc dec : list Z) : World :=
  mkWorld
    (set_decrypt_key (Some dec) (set_encrypt_key (Some enc)
      (set_negotiated_codec (sh_codec_accepted sh)
        (set_local_ssrc (Z.lxor (sh_session_id sh) (from_be (take 4 enc)))
          (set_session_id (sh_session_id sh) (w_sess w))))))
    (w_out w) (w_ticks w) (S (w_recvs w)).

(** From the [ServerHello] on. *)
Lemma client_finish_ok fuel rc peer v h sh q2 t2 tr enc dec :
  let sid := sh_session_id sh in
  net_ok → u32 (tx v) → (112 ≤ cfg_mtu (s_config (w_sess v)))%nat →
  wire_wf sh → sh_protocol_version sh = PROTOCOL_VERSION →
  sh_codec_accepted sh ∈ cfg_supported_codecs (s_config (w_sess v)) →
  u32 q2 → u64 t2 →
  tr = build_transcript (cr_nonce rc) (sh_server_nonce sh) sid →
  (enc, dec) = derive_session_keys (kex_shared (cr_secret rc) (sh_ephemeral_public_key sh)) tr →
  env_recv (w_recvs v)
    = RecvData (control_packet HandshakeSessionConfirm sid q2 t2
        (wire_bytes (mkSessionConfirm sid (derive_auth_tag dec server_fin tr)))) peer →
  ∃ n, client_finish (S fuel) rc peer (mkPacketView h (wire_bytes sh)) v
    = (client_done (sent_world v (control_packet HandshakeKeyExchange sid (tx v)
          (env_clock (w_ticks v))
          (wire_bytes (mkKeyExchangeMsg sid (derive_auth_tag enc client_fin tr)))) peer n)
         sh enc dec, Done true).
Proof.
  intros sid Hnet Htx Hmtu Hsh Hver Hcodec Hq2 Ht2 Htr Hkeys Hev.
  destruct (wire_bytes_ok sh Hsh) as (_ & _ & _ & Hshd).
  assert (u32 sid) as Hsid by apply Hsh.
  destruct (wire_bytes_ok (mkKeyExchangeMsg sid (derive_auth_tag enc client_fin tr)))
    as (Hkei & Hkel & Hkeb & _); [apply key_exchange_wf; [done|apply auth_tag_wf]|].
  destruct (send_control_ok HandshakeKeyExchange sid
    (wire_bytes (mkKeyExchangeMsg sid (derive_auth_tag enc client_fin tr))) peer v)
    as [n Hsend]; [done|done|done|done|done|rewrite Hkel; cbv; lia|done|].
  exists n. set (v3 := sent_world v _ peer n) in *.
  pose proof (recv_session_confirm_ok fuel peer sid sid q2 t2
    (derive_auth_tag dec server_fin tr) v3 Hsid Hsid Hq2 Ht2 (auth_tag_wf _ _ _) Hev) as Hconf.
  unfold client_finish. cbn [pv_payload].
  change ServerHello_decode with (wire_decode (A := ServerHello)). rewrite Hshd.
  erewrite SM_bind_done; [|reflexivity]. rewrite Hver.
  rewrite decide_False
    by (unfold PROTOCOL_VERSION, PROTOCOL_VERSION_MIN, PROTOCOL_VERSION_MAX; lia).
  erewrite SM_bind_done; [|reflexivity]. rewrite decide_False by auto.
  fold sid. rewrite <-Htr, <-Hkeys.
  erewrite SM_bind_done; [|unfold proto; rewrite Hkei; reflexivity].
  erewrite SM_bind_done; [|exact Hsend]. erewrite SM_bind_done; [|exact Hconf].
  cbn [sc_server_auth_tag]. rewrite tag_check_refl. reflexivity.
Qed.

Lemma handshake_client_ok fuel rc peer v sh hsid q1 t1 q2 t2 tr enc dec :
  let sid := sh_session_id sh in
  net_ok → u32 (tx v) → (112 ≤ cfg_mtu (s_config (w_sess v)))%nat →
  wire_wf (client_hello_of (s_config (w_sess v)) rc) →
  wire_wf sh → sh_protocol_version sh = PROTOCOL_VERSION →
  sh_codec_accepted sh ∈ cfg_supported_codecs (s_config (w_sess v)) →
  u32 hsid → u32 q1 → u64 t1 → u32 q2 → u64 t2 →
  tr = build_transcript (cr_nonce rc) (sh_server_nonce sh) sid →
  (enc, dec) = derive_session_keys (kex_shared (cr_secret rc) (sh_ephemeral_public_key sh)) tr →
  env_recv (w_recvs v)
    = RecvData (control_packet HandshakeServerHello hsid q1 t1 (wire_bytes sh)) peer →
  env_recv (S (w_recvs v))
    = RecvData (control_packet HandshakeSessionConfirm sid q2 t2
        (wire_bytes (mkSessionConfirm sid (derive_auth_tag dec server_fin tr)))) peer →
  ∃ w', handshake_client (S (S fuel)) rc peer v = (w', Done true)
    ∧ established (set_state (mkSessionStateMachine Active) (w_sess w')) sid
        (sh_codec_accepted sh) enc dec
    ∧ s_state (w_sess w') = s_state (w_sess v)
    ∧ w_out w' = w_out v ++ [(client_hello_pkt v rc, peer);
                             (key_exchange_pkt v sid enc tr, peer)].
Proof.
  intros sid Hnet Htx Hmtu Hch Hsh Hver Hcodec Hh Hq1 Ht1 Hq2 Ht2 Htr Hkeys Hev1 Hev2.
  destruct (wire_bytes_ok _ Hch) as (Hchi & Hchl & Hchb & _).
  destruct (wire_bytes_ok sh Hsh) as (_ & Hshl & Hshb & _).
  destruct (send_control_ok HandshakeClientHello 0
    (wire_bytes (client_hello_of (s_config (w_sess v)) rc)) peer v)
    as [n1 Hsend1]; [done|done|ulia|done|done|rewrite Hchl; cbv; lia|done|].
  set (v1 := sent_world v _ peer n1) in Hsend1.
  set (v2 := mkWorld (w_sess v1) (w_out v1) (w_ticks v1) (S (w_recvs v1))).
  assert (u32 (tx v2)) as Htx2 by apply wrap32_u32.
  destruct (client_finish_ok fuel rc peer v2
    (PacketHeader_new (MessageType_code HandshakeServerHello) hsid q1 t1) sh q2 t2 tr enc dec)
    as [n2 Hfin]; [done..|].
  eexists. split; [|split; [|split]].
  - unfold handshake_client. erewrite SM_bind_done; [|reflexivity].
    erewrite SM_bind_done; [|unfold proto; rewrite Hchi; reflexivity].
    cbn [handshake_client_loop]. erewrite SM_bind_done; [|exact Hsend1].
    erewrite SM_bind_done; [|reflexivity]. change (w_recvs v1) with (w_recvs v). rewrite Hev1.
    rewrite decide_False by auto.
    rewrite control_packet_decode; [|done..|rewrite Hshl; cbv; lia].
    cbn [pv_header ph_msg_type PacketHeader_new]. rewrite decide_False by auto. exact Hfin.
  - split_and!; reflexivity.
  - reflexivity.
  - cbn [client_done sent_world w_out]. unfold v2, v1. cbn [sent_world w_out w_ticks].
    by rewrite <-app_assoc.
Qed.

Lemma start_handshake ev why peer w :
  sm_state (s_state (w_sess w)) = Idle → ev = StartConnect ∨ ev = StartAccept →
  (_ ← modify (set_peer (Some peer)); transition_or ev why) w
  = (mkWorld (set_state (mkSessionStateMachine Handshaking) (set_peer (Some peer) (w_sess w)))
       (w_out w) (w_ticks w) (w_recvs w), Done tt).
Proof.
  intros Hidle Hev. erewrite SM_bind_done; [|reflexivity].
  unfold transition_or. erewrite SM_bind_done.
  2:{ unfold transition, SessionStateMachine_transition. cbn [w_sess].
      change (s_state (set_peer _ _)) with (s_state (w_sess w)). rewrite Hidle.
      destruct Hev as [->| ->]; reflexivity. }
  by destruct Hev as [->| ->].
Qed.

Lemma finish_handshake w :
  sm_state (s_state (w_sess w)) = Handshaking →
  handshake_result (Ok true) w
  = (mkWorld (set_state (mkSessionStateMachine Active) (w_sess w)) (w_out w) (w_ticks w)
       (w_recvs w), Done tt).
Proof.
  intros Hs. unfold handshake_result, transition_or. erewrite SM_bind_done.
  2:{ unfold transition, SessionStateMachine_transition. rewrite Hs. reflexivity. }
  reflexivity.
Qed.

Lemma SM_bind_assoc {A B C} (m : SM A) (f : A → SM B) (g : B → SM C) w :
  (m ≫= λ a, f a ≫= g) w = ((m ≫= f) ≫= g) w.
Proof. unfold mbind, SM_bind. by destruct (m w) as [? []]. Qed.

(** The world in which the role-specific part starts. *)
Definition handshaking (peer : SocketAddr) (w : World) : World :=
  mkWorld (set_state (mkSessionStateMachine Handshaking) (set_peer (Some peer) (w_sess w)))
    (w_out w) (w_ticks w) (w_recvs w).

Lemma handshake_wrap (run : SM bool) ev why peer w w1 :
  sm_state (s_state (w_sess w)) = Idle → ev = StartConnect ∨ ev = StartAccept →
  run (handshaking peer w) = (w1, Done true) →
  s_state (w_sess w1) = s_state (w_sess (handshaking peer w)) →
  (_ ← modify (set_peer (Some peer)); _ ← transition_or ev why;
   res ← catch run; handshake_result res) w
  = (mkWorld (set_state (mkSessionStateMachine Active) (w_sess w1)) (w_out w1) (w_ticks w1)
       (w_recvs w1), Done tt).
Proof.
  intros Hidle Hev Hrun Hst. rewrite SM_bind_assoc.
  erewrite SM_bind_done; [|by apply start_handshake].
  erewrite SM_bind_done; [|unfold catch; fold (handshaking peer w); rewrite Hrun; reflexivity].
  apply finish_handshake. by rewrite Hst.
Qed.

(** ** Server *)

(** The codec [handshake_as_server] picks.  The hello names the preferred codec
    only, so the fallback may be one the client refuses although the two have
    a codec in common. *)
Definition choose_codec (config : Config) (ch : ClientHello) : option Z :=
  if decide (ch_codec_preferred ch ∈ cfg_supported_codecs config)
  then Some (ch_codec_preferred ch) else head (cfg_supported_codecs config).

Lemma wait_client_hello_ok fuel peer ch hsid seq ts w :
  wire_wf ch → u32 hsid → u32 seq → u64 ts →
  env_recv (w_recvs w)
    = RecvData (control_packet HandshakeClientHello hsid seq ts (wire_bytes ch)) peer →
  wait_client_hello (S fuel) peer w
  = (mkWorld (w_sess w) (w_out w) (w_ticks w) (S (w_recvs w)), Done (Some ch)).
Proof.
  intros Hch Hh Hq Ht Hev. destruct (wire_bytes_ok ch Hch) as (_ & Hl & Hb & Hd).
  cbn [wait_client_hello]. erewrite SM_bind_done; [|reflexivity]. rewrite Hev.
  rewrite decide_False by auto.
  rewrite control_packet_decode; [|done..|rewrite Hl; cbv; lia].
  cbn [pv_header pv_payload PacketHeader_new ph_msg_type]. rewrite decide_False by auto.
  change ClientHello_decode with (wire_decode (A := ClientHello)). rewrite Hd. reflexivity.
Qed.

Lemma wait_key_exchange_ok fuel peer sid shp tag hsid seq ts w :
  u32 sid → u32 hsid → u32 seq → u64 ts → byte_array 16 tag → s_closed (w_sess w) = false →
  env_recv (w_recvs w)
    = RecvData (control_packet HandshakeKeyExchange hsid seq ts
                  (wire_bytes (mkKeyExchangeMsg sid tag))) peer →
  wait_key_exchange (S fuel) peer sid shp w
  = (mkWorld (w_sess w) (w_out w) (w_ticks w) (S (w_recvs w)),
     Done (Some (mkKeyExchangeMsg sid tag))).
Proof.
  intros Hsid Hh Hq Ht Htag Hcl Hev.
  destruct (wire_bytes_ok (mkKeyExchangeMsg sid tag)) as (_ & Hl & Hb & Hd);
    [by apply key_exchange_wf|].
  cbn [wait_key_exchange]. erewrite SM_bind_done; [|reflexivity]. rewrite Hcl.
  erewrite SM_bind_done; [|reflexivity]. rewrite Hev. rewrite decide_False by auto.
  rewrite control_packet_decode; [|done..|rewrite Hl; cbv; lia].
  cbn [pv_header pv_payload PacketHeader_new ph_msg_type].
  rewrite decide_False by done. rewrite decide_False by auto.
  change KeyExchangeMsg_decode with (wire_decode (A := KeyExchangeMsg)). rewrite Hd. reflexivity.
Qed.

Definition server_hello_pkt (w : World) (rs : ServerRandom) (sh : ServerHello) : list Z :=
  control_packet HandshakeServerHello (sr_session_id rs) (tx w) (env_clock (w_ticks w))
    (wire_bytes sh).

Definition session_confirm_pkt (w : World) (sid : Z) (enc tr : list Z) : list Z :=
  control_packet HandshakeSessionConfirm sid (wrap32 (tx w + 1)) (env_clock (S (w_ticks w)))
    (wire_bytes (mkSessionConfirm sid (derive_auth_tag enc server_fin tr))).

(** The codec the server picks, as its code computes it. *)
Lemma choose_codec_run config ch codec :
  choose_codec config ch = Some codec →
  (if decide (ch_codec_preferred ch ∈ cfg_supported_codecs config)
   then mret (ch_codec_preferred ch)
   else match cfg_supported_codecs config with
        | c :: _ => mret c
        | [] => throw (TeHandshake "no supported codecs configured")
        end) = (mret codec : SM Z).
Proof.
  unfold choose_codec. intros Hcodec. case_decide; [by injection Hcodec as ->|].
  destruct (cfg_supported_codecs _); [done|]. by injection Hcodec as ->.
Qed.

Lemma server_finish_ok fuel rs peer v ch codec q t tr enc dec :
  let sid := sr_session_id rs in
  let sh := server_hello_of (s_config (w_sess v)) rs ch PROTOCOL_VERSION codec in
  net_ok → u32 (tx v) → (112 ≤ cfg_mtu (s_config (w_sess v)))%nat →
  s_closed (w_sess v) = false →
  ch_protocol_version ch = PROTOCOL_VERSION →
  choose_codec (s_config (w_sess v)) ch = Some codec → wire_wf sh →
  u32 q → u64 t →
  tr = build_transcript (ch_client_nonce ch) (sr_nonce rs) sid →
  (dec, enc) = derive_session_keys (kex_shared (sr_secret rs) (ch_ephemeral_public_key ch)) tr →
  env_recv (w_recvs v)
    = RecvData (control_packet HandshakeKeyExchange sid q t
        (wire_bytes (mkKeyExchangeMsg sid (derive_auth_tag dec client_fin tr)))) peer →
  ∃ w', server_finish (S fuel) rs peer ch v = (w', Done true)
    ∧ established (set_state (mkSessionStateMachine Active) (w_sess w')) sid codec enc dec
    ∧ s_state (w_sess w') = s_state (w_sess v)
    ∧ w_out w' = w_out v ++ [(server_hello_pkt v rs sh, peer);
                             (session_confirm_pkt v sid enc tr, peer)].
Proof.
  intros sid sh Hnet Htx Hmtu Hcl Hver Hcodec Hsh Hq Ht Htr Hkeys Hev.
  destruct (wire_bytes_ok sh Hsh) as (Hshi & Hshl & Hshb & _).
  assert (u32 sid) as Hsid by apply Hsh.
  set (v1 := mkWorld (set_negotiated_codec codec (set_session_id sid (w_sess v)))
               (w_out v) (w_ticks v) (w_recvs v)).
  destruct (send_control_ok HandshakeServerHello sid (wire_bytes sh) peer v1)
    as [n1 Hsend1]; [done|done|done|done|done|rewrite Hshl; cbv; lia|done|].
  set (v2 := sent_world v1 _ peer n1) in Hsend1.
  pose proof (wait_key_exchange_ok fuel peer sid (wire_bytes sh)
    (derive_auth_tag dec client_fin tr) sid q t v2 Hsid Hsid Hq Ht (auth_tag_wf _ _ _) Hcl Hev)
    as Hwait.
  set (v3 := mkWorld (w_sess v2) (w_out v2) (w_ticks v2) (S (w_recvs v2))) in Hwait.
  destruct (wire_bytes_ok (mkSessionConfirm sid (derive_auth_tag enc server_fin tr)))
    as (Hsci & Hscl & Hscb & _); [apply confirm_wf; [done|apply auth_tag_wf]|].
  assert (u32 (tx v3)) as Htx3 by apply wrap32_u32.
  destruct (send_control_ok HandshakeSessionConfirm sid
    (wire_bytes (mkSessionConfirm sid (derive_auth_tag enc server_fin tr))) peer v3)
    as [n2 Hsend2]; [done|done|done|done|done|rewrite Hscl; cbv; lia|done|].
  pose proof (choose_codec_run _ _ _ Hcodec) as Hchoose.
  eexists. split; [|split; [|split]].
  - unfold server_finish. rewrite Hver.
    rewrite decide_False by (unfold PROTOCOL_VERSION, PROTOCOL_VERSION_MIN; lia).
    change (Z.min PROTOCOL_VERSION PROTOCOL_VERSION_MAX) with PROTOCOL_VERSION.
    do 2 (erewrite SM_bind_done; [|reflexivity]). cbn [w_sess].
    change (s_config (set_session_id _ _)) with (s_config (w_sess v)).
    rewrite Hchoose. erewrite SM_bind_done; [|reflexivity].
    erewrite SM_bind_done; [|reflexivity]. fold sh.
    erewrite SM_bind_done; [|unfold proto; rewrite Hshi; reflexivity].
    fold sid. erewrite SM_bind_done; [|exact Hsend1].
    rewrite <-Htr, <-Hkeys. erewrite SM_bind_done; [|exact Hwait].
    cbn [ke_session_id ke_auth_tag]. rewrite decide_False by auto.
    rewrite tag_check_refl. cbn [negb].
    erewrite SM_bind_done; [|unfold proto; rewrite Hsci; reflexivity].
    erewrite SM_bind_done; [|exact Hsend2]. reflexivity.
  - split_and!; reflexivity.
  - reflexivity.
  - unfold v3, v2, v1. cbn [sent_world w_out w_ticks]. by rewrite <-app_assoc.
Qed.
End sides.

(** C1: two honest parties agree.  A client and a server start idle and not
    closed, with an MTU of at least 112; every send succeeds and the clocks
    are [u64]s; the fields of the two hellos are in range.  The codec the
    server chooses (the client's preferred one if the server supports it, else
    the first one the server supports) is one the client supports.  When the
    network delivers the two packets of each side, and nothing else, to the
    other, both handshakes succeed, each side sends exactly its two packets,
    both sessions are active with the same session id and that codec, and the
    client's encryption key is the server's decryption key and vice versa. *)
Theorem handshake_agreement `{KexLaws} (EC ES : Env) w v rc rs pc ps codec fuel :
  @hs_ready EC w → @hs_ready ES v →
  let ch := client_hello_of (s_config (w_sess w)) rc in
  let sid := sr_session_id rs in
  let sh := server_hello_of (s_config (w_sess v)) rs ch PROTOCOL_VERSION codec in
  let tr := build_transcript (cr_nonce rc) (sr_nonce rs) sid in
  let keys := derive_session_keys (kex_shared (cr_secret rc) (kex_public (sr_secret rs))) tr in
  wire_wf ch → wire_wf sh →
  choose_codec (s_config (w_sess v)) ch = Some codec →
  codec ∈ cfg_supported_codecs (s_config (w_sess w)) →
  (* the network delivers the four packets *)
  @env_recv ES (w_recvs v) = RecvData (@client_hello_pkt EC _ w rc) pc →
  @env_recv EC (w_recvs w) = RecvData (@server_hello_pkt ES _ v rs sh) ps →
  @env_recv ES (S (w_recvs v)) = RecvData (@key_exchange_pkt EC _ w sid keys.1 tr) pc →
  @env_recv EC (S (w_recvs w)) = RecvData (@session_confirm_pkt ES _ v sid keys.2 tr) ps →
  ∃ w' v',
    @handshake_as_client EC _ (S (S fuel)) rc ps w = (w', Done tt)
    ∧ @handshake_as_server ES _ (S (S fuel)) rs pc v = (v', Done tt)
    ∧ established (w_sess w') sid codec keys.1 keys.2
    ∧ established (w_sess v') sid codec keys.2 keys.1
    ∧ w_out w' = w_out w ++ [(@client_hello_pkt EC _ w rc, ps);
                             (@key_exchange_pkt EC _ w sid keys.1 tr, ps)]
    ∧ w_out v' = w_out v ++ [(@server_hello_pkt ES _ v rs sh, pc);
                             (@session_confirm_pkt ES _ v sid keys.2 tr, pc)].
Proof.
  intros [Hwi Hwt Hwm Hwo Hwn] [Hvi Hvt Hvm Hvo Hvn] ch sid sh tr keys Hch Hsh Hcodec Hin
    Hev1 Hev2 Hev3 Hev4.
  pose proof (proj2 Hwn) as Hclk_c. pose proof (proj2 Hvn) as Hclk_s.
  assert (u32 sid) as Hsid by apply Hsh.
  destruct keys as [enc dec] eqn:Hkeys. cbn [fst snd] in *.
  destruct (@handshake_client_ok EC _ _ fuel rc ps (handshaking ps w) sh sid
    (tx v) (@env_clock ES (w_ticks v)) (wrap32 (tx v + 1)) (@env_clock ES (S (w_ticks v)))
    tr enc dec) as (w1 & Hc & Hest & Hst & Hout); try done.
  { apply wrap32_u32. }
  set (v0 := handshaking pc v).
  set (v1 := mkWorld (w_sess v0) (w_out v0) (w_ticks v0) (S (w_recvs v0))).
  destruct (@server_finish_ok ES _ _ (S fuel) rs pc v1 ch codec
    (wrap32 (tx w + 1)) (@env_clock EC (S (w_ticks w))) tr dec enc)
    as (v2 & Hs & Hest' & Hst' & Hout'); try done.
  { apply wrap32_u32. }
  { cbn [ch client_hello_of ch_ephemeral_public_key]. rewrite kex_commutes. by rewrite <-Hkeys. }
  eexists _, _. split; [|split; [|split; [|split; [|split]]]].
  - exact (handshake_wrap _ StartConnect _ ps w w1 Hwi (or_introl eq_refl) Hc Hst).
  - refine (handshake_wrap _ StartAccept _ pc v v2 Hvi (or_intror eq_refl) _ Hst').
    unfold handshake_server.
    rewrite (SM_bind_done _ _ v0 v1 (Some ch)); [exact Hs|].
    refine (@wait_client_hello_ok ES (S fuel) pc ch 0 (tx w) (@env_clock EC (w_ticks w)) v0
      _ _ _ _ _); [done|ulia|done|done|exact Hev1].
  - exact Hest.
  - exact Hest'.
  - exact Hout.
  - exact Hout'.
Qed.

(** ** No keys without proof *)

Definition keys (w : World) : option (list Z) * option (list Z) :=
  (s_encrypt_key (w_sess w), s_decrypt_key (w_sess w)).

(** [m] leaves the keys alone. *)
Definition keeps_keys {A} (m : SM A) : Prop := ∀ w, keys (m w).1 = keys w.

Lemma keeps_bind {A B} (m : SM A) (f : A → SM B) :
  keeps_keys m → (∀ a, keeps_keys (f a)) → keeps_keys (m ≫= f).
Proof.
  intros Hm Hf w. unfold mbind, SM_bind. specialize (Hm w).
  destruct (m w) as [w1 [a|e|]]; [|done..]. by rewrite (Hf a w1).
Qed.

Lemma keeps_pure {A} (m : SM A) : (∀ w, w_sess (m w).1 = w_sess w) → keeps_keys m.
Proof. intros Hm w. unfold keys. by rewrite Hm. Qed.

Lemma keeps_modify f :
  (∀ s, s_encrypt_key (f s) = s_encrypt_key s ∧ s_decrypt_key (f s) = s_decrypt_key s) →
  keeps_keys (modify f).
Proof. intros Hf w. unfold keys, modify. simpl. by destruct (Hf (w_sess w)) as [-> ->]. Qed.

Ltac keeps :=
  repeat first
    [ progress intros
    | apply keeps_bind
    | apply keeps_modify; intros; by split
    | apply keeps_pure; intros; reflexivity
    | match goal with
      | |- keeps_keys (match ?x with _ => _ end) => destruct x
      | |- keeps_keys (if ?b then _ else _) => destruct b
      end ].

Section proof_of_keys.
Context `{Env} `{KexLaws}.

Lemma keeps_send_control msg sid payload peer : keeps_keys (send_control msg sid payload peer).
Proof. unfold send_control, transmit, next_sequence, count. keeps. Qed.

Lemma keeps_wait_client_hello fuel peer : keeps_keys (wait_client_hello fuel peer).
Proof. induction fuel; cbn [wait_client_hello]; keeps; done. Qed.

Lemma keeps_wait_client_hello_any fuel : keeps_keys (wait_client_hello_any fuel).
Proof. induction fuel; cbn [wait_client_hello_any]; keeps; done. Qed.

Lemma keeps_wait_key_exchange fuel peer sid shp :
  keeps_keys (wait_key_exchange fuel peer sid shp).
Proof.
  pose proof keeps_send_control.
  induction fuel; cbn [wait_key_exchange]; keeps; done.
Qed.

Lemma keeps_recv_session_confirm fuel peer sid : keeps_keys (recv_session_confirm fuel peer sid).
Proof. induction fuel; cbn [recv_session_confirm]; keeps; done. Qed.

(** A key-exchange message that the wait returns was received from the peer. *)
Lemma wait_key_exchange_from fuel peer sid shp w w' ke :
  wait_key_exchange fuel peer sid shp w = (w', Done (Some ke)) →
  ∃ i data view, env_recv i = RecvData data peer ∧ PacketView_decode data = Ok view
    ∧ ph_msg_type (pv_header view) = MessageType_code HandshakeKeyExchange
    ∧ KeyExchangeMsg_decode (pv_payload view) = Ok ke.
Proof.
  revert w. induction fuel as [|fuel IH]; intros w; cbn [wait_key_exchange];
    (erewrite SM_bind_done; [|reflexivity]); (destruct (s_closed (w_sess w)); [done|]); [done|].
  erewrite SM_bind_done; [|reflexivity].
  destruct (env_recv (w_recvs w)) as [data from|e|] eqn:Hev; [|done|apply IH].
  destruct (decide (from ≠ peer)) as [|Hp]; [apply IH|].
  apply dec_stable in Hp. subst from.
  destruct (PacketView_decode data) as [view|e] eqn:Hv; [|apply IH].
  destruct (decide (_ = _)).
  - unfold mbind at 1, SM_bind. destruct (send_control _ _ _ _ _) as [w1 [[]|e'|]]; [|done..].
    apply IH.
  - destruct (decide (_ ≠ _)) as [|Hmt]; [apply IH|]. apply dec_stable in Hmt.
    unfold mbind, SM_bind, proto.
    destruct (KeyExchangeMsg_decode (pv_payload view)) as [m|e'] eqn:Hd; [|done].
    intros [= _ <-]. eauto 10.
Qed.

Lemma recv_session_confirm_from fuel peer sid w w' sc :
  recv_session_confirm fuel peer sid w = (w', Done (Some sc)) →
  sc_session_id sc = sid
  ∧ ∃ i data view, env_recv i = RecvData data peer ∧ PacketView_decode data = Ok view
    ∧ ph_msg_type (pv_header view) = MessageType_code HandshakeSessionConfirm
    ∧ SessionConfirm_decode (pv_payload view) = Ok sc.
Proof.
  revert w. induction fuel as [|fuel IH]; intros w; cbn [recv_session_confirm]; [done|].
  erewrite SM_bind_done; [|reflexivity].
  destruct (env_recv (w_recvs w)) as [data from|e|] eqn:Hev; [|done|apply IH].
  destruct (decide (from ≠ peer)) as [|Hp]; [apply IH|].
  apply dec_stable in Hp. subst from.
  destruct (PacketView_decode data) as [view|e] eqn:Hv; [|apply IH].
  destruct (decide (_ ≠ _)) as [|Hmt]; [apply IH|]. apply dec_stable in Hmt.
  unfold mbind, SM_bind, proto.
  destruct (SessionConfirm_decode (pv_payload view)) as [m|e'] eqn:Hd; [|done].
  destruct (decide (_ ≠ _)) as [|Hid]; [done|]. apply dec_stable in Hid.
  intros [= _ <-]. eauto 10.
Qed.

Lemma KeyExchangeMsg_tag_length p ke :
  KeyExchangeMsg_decode p = Ok ke → length (ke_auth_tag ke) = 16%nat.
Proof.
  unfold KeyExchangeMsg_decode, KeyExchangeMsg_SIZE. case_decide; [done|]. intros [= <-].
  simpl. apply length_slice. lia.
Qed.

Lemma SessionConfirm_tag_length p sc :
  SessionConfirm_decode p = Ok sc → length (sc_server_auth_tag sc) = 16%nat.
Proof.
  unfold SessionConfirm_decode, SessionConfirm_SIZE. case_decide; [done|]. intros [= <-].
  simpl. apply length_slice. lia.
Qed.

(** The client has shown that it derived the same keys: it sent the tag that
    only the client's key and this transcript give. *)
Definition client_proved (rs : ServerRandom) (peer : SocketAddr) (ch : ClientHello)
    (k : option (list Z) * option (list Z)) : Prop :=
  let tr := build_transcript (ch_client_nonce ch) (sr_nonce rs) (sr_session_id rs) in
  let '(c_enc, c_dec) :=
    derive_session_keys (kex_shared (sr_secret rs) (ch_ephemeral_public_key ch)) tr in
  k = (Some c_dec, Some c_enc)
  ∧ ∃ i data view ke, env_recv i = RecvData data peer ∧ PacketView_decode data = Ok view
      ∧ KeyExchangeMsg_decode (pv_payload view) = Ok ke
      ∧ ke = mkKeyExchangeMsg (sr_session_id rs) (derive_auth_tag c_enc client_fin tr).

(** One step of a computation: either it fails with the keys as they were,
    or it goes on with the keys as they were. *)
Lemma keeps_bind_cases {A B} (m : SM A) (f : A → SM B) w w' r :
  keeps_keys m → (m ≫= f) w = (w', r) →
  (keys w' = keys w ∧ ∀ b, r ≠ Done b)
  ∨ ∃ a w1, m w = (w1, Done a) ∧ keys w1 = keys w ∧ f a w1 = (w', r).
Proof.
  intros Hm Hr. specialize (Hm w). unfold mbind, SM_bind in Hr.
  destruct (m w) as [w1 [a|e|]]; [right; by exists a, w1|left; injection Hr as <- <-; by split..].
Qed.

(** The computation stopped with the keys as they were. *)
Ltac stopped Hr :=
  right; cbv beta delta [mret SM_ret throw] in Hr; injection Hr as <- <-; split; [done|first [done|congruence]].

Lemma server_finish_keys fuel rs peer ch w w' r :
  server_finish fuel rs peer ch w = (w', r) →
  (r = Done true ∧ client_proved rs peer ch (keys w')) ∨ (r ≠ Done true ∧ keys w' = keys w).
Proof.
  intros Hr. unfold server_finish in Hr.
  destruct (decide _); [stopped Hr|].
  erewrite SM_bind_done in Hr; [|reflexivity].
  erewrite SM_bind_done in Hr; [|reflexivity].
  apply keeps_bind_cases in Hr as [[Hk Hn]|(codec & w1 & _ & Hk1 & Hr)];
    [right; split; [apply Hn|exact Hk]|
    |destruct (decide _); [keeps|]; destruct (cfg_supported_codecs _); keeps].
  erewrite SM_bind_done in Hr; [|reflexivity].
  apply keeps_bind_cases in Hr as [[Hk Hn]|(shp & w2 & _ & Hk2 & Hr)];
    [right; split; [apply Hn|exact (eq_trans Hk Hk1)]| |keeps].
  change (keys w1 = keys w) in Hk1. change (keys w2 = keys w1) in Hk2.
  apply keeps_bind_cases in Hr as [[Hk Hn]|([] & w3 & _ & Hk3 & Hr)];
    [right; split; [apply Hn|congruence]| |apply keeps_send_control].
  set (tr := build_transcript _ _ _) in Hr.
  destruct (derive_session_keys _ tr) as [c_enc c_dec] eqn:Hkeys.
  assert (keys w3 = keys w) as Hkw by congruence.
  apply keeps_bind_cases in Hr as [[Hk Hn]|(ke & w4 & Hke & Hk4 & Hr)];
    [right; split; [apply Hn|congruence]| |apply keeps_wait_key_exchange].
  destruct ke as [ke|]; [|stopped Hr].
  destruct (decide _) as [|Hid]; [stopped Hr|]. apply dec_stable in Hid.
  destruct (constant_time_eq _ _) eqn:Hct; cbn [negb] in Hr;
    [|stopped Hr].
  apply wait_key_exchange_from in Hke as (i & data & view & Hev & Hv & _ & Hd).
  apply constant_time_eq_spec in Hct; [|by eapply KeyExchangeMsg_tag_length|apply hkdf_wf].
  apply keeps_bind_cases in Hr as [[Hk Hn]|(scp & w5 & _ & Hk5 & Hr)];
    [right; split; [apply Hn|congruence]| |keeps].
  apply keeps_bind_cases in Hr as [[Hk Hn]|([] & w6 & _ & Hk6 & Hr)];
    [right; split; [apply Hn|congruence]| |apply keeps_send_control].
  injection Hr as <- <-. left. split; [done|]. unfold client_proved. fold tr. rewrite Hkeys.
  split; [done|]. exists i, data, view, ke. split_and!; try done.
  destruct ke as [kid ktag]. simpl in *. by subst.
Qed.

(** Likewise for the server's proof. *)
Definition server_proved (rc : ClientRandom) (peer : SocketAddr)
    (k : option (list Z) * option (list Z)) : Prop :=
  ∃ sh, let tr := build_transcript (cr_nonce rc) (sh_server_nonce sh) (sh_session_id sh) in
    let '(c_enc, c_dec) :=
      derive_session_keys (kex_shared (cr_secret rc) (sh_ephemeral_public_key sh)) tr in
    k = (Some c_enc, Some c_dec)
    ∧ ∃ i data view sc, env_recv i = RecvData data peer ∧ PacketView_decode data = Ok view
        ∧ SessionConfirm_decode (pv_payload view) = Ok sc
        ∧ sc = mkSessionConfirm (sh_session_id sh) (derive_auth_tag c_dec server_fin tr).

Lemma client_finish_keys fuel rc peer view w w' r :
  client_finish fuel rc peer view w = (w', r) →
  (r = Done true ∧ server_proved rc peer (keys w')) ∨ (r ≠ Done true ∧ keys w' = keys w).
Proof.
  intros Hr. unfold client_finish in Hr.
  apply keeps_bind_cases in Hr as [[Hk Hn]|(sh & w1 & _ & Hk1 & Hr)];
    [right; split; [apply Hn|exact Hk]| |keeps].
  destruct (decide _); [stopped Hr|].
  erewrite SM_bind_done in Hr; [|reflexivity].
  destruct (decide _); [stopped Hr|].
  set (tr := build_transcript _ _ _) in Hr.
  destruct (derive_session_keys _ tr) as [c_enc c_dec] eqn:Hkeys.
  apply keeps_bind_cases in Hr as [[Hk Hn]|(kep & w2 & _ & Hk2 & Hr)];
    [right; split; [apply Hn|congruence]| |keeps].
  apply keeps_bind_cases in Hr as [[Hk Hn]|([] & w3 & _ & Hk3 & Hr)];
    [right; split; [apply Hn|congruence]| |apply keeps_send_control].
  apply keeps_bind_cases in Hr as [[Hk Hn]|(sc & w4 & Hsc & Hk4 & Hr)];
    [right; split; [apply Hn|congruence]| |apply keeps_recv_session_confirm].
  destruct sc as [sc|]; [|stopped Hr].
  destruct (constant_time_eq _ _) eqn:Hct; cbn [negb] in Hr;
    [|stopped Hr].
  apply recv_session_confirm_from in Hsc as (Hid & i & data & view' & Hev & Hv & _ & Hd).
  apply constant_time_eq_spec in Hct; [|by eapply SessionConfirm_tag_length|apply hkdf_wf].
  injection Hr as <- <-. left. split; [done|]. exists sh. cbv zeta. fold tr. rewrite Hkeys.
  split; [done|]. exists i, data, view', sc. split_and!; try done.
  destruct sc as [sid tag]. simpl in *. by subst.
Qed.
End proof_of_keys.

(** C4: a server installs session keys only for a client that proved it holds
    them: whatever the network delivers, the handshake either completes, and
    then a [KeyExchange] received from the peer carried exactly the tag that
    the client's key gives for this transcript and session id, and the
    installed keys are the derived ones, or it does not complete and the keys
    are unchanged. *)
Theorem server_keys_need_proof `{Env} `{KexLaws} fuel rs peer w w' r :
  handshake_server fuel rs peer w = (w', r) →
  (r = Done true ∧ ∃ ch, client_proved rs peer ch (keys w'))
  ∨ (r ≠ Done true ∧ keys w' = keys w).
Proof.
  intros Hr. unfold handshake_server in Hr.
  apply keeps_bind_cases in Hr as [[Hk Hn]|([ch|] & w1 & _ & Hk1 & Hr)];
    [right; split; [apply Hn|done]| | |apply keeps_wait_client_hello].
  - destruct (server_finish_keys _ _ _ _ _ _ _ Hr) as [[-> Hp]|[Hn Hk]];
      [left; eauto|right; split; [done|congruence]].
  - injection Hr as <- <-. by right.
Qed.

(** C5: a client installs session keys only for a server that proved it holds
    them: whatever the network delivers and however often the client retries,
    the handshake either completes, and then a [SessionConfirm] received from
    the peer carried exactly the tag that the server's key gives for this
    transcript and session id, or it does not and the keys are unchanged. *)
Theorem client_keys_need_proof `{Env} `{KexLaws} fuel rc peer w w' r :
  handshake_client fuel rc peer w = (w', r) →
  (r = Done true ∧ server_proved rc peer (keys w')) ∨ (r ≠ Done true ∧ keys w' = keys w).
Proof.
  intros Hr. unfold handshake_client in Hr.
  erewrite SM_bind_done in Hr; [|reflexivity].
  apply keeps_bind_cases in Hr as [[Hk Hn]|(hello & w1 & _ & Hk1 & Hr)];
    [right; split; [apply Hn|done]| |keeps].
  rewrite <-Hk1. clear Hk1 w. revert Hr. generalize 0 as attempt. revert w1.
  induction fuel as [|fuel IH]; intros w1 attempt Hr; cbn [handshake_client_loop] in Hr;
    (apply keeps_bind_cases in Hr as [[Hk Hn]|([] & w2 & _ & Hk2 & Hr)];
      [right; split; [apply Hn|done]| |apply keeps_send_control]); rewrite <-Hk2.
  { injection Hr as <- <-. by right. }
  erewrite SM_bind_done in Hr; [|reflexivity].
  set (w3 := mkWorld _ _ _ _) in Hr. change (keys w2) with (keys w3).
  destruct (env_recv (w_recvs w2)) as [data from|e|].
  - destruct (decide _); [by eapply IH|]. destruct (PacketView_decode data); [|by eapply IH].
    destruct (decide _); [by eapply IH|]. by eapply client_finish_keys.
  - destruct (_ <? _); [injection Hr as <- <-; by right|by eapply IH].
  - destruct (_ <? _); [injection Hr as <- <-; by right|by eapply IH].
Qed.

(** ** A concrete key exchange for the witnesses *)

#[export] Instance toy_kex : Kex := {|
  kex_secret := Z;
  kex_public s := replicate 32 (s mod 256);
  kex_shared a p := replicate 32 ((a mod 256 * from_be (take 1 p)) mod 256);
  hkdf salt ikm info n :=
    replicate n ((from_be (take 1 ikm) + foldl Z.add 0 info) mod 256);
|}.

#[export] Instance toy_kex_laws : KexLaws.
Proof.
  split; cbn -[replicate].
  - intros s. split; [apply length_replicate|]. apply Forall_replicate. dlia.
  - intros a b. simpl take. rewrite !from_be_1. f_equal. f_equal. lia.
  - intros. split; [apply length_replicate|]. apply Forall_replicate. dlia.
Qed.

Definition idle_session : Session :=
  mkSession SessionStateMachine_new Metrics_new
    (mkJitterBuffer (replicate 16 Slot_empty) 16 15 0 false) Config_default None
    0 0 0 0 0 None None (mkCongestionController 64000 8000 64000)
    FecEncoder_with_default_window FecDecoder_with_default_window false false 0 false.
Definition idle_world : World := mkWorld idle_session [] 0 0.

Definition sample_rc : ClientRandom := mkClientRandom (5 : kex_secret) (replicate 32 17).
Definition sample_rs : ServerRandom :=
  mkServerRandom (7 : kex_secret) (replicate 32 34) 305419896.
Definition sample_hello : ClientHello := client_hello_of Config_default sample_rc.
Definition sample_reply : ServerHello :=
  server_hello_of Config_default sample_rs sample_hello PROTOCOL_VERSION 1.
Definition sample_tr : list Z :=
  build_transcript (replicate 32 17) (replicate 32 34) 305419896.
Definition sample_keys : list Z * list Z :=
  derive_session_keys (kex_shared (5 : kex_secret) (kex_public (7 : kex_secret))) sample_tr.

(** An environment that delivers two packets. *)
Definition script_env (p1 p2 : list Z) (from : SocketAddr) : Env := {|
  env_clock n := 1000 * Z.of_nat (n mod 1000);
  env_send _ data _ := Ok (Z.of_nat (length data));
  env_recv n := match n with
                | O => RecvData p1 from
                | S O => RecvData p2 from
                | _ => RecvTimeout
                end;
  env_overflow_checks := false;
|}.

Definition client_addr : SocketAddr := mkSocketAddr (V4 [10; 0; 0; 1]) 4000.
Definition server_addr : SocketAddr := mkSocketAddr (V4 [10; 0; 0; 2]) 9000.

Definition client_env : Env :=
  script_env (@server_hello_pkt quiet_env _ idle_world sample_rs sample_reply)
    (@session_confirm_pkt quiet_env _ idle_world 305419896 sample_keys.2 sample_tr) server_addr.
Definition server_env : Env :=
  script_env (@client_hello_pkt quiet_env _ idle_world sample_rc)
    (@key_exchange_pkt quiet_env _ idle_world 305419896 sample_keys.1 sample_tr) client_addr.

Lemma script_net_ok p1 p2 from : @net_ok (script_env p1 p2 from).
Proof.
  split; [done|]. intros n. cbn [env_clock script_env].
  pose proof (Nat.mod_upper_bound n 1000). unfold u64. lia.
Qed.

Lemma idle_ready p1 p2 from : @hs_ready (script_env p1 p2 from) idle_world.
Proof.
  split; [reflexivity|unfold tx; simpl; ulia|simpl; unfold DEFAULT_MTU; lia|reflexivity|].
  apply script_net_ok.
Qed.

Lemma sample_hello_wf : ClientHello_wf sample_hello ∧ ServerHello_wf sample_reply.
Proof. split; (split_and!; apply (bool_decide_unpack _); vm_compute; exact I). Qed.

Lemma handshake_agreement_witness :
  ∃ w' v',
    @handshake_as_client client_env _ 2 sample_rc server_addr idle_world = (w', Done tt)
    ∧ @handshake_as_server server_env _ 2 sample_rs client_addr idle_world = (v', Done tt)
    ∧ established (w_sess w') 305419896 1 sample_keys.1 sample_keys.2
    ∧ established (w_sess v') 305419896 1 sample_keys.2 sample_keys.1.
Proof.
  destruct (handshake_agreement (H := toy_kex) client_env server_env idle_world idle_world
    sample_rc sample_rs client_addr server_addr 1 0) as (w' & v' & H1 & H2 & H3 & H4 & _).
  - apply idle_ready.
  - apply idle_ready.
  - exact (proj1 sample_hello_wf).
  - exact (proj2 sample_hello_wf).
  - vm_compute. reflexivity.
  - vm_compute. left.
  - reflexivity.
  - reflexivity.
  - reflexivity.
  - reflexivity.
  - exists w', v'. split; [exact H1|]. split; [exact H2|]. split; [exact H3|exact H4].
Defined.

Lemma server_keys_need_proof_witness :
  ∃ w' r, @handshake_server server_env _ 2 sample_rs client_addr idle_world = (w', r)
    ∧ ((r = Done true ∧ ∃ ch, @client_proved server_env _ sample_rs client_addr ch (keys w'))
       ∨ (r ≠ Done true ∧ keys w' = keys idle_world)).
Proof.
  destruct (@handshake_server server_env _ 2 sample_rs client_addr idle_world) as [w' r] eqn:E.
  exists w', r. split; [reflexivity|].
  exact (@server_keys_need_proof server_env _ _ 2 sample_rs client_addr idle_world w' r E).
Defined.

Lemma client_keys_need_proof_witness :
  ∃ w' r, @handshake_client client_env _ 2 sample_rc server_addr idle_world = (w', r)
    ∧ ((r = Done true ∧ @server_proved client_env _ sample_rc server_addr (keys w'))
       ∨ (r ≠ Done true ∧ keys w' = keys idle_world)).
Proof.
  destruct (@handshake_client client_env _ 2 sample_rc server_addr idle_world) as [w' r] eqn:E.
  exists w', r. split; [reflexivity|].
  exact (@client_keys_need_proof client_env _ _ 2 sample_rc server_addr idle_world w' r E).
Defined.
