(* ===== verification/SessionTypes.v ===== *)
(** * The types of a session's fields, and the absence of panics

    What the Rust types and the invariants of the parts promise of a session:
    the integers stay within their widths, installed keys have 32 bytes, and
    the jitter buffer, the FEC decoder, the congestion controller and the
    estimators are in a reachable state.  Every operation of a session keeps
    this, and while it holds no operation panics in a release build. *)

From S2P Require Import Prelude.
From S2P Require Import CoreTypes.
From S2P Require Import Header.
From S2P Require Import Packet.
From S2P Require Import Message.
From S2P Require Import SessionFsm.
From S2P Require Import Crypto.
From S2P Require Import Fec.
From S2P Require Import JitterBuffer.
From S2P Require Import Ieee.
From S2P Require Import Metrics.
From S2P Require Import Congestion.
From S2P Require Import Transport.
From S2P Require Import Session.
From S2P Require Import SessionSeq.
From S2P Require Import Audio.
From S2P Require Import Handshake.
From S2P Require Import Agreement.
From stdpp Require Import strings list.
#[local] Open Scope Z_scope.

(** ** The invariant *)

Definition i64 (x : Z) : Prop := i64_MIN ≤ x ≤ i64_MAX.

Record loss_typed (l : LossTracker) : Prop := {
  lty_bitmap : u64 (lt_bitmap l);
  lty_high : u32 (lt_high_seq l);
  lty_total : u32 (lt_total_packets l);
  lty_reorder : u32 (lt_reorder_count l);
}.

Record estimator_typed (j : JitterEstimator) : Prop := {
  ety_jitter : u32 (je_jitter_us j);
  ety_prev : i64 (je_prev_diff_us j);
}.

Definition key_typed (k : option (list Z)) : Prop :=
  match k with Some k => byte_array 32 k | None => True end.

(** [talks] tells whether push-to-talk may be on. *)
Record session_inv (talks : bool) (s : Session) : Prop := {
  ty_session_id : u32 (s_session_id s);
  ty_tx_sequence : u32 (s_tx_sequence s);
  ty_audio_tx_seq : u32 (s_audio_tx_seq s);
  ty_local_ssrc : u32 (s_local_ssrc s);
  ty_last_rx : u64 (s_last_rx s);
  ty_codec : u8 (s_negotiated_codec s);
  ty_supported : bytes (cfg_supported_codecs (s_config s));
  ty_encrypt_key : key_typed (s_encrypt_key s);
  ty_decrypt_key : key_typed (s_decrypt_key s);
  ty_recv : jb_typed (s_jitter s) ∧ fd_inv FEC_WINDOW (s_fec_dec s);
  ty_congestion : cc_inv (s_congestion s);
  ty_loss : loss_typed (m_loss (s_metrics s));
  ty_estimator : estimator_typed (m_jitter (s_metrics s));
  ty_ptt : s_ptt_active s = true → talks = true;
}.

Definition session_typed : Session → Prop := session_inv true.

(** ** The parts *)

Lemma lor_u64 a b : u64 a → u64 b → u64 (Z.lor a b).
Proof.
  intros [Ha0 Ha] [Hb0 Hb]. unfold u64. change 18446744073709551616 with (2 ^ 64) in *.
  split; [by apply Z.lor_nonneg|].
  destruct (Z.eq_dec (Z.lor a b) 0) as [->|Hz]; [lia|].
  assert (0 ≤ Z.lor a b) by (by apply Z.lor_nonneg).
  apply Z.log2_lt_pow2; [lia|]. rewrite Z.log2_lor by done.
  destruct (Z.max_spec (Z.log2 a) (Z.log2 b)) as [[_ ->]|[_ ->]].
  - destruct (Z.eq_dec b 0) as [->|]; [done|]. apply Z.log2_lt_pow2; lia.
  - destruct (Z.eq_dec a 0) as [->|]; [done|]. apply Z.log2_lt_pow2; lia.
Qed.

Lemma lxor_u32 a b : u32 a → u32 b → u32 (Z.lxor a b).
Proof.
  intros [Ha0 Ha] [Hb0 Hb]. unfold u32. change 4294967296 with (2 ^ 32) in *.
  assert (0 ≤ Z.lxor a b) by (by apply Z.lxor_nonneg). split; [done|].
  destruct (Z.eq_dec (Z.lxor a b) 0) as [->|Hz]; [lia|].
  apply Z.log2_lt_pow2; [lia|]. eapply Z.le_lt_trans; [by apply Z.log2_lxor|].
  destruct (Z.max_spec (Z.log2 a) (Z.log2 b)) as [[_ ->]|[_ ->]].
  - destruct (Z.eq_dec b 0) as [->|]; [done|]. apply Z.log2_lt_pow2; lia.
  - destruct (Z.eq_dec a 0) as [->|]; [done|]. apply Z.log2_lt_pow2; lia.
Qed.

Lemma from_be_u32 l : bytes l → u32 (from_be (take 4 l)).
Proof.
  intros Hb. pose proof (from_be_bound (take 4 l) (Forall_take _ 4 l Hb)) as [H0 H1].
  split; [done|]. eapply Z.lt_le_trans; [exact H1|].
  change 4294967296 with (256 ^ 4). apply Z.pow_le_mono_r; [lia|]. rewrite length_take. lia.
Qed.

(** A result of a computation that panics only with overflow checks. *)
Definition checks_only {A} (oc : bool) (Q : A → Prop) (r : checked A) : Prop :=
  match r with Val a => Q a | Panic => oc = true end.

Lemma loss_typed_record oc l q :
  loss_typed l → u32 q → checks_only oc loss_typed (LossTracker_record oc l q).
Proof.
  intros [Hb Hh Ht Hr] Hq. unfold LossTracker_record.
  destruct (lt_initialised l =? 0); [by split; simpl; try done; unfold u64, u32; lia|].
  assert (u64 1) as H1 by (unfold u64; lia).
  destruct (0 <? _).
  { unfold u64_shl. destruct (_ <? 64); [|destruct oc]; cbn [mbind checked_bind]; [|done|];
      (split; simpl; [apply lor_u64; [apply wrap64_u64|done]|done|apply wrap32_u32|done]). }
  destruct (_ <? 0); [|by split; simpl; try done; apply wrap32_u32].
  set (d := as_i32 _). unfold i32_neg. destruct (d =? _); [destruct oc|]; cbn [mbind checked_bind];
    [done|by split; simpl; try done; apply wrap32_u32|].
  split; simpl; [|done|apply wrap32_u32..].
  destruct (wrap32 (- d) <? LOSS_WINDOW_SIZE) eqn:Hg; [|done]. case_match; [|done].
  apply lor_u64; [done|]. apply Z.ltb_lt in Hg. unfold LOSS_WINDOW_SIZE in Hg.
  pose proof (wrap32_u32 (- d)) as [Hw _]. rewrite Z.shiftl_1_l.
  split; [lia|]. change 18446744073709551616 with (2 ^ 64). apply Z.pow_lt_mono_r; lia.
Qed.

Lemma as_i64_typed x : u64 x → i64 (as_i64 x).
Proof. unfold as_i64, i64, i64_MIN, i64_MAX, u64. intros. case_match; lia. Qed.

Lemma i64_sub_typed oc a b : checks_only oc i64 (i64_sub oc a b).
Proof.
  unfold i64_sub. destruct (_ && _) eqn:E; [|destruct oc; [done|]].
  - unfold i64. simpl. lia.
  - apply as_i64_typed, wrap64_u64.
Qed.

Lemma estimator_typed_record oc j s r :
  estimator_typed j → checks_only oc estimator_typed (JitterEstimator_record oc j s r).
Proof.
  intros [Hj Hp]. unfold JitterEstimator_record.
  pose proof (i64_sub_typed oc (as_i64 r) (as_i64 s)) as Hd.
  destruct (i64_sub oc (as_i64 r) (as_i64 s)) as [d|]; [|done]. cbn [mbind checked_bind].
  destruct (_ =? i64_MIN); [by split|].
  destruct (i64_sub oc d _) as [delta|] eqn:E; cbn [mbind checked_bind];
    [|pose proof (i64_sub_typed oc d (je_prev_diff_us j)) as Hs; by rewrite E in Hs].
  split; [|done]. simpl. unfold u32, u32_MAX in *. set (a := Z.abs delta).
  assert (0 ≤ a) by (subst a; lia). case_match; Z.div_mod_to_equations; lia.
Qed.

(** ** Specifications of session computations *)

(** A datagram is a [Vec<u8>]. *)
Class EnvBytes `{Env} : Prop :=
  env_recv_bytes n data from : env_recv n = RecvData data from → bytes data.

Section typing.
Context {talks : bool} `{EL : EnvLaws} `{EB : !EnvBytes} `{AL : AeadLaws}.

(** [m] keeps the invariant, returns values in [Q], and panics only with
    overflow checks. *)
Definition safe {A} (m : SM A) (Q : A → Prop) : Prop :=
  ∀ w, session_inv talks (w_sess w) →
    session_inv talks (w_sess (m w).1)
    ∧ match (m w).2 with
      | Done a => Q a
      | Fail _ => True
      | Crash => env_overflow_checks = true
      end.

Lemma safe_ret {A} (a : A) (Q : A → Prop) : Q a → safe (mret a) Q.
Proof. by intros HQ w. Qed.
Lemma safe_throw {A} e (Q : A → Prop) : safe (throw e) Q.
Proof. by intros w. Qed.
Lemma safe_get : safe get (session_inv talks).
Proof. by intros w. Qed.
Lemma safe_clock : safe micros_since_epoch u64.
Proof. intros w Hw. split; [done|]. apply env_clock_u64. Qed.
Lemma safe_recv :
  safe recv (λ ev, match ev with RecvData data _ => bytes data | _ => True end).
Proof.
  intros w Hw. split; [done|]. simpl.
  destruct (env_recv (w_recvs w)) as [data from| |] eqn:E; [|done..]. by eapply env_recv_bytes.
Qed.
Lemma safe_send_to data dest : safe (send_to data dest) (λ _, True).
Proof. intros w Hw. split; [done|]. simpl. by destruct (env_send _ _ _). Qed.
Lemma safe_proto {A} (r : result Error A) (Q : A → Prop) :
  (∀ a, r = Ok a → Q a) → safe (proto r) Q.
Proof. intros HQ w Hw. split; [done|]. simpl. destruct r; auto. Qed.
Lemma safe_may_panic {A} (r : checked A) Q :
  checks_only env_overflow_checks Q r → safe (may_panic r) Q.
Proof. intros HQ w Hw. split; [done|]. simpl. by destruct r. Qed.
Lemma safe_modify f :
  (∀ s, session_inv talks s → session_inv talks (f s)) → safe (modify f) (λ _, True).
Proof. intros Hf w Hw. split; [|done]. by apply Hf. Qed.
Lemma safe_transition ev : safe (transition ev) (λ _, True).
Proof.
  intros w Hw. unfold transition. destruct (SessionStateMachine_transition _ _) as [sm r].
  split; [|done]. simpl. by destruct Hw; split.
Qed.

Lemma safe_bind {A B} (m : SM A) (f : A → SM B) P Q :
  safe m P → (∀ a, P a → safe (f a) Q) → safe (m ≫= f) Q.
Proof.
  intros Hm Hf w Hw. unfold mbind, SM_bind. specialize (Hm w Hw).
  destruct (m w) as [w1 [a|e|]]; simpl in *; [|done..]. apply Hf; tauto.
Qed.
Lemma safe_mono {A} (m : SM A) (P Q : A → Prop) : (∀ a, P a → Q a) → safe m P → safe m Q.
Proof.
  intros Hpq Hm w Hw. destruct (Hm w Hw) as [? Hr]. split; [done|]. destruct (m w).2; auto.
Qed.
Lemma safe_weaken {A} (m : SM A) (Q : A → Prop) : safe m Q → safe m (λ _, True).
Proof. by apply safe_mono. Qed.
Lemma safe_ignore {A} (m : SM A) Q : safe m Q → safe (ignore m) (λ _, True).
Proof.
  intros Hm w Hw. unfold ignore. specialize (Hm w Hw). destruct (m w) as [w1 []]; simpl in *; tauto.
Qed.
Lemma safe_catch {A} (m : SM A) Q :
  safe m Q → safe (catch m) (λ r, match r with Ok a => Q a | Err _ => True end).
Proof.
  intros Hm w Hw. unfold catch. specialize (Hm w Hw). destruct (m w) as [w1 []]; simpl in *; tauto.
Qed.

(** Fields that are outside the invariant. *)
Ltac untyped := apply safe_modify; intros ? Ht; destruct Ht; split; done.

Lemma safe_count f : safe (count f) (λ _, True).
Proof. untyped. Qed.
Lemma safe_transition_or ev why : safe (transition_or ev why) (λ _, True).
Proof.
  eapply safe_bind; [apply safe_transition|]. intros [] _; [by apply safe_ret|apply safe_throw].
Qed.

Lemma safe_next_sequence : safe next_sequence u32.
Proof.
  eapply safe_bind; [apply safe_get|]. intros s Hs. eapply safe_bind.
  - apply safe_modify. intros s' Ht. destruct Ht. split; try done. apply wrap32_u32.
  - intros _ _. apply safe_ret, Hs.
Qed.
Lemma safe_next_audio_seq : safe next_audio_seq u32.
Proof.
  eapply safe_bind; [apply safe_get|]. intros s Hs. eapply safe_bind.
  - apply safe_modify. intros s' Ht. destruct Ht. split; try done. apply wrap32_u32.
  - intros _ _. apply safe_ret, Hs.
Qed.

(** Steps whose value does not matter. *)
Ltac step lem := eapply safe_bind; [apply lem|intros ? ?].
Ltac skip lem := eapply safe_bind; [eapply safe_weaken; apply lem|intros ? _].

Lemma safe_transmit header payload peer : safe (transmit header payload peer) (λ _, True).
Proof.
  step safe_get. eapply safe_bind; [by apply (safe_proto _ (λ _, True))|intros ? _].
  step safe_send_to. apply safe_count.
Qed.

Lemma safe_send_control msg sid payload peer : safe (send_control msg sid payload peer) (λ _, True).
Proof. step safe_next_sequence. step safe_clock. apply safe_transmit. Qed.

Lemma safe_seal key seq sid h plain : safe (Session.seal key seq sid h plain) (λ _, True).
Proof.
  eapply safe_bind; [by apply (safe_proto _ (λ _, True))|intros ? _].
  eapply safe_bind; [by apply (safe_proto _ (λ _, True))|intros ? _]. by apply safe_ret.
Qed.

Lemma safe_send_fec parity peer sid : safe (send_fec_parity parity peer sid) (λ _, True).
Proof.
  step safe_next_sequence. step safe_clock. step safe_get. case_match; [|by apply safe_ret].
  step safe_seal. apply safe_transmit.
Qed.

Lemma safe_send_audio payload : safe (send_audio payload) (λ _, True).
Proof.
  step safe_get. case_decide; [apply safe_throw|]. case_match; [|apply safe_throw].
  step safe_next_audio_seq. step safe_next_sequence. step safe_clock. step safe_get.
  eapply safe_bind; [|intros ? _].
  { case_match; [step safe_seal|]; apply safe_transmit. }
  step safe_get. destruct (FecEncoder_push _ _ _) as [fec parity].
  eapply safe_bind; [untyped|intros ? _].
  destruct parity; [|by apply safe_ret]. eapply safe_ignore, safe_send_fec.
Qed.

Lemma safe_ptt_press : talks = true → safe ptt_press (λ _, True).
Proof.
  intros Htalks. eapply safe_bind; [untyped|intros ? _]. step safe_get. case_match; [|by apply safe_ret].
  step safe_send_control. apply safe_send_control.
Qed.
Lemma safe_ptt_release : safe ptt_release (λ _, True).
Proof.
  eapply safe_bind; [untyped|intros ? _]. step safe_get. case_match; [|by apply safe_ret].
  step safe_send_control. apply safe_send_control.
Qed.

(** ** Receiving *)

Lemma bytes_unseal key seq sid raw payload plain :
  bytes payload → Session.unseal key seq sid raw payload = Ok plain → bytes plain.
Proof.
  intros Hb. unfold Session.unseal, decrypt_in_place. case_decide; [done|]. rewrite decide_False by lia.
  destruct (aead_decrypt _ _ _ _ _) as [pt|] eqn:Hd; [|done]. cbn. intros [= <-].
  apply Forall_take, bytes_blit; [|done]. eapply aead_decrypt_bytes; [|exact Hd].
  by apply Forall_take.
Qed.

Lemma safe_push_jitter frame : u32 (fr_sequence frame) → safe (push_jitter frame) (λ _, True).
Proof.
  intros Hq. eapply safe_bind; [apply safe_get|]. intros s0 Hs0. eapply safe_bind.
  - apply (safe_may_panic _ (λ r, jb_typed r.1)).
    by destruct (jb_typed_push _ frame (proj1 (ty_recv _ _ Hs0)) Hq) as (r & -> & Hr).
  - intros r Hr. apply safe_modify. intros s Hs. destruct Hs as [? ? ? ? ? ? ? ? ? [_ Hf]].
    by split.
Qed.

Lemma safe_deliver_audio ts plain : u64 ts → bytes plain → safe (deliver_audio ts plain) (λ _, True).
Proof.
  intros Hts Hb. unfold deliver_audio. case_decide; [apply safe_count|].
  pose proof (from_be_u32 plain Hb) as Hq. eapply safe_bind; [apply safe_get|]. intros s0 Hs0.
  eapply safe_bind.
  { apply (safe_may_panic _ loss_typed), loss_typed_record; [apply Hs0|done]. }
  intros loss Hl. eapply safe_bind.
  { apply safe_modify. intros s Hs. by destruct Hs; split. }
  intros _ _. step safe_clock. eapply safe_bind; [apply safe_get|]. intros s1 Hs1.
  eapply safe_bind.
  { apply (safe_may_panic _ estimator_typed), estimator_typed_record, Hs1. }
  intros jit Hj. eapply safe_bind.
  { apply safe_modify. intros s Hs. by destruct Hs; split. }
  intros _ _. eapply safe_bind; [apply safe_get|]. intros s2 Hs2. eapply safe_bind.
  { apply (safe_may_panic _ (λ r, fd_inv FEC_WINDOW r.1)).
    destruct (fd_inv_push_data FEC_WINDOW (s_fec_dec s2) (from_be (take 4 plain)) (drop 4 plain))
      as (d & -> & Hd); [done|apply Hs2|apply Hq|done]. }
  intros r Hr. eapply safe_bind.
  { apply safe_modify. intros s Hs. destruct Hs as [? ? ? ? ? ? ? ? ? [? _]]. split; try done. }
  intros _ _. by apply safe_push_jitter.
Qed.

Lemma safe_dispatch_audio view raw :
  u64 (ph_timestamp (pv_header view)) → bytes (pv_payload view) →
  safe (dispatch_audio view raw) (λ _, True).
Proof.
  intros Hts Hb. unfold dispatch_audio. step safe_get.
  case_match; [|by apply safe_deliver_audio].
  case_match; [|apply safe_count].
  destruct (Session.unseal _ _ _ _ _) eqn:Hu; [|apply safe_count].
  apply safe_deliver_audio; [done|]. by eapply bytes_unseal.
Qed.

Lemma safe_dispatch_fec view raw :
  bytes (pv_payload view) → safe (dispatch_fec view raw) (λ _, True).
Proof.
  intros Hb. unfold dispatch_fec. eapply safe_bind; [apply safe_get|]. intros s0 Hs0.
  case_match; [|by apply safe_ret]. case_match; [|by apply safe_ret].
  destruct (Session.unseal _ _ _ _ _) as [data|] eqn:Hu; [|apply safe_count].
  case_decide; [|by apply safe_ret].
  set (par := mkFecParity _ _ _).
  pose proof (fd_inv_push_parity FEC_WINDOW (s_fec_dec s0) par ltac:(done) (proj2 (ty_recv _ _ Hs0)))
    as [Hd _].
  destruct (FecDecoder_push_parity (s_fec_dec s0) par) as [fec rec] eqn:Hp. simpl in Hd.
  eapply safe_bind.
  { apply safe_modify. intros s Hs. destruct Hs as [? ? ? ? ? ? ? ? ? [? _]]. split; try done. }
  intros _ _. destruct rec as [[q payload]|]; [|by apply safe_ret]. apply safe_push_jitter. simpl.
  unfold FecDecoder_push_parity in Hp. injection Hp as _ Hrec. unfold FecDecoder_try_recover in Hrec.
  cbn [fd_parity mbind option_bind] in Hrec. case_decide; [done|]. injection Hrec as <- _.
  apply wrap32_u32.
Qed.

Lemma cc_inv_set_bitrate c b :
  cc_inv c → checks_only false cc_inv (CongestionController_set_bitrate c b).
Proof.
  intros [Hmin Hmax]. unfold CongestionController_set_bitrate. rewrite u32_clamp_ok by lia.
  cbn [mbind checked_bind checks_only]. unfold cc_inv. simpl. lia.
Qed.

Lemma cc_inv_update c loss rtt :
  cc_inv c → checks_only false cc_inv (CongestionController_update c loss rtt).
Proof.
  intros [Hmin Hmax]. unfold CongestionController_update. rewrite u32_clamp_ok by lia.
  cbn [mbind checked_bind checks_only]. unfold cc_inv.
  cbn [cc_current_bitrate cc_min_bitrate cc_max_bitrate]. lia.
Qed.

(** A congestion controller that replaces the session's. *)
Lemma safe_congestion (r : checked CongestionController) :
  checks_only false cc_inv r → safe (c ← may_panic r; modify (set_congestion c)) (λ _, True).
Proof.
  intros Hr. eapply safe_bind; [apply (safe_may_panic _ cc_inv); by destruct r|].
  intros c Hc. apply safe_modify. intros s Hs. by destruct Hs; split.
Qed.

Lemma safe_dispatch view raw :
  u64 (ph_timestamp (pv_header view)) → bytes (pv_payload view) →
  safe (dispatch_packet view raw) (λ _, True).
Proof.
  intros Hts Hb. unfold dispatch_packet. eapply safe_bind; [apply safe_get|]. intros s0 Hs0.
  destruct (MessageType_from_code (ph_msg_type (pv_header view))) as [[]|]; try (by apply safe_ret); try untyped.
  - by apply safe_dispatch_audio.
  - by apply safe_dispatch_fec.
  - case_match; [apply safe_send_control|by apply safe_ret].
  - destruct (ControlBitrateMsg_decode (pv_payload view)); [|by apply safe_ret].
    apply safe_congestion, cc_inv_set_bitrate, Hs0.
  - destruct (negb _); [|by apply safe_ret]. case_match; [|by apply safe_ret].
    eapply safe_ignore, safe_send_control.
  - step safe_transition. apply safe_throw.
Qed.

Lemma safe_on_datagram data : bytes data → safe (on_datagram data) (λ _, True).
Proof.
  intros Hb. step safe_count. destruct (PacketView_decode data) as [view|] eqn:Hd; [|apply safe_count].
  destruct (PacketView_decode_sound data view Hb Hd) as [Hwf _].
  destruct Hwf as ((_ & _ & _ & _ & _ & Hts) & _ & Hp & _).
  eapply safe_bind; [apply safe_clock|]. intros now Hnow. eapply safe_bind.
  { apply safe_modify. intros s Hs. by destruct Hs; split. }
  intros _ _. by apply safe_dispatch.
Qed.

Lemma safe_check_liveness : safe check_liveness (λ _, True).
Proof.
  step safe_clock. eapply safe_bind; [apply safe_get|]. intros s0 Hs0.
  cbv zeta. destruct (negb _ && _); [step safe_transition; apply safe_throw|].
  apply safe_congestion, cc_inv_update, Hs0.
Qed.

Lemma safe_poll_once : safe poll_once (λ _, True).
Proof.
  eapply safe_bind; [apply safe_recv|]. intros [data from|e|] Hb.
  - by apply safe_on_datagram.
  - apply safe_throw.
  - step safe_get. case_match; try (by apply safe_ret);
      (eapply safe_bind; [|intros ? _; apply safe_check_liveness]);
      (eapply safe_bind; [apply safe_get|intros ? _]; case_match;
       [apply safe_send_control|by apply safe_ret]).
Qed.

Lemma u64_add_checks oc x y : checks_only oc (λ _, True) (u64_add oc x y).
Proof. unfold u64_add. destruct oc; simpl; [by case_match|done]. Qed.

Lemma safe_recv_audio_loop fuel skip : ∀ deadline,
  safe (recv_audio_loop fuel skip deadline) (λ _, True).
Proof.
  induction fuel as [|fuel IH]; intros deadline; [by apply safe_ret|]. cbn [recv_audio_loop].
  step safe_clock. eapply safe_bind; [apply safe_get|]. intros s0 Hs0. eapply safe_bind.
  { apply (safe_may_panic _ (λ r, jb_typed r.1)).
    by destruct (jb_typed_pop_with_deadline _ a deadline (proj1 (ty_recv _ _ Hs0)))
      as (r & -> & Hr). }
  intros r Hr. eapply safe_bind.
  { apply safe_modify. intros s Hs. destruct Hs as [? ? ? ? ? ? ? ? ? [_ Hf]]. by split. }
  intros _ _. case_match; [by apply safe_ret|]. case_match.
  { eapply safe_bind; [apply safe_may_panic, u64_add_checks|intros; apply IH]. }
  eapply safe_bind; [apply safe_recv|]. intros [data from|e|] Hb; [|apply safe_throw|apply IH].
  eapply safe_bind; [by apply safe_on_datagram|]. intros _ _. apply IH.
Qed.

Lemma safe_recv_audio fuel : safe (recv_audio fuel) (λ _, True).
Proof.
  step safe_get. step safe_clock. eapply safe_bind; [apply safe_may_panic, u64_add_checks|].
  intros. apply safe_recv_audio_loop.
Qed.

Lemma safe_close : safe close (λ _, True).
Proof.
  eapply safe_bind; [untyped|intros ? _]. do 2 (eapply safe_bind; [untyped|intros ? _]).
  step safe_get. eapply safe_bind.
  { case_match; [eapply safe_ignore, safe_send_control|by apply (safe_ret tt (λ _, True))]. }
  intros _ _. step safe_transition. step safe_transition. by apply safe_ret.
Qed.

(** ** The handshake *)

Context `{KL : KexLaws}.

Lemma bytes_pv data view : bytes data → PacketView_decode data = Ok view → bytes (pv_payload view).
Proof. intros Hb Hd. destruct (PacketView_decode_sound data view Hb Hd) as [(_ & _ & ? & _) _]. done. Qed.

Lemma keys_typed shared transcript enc dec :
  derive_session_keys shared transcript = (enc, dec) → byte_array 32 enc ∧ byte_array 32 dec.
Proof. intros [= <- <-]. split; apply hkdf_wf. Qed.

Lemma safe_recv_session_confirm fuel peer sid : safe (recv_session_confirm fuel peer sid) (λ _, True).
Proof.
  induction fuel as [|fuel IH]; [by apply safe_ret|]. cbn [recv_session_confirm].
  eapply safe_bind; [apply safe_recv|]. intros [data from|e|] Hb; [|apply safe_throw|apply IH].
  case_decide; [apply IH|]. case_match; [|apply IH]. case_decide; [apply IH|].
  eapply safe_bind; [by apply (safe_proto _ (λ _, True))|]. intros c _.
  case_decide; [apply safe_throw|by apply safe_ret].
Qed.

(** Installing the results of a handshake. *)
Lemma safe_install (sid ssrc codec : Z) (enc dec : list Z) :
  u32 sid → u32 ssrc → u8 codec → byte_array 32 enc → byte_array 32 dec →
  safe (_ ← modify (set_session_id sid);
        _ ← modify (set_local_ssrc ssrc);
        _ ← modify (set_negotiated_codec codec);
        _ ← modify (set_encrypt_key (Some enc));
        _ ← modify (set_decrypt_key (Some dec));
        mret true) (λ _, True).
Proof.
  intros. do 5 (eapply safe_bind; [apply safe_modify; intros s Hs; by destruct Hs; split|intros _ _]).
  by apply safe_ret.
Qed.

Lemma safe_client_finish fuel r peer view :
  bytes (pv_payload view) → safe (client_finish fuel r peer view) (λ _, True).
Proof.
  intros Hb. eapply safe_bind.
  { apply (safe_proto _ (λ h, u32 (sh_session_id h))). intros h. unfold ServerHello_decode.
    case_decide; [done|]. intros [= <-]. by apply rd32_u32. }
  intros hello Hsid. cbv beta zeta. case_decide; [apply safe_throw|].
  eapply safe_bind; [apply safe_get|]. intros s0 Hs0. case_decide as Hc; [apply safe_throw|].
  destruct (derive_session_keys _ _) as [enc dec] eqn:Hk. apply keys_typed in Hk as [Henc Hdec].
  eapply safe_bind; [by apply (safe_proto _ (λ _, True))|]. intros ke _. step safe_send_control.
  eapply safe_bind; [apply safe_recv_session_confirm|]. intros [c|] _; [|by apply safe_ret].
  case_match; [apply safe_throw|]. apply safe_install; try done.
  - apply lxor_u32; [done|]. apply from_be_u32, Henc.
  - pose proof (ty_supported _ _ Hs0) as Hall.
    by apply (proj1 (Forall_forall _ _) Hall).
Qed.

Lemma safe_handshake_client_loop fuel r peer hello : ∀ attempt,
  safe (handshake_client_loop fuel r peer hello attempt) (λ _, True).
Proof.
  induction fuel as [|fuel IH]; intros attempt; cbn [handshake_client_loop];
    step safe_send_control; [by apply safe_ret|].
  eapply safe_bind; [apply safe_recv|]. intros [data from|e|] Hb.
  - case_decide; [apply IH|]. destruct (PacketView_decode data) eqn:Hd; [|apply IH].
    case_decide; [apply IH|]. by eapply safe_client_finish, bytes_pv.
  - case_match; [apply safe_throw|apply IH].
  - case_match; [apply safe_throw|apply IH].
Qed.

Lemma safe_wait_client_hello fuel peer : safe (wait_client_hello fuel peer) (λ _, True).
Proof.
  induction fuel as [|fuel IH]; [by apply safe_ret|]. cbn [wait_client_hello].
  eapply safe_bind; [apply safe_recv|]. intros [data from|e|] Hb; [|apply safe_throw|apply IH].
  case_decide; [apply IH|]. case_match; [|apply IH]. case_decide; [apply IH|].
  eapply safe_bind; [by apply (safe_proto _ (λ _, True))|]. intros h _. by apply safe_ret.
Qed.

Lemma safe_wait_client_hello_any fuel : safe (wait_client_hello_any fuel) (λ _, True).
Proof.
  induction fuel as [|fuel IH]; cbn [wait_client_hello_any]; step safe_get;
    (case_match; [apply safe_throw|]); [by apply safe_ret|].
  eapply safe_bind; [apply safe_recv|]. intros [data from|e|] Hb; [|apply safe_throw|apply IH].
  case_match; [|apply IH]. case_decide; [apply IH|]. case_match; [by apply safe_ret|apply IH].
Qed.

Lemma safe_wait_key_exchange fuel peer sid payload :
  safe (wait_key_exchange fuel peer sid payload) (λ _, True).
Proof.
  induction fuel as [|fuel IH]; cbn [wait_key_exchange]; step safe_get;
    (case_match; [apply safe_throw|]); [by apply safe_ret|].
  eapply safe_bind; [apply safe_recv|]. intros [data from|e|] Hb; [|apply safe_throw|apply IH].
  case_decide; [apply IH|]. case_match; [|apply IH].
  case_decide; [step safe_send_control; apply IH|]. case_decide; [apply IH|].
  eapply safe_bind; [by apply (safe_proto _ (λ _, True))|]. intros h _. by apply safe_ret.
Qed.

Lemma safe_server_finish fuel r peer hello :
  u32 (sr_session_id r) → safe (server_finish fuel r peer hello) (λ _, True).
Proof.
  intros Hsid. unfold server_finish. case_decide; [apply safe_throw|].
  eapply safe_bind; [apply safe_modify; intros s Hs; by destruct Hs; split|]. intros _ _.
  eapply safe_bind; [apply safe_get|]. intros s0 Hs0. pose proof (ty_supported _ _ Hs0) as Hall.
  eapply safe_bind.
  { apply (λ m, m : safe _ u8). case_decide.
    - apply safe_ret. by apply (proj1 (Forall_forall _ _) Hall).
    - destruct (cfg_supported_codecs _); [apply safe_throw|]. apply safe_ret. by inversion Hall. }
  intros codec Hc. eapply safe_bind.
  { apply safe_modify. intros s Hs. by destruct Hs; split. }
  intros _ _. eapply safe_bind; [by apply (safe_proto _ (λ _, True))|]. intros sh _.
  step safe_send_control. destruct (derive_session_keys _ _) as [enc dec] eqn:Hk.
  apply keys_typed in Hk as [Henc Hdec].
  eapply safe_bind; [apply safe_wait_key_exchange|]. intros [ke|] _; [|by apply safe_ret].
  case_decide; [apply safe_throw|]. case_match; [apply safe_throw|].
  eapply safe_bind; [by apply (safe_proto _ (λ _, True))|]. intros sc _. step safe_send_control.
  do 2 (eapply safe_bind; [apply safe_modify; intros s Hs; by destruct Hs; split|intros _ _]).
  by apply safe_ret.
Qed.

Lemma safe_handshake_result (r : result TransportError bool) : safe (handshake_result r) (λ _, True).
Proof.
  destruct r as [[]|]; [apply safe_transition_or|step safe_transition; apply safe_throw..].
Qed.

Lemma safe_handshake_as_client fuel r peer : safe (handshake_as_client fuel r peer) (λ _, True).
Proof.
  eapply safe_bind; [untyped|intros ? _]. step safe_transition_or.
  eapply safe_bind; [eapply safe_catch|intros res _; apply safe_handshake_result].
  step safe_get. eapply safe_bind; [by apply (safe_proto _ (λ _, True))|intros ? _].
  apply safe_handshake_client_loop.
Qed.

Lemma safe_handshake_as_server fuel r peer :
  u32 (sr_session_id r) → safe (handshake_as_server fuel r peer) (λ _, True).
Proof.
  intros Hr. eapply safe_bind; [untyped|intros ? _]. step safe_transition_or.
  eapply safe_bind; [eapply safe_catch|intros res _; apply safe_handshake_result].
  eapply safe_bind; [apply safe_wait_client_hello|]. intros [h|] _; [|by apply (safe_ret false (λ _, True))].
  by apply safe_server_finish.
Qed.

Lemma safe_handshake_server_any fuel r :
  u32 (sr_session_id r) → safe (handshake_server_any fuel r) (λ _, True).
Proof.
  intros Hr. eapply safe_bind; [apply safe_wait_client_hello_any|].
  intros [[h peer]|] _; [|by apply safe_ret].
  eapply safe_bind; [untyped|intros ? _]. by apply safe_server_finish.
Qed.

Lemma safe_handshake_open_loop attempts fuel : ∀ rnd,
  (∀ n, u32 (sr_session_id (rnd n))) → safe (handshake_open_loop attempts fuel rnd) (λ _, True).
Proof.
  induction attempts as [|attempts IH]; intros rnd Hr; [by apply safe_ret|].
  cbn [handshake_open_loop]. step safe_get.
  case_match; [step safe_transition; apply safe_throw|].
  eapply safe_bind; [by eapply safe_catch, safe_handshake_server_any|]. intros res _.
  destruct res as [[]|[]];
    try (step safe_transition_or; by apply safe_ret);
    try (step safe_transition; apply safe_throw);
    (do 3 (step safe_transition); eapply safe_bind; [untyped|intros ? _]; by apply IH).
Qed.

Lemma safe_handshake_open attempts fuel rnd :
  (∀ n, u32 (sr_session_id (rnd n))) → safe (handshake_open attempts fuel rnd) (λ _, True).
Proof. intros Hr. step safe_transition_or. by apply safe_handshake_open_loop. Qed.
End typing.

(** ** Any use of a session *)

Lemma session_inv_new talks c s :
  config_wf c → bytes (cfg_supported_codecs c) → Session_new c = Val s → session_inv talks s.
Proof.
  intros (_ & _ & Hb) Hsup. unfold Session_new.
  destruct (JitterBuffer_new _) as [jb|] eqn:Hj; [|done]. cbn [mbind checked_bind].
  destruct (CongestionController_new _ _ _) as [cc|] eqn:Hc; [|done]. cbn. intros [= <-].
  apply jb_typed_new in Hj. split; cbn; try done; try ulia.
  unfold CongestionController_new, u32_clamp, CONGESTION_MIN_BITRATE in Hc.
  rewrite Z.max_id in Hc. destruct (Z.leb_spec 8000 (cfg_max_bitrate c)); [|done].
  cbn in Hc. injection Hc as <-. unfold cc_inv, CONGESTION_MIN_BITRATE. simpl.
  unfold u32 in Hb. repeat case_match; lia.
Qed.

(** The calls of the public interface that change a session. *)
Inductive scall `{Kex} : Type :=
  | ScConnect (fuel : nat) (r : ClientRandom) (peer : SocketAddr)
  | ScAccept (fuel : nat) (r : ServerRandom) (peer : SocketAddr)
  | ScOpen (attempts fuel : nat) (rnd : nat → ServerRandom)
  | ScSend (payload : list Z)
  | ScReceive (fuel : nat)
  | ScPoll
  | ScPress
  | ScRelease
  | ScCloseCall.

(** The session after a call, and whether the call did not panic. *)
Definition completes {A} (m : SM A) (w : World) : World * bool :=
  let '(w, r) := m w in (w, match r with Crash => false | _ => true end).

Section calls.
Context `{Env} `{Aead} `{Kex}.

Definition scall_run (c : scall) (w : World) : World * bool :=
  match c with
  | ScConnect fuel r peer => completes (handshake_as_client fuel r peer) w
  | ScAccept fuel r peer => completes (handshake_as_server fuel r peer) w
  | ScOpen attempts fuel rnd => completes (handshake_open attempts fuel rnd) w
  | ScSend payload => completes (send_audio payload) w
  | ScReceive fuel => completes (recv_audio fuel) w
  | ScPoll => completes poll_once w
  | ScPress => completes ptt_press w
  | ScRelease => completes ptt_release w
  | ScCloseCall => completes close w
  end.

(** The calls in turn; an error does not stop the caller.  The second
    component is whether no call panicked. *)
Definition scalls_run (calls : list scall) (w : World) : World * bool :=
  foldl (λ '(w, fine) c, let '(w, f) := scall_run c w in (w, fine && f)) (w, true) calls.

(** Session ids are drawn as a [u32]. *)
Definition scall_typed (c : scall) : Prop :=
  match c with
  | ScAccept _ r _ => u32 (sr_session_id r)
  | ScOpen _ _ rnd => ∀ n, u32 (sr_session_id (rnd n))
  | _ => True
  end.
End calls.

Section runs.
Context `{EL : EnvLaws} `{EB : !EnvBytes} `{AL : AeadLaws} `{KL : KexLaws}.

Lemma completes_typed {A} (m : SM A) Q w :
  safe (talks := true) m Q → session_typed (w_sess w) →
  session_typed (w_sess (completes m w).1) ∧ ((completes m w).2 = false → env_overflow_checks = true).
Proof.
  intros Hs Hw. unfold completes. specialize (Hs w Hw).
  destruct (m w) as [w' []]; simpl in *; naive_solver.
Qed.

Lemma scall_run_typed c w :
  scall_typed c → session_typed (w_sess w) →
  session_typed (w_sess (scall_run c w).1) ∧ ((scall_run c w).2 = false → env_overflow_checks = true).
Proof.
  intros Hc Hw. destruct c; cbn [scall_run];
    (eapply completes_typed; [clear Hw w|exact Hw]).
  - apply safe_handshake_as_client.
  - by apply safe_handshake_as_server.
  - by apply safe_handshake_open.
  - apply safe_send_audio.
  - apply safe_recv_audio.
  - apply safe_poll_once.
  - by apply safe_ptt_press.
  - apply safe_ptt_release.
  - apply safe_close.
Qed.

(** Every use of a session is well-typed and free of panics: from a
    session built from any configuration the constructor accepts, after any
    sequence of handshakes in each role, sends, receives, polls, push-to-talk
    calls and closes, whatever datagrams arrive and whichever calls fail, all
    integer fields are within their widths, installed keys have 32 bytes, the
    negotiated codec is a byte, the jitter buffer keeps its size and the types
    of its slots, the FEC decoder and congestion controller satisfy their
    invariants and the estimators hold values of their types; and without
    overflow checks no call panics. *)
Theorem session_type_safety c s calls :
  config_wf c → bytes (cfg_supported_codecs c) → Session_new c = Val s →
  Forall scall_typed calls →
  session_typed (w_sess (scalls_run calls (mkWorld s [] 0 0)).1)
  ∧ (env_overflow_checks = false → (scalls_run calls (mkWorld s [] 0 0)).2 = true).
Proof.
  intros Hc Hsup Hs Hcalls. pose proof (session_inv_new true c s Hc Hsup Hs) as Ht.
  change s with (w_sess (mkWorld s [] 0 0)) in Ht. revert Ht.
  generalize (mkWorld s [] 0 0) as w. clear Hs.
  induction calls as [|call calls IH] using rev_ind; intros w Ht; [done|].
  apply Forall_app in Hcalls as [Hcalls Hcall]. apply Forall_cons_1 in Hcall as [Hcall _].
  unfold scalls_run. rewrite foldl_app. destruct (IH Hcalls w Ht) as [Ht1 Hf1].
  unfold scalls_run in Ht1, Hf1. destruct (foldl _ _ _) as [w1 f1]. simpl in Ht1, Hf1 |- *.
  destruct (scall_run_typed call w1 Hcall Ht1) as [Ht2 Hf2].
  destruct (scall_run call w1) as [w2 f2]. simpl in *. split; [done|].
  intros Hoc. rewrite Hf1 by done. destruct f2; [done|]. rewrite Hf2 in Hoc by done. done.
Qed.
End runs.

#[local] Instance quiet_laws : EnvLaws (H := quiet_env).
Proof.
  split. intros n. cbn [env_clock quiet_env]. pose proof (Nat.mod_upper_bound n 1000). unfold u64. lia.
Qed.
#[local] Instance quiet_bytes : EnvBytes (H := quiet_env).
Proof. done. Qed.

Lemma session_type_safety_witness :
  let calls := [ScConnect 20 sample_rc server_addr; ScPress; ScSend [1; 2]; ScPoll;
                ScReceive 3; ScAccept 5 sample_rs client_addr; ScCloseCall] in
  ∃ s, Session_new Config_default = Val s
    ∧ session_typed (w_sess (scalls_run (H := quiet_env) calls (mkWorld s [] 0 0)).1)
    ∧ (scalls_run (H := quiet_env) calls (mkWorld s [] 0 0)).2 = true.
Proof.
  intros calls. destruct (Session_new Config_default) as [s|] eqn:E;
    [|exfalso; vm_compute in E; discriminate E].
  exists s. split; [reflexivity|].
  destruct (session_type_safety (H := quiet_env) (H0 := toy_aead) (H1 := toy_kex)
    Config_default s calls) as [Ht Hf].
  - split; [|split]; apply (bool_decide_unpack _); vm_compute; exact I.
  - apply (bool_decide_unpack _). vm_compute. exact I.
  - exact E.
  - repeat constructor; vm_compute; congruence.
  - split; [exact Ht|]. apply Hf. reflexivity.
Defined.
