(* ===== verification/Task.v ===== *)
(** * Tasks

    A session is shared between threads: the methods of
    [gravital-talk-transport/src/session.rs] take [&self] and are run by
    several tasks at a time (a sender, a receiver, the user interface).
    [Session.v] gives each operation as one computation; here an operation is a
    resumption: a tree of steps, each step one access to the shared state (one
    atomic operation, one read or write under a lock, one call of the transport
    or the clock), with the acquisition and release of every
    [tokio::sync::Mutex] of the session explicit.  A guard that is a temporary
    of an [if let] or [match] scrutinee lives until the end of the whole
    expression (edition 2021), so a lock taken in one is held across the calls
    inside.  Memory is sequentially consistent.

    This file has the tasks themselves and what it means to run one without
    interference ([run_alone]). *)

From S2P Require Import Prelude.
From S2P Require Import CoreTypes.
From S2P Require Import Transport.
From S2P Require Import Session.
From S2P Require Import Agreement.
From stdpp Require Import strings list.
#[local] Open Scope Z_scope.

(** ** Tasks *)

(** The mutexes of a session. *)
Inductive lock : Type :=
  | LState | LPeer | LFecEnc | LEncryptKey | LDecryptKey | LFecDec.

#[export] Instance lock_eq_dec : EqDecision lock.
Proof. solve_decision. Defined.

Unset Elimination Schemes.
Inductive task (A : Type) : Type :=
  | TRet (o : outcome A)
  | TStep (f : World → World * task A)
  | TLock (l : lock) (t : task A)
  | TUnlock (l : lock) (t : task A).
Set Elimination Schemes.
Arguments TRet {A} o.
Arguments TStep {A} f.
Arguments TLock {A} l t.
Arguments TUnlock {A} l t.

(** The induction principle that sees through the result of a step. *)
Lemma task_tree_ind {A} (P : task A → Prop) :
  (∀ o, P (TRet o)) →
  (∀ f, (∀ w, P (f w).2) → P (TStep f)) →
  (∀ l t, P t → P (TLock l t)) →
  (∀ l t, P t → P (TUnlock l t)) →
  ∀ t, P t.
Proof.
  intros HR HS HL HU. fix IH 1. intros [o|f|l t|l t].
  - apply HR.
  - apply HS. intros w. destruct (f w) as [w' t]. apply IH.
  - apply HL, IH.
  - apply HU, IH.
Qed.

(** Sequencing that sees every outcome. *)
Fixpoint tbind_o {A B} (t : task A) (k : outcome A → task B) : task B :=
  match t with
  | TRet o => k o
  | TStep f => TStep (λ w, let '(w', t) := f w in (w', tbind_o t k))
  | TLock l t => TLock l (tbind_o t k)
  | TUnlock l t => TUnlock l (tbind_o t k)
  end.

#[export] Instance task_ret : MRet task := λ A a, TRet (Done a).
#[export] Instance task_bind : MBind task := λ A B f t,
  tbind_o t (λ o, match o with
                  | Done a => f a
                  | Fail e => TRet (Fail e)
                  | Crash => TRet Crash
                  end).

(** One step that runs [m]. *)
Definition act {A} (m : SM A) : task A :=
  TStep (λ w, let '(w', o) := m w in (w', TRet o)).

Definition load {A} (f : Session → A) : task A := act (s ← get; mret (f s)).
Definition store (f : Session → Session) : task unit := act (modify f).
Definition tthrow {A} (e : TransportError) : task A := TRet (Fail e).

(** The guard of a lock is dropped when its scope ends, also by [?], and
    when a panic unwinds. *)
Definition with_lock {A} (l : lock) (t : task A) : task A :=
  TLock l (tbind_o t (λ o, TUnlock l (TRet o))).

(** [let _ = t] *)
Definition tignore {A} (t : task A) : task unit :=
  tbind_o t (λ o, match o with Crash => TRet Crash | _ => TRet (Done tt) end).

(** A task that nothing interferes with. *)
Fixpoint run_alone {A} (t : task A) : SM A := λ w,
  match t with
  | TRet o => (w, o)
  | TStep f => let '(w', t) := f w in run_alone t w'
  | TLock _ t | TUnlock _ t => run_alone t w
  end.

(** One step of a task. *)
Definition steps_to {A} (t : task A) (w w' : World) (t' : task A) : Prop :=
  match t with TStep f => f w = (w', t') | _ => False end.

(** ** A task alone *)

Lemma run_bind_o {A B} (t : task A) (k : outcome A → task B) w :
  run_alone (tbind_o t k) w = let '(w', o) := run_alone t w in run_alone (k o) w'.
Proof.
  revert w. induction t as [o|f IH|l t IH|l t IH] using task_tree_ind; intros w; simpl; auto.
  specialize (IH w). destruct (f w) as [w' t]. simpl. apply IH.
Qed.

Lemma run_act {A} (m : SM A) w : run_alone (act m) w = m w.
Proof. simpl. by destruct (m w). Qed.

Lemma run_bind {A B} (t : task A) (f : A → task B) w :
  run_alone (t ≫= f) w = (run_alone t ≫= λ a, run_alone (f a)) w.
Proof.
  unfold mbind, task_bind, SM_bind. rewrite run_bind_o. by destruct (run_alone t w) as [? []].
Qed.

Lemma run_act_bind {A B} (m : SM A) (f : A → task B) w :
  run_alone (act m ≫= f) w = (m ≫= λ a, run_alone (f a)) w.
Proof. rewrite run_bind. unfold mbind, SM_bind. by rewrite run_act. Qed.

Lemma run_load_bind {A B} (g : Session → A) (f : A → task B) w :
  run_alone (load g ≫= f) w = run_alone (f (g (w_sess w))) w.
Proof. unfold load. by rewrite run_act_bind. Qed.

Lemma run_with_lock {A} l (t : task A) w : run_alone (with_lock l t) w = run_alone t w.
Proof. simpl. rewrite run_bind_o. by destruct (run_alone t w). Qed.

Lemma run_locked_bind {A B} l (t : task A) (f : A → task B) w :
  run_alone (with_lock l t ≫= f) w = run_alone (t ≫= f) w.
Proof. rewrite !run_bind. unfold mbind, SM_bind. by rewrite run_with_lock. Qed.

Lemma run_tignore {A} (t : task A) w : run_alone (tignore t) w = ignore (run_alone t) w.
Proof. unfold tignore, ignore. rewrite run_bind_o. by destruct (run_alone t w) as [? []]. Qed.

(** The same result and state, or a panic; what state a panic leaves is not
    compared. *)
Definition same_run {A} (x y : World * outcome A) : Prop :=
  x = y ∨ (x.2 = Crash ∧ y.2 = Crash).

#[export] Instance same_run_equivalence A : Equivalence (same_run (A := A)).
Proof.
  split.
  - by left.
  - intros x y [->|[]]; [by left|by right].
  - intros x y z [->|[]] [->|[]]; unfold same_run; auto.
Qed.

(** Session computations with the same effect. *)
#[export] Instance SM_equiv A : Equiv (SM A) := λ m m', ∀ w, same_run (m w) (m' w).
#[export] Instance SM_equivalence A : Equivalence (≡@{SM A}).
Proof.
  split; [by intros ? w|intros ?? E w; symmetry; apply E|].
  intros ??? E E' w. etrans; [apply E|apply E'].
Qed.

Lemma SM_bind_at {A B} (m m' : SM A) (f g : A → SM B) w :
  same_run (m w) (m' w) → (∀ a w', same_run (f a w') (g a w')) →
  same_run ((m ≫= f) w) ((m' ≫= g) w).
Proof.
  intros Hm Hf. unfold mbind, SM_bind. destruct Hm as [->|[E E']].
  - destruct (m' w) as [? []]; [apply Hf|done..].
  - destruct (m w) as [? []], (m' w) as [? []]; try done. by right.
Qed.
#[export] Instance SM_bind_proper A B :
  Proper (pointwise_relation A (≡) ==> (≡) ==> (≡)) (mbind (M := SM) (A := A) (B := B)).
Proof. intros f g Hf m m' Hm w. apply SM_bind_at; [apply Hm|apply Hf]. Qed.
#[export] Instance ignore_proper A : Proper ((≡) ==> (≡)) (ignore (A := A)).
Proof.
  intros m m' Hm w. unfold ignore. destruct (Hm w) as [->|[E E']]; [done|].
  destruct (m w) as [? []], (m' w) as [? []]; try done. by right.
Qed.

Lemma get_bind {B} (k : Session → SM B) w : (get ≫= k) w = k (w_sess w) w.
Proof. done. Qed.

Lemma SM_ret_bind {A B} (a : A) (f : A → SM B) w : (mret a ≫= f) w = f a w.
Proof. done. Qed.

(** A part of a task, and the computation it is when it runs alone. *)
Lemma run_part {A B} (t : task A) (m : SM A) (f : A → task B) (g : A → SM B) w :
  run_alone t ≡ m → (∀ a w', same_run (run_alone (f a) w') (g a w')) →
  same_run (run_alone (t ≫= f) w) ((m ≫= g) w).
Proof. intros Ht Hf. rewrite run_bind. apply SM_bind_at; [apply Ht|apply Hf]. Qed.

(** Computations that may panic. *)
Lemma panic_bind {A B} (r : checked A) (k : A → SM B) w :
  (may_panic r ≫= k) w = match r with Val a => k a w | Panic => (w, Crash) end.
Proof. by destruct r. Qed.
Lemma run_panic_bind {A B} (r : checked A) (k : A → task B) w :
  run_alone (act (may_panic r) ≫= k) w
  = match r with Val a => run_alone (k a) w | Panic => (w, Crash) end.
Proof. by destruct r. Qed.

(** Goals that [run_alone t w] and [m w] are the same run, with [t] and [m] built alike. *)
Ltac run_step :=
  first
    [ done
    | rewrite run_load_bind
    | rewrite run_with_lock
    | rewrite run_locked_bind
    | rewrite get_bind
    | rewrite run_tignore; apply ignore_proper
    | rewrite run_act
    | rewrite run_act_bind; apply SM_bind_proper; [|done]; intros ?
    | rewrite run_bind; apply SM_bind_proper; [intros ?|]
    | match goal with |- _ ≡ _ => intros ? end
    | progress cbv zeta ].
Ltac run_alone := repeat run_step.

