(* ===== verification/JitterTasks.v ===== *)
(** * The jitter buffer as tasks

    [gravital-talk-transport/src/jitter_buffer.rs] shares its ring between
    threads without a lock: the cursor, the flags and the sequence numbers are
    atomics, and each slot keeps its frame in a mutex that is held for one
    access only.  Here [push], [pop], [skip] and [pop_with_deadline] are split
    at these accesses; run alone they are the operations of
    [JitterBuffer.v]. *)

From S2P Require Import Prelude.
From S2P Require Import CoreTypes.
From S2P Require Import JitterBuffer.
From S2P Require Import Transport.
From S2P Require Import Session.
From S2P Require Import Agreement.
From S2P Require Import Task.
From stdpp Require Import strings list.
#[local] Open Scope Z_scope.

(** ** Accesses *)

Definition set_next_seq (next : Z) (jb : JitterBuffer) : JitterBuffer :=
  set_cursor jb next (jb_primed jb).
Definition set_primed (jb : JitterBuffer) : JitterBuffer := set_cursor jb (jb_next_seq jb) true.

Definition set_occupied (b : bool) (sl : Slot) : Slot := mkSlot b (sl_sequence sl) (sl_frame sl).
Definition set_sequence (q : Z) (sl : Slot) : Slot := mkSlot (sl_occupied sl) q (sl_frame sl).
Definition set_frame (f : option Frame) (sl : Slot) : Slot :=
  mkSlot (sl_occupied sl) (sl_sequence sl) f.

Definition slot_of (jb : JitterBuffer) (idx : nat) : Slot :=
  default Slot_empty (jb_slots jb !! idx).
Definition update_slot (idx : nat) (f : Slot → Slot) (jb : JitterBuffer) : JitterBuffer :=
  with_slot jb idx (f (slot_of jb idx)) (jb_next_seq jb).

Definition on_jitter (f : JitterBuffer → JitterBuffer) (s : Session) : Session :=
  set_jitter (f (s_jitter s)) s.

Definition jb_load {A} (f : JitterBuffer → A) : task A := load (λ s, f (s_jitter s)).
Definition jb_store (f : JitterBuffer → JitterBuffer) : task unit := store (on_jitter f).

(** [&self.slots[idx]], which panics out of range. *)
Definition slot_ref (sequence : Z) : task nat :=
  act (s ← get;
       let idx := slot_index (s_jitter s) sequence in
       _ ← may_panic (slot_at (s_jitter s) idx);
       mret idx).

Definition slot_load {A} (idx : nat) (f : Slot → A) : task A := jb_load (λ jb, f (slot_of jb idx)).
Definition slot_store (idx : nat) (f : Slot → Slot) : task unit := jb_store (update_slot idx f).

(** [slot.frame.lock().take()] *)
Definition slot_take (idx : nat) : task (option Frame) :=
  act (s ← get;
       _ ← modify (on_jitter (update_slot idx (set_frame None)));
       mret (sl_frame (slot_of (s_jitter s) idx))).

(** ** The operations *)

(** The first half of [push]: whether the frame is in the window. *)
Definition jb_admit_t (sequence : Z) : task bool :=
  primed ← jb_load jb_primed;
  if negb primed then
    _ ← jb_store (set_next_seq sequence);
    _ ← jb_store set_primed;
    mret true
  else
    next ← jb_load jb_next_seq;
    capacity ← jb_load jb_capacity;
    if 2147483648 <? wrap32 (sequence - next) then mret false
    else if capacity <=? wrap32 (sequence - next) then mret false
    else mret true.

Definition jb_push_t (frame : Frame) : task bool :=
  let sequence := fr_sequence frame in
  admitted ← jb_admit_t sequence;
  if negb admitted then mret false
  else
    idx ← slot_ref sequence;
    occupied ← slot_load idx sl_occupied;
    collides ← (if occupied : bool then
                  existing ← slot_load idx sl_sequence; mret (negb (existing =? sequence))
                else mret false);
    if collides : bool then mret false
    else
      _ ← slot_store idx (set_frame (Some frame));
      _ ← slot_store idx (set_sequence sequence);
      _ ← slot_store idx (set_occupied true);
      mret true.

Definition jb_pop_t : task (option Frame) :=
  primed ← jb_load jb_primed;
  if negb primed then mret None
  else
    next ← jb_load jb_next_seq;
    idx ← slot_ref next;
    occupied ← slot_load idx sl_occupied;
    if negb occupied then mret None
    else
      sequence ← slot_load idx sl_sequence;
      if negb (sequence =? next) then mret None
      else
        frame ← slot_take idx;
        _ ← slot_store idx (set_occupied false);
        _ ← jb_store (set_next_seq (wrap32 (next + 1)));
        mret frame.

(** The loop [for i in i0..i0 + n] of [skip]. *)
Fixpoint jb_skip_loop_t (next i : Z) (n : nat) : task unit :=
  match n with
  | O => mret tt
  | S n =>
      idx ← slot_ref (wrap32 (next + i));
      _ ← slot_store idx (set_occupied false);
      _ ← slot_store idx (set_frame None);
      jb_skip_loop_t next (i + 1) n
  end.

Definition jb_skip_t (count : Z) : task unit :=
  primed ← jb_load jb_primed;
  if negb primed then mret tt
  else
    next ← jb_load jb_next_seq;
    _ ← jb_skip_loop_t next 0 (Z.to_nat count);
    jb_store (set_next_seq (wrap32 (next + count))).

Definition jb_pop_with_deadline_t (now_us deadline_us : Z) : task (option Frame) :=
  frame ← jb_pop_t;
  match frame with
  | Some frame => mret (Some frame)
  | None => if deadline_us <=? now_us then _ ← jb_skip_t 1; mret None else mret None
  end.

(** ** The operations alone *)

(** The operation [f] of the jitter buffer as one computation. *)
Definition jitter_op {A} (f : JitterBuffer → checked (JitterBuffer * A)) : SM A :=
  s ← get;
  r ← may_panic (f (s_jitter s));
  _ ← modify (set_jitter r.1);
  mret r.2.

(** The world [w] with the jitter buffer [jb]. *)
Definition with_jb (w : World) (jb : JitterBuffer) : World :=
  mkWorld (set_jitter jb (w_sess w)) (w_out w) (w_ticks w) (w_recvs w).

Lemma with_jb_id w : with_jb w (s_jitter (w_sess w)) = w.
Proof. by destruct w as [[] ? ? ?]. Qed.

Section run.
Context (w : World) (jb : JitterBuffer).

Lemma run_jb_load {A B} (f : JitterBuffer → A) (k : A → task B) :
  run_alone (jb_load f ≫= k) (with_jb w jb) = run_alone (k (f jb)) (with_jb w jb).
Proof. done. Qed.
Lemma run_jb_store {B} f (k : unit → task B) :
  run_alone (jb_store f ≫= k) (with_jb w jb) = run_alone (k tt) (with_jb w (f jb)).
Proof. done. Qed.
Lemma run_slot_load {A B} idx (f : Slot → A) (k : A → task B) :
  run_alone (slot_load idx f ≫= k) (with_jb w jb)
  = run_alone (k (f (slot_of jb idx))) (with_jb w jb).
Proof. done. Qed.
Lemma run_slot_store {B} idx f (k : unit → task B) :
  run_alone (slot_store idx f ≫= k) (with_jb w jb)
  = run_alone (k tt) (with_jb w (update_slot idx f jb)).
Proof. done. Qed.
Lemma run_slot_take {B} idx (k : option Frame → task B) :
  run_alone (slot_take idx ≫= k) (with_jb w jb)
  = run_alone (k (sl_frame (slot_of jb idx))) (with_jb w (update_slot idx (set_frame None) jb)).
Proof. done. Qed.
Lemma run_slot_ref {B} q (k : nat → task B) :
  run_alone (slot_ref q ≫= k) (with_jb w jb)
  = match slot_at jb (slot_index jb q) with
    | Val _ => run_alone (k (slot_index jb q)) (with_jb w jb)
    | Panic => (with_jb w jb, Crash)
    end.
Proof.
  unfold slot_ref. rewrite run_act_bind. unfold mbind, SM_bind, may_panic. simpl.
  by destruct (slot_at _ _).
Qed.
End run.

(** Several accesses to one slot. *)
Section slots.
Context (jb : JitterBuffer) (idx : nat) (sl : Slot) (Hsl : slot_at jb idx = Val sl).

Lemma slot_of_at : slot_of jb idx = sl.
Proof.
  revert Hsl. unfold slot_at, slot_of. destruct (jb_slots jb !! idx); [by intros [= ->]|done].
Qed.
Lemma slot_of_with sl' n : slot_of (with_slot jb idx sl' n) idx = sl'.
Proof.
  revert Hsl. unfold slot_at, slot_of. destruct (jb_slots jb !! idx) eqn:E; [|done]. intros _.
  simpl. rewrite list_lookup_insert_eq; [done|]. by eapply lookup_lt_Some.
Qed.
Lemma update_with f sl' n : update_slot idx f (with_slot jb idx sl' n) = with_slot jb idx (f sl') n.
Proof.
  unfold update_slot. rewrite slot_of_with. unfold with_slot. simpl. by rewrite list_insert_insert_eq.
Qed.
Lemma update_at f : update_slot idx f jb = with_slot jb idx (f sl) (jb_next_seq jb).
Proof. unfold update_slot. by rewrite slot_of_at. Qed.
End slots.

(** Accesses to one slot keep the types. *)
Lemma slot_typed_of jb idx : jb_typed jb → slot_typed (slot_of jb idx).
Proof.
  intros Hj. unfold slot_of. destruct (jb_slots jb !! idx) as [s|] eqn:E; simpl.
  - eapply Forall_lookup_1; [apply Hj|exact E].
  - split; [simpl; ulia|done].
Qed.
Lemma jb_typed_update idx f jb :
  (∀ sl, slot_typed sl → slot_typed (f sl)) → jb_typed jb → jb_typed (update_slot idx f jb).
Proof.
  intros Hf Hj. apply jb_typed_with; [done|by apply Hf, slot_typed_of|apply Hj].
Qed.

(** What an operation gives on a buffer, as a run. *)
Definition jb_result {A} (w : World) (r : checked (JitterBuffer * A)) : World * outcome A :=
  match r with Val (jb, a) => (with_jb w jb, Done a) | Panic => (w, Crash) end.

Lemma jitter_op_at {A} (t : task A) (f : JitterBuffer → checked (JitterBuffer * A)) :
  (∀ w jb, same_run (run_alone t (with_jb w jb)) (jb_result w (f jb))) →
  run_alone t ≡ jitter_op f.
Proof.
  intros Ht w. rewrite <-(with_jb_id w) at 1. etrans; [apply Ht|].
  unfold jitter_op. rewrite get_bind. destruct (f _) as [[jb a]|]; [done|]. by right.
Qed.

Ltac run_jb :=
  repeat first [ rewrite run_jb_load | rewrite run_jb_store | rewrite run_slot_load
               | rewrite run_slot_store | rewrite run_slot_take ].

Lemma run_jb_pop_at w jb :
  same_run (run_alone jb_pop_t (with_jb w jb)) (jb_result w (JitterBuffer_pop jb)).
Proof.
  unfold jb_pop_t, JitterBuffer_pop. run_jb. destruct (negb (jb_primed jb)); [done|]. run_jb.
  rewrite run_slot_ref. destruct (slot_at _ _) as [sl|] eqn:Hsl; [|by right].
  cbn [mbind checked_bind]. run_jb. rewrite (slot_of_at _ _ _ Hsl).
  destruct (negb (sl_occupied sl)); [done|]. run_jb. rewrite (slot_of_at _ _ _ Hsl).
  destruct (negb (sl_sequence sl =? jb_next_seq jb)); [done|]. run_jb.
  rewrite (update_at _ _ _ Hsl), (update_with _ _ _ Hsl), (slot_of_at _ _ _ Hsl). done.
Qed.
Lemma run_jb_pop : run_alone jb_pop_t ≡ jitter_op JitterBuffer_pop.
Proof. apply jitter_op_at, run_jb_pop_at. Qed.

(** The second half of [push]. *)
Lemma run_jb_push_store w jb frame :
  same_run
    (run_alone
       (idx ← slot_ref (fr_sequence frame);
        occupied ← slot_load idx sl_occupied;
        collides ← (if occupied : bool then
                      existing ← slot_load idx sl_sequence;
                      mret (negb (existing =? fr_sequence frame))
                    else mret false);
        if collides : bool then mret false
        else
          _ ← slot_store idx (set_frame (Some frame));
          _ ← slot_store idx (set_sequence (fr_sequence frame));
          _ ← slot_store idx (set_occupied true);
          mret true) (with_jb w jb))
    (jb_result w (push_store jb frame)).
Proof.
  unfold push_store. rewrite run_slot_ref.
  destruct (slot_at _ _) as [sl|] eqn:Hsl; [|by right]. cbn [mbind checked_bind]. run_jb.
  rewrite (slot_of_at _ _ _ Hsl).
  assert (∀ k : bool → task bool,
    run_alone ((if sl_occupied sl then
                  existing ← slot_load (slot_index jb (fr_sequence frame)) sl_sequence;
                  mret (negb (existing =? fr_sequence frame))
                else mret false) ≫= k) (with_jb w jb)
    = run_alone (k (sl_occupied sl && negb (sl_sequence sl =? fr_sequence frame)))
        (with_jb w jb)) as ->.
  { intros k. destruct (sl_occupied sl); [|done]. rewrite run_bind. unfold mbind at 1, SM_bind at 1.
    rewrite run_slot_load, (slot_of_at _ _ _ Hsl). done. }
  destruct (_ && _); [done|]. run_jb.
  by rewrite (update_at _ _ _ Hsl), !(update_with _ _ _ Hsl).
Qed.

Lemma run_jb_push frame :
  run_alone (jb_push_t frame) ≡ jitter_op (λ jb, JitterBuffer_push jb frame).
Proof.
  apply jitter_op_at. intros w jb. unfold jb_push_t, jb_admit_t, JitterBuffer_push.
  rewrite run_bind. unfold mbind at 1, SM_bind at 1. run_jb.
  destruct (negb (jb_primed jb)).
  - run_jb. cbn [run_alone mret task_ret]. cbn [negb]. apply run_jb_push_store.
  - run_jb. destruct (2147483648 <? _); [done|]. destruct (jb_capacity jb <=? _); [done|].
    apply run_jb_push_store.
Qed.

Lemma run_jb_skip_loop w next n : ∀ jb i,
  same_run (run_alone (jb_skip_loop_t next i n) (with_jb w jb))
    (jb_result w (jb ← skip_loop jb next i n; Val (jb, tt))).
Proof.
  induction n as [|n IH]; intros jb i; [done|]. cbn [jb_skip_loop_t skip_loop].
  rewrite run_slot_ref. destruct (slot_at _ _) as [sl|] eqn:Hsl; [|by right].
  cbn [mbind checked_bind]. run_jb. rewrite (update_at _ _ _ Hsl), (update_with _ _ _ Hsl).
  apply IH.
Qed.

Lemma run_jb_skip count :
  run_alone (jb_skip_t count) ≡ jitter_op (λ jb, jb ← JitterBuffer_skip jb count; Val (jb, tt)).
Proof.
  apply jitter_op_at. intros w jb. unfold jb_skip_t, JitterBuffer_skip. run_jb.
  destruct (negb (jb_primed jb)); [done|]. run_jb. rewrite run_bind.
  pose proof (run_jb_skip_loop w (jb_next_seq jb) (Z.to_nat count) jb 0) as Hl.
  unfold mbind at 1, SM_bind at 1. destruct (skip_loop jb _ _ _) as [jb'|]; cbn in Hl |- *.
  - destruct Hl as [->|[_ Hc]]; [done|done].
  - destruct Hl as [->|[Hc _]]; [by right|].
    destruct (run_alone _ _) as [w' []]; try done. by right.
Qed.

Lemma run_jb_pop_with_deadline now deadline :
  run_alone (jb_pop_with_deadline_t now deadline)
  ≡ jitter_op (λ jb, JitterBuffer_pop_with_deadline jb now deadline).
Proof.
  apply jitter_op_at. intros w jb. unfold jb_pop_with_deadline_t, JitterBuffer_pop_with_deadline.
  rewrite run_bind. pose proof (run_jb_pop_at w jb) as Hp. unfold mbind at 1, SM_bind at 1.
  destruct (JitterBuffer_pop jb) as [[jb' [f|]]|]; cbn [jb_result] in Hp.
  - by destruct Hp as [->|[_ Hc]].
  - destruct Hp as [->|[_ Hc]]; [|done]. cbv beta iota. cbn [checked_bind mbind snd fst].
    destruct (deadline <=? now); [|done]. rewrite run_bind.
    etrans; [apply (SM_bind_at _ _ _ (λ _, mret None) _ (run_jb_skip 1 _)); by intros []|].
    unfold jitter_op. unfold mbind at 1, SM_bind at 1. rewrite get_bind. cbn [s_jitter set_jitter with_jb w_sess].
    destruct (JitterBuffer_skip jb' 1); [done|]. by right.
  - destruct Hp as [->|[Hc _]]; [by right|].
    destruct (run_alone _ _) as [w' []]; try done. by right.
Qed.

(** The operations as a session uses them. *)
Lemma run_push_jitter frame : run_alone (_ ← jb_push_t frame; mret tt) ≡ push_jitter frame.
Proof.
  intros w. etrans; [apply (run_part _ _ _ (λ _, mret tt) _ (run_jb_push frame)); done|].
  unfold jitter_op, push_jitter. rewrite <-SM_bind_assoc, !get_bind, <-SM_bind_assoc.
  by destruct (JitterBuffer_push _ _).
Qed.
Lemma run_pop_part {B} now deadline (f : option Frame → task B) (g : option Frame → SM B) w :
  (∀ o w', same_run (run_alone (f o) w') (g o w')) →
  same_run (run_alone (jb_pop_with_deadline_t now deadline ≫= f) w)
    ((s ← get;
      r ← may_panic (JitterBuffer_pop_with_deadline (s_jitter s) now deadline);
      _ ← modify (set_jitter r.1); g r.2) w).
Proof.
  intros Hf. etrans; [by apply (run_part _ _ _ g _ (run_jb_pop_with_deadline now deadline))|].
  unfold jitter_op. rewrite <-SM_bind_assoc, !get_bind, <-SM_bind_assoc.
  by destruct (JitterBuffer_pop_with_deadline _ _ _).
Qed.
