(* ===== verification/MetricTasks.v ===== *)
(** * The metrics as tasks

    The counters and estimators of [gravital-talk-metrics/src/] are groups of
    atomics that threads update without a lock.  Here the updates a session
    makes ([Counters::record_*], [LossTracker::record],
    [JitterEstimator::record]) are split at their atomic operations; run alone
    they are the functions of [Metrics.v]. *)

From S2P Require Import Prelude.
From S2P Require Import CoreTypes.
From S2P Require Import Metrics.
From S2P Require Import Transport.
From S2P Require Import Session.
From S2P Require Import Agreement.
From S2P Require Import Task.
From stdpp Require Import strings list.
#[local] Open Scope Z_scope.

(** ** Accesses *)

Definition on_counters (f : Counters → Counters) : task unit := act (count f).

Definition on_loss (f : LossTracker → LossTracker) (s : Session) : Session :=
  set_metrics (with_loss (f (m_loss (s_metrics s))) (s_metrics s)) s.
Definition loss_load {A} (f : LossTracker → A) : task A := load (λ s, f (m_loss (s_metrics s))).
Definition loss_store (f : LossTracker → LossTracker) : task unit := store (on_loss f).

Definition on_estimator (f : JitterEstimator → JitterEstimator) (s : Session) : Session :=
  set_metrics (with_jitter (f (m_jitter (s_metrics s))) (s_metrics s)) s.
Definition estimator_load {A} (f : JitterEstimator → A) : task A :=
  load (λ s, f (m_jitter (s_metrics s))).
Definition estimator_store (f : JitterEstimator → JitterEstimator) : task unit :=
  store (on_estimator f).

Definition add_packets_sent (c : Counters) : Counters :=
  mkCounters (wrap64 (packets_sent c + 1)) (packets_received c) (bytes_sent c)
    (bytes_received c) (integrity_errors c).
Definition add_bytes_sent (n : Z) (c : Counters) : Counters :=
  mkCounters (packets_sent c) (packets_received c) (wrap64 (bytes_sent c + n))
    (bytes_received c) (integrity_errors c).
Definition add_packets_received (c : Counters) : Counters :=
  mkCounters (packets_sent c) (wrap64 (packets_received c + 1)) (bytes_sent c)
    (bytes_received c) (integrity_errors c).
Definition add_bytes_received (n : Z) (c : Counters) : Counters :=
  mkCounters (packets_sent c) (packets_received c) (bytes_sent c)
    (wrap64 (bytes_received c + n)) (integrity_errors c).

Definition set_bitmap (b : Z) (l : LossTracker) : LossTracker :=
  mkLossTracker b (lt_high_seq l) (lt_total_packets l) (lt_reorder_count l) (lt_initialised l).
Definition set_high_seq (q : Z) (l : LossTracker) : LossTracker :=
  mkLossTracker (lt_bitmap l) q (lt_total_packets l) (lt_reorder_count l) (lt_initialised l).
Definition set_total (n : Z) (l : LossTracker) : LossTracker :=
  mkLossTracker (lt_bitmap l) (lt_high_seq l) n (lt_reorder_count l) (lt_initialised l).
Definition set_initialised (n : Z) (l : LossTracker) : LossTracker :=
  mkLossTracker (lt_bitmap l) (lt_high_seq l) (lt_total_packets l) (lt_reorder_count l) n.
(** The two [fetch_add]s, which wrap around. *)
Definition add_reorder (l : LossTracker) : LossTracker :=
  mkLossTracker (lt_bitmap l) (lt_high_seq l) (lt_total_packets l)
    (wrap32 (lt_reorder_count l + 1)) (lt_initialised l).
Definition add_total (l : LossTracker) : LossTracker :=
  set_total (wrap32 (lt_total_packets l + 1)) l.

Definition set_jitter_us (j : Z) (e : JitterEstimator) : JitterEstimator :=
  mkJitterEstimator j (je_prev_diff_us e).
Definition set_prev_diff (d : Z) (e : JitterEstimator) : JitterEstimator :=
  mkJitterEstimator (je_jitter_us e) d.

(** ** The operations *)

Definition record_sent_t (bytes : Z) : task unit :=
  _ ← on_counters add_packets_sent; on_counters (add_bytes_sent bytes).
Definition record_received_t (bytes : Z) : task unit :=
  _ ← on_counters add_packets_received; on_counters (add_bytes_received bytes).
Definition record_integrity_error_t : task unit := on_counters Counters_record_integrity_error.

Section records.
Context `{Env}.

(** The newer and the older packet of [LossTracker::record]. *)
Definition loss_newer_t (sequence diff : Z) : task unit :=
  let shift := Z.min diff LOSS_WINDOW_SIZE in
  bm ← loss_load lt_bitmap;
  bm ← act (may_panic (u64_shl env_overflow_checks bm shift));
  _ ← loss_store (set_bitmap (Z.lor bm 1));
  loss_store (set_high_seq sequence).

Definition loss_older_t (diff : Z) : task unit :=
  gap ← act (may_panic (i32_neg env_overflow_checks diff));
  _ ← (if gap <? LOSS_WINDOW_SIZE then
         bm ← loss_load lt_bitmap;
         let bit := Z.shiftl 1 gap in
         if Z.land bm bit =? 0 then loss_store (set_bitmap (Z.lor bm bit)) else mret tt
       else mret tt);
  loss_store add_reorder.

Definition loss_record_t (sequence : Z) : task unit :=
  initialised ← loss_load lt_initialised;
  if initialised =? 0 then
    _ ← loss_store (set_high_seq sequence);
    _ ← loss_store (set_bitmap 1);
    _ ← loss_store (set_total 1);
    loss_store (set_initialised 1)
  else
    high ← loss_load lt_high_seq;
    let diff := as_i32 (wrap32 (sequence - high)) in
    _ ← (if 0 <? diff then loss_newer_t sequence diff
         else if diff <? 0 then loss_older_t diff
         else mret tt);
    loss_store add_total.

Definition jitter_record_t (send_ts_us recv_ts_us : Z) : task unit :=
  current_diff ← act (may_panic (i64_sub env_overflow_checks (as_i64 recv_ts_us)
                                   (as_i64 send_ts_us)));
  prev ← estimator_load je_prev_diff_us;
  if prev =? i64_MIN then estimator_store (set_prev_diff current_diff)
  else
    delta ← act (may_panic (i64_sub env_overflow_checks current_diff prev));
    let d := Z.abs delta in
    j ← estimator_load je_jitter_us;
    let new_j := if j <? d then j + (d - j) / 16 else j - (j - d) / 16 in
    let clamped := Z.min new_j u32_MAX in
    _ ← estimator_store (set_jitter_us clamped);
    estimator_store (set_prev_diff current_diff).

(** ** The operations alone *)

(** The recordings as one computation. *)
Definition record_loss (sequence : Z) : SM unit :=
  s ← get;
  loss ← may_panic (LossTracker_record env_overflow_checks (m_loss (s_metrics s)) sequence);
  modify (λ s, set_metrics (with_loss loss (s_metrics s)) s).
Definition record_jitter (ts now : Z) : SM unit :=
  s ← get;
  jit ← may_panic (JitterEstimator_record env_overflow_checks (m_jitter (s_metrics s)) ts now);
  modify (λ s, set_metrics (with_jitter jit (s_metrics s)) s).

Lemma run_record_sent n :
  run_alone (record_sent_t n) ≡ count (λ c, Counters_record_sent c n).
Proof. done. Qed.
Lemma run_record_received n :
  run_alone (record_received_t n) ≡ count (λ c, Counters_record_received c n).
Proof. done. Qed.
Lemma run_record_integrity_error :
  run_alone record_integrity_error_t ≡ count Counters_record_integrity_error.
Proof. done. Qed.

Lemma run_jitter_record ts now : run_alone (jitter_record_t ts now) ≡ record_jitter ts now.
Proof.
  intros w. unfold jitter_record_t, record_jitter, JitterEstimator_record.
  rewrite get_bind, run_panic_bind, panic_bind.
  destruct (i64_sub _ (as_i64 now) _) as [diff|]; [|by right]. cbv beta iota.
  unfold estimator_load. rewrite run_load_bind. cbn [mbind checked_bind].
  destruct (_ =? i64_MIN); [done|]. rewrite run_panic_bind.
  destruct (i64_sub _ diff _) as [delta|]; [done|by right].
Qed.

Lemma run_loss_record q : run_alone (loss_record_t q) ≡ record_loss q.
Proof.
  intros w. unfold loss_record_t, record_loss, LossTracker_record, loss_load.
  rewrite get_bind, run_load_bind, panic_bind. destruct (_ =? 0); [done|].
  rewrite run_load_bind. cbv zeta. set (diff := as_i32 _). rewrite run_bind.
  destruct (0 <? diff); [|destruct (diff <? 0); [|done]].
  - unfold loss_newer_t, loss_load. cbv zeta. unfold mbind at 1, SM_bind at 1.
    rewrite run_load_bind, run_panic_bind. destruct (u64_shl _ _ _); [done|by right].
  - unfold loss_older_t, loss_load. unfold mbind at 1, SM_bind at 1.
    rewrite run_panic_bind. destruct (i32_neg _ _) as [gap|]; [|by right].
    cbv beta iota. destruct (gap <? LOSS_WINDOW_SIZE) eqn:Hg; [|cbn; by rewrite Hg].
    rewrite run_bind. unfold mbind at 1, SM_bind at 1. rewrite run_load_bind. cbv zeta.
    cbn [mbind checked_bind]. rewrite Hg. destruct (_ =? 0); done.
Qed.

(** The same, followed by the rest of an operation. *)
Lemma run_loss_part {B} q (f : unit → task B) (g : SM B) w :
  (∀ w', same_run (run_alone (f tt) w') (g w')) →
  same_run (run_alone (loss_record_t q ≫= f) w)
    ((s ← get;
      loss ← may_panic (LossTracker_record env_overflow_checks (m_loss (s_metrics s)) q);
      _ ← modify (λ s, set_metrics (with_loss loss (s_metrics s)) s); g) w).
Proof.
  intros Hf. etrans; [apply (run_part _ _ _ (λ _, g) _ (run_loss_record q)); by intros []|].
  unfold record_loss. by rewrite <-SM_bind_assoc, !get_bind, <-SM_bind_assoc.
Qed.
Lemma run_jitter_part {B} ts now (f : unit → task B) (g : SM B) w :
  (∀ w', same_run (run_alone (f tt) w') (g w')) →
  same_run (run_alone (jitter_record_t ts now ≫= f) w)
    ((s ← get;
      jit ← may_panic (JitterEstimator_record env_overflow_checks (m_jitter (s_metrics s)) ts now);
      _ ← modify (λ s, set_metrics (with_jitter jit (s_metrics s)) s); g) w).
Proof.
  intros Hf. etrans; [apply (run_part _ _ _ (λ _, g) _ (run_jitter_record ts now)); by intros []|].
  unfold record_jitter. by rewrite <-SM_bind_assoc, !get_bind, <-SM_bind_assoc.
Qed.
End records.
