(* ===== verification/Tasks.v ===== *)
(** * The session's operations as tasks

    The operations of [gravital-talk-transport/src/session.rs] other than the
    handshakes, as tasks ([Task.v]) over the tasks of the jitter buffer and the
    metrics.  [run_alone] of each is the operation of [Session.v]. *)

From S2P Require Import Prelude.
From S2P Require Import CoreTypes.
From S2P Require Import Header.
From S2P Require Import Packet.
From S2P Require Import Message.
From S2P Require Import SessionFsm.
From S2P Require Import Crypto.
From S2P Require Import Fec.
From S2P Require Import JitterBuffer.
From S2P Require Import Ieee.
From S2P Require Import Metrics.
From S2P Require Import Congestion.
From S2P Require Import Transport.
From S2P Require Import Session.
From S2P Require Import Agreement.
From S2P Require Import Task.
From S2P Require Import JitterTasks.
From S2P Require Import MetricTasks.
From stdpp Require Import strings list.
#[local] Open Scope Z_scope.

(** ** The operations *)

Section tasks.
Context `{Env} `{Aead}.

(** The tail of every sending operation; the encoding touches only local
    data and the constant configuration. *)
Definition transmit_t (header : PacketHeader) (payload : list Z) (peer : SocketAddr) :
    task unit :=
  mtu ← load (λ s, cfg_mtu (s_config s));
  nb ← act (proto (PacketBuilder_encode header payload (replicate mtu 0)));
  sent ← act (send_to (take nb.1 nb.2) peer);
  record_sent_t sent.

Definition send_control_t (msg : MessageType) (session_id : Z) (payload : list Z)
    (peer : SocketAddr) : task unit :=
  seq ← act next_sequence;
  ts ← act micros_since_epoch;
  transmit_t (PacketHeader_new (MessageType_code msg) session_id seq ts) payload peer.

Definition send_fec_parity_t (parity : FecParity) (peer : SocketAddr) (sid : Z) : task unit :=
  let fec_payload :=
    be_bytes 4 (par_seq_base parity) ++ [par_window parity] ++ par_payload parity in
  seq ← act next_sequence;
  ts ← act micros_since_epoch;
  let header := mkPacketHeader 1 Flags_ENCRYPTED (MessageType_code AudioFec) sid seq ts in
  with_lock LEncryptKey (
    key ← load s_encrypt_key;
    match key with
    | Some key =>
        sealed ← act (Session.seal key seq sid header fec_payload);
        transmit_t header sealed peer
    | None => mret tt
    end).

(** [fec_enc.push] *)
Definition fec_enc_push (audio_seq : Z) (payload : list Z) : SM (option FecParity) :=
  s ← get;
  let r := FecEncoder_push (s_fec_enc s) audio_seq payload in
  _ ← modify (set_fec_enc r.1);
  mret r.2.

(** The header and payload that go on the wire. *)
Definition protect (key : option (list Z)) (seq sid : Z) (header : PacketHeader)
    (prefixed : list Z) : SM (PacketHeader * list Z) :=
  match key with
  | Some key =>
      wire_payload ← Session.seal key seq sid header prefixed;
      mret (header, wire_payload)
  | None =>
      mret (mkPacketHeader (ph_version header) Flags_empty (ph_msg_type header)
              (ph_session_id header) (ph_sequence header) (ph_timestamp header), prefixed)
  end.

(** The FEC encoder stays locked while the parity packet is sent. *)
Definition feed_fec_t (audio_seq : Z) (payload : list Z) (peer : SocketAddr) (sid : Z) :
    task unit :=
  with_lock LFecEnc (
    parity ← act (fec_enc_push audio_seq payload);
    match parity with
    | Some parity => tignore (send_fec_parity_t parity peer sid)
    | None => mret tt
    end).

Definition send_audio_t (payload : list Z) : task unit :=
  st ← with_lock LState (load (λ s, sm_state (s_state s)));
  if decide (st ≠ Active) then tthrow (TeInvalidState "not active")
  else
    pr ← with_lock LPeer (load s_peer);
    match pr with
    | None => tthrow (TeInvalidState "no peer")
    | Some peer =>
        audio_seq ← act next_audio_seq;
        seq ← act next_sequence;
        ts ← act micros_since_epoch;
        sid ← load s_session_id;
        let prefixed := be_bytes 4 audio_seq ++ payload in
        let header :=
          mkPacketHeader 1 Flags_ENCRYPTED (MessageType_code AudioFrame) sid seq ts in
        wire ← with_lock LEncryptKey (
          key ← load s_encrypt_key; act (protect key seq sid header prefixed));
        _ ← transmit_t wire.1 wire.2 peer;
        feed_fec_t audio_seq payload peer sid
    end.

Definition ptt_press_t : task unit :=
  _ ← store (set_ptt_active true);
  with_lock LPeer (
    pr ← load s_peer;
    match pr with
    | Some p =>
        sid ← load s_session_id;
        _ ← send_control_t FloorRequest sid (be_bytes 4 sid) p;
        send_control_t ControlResume sid [] p
    | None => mret tt
    end).

Definition ptt_release_t : task unit :=
  _ ← store (set_ptt_active false);
  with_lock LPeer (
    pr ← load s_peer;
    match pr with
    | Some p =>
        sid ← load s_session_id;
        _ ← send_control_t FloorRelease sid (be_bytes 4 sid) p;
        send_control_t ControlPause sid [] p
    | None => mret tt
    end).

(** ** Receiving *)

Definition fec_dec_push_data (audio_seq : Z) (payload : list Z) : SM unit :=
  s ← get;
  fec ← may_panic (FecDecoder_push_data (s_fec_dec s) audio_seq payload);
  modify (set_fec_dec fec.1).

Definition fec_dec_push_parity (parity : FecParity) : SM (option (Z * list Z)) :=
  s ← get;
  let r := FecDecoder_push_parity (s_fec_dec s) parity in
  _ ← modify (set_fec_dec r.1);
  mret r.2.

Definition deliver_audio_t (ts : Z) (plaintext : list Z) : task unit :=
  if decide (length plaintext < 4)%nat then record_integrity_error_t
  else
    let audio_seq := from_be (take 4 plaintext) in
    let audio_payload := drop 4 plaintext in
    _ ← loss_record_t audio_seq;
    now ← act micros_since_epoch;
    _ ← jitter_record_t ts now;
    _ ← with_lock LFecDec (act (fec_dec_push_data audio_seq audio_payload));
    _ ← jb_push_t (mkFrame audio_seq ts audio_payload);
    mret tt.

(** [Some] plaintext, or [None] when the frame was dropped. *)
Definition dispatch_audio_t (view : PacketView) (raw_buf : list Z) : task unit :=
  sid ← load s_session_id;
  let seq := ph_sequence (pv_header view) in
  let ts := ph_timestamp (pv_header view) in
  plaintext ←
    if Flags_contains (ph_flags (pv_header view)) Flags_ENCRYPTED then
      with_lock LDecryptKey (
        key ← load s_decrypt_key;
        match key with
        | Some key =>
            match Session.unseal key seq sid raw_buf (pv_payload view) with
            | Ok plaintext => mret (Some plaintext)
            | Err _ => _ ← record_integrity_error_t; mret None
            end
        | None => _ ← record_integrity_error_t; mret None
        end)
    else mret (Some (pv_payload view));
  match plaintext with
  | Some plaintext => deliver_audio_t ts plaintext
  | None => mret tt
  end.

Definition dispatch_fec_t (view : PacketView) (raw_buf : list Z) : task unit :=
  sid ← load s_session_id;
  let seq := ph_sequence (pv_header view) in
  if Flags_contains (ph_flags (pv_header view)) Flags_ENCRYPTED then
    with_lock LDecryptKey (
      key ← load s_decrypt_key;
      match key with
      | Some key =>
          match Session.unseal key seq sid raw_buf (pv_payload view) with
          | Ok fec_data =>
              if decide (5 ≤ length fec_data)%nat then
                let fec_parity :=
                  mkFecParity (from_be (take 4 fec_data)) (fec_data !!! 4%nat)
                    (drop 5 fec_data) in
                with_lock LFecDec (
                  recovered ← act (fec_dec_push_parity fec_parity);
                  match recovered with
                  | Some r => _ ← jb_push_t (mkFrame r.1 0 r.2); mret tt
                  | None => mret tt
                  end)
              else mret tt
          | Err _ => record_integrity_error_t
          end
      | None => mret tt
      end)
  else mret tt.

Definition set_bitrate (bitrate : Z) : SM unit :=
  s ← get;
  c ← may_panic (CongestionController_set_bitrate (s_congestion s) bitrate);
  modify (set_congestion c).

Definition dispatch_packet_t (view : PacketView) (raw_buf : list Z) : task unit :=
  match MessageType_from_code (ph_msg_type (pv_header view)) with
  | Ok AudioFrame => dispatch_audio_t view raw_buf
  | Ok Heartbeat =>
      with_lock LPeer (
        pr ← load s_peer;
        match pr with
        | Some p => sid ← load s_session_id; send_control_t HeartbeatAck sid [] p
        | None => mret tt
        end)
  | Ok HeartbeatAck => mret tt
  | Ok AudioFec => dispatch_fec_t view raw_buf
  | Ok ControlPause => store (set_peer_ptt_active false)
  | Ok ControlResume => store (set_peer_ptt_active true)
  | Ok FloorRequest =>
      talking ← load s_ptt_active;
      if negb talking then
        with_lock LPeer (
          pr ← load s_peer;
          match pr with
          | Some p =>
              ssrc ← load s_session_id;
              sid ← load s_session_id;
              tignore (send_control_t FloorGrant sid (be_bytes 4 ssrc) p)
          | None => mret tt
          end)
      else mret tt
  | Ok FloorGrant => mret tt
  | Ok FloorDeny => store (set_ptt_active false)
  | Ok FloorRelease => store (set_peer_ptt_active false)
  | Ok FloorTaken => mret tt
  | Ok ControlBitrate =>
      match ControlBitrateMsg_decode (pv_payload view) with
      | Ok msg => act (set_bitrate (cb_requested_bitrate msg))
      | Err _ => mret tt
      end
  | Ok MtClose =>
      _ ← with_lock LState (act (transition PeerClosed));
      tthrow (TePeerClosed "remote close")
  | Ok _ => mret tt
  | Err _ => record_integrity_error_t
  end.

(** ** Polling, liveness and closing *)

Definition send_heartbeat_t : task unit :=
  pr ← with_lock LPeer (load s_peer);
  match pr with
  | Some p => sid ← load s_session_id; send_control_t Heartbeat sid [] p
  | None => mret tt
  end.

(** [congestion.update] reads the bitrate and writes it back in two steps. *)
Definition check_liveness_t : task unit :=
  now ← act micros_since_epoch;
  last ← load s_last_rx;
  if negb (last =? 0) && (HEARTBEAT_TIMEOUT_MS * 1000 <? Z.max 0 (now - last)) then
    _ ← with_lock LState (act (transition PeerTimeout));
    tthrow (TePeerClosed "heartbeat timeout")
  else
    loss ← load (λ s, LossTracker_loss_percent (m_loss (s_metrics s)));
    rtt ← load (λ s, RttEstimator_current_us (m_rtt (s_metrics s)));
    current ← load s_congestion;
    c ← act (may_panic (CongestionController_update current
               (f32_div loss (f32_of_Z 100)) (default 0 rtt)));
    store (set_congestion c).

Definition on_datagram_t (data : list Z) : task unit :=
  _ ← record_received_t (Z.of_nat (length data));
  match PacketView_decode data with
  | Ok view =>
      now ← act micros_since_epoch;
      _ ← store (set_last_rx now);
      dispatch_packet_t view data
  | Err _ => record_integrity_error_t
  end.

Definition poll_once_t : task unit :=
  ev ← act recv;
  match ev with
  | RecvData data _ => on_datagram_t data
  | RecvErr e => tthrow e
  | RecvTimeout =>
      st ← with_lock LState (load (λ s, sm_state (s_state s)));
      match st with
      | Active | Paused => _ ← send_heartbeat_t; check_liveness_t
      | _ => mret tt
      end
  end.

(** The loop of [recv_audio], followed for [fuel] rounds; in the source it has
    no bound. *)
Fixpoint recv_audio_loop_t (fuel : nat) (skip_us deadline_us : Z) : task (option Frame) :=
  match fuel with
  | O => mret None
  | S fuel =>
      now_us ← act micros_since_epoch;
      popped ← jb_pop_with_deadline_t now_us deadline_us;
      match popped with
      | Some frame => mret (Some frame)
      | None =>
          if deadline_us <=? now_us then
            deadline_us ← act (may_panic (u64_add env_overflow_checks now_us skip_us));
            recv_audio_loop_t fuel skip_us deadline_us
          else
            ev ← act recv;
            match ev with
            | RecvData data _ =>
                _ ← on_datagram_t data; recv_audio_loop_t fuel skip_us deadline_us
            | RecvErr e => tthrow e
            | RecvTimeout => recv_audio_loop_t fuel skip_us deadline_us
            end
      end
  end.

Definition recv_audio_t (fuel : nat) : task (option Frame) :=
  skip_us ← load (λ s, cfg_jitter_buffer_ms (s_config s) * 3 * 1000);
  now ← act micros_since_epoch;
  deadline_us ← act (may_panic (u64_add env_overflow_checks now skip_us));
  recv_audio_loop_t fuel skip_us deadline_us.

Definition close_t : task unit :=
  _ ← store (set_closed true);
  _ ← with_lock LEncryptKey (store (set_encrypt_key None));
  _ ← with_lock LDecryptKey (store (set_decrypt_key None));
  pr ← with_lock LPeer (load s_peer);
  _ ← match pr with
      | Some p => sid ← load s_session_id; tignore (send_control_t MtClose sid [] p)
      | None => mret tt
      end;
  with_lock LState (
    _ ← act (transition EvClose);
    _ ← act (transition EvClose);
    mret tt).
End tasks.

Section alone.
Context `{Env} `{Aead}.

Lemma run_transmit h payload peer : run_alone (transmit_t h payload peer) ≡ transmit h payload peer.
Proof. unfold transmit_t, transmit. run_alone. Qed.

Lemma run_send_control msg sid payload peer :
  run_alone (send_control_t msg sid payload peer) ≡ send_control msg sid payload peer.
Proof. unfold send_control_t, send_control. run_alone. apply run_transmit. Qed.

Lemma run_send_fec parity peer sid :
  run_alone (send_fec_parity_t parity peer sid) ≡ send_fec_parity parity peer sid.
Proof.
  unfold send_fec_parity_t, send_fec_parity. run_alone.
  case_match; run_alone. apply run_transmit.
Qed.
(** Protecting and sending a frame, as [send_audio] writes it. *)
Lemma protect_transmit key seq sid ts prefixed peer :
  (wire ← protect key seq sid
     (mkPacketHeader 1 Flags_ENCRYPTED (MessageType_code AudioFrame) sid seq ts) prefixed;
   transmit wire.1 wire.2 peer)
  ≡ match key with
    | Some key =>
        wire_payload ← Session.seal key seq sid
          (mkPacketHeader 1 Flags_ENCRYPTED (MessageType_code AudioFrame) sid seq ts) prefixed;
        transmit (mkPacketHeader 1 Flags_ENCRYPTED (MessageType_code AudioFrame) sid seq ts)
          wire_payload peer
    | None =>
        transmit (mkPacketHeader 1 Flags_empty (MessageType_code AudioFrame) sid seq ts)
          prefixed peer
    end.
Proof. unfold protect. destruct key; [|done]. intros w. by rewrite <-SM_bind_assoc. Qed.

(** The FEC part of [send_audio]. *)
Lemma run_feed_fec audio_seq payload peer sid :
  run_alone (feed_fec_t audio_seq payload peer sid)
  ≡ (s ← get;
     let '(fec, parity) := FecEncoder_push (s_fec_enc s) audio_seq payload in
     _ ← modify (set_fec_enc fec);
     match parity with
     | Some parity => ignore (send_fec_parity parity peer sid)
     | None => mret tt
     end).
Proof.
  intros w. unfold feed_fec_t. rewrite run_with_lock, run_act_bind. unfold fec_enc_push.
  rewrite <-SM_bind_assoc, !get_bind. destruct (FecEncoder_push _ _ _) as [fec parity]. cbn [fst snd].
  rewrite <-SM_bind_assoc. apply SM_bind_proper; [intros _ ?|done]. rewrite SM_ret_bind.
  destruct parity; run_alone. apply run_send_fec.
Qed.

Lemma run_send_audio payload : run_alone (send_audio_t payload) ≡ send_audio payload.
Proof.
  unfold send_audio_t, send_audio. run_alone. case_decide; [done|]. run_alone.
  destruct (s_peer _) as [peer|]; [|done]. do 9 run_step. cbv zeta.
  rewrite run_bind. unfold mbind at 1, SM_bind at 1. rewrite run_load_bind, run_act.
  etrans; [|eapply (SM_bind_proper _ _ _ _ (reflexivity _)), protect_transmit].
  rewrite <-SM_bind_assoc. apply (SM_bind_at _ _ _ _ w2); [done|]. intros wire w3.
  apply run_part; [apply run_transmit|]. intros _. apply run_feed_fec.
Qed.

Lemma run_ptt_press : run_alone ptt_press_t ≡ ptt_press.
Proof.
  unfold ptt_press_t, ptt_press, store. run_alone. case_match; run_alone; apply run_send_control.
Qed.
Lemma run_ptt_release : run_alone ptt_release_t ≡ ptt_release.
Proof.
  unfold ptt_release_t, ptt_release, store. run_alone. case_match; run_alone; apply run_send_control.
Qed.

Lemma run_deliver_audio ts plain : run_alone (deliver_audio_t ts plain) ≡ deliver_audio ts plain.
Proof.
  unfold deliver_audio_t, deliver_audio. case_decide; [done|]. intros w. cbv zeta.
  apply run_loss_part. intros w1. do 2 run_step. apply run_jitter_part. intros w2.
  rewrite run_locked_bind, run_act_bind. unfold fec_dec_push_data.
  rewrite <-SM_bind_assoc, !get_bind, <-SM_bind_assoc.
  do 2 (apply SM_bind_at; [done|intros ? ?]). apply run_push_jitter.
Qed.

Lemma run_dispatch_audio view raw :
  run_alone (dispatch_audio_t view raw) ≡ dispatch_audio view raw.
Proof.
  unfold dispatch_audio_t, dispatch_audio. intros w. rewrite run_load_bind, get_bind. cbv zeta.
  case_match; [|apply run_deliver_audio].
  rewrite run_locked_bind, run_bind. unfold mbind at 1, SM_bind. rewrite run_load_bind.
  destruct (s_decrypt_key _); [|done].
  destruct (Session.unseal _ _ _ _ _); [apply run_deliver_audio|done].
Qed.

Lemma run_dispatch_fec view raw : run_alone (dispatch_fec_t view raw) ≡ dispatch_fec view raw.
Proof.
  unfold dispatch_fec_t, dispatch_fec. intros w. rewrite run_load_bind, get_bind. cbv zeta.
  case_match; [|done]. run_alone. destruct (s_decrypt_key _); [|done].
  destruct (Session.unseal _ _ _ _ _); [|done]. case_decide; [|done].
  rewrite run_with_lock, run_act_bind. unfold fec_dec_push_parity. rewrite <-SM_bind_assoc, get_bind.
  destruct (FecDecoder_push_parity _ _) as [fec [[q payload]|]]; cbn [fst snd]; [|done].
  rewrite <-SM_bind_assoc. apply SM_bind_at; [done|intros _ w1]. apply run_push_jitter.
Qed.

Lemma run_dispatch view raw : run_alone (dispatch_packet_t view raw) ≡ dispatch_packet view raw.
Proof.
  unfold dispatch_packet_t, dispatch_packet, store, set_bitrate. intros w. rewrite get_bind.
  destruct (MessageType_from_code _) as [[]|]; run_alone.
  - apply run_dispatch_audio.
  - apply run_dispatch_fec.
  - case_match; run_alone. apply run_send_control.
  - destruct (ControlBitrateMsg_decode _); [|done]. run_alone.
  - destruct (negb _); [|done]. run_alone. case_match; run_alone. apply run_send_control.
Qed.

Lemma run_send_heartbeat : run_alone send_heartbeat_t ≡ send_heartbeat.
Proof.
  unfold send_heartbeat_t, send_heartbeat. run_alone. case_match; run_alone. apply run_send_control.
Qed.

Lemma run_check_liveness : run_alone check_liveness_t ≡ check_liveness.
Proof.
  unfold check_liveness_t, check_liveness, store. run_alone.
  destruct (negb _ && _); run_alone.
Qed.

Lemma run_on_datagram data : run_alone (on_datagram_t data) ≡ on_datagram data.
Proof.
  unfold on_datagram_t, on_datagram, store. run_alone.
  destruct (PacketView_decode _); run_alone. apply run_dispatch.
Qed.

Lemma run_poll_once : run_alone poll_once_t ≡ poll_once.
Proof.
  unfold poll_once_t, poll_once. run_alone. destruct a; [apply run_on_datagram|done|]. run_alone.
  destruct (sm_state _); try done; rewrite run_bind;
    (apply SM_bind_proper; [intros _; apply run_check_liveness|apply run_send_heartbeat]).
Qed.

Lemma run_recv_audio_loop fuel skip deadline :
  run_alone (recv_audio_loop_t fuel skip deadline) ≡ recv_audio_loop fuel skip deadline.
Proof.
  revert deadline. induction fuel as [|fuel IH]; intros deadline; [done|].
  cbn [recv_audio_loop_t recv_audio_loop]. do 3 run_step.
  apply (run_pop_part _ _ _ (λ o, match o with Some f => mret (Some f) | None => _ end)).
  intros [f|] w1; [done|]. case_match; [run_alone; apply IH|]. run_alone. destruct a0; [|done|apply IH].
  rewrite run_bind. apply SM_bind_proper; [intros _; apply IH|apply run_on_datagram].
Qed.

Lemma run_recv_audio fuel : run_alone (recv_audio_t fuel) ≡ recv_audio fuel.
Proof. unfold recv_audio_t, recv_audio. run_alone. apply run_recv_audio_loop. Qed.

Lemma run_close : run_alone close_t ≡ close.
Proof.
  unfold close_t, close, store. do 11 run_step.
  rewrite get_bind, run_bind. apply SM_bind_at; [|intros; run_alone].
  case_match; run_alone. apply run_send_control.
Qed.

End alone.
