(* ===== verification/HandshakeTasks.v ===== *)
(** * The handshakes as tasks

    The handshakes of [gravital-talk-transport/src/session.rs] split, like the
    other operations in [Tasks.v], at their receives, sends, atomic operations
    and locks: so that a session can be closed while a handshake waits. *)

From S2P Require Import Prelude.
From S2P Require Import CoreTypes.
From S2P Require Import Header.
From S2P Require Import Packet.
From S2P Require Import Message.
From S2P Require Import SessionFsm.
From S2P Require Import Crypto.
From S2P Require Import Transport.
From S2P Require Import Session.
From S2P Require Import Handshake.
From S2P Require Import Agreement.
From S2P Require Import Task.
From S2P Require Import Tasks.
From stdpp Require Import strings list.
#[local] Open Scope Z_scope.

(** [match t.await { Ok(..) => .., Err(..) => .. }] *)
Definition tcatch {A} (t : task A) : task (result TransportError A) :=
  tbind_o t (λ o, match o with
                  | Done a => TRet (Done (Ok a))
                  | Fail e => TRet (Done (Err e))
                  | Crash => TRet Crash
                  end).

Section handshake_tasks.
Context `{Env} `{Kex}.

(** ** Client *)

Fixpoint recv_session_confirm_t (fuel : nat) (peer : SocketAddr) (expected_sid : Z) :
    task (option SessionConfirm) :=
  match fuel with
  | O => mret None
  | S fuel =>
      ev ← act recv;
      match ev with
      | RecvErr e => tthrow e
      | RecvTimeout => recv_session_confirm_t fuel peer expected_sid
      | RecvData data from =>
          if decide (from ≠ peer) then recv_session_confirm_t fuel peer expected_sid
          else
            match PacketView_decode data with
            | Err _ => recv_session_confirm_t fuel peer expected_sid
            | Ok view =>
                if decide (ph_msg_type (pv_header view)
                           ≠ MessageType_code HandshakeSessionConfirm)
                then recv_session_confirm_t fuel peer expected_sid
                else
                  confirm ← act (proto (SessionConfirm_decode (pv_payload view)));
                  if decide (sc_session_id confirm ≠ expected_sid)
                  then tthrow (TeHandshake "session_id mismatch in confirm")
                  else mret (Some confirm)
            end
      end
  end.

(** Storing the keys, one lock after the other. *)
Definition install_keys_t (enc_key dec_key : list Z) : task bool :=
  _ ← with_lock LEncryptKey (store (set_encrypt_key (Some enc_key)));
  _ ← with_lock LDecryptKey (store (set_decrypt_key (Some dec_key)));
  mret true.

Definition client_finish_t (fuel : nat) (r : ClientRandom) (peer : SocketAddr)
    (view : PacketView) : task bool :=
  server_hello ← act (proto (ServerHello_decode (pv_payload view)));
  let neg_ver := sh_protocol_version server_hello in
  if decide (neg_ver < PROTOCOL_VERSION_MIN ∨ PROTOCOL_VERSION_MAX < neg_ver)
  then tthrow (TeHandshake "version negotiation failed: out of range")
  else
    supported ← load (λ s, cfg_supported_codecs (s_config s));
    if decide (sh_codec_accepted server_hello ∉ supported)
    then tthrow (TeHandshake "server selected unsupported codec")
    else
      let shared := kex_shared (cr_secret r) (sh_ephemeral_public_key server_hello) in
      let session_id := sh_session_id server_hello in
      let transcript :=
        build_transcript (cr_nonce r) (sh_server_nonce server_hello) session_id in
      let keys := derive_session_keys shared transcript in
      let client_auth_tag := derive_auth_tag keys.1 client_fin transcript in
      ke_payload ← act (proto (wire_image (mkKeyExchangeMsg session_id client_auth_tag)));
      _ ← send_control_t HandshakeKeyExchange session_id ke_payload peer;
      confirm ← recv_session_confirm_t fuel peer session_id;
      match confirm with
      | None => mret false
      | Some confirm =>
          let expected_server_tag := derive_auth_tag keys.2 server_fin transcript in
          if negb (constant_time_eq (sc_server_auth_tag confirm) expected_server_tag)
          then tthrow (TeAuthenticationFailed "server auth tag mismatch")
          else
            _ ← store (set_session_id session_id);
            _ ← store (set_local_ssrc (Z.lxor session_id (from_be (take 4 keys.1))));
            _ ← store (set_negotiated_codec (sh_codec_accepted server_hello));
            install_keys_t keys.1 keys.2
      end.

Fixpoint handshake_client_loop_t (fuel : nat) (r : ClientRandom) (peer : SocketAddr)
    (hello_payload : list Z) (attempt : Z) : task bool :=
  _ ← send_control_t HandshakeClientHello 0 hello_payload peer;
  match fuel with
  | O => mret false
  | S fuel =>
      let continue_ := handshake_client_loop_t fuel r peer hello_payload
                         (Z.min u32_MAX (attempt + 1)) in
      ev ← act recv;
      match ev with
      | RecvData data from =>
          if decide (from ≠ peer) then continue_
          else
            match PacketView_decode data with
            | Err _ => continue_
            | Ok view =>
                if decide (ph_msg_type (pv_header view)
                           ≠ MessageType_code HandshakeServerHello)
                then continue_
                else client_finish_t fuel r peer view
            end
      | RecvErr _ | RecvTimeout =>
          if 6 <? Z.min u32_MAX (attempt + 1)
          then tthrow (TeHandshake "client retries exhausted")
          else continue_
      end
  end.

Definition handshake_client_t (fuel : nat) (r : ClientRandom) (peer : SocketAddr) : task bool :=
  config ← load s_config;
  hello_payload ← act (proto (wire_image (client_hello_of config r)));
  handshake_client_loop_t fuel r peer hello_payload 0.

(** ** Server *)

Fixpoint wait_client_hello_t (fuel : nat) (peer : SocketAddr) : task (option ClientHello) :=
  match fuel with
  | O => mret None
  | S fuel =>
      ev ← act recv;
      match ev with
      | RecvErr e => tthrow e
      | RecvTimeout => wait_client_hello_t fuel peer
      | RecvData data from =>
          if decide (from ≠ peer) then wait_client_hello_t fuel peer
          else
            match PacketView_decode data with
            | Err _ => wait_client_hello_t fuel peer
            | Ok view =>
                if decide (ph_msg_type (pv_header view)
                           ≠ MessageType_code HandshakeClientHello)
                then wait_client_hello_t fuel peer
                else h ← act (proto (ClientHello_decode (pv_payload view))); mret (Some h)
            end
      end
  end.

Fixpoint wait_client_hello_any_t (fuel : nat) : task (option (ClientHello * SocketAddr)) :=
  closed ← load s_closed;
  if closed : bool then tthrow (TePeerClosed "session closed")
  else
    match fuel with
    | O => mret None
    | S fuel =>
        ev ← act recv;
        match ev with
        | RecvErr e => tthrow e
        | RecvTimeout => wait_client_hello_any_t fuel
        | RecvData data from =>
            match PacketView_decode data with
            | Err _ => wait_client_hello_any_t fuel
            | Ok view =>
                if decide (ph_msg_type (pv_header view)
                           ≠ MessageType_code HandshakeClientHello)
                then wait_client_hello_any_t fuel
                else
                  match ClientHello_decode (pv_payload view) with
                  | Ok h => mret (Some (h, from))
                  | Err _ => wait_client_hello_any_t fuel
                  end
            end
        end
    end.

Fixpoint wait_key_exchange_t (fuel : nat) (peer : SocketAddr) (session_id : Z)
    (sh_payload : list Z) : task (option KeyExchangeMsg) :=
  closed ← load s_closed;
  if closed : bool then tthrow (TePeerClosed "session closed")
  else
    match fuel with
    | O => mret None
    | S fuel =>
        let continue_ := wait_key_exchange_t fuel peer session_id sh_payload in
        ev ← act recv;
        match ev with
        | RecvErr e => tthrow e
        | RecvTimeout => continue_
        | RecvData data from =>
            if decide (from ≠ peer) then continue_
            else
              match PacketView_decode data with
              | Err _ => continue_
              | Ok view =>
                  if decide (ph_msg_type (pv_header view)
                             = MessageType_code HandshakeClientHello)
                  then
                    _ ← send_control_t HandshakeServerHello session_id sh_payload peer;
                    continue_
                  else if decide (ph_msg_type (pv_header view)
                                  ≠ MessageType_code HandshakeKeyExchange)
                  then continue_
                  else m ← act (proto (KeyExchangeMsg_decode (pv_payload view))); mret (Some m)
              end
        end
    end.

Definition choose_codec_t (preferred : Z) (supported : list Z) : task Z :=
  if decide (preferred ∈ supported) then mret preferred
  else match supported with
       | c :: _ => mret c
       | [] => tthrow (TeHandshake "no supported codecs configured")
       end.

Definition server_finish_t (fuel : nat) (r : ServerRandom) (peer : SocketAddr)
    (client_hello : ClientHello) : task bool :=
  let client_ver := ch_protocol_version client_hello in
  if decide (client_ver < PROTOCOL_VERSION_MIN)
  then tthrow (TeHandshake "version negotiation failed: client version too old")
  else
    let negotiated_version := Z.min client_ver PROTOCOL_VERSION_MAX in
    let session_id := sr_session_id r in
    _ ← store (set_session_id session_id);
    config ← load s_config;
    chosen_codec ← choose_codec_t (ch_codec_preferred client_hello) (cfg_supported_codecs config);
    _ ← store (set_negotiated_codec chosen_codec);
    sh_payload ← act (proto (wire_image (server_hello_of config r client_hello
                                           negotiated_version chosen_codec)));
    _ ← send_control_t HandshakeServerHello session_id sh_payload peer;
    let shared := kex_shared (sr_secret r) (ch_ephemeral_public_key client_hello) in
    let transcript := build_transcript (ch_client_nonce client_hello) (sr_nonce r) session_id in
    let keys := derive_session_keys shared transcript in
    ke_msg ← wait_key_exchange_t fuel peer session_id sh_payload;
    match ke_msg with
    | None => mret false
    | Some ke_msg =>
        if decide (ke_session_id ke_msg ≠ session_id)
        then tthrow (TeHandshake "session_id mismatch in KeyExchange")
        else
          let expected_client_tag := derive_auth_tag keys.1 client_fin transcript in
          if negb (constant_time_eq (ke_auth_tag ke_msg) expected_client_tag)
          then tthrow (TeAuthenticationFailed "client auth tag mismatch")
          else
            let server_auth_tag := derive_auth_tag keys.2 server_fin transcript in
            sc_payload ← act (proto (wire_image (mkSessionConfirm session_id server_auth_tag)));
            _ ← send_control_t HandshakeSessionConfirm session_id sc_payload peer;
            install_keys_t keys.2 keys.1
    end.

Definition handshake_server_t (fuel : nat) (r : ServerRandom) (peer : SocketAddr) : task bool :=
  h ← wait_client_hello_t fuel peer;
  match h with
  | None => mret false
  | Some client_hello => server_finish_t fuel r peer client_hello
  end.

Definition handshake_server_any_t (fuel : nat) (r : ServerRandom) : task bool :=
  h ← wait_client_hello_any_t fuel;
  match h with
  | None => mret false
  | Some h =>
      _ ← with_lock LPeer (store (set_peer (Some h.2)));
      server_finish_t fuel r h.2 h.1
  end.

(** ** The public operations *)

Definition transition_t (event : SessionEvent) : task bool :=
  with_lock LState (act (transition event)).
Definition transition_or_t (event : SessionEvent) (why : string) : task unit :=
  with_lock LState (act (transition_or event why)).

Definition handshake_result_t (r : result TransportError bool) : task unit :=
  match r with
  | Ok true => transition_or_t HandshakeOk "handshake_ok"
  | Err e => _ ← transition_t HandshakeTimeout; tthrow e
  | Ok false => _ ← transition_t HandshakeTimeout; tthrow TeTimeout
  end.

Definition handshake_as_client_t (fuel : nat) (r : ClientRandom) (peer : SocketAddr) :
    task unit :=
  _ ← with_lock LPeer (store (set_peer (Some peer)));
  _ ← transition_or_t StartConnect "cannot start handshake";
  res ← tcatch (handshake_client_t fuel r peer);
  handshake_result_t res.

Definition handshake_as_server_t (fuel : nat) (r : ServerRandom) (peer : SocketAddr) :
    task unit :=
  _ ← with_lock LPeer (store (set_peer (Some peer)));
  _ ← transition_or_t StartAccept "cannot start handshake";
  res ← tcatch (handshake_server_t fuel r peer);
  handshake_result_t res.

(** Three transitions under one lock. *)
Definition restart_t : task bool :=
  with_lock LState (
    _ ← act (transition HandshakeTimeout);
    _ ← act (transition Reconnect);
    act (transition StartAccept)).

Fixpoint handshake_open_loop_t (attempts fuel : nat) (rnd : nat → ServerRandom) :
    task (option unit) :=
  match attempts with
  | O => mret None
  | S attempts =>
      closed ← load s_closed;
      if closed : bool then
        _ ← transition_t EvClose; tthrow (TePeerClosed "session closed")
      else
        res ← tcatch (handshake_server_any_t fuel (rnd 0%nat));
        match res with
        | Ok true => _ ← transition_or_t HandshakeOk "handshake_ok"; mret (Some tt)
        | Err (TePeerClosed _) =>
            _ ← transition_t EvClose; tthrow (TePeerClosed "session closed")
        | Err _ | Ok false =>
            _ ← restart_t;
            _ ← with_lock LPeer (store (set_peer None));
            handshake_open_loop_t attempts fuel (λ n, rnd (S n))
        end
  end.

Definition handshake_open_t (attempts fuel : nat) (rnd : nat → ServerRandom) :
    task (option unit) :=
  _ ← transition_or_t StartAccept "cannot start open handshake";
  handshake_open_loop_t attempts fuel rnd.
End handshake_tasks.

(** ** A handshake alone *)

Lemma run_tcatch {A} (t : task A) m : run_alone t ≡ m → run_alone (tcatch t) ≡ catch m.
Proof.
  intros Ht w. unfold tcatch, catch. rewrite run_bind_o. destruct (Ht w) as [->|[E E']].
  - by destruct (m w) as [? []].
  - destruct (run_alone t w) as [? []], (m w) as [? []]; try done. by right.
Qed.

Section alone.
Context `{Env} `{Kex} `{Aead}.

(** Both sides branch on the same data. *)
Ltac run_cases :=
  repeat first [ progress run_alone | apply run_send_control | case_match ]; try done.

Lemma run_recv_session_confirm fuel peer sid :
  run_alone (recv_session_confirm_t fuel peer sid) ≡ recv_session_confirm fuel peer sid.
Proof.
  induction fuel as [|fuel IH]; [done|].
  cbn [recv_session_confirm_t recv_session_confirm]. run_cases; apply IH.
Qed.

Lemma run_install_keys enc_key dec_key :
  run_alone (install_keys_t enc_key dec_key)
  ≡ (_ ← modify (set_encrypt_key (Some enc_key));
     _ ← modify (set_decrypt_key (Some dec_key));
     mret true).
Proof. unfold install_keys_t, store. run_alone. Qed.

Lemma run_client_finish fuel r peer view :
  run_alone (client_finish_t fuel r peer view) ≡ client_finish fuel r peer view.
Proof.
  unfold client_finish_t, client_finish, store. run_alone. case_decide; [done|]. run_alone.
  case_decide; [done|]. destruct (derive_session_keys _ _) as [enc dec]. cbn [fst snd].
  run_alone.
  - case_match; [|done]. case_match; [done|]. run_alone.
  - apply run_recv_session_confirm.
  - apply run_send_control.
Qed.

Lemma run_handshake_client_loop fuel r peer hello attempt :
  run_alone (handshake_client_loop_t fuel r peer hello attempt)
  ≡ handshake_client_loop fuel r peer hello attempt.
Proof.
  revert attempt. induction fuel as [|fuel IH]; intros attempt;
    cbn [handshake_client_loop_t handshake_client_loop];
    run_cases; first [apply IH|apply run_client_finish].
Qed.

Lemma run_handshake_client fuel r peer :
  run_alone (handshake_client_t fuel r peer) ≡ handshake_client fuel r peer.
Proof.
  unfold handshake_client_t, handshake_client. run_alone. apply run_handshake_client_loop.
Qed.

Lemma run_wait_client_hello fuel peer :
  run_alone (wait_client_hello_t fuel peer) ≡ wait_client_hello fuel peer.
Proof.
  induction fuel as [|fuel IH]; [done|].
  cbn [wait_client_hello_t wait_client_hello]. run_cases; apply IH.
Qed.

Lemma run_wait_client_hello_any fuel :
  run_alone (wait_client_hello_any_t fuel) ≡ wait_client_hello_any fuel.
Proof.
  induction fuel as [|fuel IH]; cbn [wait_client_hello_any_t wait_client_hello_any];
    run_cases; apply IH.
Qed.

Lemma run_wait_key_exchange fuel peer sid sh_payload :
  run_alone (wait_key_exchange_t fuel peer sid sh_payload)
  ≡ wait_key_exchange fuel peer sid sh_payload.
Proof.
  induction fuel as [|fuel IH]; cbn [wait_key_exchange_t wait_key_exchange];
    run_cases; apply IH.
Qed.

Lemma run_server_finish fuel r peer ch :
  run_alone (server_finish_t fuel r peer ch) ≡ server_finish fuel r peer ch.
Proof.
  unfold server_finish_t, server_finish, store, choose_codec_t. case_decide; [done|]. run_alone.
  - unfold derive_session_keys. cbn [fst snd].
    case_match; [|done]. case_decide; [done|]. destruct (negb _); [done|]. run_alone.
    apply run_send_control.
  - apply run_wait_key_exchange.
  - apply run_send_control.
  - run_cases.
Qed.

Lemma run_handshake_server fuel r peer :
  run_alone (handshake_server_t fuel r peer) ≡ handshake_server fuel r peer.
Proof.
  unfold handshake_server_t, handshake_server. run_alone; [|apply run_wait_client_hello].
  case_match; [apply run_server_finish|done].
Qed.

Lemma run_handshake_server_any fuel r :
  run_alone (handshake_server_any_t fuel r) ≡ handshake_server_any fuel r.
Proof.
  unfold handshake_server_any_t, handshake_server_any, store.
  run_alone; [|apply run_wait_client_hello_any].
  destruct a as [[ch peer]|]; [|done]. run_alone. apply run_server_finish.
Qed.

Lemma run_handshake_result r : run_alone (handshake_result_t r) ≡ handshake_result r.
Proof.
  unfold handshake_result_t, handshake_result, transition_t, transition_or_t.
  destruct r as [[]|]; run_alone.
Qed.

Lemma run_handshake_as_client fuel r peer :
  run_alone (handshake_as_client_t fuel r peer) ≡ handshake_as_client fuel r peer.
Proof.
  unfold handshake_as_client_t, handshake_as_client, store, transition_or_t. run_alone;
    [apply run_handshake_result|apply run_tcatch, run_handshake_client].
Qed.

Lemma run_handshake_as_server fuel r peer :
  run_alone (handshake_as_server_t fuel r peer) ≡ handshake_as_server fuel r peer.
Proof.
  unfold handshake_as_server_t, handshake_as_server, store, transition_or_t. run_alone;
    [apply run_handshake_result|apply run_tcatch, run_handshake_server].
Qed.

Lemma run_restart {B} (f : bool → task B) (g : bool → SM B) :
  (∀ b, run_alone (f b) ≡ g b) →
  run_alone (restart_t ≫= f)
  ≡ (_ ← transition HandshakeTimeout; _ ← transition Reconnect;
     b ← transition StartAccept; g b).
Proof.
  intros Hf w. etrans; [apply (run_part restart_t
    (_ ← transition HandshakeTimeout; _ ← transition Reconnect; transition StartAccept) _ g)|].
  - unfold restart_t. run_alone.
  - intros b. apply Hf.
  - rewrite <-SM_bind_assoc. apply SM_bind_at; [done|]. intros _ w1. by rewrite <-SM_bind_assoc.
Qed.

Lemma run_handshake_open_loop attempts fuel rnd :
  run_alone (handshake_open_loop_t attempts fuel rnd) ≡ handshake_open_loop attempts fuel rnd.
Proof.
  revert rnd. induction attempts as [|attempts IH]; intros rnd; [done|].
  cbn [handshake_open_loop_t handshake_open_loop]. unfold transition_t, transition_or_t, store.
  run_alone. case_match; run_alone; [|apply run_tcatch, run_handshake_server_any].
  destruct a as [[]|[]]; try (apply run_restart; intros _); run_alone; apply IH.
Qed.

Lemma run_handshake_open attempts fuel rnd :
  run_alone (handshake_open_t attempts fuel rnd) ≡ handshake_open attempts fuel rnd.
Proof.
  unfold handshake_open_t, handshake_open, transition_or_t. run_alone.
  apply run_handshake_open_loop.
Qed.

(** The operations split at their atomic operations and locks are the
    operations: run without interference, the task of each call (the three
    handshakes, sending and receiving audio, polling, push-to-talk, closing)
    has the effects and the result of the operation of the session, and panics
    when it does, for every state, environment, cipher and key exchange.
    (Where both panic the states they leave are not compared.) *)
Theorem tasks_refine_operations :
  (∀ fuel r peer, run_alone (handshake_as_client_t fuel r peer)
                  ≡ handshake_as_client fuel r peer)
  ∧ (∀ fuel r peer, run_alone (handshake_as_server_t fuel r peer)
                    ≡ handshake_as_server fuel r peer)
  ∧ (∀ attempts fuel rnd, run_alone (handshake_open_t attempts fuel rnd)
                          ≡ handshake_open attempts fuel rnd)
  ∧ (∀ payload, run_alone (send_audio_t payload) ≡ send_audio payload)
  ∧ run_alone ptt_press_t ≡ ptt_press
  ∧ run_alone ptt_release_t ≡ ptt_release
  ∧ run_alone poll_once_t ≡ poll_once
  ∧ (∀ fuel, run_alone (recv_audio_t fuel) ≡ recv_audio fuel)
  ∧ run_alone close_t ≡ close.
Proof.
  split; [exact run_handshake_as_client|]. split; [exact run_handshake_as_server|].
  split; [exact run_handshake_open|]. split; [exact run_send_audio|].
  split; [exact run_ptt_press|]. split; [exact run_ptt_release|].
  split; [exact run_poll_once|]. split; [exact run_recv_audio|exact run_close].
Qed.
End alone.
