(* ===== verification/Interleave.v ===== *)
(** * Concurrent use of a session

    The calls on one session, interleaved: a pool of threads runs the tasks of
    [Tasks.v] and [HandshakeTasks.v] one step at a time in any order, new calls
    start at any moment and a task may be dropped at any moment (an aborted
    task, an expired [timeout]), which releases the locks it holds.  A small program logic for
    tasks ([twp]), generic in a ghost state per thread, is instantiated here for
    the order in which locks are taken, which gives progress; for the types of
    the fields in [ConcurrentTypes.v], for the sequence numbers in
    [ConcurrentSeq.v] and for the secrecy of audio in [CloseRace.v]. *)

From Stdlib Require Import Wellfounded.
From S2P Require Import Prelude.
From S2P Require Import CoreTypes.
From S2P Require Import Header.
From S2P Require Import Packet.
From S2P Require Import Message.
From S2P Require Import SessionFsm.
From S2P Require Import Crypto.
From S2P Require Import Fec.
From S2P Require Import JitterBuffer.
From S2P Require Import Ieee.
From S2P Require Import Metrics.
From S2P Require Import Congestion.
From S2P Require Import Transport.
From S2P Require Import Session.
From S2P Require Import SessionSeq.
From S2P Require Import Audio.
From S2P Require Import Handshake.
From S2P Require Import Agreement.
From S2P Require Import SessionTypes.
From S2P Require Import Task.
From S2P Require Import JitterTasks.
From S2P Require Import MetricTasks.
From S2P Require Import Tasks.
From S2P Require Import HandshakeTasks.
From stdpp Require Import strings list relations.
#[local] Open Scope Z_scope.

(** ** Calls and threads *)

(** The calls are those of [scall]; [recv_audio] returns a frame. *)
Definition no_frame {A} (t : task A) : task (option Frame) := _ ← t; mret None.

Definition call_t `{Env} `{Aead} `{Kex} (c : scall) : task (option Frame) :=
  match c with
  | ScConnect fuel r peer => no_frame (handshake_as_client_t fuel r peer)
  | ScAccept fuel r peer => no_frame (handshake_as_server_t fuel r peer)
  | ScOpen attempts fuel rnd => no_frame (handshake_open_t attempts fuel rnd)
  | ScSend payload => no_frame (send_audio_t payload)
  | ScPress => no_frame ptt_press_t
  | ScRelease => no_frame ptt_release_t
  | ScPoll => no_frame poll_once_t
  | ScReceive fuel => recv_audio_t fuel
  | ScCloseCall => no_frame close_t
  end.

(** A thread: the locks it holds and the rest of its task. *)
Definition thread : Type := list lock * task (option Frame).

Record pool : Type := mkPool {
  p_world : World;
  p_threads : list thread;
}.

Definition taken (l : lock) (ts : list thread) : Prop := Exists (λ th, l ∈ th.1) ts.
#[export] Instance taken_dec l ts : Decision (taken l ts).
Proof. unfold taken. apply _. Defined.

(** Thread [i] takes its next step; [None] when it is finished or waits. *)
Definition step_at (i : nat) (p : pool) : option pool :=
  match p_threads p !! i with
  | Some (held, TStep f) =>
      let '(w, t) := f (p_world p) in Some (mkPool w (<[i := (held, t)]> (p_threads p)))
  | Some (held, TLock l t) =>
      if decide (taken l (p_threads p)) then None
      else Some (mkPool (p_world p) (<[i := (l :: held, t)]> (p_threads p)))
  | Some (held, TUnlock l t) =>
      Some (mkPool (p_world p)
              (<[i := (filter (λ l', l' ≠ l) held, t)]> (p_threads p)))
  | _ => None
  end.

(** A schedule: the threads that step, in turn. *)
Fixpoint run_schedule (sched : list nat) (p : pool) : option pool :=
  match sched with
  | [] => Some p
  | i :: sched => p ← step_at i p; run_schedule sched p
  end.

Inductive run_step : pool → pool → Prop :=
  | RunAt i p p' : step_at i p = Some p' → run_step p p'.

Inductive pool_step `{Env} `{Aead} `{Kex} : pool → pool → Prop :=
  | PoolRun p p' : run_step p p' → pool_step p p'
  | PoolSpawn c w ts : scall_typed c →
      pool_step (mkPool w ts) (mkPool w (ts ++ [([], call_t c)]))
  | PoolDrop i w ts : pool_step (mkPool w ts) (mkPool w (delete i ts)).

(** A call that has returned (or panicked). *)
Definition returned (th : thread) : Prop :=
  match th.2 with TRet _ => True | _ => False end.
#[export] Instance returned_dec th : Decision (returned th).
Proof. unfold returned. destruct th.2; apply _. Defined.

(** ** A logic of tasks *)

(** What every step of a task must respect, with a ghost state of the thread:
    what the thread may rely on about the shared state, the effect of a
    step, and the effects of taking and releasing a lock. *)
Record rules (G : Type) : Type := mkRules {
  r_inv : G → World → Prop;
  r_step : G → World → World → G → Prop;
  r_lock : lock → G → G → Prop;
  r_unlock : lock → G → G → Prop;
}.
Arguments mkRules {G} _ _ _ _.
Arguments r_inv {G} _ _ _.
Arguments r_step {G} _ _ _ _ _.
Arguments r_lock {G} _ _ _ _.
Arguments r_unlock {G} _ _ _ _.

Section logic.
Context {G : Type} (R : rules G).

Fixpoint twp {A} (t : task A) (g : G) (Q : outcome A → G → Prop) : Prop :=
  match t with
  | TRet o => Q o g
  | TStep f => ∀ w, r_inv R g w →
      let '(w', t) := f w in ∃ g', r_inv R g' w' ∧ r_step R g w w' g' ∧ twp t g' Q
  | TLock l t => ∃ g', r_lock R l g g' ∧ twp t g' Q
  | TUnlock l t => ∃ g', r_unlock R l g g' ∧ twp t g' Q
  end.

Lemma twp_mono {A} (t : task A) g (Q Q' : outcome A → G → Prop) :
  (∀ o g, Q o g → Q' o g) → twp t g Q → twp t g Q'.
Proof.
  intros HQ. revert g. induction t as [o|f IH|l t IH|l t IH] using task_tree_ind; simpl; intros g.
  - apply HQ.
  - intros Hf w Hw. specialize (Hf w Hw). specialize (IH w). destruct (f w) as [w' t].
    destruct Hf as (g' & ? & ? & ?). eauto.
  - intros (g' & ? & ?). eauto.
  - intros (g' & ? & ?). eauto.
Qed.

Lemma twp_bind_o {A B} (t : task A) (k : outcome A → task B) g Q :
  twp t g (λ o g', twp (k o) g' Q) → twp (tbind_o t k) g Q.
Proof.
  revert g. induction t as [o|f IH|l t IH|l t IH] using task_tree_ind; simpl; intros g; [done|..].
  - intros Hf w Hw. specialize (Hf w Hw). specialize (IH w). destruct (f w) as [w' t].
    destruct Hf as (g' & ? & ? & ?). eauto.
  - intros (g' & ? & ?). eauto.
  - intros (g' & ? & ?). eauto.
Qed.

Lemma twp_bind {A B} (t : task A) (f : A → task B) g Q :
  twp t g (λ o g', match o with
                   | Done a => twp (f a) g' Q
                   | Fail e => Q (Fail e) g'
                   | Crash => Q Crash g'
                   end) →
  twp (t ≫= f) g Q.
Proof. intros Ht. apply twp_bind_o. eapply twp_mono; [|exact Ht]. by intros []. Qed.

Lemma twp_act {A} (m : SM A) g Q :
  (∀ w, r_inv R g w →
   ∃ g', r_inv R g' (m w).1 ∧ r_step R g w (m w).1 g' ∧ Q (m w).2 g') →
  twp (act m) g Q.
Proof. intros Hm w Hw. specialize (Hm w Hw). by destruct (m w). Qed.

Lemma twp_with_lock {A} l (t : task A) g g1 Q :
  r_lock R l g g1 → twp t g1 (λ o g2, ∃ g3, r_unlock R l g2 g3 ∧ Q o g3) →
  twp (with_lock l t) g Q.
Proof. intros Hl Ht. exists g1. split; [done|]. apply twp_bind_o. exact Ht. Qed.

Lemma twp_ignore {A} (t : task A) g Q :
  twp t g (λ o g', Q (match o with Crash => Crash | _ => Done tt end) g') →
  twp (tignore t) g Q.
Proof. intros Ht. apply twp_bind_o. eapply twp_mono; [|exact Ht]. by intros []. Qed.
End logic.

(** ** Locks *)

(** The order in which locks nest: [fec_enc] around [encrypt_key], and
    [decrypt_key] around [fec_dec]; no other lock is held while one is taken. *)
Definition rank (l : lock) : nat :=
  match l with
  | LState => 0
  | LPeer => 1
  | LFecEnc => 2
  | LEncryptKey => 3
  | LDecryptKey => 4
  | LFecDec => 5
  end.

(** The ghost state is the stack of held locks, which ascends. *)
Definition lock_rules : rules (list lock) := mkRules
  (λ _ _, True)
  (λ g _ _ g', g' = g)
  (λ l g g', Forall (λ l', rank l' < rank l)%nat g ∧ g' = l :: g)
  (λ l g g', g = l :: g').

(** [t] takes locks of rank [r] or more in order and releases what it took. *)
Definition balanced {A} (r : nat) (t : task A) : Prop :=
  ∀ g, Forall (λ l, rank l < r)%nat g → twp lock_rules t g (λ _ g', g' = g).

Lemma balanced_out {A} r (o : outcome A) : balanced r (TRet o).
Proof. by intros g _. Qed.
Lemma balanced_ret {A} r (a : A) : balanced r (mret a).
Proof. apply balanced_out. Qed.
Lemma balanced_act {A} r (m : SM A) : balanced r (act m).
Proof. intros g _. apply twp_act. intros w _. by exists g. Qed.

Lemma balanced_bind_o {A B} r (t : task A) (k : outcome A → task B) :
  balanced r t → (∀ o, balanced r (k o)) → balanced r (tbind_o t k).
Proof.
  intros Ht Hk g Hg. apply twp_bind_o. eapply twp_mono; [|by apply Ht].
  intros o g' ->. by apply Hk.
Qed.
Lemma balanced_bind {A B} r (t : task A) (f : A → task B) :
  balanced r t → (∀ a, balanced r (f a)) → balanced r (t ≫= f).
Proof. intros Ht Hf. apply balanced_bind_o; [done|]. intros []; auto using balanced_out. Qed.
Lemma balanced_ignore {A} r (t : task A) : balanced r t → balanced r (tignore t).
Proof. intros Ht. apply balanced_bind_o; [done|]. intros []; apply balanced_out. Qed.

Lemma balanced_lock {A} r l (t : task A) :
  (r ≤ rank l)%nat → balanced (S (rank l)) t → balanced r (with_lock l t).
Proof.
  intros Hr Ht g Hg. assert (Forall (λ l', rank l' < rank l)%nat g) as Hlt.
  { eapply Forall_impl; [exact Hg|]. simpl. intros. lia. }
  eapply twp_with_lock; [done|]. eapply twp_mono; [|apply Ht].
  - intros o g' ->. by exists g.
  - constructor; [lia|]. eapply Forall_impl; [exact Hlt|]. simpl. intros. lia.
Qed.

#[export] Hint Resolve balanced_out balanced_ret balanced_act : gs.

(** Follows the structure of a task. *)
Ltac balanced :=
  repeat first
    [ progress intros
    | solve [auto with gs]
    | apply balanced_act
    | apply balanced_ignore
    | apply balanced_lock; [simpl in *; lia|]
    | progress cbv zeta
    | match goal with
      | |- balanced _ (_ ≫= _) => apply balanced_bind
      | |- balanced _ (match ?x with _ => _ end) => destruct x
      | |- balanced _ (if ?b then _ else _) => destruct b
      end ].

Section balanced_ops.
Context `{Env} `{Aead}.

Lemma balanced_record_sent r n : balanced r (record_sent_t n).
Proof. unfold record_sent_t, on_counters. balanced. Qed.
Lemma balanced_record_received r n : balanced r (record_received_t n).
Proof. unfold record_received_t, on_counters. balanced. Qed.
Lemma balanced_integrity_error r : balanced r record_integrity_error_t.
Proof. apply balanced_act. Qed.
Lemma balanced_loss_record r q : balanced r (loss_record_t q).
Proof.
  unfold loss_record_t, loss_newer_t, loss_older_t, loss_load, loss_store, load, store. balanced.
Qed.
Lemma balanced_jitter_record r ts now : balanced r (jitter_record_t ts now).
Proof. unfold jitter_record_t, estimator_load, estimator_store, load, store. balanced. Qed.
Lemma balanced_push r frame : balanced r (jb_push_t frame).
Proof.
  unfold jb_push_t, jb_admit_t, slot_ref, slot_load, slot_store, jb_load, jb_store, load, store.
  balanced.
Qed.
Lemma balanced_skip_loop r next n : ∀ i, balanced r (jb_skip_loop_t next i n).
Proof.
  induction n; intros i; cbn [jb_skip_loop_t]; unfold slot_ref, slot_store, jb_store, store; balanced.
Qed.
Lemma balanced_pop r now deadline : balanced r (jb_pop_with_deadline_t now deadline).
Proof.
  unfold jb_pop_with_deadline_t, jb_pop_t, jb_skip_t, slot_ref, slot_load, slot_store, slot_take,
    jb_load, jb_store, load, store.
  balanced; apply balanced_skip_loop.
Qed.
#[local] Hint Resolve balanced_record_sent : gs.

Lemma balanced_transmit r h payload peer : balanced r (transmit_t h payload peer).
Proof. unfold transmit_t, load. balanced. Qed.
Lemma balanced_send_control r msg sid payload peer :
  balanced r (send_control_t msg sid payload peer).
Proof. unfold send_control_t. balanced. apply balanced_transmit. Qed.
Lemma balanced_send_fec r parity peer sid :
  (r ≤ rank LEncryptKey)%nat → balanced r (send_fec_parity_t parity peer sid).
Proof.
  intros Hr. unfold send_fec_parity_t, load. balanced. apply balanced_transmit.
Qed.
End balanced_ops.

#[export] Hint Resolve balanced_transmit balanced_send_control balanced_record_sent
  balanced_record_received balanced_integrity_error balanced_loss_record balanced_jitter_record
  balanced_push balanced_pop : gs.
#[export] Hint Extern 2 (balanced _ (send_fec_parity_t _ _ _)) =>
  apply balanced_send_fec; simpl; lia : gs.

Section balanced_calls.
Context `{Env} `{Aead} `{Kex}.

Lemma balanced_dispatch view raw : balanced 0 (dispatch_packet_t view raw).
Proof.
  unfold dispatch_packet_t, dispatch_audio_t, deliver_audio_t, dispatch_fec_t, load, store, tthrow.
  balanced.
Qed.
Lemma balanced_on_datagram data : balanced 0 (on_datagram_t data).
Proof. unfold on_datagram_t, store. balanced. apply balanced_dispatch. Qed.
Lemma balanced_recv_loop fuel skip deadline : balanced 0 (recv_audio_loop_t fuel skip deadline).
Proof.
  revert deadline. induction fuel; intros deadline; cbn [recv_audio_loop_t]; unfold tthrow; balanced.
  apply balanced_on_datagram.
Qed.

Lemma balanced_catch {A} r (t : task A) : balanced r t → balanced r (tcatch t).
Proof. intros Ht. apply balanced_bind_o; [done|]. intros []; apply balanced_out. Qed.

Lemma balanced_recv_session_confirm fuel peer sid :
  balanced 0 (recv_session_confirm_t fuel peer sid).
Proof. induction fuel; cbn [recv_session_confirm_t]; unfold tthrow; balanced. Qed.
Lemma balanced_handshake_client fuel r peer : balanced 0 (handshake_client_t fuel r peer).
Proof.
  unfold handshake_client_t, load. balanced. generalize 0 as attempt.
  induction fuel as [|fuel IH]; intros attempt; cbn [handshake_client_loop_t];
    unfold client_finish_t, install_keys_t, load, store, tthrow; balanced.
  apply balanced_recv_session_confirm.
Qed.
Lemma balanced_wait_client_hello fuel peer : balanced 0 (wait_client_hello_t fuel peer).
Proof. induction fuel; cbn [wait_client_hello_t]; unfold tthrow; balanced. Qed.
Lemma balanced_wait_client_hello_any fuel : balanced 0 (wait_client_hello_any_t fuel).
Proof. induction fuel; cbn [wait_client_hello_any_t]; unfold load, tthrow; balanced. Qed.
Lemma balanced_wait_key_exchange fuel peer sid payload :
  balanced 0 (wait_key_exchange_t fuel peer sid payload).
Proof. induction fuel; cbn [wait_key_exchange_t]; unfold load, tthrow; balanced. Qed.
Lemma balanced_server_finish fuel r peer h : balanced 0 (server_finish_t fuel r peer h).
Proof.
  unfold server_finish_t, choose_codec_t, install_keys_t, load, store, tthrow. balanced.
  apply balanced_wait_key_exchange.
Qed.
Lemma balanced_open_loop attempts fuel : ∀ rnd, balanced 0 (handshake_open_loop_t attempts fuel rnd).
Proof.
  induction attempts as [|attempts IH]; intros rnd; cbn [handshake_open_loop_t]; [balanced|].
  apply balanced_bind; [unfold load; balanced|]. intros [].
  - unfold transition_t, tthrow. balanced.
  - apply balanced_bind.
    + apply balanced_catch. unfold handshake_server_any_t, store. balanced;
        auto using balanced_wait_client_hello_any, balanced_server_finish.
    + unfold transition_t, transition_or_t, restart_t, store, tthrow. balanced.
Qed.

Lemma balanced_call c : balanced 0 (call_t c).
Proof.
  destruct c; cbn [call_t]; unfold no_frame.
  - unfold handshake_as_client_t, transition_or_t, handshake_result_t, transition_t, store, tthrow.
    balanced. apply balanced_catch, balanced_handshake_client.
  - unfold handshake_as_server_t, transition_or_t, handshake_result_t, transition_t, store, tthrow.
    balanced. apply balanced_catch. unfold handshake_server_t.
    balanced; auto using balanced_wait_client_hello, balanced_server_finish.
  - unfold handshake_open_t, transition_or_t. balanced. apply balanced_open_loop.
  - unfold send_audio_t, feed_fec_t, load, tthrow. balanced.
  - unfold recv_audio_t, load. balanced. apply balanced_recv_loop.
  - unfold poll_once_t, send_heartbeat_t, check_liveness_t, load, store, tthrow. balanced.
    apply balanced_on_datagram.
  - unfold ptt_press_t, load, store. balanced.
  - unfold ptt_release_t, load, store. balanced.
  - unfold close_t, load, store. balanced.
Qed.
End balanced_calls.

(** ** Progress and termination *)

Definition locks_ok (th : thread) : Prop :=
  NoDup th.1 ∧ twp lock_rules th.2 th.1 (λ _ g, g = []).

Lemma step_at_inv i p p' :
  step_at i p = Some p' →
  ∃ held t, p_threads p !! i = Some (held, t)
    ∧ match t with
      | TRet _ => False
      | TStep f => p' = mkPool (f (p_world p)).1 (<[i := (held, (f (p_world p)).2)]> (p_threads p))
      | TLock l t => ¬ taken l (p_threads p)
          ∧ p' = mkPool (p_world p) (<[i := (l :: held, t)]> (p_threads p))
      | TUnlock l t =>
          p' = mkPool (p_world p) (<[i := (filter (λ l', l' ≠ l) held, t)]> (p_threads p))
      end.
Proof.
  unfold step_at. destruct (p_threads p !! i) as [[held [o|f|l t|l t]]|]; [done|..|done].
  - intros E. exists held, (TStep f). split; [done|]. destruct (f (p_world p)). by injection E as <-.
  - case_decide; [done|]. intros [= <-]. by exists held, (TLock l t).
  - intros [= <-]. by exists held, (TUnlock l t).
Qed.

Lemma filter_head (l : lock) g : l ∉ g → filter (λ l', l' ≠ l) (l :: g) = g.
Proof.
  intros Hl. rewrite filter_cons_False by auto. induction g as [|l' g IH]; [done|].
  apply not_elem_of_cons in Hl as [? ?]. rewrite filter_cons_True by auto. by rewrite IH.
Qed.

Lemma locks_ok_step p p' :
  run_step p p' → Forall locks_ok (p_threads p) → Forall locks_ok (p_threads p').
Proof.
  intros [i q q' Hs] Hok. destruct (step_at_inv _ _ _ Hs) as (held & t & Hi & Ht).
  pose proof (Forall_lookup_1 _ _ _ _ Hok Hi) as [Hnd Hwp]. simpl in Hnd, Hwp.
  destruct t as [o|f|l t|l t]; [done|..].
  - subst q'. apply Forall_insert; [done|]. split; [done|]. specialize (Hwp (p_world q) I).
    destruct (f (p_world q)) as [w t]. by destruct Hwp as (g' & _ & -> & Hwp).
  - destruct Ht as [_ ->]. apply Forall_insert; [done|]. destruct Hwp as (g' & [Hlt ->] & Hwp).
    split; [|done]. constructor; [|done]. intros Hin.
    pose proof (proj1 (Forall_forall _ _) Hlt l Hin) as Hr. simpl in Hr. lia.
  - subst q'. apply Forall_insert; [done|]. destruct Hwp as (g' & -> & Hwp).
    apply NoDup_cons in Hnd as [Hl Hnd].
    by rewrite filter_head.
Qed.

Lemma locks_ok_pool `{Env} `{Aead} `{Kex} p p' :
  pool_step p p' → Forall locks_ok (p_threads p) → Forall locks_ok (p_threads p').
Proof.
  intros [q q' Hr|c w ts Hc|i w ts]; simpl; intros Hok.
  - by eapply locks_ok_step.
  - apply Forall_app. split; [done|]. constructor; [|done]. split; [constructor|].
    by apply balanced_call.
  - by apply Forall_delete.
Qed.

(** A thread that is neither finished nor waiting can step. *)
Lemma enabled p i held t :
  p_threads p !! i = Some (held, t) →
  match t with
  | TRet _ => False
  | TLock l _ => ¬ taken l (p_threads p)
  | _ => True
  end →
  ∃ p', run_step p p'.
Proof.
  intros Hi Ht. assert (is_Some (step_at i p)) as [p' Hp].
  { unfold step_at. rewrite Hi. destruct t as [o|f|l t|l t]; [done|..].
    - destruct (f (p_world p)). by eexists.
    - rewrite decide_False by done. by eexists.
    - by eexists. }
  exists p'. by apply (RunAt i).
Qed.

(** A thread that waits for a lock waits for a holder of the lock, which can
    step or waits for a lock of higher rank. *)
Lemma waiting_progress n p i held l (t : task (option Frame)) :
  (5 - rank l < n)%nat → Forall locks_ok (p_threads p) →
  p_threads p !! i = Some (held, TLock l t) → ∃ p', run_step p p'.
Proof.
  revert i held l t. induction n as [|n IH]; intros i held l t Hn Hok Hi; [lia|].
  destruct (decide (taken l (p_threads p))) as [Htk|Hfree].
  - apply Exists_exists in Htk as ([held' t'] & Hin & Hl).
    apply list_elem_of_lookup in Hin as [j Hj].
    pose proof (Forall_lookup_1 _ _ _ _ Hok Hj) as [_ Hwp]. simpl in Hl, Hwp.
    destruct t' as [o|f|l' t'|l' t'].
    + simpl in Hwp. subst held'. by apply elem_of_nil in Hl.
    + by apply (enabled p j _ _ Hj).
    + destruct Hwp as (g' & [Hlt ->] & _). pose proof (proj1 (Forall_forall _ _) Hlt l Hl) as Hr.
      simpl in Hr. assert (rank l' ≤ 5)%nat by (destruct l'; simpl; lia).
      apply (IH j held' l' t'); [lia|done|done].
    + by apply (enabled p j _ _ Hj).
  - by apply (enabled p i _ _ Hi).
Qed.

Lemma pool_progress p :
  Forall locks_ok (p_threads p) → Forall returned (p_threads p) ∨ ∃ p', run_step p p'.
Proof.
  intros Hok. destruct (decide (Forall returned (p_threads p))) as [Hall|Hnot]; [by left|].
  right. apply not_Forall_Exists in Hnot; [|apply _].
  apply Exists_exists in Hnot as ([held t] & Hin & Ht).
  apply list_elem_of_lookup in Hin as [i Hi]. destruct t as [o|f|l t|l t]; [by destruct Ht|..].
  - by apply (enabled p i _ _ Hi).
  - apply (waiting_progress (S (5 - rank l)) p i held l t); [lia|done|done].
  - by apply (enabled p i _ _ Hi).
Qed.

(** Steps descend in the tree of one task. *)
Inductive subtask {A} : task A → task A → Prop :=
  | SubStep f w : subtask (f w).2 (TStep f)
  | SubLock l t : subtask t (TLock l t)
  | SubUnlock l t : subtask t (TUnlock l t).

Lemma subtask_wf {A} : well_founded (subtask (A := A)).
Proof.
  intros t. induction t as [o|f IH|l t IH|l t IH] using task_tree_ind; constructor; intros t' Ht;
    inversion Ht; subst; auto.
Qed.

(** C15: concurrent calls never deadlock: whatever calls are started on a
    session and dropped, and in whatever order their steps are interleaved, in
    every state that is reached either all calls have returned or one of the
    threads can take a step; and a call that has returned holds no lock.  The
    loops of the handshakes and of [recv_audio], which in the source can run
    for ever, are followed for any number of rounds, so this says nothing
    about whether a call returns. *)
Theorem calls_never_deadlock `{Env} `{Aead} `{Kex} w p :
  rtc pool_step (mkPool w []) p →
  (Forall returned (p_threads p) ∨ ∃ p', run_step p p')
  ∧ Forall (λ th, returned th → th.1 = []) (p_threads p).
Proof.
  intros Hp. assert (Forall locks_ok (p_threads p)) as Hok.
  { remember (mkPool w []) as p0 eqn:E. assert (Forall locks_ok (p_threads p0)) as H0'.
    { by rewrite E. }
    clear E. induction Hp; [done|]. eauto using locks_ok_pool. }
  split; [by apply pool_progress|]. eapply Forall_impl; [exact Hok|].
  by intros [held []] [_ Hl] Hr.
Qed.

(** ** Schedules *)

Section schedules.
Context `{Env} `{Aead} `{Kex}.

Lemma run_schedule_steps sched p p' : run_schedule sched p = Some p' → rtc pool_step p p'.
Proof.
  revert p. induction sched as [|i sched IH]; intros p; simpl; [by intros [= ->]|].
  intros (q & Hq & Hp)%bind_Some. eapply rtc_l; [|by apply IH]. by eapply PoolRun, RunAt.
Qed.

Lemma run_schedule_nsteps sched p p' :
  run_schedule sched p = Some p' → nsteps pool_step (length sched) p p'.
Proof.
  revert p. induction sched as [|i sched IH]; intros p; simpl; [intros [= ->]; constructor|].
  intros (q & Hq & Hp)%bind_Some. eapply nsteps_l; [|by apply IH]. by eapply PoolRun, RunAt.
Qed.

Lemma spawn_two c c' w :
  scall_typed c → scall_typed c' →
  rtc pool_step (mkPool w []) (mkPool w [([], call_t c); ([], call_t c')]).
Proof.
  intros Hc Hc'. pose proof (PoolSpawn c w [] Hc) as S1.
  pose proof (PoolSpawn c' w [([], call_t c)] Hc') as S2.
  cbn [app] in S1, S2. exact (rtc_l _ _ _ _ S1 (rtc_once _ _ S2)).
Qed.

(** The steps of [spawn_two] followed by a schedule. *)
Lemma spawn_schedule c c' w sched p :
  scall_typed c → scall_typed c' →
  run_schedule sched (mkPool w [([], call_t c); ([], call_t c')]) = Some p →
  nsteps pool_step (S (S (length sched))) (mkPool w []) p.
Proof.
  intros Hc Hc' Hs. pose proof (PoolSpawn c w [] Hc) as S1.
  pose proof (PoolSpawn c' w [([], call_t c)] Hc') as S2. cbn [app] in S1, S2.
  exact (nsteps_l _ _ _ _ _ S1 (nsteps_l _ _ _ _ _ S2 (run_schedule_nsteps _ _ _ Hs))).
Qed.
End schedules.

(** The first sample session: active, with keys. *)
Definition keyed_world : World :=
  mkWorld (sample_session (replicate 32 1) (replicate 32 2)) [] 0 0.

(** Two senders: the second takes its numbers last and sends first. *)
Definition two_senders : list nat :=
  replicate 10 0%nat ++ replicate 22 1%nat ++ replicate 12 0%nat.

(** What the pool of a run is like, as a boolean. *)
Definition check_run (r : option pool) (f : pool → bool) : bool :=
  match r with Some p => f p | None => false end.

Lemma check_run_Some r f : check_run r f = true → ∃ p, r = Some p ∧ f p = true.
Proof. destruct r; [eauto|done]. Qed.

Lemma two_senders_run :
  ∃ p, nsteps (pool_step (H := quiet_env) (H0 := toy_aead)) 46 (mkPool keyed_world []) p
    ∧ length (w_out (p_world p)) = 2%nat ∧ length (p_threads p) = 2%nat
    ∧ s_closed (w_sess (p_world p)) = false.
Proof.
  edestruct (check_run_Some
    (run_schedule two_senders
      (mkPool keyed_world [([], call_t (H := quiet_env) (H0 := toy_aead) (ScSend [5; 6; 7]));
                           ([], call_t (H := quiet_env) (H0 := toy_aead) (ScSend [8; 9]))]))
    (λ p, Nat.eqb (length (w_out (p_world p))) 2 && Nat.eqb (length (p_threads p)) 2
          && negb (s_closed (w_sess (p_world p)))))
    as (p & Hp & Hf); [vm_compute; reflexivity|].
  apply andb_true_iff in Hf as [[Ho%Nat.eqb_eq Ht%Nat.eqb_eq]%andb_true_iff Hc%negb_true_iff].
  exists p. split; [|exact (conj Ho (conj Ht Hc))].
  exact (spawn_schedule (H := quiet_env) (H0 := toy_aead) (ScSend [5; 6; 7]) (ScSend [8; 9])
           keyed_world two_senders p I I Hp).
Qed.

(** A client that is closed while it waits for the server's answers: the
    handshake goes on, and installs its keys after [close] has cleared them. *)
Definition connect_close : list nat :=
  replicate 14 0%nat ++ replicate 22 1%nat ++ replicate 26 0%nat.

Lemma connect_close_run :
  ∃ p, rtc (pool_step (H := client_env) (H0 := toy_aead)) (mkPool idle_world []) p
    ∧ Forall returned (p_threads p) ∧ length (p_threads p) = 2%nat
    ∧ sm_state (s_state (w_sess (p_world p))) = Closed
    ∧ s_encrypt_key (w_sess (p_world p)) = Some sample_keys.1.
Proof.
  edestruct (check_run_Some
    (run_schedule connect_close
      (mkPool idle_world
         [([], call_t (H := client_env) (H0 := toy_aead) (ScConnect 2 sample_rc server_addr));
          ([], call_t (H := client_env) (H0 := toy_aead) ScCloseCall)]))
    (λ p, bool_decide (Forall returned (p_threads p)) && Nat.eqb (length (p_threads p)) 2
          && bool_decide (sm_state (s_state (w_sess (p_world p))) = Closed)
          && bool_decide (s_encrypt_key (w_sess (p_world p)) = Some sample_keys.1)))
    as (p & Hp & Hf); [vm_compute; reflexivity|].
  apply andb_true_iff in Hf as [Hf Hk%bool_decide_eq_true].
  apply andb_true_iff in Hf as [Hf Hs%bool_decide_eq_true].
  apply andb_true_iff in Hf as [Hr%bool_decide_eq_true Hl%Nat.eqb_eq].
  exists p. split; [|exact (conj Hr (conj Hl (conj Hs Hk)))].
  exact (rtc_nsteps_2 _ _ _ (spawn_schedule (H := client_env) (H0 := toy_aead)
    (ScConnect 2 sample_rc server_addr) ScCloseCall idle_world connect_close p I I Hp)).
Qed.

(** Two senders, each before its first step. *)
Lemma calls_never_deadlock_witness :
  ∃ p p', length (p_threads p) = 2%nat ∧ run_step p p'.
Proof.
  pose proof (spawn_two (H := quiet_env) (H0 := toy_aead) (ScSend [1; 2; 3]) (ScSend [4])
    keyed_world I I) as Hp.
  destruct (calls_never_deadlock (H := quiet_env) (H0 := toy_aead) keyed_world _ Hp)
    as [[Hret|[p' Hstep]] _].
  - apply Forall_cons_1 in Hret as [Hret _]. exact (False_ind _ Hret).
  - eexists _, p'. split; [|exact Hstep]. reflexivity.
Defined.

