(* ===== verification/ConcurrentTypes.v ===== *)
(** * Types and panics under concurrency

    Every interleaving of calls on a session ([Interleave.v]) keeps the types
    of its fields and the invariants of its parts ([SessionTypes.v]), and
    panics only with overflow checks. *)

From S2P Require Import Prelude.
From S2P Require Import CoreTypes.
From S2P Require Import Header.
From S2P Require Import Packet.
From S2P Require Import Message.
From S2P Require Import SessionFsm.
From S2P Require Import Crypto.
From S2P Require Import Fec.
From S2P Require Import JitterBuffer.
From S2P Require Import Ieee.
From S2P Require Import Metrics.
From S2P Require Import Congestion.
From S2P Require Import Transport.
From S2P Require Import Session.
From S2P Require Import SessionSeq.
From S2P Require Import Audio.
From S2P Require Import Handshake.
From S2P Require Import Agreement.
From S2P Require Import SessionTypes.
From S2P Require Import Task.
From S2P Require Import JitterTasks.
From S2P Require Import MetricTasks.
From S2P Require Import Tasks.
From S2P Require Import HandshakeTasks.
From S2P Require Import Interleave.
From stdpp Require Import strings list relations.
#[local] Open Scope Z_scope.

(** ** Types and panics *)

Section types.
Context `{EL : EnvLaws} `{EB : !EnvBytes} `{AL : AeadLaws} `{KL : KexLaws}.

Definition type_rules : rules unit := mkRules
  (λ _ w, session_typed (w_sess w)) (λ _ _ _ _, True) (λ _ _ _, True) (λ _ _ _, True).

(** [t] keeps the session typed whatever happens between its steps, returns
    values in [Q], and panics only with overflow checks. *)
Definition tsafe {A} (t : task A) (Q : A → Prop) : Prop :=
  twp type_rules t tt (λ o _, match o with
                              | Done a => Q a
                              | Fail _ => True
                              | Crash => env_overflow_checks = true
                              end).

Lemma tsafe_ret {A} (a : A) (Q : A → Prop) : Q a → tsafe (mret a) Q.
Proof. done. Qed.
Lemma tsafe_throw {A} e (Q : A → Prop) : tsafe (tthrow e) Q.
Proof. done. Qed.
Lemma tsafe_act {A} (m : SM A) Q : safe (talks := true) m Q → tsafe (act m) Q.
Proof.
  intros Hm. apply twp_act. intros w Hw. destruct (Hm w Hw) as [Hw' Hr]. by exists tt.
Qed.
Lemma tsafe_load {A} (f : Session → A) (Q : A → Prop) :
  (∀ s, session_typed s → Q (f s)) → tsafe (load f) Q.
Proof.
  intros Hf. apply tsafe_act. eapply safe_bind; [apply safe_get|]. intros s Hs.
  by apply safe_ret, Hf.
Qed.
Lemma tsafe_store f : (∀ s, session_typed s → session_typed (f s)) → tsafe (store f) (λ _, True).
Proof. intros Hf. by apply tsafe_act, safe_modify. Qed.

Lemma twp_unit {A} (t : task A) g Q : twp type_rules t tt Q → twp type_rules t g Q.
Proof. by destruct g. Qed.

Lemma tsafe_bind {A B} (t : task A) (f : A → task B) P Q :
  tsafe t P → (∀ a, P a → tsafe (f a) Q) → tsafe (t ≫= f) Q.
Proof.
  intros Ht Hf. apply twp_bind. eapply twp_mono; [|exact Ht]. intros [a|e|] g; simpl; [|done..].
  intros Ha. by apply twp_unit, Hf.
Qed.
Lemma tsafe_lock {A} l (t : task A) Q : tsafe t Q → tsafe (with_lock l t) Q.
Proof.
  intros Ht. apply (twp_with_lock _ _ _ _ tt); [done|]. eapply twp_mono; [|exact Ht].
  intros o g Ho. by exists tt.
Qed.
Lemma tsafe_mono {A} (t : task A) (P Q : A → Prop) : (∀ a, P a → Q a) → tsafe t P → tsafe t Q.
Proof. intros HPQ. apply twp_mono. intros [] ?; auto. Qed.
Lemma tsafe_ignore {A} (t : task A) Q : tsafe t Q → tsafe (tignore t) (λ _, True).
Proof. intros Ht. apply twp_ignore. eapply twp_mono; [|exact Ht]. by intros [] ?. Qed.

Lemma tsafe_catch {A} (t : task A) Q : tsafe t Q → tsafe (tcatch t) (λ _, True).
Proof. intros Ht. apply twp_bind_o. eapply twp_mono; [|exact Ht]. by intros [] ?. Qed.

(** One step whose specification is [lem]; the value is kept, or forgotten. *)
Tactic Notation "tstep" uconstr(lem) :=
  eapply tsafe_bind; [apply tsafe_act; apply lem|intros ? ?].
Ltac tread := eapply tsafe_bind; [by apply (tsafe_load _ (λ _, True))|intros ? _].
Ltac untyped := intros ? Ht; destruct Ht; split; done.
(** Decoding and encoding change nothing. *)
Ltac tproto := eapply tsafe_bind; [by apply tsafe_act, (safe_proto _ (λ _, True))|intros ? _].

(** ** Metrics *)

Lemma tsafe_on_counters f : tsafe (on_counters f) (λ _, True).
Proof. apply tsafe_act, safe_count. Qed.
Lemma tsafe_record_sent n : tsafe (record_sent_t n) (λ _, True).
Proof. eapply tsafe_bind; [apply tsafe_on_counters|intros _ _; apply tsafe_on_counters]. Qed.
Lemma tsafe_record_received n : tsafe (record_received_t n) (λ _, True).
Proof. eapply tsafe_bind; [apply tsafe_on_counters|intros _ _; apply tsafe_on_counters]. Qed.

(** Reading and writing one field of an estimator. *)
Lemma tsafe_loss_load {A} (f : LossTracker → A) (Q : A → Prop) :
  (∀ l, loss_typed l → Q (f l)) → tsafe (loss_load f) Q.
Proof. intros Hf. apply tsafe_load. intros s Hs. apply Hf, Hs. Qed.
Lemma tsafe_loss_store f :
  (∀ l, loss_typed l → loss_typed (f l)) → tsafe (loss_store f) (λ _, True).
Proof. intros Hf. apply tsafe_store. intros s Hs. pose proof (Hf _ (ty_loss _ _ Hs)). by destruct Hs; split. Qed.
Lemma tsafe_estimator_load {A} (f : JitterEstimator → A) (Q : A → Prop) :
  (∀ e, estimator_typed e → Q (f e)) → tsafe (estimator_load f) Q.
Proof. intros Hf. apply tsafe_load. intros s Hs. apply Hf, Hs. Qed.
Lemma tsafe_estimator_store f :
  (∀ e, estimator_typed e → estimator_typed (f e)) → tsafe (estimator_store f) (λ _, True).
Proof.
  intros Hf. apply tsafe_store. intros s Hs. pose proof (Hf _ (ty_estimator _ _ Hs)).
  by destruct Hs; split.
Qed.
Lemma tsafe_panic {A} (r : checked A) Q :
  checks_only env_overflow_checks Q r → tsafe (act (may_panic r)) Q.
Proof. intros Hr. apply tsafe_act, safe_may_panic. by destruct r. Qed.

Ltac field := intros ? Hl; destruct Hl; split; simpl; auto using wrap32_u32.
Ltac tset := apply tsafe_loss_store; field.

Lemma tsafe_loss_newer q diff : u32 q → tsafe (loss_newer_t q diff) (λ _, True).
Proof.
  intros Hq. eapply tsafe_bind; [apply (tsafe_loss_load _ u64); by intros l []|]. intros bm Hbm.
  eapply tsafe_bind.
  { apply (tsafe_panic _ u64). unfold u64_shl. case_match; [apply wrap64_u64|].
    case_match; [done|apply wrap64_u64]. }
  intros bm' Hbm'. assert (u64 (Z.lor bm' 1)) by (apply lor_u64; [done|unfold u64; lia]).
  eapply tsafe_bind; [tset|intros _ _]. tset.
Qed.

Lemma tsafe_loss_older diff : tsafe (loss_older_t diff) (λ _, True).
Proof.
  eapply tsafe_bind.
  { apply (tsafe_panic _ u32). unfold i32_neg. case_match; [|apply wrap32_u32].
    case_match; [done|]. simpl. unfold u32. lia. }
  intros gap Hgap. eapply (tsafe_bind _ _ (λ _, True)); [|intros _ _; tset].
  destruct (Z.ltb_spec gap LOSS_WINDOW_SIZE) as [Hlt|]; [|by apply tsafe_ret].
  eapply tsafe_bind; [apply (tsafe_loss_load _ u64); by intros l []|]. intros bm Hbm. cbv zeta.
  case_match; [|by apply tsafe_ret].
  assert (u64 (Z.lor bm (Z.shiftl 1 gap))); [|tset]. apply lor_u64; [done|].
  unfold LOSS_WINDOW_SIZE in Hlt. rewrite Z.shiftl_1_l. unfold u32 in Hgap.
  split; [lia|]. change 18446744073709551616 with (2 ^ 64). apply Z.pow_lt_mono_r; lia.
Qed.

Lemma tsafe_loss_record q : u32 q → tsafe (loss_record_t q) (λ _, True).
Proof.
  intros Hq. assert (u64 1) by (unfold u64; lia). assert (u32 1) by (unfold u32; lia).
  eapply tsafe_bind; [by apply (tsafe_loss_load _ (λ _, True))|intros init _]. case_match.
  - do 3 (eapply tsafe_bind; [tset|intros _ _]). tset.
  - eapply tsafe_bind; [by apply (tsafe_loss_load _ (λ _, True))|intros high _]. cbv zeta.
    eapply (tsafe_bind _ _ (λ _, True)); [|intros _ _; tset].
    case_match; [by apply tsafe_loss_newer|]. case_match; [apply tsafe_loss_older|by apply tsafe_ret].
Qed.

Lemma tsafe_jitter_record ts now : tsafe (jitter_record_t ts now) (λ _, True).
Proof.
  eapply tsafe_bind; [apply (tsafe_panic _ i64), i64_sub_typed|]. intros diff Hdiff.
  eapply tsafe_bind; [by apply (tsafe_estimator_load _ (λ _, True))|intros prev _].
  case_match; [apply tsafe_estimator_store; field|].
  eapply tsafe_bind; [apply (tsafe_panic _ i64), i64_sub_typed|]. intros delta _. cbv zeta.
  eapply tsafe_bind; [apply (tsafe_estimator_load _ u32); by intros e []|]. intros j Hj.
  assert (u32 (Z.min (if j <? Z.abs delta then j + (Z.abs delta - j) / 16
                      else j - (j - Z.abs delta) / 16) u32_MAX)).
  { unfold u32, u32_MAX in *. assert (0 ≤ Z.abs delta) as Ha by lia. revert Ha.
    generalize (Z.abs delta). intros a Ha. case_match; Z.div_mod_to_equations; lia. }
  eapply tsafe_bind; [apply tsafe_estimator_store; field|intros _ _].
  apply tsafe_estimator_store; field.
Qed.

(** ** Jitter buffer *)

Lemma tsafe_jb_load {A} (f : JitterBuffer → A) (Q : A → Prop) :
  (∀ jb, jb_typed jb → Q (f jb)) → tsafe (jb_load f) Q.
Proof. intros Hf. apply tsafe_load. intros s Hs. apply Hf, Hs. Qed.
Lemma typed_set_jitter jb s : jb_typed jb → session_typed s → session_typed (set_jitter jb s).
Proof. intros Hj Hs. destruct Hs as [? ? ? ? ? ? ? ? ? [_ ?]]. by split. Qed.
Lemma tsafe_jb_store f : (∀ jb, jb_typed jb → jb_typed (f jb)) → tsafe (jb_store f) (λ _, True).
Proof. intros Hf. apply tsafe_store. intros s Hs. apply typed_set_jitter; [|done]. apply Hf, Hs. Qed.

Lemma tsafe_slot_store idx f :
  (∀ sl, slot_typed sl → slot_typed (f sl)) → tsafe (slot_store idx f) (λ _, True).
Proof. intros Hf. apply tsafe_jb_store. intros jb. by apply jb_typed_update. Qed.
Lemma tsafe_slot_ref q : u32 q → tsafe (slot_ref q) (λ _, True).
Proof.
  intros Hq. apply tsafe_act. eapply safe_bind; [apply safe_get|intros s Hs]. cbv zeta.
  eapply safe_bind; [|intros _ _; by apply safe_ret].
  apply (safe_may_panic _ (λ _, True)).
  destruct (slot_typed_at (s_jitter s) q (proj1 (ty_recv _ _ Hs))) as (sl & -> & _); [ulia|done].
Qed.
Lemma tsafe_slot_load {A} idx (f : Slot → A) : tsafe (slot_load idx f) (λ _, True).
Proof. by apply tsafe_jb_load. Qed.
Lemma tsafe_slot_take idx : tsafe (slot_take idx) (λ _, True).
Proof.
  apply tsafe_act. eapply safe_bind; [apply safe_get|intros s0 Hs0].
  eapply safe_bind; [|intros _ _; by apply safe_ret]. apply safe_modify. intros s Hs.
  apply typed_set_jitter; [|done]. apply jb_typed_update; [|apply Hs]. by intros sl [].
Qed.
(** Setting the cursor. *)
Lemma tsafe_set_next q : u32 q → tsafe (jb_store (set_next_seq q)) (λ _, True).
Proof. intros Hq. apply tsafe_jb_store. intros jb Hj. by apply jb_typed_cursor. Qed.

Ltac slot := apply tsafe_slot_store; by intros sl [].
Tactic Notation "forget" uconstr(lem) := eapply tsafe_bind; [apply lem|intros ? _].

Lemma tsafe_push frame : u32 (fr_sequence frame) → tsafe (jb_push_t frame) (λ _, True).
Proof.
  intros Hq. unfold jb_push_t. cbv zeta. eapply (tsafe_bind _ _ (λ _, True)).
  - unfold jb_admit_t. eapply tsafe_bind; [by apply (tsafe_jb_load _ (λ _, True))|intros primed _].
    case_match.
    + forget tsafe_set_next; [done|]. eapply tsafe_bind; [|intros _ _; by apply tsafe_ret].
      apply tsafe_jb_store. intros jb Hj. apply jb_typed_cursor; [done|apply Hj].
    + do 2 (eapply tsafe_bind; [by apply (tsafe_jb_load _ (λ _, True))|intros ? _]).
      repeat case_match; by apply tsafe_ret.
  - intros admitted _. case_match; [by apply tsafe_ret|]. forget tsafe_slot_ref; [done|].
    forget tsafe_slot_load. eapply (tsafe_bind _ _ (λ _, True)).
    { case_match; [|by apply tsafe_ret]. forget tsafe_slot_load. by apply tsafe_ret. }
    intros collides _. case_match; [by apply tsafe_ret|].
    do 3 (eapply tsafe_bind; [slot|intros _ _]). by apply tsafe_ret.
Qed.

Lemma tsafe_skip count : tsafe (jb_skip_t count) (λ _, True).
Proof.
  unfold jb_skip_t. eapply tsafe_bind; [by apply (tsafe_jb_load _ (λ _, True))|intros primed _].
  case_match; [by apply tsafe_ret|].
  eapply tsafe_bind; [by apply (tsafe_jb_load _ (λ _, True))|intros next _].
  eapply (tsafe_bind _ _ (λ _, True)); [|intros _ _; apply tsafe_set_next, wrap32_u32].
  generalize 0 as i. induction (Z.to_nat count) as [|n IH]; intros i; [by apply tsafe_ret|].
  cbn [jb_skip_loop_t]. forget tsafe_slot_ref; [apply wrap32_u32|].
  do 2 (eapply tsafe_bind; [slot|intros _ _]). apply IH.
Qed.

Lemma tsafe_pop now deadline : tsafe (jb_pop_with_deadline_t now deadline) (λ _, True).
Proof.
  eapply (tsafe_bind _ _ (λ _, True)).
  - unfold jb_pop_t. eapply tsafe_bind; [by apply (tsafe_jb_load _ (λ _, True))|intros primed _].
    case_match; [by apply tsafe_ret|].
    eapply tsafe_bind; [apply (tsafe_jb_load _ u32); by intros jb []|intros next Hnext].
    forget tsafe_slot_ref; [done|]. forget tsafe_slot_load. case_match; [by apply tsafe_ret|].
    forget tsafe_slot_load. case_match; [by apply tsafe_ret|]. forget tsafe_slot_take.
    eapply tsafe_bind; [slot|intros _ _].
    eapply tsafe_bind; [apply tsafe_set_next, wrap32_u32|intros _ _; by apply tsafe_ret].
  - intros frame _. case_match; [by apply tsafe_ret|]. case_match; [|by apply tsafe_ret].
    forget tsafe_skip. by apply tsafe_ret.
Qed.

Lemma tsafe_transmit h payload peer : tsafe (transmit_t h payload peer) (λ _, True).
Proof.
  tread. eapply tsafe_bind; [by apply tsafe_act, (safe_proto _ (λ _, True))|intros ? _].
  tstep safe_send_to. apply tsafe_record_sent.
Qed.

Lemma tsafe_send_control msg sid payload peer :
  tsafe (send_control_t msg sid payload peer) (λ _, True).
Proof. tstep safe_next_sequence. tstep safe_clock. apply tsafe_transmit. Qed.

Lemma tsafe_send_fec parity peer sid : tsafe (send_fec_parity_t parity peer sid) (λ _, True).
Proof.
  tstep safe_next_sequence. tstep safe_clock. apply tsafe_lock. tread. case_match; [|done].
  tstep safe_seal. apply tsafe_transmit.
Qed.

Lemma safe_protect key seq sid h prefixed :
  safe (talks := true) (protect key seq sid h prefixed) (λ _, True).
Proof.
  unfold protect. case_match; [|by apply safe_ret].
  eapply safe_bind; [apply safe_seal|intros ? _]. by apply safe_ret.
Qed.
Lemma safe_fec_enc_push audio_seq payload :
  safe (talks := true) (fec_enc_push audio_seq payload) (λ _, True).
Proof.
  eapply safe_bind; [apply safe_get|intros ? _]. eapply safe_bind; [apply safe_modify; untyped|].
  intros ? _. by apply safe_ret.
Qed.

Lemma tsafe_send_audio payload : tsafe (send_audio_t payload) (λ _, True).
Proof.
  eapply tsafe_bind; [by apply tsafe_lock, (tsafe_load _ (λ _, True))|intros st _].
  case_decide; [done|].
  eapply tsafe_bind; [by apply tsafe_lock, (tsafe_load _ (λ _, True))|intros pr _].
  case_match; [|done]. tstep safe_next_audio_seq. tstep safe_next_sequence. tstep safe_clock. tread.
  eapply tsafe_bind; [apply tsafe_lock; tread; apply tsafe_act, safe_protect|intros wire _].
  eapply tsafe_bind; [apply tsafe_transmit|intros _ _]. apply tsafe_lock.
  tstep safe_fec_enc_push. case_match; [|done]. eapply tsafe_ignore, tsafe_send_fec.
Qed.

(** Both push-to-talk calls. *)
Lemma tsafe_ptt b m1 (p1 : Z → list Z) m2 :
  tsafe (_ ← store (set_ptt_active b);
         with_lock LPeer (
           pr ← load s_peer;
           match pr with
           | Some p =>
               sid ← load s_session_id;
               _ ← send_control_t m1 sid (p1 sid) p;
               send_control_t m2 sid [] p
           | None => mret tt
           end)) (λ _, True).
Proof.
  eapply tsafe_bind; [apply tsafe_store; untyped|intros _ _]. apply tsafe_lock. tread.
  case_match; [|done]. tread.
  eapply tsafe_bind; [apply tsafe_send_control|intros _ _]. apply tsafe_send_control.
Qed.

Lemma typed_set_fec_dec d s : fd_inv FEC_WINDOW d → session_typed s → session_typed (set_fec_dec d s).
Proof. intros Hd Hs. destruct Hs as [? ? ? ? ? ? ? ? ? [? _]]. by split. Qed.

Lemma safe_fec_dec_push_data q payload :
  u32 q → bytes payload → safe (talks := true) (fec_dec_push_data q payload) (λ _, True).
Proof.
  intros Hq Hb. eapply safe_bind; [apply safe_get|intros s Hs]. eapply safe_bind.
  { apply (safe_may_panic _ (λ r, fd_inv FEC_WINDOW r.1)).
    destruct (fd_inv_push_data FEC_WINDOW (s_fec_dec s) q payload) as (d & -> & Hd);
      [done|apply Hs|apply Hq|done]. }
  intros r Hr. apply safe_modify. intros s' Hs'. by apply typed_set_fec_dec.
Qed.

Lemma safe_fec_dec_push_parity par :
  safe (talks := true) (fec_dec_push_parity par)
    (λ r, match r with Some (q, _) => u32 q | None => True end).
Proof.
  eapply safe_bind; [apply safe_get|intros s Hs]. cbv zeta.
  pose proof (fd_inv_push_parity FEC_WINDOW (s_fec_dec s) par ltac:(done) (proj2 (ty_recv _ _ Hs)))
    as [Hd _].
  destruct (FecDecoder_push_parity (s_fec_dec s) par) as [fec rec] eqn:Hp. simpl in Hd |- *.
  eapply safe_bind; [apply safe_modify; intros s' Hs'; by apply typed_set_fec_dec|intros _ _].
  apply safe_ret. destruct rec as [[q payload]|]; [|done].
  unfold FecDecoder_push_parity in Hp. injection Hp as _ Hrec. unfold FecDecoder_try_recover in Hrec.
  cbn [fd_parity mbind option_bind] in Hrec. case_decide; [done|]. injection Hrec as <- _.
  apply wrap32_u32.
Qed.

Lemma safe_set_bitrate b : safe (talks := true) (set_bitrate b) (λ _, True).
Proof.
  eapply safe_bind; [apply safe_get|intros s Hs]. apply safe_congestion, cc_inv_set_bitrate, Hs.
Qed.

Lemma tsafe_deliver_audio ts plain :
  u64 ts → bytes plain → tsafe (deliver_audio_t ts plain) (λ _, True).
Proof.
  intros Hts Hb. unfold deliver_audio_t. case_decide; [apply tsafe_on_counters|].
  pose proof (from_be_u32 plain Hb) as Hq. cbv zeta.
  eapply tsafe_bind; [by apply tsafe_loss_record|intros _ _]. tstep safe_clock.
  eapply tsafe_bind; [apply tsafe_jitter_record|intros _ _].
  eapply tsafe_bind; [by apply tsafe_lock, tsafe_act, safe_fec_dec_push_data; [|apply Forall_drop]|].
  intros _ _. eapply tsafe_bind; [by apply tsafe_push|intros ? _]. by apply tsafe_ret.
Qed.

Lemma tsafe_dispatch_audio view raw :
  u64 (ph_timestamp (pv_header view)) → bytes (pv_payload view) →
  tsafe (dispatch_audio_t view raw) (λ _, True).
Proof.
  intros Hts Hb. unfold dispatch_audio_t. tread. cbv zeta.
  eapply (tsafe_bind _ _ (λ r, match r with Some plain => bytes plain | None => True end)).
  - case_match; [|by apply tsafe_ret]. apply tsafe_lock. tread.
    case_match; [|forget tsafe_on_counters; by apply tsafe_ret].
    destruct (Session.unseal _ _ _ _ _) eqn:Hu; [|forget tsafe_on_counters; by apply tsafe_ret].
    apply tsafe_ret. by eapply bytes_unseal.
  - intros [plain|] Hp; [|by apply tsafe_ret]. by apply tsafe_deliver_audio.
Qed.

Lemma tsafe_dispatch_fec view raw :
  bytes (pv_payload view) → tsafe (dispatch_fec_t view raw) (λ _, True).
Proof.
  intros Hb. unfold dispatch_fec_t. tread. cbv zeta. case_match; [|by apply tsafe_ret].
  apply tsafe_lock. tread. case_match; [|by apply tsafe_ret].
  destruct (Session.unseal _ _ _ _ _) eqn:Hu; [|apply tsafe_on_counters].
  case_decide; [|by apply tsafe_ret]. apply tsafe_lock.
  eapply tsafe_bind; [apply tsafe_act, safe_fec_dec_push_parity|].
  intros [[q payload]|] Hq; [|by apply tsafe_ret].
  eapply tsafe_bind; [by apply tsafe_push|intros ? _]. by apply tsafe_ret.
Qed.

Lemma tsafe_dispatch view raw :
  u64 (ph_timestamp (pv_header view)) → bytes (pv_payload view) →
  tsafe (dispatch_packet_t view raw) (λ _, True).
Proof.
  intros Hts Hb. unfold dispatch_packet_t.
  destruct (MessageType_from_code (ph_msg_type (pv_header view))) as [[]|];
    try (by apply tsafe_ret); try (apply tsafe_store; untyped).
  - by apply tsafe_dispatch_audio.
  - by apply tsafe_dispatch_fec.
  - apply tsafe_lock. tread. case_match; [|by apply tsafe_ret]. tread. apply tsafe_send_control.
  - destruct (ControlBitrateMsg_decode (pv_payload view)); [|by apply tsafe_ret].
    apply tsafe_act, safe_set_bitrate.
  - tread. destruct (negb _); [|by apply tsafe_ret]. apply tsafe_lock. tread.
    case_match; [|by apply tsafe_ret]. tread. tread. eapply tsafe_ignore, tsafe_send_control.
  - eapply tsafe_bind; [apply tsafe_lock, tsafe_act, safe_transition|]. intros ? _. done.
Qed.

Lemma tsafe_on_datagram data : bytes data → tsafe (on_datagram_t data) (λ _, True).
Proof.
  intros Hb. unfold on_datagram_t. forget tsafe_record_received.
  destruct (PacketView_decode data) as [view|] eqn:Hd; [|apply tsafe_on_counters].
  destruct (PacketView_decode_sound data view Hb Hd) as [Hwf _].
  destruct Hwf as ((_ & _ & _ & _ & _ & Hts) & _ & Hp & _).
  eapply tsafe_bind; [apply tsafe_act, safe_clock|intros now Hnow].
  eapply tsafe_bind; [apply tsafe_store; intros s Hs; by destruct Hs; split|intros _ _].
  by apply tsafe_dispatch.
Qed.

Lemma tsafe_check_liveness : tsafe check_liveness_t (λ _, True).
Proof.
  tstep safe_clock. tread. destruct (negb _ && _).
  - eapply tsafe_bind; [apply tsafe_lock, tsafe_act, safe_transition|]. intros ? _. done.
  - tread. tread. eapply tsafe_bind; [apply (tsafe_load _ cc_inv); intros s Hs; apply Hs|].
    intros cc Hcc. eapply tsafe_bind.
    { apply tsafe_act, (safe_may_panic _ cc_inv). pose proof (cc_inv_update cc) as Hu.
      specialize (Hu (f32_div a1 (f32_of_Z 100)) (default 0 a2) Hcc). by destruct CongestionController_update. }
    intros c Hc. apply tsafe_store. intros s Hs. by destruct Hs; split.
Qed.

Lemma tsafe_poll_once : tsafe poll_once_t (λ _, True).
Proof.
  eapply tsafe_bind; [apply tsafe_act, safe_recv|]. intros [data from|e|] Hb;
    [by apply tsafe_on_datagram|done|].
  eapply tsafe_bind; [by apply tsafe_lock, (tsafe_load _ (λ _, True))|intros st _].
  case_match; try (by apply tsafe_ret);
    (eapply tsafe_bind; [|intros _ _; apply tsafe_check_liveness]);
    (eapply tsafe_bind; [by apply tsafe_lock, (tsafe_load _ (λ _, True))|intros pr _]);
    (case_match; [tread; apply tsafe_send_control|by apply tsafe_ret]).
Qed.

Lemma tsafe_recv_loop fuel skip : ∀ deadline,
  tsafe (recv_audio_loop_t fuel skip deadline) (λ _, True).
Proof.
  induction fuel as [|fuel IH]; intros deadline; [by apply tsafe_ret|]. cbn [recv_audio_loop_t].
  tstep safe_clock. forget tsafe_pop. case_match; [by apply tsafe_ret|].
  case_match.
  { eapply tsafe_bind; [apply tsafe_panic, u64_add_checks|intros; apply IH]. }
  eapply tsafe_bind; [apply tsafe_act, safe_recv|]. intros [data from|e|] Hb; [|done|apply IH].
  eapply tsafe_bind; [by apply tsafe_on_datagram|]. intros _ _. apply IH.
Qed.

Lemma tsafe_close : tsafe close_t (λ _, True).
Proof.
  eapply tsafe_bind; [apply tsafe_store; untyped|intros _ _].
  do 2 (eapply tsafe_bind; [apply tsafe_lock, tsafe_store; untyped|intros _ _]).
  eapply tsafe_bind; [by apply tsafe_lock, (tsafe_load _ (λ _, True))|intros pr _].
  eapply tsafe_bind.
  { case_match; [tread; eapply tsafe_ignore, tsafe_send_control|by apply (tsafe_ret tt (λ _, True))]. }
  intros _ _. apply tsafe_lock. do 2 (tstep safe_transition). by apply tsafe_ret.
Qed.

(** ** The handshakes *)

Lemma tsafe_transition ev : tsafe (transition_t ev) (λ _, True).
Proof. apply tsafe_lock, tsafe_act, safe_transition. Qed.
Lemma tsafe_transition_or ev why : tsafe (transition_or_t ev why) (λ _, True).
Proof. apply tsafe_lock, tsafe_act, safe_transition_or. Qed.

Lemma tsafe_recv_session_confirm fuel peer sid :
  tsafe (recv_session_confirm_t fuel peer sid) (λ _, True).
Proof.
  induction fuel as [|fuel IH]; [by apply tsafe_ret|]. cbn [recv_session_confirm_t].
  eapply tsafe_bind; [apply tsafe_act, safe_recv|]. intros [data from|e|] Hb; [|done|apply IH].
  case_decide; [apply IH|]. case_match; [|apply IH]. case_decide; [apply IH|]. tproto.
  by case_decide.
Qed.

(** Keys of 32 bytes. *)
Lemma tsafe_install enc dec :
  byte_array 32 enc → byte_array 32 dec → tsafe (install_keys_t enc dec) (λ _, True).
Proof.
  intros. do 2 (eapply tsafe_bind; [apply tsafe_lock, tsafe_store; untyped|intros _ _]).
  by apply tsafe_ret.
Qed.

Lemma tsafe_client_finish fuel r peer view :
  bytes (pv_payload view) → tsafe (client_finish_t fuel r peer view) (λ _, True).
Proof.
  intros Hb. eapply tsafe_bind.
  { apply tsafe_act, (safe_proto _ (λ h, u32 (sh_session_id h))). intros h.
    unfold ServerHello_decode. case_decide; [done|]. intros [= <-]. by apply rd32_u32. }
  intros hello Hsid. cbv beta zeta. case_decide; [done|].
  eapply tsafe_bind; [apply (tsafe_load _ bytes); intros s Hs; apply (ty_supported _ _ Hs)|].
  intros supported Hsup. case_decide as Hc; [done|].
  assert (u8 (sh_codec_accepted hello)).
  { apply (proj1 (Forall_forall _ _) Hsup). destruct (decide (sh_codec_accepted hello ∈ supported)); done. }
  destruct (derive_session_keys _ _) as [enc dec] eqn:Hk. apply keys_typed in Hk as [Henc Hdec].
  cbn [fst snd]. tproto. eapply tsafe_bind; [apply tsafe_send_control|intros _ _].
  eapply tsafe_bind; [apply tsafe_recv_session_confirm|]. intros [c|] _; [|by apply tsafe_ret].
  destruct (negb _); [done|]. pose proof (from_be_u32 enc (proj2 Henc)).
  pose proof (lxor_u32 (sh_session_id hello) (from_be (take 4 enc)) Hsid ltac:(done)).
  do 3 (eapply tsafe_bind; [apply tsafe_store; untyped|intros _ _]). by apply tsafe_install.
Qed.

Lemma tsafe_handshake_client fuel r peer : tsafe (handshake_client_t fuel r peer) (λ _, True).
Proof.
  unfold handshake_client_t. tread. tproto. generalize 0 as attempt.
  induction fuel as [|fuel IH]; intros attempt; cbn [handshake_client_loop_t];
    (eapply tsafe_bind; [apply tsafe_send_control|intros _ _]); [by apply tsafe_ret|].
  eapply tsafe_bind; [apply tsafe_act, safe_recv|]. cbv zeta. intros [data from|e|] Hb.
  - case_decide; [apply IH|]. destruct (PacketView_decode data) eqn:Hd; [|apply IH].
    case_decide; [apply IH|]. by eapply tsafe_client_finish, bytes_pv.
  - by case_match.
  - by case_match.
Qed.

Lemma tsafe_wait_client_hello fuel peer : tsafe (wait_client_hello_t fuel peer) (λ _, True).
Proof.
  induction fuel as [|fuel IH]; [by apply tsafe_ret|]. cbn [wait_client_hello_t].
  eapply tsafe_bind; [apply tsafe_act, safe_recv|]. intros [data from|e|] Hb; [|done|apply IH].
  case_decide; [apply IH|]. case_match; [|apply IH]. case_decide; [apply IH|]. by tproto.
Qed.

Lemma tsafe_wait_client_hello_any fuel : tsafe (wait_client_hello_any_t fuel) (λ _, True).
Proof.
  induction fuel as [|fuel IH]; cbn [wait_client_hello_any_t]; tread; (case_match; [done|]);
    [by apply tsafe_ret|].
  eapply tsafe_bind; [apply tsafe_act, safe_recv|]. intros [data from|e|] Hb; [|done|apply IH].
  case_match; [|apply IH]. case_decide; [apply IH|]. by case_match.
Qed.

Lemma tsafe_wait_key_exchange fuel peer sid payload :
  tsafe (wait_key_exchange_t fuel peer sid payload) (λ _, True).
Proof.
  induction fuel as [|fuel IH]; cbn [wait_key_exchange_t]; tread; (case_match; [done|]);
    [by apply tsafe_ret|]. cbv zeta.
  eapply tsafe_bind; [apply tsafe_act, safe_recv|]. intros [data from|e|] Hb; [|done|apply IH].
  case_decide; [apply IH|]. case_match; [|apply IH].
  case_decide; [eapply tsafe_bind; [apply tsafe_send_control|by intros _ _]|].
  case_decide; [apply IH|]. by tproto.
Qed.

Lemma tsafe_choose_codec preferred supported :
  bytes supported → tsafe (choose_codec_t preferred supported) u8.
Proof.
  intros Hs. unfold choose_codec_t. case_decide.
  - apply tsafe_ret. by apply (proj1 (Forall_forall _ _) Hs).
  - destruct supported; [done|]. apply tsafe_ret. by inversion Hs.
Qed.

Lemma tsafe_server_finish fuel r peer hello :
  u32 (sr_session_id r) → tsafe (server_finish_t fuel r peer hello) (λ _, True).
Proof.
  intros Hsid. unfold server_finish_t. case_decide; [done|]. cbv zeta.
  eapply tsafe_bind; [apply tsafe_store; untyped|intros _ _].
  eapply tsafe_bind; [apply (tsafe_load _ (λ c, bytes (cfg_supported_codecs c)));
                      intros s Hs; apply (ty_supported _ _ Hs)|].
  intros config Hsup. eapply tsafe_bind; [by apply tsafe_choose_codec|]. intros codec Hc.
  eapply tsafe_bind; [apply tsafe_store; untyped|intros _ _]. tproto.
  eapply tsafe_bind; [apply tsafe_send_control|intros _ _].
  destruct (derive_session_keys _ _) as [enc dec] eqn:Hk. apply keys_typed in Hk as [Henc Hdec].
  eapply tsafe_bind; [apply tsafe_wait_key_exchange|]. intros [ke|] _; [|by apply tsafe_ret].
  case_decide; [done|]. destruct (negb _); [done|]. tproto.
  eapply tsafe_bind; [apply tsafe_send_control|intros _ _]. by apply tsafe_install.
Qed.

Lemma tsafe_handshake_result (r : result TransportError bool) :
  tsafe (handshake_result_t r) (λ _, True).
Proof.
  destruct r as [[]|]; [apply tsafe_transition_or|..];
    (eapply tsafe_bind; [apply tsafe_transition|done]).
Qed.

Lemma tsafe_handshake_server_any fuel r :
  u32 (sr_session_id r) → tsafe (handshake_server_any_t fuel r) (λ _, True).
Proof.
  intros Hr. eapply tsafe_bind; [apply tsafe_wait_client_hello_any|].
  intros [h|] _; [|by apply tsafe_ret].
  eapply tsafe_bind; [apply tsafe_lock, tsafe_store; untyped|intros _ _].
  by apply tsafe_server_finish.
Qed.

Lemma tsafe_open_loop attempts fuel : ∀ rnd,
  (∀ n, u32 (sr_session_id (rnd n))) → tsafe (handshake_open_loop_t attempts fuel rnd) (λ _, True).
Proof.
  induction attempts as [|attempts IH]; intros rnd Hr; [by apply tsafe_ret|].
  cbn [handshake_open_loop_t]. tread.
  case_match; [eapply tsafe_bind; [apply tsafe_transition|done]|].
  eapply tsafe_bind; [by eapply tsafe_catch, tsafe_handshake_server_any|]. intros res _.
  destruct res as [[]|[]];
    try (eapply tsafe_bind; [apply tsafe_transition_or|done]);
    try (eapply tsafe_bind; [apply tsafe_transition|done]);
    (eapply tsafe_bind;
       [apply tsafe_lock; do 2 (tstep safe_transition); apply tsafe_act, safe_transition|];
     intros _ _; eapply tsafe_bind; [apply tsafe_lock, tsafe_store; untyped|];
     intros _ _; apply IH; auto).
Qed.

Lemma tsafe_call c : scall_typed c → tsafe (call_t c) (λ _, True).
Proof.
  intros Hc. destruct c; cbn [call_t]; unfold no_frame;
    first [eapply tsafe_bind; [|intros _ _; by apply tsafe_ret]|idtac].
  - eapply tsafe_bind; [apply tsafe_lock, tsafe_store; untyped|intros _ _].
    eapply tsafe_bind; [apply tsafe_transition_or|intros _ _].
    eapply tsafe_bind; [eapply tsafe_catch, tsafe_handshake_client|intros res _].
    apply tsafe_handshake_result.
  - eapply tsafe_bind; [apply tsafe_lock, tsafe_store; untyped|intros _ _].
    eapply tsafe_bind; [apply tsafe_transition_or|intros _ _].
    eapply tsafe_bind; [eapply tsafe_catch|intros res _; apply tsafe_handshake_result].
    eapply tsafe_bind; [apply tsafe_wait_client_hello|].
    intros [h|] _; [by apply tsafe_server_finish|by apply (tsafe_ret _ (λ _, True))].
  - eapply tsafe_bind; [apply tsafe_transition_or|intros _ _]. by apply tsafe_open_loop.
  - apply tsafe_send_audio.
  - tread. tstep safe_clock. eapply tsafe_bind; [apply tsafe_panic, u64_add_checks|].
    intros. apply tsafe_recv_loop.
  - apply tsafe_poll_once.
  - apply (tsafe_ptt true FloorRequest (be_bytes 4) ControlResume).
  - apply (tsafe_ptt false FloorRelease (be_bytes 4) ControlPause).
  - apply tsafe_close.
Qed.

Definition pool_typed (p : pool) : Prop :=
  session_typed (w_sess (p_world p)) ∧ Forall (λ th, tsafe th.2 (λ _, True)) (p_threads p).

Lemma pool_typed_step p p' : pool_step p p' → pool_typed p → pool_typed p'.
Proof.
  intros [q q' [i ? ? Hs]|c w ts Hc|i w ts] [Hw Hts]; [|split; [done|]..].
  - destruct (step_at_inv _ _ _ Hs) as (held & t & Hi & Ht).
    pose proof (Forall_lookup_1 _ _ _ _ Hts Hi) as Hwp. cbn [snd] in Hwp.
    destruct t as [o|f|l t|l t]; [done| |destruct Ht as [_ ->]|subst p'0].
    + subst p'0. specialize (Hwp _ Hw). destruct (f (p_world p0)) as [w t].
      destruct Hwp as ([] & ? & _ & Ht). split; [done|]. by apply Forall_insert.
    + destruct Hwp as ([] & _ & Ht). split; [done|]. by apply Forall_insert.
    + destruct Hwp as ([] & _ & Ht). split; [done|]. by apply Forall_insert.
  - apply Forall_app. split; [done|]. constructor; [by apply tsafe_call|done].
  - by apply Forall_delete.
Qed.
End types.

(** C14: concurrent use is well-typed and free of panics: from a session built
    from any configuration the constructor accepts, after any interleaving of
    any calls (handshakes in each role, sends, receives, polls, push-to-talk
    calls and closes), whatever datagrams arrive and whichever calls fail or
    are dropped, all integer fields are within their widths, installed keys
    have 32 bytes, the negotiated codec is a byte, the jitter buffer keeps its
    size, the FEC decoder and the congestion controller satisfy their
    invariants and the estimators hold values of their types; and without
    overflow checks no call panics. *)
Theorem interleavings_type_safe
    `{EL : EnvLaws} `{EB : !EnvBytes} `{AL : AeadLaws} `{KL : KexLaws} c s p :
  config_wf c → bytes (cfg_supported_codecs c) → Session_new c = Val s →
  rtc pool_step (mkPool (mkWorld s [] 0 0) []) p →
  session_typed (w_sess (p_world p))
  ∧ (env_overflow_checks = false → Forall (λ th, th.2 ≠ TRet Crash) (p_threads p)).
Proof.
  intros Hc Hsup Hs Hp. assert (pool_typed p) as [Hw' Hts].
  { assert (pool_typed (mkPool (mkWorld s [] 0 0) [])) as H0'.
    { split; [|done]. by apply (session_inv_new true c). }
    induction Hp; eauto using pool_typed_step. }
  split; [done|]. intros Hoc. eapply Forall_impl; [exact Hts|]. intros [held t] Ht Heq.
  simpl in Ht, Heq. subst t. unfold tsafe in Ht. simpl in Ht. congruence.
Qed.

#[local] Instance client_env_laws : EnvLaws (H := client_env).
Proof.
  split. intros n. cbn [env_clock client_env script_env].
  pose proof (Nat.mod_upper_bound n 1000). unfold u64. lia.
Qed.
#[local] Instance client_env_bytes : EnvBytes (H := client_env).
Proof.
  intros [|[|n]] data from; cbn [env_recv client_env script_env]; [..|discriminate];
    intros [= <- <-]; apply (bool_decide_unpack _); vm_compute; exact I.
Qed.

Lemma interleavings_type_safe_witness :
  ∃ p, length (p_threads p) = 2%nat ∧ Forall returned (p_threads p)
    ∧ session_typed (w_sess (p_world p)) ∧ Forall (λ th, th.2 ≠ TRet Crash) (p_threads p).
Proof.
  destruct connect_close_run as (p & Hp & Hr & Hts & _). exists p. split; [exact Hts|].
  split; [exact Hr|].
  destruct (interleavings_type_safe (H := client_env) (H0 := toy_aead) (H1 := toy_kex)
              Config_default idle_session p) as [Ht Hc].
  - split; [|split]; apply (bool_decide_unpack _); vm_compute; exact I.
  - apply (bool_decide_unpack _). vm_compute. exact I.
  - vm_compute. reflexivity.
  - exact Hp.
  - split; [exact Ht|]. apply Hc. reflexivity.
Defined.
