(* ===== verification/ConcurrentSeq.v ===== *)
(** * Sequence numbers under concurrency

    Every packet sent in any interleaving of calls carries a number of its own,
    and every encrypted packet a nonce of its own. *)

From S2P Require Import Prelude.
From S2P Require Import CoreTypes.
From S2P Require Import Header.
From S2P Require Import Packet.
From S2P Require Import Message.
From S2P Require Import SessionFsm.
From S2P Require Import Crypto.
From S2P Require Import Fec.
From S2P Require Import JitterBuffer.
From S2P Require Import Ieee.
From S2P Require Import Metrics.
From S2P Require Import Congestion.
From S2P Require Import Transport.
From S2P Require Import Session.
From S2P Require Import SessionSeq.
From S2P Require Import Audio.
From S2P Require Import Handshake.
From S2P Require Import Agreement.
From S2P Require Import SessionTypes.
From S2P Require Import Task.
From S2P Require Import JitterTasks.
From S2P Require Import MetricTasks.
From S2P Require Import Tasks.
From S2P Require Import HandshakeTasks.
From S2P Require Import Interleave.
From stdpp Require Import strings list relations.
#[local] Open Scope Z_scope.

(** ** Sequence numbers *)

Create HintDb numbered discriminated.

Section numbers.
Context `{Env} `{Aead} `{Kex}.

(** The ghost state is the number the thread has taken and not yet used.  A
    step either touches neither the counter nor the wire, or takes the next
    number, or uses up the thread's number for one packet. *)
Inductive seq_step : option Z → World → World → option Z → Prop :=
  | SeqSilent g w w' : same_tx w w' → seq_step g w w' g
  | SeqTake g w w' :
      tx w' = wrap32 (tx w + 1) → w_out w' = w_out w → seq_step g w w' (Some (tx w))
  | SeqUse q d dest w w' :
      tx w' = tx w → w_out w' = w_out w ++ [(d, dest)] → sent_with d q →
      seq_step (Some q) w w' None.

Definition seq_rules : rules (option Z) := mkRules
  (λ _ _, True) seq_step (λ _ g g', g' = g) (λ _ g g', g' = g).

(** [t] uses a number only once, and only one it took, starting from [g]. *)
Definition numbered {A} (g : option Z) (t : task A) (Q : A → option Z → Prop) : Prop :=
  twp seq_rules t g (λ o g', match o with Done a => Q a g' | _ => True end).

Definition any {A} (_ : A) (_ : option Z) : Prop := True.

Lemma numbered_ret {A} g (a : A) (Q : A → option Z → Prop) : Q a g → numbered g (mret a) Q.
Proof. done. Qed.
Lemma numbered_throw {A} g e (Q : A → option Z → Prop) : numbered g (tthrow e) Q.
Proof. done. Qed.
Lemma numbered_silent {A} g (m : SM A) (Q : A → option Z → Prop) :
  silent m → (∀ a, Q a g) → numbered g (act m) Q.
Proof.
  intros Hm HQ. apply twp_act. intros w _. exists g. split_and!; [done| |by case_match].
  constructor. apply Hm.
Qed.
(** A silent step whose value matters. *)
Lemma numbered_value {A} g (m : SM A) (Q : A → option Z → Prop) :
  silent m → (∀ w a, (m w).2 = Done a → Q a g) → numbered g (act m) Q.
Proof.
  intros Hm HQ. apply twp_act. intros w _. exists g. split_and!; [done|..].
  - constructor. apply Hm.
  - specialize (HQ w). destruct (m w).2; auto.
Qed.
Lemma numbered_take g : numbered g (act next_sequence) (λ q g', g' = Some q).
Proof.
  apply twp_act. intros w _. exists (Some (tx w)). split_and!; [done| |done]. by constructor.
Qed.

Lemma numbered_bind {A B} g (t : task A) (f : A → task B) P Q :
  numbered g t P → (∀ a g', P a g' → numbered g' (f a) Q) → numbered g (t ≫= f) Q.
Proof.
  intros Ht Hf. apply twp_bind. eapply twp_mono; [|exact Ht]. intros [a|e|] g'; simpl; [|done..].
  apply Hf.
Qed.
Lemma numbered_lock {A} g l (t : task A) Q : numbered g t Q → numbered g (with_lock l t) Q.
Proof.
  intros Ht. apply (twp_with_lock _ _ _ _ g); [done|]. eapply twp_mono; [|exact Ht].
  intros o g' Ho. by exists g'.
Qed.
Lemma numbered_ignore {A} g (t : task A) Q : numbered g t Q → numbered g (tignore t) any.
Proof. intros Ht. apply twp_ignore. eapply twp_mono; [|exact Ht]. by intros [] ?. Qed.
Lemma numbered_weaken {A} g (t : task A) Q : numbered g t Q → numbered g t any.
Proof. apply twp_mono. by intros [] ?. Qed.

Lemma numbered_catch {A} g (t : task A) Q : numbered g t Q → numbered g (tcatch t) any.
Proof. intros Ht. apply twp_bind_o. eapply twp_mono; [|exact Ht]. by intros [] ?. Qed.

(** Steps that neither take nor use a number, in sequence. *)
Lemma numbered_skip {A B} g (m : SM A) (f : A → task B) Q :
  silent m → (∀ a, numbered g (f a) Q) → numbered g (act m ≫= f) Q.
Proof.
  intros Hm Hf. apply (numbered_bind _ _ _ (λ _ g', g' = g)); [by apply numbered_silent|].
  intros a g' ->. apply Hf.
Qed.
Lemma silent_load {A} (f : Session → A) : silent (s ← get; mret (f s)).
Proof. by intros w. Qed.
Lemma numbered_load {A B} g (f : Session → A) (k : A → task B) Q :
  (∀ a, numbered g (k a) Q) → numbered g (load f ≫= k) Q.
Proof. apply numbered_skip, silent_load. Qed.

Lemma numbered_silent_act {A} g (m : SM A) : silent m → numbered g (act m) any.
Proof. intros. by apply numbered_silent. Qed.

(** Follows the structure of a task. *)
Ltac numbered :=
  repeat (intros; cbv zeta; match goal with
    | |- numbered _ (mret _) _ => exact I
    | |- numbered _ (tthrow _) _ => apply numbered_throw
    | |- numbered _ (act _) _ => apply numbered_silent_act; silent
    | |- numbered _ _ _ => solve [auto with numbered]
    | |- numbered _ (tignore _) _ => eapply numbered_ignore
    | |- numbered _ (tcatch _) _ => eapply numbered_catch
    | |- numbered _ (with_lock _ _) _ => apply numbered_lock
    | |- numbered _ (_ ≫= _) _ => apply (numbered_bind _ _ _ any)
    | |- numbered _ (match ?x with _ => _ end) _ => destruct x
    end); intros.

Lemma numbered_record_sent g n : numbered g (record_sent_t n) any.
Proof. unfold record_sent_t, on_counters. numbered. Qed.
Lemma numbered_record_received g n : numbered g (record_received_t n) any.
Proof. unfold record_received_t, on_counters. numbered. Qed.
Lemma numbered_integrity_error g : numbered g record_integrity_error_t any.
Proof. apply numbered_silent_act. silent. Qed.
Lemma numbered_loss_record g q : numbered g (loss_record_t q) any.
Proof.
  unfold loss_record_t, loss_newer_t, loss_older_t, loss_load, loss_store, load, store. numbered.
Qed.
Lemma numbered_jitter_record g ts now : numbered g (jitter_record_t ts now) any.
Proof. unfold jitter_record_t, estimator_load, estimator_store, load, store. numbered. Qed.
Lemma numbered_push g frame : numbered g (jb_push_t frame) any.
Proof.
  unfold jb_push_t, jb_admit_t, slot_ref, slot_load, slot_store, jb_load, jb_store, load, store.
  numbered.
Qed.
Lemma numbered_skip_loop next n : ∀ g i, numbered g (jb_skip_loop_t next i n) any.
Proof.
  induction n; intros g i; cbn [jb_skip_loop_t]; unfold slot_ref, slot_store, jb_store, store;
    numbered; auto.
Qed.
Lemma numbered_pop g now deadline : numbered g (jb_pop_with_deadline_t now deadline) any.
Proof.
  unfold jb_pop_with_deadline_t, jb_pop_t, jb_skip_t, slot_ref, slot_load, slot_store, slot_take,
    jb_load, jb_store, load, store.
  numbered; apply numbered_skip_loop.
Qed.
#[local] Hint Resolve numbered_record_sent numbered_record_received numbered_integrity_error
  numbered_loss_record numbered_jitter_record numbered_push numbered_pop : numbered.

(** A packet sealed under its own number. *)
Definition sealed_as (h : PacketHeader) (payload : list Z) : Prop :=
  Flags_contains (ph_flags h) Flags_ENCRYPTED = true →
  ∃ key aad plain sealed m,
    PacketHeader_encode h (replicate HEADER_SIZE 0) = Ok aad
    ∧ encrypt_in_place key (make_nonce (ph_sequence h) (ph_session_id h)) aad
        (plain ++ replicate TAG_SIZE 0) (length plain) = Ok (sealed, m)
    ∧ payload = take m sealed.

Lemma numbered_transmit h payload peer :
  sealed_as h payload → numbered (Some (ph_sequence h)) (transmit_t h payload peer) any.
Proof.
  intros Hs. apply numbered_load. intros mtu.
  apply (numbered_bind _ _ _ (λ nb g', g' = Some (ph_sequence h)
           ∧ PacketBuilder_encode h payload (replicate mtu 0) = Ok nb)).
  { apply numbered_value; [apply silent_proto|]. intros w nb. simpl. case_match; [|done].
    by intros [= ->]. }
  intros [n out] g' [-> Henc].
  apply (numbered_bind _ _ _ any).
  - apply twp_act. intros w _. exists None. split_and!; [done| |by case_match].
    apply (SeqUse _ (take n out) peer); [done..|]. unfold sent_with, sealed_as in *. eauto 12.
  - intros sent g' _. apply numbered_record_sent.
Qed.

Lemma seal_sealed_as key seq sid h plain w payload :
  ph_sequence h = seq → ph_session_id h = sid →
  (Session.seal key seq sid h plain w).2 = Done payload → sealed_as h payload.
Proof.
  intros <- <-. unfold Session.seal, mbind, SM_bind, proto.
  destruct (PacketHeader_encode _ _) as [aad|] eqn:Ha; [|done]. simpl.
  destruct (encrypt_in_place _ _ _ _ _) as [[buf m]|] eqn:He; [|done]. intros [= <-] _. eauto 10.
Qed.

Lemma numbered_send_control g msg sid payload peer :
  numbered g (send_control_t msg sid payload peer) any.
Proof.
  eapply numbered_bind; [apply numbered_take|]. intros q g' ->.
  apply numbered_skip; [silent|intros ts].
  apply (numbered_transmit (PacketHeader_new (MessageType_code msg) sid q ts)). done.
Qed.

Lemma numbered_send_fec g parity peer sid : numbered g (send_fec_parity_t parity peer sid) any.
Proof.
  eapply numbered_bind; [apply numbered_take|]. intros q g' ->.
  apply numbered_skip; [silent|intros ts]. cbv zeta. apply numbered_lock.
  apply numbered_load. intros [key|]; [|done]. set (h := mkPacketHeader _ _ _ _ _ _).
  apply (numbered_bind _ _ _ (λ p g', g' = Some q ∧ sealed_as h p)).
  - apply numbered_value; [silent|]. intros w p Hp. split; [done|].
    by eapply seal_sealed_as, Hp.
  - intros p g' [-> Hp]. by apply (numbered_transmit h).
Qed.

Lemma numbered_send_audio g payload : numbered g (send_audio_t payload) any.
Proof.
  apply (numbered_bind _ _ _ any).
  { apply numbered_lock. by apply numbered_silent; [apply silent_load|]. }
  intros st g1 _. case_decide; [done|]. apply (numbered_bind _ _ _ any).
  { apply numbered_lock. by apply numbered_silent; [apply silent_load|]. }
  intros [peer|] g2 _; [|done]. apply numbered_skip; [silent|intros audio_seq].
  eapply numbered_bind; [apply numbered_take|]. intros q g3 ->.
  apply numbered_skip; [silent|intros ts]. apply numbered_load. intros sid. cbv zeta.
  apply (numbered_bind _ _ _ (λ wire g', g' = Some q ∧ ph_sequence wire.1 = q
                                         ∧ sealed_as wire.1 wire.2)).
  { apply numbered_lock, numbered_load. intros key. unfold protect.
    apply numbered_value; [silent|]. intros w wire. set (h := mkPacketHeader _ _ _ _ _ _).
    destruct key as [key|]; [|by intros [= <-]].
    intros Hw. unfold mbind, SM_bind in Hw.
    destruct (Session.seal key q sid h _ w) as [w' []] eqn:Hs; [|done..]. simpl in Hw.
    injection Hw as <-. apply (f_equal snd) in Hs. split_and!; [done..|].
    by eapply seal_sealed_as, Hs. }
  intros [h p] g4 (-> & <- & Hs). apply (numbered_bind _ _ _ any); [by apply numbered_transmit|].
  intros _ g5 _. apply numbered_lock. apply numbered_skip; [unfold fec_enc_push; silent|].
  intros [parity|]; [|done]. eapply numbered_ignore, numbered_send_fec.
Qed.

#[local] Hint Resolve numbered_send_control : numbered.

Lemma numbered_dispatch g view raw : numbered g (dispatch_packet_t view raw) any.
Proof.
  unfold dispatch_packet_t, dispatch_audio_t, deliver_audio_t, dispatch_fec_t, fec_dec_push_data,
    fec_dec_push_parity, set_bitrate, load, store.
  numbered.
Qed.

Lemma numbered_on_datagram g data : numbered g (on_datagram_t data) any.
Proof. unfold on_datagram_t, store. numbered. apply numbered_dispatch. Qed.

Lemma numbered_recv_loop fuel skip : ∀ g deadline,
  numbered g (recv_audio_loop_t fuel skip deadline) any.
Proof.
  induction fuel as [|fuel IH]; intros g deadline; [done|]. cbn [recv_audio_loop_t].
  numbered; auto using numbered_on_datagram.
Qed.

Lemma numbered_recv_session_confirm fuel peer sid : ∀ g,
  numbered g (recv_session_confirm_t fuel peer sid) any.
Proof. induction fuel; cbn [recv_session_confirm_t]; numbered; auto. Qed.
Lemma numbered_client_loop fuel r peer hello : ∀ g attempt,
  numbered g (handshake_client_loop_t fuel r peer hello attempt) any.
Proof.
  induction fuel as [|fuel IH]; intros g attempt; cbn [handshake_client_loop_t];
    unfold client_finish_t, install_keys_t, load, store; numbered;
    auto using numbered_recv_session_confirm.
Qed.
Lemma numbered_handshake_client g fuel r peer : numbered g (handshake_client_t fuel r peer) any.
Proof. unfold handshake_client_t, load. numbered. apply numbered_client_loop. Qed.
Lemma numbered_wait_client_hello fuel peer : ∀ g, numbered g (wait_client_hello_t fuel peer) any.
Proof. induction fuel; cbn [wait_client_hello_t]; numbered; auto. Qed.
Lemma numbered_wait_client_hello_any fuel : ∀ g, numbered g (wait_client_hello_any_t fuel) any.
Proof. induction fuel; cbn [wait_client_hello_any_t]; unfold load; numbered; auto. Qed.
Lemma numbered_wait_key_exchange fuel peer sid payload : ∀ g,
  numbered g (wait_key_exchange_t fuel peer sid payload) any.
Proof. induction fuel; cbn [wait_key_exchange_t]; unfold load; numbered; auto. Qed.
Lemma numbered_server_finish g fuel r peer h : numbered g (server_finish_t fuel r peer h) any.
Proof.
  unfold server_finish_t, choose_codec_t, install_keys_t, load, store. numbered.
  apply numbered_wait_key_exchange.
Qed.
Lemma numbered_open_loop attempts fuel : ∀ g rnd,
  numbered g (handshake_open_loop_t attempts fuel rnd) any.
Proof.
  induction attempts as [|attempts IH]; intros g rnd; cbn [handshake_open_loop_t];
    unfold transition_t, transition_or_t, restart_t, handshake_server_any_t, load, store;
    numbered; auto using numbered_wait_client_hello_any, numbered_server_finish.
Qed.

Lemma numbered_call g c : numbered g (call_t c) any.
Proof.
  destruct c; cbn [call_t]; unfold no_frame.
  - unfold handshake_as_client_t, handshake_result_t, transition_or_t, transition_t, store.
    numbered. apply numbered_handshake_client.
  - unfold handshake_as_server_t, handshake_server_t, handshake_result_t,
      transition_or_t, transition_t, store.
    numbered; auto using numbered_wait_client_hello, numbered_server_finish.
  - unfold handshake_open_t, transition_or_t. numbered. apply numbered_open_loop.
  - apply (numbered_bind _ _ _ any); [apply numbered_send_audio|done].
  - unfold recv_audio_t, load. numbered. apply numbered_recv_loop.
  - unfold poll_once_t, send_heartbeat_t, check_liveness_t, load, store. numbered.
    apply numbered_on_datagram.
  - unfold ptt_press_t, load, store. numbered.
  - unfold ptt_release_t, load, store. numbered.
  - unfold close_t, load, store. numbered.
Qed.

(** The numbers taken and not yet used, over all threads. *)
Definition pending (gs : list (option Z)) : list Z := omap id gs.

Lemma pending_split gs i g :
  gs !! i = Some g →
  ∃ rest, pending gs ≡ₚ option_list g ++ rest
    ∧ (∀ g', pending (<[i := g']> gs) ≡ₚ option_list g' ++ rest)
    ∧ pending (delete i gs) = rest.
Proof.
  intros Hi. exists (pending (take i gs ++ drop (S i) gs)).
  assert (∀ g', pending (take i gs ++ g' :: drop (S i) gs)
            ≡ₚ option_list g' ++ pending (take i gs ++ drop (S i) gs)) as Hp.
  { intros g'. unfold pending. rewrite !omap_app. destruct g' as [q|]; simpl; [|done].
    by rewrite Permutation_middle. }
  pose proof (lookup_lt_Some _ _ _ Hi). split_and!.
  - rewrite <- (Hp g). by rewrite take_drop_middle.
  - intros g'. rewrite insert_take_drop by done. apply Hp.
  - by rewrite delete_take_drop.
Qed.

(** From a counter at [b], [k] numbers have been taken: those of the packets
    sent ([ks]) and those the threads still hold ([gs]) are all different.
    They are counted from [b], without wrapping. *)
Record numbers_at (b k : Z) (ks : list Z) (gs : list (option Z)) (p : pool) : Prop := {
  na_count : 0 ≤ k;
  na_tx : tx (p_world p) = wrap32 (b + k);
  na_sent : Forall2 (λ dp o, 0 ≤ o < k ∧ sent_with dp.1 (wrap32 (b + o)))
              (w_out (p_world p)) ks;
  na_threads : Forall2 (λ th g, numbered ((λ o, wrap32 (b + o)) <$> g) th.2 any)
                 (p_threads p) gs;
  na_pending : Forall (λ o, 0 ≤ o < k) (pending gs);
  na_distinct : NoDup (ks ++ pending gs);
}.

Section step.
Context (b k : Z) (ks : list Z) (gs : list (option Z)) (p : pool) (i : nat) (g : option Z).
Context (held : list lock) (t : task (option Frame)) (w : World).
Context (Hp : numbers_at b k ks gs p) (Hg : gs !! i = Some g).

Lemma numbers_silent :
  same_tx (p_world p) w → numbered ((λ o, wrap32 (b + o)) <$> g) t any →
  numbers_at b k ks gs (mkPool w (<[i := (held, t)]> (p_threads p))).
Proof.
  destruct Hp as [Hk Htx Hsent Hts Hpend Hnd]. intros [Htx' Hout'] Ht.
  split; simpl; [done|congruence|by rewrite Hout'| |done|done].
  rewrite <- (list_insert_id gs i g) by done. by apply Forall2_insert.
Qed.

Lemma numbers_take :
  tx w = wrap32 (tx (p_world p) + 1) → w_out w = w_out (p_world p) →
  numbered (Some (tx (p_world p))) t any →
  numbers_at b (k + 1) ks (<[i := Some k]> gs) (mkPool w (<[i := (held, t)]> (p_threads p))).
Proof.
  destruct Hp as [Hk Htx Hsent Hts Hpend Hnd]. intros Htx' Hout' Ht.
  destruct (pending_split gs i g Hg) as (rest & Hsplit & Hins & _).
  rewrite Hsplit in Hpend, Hnd. apply Forall_app in Hpend as [_ Hrest].
  assert (∀ o, o ∈ ks → o < k) as Hks.
  { intros o [j Hj]%list_elem_of_lookup.
    destruct (Forall2_lookup_r _ _ _ _ _ Hsent Hj) as (? & _ & ? & _). lia. }
  split; simpl; [lia| | | |rewrite Hins; simpl..].
  - rewrite Htx', Htx. clear. dlia.
  - rewrite Hout'. eapply Forall2_impl; [exact Hsent|]. intros dp o [? ?]. split; [lia|done].
  - apply Forall2_insert; [done|]. simpl. by rewrite <- Htx.
  - constructor; [lia|]. eapply Forall_impl; [exact Hrest|]. simpl. lia.
  - apply NoDup_app in Hnd as (Hnks & Hdis & Hnd). apply NoDup_app in Hnd as (_ & _ & Hnd).
    apply NoDup_app. split_and!; [done| |].
    + intros o Ho [->|Hr]%elem_of_cons; [specialize (Hks _ Ho); lia|].
      apply (Hdis o Ho), elem_of_app. by right.
    + constructor; [|done]. intros Hin.
      pose proof (proj1 (Forall_forall _ _) Hrest k Hin) as Hlt. simpl in Hlt. lia.
Qed.

Lemma numbers_use o d dest :
  g = Some o → tx w = tx (p_world p) → w_out w = w_out (p_world p) ++ [(d, dest)] →
  sent_with d (wrap32 (b + o)) → numbered None t any →
  numbers_at b k (ks ++ [o]) (<[i := None]> gs) (mkPool w (<[i := (held, t)]> (p_threads p))).
Proof.
  destruct Hp as [Hk Htx Hsent Hts Hpend Hnd]. intros Hgo Htx' Hout' Hd Ht.
  destruct (pending_split gs i g Hg) as (rest & Hsplit & Hins & _). subst g.
  rewrite Hsplit in Hpend, Hnd. apply Forall_cons_1 in Hpend as [Ho Hrest].
  split; simpl; [done|congruence| | |rewrite Hins; simpl..].
  - rewrite Hout'. apply Forall2_app; [done|]. by constructor.
  - by apply Forall2_insert.
  - done.
  - by rewrite <- app_assoc.
Qed.
End step.

Definition numbers_ok (b k : Z) (p : pool) : Prop := ∃ ks gs, numbers_at b k ks gs p.

Lemma numbers_ok_run b k p p' :
  run_step p p' → numbers_ok b k p → ∃ k', k' ≤ k + 1 ∧ numbers_ok b k' p'.
Proof.
  intros [i q q' Hs] (ks & gs & Hq). destruct (step_at_inv _ _ _ Hs) as (held & t & Hi & Ht).
  destruct (Forall2_lookup_l _ _ _ _ _ (na_threads _ _ _ _ _ Hq) Hi) as (g & Hg & Hwp).
  cbn [snd] in Hwp. destruct t as [o|f|l t|l t]; [done| |destruct Ht as [_ ->]|subst q'].
  2, 3: destruct Hwp as (g' & -> & Ht); exists k; split; [lia|]; exists ks, gs;
    by eapply numbers_silent.
  subst q'. specialize (Hwp (p_world q) I). destruct (f (p_world q)) as [w t].
  destruct Hwp as (g' & _ & Hstep & Ht). cbn [fst snd].
  inversion Hstep as [? ? ? Hsame Eg|? ? ? Htx' Hout' Eg|n d dest ? ? Htx' Hout' Hd Eg]; subst.
  - exists k. split; [lia|]. exists ks, gs. by eapply numbers_silent.
  - exists (k + 1). split; [done|]. eexists _, _. by eapply numbers_take.
  - destruct g as [o|]; [|done]. injection Eg as ->. exists k. split; [lia|]. eexists _, _.
    by eapply numbers_use.
Qed.

Lemma numbers_ok_step b k p p' :
  pool_step p p' → numbers_ok b k p → ∃ k', k' ≤ k + 1 ∧ numbers_ok b k' p'.
Proof.
  intros [q q' Hr|c w ts Hc|i w ts] Hok; [by eapply numbers_ok_run|..];
    destruct Hok as (ks & gs & [Hk Htx Hsent Hts Hpend Hnd]); exists k; (split; [lia|]).
  - assert (pending (gs ++ [None]) = pending gs) as Hp.
    { unfold pending. rewrite omap_app. simpl. apply app_nil_r. }
    exists ks, (gs ++ [None]). split; simpl; rewrite ?Hp; try done.
    apply Forall2_app; [done|]. constructor; [apply numbered_call|done].
  - destruct (gs !! i) as [g|] eqn:Hg.
    + destruct (pending_split gs i g Hg) as (rest & Hsplit & _ & Hdel).
      rewrite Hsplit in Hpend, Hnd. apply Forall_app in Hpend as [_ Hrest].
      exists ks, (delete i gs). split; simpl; rewrite ?Hdel; try done.
      * by apply Forall2_delete.
      * rewrite Permutation_app_swap_app in Hnd. by apply NoDup_app in Hnd as (_ & _ & ?).
    + exists ks, gs. split; simpl; try done. apply lookup_ge_None in Hg.
      pose proof (Forall2_length _ _ _ Hts) as Hlen. simpl in Hlen, Hts |- *.
      assert (delete i ts = ts) as ->; [|done]. unfold thread in *.
      rewrite delete_take_drop, take_ge by lia. rewrite (drop_ge ts (S i)) by lia. apply app_nil_r.
Qed.

Lemma numbers_ok_steps b n : ∀ k p p',
  nsteps pool_step n p p' → numbers_ok b k p → ∃ k', k' ≤ k + Z.of_nat n ∧ numbers_ok b k' p'.
Proof.
  induction n as [|n IH]; intros k p p' Hn Hok.
  - inversion Hn; subst. exists k. split; [lia|done].
  - inversion Hn as [|? ? q ? Hs Hn']; subst.
    destruct (numbers_ok_step _ _ _ _ Hs Hok) as (k1 & Hk1 & Hok1).
    destruct (IH k1 q p' Hn' Hok1) as (k' & Hk' & Hok'). exists k'. split; [lia|done].
Qed.

Lemma wrap_NoDup b ks n :
  NoDup ks → Forall (λ o, 0 ≤ o < n) ks → n ≤ 4294967296 → NoDup ((λ o, wrap32 (b + o)) <$> ks).
Proof.
  intros Hnd Hf Hn. apply NoDup_fmap_2_strong; [|done]. intros x y Hx Hy.
  pose proof (proj1 (Forall_forall _ _) Hf x Hx) as Hx'.
  pose proof (proj1 (Forall_forall _ _) Hf y Hy) as Hy'. simpl in *.
  clear -Hx' Hy' Hn. intros Heq. dlia.
Qed.
End numbers.

(** C3: no nonce is used twice, also under concurrency: starting from a
    session that has sent nothing, over any interleaving of at most 2^32 steps
    of any calls (handshakes included) by any number of threads, with calls
    dropped anywhere, whatever the network delivers and whichever sends fail, all packets handed
    to the transport carry, in the sequence field of their header, pairwise
    different 32-bit numbers, and every packet marked as encrypted is sealed
    under the nonce built from the number it carries and its session id, with
    its own header as associated data. *)
Theorem concurrent_nonces_unique `{Env} `{Aead} `{Kex} n w p :
  u32 (tx w) → w_out w = [] → Z.of_nat n ≤ 4294967296 →
  nsteps pool_step n (mkPool w []) p →
  numbered_apart (w_out (p_world p)).
Proof.
  intros Hu Hout Hn Hp.
  destruct (numbers_ok_steps (tx w) n 0 _ _ Hp) as (k & Hk & ks & gs & Hat).
  { exists [], []. split; simpl; [done| |by rewrite Hout|constructor|constructor|constructor].
    by rewrite Z.add_0_r, wrap32_id. }
  destruct Hat as [_ _ Hsent _ _ Hnd].
  apply (numbered_apart_intro _ ((λ o, wrap32 (tx w + o)) <$> ks)).
  - apply Forall2_fmap_r. eapply Forall2_impl; [exact Hsent|]. intros dp o [_ ?].
    split; [apply wrap32_u32|done].
  - apply (wrap_NoDup _ _ k); [by apply NoDup_app in Hnd as [? _]| |lia].
    clear -Hsent. induction Hsent; constructor; [lia|done].
Qed.

Lemma concurrent_nonces_unique_witness :
  ∃ p, nsteps (pool_step (H := quiet_env) (H0 := toy_aead)) 46 (mkPool keyed_world []) p
    ∧ length (w_out (p_world p)) = 2%nat
    ∧ numbered_apart (H0 := toy_aead) (w_out (p_world p)).
Proof.
  destruct two_senders_run as (p & Hp & Hout & _). exists p. split; [exact Hp|]. split; [exact Hout|].
  apply (concurrent_nonces_unique (H := quiet_env) (H0 := toy_aead) 46 keyed_world p);
    [unfold tx; simpl; ulia|reflexivity|simpl; lia|exact Hp].
Defined.

