(* ===== verification/CloseRace.v ===== *)
(** * Sending and closing at the same time

    [close] clears the key before it leaves the [Active] state, and
    [send_audio] checks the state before it reads the key and falls back to
    cleartext without one.  Until a session is closed all its audio is sealed;
    an interleaving with [close] sends a frame in the clear. *)

From S2P Require Import Prelude.
From S2P Require Import CoreTypes.
From S2P Require Import Header.
From S2P Require Import Packet.
From S2P Require Import Message.
From S2P Require Import SessionFsm.
From S2P Require Import Crypto.
From S2P Require Import Fec.
From S2P Require Import JitterBuffer.
From S2P Require Import Ieee.
From S2P Require Import Metrics.
From S2P Require Import Congestion.
From S2P Require Import Transport.
From S2P Require Import Session.
From S2P Require Import SessionSeq.
From S2P Require Import Audio.
From S2P Require Import Handshake.
From S2P Require Import Agreement.
From S2P Require Import SessionTypes.
From S2P Require Import Task.
From S2P Require Import JitterTasks.
From S2P Require Import MetricTasks.
From S2P Require Import Tasks.
From S2P Require Import HandshakeTasks.
From S2P Require Import Interleave.
From S2P Require Import ConcurrentTypes.
From S2P Require Import ConcurrentSeq.
From stdpp Require Import strings list relations.
#[local] Open Scope Z_scope.

(** ** Audio is sealed until the session is closed *)

Create HintDb secures discriminated.

Section secrecy.
Context `{Env} `{Aead}.

Definition audio_type (code : Z) : Prop :=
  code = MessageType_code AudioFrame ∨ code = MessageType_code AudioFec.

(** A packet that, if it carries audio, is marked as encrypted and, if it is
    marked so, was sealed under its own nonce. *)
Definition secret (h : PacketHeader) (payload : list Z) : Prop :=
  (audio_type (ph_msg_type h) → Flags_contains (ph_flags h) Flags_ENCRYPTED = true)
  ∧ sealed_as h payload.

Definition secret_packet (d : list Z) : Prop :=
  ∃ h payload buf n out,
    PacketBuilder_encode h payload buf = Ok (n, out) ∧ d = take n out ∧ secret h payload.

(** The ghost state is whether the thread knows that the session is being
    closed; until it is, there is a key and all packets are secret. *)
Definition secret_inv (g : bool) (w : World) : Prop :=
  (g = true → s_closed (w_sess w) = true)
  ∧ (s_closed (w_sess w) = false →
     is_Some (s_encrypt_key (w_sess w)) ∧ Forall (λ dp, secret_packet dp.1) (w_out w)).

Definition stays_closed (w w' : World) : Prop :=
  s_closed (w_sess w) = true → s_closed (w_sess w') = true.

Definition secret_rules : rules bool := mkRules
  secret_inv (λ _ w w' _, stays_closed w w') (λ _ g g', g' = g) (λ _ g g', g' = g).

Definition secures {A} (g : bool) (t : task A) (Q : A → bool → Prop) : Prop :=
  twp secret_rules t g (λ o g', match o with Done a => Q a g' | _ => True end).

Definition whatever {A} (_ : A) (_ : bool) : Prop := True.

(** Steps that touch neither the wire nor the closing flag, and leave a key
    where there was one. *)
Definition calm {A} (m : SM A) : Prop := ∀ w,
  s_closed (w_sess (m w).1) = s_closed (w_sess w)
  ∧ (is_Some (s_encrypt_key (w_sess w)) → is_Some (s_encrypt_key (w_sess (m w).1)))
  ∧ w_out (m w).1 = w_out w.

Lemma calm_local {A} (m : SM A) : (∀ w, (m w).1 = w) → calm m.
Proof. intros Hm w. by rewrite Hm. Qed.
Lemma calm_clock : calm micros_since_epoch.
Proof. by intros w. Qed.
Lemma calm_recv : calm recv.
Proof. by intros w. Qed.
Lemma calm_next_sequence : calm next_sequence.
Proof. by intros w. Qed.
Lemma calm_next_audio_seq : calm next_audio_seq.
Proof. by intros w. Qed.
Lemma calm_modify f :
  (∀ s, s_closed (f s) = s_closed s
        ∧ (is_Some (s_encrypt_key s) → is_Some (s_encrypt_key (f s)))) → calm (modify f).
Proof. intros Hf w. destruct (Hf (w_sess w)). by split_and!. Qed.
Lemma calm_transition e : calm (transition e).
Proof. intros w. unfold transition. by destruct (SessionStateMachine_transition _ _). Qed.
Lemma calm_bind {A B} (m : SM A) (f : A → SM B) :
  calm m → (∀ a, calm (f a)) → calm (m ≫= f).
Proof.
  intros Hm Hf w. unfold mbind, SM_bind. specialize (Hm w).
  destruct (m w) as [w1 [a|e|]]; [|done..]. simpl in Hm. destruct (Hf a w1) as (? & ? & ?), Hm as (? & ? & ?).
  split_and!; [congruence|auto|congruence].
Qed.
Lemma calm_transition_or e why : calm (transition_or e why).
Proof. apply calm_bind; [apply calm_transition|]. intros []; by apply calm_local. Qed.

Lemma secures_bind {A B} g (t : task A) (f : A → task B) P Q :
  secures g t P → (∀ a g', P a g' → secures g' (f a) Q) → secures g (t ≫= f) Q.
Proof.
  intros Ht Hf. apply twp_bind. eapply twp_mono; [|exact Ht]. intros [a|e|] g'; simpl; [|done..].
  apply Hf.
Qed.
Lemma secures_lock {A} g l (t : task A) Q : secures g t Q → secures g (with_lock l t) Q.
Proof.
  intros Ht. apply (twp_with_lock _ _ _ _ g); [done|]. eapply twp_mono; [|exact Ht].
  intros o g' Ho. by exists g'.
Qed.
Lemma secures_ignore {A} g (t : task A) Q : secures g t Q → secures g (tignore t) whatever.
Proof. intros Ht. apply twp_ignore. eapply twp_mono; [|exact Ht]. by intros [] ?. Qed.
Lemma secures_catch {A} g (t : task A) Q : secures g t Q → secures g (tcatch t) whatever.
Proof. intros Ht. apply twp_bind_o. eapply twp_mono; [|exact Ht]. by intros [] ?. Qed.
Lemma secures_value {A} g (m : SM A) (Q : A → bool → Prop) :
  calm m → (∀ w a, (m w).2 = Done a → Q a g) → secures g (act m) Q.
Proof.
  intros Hm HQ. apply twp_act. intros w [Hg Hw]. destruct (Hm w) as (Hc & Hk & Ho). exists g.
  split; [|split].
  - split; rewrite Hc; [done|]. intros Hcl. rewrite Ho. destruct (Hw Hcl). auto.
  - unfold r_step, secret_rules, stays_closed. by rewrite Hc.
  - specialize (HQ w). destruct (m w).2; auto.
Qed.
Lemma secures_calm {A} g (m : SM A) : calm m → secures g (act m) whatever.
Proof. intros Hm. by apply secures_value. Qed.
Lemma secures_skip {A B} g (m : SM A) (f : A → task B) Q :
  calm m → (∀ a, secures g (f a) Q) → secures g (act m ≫= f) Q.
Proof.
  intros Hm Hf. apply (secures_bind _ _ _ (λ _ g', g' = g)); [by apply secures_value|]. by intros a g' ->.
Qed.
End secrecy.

#[export] Hint Resolve calm_clock calm_recv calm_transition calm_transition_or calm_next_sequence
  calm_next_audio_seq : gs.

(** Follows the structure of a computation, and of a task. *)
Ltac calm :=
  repeat (intros; cbv zeta; first
    [ solve [auto with gs]
    | match goal with
      | |- calm (modify _) => apply calm_modify; intros ?; split; simpl; eauto
      | |- calm (count _) => apply calm_modify; intros ?; split; simpl; eauto
      | |- calm (_ ≫= _) => apply calm_bind
      | |- calm (match ?x with _ => _ end) => destruct x
      | |- calm _ => apply calm_local; done
      end ]).
Ltac secures :=
  repeat (intros; cbv zeta; match goal with
    | |- secures _ (mret _) _ => exact I
    | |- secures _ (tthrow _) _ => exact I
    | |- secures _ (act _) _ => apply secures_calm; solve [calm]
    | |- secures _ _ _ => solve [auto with secures]
    | |- secures _ (tignore _) _ => eapply secures_ignore
    | |- secures _ (tcatch _) _ => eapply secures_catch
    | |- secures _ (with_lock _ _) _ => apply secures_lock
    | |- secures _ (_ ≫= _) _ => apply (secures_bind _ _ _ whatever)
    | |- secures _ (match ?x with _ => _ end) _ => destruct x
    end); intros.

Section secrecy_ops.
Context `{Env} `{Aead} `{Kex}.

Lemma secures_record_sent g n : secures g (record_sent_t n) whatever.
Proof. unfold record_sent_t, on_counters. secures. Qed.
Lemma secures_record_received g n : secures g (record_received_t n) whatever.
Proof. unfold record_received_t, on_counters. secures. Qed.
Lemma secures_integrity_error g : secures g record_integrity_error_t whatever.
Proof. unfold record_integrity_error_t, on_counters. secures. Qed.
Lemma secures_loss_record g q : secures g (loss_record_t q) whatever.
Proof.
  unfold loss_record_t, loss_newer_t, loss_older_t, loss_load, loss_store, load, store. secures.
Qed.
Lemma secures_jitter_record g ts now : secures g (jitter_record_t ts now) whatever.
Proof. unfold jitter_record_t, estimator_load, estimator_store, load, store. secures. Qed.
Lemma secures_push g frame : secures g (jb_push_t frame) whatever.
Proof.
  unfold jb_push_t, jb_admit_t, slot_ref, slot_load, slot_store, jb_load, jb_store, load, store.
  secures.
Qed.
Lemma secures_skip_loop next n : ∀ g i, secures g (jb_skip_loop_t next i n) whatever.
Proof.
  induction n; intros g i; cbn [jb_skip_loop_t]; unfold slot_ref, slot_store, jb_store, store;
    secures; auto.
Qed.
Lemma secures_pop g now deadline : secures g (jb_pop_with_deadline_t now deadline) whatever.
Proof.
  unfold jb_pop_with_deadline_t, jb_pop_t, jb_skip_t, slot_ref, slot_load, slot_store, slot_take,
    jb_load, jb_store, load, store.
  secures; apply secures_skip_loop.
Qed.
#[local] Hint Resolve secures_record_sent secures_record_received secures_integrity_error
  secures_loss_record secures_jitter_record secures_push secures_pop : secures.

(** Without a key the session is being closed. *)
Lemma secures_read_key g :
  secures g (load s_encrypt_key) (λ key g', key = None → g' = true).
Proof.
  apply twp_act. intros w [Hg Hw]. simpl. destruct (s_closed (w_sess w)) eqn:Hc.
  - exists true. split; [by split; [|congruence]|by split; [intros ?|]].
  - exists g. destruct (Hw eq_refl) as [[k Hk] Hout]. split; [split; [intros E; by specialize (Hg E)|by eauto]|].
    split; [by intros ?|congruence].
Qed.

Lemma secures_transmit g h payload peer :
  g = true ∨ secret h payload → secures g (transmit_t h payload peer) whatever.
Proof.
  intros Hs. unfold transmit_t, load. apply secures_skip; [calm|intros mtu].
  apply (secures_bind _ _ _ (λ nb g', g' = g
           ∧ PacketBuilder_encode h payload (replicate mtu 0) = Ok nb)).
  { apply secures_value; [calm|]. intros w nb. simpl. case_match; [|done]. by intros [= ->]. }
  intros [n out] g' [-> Henc]. apply (secures_bind _ _ _ whatever); [|secures].
  apply twp_act. intros w [Hg Hw]. exists g. split; [|split; [by intros ?|by case_match]].
  split; [done|]. simpl. intros Hc. destruct Hs as [->|Hs]; [rewrite Hg in Hc; done|].
  destruct (Hw Hc) as [Hk Hout]. split; [done|]. apply Forall_app. split; [done|].
  constructor; [|done]. by exists h, payload, (replicate mtu 0), n, out.
Qed.

Lemma secures_send_control g msg sid payload peer :
  ¬ audio_type (MessageType_code msg) → secures g (send_control_t msg sid payload peer) whatever.
Proof.
  intros Hm. unfold send_control_t. apply secures_skip; [calm|intros q].
  apply secures_skip; [calm|intros ts]. apply secures_transmit. right. by split.
Qed.

Lemma secret_seal key seq sid h plain w payload :
  ph_sequence h = seq → ph_session_id h = sid → ph_flags h = Flags_ENCRYPTED →
  (Session.seal key seq sid h plain w).2 = Done payload → secret h payload.
Proof. intros ? ? Hf Hp. split; [by rewrite Hf|]. by eapply seal_sealed_as, Hp. Qed.

Lemma secures_send_fec g parity peer sid : secures g (send_fec_parity_t parity peer sid) whatever.
Proof.
  unfold send_fec_parity_t, load. apply secures_skip; [calm|intros q].
  apply secures_skip; [calm|intros ts]. cbv zeta. apply secures_lock, secures_skip; [calm|].
  intros [key|]; [|done]. set (h := mkPacketHeader _ _ _ _ _ _).
  apply (secures_bind _ _ _ (λ p _, secret h p)).
  - apply secures_value; [unfold Session.seal; calm|]. intros w p Hp. by eapply secret_seal, Hp.
  - intros p g' Hp. apply secures_transmit. by right.
Qed.

Lemma secures_send_audio g payload : secures g (send_audio_t payload) whatever.
Proof.
  unfold send_audio_t, load. apply (secures_bind _ _ _ whatever); [secures|intros st g1 _].
  case_decide; [done|]. apply (secures_bind _ _ _ whatever); [secures|intros [peer|] g2 _]; [|done].
  do 4 (apply secures_skip; [calm|intros ?]). cbv zeta.
  apply (secures_bind _ _ _ (λ wire g', g' = true ∨ secret wire.1 wire.2)).
  { apply secures_lock. eapply secures_bind; [apply secures_read_key|]. intros key g3 Hg3.
    apply secures_value; [unfold protect, Session.seal; calm|]. intros w wire.
    destruct key as [key|]; [|by left; apply Hg3]. unfold protect, mbind, SM_bind.
    destruct (Session.seal key _ _ _ _ w) as [w' []] eqn:Hs; [|done..]. intros [= <-].
    right. apply (f_equal snd) in Hs. by eapply secret_seal, Hs. }
  intros [h p] g4 Hwire. apply (secures_bind _ _ _ whatever); [by apply secures_transmit|].
  intros _ g5 _. unfold feed_fec_t, fec_enc_push. secures. apply secures_send_fec.
Qed.

Lemma not_audio msg :
  match msg with AudioFrame | AudioFec | Extension _ => False | _ => True end →
  ¬ audio_type (MessageType_code msg).
Proof.
  destruct msg; intros Hm [E|E]; first [exact (False_ind _ Hm)|vm_compute in E; discriminate E].
Qed.

Ltac secures_control := secures; try (apply secures_send_control; by apply not_audio).

Lemma secures_dispatch g view raw : secures g (dispatch_packet_t view raw) whatever.
Proof.
  unfold dispatch_packet_t, dispatch_audio_t, deliver_audio_t, dispatch_fec_t, fec_dec_push_data,
    fec_dec_push_parity, set_bitrate, load, store.
  secures_control.
Qed.

Lemma secures_on_datagram g data : secures g (on_datagram_t data) whatever.
Proof. unfold on_datagram_t, store. secures. apply secures_dispatch. Qed.

Lemma secures_recv_loop fuel skip : ∀ g deadline,
  secures g (recv_audio_loop_t fuel skip deadline) whatever.
Proof.
  induction fuel as [|fuel IH]; intros g deadline; [done|]. cbn [recv_audio_loop_t].
  secures; auto using secures_on_datagram.
Qed.

(** [close] announces itself before it clears the key. *)
Lemma secures_close g : secures g close_t whatever.
Proof.
  unfold close_t, store, load. apply (secures_bind _ _ _ (λ _ g', g' = true)).
  { apply twp_act. intros w [Hg Hw]. exists true. split; [by split|]. by split; [intros ?|]. }
  intros _ g1 ->. apply (secures_bind _ _ _ whatever); [|intros _ g2 _; secures_control].
  apply secures_lock, twp_act. intros w [Hg Hw]. exists true.
  split; [|by split; [intros ?|]]. split; [by intros _; apply Hg|]. simpl. by rewrite Hg.
Qed.

Lemma secures_recv_session_confirm fuel peer sid : ∀ g,
  secures g (recv_session_confirm_t fuel peer sid) whatever.
Proof. induction fuel; cbn [recv_session_confirm_t]; secures; auto. Qed.
Lemma secures_client_loop fuel r peer hello : ∀ g attempt,
  secures g (handshake_client_loop_t fuel r peer hello attempt) whatever.
Proof.
  induction fuel as [|fuel IH]; intros g attempt; cbn [handshake_client_loop_t];
    unfold client_finish_t, install_keys_t, load, store; secures_control;
    auto using secures_recv_session_confirm.
Qed.
Lemma secures_wait_client_hello fuel peer : ∀ g, secures g (wait_client_hello_t fuel peer) whatever.
Proof. induction fuel; cbn [wait_client_hello_t]; secures; auto. Qed.
Lemma secures_wait_client_hello_any fuel : ∀ g, secures g (wait_client_hello_any_t fuel) whatever.
Proof. induction fuel; cbn [wait_client_hello_any_t]; unfold load; secures; auto. Qed.
Lemma secures_wait_key_exchange fuel peer sid payload : ∀ g,
  secures g (wait_key_exchange_t fuel peer sid payload) whatever.
Proof. induction fuel; cbn [wait_key_exchange_t]; unfold load; secures_control; auto. Qed.
Lemma secures_server_finish g fuel r peer h : secures g (server_finish_t fuel r peer h) whatever.
Proof.
  unfold server_finish_t, choose_codec_t, install_keys_t, load, store. secures_control.
  apply secures_wait_key_exchange.
Qed.
Lemma secures_open_loop attempts fuel : ∀ g rnd,
  secures g (handshake_open_loop_t attempts fuel rnd) whatever.
Proof.
  induction attempts as [|attempts IH]; intros g rnd; cbn [handshake_open_loop_t];
    unfold transition_t, transition_or_t, restart_t, handshake_server_any_t, load, store;
    secures; auto using secures_wait_client_hello_any, secures_server_finish.
Qed.

Lemma secures_call g c : secures g (call_t c) whatever.
Proof.
  destruct c; cbn [call_t]; unfold no_frame;
    first [apply (secures_bind _ _ _ whatever); [|done]|idtac].
  - unfold handshake_as_client_t, handshake_client_t, handshake_result_t, transition_or_t,
      transition_t, load, store.
    secures. apply secures_client_loop.
  - unfold handshake_as_server_t, handshake_server_t, handshake_result_t, transition_or_t,
      transition_t, store.
    secures; auto using secures_wait_client_hello, secures_server_finish.
  - unfold handshake_open_t, transition_or_t. secures. apply secures_open_loop.
  - apply secures_send_audio.
  - unfold recv_audio_t, load. secures. apply secures_recv_loop.
  - unfold poll_once_t, send_heartbeat_t, check_liveness_t, load, store. secures_control.
    apply secures_on_datagram.
  - unfold ptt_press_t, load, store. secures_control.
  - unfold ptt_release_t, load, store. secures_control.
  - apply secures_close.
Qed.

Definition pool_secret (p : pool) : Prop :=
  secret_inv false (p_world p)
  ∧ ∃ gs, Forall2 (λ th g, (g = true → s_closed (w_sess (p_world p)) = true)
                           ∧ secures g th.2 whatever) (p_threads p) gs.

Lemma pool_secret_run p p' : run_step p p' → pool_secret p → pool_secret p'.
Proof.
  intros [i q q' Hs] [[_ Hw] [gs Hgs]]. destruct (step_at_inv _ _ _ Hs) as (held & t & Hi & Ht).
  destruct (Forall2_lookup_l _ _ _ _ _ Hgs Hi) as (g & Hg & Hc & Hwp). cbn [snd] in Hwp.
  destruct t as [o|f|l t|l t]; [done| |destruct Ht as [_ ->]|subst q'].
  - subst q'. specialize (Hwp (p_world q) (conj Hc Hw)). destruct (f (p_world q)) as [w t].
    destruct Hwp as (g' & [Hc' Hw'] & Hstay & Ht). split; [by split|]. exists (<[i := g']> gs).
    apply Forall2_insert; [|done]. eapply Forall2_impl; [exact Hgs|]. intros th g1 [Hc1 ?].
    split; [|done]. intros E. by apply Hstay, Hc1.
  - destruct Hwp as (g' & -> & Ht). split; [by split|]. exists (<[i := g]> gs).
    by apply Forall2_insert.
  - destruct Hwp as (g' & -> & Ht). split; [by split|]. exists (<[i := g]> gs).
    by apply Forall2_insert.
Qed.

Lemma pool_secret_step p p' : pool_step p p' → pool_secret p → pool_secret p'.
Proof.
  intros [q q' Hr|c w ts Hc|i w ts]; [by apply pool_secret_run|..]; intros [Hw [gs Hgs]];
    (split; [done|]).
  - exists (gs ++ [false]). apply Forall2_app; [done|]. constructor; [|done].
    split; [done|apply secures_call].
  - exists (delete i gs). by apply Forall2_delete.
Qed.

(** C17: audio is sealed until the session is closed: starting from a keyed
    session that has sent nothing, in every interleaving of any calls, as long
    as no [close] has begun every packet on the wire that carries audio or
    parity is marked as encrypted, and every packet marked so was sealed under
    the nonce of its own sequence number with its own header as associated
    data. *)
Theorem audio_sealed_until_close w p :
  is_Some (s_encrypt_key (w_sess w)) → s_closed (w_sess w) = false → w_out w = [] →
  rtc pool_step (mkPool w []) p → s_closed (w_sess (p_world p)) = false →
  Forall (λ dp, secret_packet dp.1) (w_out (p_world p)).
Proof.
  intros Hk Hc Ho Hp Hc'. assert (pool_secret p) as [[_ Hw] _].
  { assert (pool_secret (mkPool w [])) as H0'.
    { split; [|by exists []]. split; [done|]. intros _. split; [done|]. simpl. by rewrite Ho. }
    clear Hc'. induction Hp; eauto using pool_secret_step. }
  by apply Hw.
Qed.
End secrecy_ops.

(** ** Closing while a frame is being sent *)

Section close_race.
Context `{Env} `{Aead} `{Kex}.

Lemma steps_act {A B} (m : SM A) (f : A → task B) w w' a :
  m w = (w', Done a) → steps_to (act m ≫= f) w w' (f a).
Proof. intros E. simpl. by rewrite E. Qed.
Lemma steps_act_any {A B} (m : SM A) (f : A → task B) w w' o :
  m w = (w', o) → steps_to (act m ≫= f) w w' (TRet o ≫= f).
Proof. intros E. simpl. by rewrite E. Qed.
Lemma steps_bind {A B} (t t' : task A) (f : A → task B) w w' :
  steps_to t w w' t' → steps_to (t ≫= f) w w' (t' ≫= f).
Proof. destruct t; simpl; [done| |done|done]. by intros ->. Qed.

Lemma pool_steps_to i w ts held t w' t' :
  ts !! i = Some (held, t) → steps_to t w w' t' →
  pool_step (mkPool w ts) (mkPool w' (<[i := (held, t')]> ts)).
Proof.
  intros Hi Ht. apply PoolRun, (RunAt i). unfold step_at. cbn [p_threads p_world]. rewrite Hi.
  destruct t; simpl in Ht; [done| |done|done]. by rewrite Ht.
Qed.

(** A thread about to transmit a packet that fits puts it on the wire. *)
Lemma transmit_sends i w ts held h payload peer (K : unit → task unit) :
  ts !! i = Some (held, no_frame (transmit_t h payload peer ≫= K)) →
  packet_wf h payload →
  (HEADER_SIZE + length payload + 4 ≤ cfg_mtu (s_config (w_sess w)))%nat →
  ∃ p', rtc pool_step (mkPool w ts) p'
    ∧ w_out (p_world p') = w_out w ++ [(packet_image h payload, peer)].
Proof.
  intros Hi Hwf Hmtu. set (buf := replicate (cfg_mtu (s_config (w_sess w))) 0).
  assert (PacketBuilder_encode h payload buf = Ok ((HEADER_SIZE + length payload + 4)%nat,
    packet_image h payload ++ drop (HEADER_SIZE + length payload + 4) buf)) as Henc.
  { apply PacketBuilder_encode_image; [done|]. subst buf. by rewrite length_replicate. }
  pose proof (lookup_lt_Some _ _ _ Hi) as Hlt. eexists. split.
  - unfold no_frame, transmit_t, load in Hi. eapply rtc_l.
    { eapply pool_steps_to; [exact Hi|]. do 2 apply steps_bind. by apply steps_act. }
    eapply rtc_l.
    { eapply pool_steps_to; [by apply list_lookup_insert_eq|]. do 2 apply steps_bind.
      apply steps_act. unfold proto. fold buf. rewrite Henc. reflexivity. }
    eapply rtc_once, pool_steps_to; [by apply list_lookup_insert_eq; rewrite length_insert|].
    do 2 apply steps_bind. by apply steps_act_any.
  - cbn [p_world w_out fst snd]. do 3 f_equal.
    rewrite take_app_le, take_ge by (rewrite length_packet_image; lia). done.
Qed.

(** A thread can run a part of its call by itself when no other thread holds
    a lock: the sequential execution is one of the interleavings. *)
Lemma solo_run {A} (t : task A) (f : A → task unit) i ts held' :
  (i < length ts)%nat → (∀ j th, j ≠ i → ts !! j = Some th → th.1 = []) →
  ∀ w held, NoDup held → twp lock_rules t held (λ _ g, g = held') →
  rtc pool_step (mkPool w (<[i := (held, no_frame (t ≫= f))]> ts))
    (mkPool (run_alone t w).1 (<[i := (held', no_frame (TRet (run_alone t w).2 ≫= f))]> ts)).
Proof.
  intros Hi Hothers.
  induction t as [o|g IH|l t IH|l t IH] using task_tree_ind; intros w held Hnd Hwp.
  - simpl in Hwp. subst held'. apply rtc_refl.
  - specialize (Hwp w I). specialize (IH w). cbn [run_alone]. destruct (g w) as [w' t] eqn:E.
    destruct Hwp as (? & _ & -> & Hwp). simpl in IH. eapply rtc_l; [|by eapply IH].
    rewrite <- (list_insert_insert_eq ts i (held, no_frame (t ≫= f))
                  (held, no_frame (TStep g ≫= f))).
    eapply pool_steps_to; [by apply list_lookup_insert_eq|]. do 2 apply steps_bind. exact E.
  - destruct Hwp as (g' & [Hlt ->] & Hwp). cbn [run_alone].
    assert (l ∉ held) as Hl.
    { intros Hin. pose proof (proj1 (Forall_forall _ _) Hlt l Hin) as Hr. simpl in Hr. lia. }
    eapply rtc_l; [|apply IH; [by apply NoDup_cons|exact Hwp]].
    apply PoolRun, (RunAt i). unfold step_at. cbn [p_threads p_world].
    rewrite list_lookup_insert_eq by done.
    cbn [no_frame mbind task_bind tbind_o]. rewrite decide_False; [by rewrite list_insert_insert_eq|].
    intros Htk. apply Exists_exists in Htk as (th & Hin & Hh).
    apply list_elem_of_lookup in Hin as [j Hj]. destruct (decide (j = i)) as [->|Hne].
    + rewrite list_lookup_insert_eq in Hj by done. by injection Hj as <-.
    + rewrite list_lookup_insert_ne in Hj by done. rewrite (Hothers j th Hne Hj) in Hh.
      by apply elem_of_nil in Hh.
  - destruct Hwp as (g' & -> & Hwp). cbn [run_alone]. apply NoDup_cons in Hnd as [Hl Hnd].
    eapply rtc_l; [|by apply (IH w g')].
    apply PoolRun, (RunAt i). unfold step_at. cbn [p_threads p_world].
    rewrite list_lookup_insert_eq by done. cbn [no_frame mbind task_bind tbind_o].
    by rewrite list_insert_insert_eq, filter_head.
Qed.

(** The same for a part that takes its locks in order and releases them. *)
Lemma solo_part {A} (t : task A) (f : A → task unit) i ts w w' a :
  (i < length ts)%nat → (∀ j th, j ≠ i → ts !! j = Some th → th.1 = []) →
  balanced 0 t → run_alone t w = (w', Done a) →
  rtc pool_step (mkPool w (<[i := ([], no_frame (t ≫= f))]> ts))
    (mkPool w' (<[i := ([], no_frame (f a))]> ts)).
Proof.
  intros Hi Hothers Hb Hr. pose proof (solo_run t f i ts [] Hi Hothers w []) as Hs.
  rewrite Hr in Hs. apply Hs; [constructor|]. by apply Hb.
Qed.

(** Two threads between locks: either runs its next part. *)
Lemma first_part {A} (t : task A) (f : A → task unit) other w w' a :
  balanced 0 t → run_alone t w = (w', Done a) →
  rtc pool_step (mkPool w [([], no_frame (t ≫= f)); ([], other)])
    (mkPool w' [([], no_frame (f a)); ([], other)]).
Proof.
  apply (solo_part t f 0 [([], other); ([], other)]); [simpl; lia|].
  intros [|[|j]] th Hj E; simplify_eq/=; done.
Qed.
Lemma second_part {A} (t : task A) (f : A → task unit) other w w' a :
  balanced 0 t → run_alone t w = (w', Done a) →
  rtc pool_step (mkPool w [([], other); ([], no_frame (t ≫= f))])
    (mkPool w' [([], other); ([], no_frame (f a))]).
Proof.
  apply (solo_part t f 1 [([], other); ([], other)]); [simpl; lia|].
  intros [|[|j]] th Hj E; simplify_eq/=; done.
Qed.

(** The session when the sender has taken its numbers and the closer has
    cleared the key, and the header the sender then uses. *)
Definition raced (w : World) : World :=
  mkWorld (set_encrypt_key None (set_closed true
             (set_tx_sequence (wrap32 (s_tx_sequence (w_sess w) + 1))
               (set_audio_tx_seq (wrap32 (s_audio_tx_seq (w_sess w) + 1)) (w_sess w)))))
    (w_out w) (S (w_ticks w)) (w_recvs w).

Definition clear_header (w : World) : PacketHeader :=
  mkPacketHeader 1 Flags_empty (MessageType_code AudioFrame) (s_session_id (w_sess w))
    (s_tx_sequence (w_sess w)) (env_clock (w_ticks w)).

Lemma close_race_prefix w peer payload :
  sm_state (s_state (w_sess w)) = Active → s_peer (w_sess w) = Some peer →
  ∃ rest, rtc pool_step (mkPool w [])
    (mkPool (raced w)
       [([], no_frame (
              transmit_t (clear_header w) (be_bytes 4 (s_audio_tx_seq (w_sess w)) ++ payload) peer
              ≫= λ _, feed_fec_t (s_audio_tx_seq (w_sess w)) payload peer
                        (s_session_id (w_sess w))));
        ([], rest)]).
Proof.
  intros Hact Hpeer. eexists. eapply rtc_trans; [by apply (spawn_two (ScSend payload) ScCloseCall)|].
  cbn [call_t]. unfold send_audio_t.
  eapply rtc_trans.
  { apply (first_part _ _ _ _ w Active); [unfold load; balanced|]. rewrite run_with_lock. simpl. by rewrite Hact. }
  cbv beta. rewrite decide_False by auto. eapply rtc_trans.
  { apply (first_part _ _ _ _ w (Some peer)); [unfold load; balanced|]. rewrite run_with_lock. simpl. by rewrite Hpeer. }
  eapply rtc_trans; [apply first_part; [unfold load; balanced|reflexivity]|].
  eapply rtc_trans; [apply first_part; [unfold load; balanced|reflexivity]|].
  eapply rtc_trans; [apply first_part; [unfold load; balanced|reflexivity]|].
  eapply rtc_trans; [apply first_part; [unfold load; balanced|reflexivity]|].
  unfold close_t.
  eapply rtc_trans; [apply second_part; [unfold store; balanced|reflexivity]|].
  eapply rtc_trans; [apply second_part; [unfold store; balanced|reflexivity]|].
  cbv zeta. eapply rtc_trans; [apply first_part; [unfold load; balanced|reflexivity]|].
  apply rtc_refl.
Qed.

(** C18: a frame can leave in the clear when a session is closed while it is
    being sent: for every active session, whatever its keys, there is an
    interleaving of one [send_audio] and one [close] in which the frame is
    sent with its payload unencrypted, in a well-formed packet whose header
    says so.  [close] clears the key before it leaves the [Active] state, and
    [send_audio] checks the state before it reads the key. *)
Theorem close_race_cleartext w key peer payload :
  can_send w key peer payload →
  ∃ p view, rtc pool_step (mkPool w []) p
    ∧ w_out (p_world p) = w_out w ++ [(packet_image (pv_header view) (pv_payload view), peer)]
    ∧ PacketView_decode (packet_image (pv_header view) (pv_payload view)) = Ok view
    ∧ ph_flags (pv_header view) = Flags_empty
    ∧ pv_payload view = be_bytes 4 (s_audio_tx_seq (w_sess w)) ++ payload.
Proof.
  intros [Hact Hpeer Hkey Hsid Htx Haq Hbytes Hclk Hsize Hmtu Hnet].
  set (plain := be_bytes 4 (s_audio_tx_seq (w_sess w)) ++ payload).
  assert (length plain = (4 + length payload)%nat) as Hlen.
  { subst plain. by rewrite length_app, length_be_bytes. }
  assert (packet_wf (clear_header w) plain) as Hwf.
  { split_and!; [|done|by apply Forall_app; split; [apply bytes_be_bytes|]|lia].
    unfold PacketHeader_wf. simpl. split_and!; try done; unfold u8, Flags_empty; simpl; lia. }
  destruct (close_race_prefix w peer payload Hact Hpeer) as [rest Hpre].
  set (ts := [(_, _); ([], rest)]) in Hpre.
  edestruct (transmit_sends 0 (raced w) ts [] (clear_header w) plain peer)
    as (p & Hp & Hout); [reflexivity|done|simpl; unfold HEADER_SIZE; lia|].
  exists p, (mkPacketView (clear_header w) plain). split_and!; [by eapply rtc_trans|exact Hout| |done..].
  by apply PacketView_decode_image.
Qed.
End close_race.

(** ** Runs of the pool *)

Lemma close_race_cleartext_witness :
  ∃ p view, rtc (pool_step (H := quiet_env) (H0 := toy_aead)) (mkPool keyed_world []) p
    ∧ w_out (p_world p) = [(packet_image (pv_header view) (pv_payload view), sample_peer)]
    ∧ ph_flags (pv_header view) = Flags_empty
    ∧ pv_payload view = [0; 0; 0; 0; 5; 6; 7].
Proof.
  destruct (close_race_cleartext (H := quiet_env) (H0 := toy_aead) keyed_world (replicate 32 1)
              sample_peer [5; 6; 7]) as (p & view & Hp & Hout & _ & Hf & Hv).
  - split; try reflexivity; try (apply (bool_decide_unpack _); vm_compute; exact I).
  - exists p, view. split_and!; [exact Hp|exact Hout|exact Hf|exact Hv].
Defined.

Lemma audio_sealed_until_close_witness :
  ∃ p, length (w_out (p_world p)) = 2%nat
    ∧ Forall (λ dp, secret_packet (H0 := toy_aead) dp.1) (w_out (p_world p)).
Proof.
  destruct two_senders_run as (p & Hp%rtc_nsteps_2 & Hout & _ & Hc). exists p. split; [exact Hout|].
  apply (audio_sealed_until_close (H := quiet_env) (H0 := toy_aead) keyed_world p);
    [by eexists|reflexivity|reflexivity|exact Hp|exact Hc].
Defined.

(** ** Concurrent senders and forward error correction *)

Definition sender (payload : list Z) : thread :=
  ([], call_t (H := quiet_env) (H0 := toy_aead) (ScSend payload)).

Definition four_frames : pool :=
  mkPool keyed_world [sender [10; 10]; sender [11; 11]; sender [12; 12]; sender [13; 13]].

(** The datagrams of a schedule without the second, received by the peer: the
    sequence numbers in its jitter buffer. *)
Definition received_without_second (sched : list nat) : list Z :=
  let datagrams :=
    match run_schedule sched four_frames with
    | Some p => (w_out (p_world p)).*1
    | None => []
    end in
  let peer :=
    foldl (λ w d, (on_datagram (H := quiet_env) (H0 := toy_aead) d w).1)
      (mkWorld (sample_session (replicate 32 2) (replicate 32 1)) [] 0 0) (delete 1%nat datagrams) in
  sl_sequence <$> filter (λ sl, sl_occupied sl = true) (jb_slots (s_jitter (w_sess peer))).

(** The calls one after the other, and with the first and second feeding the
    FEC encoder in the other order. *)
Definition in_order : list nat :=
  replicate 22 0%nat ++ replicate 22 1%nat ++ replicate 22 2%nat ++ replicate 33 3%nat.
Definition out_of_order : list nat :=
  replicate 19 0%nat ++ replicate 22 1%nat ++ replicate 3 0%nat ++ replicate 22 2%nat
  ++ replicate 33 3%nat.

(** When frames reach the FEC encoder out of order, the parity of the group
    starts at the wrong frame and the receiver cannot use it: the frame that
    is recovered when the calls run one after the other stays lost.  (The
    counter is read and the encoder fed in separate steps.) *)
Example fec_order_race :
  received_without_second in_order = [0; 1; 2; 3]
  ∧ received_without_second out_of_order = [0; 2; 3].
Proof. split; vm_compute; reflexivity. Qed.
