(* ===== verification/JitterRace.v ===== *)
(** * The jitter buffer between two threads

    [gravital-talk-transport/src/jitter_buffer.rs] is documented as safe for
    one producer and one consumer.  Here the two run interleaved at the level
    of the buffer's atomics ([JitterTasks.v]): one thread pushes frames, the
    other pops them with deadlines. *)

From Stdlib Require Import Sorted.
From S2P Require Import Prelude.
From S2P Require Import CoreTypes.
From S2P Require Import JitterBuffer.
From S2P Require Import Transport.
From S2P Require Import Session.
From S2P Require Import Agreement.
From S2P Require Import Task.
From S2P Require Import JitterTasks.
From S2P Require Import Interleave.
From stdpp Require Import strings list relations.
#[local] Open Scope Z_scope.

(** ** The two threads *)

(** Pushes the frames in turn and returns those that were accepted. *)
Fixpoint produce (frames : list Frame) : task (list Frame) :=
  match frames with
  | [] => mret []
  | f :: frames =>
      accepted ← jb_push_t f;
      rest ← produce frames;
      mret (if accepted : bool then f :: rest else rest)
  end.

(** Pops once for each pair of current time and deadline, and returns the
    frames it gets. *)
Fixpoint consume (pops : list (Z * Z)) : task (list Frame) :=
  match pops with
  | [] => mret []
  | (now_us, deadline_us) :: pops =>
      popped ← jb_pop_with_deadline_t now_us deadline_us;
      rest ← consume pops;
      mret (match popped with Some f => f :: rest | None => rest end)
  end.

Record duo : Type := mkDuo {
  du_world : World;
  du_producer : task (list Frame);
  du_consumer : task (list Frame);
}.

Inductive duo_step : duo → duo → Prop :=
  | DuoProducer w w' tp tp' tc :
      steps_to tp w w' tp' → duo_step (mkDuo w tp tc) (mkDuo w' tp' tc)
  | DuoConsumer w w' tp tc tc' :
      steps_to tc w w' tc' → duo_step (mkDuo w tp tc) (mkDuo w' tp tc').

(** ** One of two threads

    The invariant [I] relates the ghost states of the two threads and the
    buffer; a step of one thread keeps it whatever the state of the other. *)

Section role.
Context {G G' : Type} (I : G → G' → JitterBuffer → Prop).

Definition jb_of (w : World) : JitterBuffer := s_jitter (w_sess w).

Definition role_rules : rules G := mkRules
  (λ g w, ∃ g', I g g' (jb_of w))
  (λ g w w' g1, ∀ g', I g g' (jb_of w) → I g1 g' (jb_of w'))
  (λ _ _ _, False) (λ _ _ _, False).

(** [t] keeps the invariant, neither fails nor panics, and ends in [Q]. *)
Definition role {A} (g : G) (t : task A) (Q : A → G → Prop) : Prop :=
  twp role_rules t g (λ o g', match o with Done a => Q a g' | _ => False end).

Lemma role_ret {A} g (a : A) (Q : A → G → Prop) : Q a g → role g (mret a) Q.
Proof. done. Qed.
Lemma role_bind {A B} g (t : task A) (f : A → task B) P Q :
  role g t P → (∀ a g', P a g' → role g' (f a) Q) → role g (t ≫= f) Q.
Proof.
  intros Ht Hf. apply twp_bind. eapply twp_mono; [|exact Ht]. intros [a|e|] g'; simpl; [|done..].
  apply Hf.
Qed.
Lemma role_mono {A} g (t : task A) (P Q : A → G → Prop) :
  (∀ a g', P a g' → Q a g') → role g t P → role g t Q.
Proof. intros HPQ. apply twp_mono. intros [] ?; auto. Qed.

(** One step, with the ghost state after it. *)
Lemma role_act {A} g (m : SM A) (Q : A → G → Prop) :
  (∀ w, (∃ g', I g g' (jb_of w)) →
   ∃ a g1, (m w).2 = Done a ∧ Q a g1
     ∧ ∀ g', I g g' (jb_of w) → I g1 g' (jb_of (m w).1)) →
  role g (act m) Q.
Proof.
  intros Hm. apply twp_act. intros w Hw. destruct (Hm w Hw) as (a & g1 & Ha & HQ & Hs).
  exists g1. rewrite Ha. destruct Hw as [g' Hg']. split; [by exists g'; apply Hs|]. by split.
Qed.
Lemma role_load {A} g (f : JitterBuffer → A) (Q : A → G → Prop) :
  (∀ jb, (∃ g', I g g' jb) → ∃ g1, Q (f jb) g1 ∧ ∀ g', I g g' jb → I g1 g' jb) →
  role g (jb_load f) Q.
Proof.
  intros Hf. apply role_act. intros w Hw. destruct (Hf _ Hw) as (g1 & HQ & Hs).
  by exists (f (jb_of w)), g1.
Qed.
Lemma role_store g f g1 (Q : unit → G → Prop) :
  (∀ jb g', I g g' jb → I g1 g' (f jb)) → Q tt g1 → role g (jb_store f) Q.
Proof.
  intros Hf HQ. apply role_act. intros w _. exists tt, g1. split; [done|]. split; [done|].
  intros g'. apply Hf.
Qed.
Lemma role_slot_ref g q (Q : nat → G → Prop) :
  u32 q → (∀ jb g', I g g' jb → jb_typed jb) →
  (∀ jb, (∃ g', I g g' jb) → Q (slot_index jb q) g) → role g (slot_ref q) Q.
Proof.
  intros Hq Ht HQ. apply role_act. intros w Hw. exists (slot_index (jb_of w) q), g.
  destruct Hw as [g' Hg'] eqn:E. destruct (slot_typed_at (jb_of w) q) as (sl & Hsl & _);
    [by eapply Ht|ulia|].
  unfold mbind, SM_bind, may_panic. simpl. fold (jb_of w). rewrite Hsl. simpl.
  split_and!; [done| |done]. apply HQ. by exists g'.
Qed.
End role.

(** ** The invariant *)

Section invariant.
Context (frames : list Frame) (mask : Z) (lossless : bool).

(** What the producer is doing, and the frames it has pushed. *)
Inductive pphase : Type :=
  | PNew                (* nothing was pushed, the buffer is not primed *)
  | PSet                (* the cursor is set, the buffer not yet primed *)
  | PIdle
  | PSaw (f : Frame)    (* the slot was occupied *)
  | PWrite (f : Frame)  (* the slot is free, or holds the same number *)
  | PFrame (f : Frame)  (* the frame is written *)
  | PSeq (f : Frame).   (* the number is written *)
Record pghost : Type := mkPghost { pg_acc : list Frame; pg_phase : pphase }.

Definition started (ph : pphase) : bool := match ph with PNew | PSet => false | _ => true end.

(** Where the cursor starts: at the first frame pushed. *)
Definition first_seq : Z := from_option fr_sequence 0 (head frames).

(** What the consumer is doing, the frames it has got, and the cursor it
    knows: where it first saw it, and by how much it has advanced it. *)
Inductive cphase : Type :=
  | CIdle
  | COcc                        (* the slot at the cursor is occupied *)
  | CReady                      (* and it holds the number of the cursor *)
  | CTook (o : option Frame)    (* its frame is taken *)
  | CFreed (o : option Frame).  (* the slot is free *)
Record cghost : Type := mkCghost {
  cg_log : list Frame;
  cg_cur : option (Z * Z);
  cg_phase : cphase;
}.

Definition frame_is (sl : Slot) (q : Z) : Prop :=
  match sl_frame sl with Some f => fr_sequence f = q | None => True end.

Definition slot_inv (sl : Slot) : Prop :=
  (∀ f, sl_frame sl = Some f → f ∈ frames)
  ∧ (sl_occupied sl = true → frame_is sl (sl_sequence sl)).

Definition slot_for (jb : JitterBuffer) (q : Z) : Slot := slot_of jb (slot_index jb q).

Definition new_number (acc : list Frame) (f : Frame) : Prop :=
  lossless = true → fr_sequence f ∉ (fr_sequence <$> acc).

Definition pslot (g : pghost) (jb : JitterBuffer) : Prop :=
  match pg_phase g with
  | PNew | PIdle => True
  | PSet => jb_next_seq jb = first_seq
  | PSaw f =>
      f ∈ frames ∧ new_number (pg_acc g) f
      ∧ (lossless = true → sl_sequence (slot_for jb (fr_sequence f)) ∈ (fr_sequence <$> pg_acc g))
  | PWrite f =>
      let sl := slot_for jb (fr_sequence f) in
      f ∈ frames ∧ new_number (pg_acc g) f
      ∧ (sl_occupied sl = true → sl_sequence sl = fr_sequence f ∧ lossless = false)
  | PFrame f =>
      let sl := slot_for jb (fr_sequence f) in
      f ∈ frames ∧ new_number (pg_acc g) f
      ∧ (sl_occupied sl = true → sl_sequence sl = fr_sequence f ∧ lossless = false)
      ∧ frame_is sl (fr_sequence f) ∧ (lossless = true → sl_frame sl = Some f)
  | PSeq f =>
      let sl := slot_for jb (fr_sequence f) in
      f ∈ frames ∧ new_number (pg_acc g) f
      ∧ (sl_occupied sl = true → lossless = false) ∧ sl_sequence sl = fr_sequence f
      ∧ frame_is sl (fr_sequence f) ∧ (lossless = true → sl_frame sl = Some f)
  end.

Definition pfact (g : pghost) (jb : JitterBuffer) : Prop :=
  jb_primed jb = started (pg_phase g) ∧ pslot g jb.

Definition got (o : option Frame) (n : Z) : Prop :=
  match o with Some f => fr_sequence f = n ∧ f ∈ frames | None => True end.

(** At the cursor [n]. *)
Definition cfact_at (ph : cphase) (n : Z) (jb : JitterBuffer) : Prop :=
  let sl := slot_for jb n in
  match ph with
  | CIdle => True
  | COcc => sl_occupied sl = true
  | CReady => sl_occupied sl = true ∧ sl_sequence sl = n
  | CTook o =>
      sl_occupied sl = true ∧ sl_sequence sl = n ∧ got o n
      ∧ (lossless = true → sl_frame sl = None)
  | CFreed o => got o n
  end.

Definition cfact (g : cghost) (jb : JitterBuffer) : Prop :=
  match cg_cur g with
  | None => (cg_phase g = CIdle ∧ cg_log g = []) ∧ (jb_primed jb = true → jb_next_seq jb = first_seq)
  | Some (b, k) =>
      (u32 b ∧ b = first_seq) ∧ 0 ≤ k ∧ jb_primed jb = true ∧ jb_next_seq jb = wrap32 (b + k)
      ∧ cfact_at (cg_phase g) (wrap32 (b + k)) jb
      ∧ ∃ ks, Forall2 (λ f i, f ∈ frames ∧ fr_sequence f = wrap32 (b + i)) (cg_log g) ks
          ∧ StronglySorted Z.lt ks ∧ Forall (λ i, 0 ≤ i < k) ks
  end.

Definition held (ph : cphase) (f : Frame) : Prop :=
  match ph with CTook o | CFreed o => o = Some f | _ => False end.

(** Where an accepted frame is. *)
Definition whereabouts (gc : cghost) (jb : JitterBuffer) (f : Frame) : Prop :=
  f ∈ cg_log gc ∨ held (cg_phase gc) f
  ∨ (let sl := slot_for jb (fr_sequence f) in
     sl_occupied sl = true ∧ sl_sequence sl = fr_sequence f ∧ sl_frame sl = Some f).

Record duo_inv (gp : pghost) (gc : cghost) (jb : JitterBuffer) : Prop := {
  di_typed : jb_typed jb;
  di_mask : jb_mask jb = mask;
  di_slots i : slot_inv (slot_of jb i);
  di_producer : pfact gp jb;
  di_consumer : cfact gc jb;
  di_kept : lossless = true → Forall (whereabouts gc jb) (pg_acc gp);
  di_owned : lossless = true → ∀ i, sl_occupied (slot_of jb i) = true →
    sl_sequence (slot_of jb i) ∈ (fr_sequence <$> pg_acc gp);
}.

(** ** Steps on one slot *)

Lemma slot_of_update jb idx h j :
  (idx < length (jb_slots jb))%nat →
  slot_of (update_slot idx h jb) j = if decide (j = idx) then h (slot_of jb idx) else slot_of jb j.
Proof.
  intros Hlt. unfold slot_of at 1. simpl. case_decide as E.
  - subst j. by rewrite list_lookup_insert_eq.
  - by rewrite list_lookup_insert_ne.
Qed.

Section step.
Context (gp gp' : pghost) (gc gc' : cghost) (jb : JitterBuffer) (q : Z) (h : Slot → Slot).
Let idx := slot_index jb q.
Let sl := slot_of jb idx.
Let jb' := update_slot idx h jb.
Context (Hinv : duo_inv gp gc jb) (Hq : u32 q).

Lemma idx_lt : (idx < length (jb_slots jb))%nat.
Proof.
  destruct (slot_typed_at jb q (di_typed _ _ _ Hinv)) as (s & _ & E & _); [ulia|].
  by eapply lookup_lt_Some.
Qed.

Lemma slot_for_update q' :
  slot_for jb' q' = if decide (slot_index jb q' = idx) then h sl else slot_for jb q'.
Proof. unfold slot_for. subst jb'. rewrite slot_of_update by apply idx_lt. done. Qed.

(** The parts of the invariant that are about each slot by itself. *)
Lemma slot_step :
  slot_typed (h sl) → slot_inv (h sl) →
  pfact gp' jb' → cfact gc' jb' →
  (lossless = true → Forall (whereabouts gc' jb') (pg_acc gp')) →
  (lossless = true → pg_acc gp ⊆ pg_acc gp'
    ∧ (sl_occupied (h sl) = true → sl_sequence (h sl) ∈ (fr_sequence <$> pg_acc gp'))) →
  duo_inv gp' gc' jb'.
Proof.
  intros Ht Hi Hp Hc Hk Ho. pose proof idx_lt as Hlt. split; [|apply Hinv|intros i|done|done|done|].
  - apply jb_typed_with; [apply Hinv|exact Ht|apply Hinv].
  - subst jb'. rewrite slot_of_update by done. case_decide; [done|apply Hinv].
  - intros Hl i. subst jb'. rewrite slot_of_update by done. destruct (Ho Hl) as [Hsub Hs].
    case_decide; [apply Hs|]. intros Hocc. pose proof (di_owned _ _ _ Hinv Hl i Hocc) as Hin.
    apply list_elem_of_fmap in Hin as (f & -> & Hin). by apply list_elem_of_fmap_2, Hsub.
Qed.

(** The producer changes an occupied slot only in its frame. *)
Lemma cfact_step :
  (sl_occupied sl = true → sl_occupied (h sl) = true ∧ sl_sequence (h sl) = sl_sequence sl
     ∧ (lossless = true → sl_frame (h sl) = sl_frame sl)) →
  cfact gc jb'.
Proof.
  intros Hh. pose proof (di_consumer _ _ _ Hinv) as Hc. unfold cfact in *.
  destruct (cg_cur gc) as [[b k]|]; [|done].
  destruct Hc as (Hb & Hk & Hp & Hn & Hat & Hks). do 4 (split; [done|]). split; [|done].
  unfold cfact_at in *. rewrite slot_for_update. case_decide as E; [|done].
  unfold slot_for in Hat. rewrite E in Hat. fold sl in Hat.
  destruct (cg_phase gc) as [| | |o|o]; [done|..|done].
  - by apply Hh.
  - destruct Hat as [Ho Hs]. destruct (Hh Ho) as (Ho' & Hs' & _). split; congruence.
  - destruct Hat as (Ho & Hs & Hg & Hf). destruct (Hh Ho) as (Ho' & Hs' & Hf').
    split; [done|]. split; [congruence|]. split; [done|]. intros Hll. rewrite Hf'; auto.
Qed.

Lemma whereabouts_step f :
  lossless = true →
  (sl_occupied sl = true → sl_occupied (h sl) = true ∧ sl_sequence (h sl) = sl_sequence sl
     ∧ (lossless = true → sl_frame (h sl) = sl_frame sl)) →
  whereabouts gc jb f → whereabouts gc jb' f.
Proof.
  intros Hl Hh [Hf|[Hf|(Ho & Hs & Hf)]]; [by left|by right; left|]. right. right. cbv zeta.
  rewrite slot_for_update. case_decide as E; [|done].
  unfold slot_for in Ho, Hs, Hf. rewrite E in Ho, Hs, Hf. fold sl in Ho, Hs, Hf.
  destruct (Hh Ho) as (Ho' & Hs' & Hf'). split; [done|]. split; [congruence|].
  rewrite Hf'; auto.
Qed.

(** The consumer frees slots and takes frames; when nothing may be lost, only
    from an occupied slot. *)
Lemma pfact_step :
  (sl_occupied (h sl) = true → sl_occupied sl = true) → sl_sequence (h sl) = sl_sequence sl →
  sl_frame (h sl) = sl_frame sl ∨ sl_frame (h sl) = None →
  (lossless = true → sl_occupied sl = true) →
  pfact gp jb'.
Proof.
  intros Ho Hs Hf Hl. destruct (di_producer _ _ _ Hinv) as [Hst Hp]. split; [done|].
  unfold pslot in *.
  assert (∀ r, frame_is sl r → frame_is (h sl) r) as His.
  { intros r. unfold frame_is. by destruct Hf as [->| ->]. }
  destruct (pg_phase gp) as [| | |f|f|f|f]; [done|done|done|..]; cbv zeta in Hp |- *;
    rewrite slot_for_update; (case_decide as E; [|done]); unfold slot_for in Hp;
    rewrite E in Hp; fold sl in Hp.
  - by rewrite Hs.
  - destruct Hp as (? & ? & Hq'). split; [done|]. split; [done|]. rewrite Hs. auto.
  - destruct Hp as (? & ? & Hq' & ? & ?). split; [done|]. split; [done|].
    split; [rewrite Hs; auto|]. split; [auto|]. intros Hll. destruct (Hq' (Hl Hll)). congruence.
  - destruct Hp as (? & ? & Hq' & ? & ? & ?). split; [done|]. split; [done|].
    split; [auto|]. split; [congruence|]. split; [auto|].
    intros Hll. specialize (Hq' (Hl Hll)). congruence.
Qed.
End step.

(** A step that moves the cursor, or only changes what the threads know. *)
Lemma cursor_step gp gp' gc gc' jb n p :
  duo_inv gp gc jb → u32 n → pg_acc gp' = pg_acc gp →
  pfact gp' (set_cursor jb n p) → cfact gc' (set_cursor jb n p) →
  (lossless = true → Forall (whereabouts gc' jb) (pg_acc gp)) →
  duo_inv gp' gc' (set_cursor jb n p).
Proof.
  intros [Ht Hm Hs _ _ _ Ho] Hn Ha Hp Hc Hk.
  split; [by apply jb_typed_cursor|done|done|done|done|rewrite Ha; exact Hk|rewrite Ha; exact Ho].
Qed.

Lemma set_cursor_id jb : set_cursor jb (jb_next_seq jb) (jb_primed jb) = jb.
Proof. by destruct jb. Qed.

Lemma producer_learns acc ph ph' gc jb :
  duo_inv (mkPghost acc ph) gc jb → pfact (mkPghost acc ph') jb →
  duo_inv (mkPghost acc ph') gc jb.
Proof. intros [] Hp. by split. Qed.
Lemma consumer_learns gp log cur ph cur' ph' jb :
  duo_inv gp (mkCghost log cur ph) jb → cfact (mkCghost log cur' ph') jb →
  (∀ f, held ph f → held ph' f) → duo_inv gp (mkCghost log cur' ph') jb.
Proof.
  intros [Ht Hm Hs Hp _ Hk Ho] Hc Hh. split; try done. intros Hl.
  eapply Forall_impl; [by apply Hk|]. intros f [Hf|[Hf|Hf]]; [by left|right; left; by apply Hh|].
  by right; right.
Qed.

(** ** The producer *)

Definition slot_no (q : Z) : nat := Z.to_nat (Z.land q mask).

Lemma slot_no_index gp gc jb q : duo_inv gp gc jb → slot_index jb q = slot_no q.
Proof. intros Hi. unfold slot_index, slot_no. by rewrite (di_mask _ _ _ Hi). Qed.

Context (Hu : Forall (λ f, u32 (fr_sequence f)) frames).

Lemma frame_u32 f : f ∈ frames → u32 (fr_sequence f).
Proof. intros Hf. by apply (proj1 (Forall_forall _ _) Hu). Qed.

(** The producer writes to the slot of [f], which is free or keeps its number. *)
Lemma producer_writes acc new ph ph' f h gc jb :
  let sl := slot_for jb (fr_sequence f) in
  let jb' := update_slot (slot_index jb (fr_sequence f)) h jb in
  duo_inv (mkPghost acc ph) gc jb → f ∈ frames →
  (sl_occupied sl = true → sl_occupied (h sl) = true ∧ sl_sequence (h sl) = sl_sequence sl
     ∧ (lossless = true → sl_frame (h sl) = sl_frame sl)) →
  slot_typed (h sl) → slot_inv (h sl) → pfact (mkPghost (acc ++ new) ph') jb' →
  (lossless = true → Forall (whereabouts gc jb') new) →
  (lossless = true → sl_occupied (h sl) = true → sl_occupied sl = false →
     sl_sequence (h sl) ∈ (fr_sequence <$> acc ++ new)) →
  duo_inv (mkPghost (acc ++ new) ph') gc jb'.
Proof.
  intros sl jb' Hi Hf Hkeep Ht Hs Hp Hnew Hown. pose proof (frame_u32 f Hf) as Hq.
  eapply (slot_step _ _ gc gc _ _ _ Hi Hq); [done|done|done|..].
  - eapply cfact_step; [exact Hi|done|exact Hkeep].
  - intros Hl. apply Forall_app. split; [|by apply Hnew].
    eapply Forall_impl; [by apply Hi|]. intros g Hg.
    eapply whereabouts_step; [exact Hi|done|done|exact Hkeep|exact Hg].
  - intros Hl. split; [set_solver|]. intros Ho. destruct (sl_occupied sl) eqn:E; [|by apply Hown].
    destruct (Hkeep eq_refl) as (_ & Hseq & _). fold (slot_for jb (fr_sequence f)). fold sl.
    cbn [pg_acc]. rewrite Hseq, fmap_app. apply elem_of_app. left. by apply Hi.
Qed.

(** The three writes of [push]. *)
Lemma writes_frame acc f gc jb :
  duo_inv (mkPghost acc (PWrite f)) gc jb →
  duo_inv (mkPghost acc (PFrame f)) gc
    (update_slot (slot_index jb (fr_sequence f)) (set_frame (Some f)) jb).
Proof.
  intros Hi. pose proof (di_producer _ _ _ Hi) as (Hst & Hf & Hnew & Hocc). cbn [pg_acc] in Hnew.
  pose proof (frame_u32 f Hf) as Hq. rewrite <-(app_nil_r acc).
  eapply (producer_writes _ _ _ _ f); [exact Hi|done|..]; rewrite ?app_nil_r.
  - intros Ho. destruct (Hocc Ho). by split_and!; [..|congruence].
  - split; [apply (slot_typed_of _ _ (di_typed _ _ _ Hi))|done].
  - split; [by intros g [= <-]|]. intros Ho. symmetry. by apply Hocc.
  - split; [exact Hst|]. unfold pslot. cbn [pg_phase pg_acc]. cbv zeta. rewrite (slot_for_update _ _ _ _ _ Hi Hq).
    rewrite decide_True by done. done.
  - constructor.
  - simpl. congruence.
Qed.

Lemma writes_sequence acc f gc jb :
  duo_inv (mkPghost acc (PFrame f)) gc jb →
  duo_inv (mkPghost acc (PSeq f)) gc
    (update_slot (slot_index jb (fr_sequence f)) (set_sequence (fr_sequence f)) jb).
Proof.
  intros Hi. pose proof (di_producer _ _ _ Hi) as (Hst & Hf & Hnew & Hocc & His & Hl).
  cbn [pg_acc] in Hnew. pose proof (frame_u32 f Hf) as Hq. rewrite <-(app_nil_r acc).
  pose proof (di_slots _ _ _ Hi (slot_index jb (fr_sequence f))) as [Hin _].
  eapply (producer_writes _ _ _ _ f); [exact Hi|done|..]; rewrite ?app_nil_r.
  - intros Ho. destruct (Hocc Ho). by split_and!.
  - split; [done|]. apply (slot_typed_of _ _ (di_typed _ _ _ Hi)).
  - by split.
  - split; [exact Hst|]. unfold pslot. cbn [pg_phase pg_acc]. cbv zeta. rewrite (slot_for_update _ _ _ _ _ Hi Hq).
    rewrite decide_True by done. split; [done|]. split; [done|]. split; [intros Ho; by apply Hocc|].
    by split.
  - constructor.
  - simpl. congruence.
Qed.

Lemma writes_occupied acc f gc jb :
  duo_inv (mkPghost acc (PSeq f)) gc jb →
  duo_inv (mkPghost (acc ++ [f]) PIdle) gc
    (update_slot (slot_index jb (fr_sequence f)) (set_occupied true) jb).
Proof.
  intros Hi. pose proof (di_producer _ _ _ Hi) as (Hst & Hf & Hnew & Hocc & Hseq & His & Hl).
  pose proof (frame_u32 f Hf) as Hq.
  pose proof (di_slots _ _ _ Hi (slot_index jb (fr_sequence f))) as [Hin _].
  eapply (producer_writes _ _ _ _ f); [exact Hi|done|..].
  - done.
  - apply (slot_typed_of _ _ (di_typed _ _ _ Hi)).
  - split; [done|]. intros _. cbn [sl_sequence set_occupied]. by rewrite Hseq.
  - done.
  - intros Hll. constructor; [|done]. right. right. cbv zeta.
    rewrite (slot_for_update _ _ _ _ _ Hi Hq), decide_True by done. split_and!; [done|done|].
    by apply Hl.
  - intros _ _ _. cbn [sl_sequence set_occupied]. rewrite Hseq. apply list_elem_of_fmap_2. set_solver.
Qed.

Abbreviation producer := (role duo_inv).

Lemma producer_store g q h g' :
  (∀ jb gc, duo_inv g gc jb → duo_inv g' gc (update_slot (slot_index jb q) h jb)) →
  producer g (slot_store (slot_no q) h) (λ _ g1, g1 = g').
Proof.
  intros Hs. apply (role_store _ _ _ g'); [|done]. intros jb gc Hi.
  rewrite <-(slot_no_index _ _ _ q Hi). by apply Hs.
Qed.

Lemma producer_slot_ref g q : u32 q → producer g (slot_ref q) (λ idx g', idx = slot_no q ∧ g' = g).
Proof.
  intros Hq. apply role_slot_ref; [done|by intros jb gc []|]. intros jb [gc Hi].
  split; [|done]. by eapply slot_no_index.
Qed.

(** A load after which nothing is remembered. *)
Lemma producer_peek {A} g (f : JitterBuffer → A) : producer g (jb_load f) (λ _ g', g' = g).
Proof. apply role_load. intros jb _. exists g. by split. Qed.

(** The first frame sets the cursor and primes the buffer. *)
Lemma producer_first acc f :
  f ∈ frames → fr_sequence f = first_seq →
  producer (mkPghost acc PNew) (jb_admit_t (fr_sequence f)) (λ _ g', g' = mkPghost acc PIdle).
Proof.
  intros Hf Hfirst. pose proof (frame_u32 f Hf) as Hq. eapply role_bind.
  { apply (role_load _ _ _ (λ (b : bool) g, b = false ∧ g = mkPghost acc PNew)).
    intros jb [gc0 Hi0]. eexists. split; [|by intros]. split; [|done]. apply (di_producer _ _ _ Hi0). }
  intros b g [-> ->]; cbn [negb]. eapply role_bind.
  { apply (role_store _ _ _ (mkPghost acc PSet) (λ _ g, g = mkPghost acc PSet)); [|done].
    intros jb gc Hi. destruct (di_producer _ _ _ Hi) as [Hst _]. cbn in Hst.
    eapply cursor_step; [exact Hi|done|done|by split| |apply Hi].
    pose proof (di_consumer _ _ _ Hi) as Hc. unfold cfact in *.
    destruct (cg_cur gc) as [[b k]|]; [destruct Hc as (_ & _ & E & _); congruence|].
    destruct Hc as [Hc _]. by split. }
  intros _ ? ->. eapply role_bind.
  { apply (role_store _ _ _ (mkPghost acc PIdle) (λ _ g, g = mkPghost acc PIdle)); [|done].
    intros jb gc Hi. destruct (di_producer _ _ _ Hi) as [Hst Hn]. cbn in Hst, Hn.
    eapply cursor_step; [exact Hi|apply Hi|done|by split| |apply Hi].
    pose proof (di_consumer _ _ _ Hi) as Hc. unfold cfact in *.
    destruct (cg_cur gc) as [[b k]|]; [destruct Hc as (_ & _ & E & _); congruence|].
    destruct Hc as [Hc _]. by split. }
  intros _ ? ->. by apply role_ret.
Qed.

Lemma producer_admit acc f :
  f ∈ frames →
  producer (mkPghost acc PIdle) (jb_admit_t (fr_sequence f)) (λ _ g', g' = mkPghost acc PIdle).
Proof.
  intros Hf. eapply role_bind.
  { apply (role_load _ _ _ (λ (b : bool) g, b = true ∧ g = mkPghost acc PIdle)).
    intros jb [gc0 Hi0]. eexists. split; [|by intros]. split; [|done]. apply (di_producer _ _ _ Hi0). }
  intros b g [-> ->]; cbn [negb].
  do 2 (eapply role_bind; [apply producer_peek|intros ? ? ->]). repeat case_match; by apply role_ret.
Qed.

(** Whether the slot holds another frame. *)
Definition saw (f : Frame) (occupied : bool) : pphase := if occupied then PSaw f else PWrite f.
Definition checked_slot (f : Frame) (collides : bool) : pphase :=
  if collides then PIdle else PWrite f.

Lemma producer_occupied acc f :
  f ∈ frames → new_number acc f →
  producer (mkPghost acc PIdle) (slot_load (slot_no (fr_sequence f)) sl_occupied)
    (λ b g, g = mkPghost acc (saw f b)).
Proof.
  intros Hf Hnew. apply role_load. intros jb [gc0 Hi0]. eexists. split; [done|]. intros gc Hi.
  eapply producer_learns; [exact Hi|]. rewrite <-(slot_no_index _ _ _ _ Hi).
  fold (slot_for jb (fr_sequence f)). pose proof (proj1 (di_producer _ _ _ Hi)) as Hst.
  destruct (sl_occupied _) eqn:E; (split; [done|]).
  - split; [done|]. split; [done|]. intros Hl. by apply Hi.
  - split; [done|]. split; [done|]. intros Ho. congruence.
Qed.

Lemma producer_collides acc f occupied :
  f ∈ frames → new_number acc f →
  producer (mkPghost acc (saw f occupied))
    (if occupied : bool then
       existing ← slot_load (slot_no (fr_sequence f)) sl_sequence;
       mret (negb (existing =? fr_sequence f))
     else mret false)
    (λ b g, g = mkPghost acc (checked_slot f b)).
Proof.
  intros Hf Hnew. destruct occupied; [|by apply role_ret]. eapply role_bind.
  - apply (role_load _ _ _ (λ q g, g = mkPghost acc (checked_slot f (negb (q =? fr_sequence f))))).
    intros jb _. eexists. split; [done|]. intros gc Hi.
    eapply producer_learns; [exact Hi|]. rewrite <-(slot_no_index _ _ _ _ Hi).
    fold (slot_for jb (fr_sequence f)). destruct (di_producer _ _ _ Hi) as (Hst & _ & _ & Hin).
    destruct (Z.eqb_spec (sl_sequence (slot_for jb (fr_sequence f))) (fr_sequence f)) as [E|];
      [|by split]. split; [done|]. rewrite E in Hin. cbn [pg_acc] in Hin.
    split; [done|]. split; [done|]. intros _. split; [done|].
    destruct lossless eqn:Hl; [|done]. by destruct (Hnew Hl); apply Hin.
  - intros q g ->. by apply role_ret.
Qed.

(** The phase in which a frame is pushed: the first one, or a later one. *)
Definition pushes_next (f : Frame) (ph : pphase) : Prop :=
  ph = PIdle ∨ ph = PNew ∧ fr_sequence f = first_seq.

Lemma producer_push acc ph f :
  f ∈ frames → new_number acc f → pushes_next f ph →
  producer (mkPghost acc ph) (jb_push_t f)
    (λ ok g, g = mkPghost (if ok then acc ++ [f] else acc) PIdle).
Proof.
  intros Hf Hnew Hph. pose proof (frame_u32 f Hf) as Hq. unfold jb_push_t. cbv zeta.
  eapply (role_bind _ _ _ _ (λ _ g, g = mkPghost acc PIdle)).
  { destruct Hph as [->|[-> ?]]; [by apply producer_admit|by apply producer_first]. }
  intros [] g ->; [|by apply role_ret]. cbn [negb].
  eapply role_bind; [by apply producer_slot_ref|]. intros idx g [-> ->].
  eapply role_bind; [by apply producer_occupied|]. intros occupied g ->.
  eapply role_bind; [by apply producer_collides|]. intros [] g ->; [by apply role_ret|].
  eapply role_bind; [apply producer_store; intros jb gc; apply writes_frame|]. intros _ g ->.
  eapply role_bind; [apply producer_store; intros jb gc; apply writes_sequence|]. intros _ g ->.
  eapply role_bind; [apply producer_store; intros jb gc; apply writes_occupied|]. intros _ g ->.
  by apply role_ret.
Qed.

Lemma producer_produce fs : ∀ acc ph,
  fs ⊆ frames → (lossless = true → NoDup (fr_sequence <$> acc ++ fs)) →
  ph = PIdle ∨ ph = PNew ∧ fs = frames →
  producer (mkPghost acc ph) (produce fs) (λ out g, pg_acc g = acc ++ out).
Proof.
  induction fs as [|f fs IH]; intros acc ph Hin Hnd Hph; cbn [produce].
  { apply role_ret. by rewrite app_nil_r. }
  eapply role_bind.
  - apply (producer_push acc ph f); [set_solver| |].
    + intros Hl. specialize (Hnd Hl).
      rewrite fmap_app in Hnd. apply NoDup_app in Hnd as (_ & Hd & _). intros Hf.
      apply (Hd _ Hf). simpl. by left.
    + destruct Hph as [->|[-> Hfs]]; [by left|]. right. split; [done|]. unfold first_seq.
      by rewrite <- Hfs.
  - intros ok g ->. eapply role_bind.
    + apply (IH (if ok then acc ++ [f] else acc) PIdle); [set_solver| |by left].
      intros Hl. specialize (Hnd Hl).
      destruct ok; [by rewrite <-app_assoc|]. rewrite !fmap_app in *.
      apply NoDup_app in Hnd as (H1 & H2 & H3). apply NoDup_app.
      apply NoDup_cons in H3 as [_ H3]. split_and!; [done| |done]. intros x Hx Hx'.
      apply (H2 x Hx). simpl. by right.
    + intros out g Hg. apply role_ret. rewrite Hg. destruct ok; [by rewrite <-app_assoc|done].
Qed.

(** ** The consumer *)

Abbreviation consumer := (role (λ gc gp jb, duo_inv gp gc jb)).

(** At the cursor [b + k], in phase [ph]. *)
Definition at_cursor (log : list Frame) (b k : Z) (ph : cphase) : cghost :=
  mkCghost log (Some (b, k)) ph.

(** The consumer frees the slot at the cursor or takes its frame. *)
Lemma consumer_writes gp log b k ph ph' h jb :
  let q := wrap32 (b + k) in
  let sl := slot_for jb q in
  duo_inv gp (at_cursor log b k ph) jb →
  (sl_occupied (h sl) = true → sl_occupied sl = true) → sl_sequence (h sl) = sl_sequence sl →
  sl_frame (h sl) = sl_frame sl ∨ sl_frame (h sl) = None →
  (lossless = true → sl_occupied sl = true) →
  (lossless = true → ∀ f, held ph f ∨ sl_frame sl = Some f → held ph' f) →
  cfact_at ph' q (update_slot (slot_index jb q) h jb) →
  duo_inv gp (at_cursor log b k ph') (update_slot (slot_index jb q) h jb).
Proof.
  intros q sl Hi Ho Hs Hf Hl Hheld Hat. assert (u32 q) as Hq by apply wrap32_u32.
  pose proof (slot_typed_of _ (slot_index jb q) (di_typed _ _ _ Hi)) as [Ht1 Ht2].
  pose proof (di_slots _ _ _ Hi (slot_index jb q)) as [Hin His].
  change (slot_of jb (slot_index jb q)) with sl in Ht1, Ht2, Hin, His.
  assert (slot_typed (h sl)) as Ht.
  { split; [by rewrite Hs|]. by destruct Hf as [->| ->]. }
  assert (slot_inv (h sl)) as Hsi.
  { split; [intros f E; apply Hin; destruct Hf; congruence|]. intros Hocc. unfold frame_is.
    rewrite Hs. by destruct Hf as [->| ->]; [apply His, Ho|]. }
  eapply (slot_step gp gp _ _ _ _ _ Hi Hq); [exact Ht|exact Hsi|..].
  - by eapply pfact_step.
  - destruct (di_consumer _ _ _ Hi) as (Hb & Hk & Hp & Hn & _ & Hks). by do 4 (split; [done|]).
  - intros Hll. eapply Forall_impl; [by apply Hi|].
    intros f [Hf'|[Hf'|(Ho' & Hs' & Hf')]]; [by left|right; left; by apply Hheld; [|left]|].
    destruct (decide (slot_index jb (fr_sequence f) = slot_index jb q)) as [E|E].
    + right. left. apply Hheld; [done|]. right. unfold slot_for in Hf'. by rewrite E in Hf'.
    + right. right. cbv zeta. rewrite (slot_for_update _ _ _ _ _ Hi Hq). by rewrite decide_False.
  - intros Hll. split; [done|]. intros Hocc.
    change (slot_of jb (slot_index jb q)) with sl in *. rewrite Hs. apply Hi; auto.
Qed.

Lemma takes_frame gp log b k jb :
  let q := wrap32 (b + k) in
  duo_inv gp (at_cursor log b k CReady) jb →
  duo_inv gp (at_cursor log b k (CTook (sl_frame (slot_for jb q))))
    (update_slot (slot_index jb q) (set_frame None) jb).
Proof.
  intros q Hi. assert (u32 q) as Hq by apply wrap32_u32.
  destruct (di_consumer _ _ _ Hi) as (_ & _ & _ & _ & [Ho Hs] & _). fold q in Ho, Hs.
  destruct (di_slots _ _ _ Hi (slot_index jb q)) as [Hin His].
  apply (consumer_writes gp log b k CReady); [exact Hi|done|done|by right|done|..]; fold q.
  - intros _ f [[]|E]. exact E.
  - unfold cfact_at. cbv zeta. rewrite (slot_for_update _ _ _ _ _ Hi Hq), decide_True by done.
    fold (slot_for jb q) in *. split; [exact Ho|]. split; [exact Hs|]. split; [|done].
    unfold got. specialize (His Ho). unfold frame_is in His.
    destruct (sl_frame (slot_for jb q)) as [f|]; [|done]. split; [congruence|by apply Hin].
Qed.

Lemma frees_slot gp log b k o jb :
  let q := wrap32 (b + k) in
  duo_inv gp (at_cursor log b k (CTook o)) jb →
  duo_inv gp (at_cursor log b k (CFreed o))
    (update_slot (slot_index jb q) (set_occupied false) jb).
Proof.
  intros q Hi. destruct (di_consumer _ _ _ Hi) as (_ & _ & _ & _ & (Ho & Hs & Hg & Hf) & _).
  fold q in Ho, Hs, Hg, Hf.
  apply (consumer_writes gp log b k (CTook o)); [exact Hi|done|done|by left|done|..]; fold q.
  - intros Hl f [E|E]; [exact E|]. rewrite Hf in E by done. done.
  - exact Hg.
Qed.

(** Moving the cursor, with what was taken. *)
Lemma advances_cursor gp log b k o jb :
  duo_inv gp (at_cursor log b k (CFreed o)) jb →
  duo_inv gp (at_cursor (log ++ option_list o) b (k + 1) CIdle)
    (set_next_seq (wrap32 (wrap32 (b + k) + 1)) jb).
Proof.
  intros Hi. destruct (di_consumer _ _ _ Hi) as (Hb & Hk & Hp & Hn & Hg & ks & Hlog & Hsort & Hlt).
  unfold set_next_seq. assert (wrap32 (wrap32 (b + k) + 1) = wrap32 (b + (k + 1))) as E.
  { clear. dlia. }
  eapply cursor_step; [exact Hi|apply wrap32_u32|done| | |].
  - destruct (di_producer _ _ _ Hi) as [Hst Hps]. split; [done|]. unfold pslot in *.
    destruct (pg_phase gp); [done| |done..]. simpl in Hst. congruence.
  - split; [done|]. split; [lia|]. split; [done|]. split; [exact E|]. split; [done|].
    simpl in Hg. destruct o as [f|].
    + exists (ks ++ [k]). destruct Hg as [Hseq Hf]. split; [by apply Forall2_app; [|constructor]|].
      split.
      * clear -Hsort Hlt. induction Hsort as [|x l Hs IH Hx]; simpl; [repeat constructor|].
        apply Forall_cons_1 in Hlt as [Hx' Hlt]. constructor; [by apply IH|].
        apply Forall_app. split; [done|]. constructor; [lia|done].
      * apply Forall_app. split; [|constructor; [lia|done]].
        eapply Forall_impl; [exact Hlt|]. simpl. lia.
    + exists ks. rewrite app_nil_r. split; [done|]. split; [done|].
      eapply Forall_impl; [exact Hlt|]. simpl. lia.
  - intros Hl. eapply Forall_impl; [by apply Hi|]. intros f [Hf|[Hf|Hf]].
    + left. simpl. apply elem_of_app. by left.
    + left. simpl in Hf |- *. subst o. apply elem_of_app. right. by left.
    + by right; right.
Qed.

(** From the cursor [cur] to the cursor [cur'] in at most [m] steps. *)
Definition moved (m : Z) (cur cur' : option (Z * Z)) : Prop :=
  match cur, cur' with
  | None, None => True
  | None, Some (_, k') => k' ≤ m
  | Some (b, k), Some (b', k') => b' = b ∧ k ≤ k' ≤ k + m
  | Some _, None => False
  end.

Lemma moved_refl m cur : 0 ≤ m → moved m cur cur.
Proof. intros Hm. destruct cur as [[b k]|]; simpl; [|done]. split; [done|lia]. Qed.
Lemma moved_trans m m' cur cur1 cur2 :
  0 ≤ m → 0 ≤ m' → moved m cur cur1 → moved m' cur1 cur2 → moved (m + m') cur cur2.
Proof.
  intros ? ?. destruct cur as [[b k]|], cur1 as [[b1 k1]|], cur2 as [[b2 k2]|]; simpl; try done; lia.
Qed.

(** The consumer between two calls, after getting [o]. *)
Definition popped (m : Z) (log : list Frame) (cur : option (Z * Z)) (o : option Frame)
    (g : cghost) : Prop :=
  ∃ cur', g = mkCghost (log ++ option_list o) cur' CIdle ∧ moved m cur cur'.

Lemma popped_none m log cur : 0 ≤ m → popped m log cur None (mkCghost log cur CIdle).
Proof. intros Hm. exists cur. split; [by rewrite app_nil_r|by apply moved_refl]. Qed.

(** Looking whether the buffer is primed tells where the cursor is. *)
Lemma consumer_primed log cur :
  consumer (mkCghost log cur CIdle) (jb_load jb_primed)
    (λ p g, if p : bool then ∃ b k, g = at_cursor log b k CIdle ∧ moved 0 cur (Some (b, k))
            else g = mkCghost log cur CIdle).
Proof.
  apply role_load. intros jb [gp0 Hi0]. destruct (jb_primed jb) eqn:Hp; [|by eexists].
  destruct cur as [[b k]|].
  { eexists. split; [|done]. exists b, k. split; [done|]. simpl. split; [done|lia]. }
  exists (at_cursor log (jb_next_seq jb) 0 CIdle). split; [by eexists _, _|].
  intros gp Hi. eapply consumer_learns; [exact Hi| |done].
  destruct (di_consumer _ _ _ Hi) as [[_ Hlog] Hfirst]. simpl in Hlog. subst log.
  pose proof (jt_next _ (di_typed _ _ _ Hi)) as Hn.
  split; [split; [done|by apply Hfirst]|]. split; [done|]. split; [done|].
  rewrite Z.add_0_r, wrap32_id by done.
  split; [done|]. split; [done|]. exists []. by repeat constructor.
Qed.

Lemma consumer_next log b k ph :
  consumer (at_cursor log b k ph) (jb_load jb_next_seq)
    (λ n g, n = wrap32 (b + k) ∧ g = at_cursor log b k ph).
Proof.
  apply role_load. intros jb [gp Hi]. eexists. split; [|by intros].
  destruct (di_consumer _ _ _ Hi) as (_ & _ & _ & Hn & _). by split.
Qed.

Lemma consumer_slot_ref g q :
  u32 q → consumer g (slot_ref q) (λ idx g', idx = slot_no q ∧ g' = g).
Proof.
  intros Hq. apply role_slot_ref; [done|by intros jb gp []|]. intros jb [gp Hi].
  split; [|done]. by eapply slot_no_index.
Qed.

Lemma consumer_store g q h g' :
  (∀ jb gp, duo_inv gp g jb → duo_inv gp g' (update_slot (slot_index jb q) h jb)) →
  consumer g (slot_store (slot_no q) h) (λ _ g1, g1 = g').
Proof.
  intros Hs. apply (role_store _ _ _ g'); [|done]. intros jb gp Hi.
  rewrite <-(slot_no_index _ _ _ q Hi). by apply Hs.
Qed.

(** The two checks of [pop]. *)
Lemma consumer_occupied log b k :
  consumer (at_cursor log b k CIdle) (slot_load (slot_no (wrap32 (b + k))) sl_occupied)
    (λ o g, g = at_cursor log b k (if o then COcc else CIdle)).
Proof.
  apply role_load. intros jb _. eexists. split; [done|]. intros gp Hi.
  eapply consumer_learns; [exact Hi| |done]. rewrite <-(slot_no_index _ _ _ _ Hi).
  destruct (di_consumer _ _ _ Hi) as (Hb & Hk & Hp & Hn & _ & Hks).
  do 4 (split; [done|]). split; [|done]. fold (slot_for jb (wrap32 (b + k))).
  by destruct (sl_occupied _) eqn:E.
Qed.
Lemma consumer_sequence log b k :
  consumer (at_cursor log b k COcc) (slot_load (slot_no (wrap32 (b + k))) sl_sequence)
    (λ q g, g = at_cursor log b k (if q =? wrap32 (b + k) then CReady else CIdle)).
Proof.
  apply role_load. intros jb _. eexists. split; [done|]. intros gp Hi.
  eapply consumer_learns; [exact Hi| |done]. rewrite <-(slot_no_index _ _ _ _ Hi).
  destruct (di_consumer _ _ _ Hi) as (Hb & Hk & Hp & Hn & Ho & Hks).
  do 4 (split; [done|]). split; [|done]. fold (slot_for jb (wrap32 (b + k))).
  by destruct (Z.eqb_spec (sl_sequence (slot_for jb (wrap32 (b + k)))) (wrap32 (b + k))).
Qed.
Lemma consumer_take log b k :
  consumer (at_cursor log b k CReady) (slot_take (slot_no (wrap32 (b + k))))
    (λ o g, g = at_cursor log b k (CTook o)).
Proof.
  apply role_act. intros w [gp0 Hi0]. eexists _, _. split; [done|]. split; [done|].
  intros gp Hi. rewrite <-(slot_no_index _ _ _ _ Hi). exact (takes_frame gp log b k _ Hi).
Qed.

Lemma consumer_pop log cur : consumer (mkCghost log cur CIdle) jb_pop_t (popped 1 log cur).
Proof.
  unfold jb_pop_t. eapply role_bind; [apply consumer_primed|]. intros [] g Hg; cbn [negb].
  2: { subst g. by apply role_ret, popped_none. }
  destruct Hg as (b & k & -> & Hm).
  assert (∀ m, 0 ≤ m → popped m log cur None (at_cursor log b k CIdle)) as Hnone.
  { intros m Hm0. exists (Some (b, k)). split; [by rewrite app_nil_r|].
    destruct cur as [[b1 k1]|]; simpl in Hm |- *; lia. }
  eapply role_bind; [apply consumer_next|]. intros n g [-> ->].
  eapply role_bind; [apply consumer_slot_ref, wrap32_u32|]. intros idx g [-> ->].
  eapply role_bind; [apply consumer_occupied|]. intros [] g ->; [|by apply role_ret, Hnone].
  cbn [negb]. eapply role_bind; [apply consumer_sequence|]. intros q g ->.
  destruct (q =? wrap32 (b + k)); [|by apply role_ret, Hnone]. cbn [negb].
  eapply role_bind; [apply consumer_take|]. intros o g ->.
  eapply role_bind; [apply consumer_store; intros jb gp; apply frees_slot|]. intros _ g ->.
  eapply role_bind.
  { apply (role_store _ _ _ (at_cursor (log ++ option_list o) b (k + 1) CIdle)
             (λ _ g, g = at_cursor (log ++ option_list o) b (k + 1) CIdle)); [|done].
    intros jb gp. apply advances_cursor. }
  intros _ g ->. apply role_ret. exists (Some (b, k + 1)). split; [done|].
  destruct cur as [[b1 k1]|]; simpl in Hm |- *; [destruct Hm; split; [done|lia]|lia].
Qed.

(** Skipping the slot at the cursor, where frames may be lost. *)
Lemma consumer_skip log cur :
  lossless = false →
  consumer (mkCghost log cur CIdle) (jb_skip_t 1) (λ _, popped 1 log cur None).
Proof.
  intros Hl. unfold jb_skip_t. eapply role_bind; [apply consumer_primed|].
  intros [] g Hg; cbn [negb]; [|subst g; by apply role_ret, popped_none].
  destruct Hg as (b & k & -> & Hm). eapply role_bind; [apply consumer_next|]. intros n g [-> ->].
  assert (wrap32 (wrap32 (b + k) + 0) = wrap32 (b + k)) as E0 by (clear; dlia).
  eapply (role_bind _ _ _ _ (λ _ g, g = at_cursor log b k CIdle)).
  { change (Z.to_nat 1) with 1%nat. cbn [jb_skip_loop_t]. rewrite E0.
    eapply role_bind; [apply consumer_slot_ref, wrap32_u32|]. intros idx g [-> ->].
    assert (∀ h, (∀ sl, sl_sequence (h sl) = sl_sequence sl
                  ∧ (sl_occupied (h sl) = true → sl_occupied sl = true)
                  ∧ (sl_frame (h sl) = sl_frame sl ∨ sl_frame (h sl) = None)) →
      consumer (at_cursor log b k CIdle) (slot_store (slot_no (wrap32 (b + k))) h)
        (λ _ g, g = at_cursor log b k CIdle)) as Hst.
    { intros h Hh. apply consumer_store. intros jb gp Hi.
      destruct (Hh (slot_for jb (wrap32 (b + k)))) as (Hs & Ho & Hf).
      apply (consumer_writes gp log b k CIdle); try done; congruence. }
    eapply role_bind; [apply Hst; intros sl; split; [done|]; split; [done|by left]|].
    intros _ g ->.
    eapply role_bind; [apply Hst; intros sl; split; [done|]; split; [done|by right]|].
    intros _ g ->. by apply role_ret. }
  intros _ g ->.
  apply (role_store _ _ _ (at_cursor (log ++ option_list None) b (k + 1) CIdle)).
  - intros jb gp Hi. apply advances_cursor. eapply consumer_learns; [exact Hi| |done].
    destruct (di_consumer _ _ _ Hi) as (Hb & Hk & Hp & Hn & _ & Hks). by do 4 (split; [done|]).
  - exists (Some (b, k + 1)). split; [done|].
    destruct cur as [[b1 k1]|]; simpl in Hm |- *; lia.
Qed.

Lemma consumer_consume pops : ∀ log cur,
  (lossless = true → Forall (λ p, p.1 < p.2) pops) →
  consumer (mkCghost log cur CIdle) (consume pops)
    (λ out g, ∃ cur', g = mkCghost (log ++ out) cur' CIdle
                      ∧ moved (2 * Z.of_nat (length pops)) cur cur').
Proof.
  induction pops as [|[now deadline] pops IH]; intros log cur Hd; cbn [consume].
  { apply role_ret. exists cur. split; [by rewrite app_nil_r|by apply moved_refl]. }
  eapply (role_bind _ _ _ _ (popped 2 log cur)).
  - unfold jb_pop_with_deadline_t. eapply role_bind; [apply consumer_pop|].
    intros [f|] g (cur1 & -> & Hm).
    + apply role_ret. exists cur1. split; [done|]. destruct cur as [[]|], cur1 as [[]|]; simpl in *; lia.
    + rewrite app_nil_r. destruct (Z.leb_spec deadline now) as [Hle|].
      * assert (lossless = false) as Hl.
        { destruct lossless; [|done]. apply Forall_cons_1 in Hd as [Hlt _]; [|done].
          simpl in Hlt. lia. }
        eapply role_bind; [by apply consumer_skip|]. intros _ g (cur2 & -> & Hm2).
        apply role_ret. exists cur2. split; [done|]. by apply (moved_trans 1 1 _ cur1).
      * apply role_ret. exists cur1. split; [by rewrite app_nil_r|].
        destruct cur as [[]|], cur1 as [[]|]; simpl in *; lia.
  - intros o g (cur1 & -> & Hm). eapply role_bind.
    + apply IH. intros Hl. specialize (Hd Hl). by inversion Hd.
    + intros out g (cur2 & -> & Hm2). apply role_ret. exists cur2. split.
      * destruct o; simpl; by rewrite <-app_assoc.
      * replace (2 * Z.of_nat (length ((now, deadline) :: pops)))
          with (2 + 2 * Z.of_nat (length pops)) by (simpl; lia).
        apply (moved_trans _ _ _ cur1); [lia|lia|done|done].
Qed.
End invariant.

(** ** Both threads *)

Section duo.
Context (frames : list Frame) (mask : Z) (lossless : bool) (pops : list (Z * Z)).

(** What each thread has still to do, together with the invariant. *)
Definition duo_ok (d : duo) : Prop :=
  ∃ gp gc,
    duo_inv frames mask lossless gp gc (jb_of (du_world d))
    ∧ role (duo_inv frames mask lossless) gp (du_producer d)
        (λ acc g, pg_acc g = acc)
    ∧ role (λ gc gp jb, duo_inv frames mask lossless gp gc jb) gc (du_consumer d)
        (λ out g, ∃ cur, g = mkCghost out cur CIdle
                         ∧ moved (2 * Z.of_nat (length pops)) None cur).

Lemma duo_ok_step d d' : duo_step d d' → duo_ok d → duo_ok d'.
Proof.
  intros [w w' tp tp' tc Hs|w w' tp tc tc' Hs] (gp & gc & Hi & Hp & Hc); simpl in *.
  - destruct tp as [|f| |]; simpl in Hs; try done. specialize (Hp w (ex_intro _ gc Hi)).
    rewrite Hs in Hp. destruct Hp as (gp' & _ & Hstep & Hp). exists gp', gc.
    split; [by apply Hstep|]. by split.
  - destruct tc as [|f| |]; simpl in Hs; try done. specialize (Hc w (ex_intro _ gp Hi)).
    rewrite Hs in Hc. destruct Hc as (gc' & _ & Hstep & Hc). exists gp, gc'.
    split; [by apply Hstep|]. by split.
Qed.

Lemma duo_ok_start cap jb w :
  JitterBuffer_new cap = Val jb → jb_of w = jb → jb_mask jb = mask →
  Forall (λ f, u32 (fr_sequence f)) frames →
  (lossless = true → NoDup (fr_sequence <$> frames) ∧ Forall (λ p, p.1 < p.2) pops) →
  duo_ok (mkDuo w (produce frames) (consume pops)).
Proof.
  intros Hnew Hw Hm Hu Hl. exists (mkPghost [] PNew), (mkCghost [] None CIdle).
  pose proof (jb_typed_new cap jb Hnew) as Ht.
  assert (jb_primed jb = false) as Hprimed.
  { unfold JitterBuffer_new in Hnew. do 2 (case_match; [done|]). by injection Hnew as <-. }
  assert (∀ i, slot_of jb i = Slot_empty) as Hempty.
  { intros i. unfold JitterBuffer_new in Hnew. do 2 (case_match; [done|]). injection Hnew as <-.
    unfold slot_of. simpl. destruct (replicate _ _ !! i) as [sl|] eqn:E; [|done].
    by apply lookup_replicate in E as [-> _]. }
  split; [|split].
  - cbn [du_world]. rewrite Hw. split; [done|done| | | |constructor|]; simpl.
    + intros i. rewrite Hempty. done.
    + by split.
    + split; [done|]. congruence.
    + intros _ i. by rewrite Hempty.
  - eapply role_mono; [|apply (producer_produce frames mask lossless Hu frames [] PNew)]; simpl;
      [done|done| |by right]. intros Hll. apply Hl, Hll.
  - eapply role_mono; [|apply (consumer_consume frames mask lossless pops [] None)]; simpl;
      [done|]. intros Hll. apply Hl, Hll.
Qed.

(** No step can be taken only when both are done. *)
Lemma duo_ok_done d :
  duo_ok d → nf duo_step d →
  ∃ acc out, du_producer d = TRet (Done acc) ∧ du_consumer d = TRet (Done out).
Proof.
  destruct d as [w tp tc]. intros (gp & gc & Hi & Hp & Hc) Hnf; simpl in *.
  destruct tp as [[acc|e|]|f|l t|l t]; simpl in Hp; try (by destruct Hp); [| |by destruct Hp as (? & [] & _)..].
  - destruct tc as [[out|e|]|f|l t|l t]; simpl in Hc; try (by destruct Hc);
      [by eexists _, _| |by destruct Hc as (? & [] & _)..].
    destruct Hnf. destruct (f w) as [w' t] eqn:E. eexists. by eapply DuoConsumer.
  - destruct Hnf. destruct (f w) as [w' t] eqn:E. eexists. by eapply DuoProducer.
Qed.
End duo.

Lemma steps_to_subtask {A} (t t' : task A) w w' : steps_to t w w' t' → subtask t' t.
Proof.
  destruct t as [o|f|l t|l t]; simpl; [intros []| |intros []|intros []].
  intros E. replace t' with (f w).2 by by rewrite E. constructor.
Qed.

Lemma duo_sn d : sn duo_step d.
Proof.
  destruct d as [w tp tc]. revert w tc. induction (subtask_wf tp) as [tp _ IHp]. intros w tc.
  revert w. induction (subtask_wf tc) as [tc _ IHc]. intros w. constructor. intros d' Hd.
  inversion Hd; subst; eauto using steps_to_subtask.
Qed.

(** The frames a finished consumer got lie on an increasing path from the
    cursor it first saw. *)
Lemma cfact_sorted frames lossless m out cur jb :
  moved m None cur → m ≤ 4294967296 →
  cfact frames lossless (mkCghost out cur CIdle) jb →
  Forall (.∈ frames) out ∧ StronglySorted Z.lt (dist_from (first_seq frames) <$> out)
  ∧ Forall (λ f, dist_from (first_seq frames) f < m) out.
Proof.
  unfold cfact. simpl. destruct cur as [[b k]|]; [|intros _ _ [[_ ->] _]; by repeat constructor].
  intros Hm Hle ([Hb ->] & Hk & _ & _ & _ & ks & Hout & Hs & Hlt). split.
  { clear -Hout. induction Hout as [|f i out ks [Hf _] _ IH]; by constructor. }
  assert (dist_from (first_seq frames) <$> out = ks) as E.
  { clear Hs. revert Hlt. induction Hout as [|f i out ks [_ Hf] _ IH]; [done|].
    intros [Hi Hlt]%Forall_cons_1. simpl. f_equal; [|by apply IH]. unfold dist_from. rewrite Hf.
    clear -Hi Hm Hle. dlia. }
  split; [by rewrite E|]. apply (Forall_fmap (dist_from _) (λ d, d < m)). rewrite E.
  eapply Forall_impl; [exact Hlt|]. simpl. lia.
Qed.

Lemma duo_ok_rtc frames mask lossless pops d d' :
  rtc duo_step d d' → duo_ok frames mask lossless pops d → duo_ok frames mask lossless pops d'.
Proof. induction 1; eauto using duo_ok_step. Qed.

Lemma lookup_slot_for jb f :
  jb_typed jb → u32 (fr_sequence f) →
  let sl := slot_for jb (fr_sequence f) in
  sl_occupied sl = true → sl_sequence sl = fr_sequence f → sl_frame sl = Some f →
  jb_lookup jb (fr_sequence f) = Some f.
Proof.
  intros Ht Hu sl Ho Hs Hf. destruct (slot_typed_at jb (fr_sequence f) Ht) as (s & _ & E & _); [ulia|].
  unfold jb_lookup. subst sl. unfold slot_for, slot_of in *. rewrite E in *. simpl in *.
  by rewrite Ho, Hs, Z.eqb_refl.
Qed.

(** ** What the buffer promises to two threads *)

(** C7: with one thread pushing and another popping with deadlines, at every
    interleaving of their accesses to the buffer's atomics: neither panics or
    blocks and both finish, and the frames handed out were all pushed and come
    in strictly increasing order of their distance, forward and modulo 2^32,
    from the first frame pushed, hence without duplicates and across the
    wrap-around; the distance is less than twice the number of pops, so a
    frame that lies before the first one, or far ahead of it, is not among
    them; for runs of at most 2^31 calls. *)
Theorem jitter_spsc_order cap w frames pops d :
  JitterBuffer_new cap = Val (s_jitter (w_sess w)) →
  Forall (λ f, u32 (fr_sequence f)) frames →
  rtc duo_step (mkDuo w (produce frames) (consume pops)) d →
  sn duo_step d
  ∧ (nf duo_step d →
     ∃ accepted out, du_producer d = TRet (Done accepted) ∧ du_consumer d = TRet (Done out))
  ∧ ∀ out, du_consumer d = TRet (Done out) → Z.of_nat (length pops) ≤ 2147483648 →
    let first := from_option fr_sequence 0 (head frames) in
    Forall (.∈ frames) out ∧ StronglySorted Z.lt (dist_from first <$> out)
    ∧ Forall (λ f, dist_from first f < 2 * Z.of_nat (length pops)) out.
Proof.
  intros Hnew Hu Hd. pose proof (duo_ok_start frames _ false pops cap _ w Hnew eq_refl eq_refl Hu) as Hok.
  apply (duo_ok_rtc _ _ _ _ _ _ Hd) in Hok; [|done]. split; [apply duo_sn|].
  split; [by apply (duo_ok_done _ _ _ _ _ Hok)|]. intros out Hout Hlen.
  destruct Hok as (gp & gc & Hi & _ & Hc). rewrite Hout in Hc. destruct Hc as (cur & -> & Hm).
  eapply cfact_sorted; [exact Hm|lia|apply Hi].
Qed.

(** C8: with one thread pushing frames of distinct numbers and another
    popping before their deadlines, no accepted frame is lost at any
    interleaving: when both have finished, each is among those handed out or
    is still buffered under its number. *)
Theorem jitter_spsc_lossless cap w frames pops d :
  JitterBuffer_new cap = Val (s_jitter (w_sess w)) →
  Forall (λ f, u32 (fr_sequence f)) frames → NoDup (fr_sequence <$> frames) →
  Forall (λ p, p.1 < p.2) pops →
  rtc duo_step (mkDuo w (produce frames) (consume pops)) d → nf duo_step d →
  ∃ accepted out, du_producer d = TRet (Done accepted) ∧ du_consumer d = TRet (Done out)
    ∧ ∀ f, f ∈ accepted →
        f ∈ out ∨ jb_lookup (s_jitter (w_sess (du_world d))) (fr_sequence f) = Some f.
Proof.
  intros Hnew Hu Hnd Hp Hd Hnf.
  pose proof (duo_ok_start frames _ true pops cap _ w Hnew eq_refl eq_refl Hu) as Hok.
  apply (duo_ok_rtc _ _ _ _ _ _ Hd) in Hok; [|done].
  destruct (duo_ok_done _ _ _ _ _ Hok Hnf) as (acc & out & Ea & Eo). exists acc, out.
  do 2 (split; [done|]). destruct Hok as (gp & gc & Hi & Hpr & Hc). rewrite Ea in Hpr.
  rewrite Eo in Hc. change (pg_acc gp = acc) in Hpr. destruct Hc as (cur & -> & _).
  intros f Hf. pose proof (di_kept _ _ _ _ _ _ Hi eq_refl) as Hk. rewrite Hpr in Hk.
  rewrite Forall_forall in Hk. destruct (Hk f Hf) as [?|[[]|(Ho & Hs & Hfr)]]; [by left|].
  right. apply lookup_slot_for; [apply Hi| |done|done|done].
  rewrite <-Hs. apply slot_typed_of, Hi.
Qed.

(** ** Schedules *)

Definition next_step {A} (w : World) (t : task A) : option (World * task A) :=
  match t with TStep f => Some (f w) | _ => None end.

(** [true] stands for a step of the producer, [false] for one of the consumer. *)
Definition duo_at (producer : bool) (d : duo) : option duo :=
  let '(mkDuo w tp tc) := d in
  if producer then '(w', tp') ← next_step w tp; Some (mkDuo w' tp' tc)
  else '(w', tc') ← next_step w tc; Some (mkDuo w' tp tc').

Fixpoint duo_run (sched : list bool) (d : duo) : option duo :=
  match sched with
  | [] => Some d
  | b :: sched => d ← duo_at b d; duo_run sched d
  end.

Lemma duo_run_steps sched d d' : duo_run sched d = Some d' → rtc duo_step d d'.
Proof.
  revert d. induction sched as [|b sched IH]; intros [w tp tc]; simpl; [by intros [= ->]|].
  intros (d1 & Hd & Hr)%bind_Some. eapply rtc_l; [|by apply IH].
  destruct b; apply bind_Some in Hd as ([w' t'] & Hs & [= <-]).
  - constructor. destruct tp as [|f| |]; simpl in *; congruence.
  - constructor. destruct tc as [|f| |]; simpl in *; congruence.
Qed.

(** A session whose buffer has four slots. *)
Definition four_slots : World :=
  mkWorld (set_jitter (mkJitterBuffer (replicate 4 Slot_empty) 4 3 0 false)
             (w_sess keyed_world)) [] 0 0.

(** What a finished run has accepted, what it has delivered, and its cursor. *)
Definition duo_result (r : option duo) : option (list Z * list Z * Z) :=
  d ← r;
  match du_producer d, du_consumer d with
  | TRet (Done acc), TRet (Done out) =>
      Some (fr_sequence <$> acc, fr_sequence <$> out, jb_next_seq (jb_of (du_world d)))
  | _, _ => None
  end.

Definition three_frames : duo :=
  mkDuo four_slots (produce (sample_frame <$> [0; 1; 5]))
    (consume ((0, 1) :: replicate 5 (1, 0))).

(** The consumer gives frame 1 up before it is pushed, or while it is. *)
Definition skip_before_push : list bool :=
  replicate 8 true ++ replicate 18 false ++ replicate 11 true ++ replicate 38 false.
Definition skip_during_push : list bool :=
  replicate 8 true ++ replicate 8 false ++ replicate 5 true ++ replicate 10 false
  ++ replicate 9 true ++ replicate 41 false.

(** A deadline that passes while its frame is being pushed costs two frames:
    the late frame is accepted into a slot that is behind the cursor, where
    it is never delivered, and the slot then refuses the next frame that maps
    to it, which is delivered when the calls run one after the other.  (So
    [jitter_spsc_lossless] needs its deadlines.) *)
Example skip_push_race :
  duo_result (duo_run skip_before_push three_frames) = Some ([0; 5], [0; 5], 6)
  ∧ duo_result (duo_run skip_during_push three_frames) = Some ([0; 1], [0], 6).
Proof. split; vm_compute; reflexivity. Qed.

Lemma duo_result_Some r accs outs next :
  duo_result r = Some (accs, outs, next) →
  ∃ d acc out, r = Some d ∧ du_producer d = TRet (Done acc) ∧ du_consumer d = TRet (Done out)
    ∧ fr_sequence <$> acc = accs ∧ fr_sequence <$> out = outs.
Proof.
  unfold duo_result. intros (d & Hr & Hd)%bind_Some.
  destruct (du_producer d) as [[acc| |]| | |] eqn:Ep, (du_consumer d) as [[out| |]| | |] eqn:Ec;
    try discriminate. injection Hd as <- <- <-. by exists d, acc, out.
Qed.

Lemma duo_done_nf d acc out :
  du_producer d = TRet (Done acc) → du_consumer d = TRet (Done out) → nf duo_step d.
Proof.
  destruct d as [w tp tc]. intros Ep Ec [d' Hd]. simpl in Ep, Ec. subst.
  inversion Hd as [? ? ? ? ? Hs|? ? ? ? ? Hs]; exact Hs.
Qed.

Lemma jitter_spsc_order_witness :
  ∃ d out, duo_run skip_before_push three_frames = Some d ∧ du_consumer d = TRet (Done out)
    ∧ fr_sequence <$> out = [0; 5] ∧ Forall (.∈ sample_frame <$> [0; 1; 5]) out
    ∧ StronglySorted Z.lt (dist_from 0 <$> out) ∧ Forall (λ f, dist_from 0 f < 12) out.
Proof.
  destruct (duo_result_Some (duo_run skip_before_push three_frames) [0; 5] [0; 5] 6)
    as (d & acc & out & Hr & _ & Hc & _ & Ho); [vm_compute; reflexivity|].
  exists d, out. split; [exact Hr|]. split; [exact Hc|]. split; [exact Ho|].
  destruct (jitter_spsc_order 4 four_slots (sample_frame <$> [0; 1; 5])
              ((0, 1) :: replicate 5 (1, 0)) d) as (_ & _ & Hok).
  - reflexivity.
  - apply (bool_decide_unpack _). vm_compute. exact I.
  - exact (duo_run_steps _ _ _ Hr).
  - assert (Z.of_nat (length ((0, 1) :: replicate 5 (1, 0))) ≤ 2147483648) as Hlen
      by (vm_compute; discriminate).
    exact (Hok out Hc Hlen).
Defined.

(** The threads in turn, the producer slightly ahead. *)
Definition in_turn : list bool :=
  replicate 7 true ++ concat (replicate 17 [true; false]) ++ replicate 19 false.

Definition unhurried : duo :=
  mkDuo four_slots (produce (sample_frame <$> [0; 2; 1])) (consume (replicate 6 (0, 1))).

Lemma jitter_spsc_lossless_witness :
  ∃ d acc out, duo_run in_turn unhurried = Some d ∧ du_producer d = TRet (Done acc)
    ∧ du_consumer d = TRet (Done out) ∧ fr_sequence <$> acc = [0; 2; 1]
    ∧ ∀ f, f ∈ acc →
        f ∈ out ∨ jb_lookup (s_jitter (w_sess (du_world d))) (fr_sequence f) = Some f.
Proof.
  destruct (duo_result_Some (duo_run in_turn unhurried) [0; 2; 1] [0; 1; 2] 3)
    as (d & acc & out & Hr & Hp & Hc & Ha & _); [vm_compute; reflexivity|].
  exists d, acc, out. do 3 (split; [assumption|]). split; [exact Ha|].
  destruct (jitter_spsc_lossless 4 four_slots (sample_frame <$> [0; 2; 1])
              (replicate 6 (0, 1)) d) as (acc' & out' & Hp' & Hc' & Hf).
  1: reflexivity.
  1-3: apply (bool_decide_unpack _); vm_compute; exact I.
  1: exact (duo_run_steps _ _ _ Hr).
  1: exact (duo_done_nf d acc out Hp Hc).
  rewrite Hp in Hp'. rewrite Hc in Hc'. injection Hp' as <-. injection Hc' as <-. exact Hf.
Defined.

(** Two threads that pop are beyond what the buffer is made for, but nothing
    keeps two threads from receiving on one session: the cursor is moved with
    a load and a store, so one of them can move it back behind a frame that
    the other has got. *)
Definition two_consumers : duo :=
  let w := (run_alone (produce (sample_frame <$> [0; 1; 2])) four_slots).1 in
  mkDuo w (consume [(0, 1)]) (consume (replicate 2 (0, 1))).

Example two_consumers_race :
  duo_result (duo_run (replicate 8 true ++ replicate 16 false) two_consumers)
    = Some ([0], [1; 2], 3)
  ∧ duo_result (duo_run (replicate 6 true ++ replicate 16 false ++ replicate 2 true) two_consumers)
    = Some ([0], [1], 1).
Proof. split; vm_compute; reflexivity. Qed.
