(* ===== verification/Codec.v ===== *)
(** * The codec layer

    Models [gravital-talk-codec]: codec identifiers and their negotiation
    ([negotiation.rs]), the PCM codec ([pcm.rs]), the wrapper of the Opus
    codec ([opus.rs]) and [build_pair] ([lib.rs]).  libopus, through the
    [audiopus] package, is the class [Audiopus].  [feature_opus] is the
    build's [opus] feature. *)

From stdpp Require Import strings.
From S2P Require Import Prelude.

Local Open Scope Z_scope.

(** ** Identifiers and negotiation *)

Inductive CodecId : Type :=
  | Pcm
  | Opus
  | Other (b : Z).

#[export] Instance CodecId_eq_dec : EqDecision CodecId.
Proof. solve_decision. Defined.

Definition CodecId_code (self : CodecId) : Z :=
  match self with Pcm => 1 | Opus => 2 | Other b => b end.

Definition CodecId_from_code (code : Z) : CodecId :=
  if code =? 1 then Pcm else if code =? 2 then Opus else Other code.

Inductive CodecError : Type :=
  | CeBufferTooSmall (needed have : nat)
  | CeFrameSizeMismatch (expected got : nat)
  | CeInvalidParams (why : string)
  | CeUnsupported (id : CodecId)
  | CeBackend (why : string).

Definition supported (feature_opus : bool) : list CodecId :=
  if feature_opus then [Opus; Pcm] else [Pcm].

Definition negotiate (feature_opus : bool) (client_preferred : CodecId) :
    result CodecError CodecId :=
  let local := supported feature_opus in
  if decide (client_preferred ∈ local) then Ok client_preferred
  else match local with
       | id :: _ => Ok id
       | [] => Err (CeUnsupported client_preferred)
       end.

(** ** Sixteen-bit samples *)

Definition i16 (x : Z) : Prop := -32768 ≤ x < 32768.
Definition as_i16 (x : Z) : Z := if x <? 32768 then x else x - 65536.

(** [sample.to_le_bytes()] and [i16::from_le_bytes] *)
Definition i16_to_le (s : Z) : Z * Z := (s mod 256, s / 256 mod 256).
Definition i16_from_le (b0 b1 : Z) : Z := as_i16 (b0 + 256 * b1).

(** ** PCM *)

Record PcmCodec : Type := mkPcmCodec {
  pcm_sample_rate : Z;
  pcm_channels : Z;
  pcm_frame_duration_ms : Z;
}.

Definition PcmCodec_new (sample_rate channels frame_duration_ms : Z) : PcmCodec :=
  mkPcmCodec sample_rate channels frame_duration_ms.

Definition samples_per_channel (self : PcmCodec) : nat :=
  Z.to_nat (pcm_sample_rate self * pcm_frame_duration_ms self / 1000).
Definition total_samples (self : PcmCodec) : nat :=
  (samples_per_channel self * Z.to_nat (pcm_channels self))%nat.
Definition pcm_wire_bytes (self : PcmCodec) : nat := (total_samples self * 2)%nat.

(** The loop [for (i, &sample) in pcm.iter().enumerate()]. *)
Fixpoint pcm_write (i : nat) (pcm out : list Z) : list Z :=
  match pcm with
  | [] => out
  | sample :: pcm =>
      let '(b0, b1) := i16_to_le sample in
      pcm_write (S i) pcm (<[(i * 2 + 1)%nat := b1]> (<[(i * 2)%nat := b0]> out))
  end.

Definition PcmCodec_encode (self : PcmCodec) (pcm out : list Z) :
    result CodecError (list Z * nat) :=
  let needed := pcm_wire_bytes self in
  if negb (length pcm =? total_samples self)%nat
  then Err (CeFrameSizeMismatch (total_samples self) (length pcm))
  else if (length out <? needed)%nat then Err (CeBufferTooSmall needed (length out))
  else Ok (pcm_write 0 pcm out, needed).

(** The loop [for i in 0..samples], [n] iterations from [i]. *)
Fixpoint pcm_read (i n : nat) (bytes pcm : list Z) : list Z :=
  match n with
  | O => pcm
  | S n =>
      pcm_read (S i) n bytes
        (<[i := i16_from_le (bytes !!! (i * 2)%nat) (bytes !!! (i * 2 + 1)%nat)]> pcm)
  end.

Definition PcmCodec_decode (self : PcmCodec) (bytes pcm : list Z) :
    result CodecError (list Z * nat) :=
  if negb (length bytes mod 2 =? 0)%nat then Err (CeInvalidParams "PCM payload length not even")
  else
    let samples := (length bytes / 2)%nat in
    if (length pcm <? samples)%nat then Err (CeBufferTooSmall samples (length pcm))
    else Ok (pcm_read 0 samples bytes pcm, (samples / Z.to_nat (Z.max (pcm_channels self) 1))%nat).

(** ** Opus *)

(** The part of [audiopus] that the wrapper calls. *)
Class Audiopus : Type := {
  opus_enc : Type;
  opus_dec : Type;
  opus_encoder_new : Z → Z → result string opus_enc;
  opus_set_bitrate : opus_enc → Z → result string opus_enc;
  opus_set_inband_fec : opus_enc → bool → result string opus_enc;
  opus_set_packet_loss_perc : opus_enc → Z → result string opus_enc;
  opus_encode : opus_enc → list Z → list Z → opus_enc * result string (list Z * nat);
  opus_decoder_new : Z → Z → result string opus_dec;
  opus_decode : opus_dec → list Z → list Z → opus_dec * result string (list Z * nat);
}.

Definition to_sample_rate (hz : Z) : result CodecError Z :=
  if decide (hz ∈ [8000; 12000; 16000; 24000; 48000]) then Ok hz
  else Err (CeInvalidParams "Opus supports 8/12/16/24/48 kHz only").

Definition to_channels (n : Z) : result CodecError Z :=
  if decide (n ∈ [1; 2]) then Ok n else Err (CeInvalidParams "Opus supports 1 or 2 channels").

(** [map_err(|e| CodecError::Backend(format!("{what}: {e}")))] *)
Definition backend {A} (what : string) (r : result string A) : result CodecError A :=
  map_err (λ e, CeBackend (what +:+ ": " +:+ e)) r.

Section opus.
Context `{Audiopus}.

Record OpusCodec : Type := mkOpusCodec {
  oc_encoder : option opus_enc;
  oc_decoder : option opus_dec;
  oc_sample_rate : Z;
  oc_channels : Z;
  oc_frame_duration_ms : Z;
}.

Definition OpusCodec_new_encoder (sample_rate channels frame_duration_ms : Z) :
    result CodecError OpusCodec :=
  sr ← to_sample_rate sample_rate;
  ch ← to_channels channels;
  enc ← backend "opus encoder" (opus_encoder_new sr ch);
  enc ← backend "opus set_bitrate" (opus_set_bitrate enc 64000);
  enc ← backend "opus set_fec" (opus_set_inband_fec enc true);
  enc ← backend "opus set_ploss" (opus_set_packet_loss_perc enc 5);
  Ok (mkOpusCodec (Some enc) None sample_rate channels frame_duration_ms).

Definition OpusCodec_new_decoder (sample_rate channels frame_duration_ms : Z) :
    result CodecError OpusCodec :=
  sr ← to_sample_rate sample_rate;
  ch ← to_channels channels;
  dec ← backend "opus decoder" (opus_decoder_new sr ch);
  Ok (mkOpusCodec None (Some dec) sample_rate channels frame_duration_ms).

Definition opus_samples_per_channel (self : OpusCodec) : nat :=
  Z.to_nat (oc_sample_rate self * oc_frame_duration_ms self / 1000).

Definition OpusCodec_encode (self : OpusCodec) (pcm out : list Z) :
    OpusCodec * result CodecError (list Z * nat) :=
  let expected := (opus_samples_per_channel self * Z.to_nat (oc_channels self))%nat in
  if negb (length pcm =? expected)%nat then (self, Err (CeFrameSizeMismatch expected (length pcm)))
  else
    match oc_encoder self with
    | None => (self, Err (CeInvalidParams "not an encoder instance"))
    | Some enc =>
        let '(enc, r) := opus_encode enc pcm out in
        (mkOpusCodec (Some enc) (oc_decoder self) (oc_sample_rate self) (oc_channels self)
           (oc_frame_duration_ms self), backend "opus encode" r)
    end.

Definition OpusCodec_decode (self : OpusCodec) (bytes pcm : list Z) :
    OpusCodec * result CodecError (list Z * nat) :=
  match oc_decoder self with
  | None => (self, Err (CeInvalidParams "not a decoder instance"))
  | Some dec =>
      let '(dec, r) := opus_decode dec bytes pcm in
      (mkOpusCodec (oc_encoder self) (Some dec) (oc_sample_rate self) (oc_channels self)
         (oc_frame_duration_ms self), backend "opus decode" r)
  end.

(** ** Dynamic dispatch: [Box<dyn Encoder>], [Box<dyn Decoder>] *)

Inductive DynCodec : Type :=
  | DynPcm (c : PcmCodec)
  | DynOpus (c : OpusCodec).

Definition dyn_id (self : DynCodec) : CodecId :=
  match self with DynPcm _ => Pcm | DynOpus _ => Opus end.

Definition dyn_frame_samples (self : DynCodec) : nat :=
  match self with
  | DynPcm c => samples_per_channel c
  | DynOpus c => opus_samples_per_channel c
  end.

Definition dyn_encode (self : DynCodec) (pcm out : list Z) :
    DynCodec * result CodecError (list Z * nat) :=
  match self with
  | DynPcm c => (self, PcmCodec_encode c pcm out)
  | DynOpus c => let '(c, r) := OpusCodec_encode c pcm out in (DynOpus c, r)
  end.

Definition dyn_decode (self : DynCodec) (bytes pcm : list Z) :
    DynCodec * result CodecError (list Z * nat) :=
  match self with
  | DynPcm c => (self, PcmCodec_decode c bytes pcm)
  | DynOpus c => let '(c, r) := OpusCodec_decode c bytes pcm in (DynOpus c, r)
  end.

Definition build_pair (feature_opus : bool) (id : CodecId)
    (sample_rate channels frame_duration_ms : Z) : result CodecError (DynCodec * DynCodec) :=
  match id with
  | Pcm =>
      let enc := PcmCodec_new sample_rate channels frame_duration_ms in
      let dec := PcmCodec_new sample_rate channels frame_duration_ms in
      Ok (DynPcm enc, DynPcm dec)
  | Opus =>
      if feature_opus then
        enc ← OpusCodec_new_encoder sample_rate channels frame_duration_ms;
        dec ← OpusCodec_new_decoder sample_rate channels frame_duration_ms;
        Ok (DynOpus enc, DynOpus dec)
      else Err (CeUnsupported id)
  | Other _ => Err (CeUnsupported id)
  end.
End opus.

(** ** Correctness of the PCM codec *)

Definition le_bytes (pcm : list Z) : list Z :=
  mjoin ((λ s, [(i16_to_le s).1; (i16_to_le s).2]) <$> pcm).

Lemma i16_le_roundtrip s : i16 s → i16_from_le (s mod 256) (s / 256 mod 256) = s.
Proof.
  intros Hs. unfold i16_from_le, as_i16, i16 in *.
  destruct (Z.ltb_spec (s mod 256 + 256 * (s / 256 mod 256)) 32768);
    Z.to_euclidean_division_equations; lia.
Qed.

Lemma le_bytes_cons s pcm : le_bytes (s :: pcm) = s mod 256 :: s / 256 mod 256 :: le_bytes pcm.
Proof. done. Qed.

Lemma length_le_bytes pcm : length (le_bytes pcm) = (length pcm * 2)%nat.
Proof. induction pcm as [|s pcm IH]; [done|]. rewrite le_bytes_cons. cbn [length]. lia. Qed.

Lemma bytes_le_bytes pcm : bytes (le_bytes pcm).
Proof.
  induction pcm as [|s pcm IH]; [constructor|]. rewrite le_bytes_cons.
  constructor; [apply Z.mod_pos_bound; lia|]. constructor; [apply Z.mod_pos_bound; lia|done].
Qed.

Lemma insert_at {A} (pre : list A) x y post i :
  i = length pre → <[i := y]> (pre ++ x :: post) = pre ++ y :: post.
Proof. intros ->. rewrite insert_app_r_alt by lia. by rewrite Nat.sub_diag. Qed.

Lemma pcm_write_spec i pcm pre mid post :
  length pre = (i * 2)%nat → length mid = (length pcm * 2)%nat →
  pcm_write i pcm (pre ++ mid ++ post) = pre ++ le_bytes pcm ++ post.
Proof.
  revert i pre mid. induction pcm as [|s pcm IH]; intros i pre mid Hpre Hmid.
  { by destruct mid. }
  destruct mid as [|x [|y mid]]; [done..|]. cbn in Hmid. cbn [pcm_write i16_to_le app].
  rewrite (insert_at pre) by done.
  change (pre ++ s mod 256 :: y :: mid ++ post) with (pre ++ [s mod 256] ++ y :: mid ++ post).
  rewrite app_assoc, (insert_at (pre ++ [s mod 256])) by (rewrite length_app; cbn; lia).
  change ((pre ++ [s mod 256]) ++ s / 256 mod 256 :: mid ++ post)
    with ((pre ++ [s mod 256]) ++ [s / 256 mod 256] ++ mid ++ post).
  rewrite app_assoc, IH; [|rewrite !length_app; cbn; lia|lia].
  rewrite <- !app_assoc. done.
Qed.

Lemma pcm_read_spec i ss bs pre post done_ mid tail :
  Forall i16 ss → bs = pre ++ le_bytes ss ++ post → length pre = (i * 2)%nat →
  length done_ = i → length mid = length ss →
  pcm_read i (length ss) bs (done_ ++ mid ++ tail) = done_ ++ ss ++ tail.
Proof.
  intros Hss. revert i pre done_ mid. induction Hss as [|s ss Hs Hss IH];
    intros i pre dn mid Hbs Hpre Hdone Hmid; [by destruct mid|].
  destruct mid as [|x mid]; [done|]. cbn [pcm_read length].
  assert (bs !!! (i * 2)%nat = s mod 256 ∧ bs !!! (i * 2 + 1)%nat = s / 256 mod 256) as [-> ->].
  { rewrite Hbs, le_bytes_cons. split; rewrite lookup_total_app_r by lia.
    - by replace (i * 2 - length pre)%nat with 0%nat by lia.
    - by replace (i * 2 + 1 - length pre)%nat with 1%nat by lia. }
  rewrite i16_le_roundtrip by done. cbn [app]. rewrite (insert_at dn) by done.
  change (dn ++ s :: mid ++ tail) with (dn ++ [s] ++ mid ++ tail). rewrite app_assoc.
  rewrite (IH (S i) (pre ++ [s mod 256; s / 256 mod 256]));
    [by rewrite <- !app_assoc| |rewrite length_app; cbn; lia
    |rewrite length_app; cbn; lia|by cbn in Hmid; lia].
  by rewrite Hbs, <- app_assoc.
Qed.

Lemma PcmCodec_encode_ok c pcm out :
  length pcm = total_samples c → (pcm_wire_bytes c ≤ length out)%nat →
  PcmCodec_encode c pcm out = Ok (le_bytes pcm ++ drop (pcm_wire_bytes c) out, pcm_wire_bytes c).
Proof.
  intros Hlen Hout. unfold PcmCodec_encode. rewrite Hlen, Nat.eqb_refl. cbn [negb].
  rewrite (proj2 (Nat.ltb_ge _ _)) by done. f_equal. f_equal.
  rewrite <- (take_drop (pcm_wire_bytes c) out) at 1.
  apply (pcm_write_spec 0 pcm [] (take (pcm_wire_bytes c) out)); [done|].
  rewrite length_take. unfold pcm_wire_bytes in *. lia.
Qed.

Lemma PcmCodec_decode_ok c pcm buf :
  Forall i16 pcm → (length pcm ≤ length buf)%nat →
  PcmCodec_decode c (le_bytes pcm) buf
  = Ok (pcm ++ drop (length pcm) buf, (length pcm / Z.to_nat (Z.max (pcm_channels c) 1))%nat).
Proof.
  intros Hi Hbuf. unfold PcmCodec_decode. rewrite length_le_bytes, Nat.Div0.mod_mul. cbn [Nat.eqb negb].
  rewrite Nat.div_mul by done. rewrite (proj2 (Nat.ltb_ge _ _)) by done.
  f_equal. f_equal. rewrite <- (take_drop (length pcm) buf) at 1.
  apply (pcm_read_spec 0 pcm (le_bytes pcm) [] [] [] (take (length pcm) buf)); [done| |done|done|].
  - by rewrite app_nil_r.
  - rewrite length_take. lia.
Qed.

(** PCM is lossless: a frame of exactly the configured number of samples
    is encoded into two bytes per sample when the output buffer has room,
    leaving the rest of the buffer alone, and decoding these bytes into any
    buffer with room restores the samples and reports one frame's samples per
    channel; a frame of any other length, or an output buffer without room,
    is refused with the sizes, and so is a payload of odd length. *)
Theorem pcm_roundtrip c pcm out :
  1 ≤ pcm_channels c → Forall i16 pcm →
  (length pcm ≠ total_samples c →
     PcmCodec_encode c pcm out = Err (CeFrameSizeMismatch (total_samples c) (length pcm)))
  ∧ (length pcm = total_samples c → (length out < pcm_wire_bytes c)%nat →
       PcmCodec_encode c pcm out = Err (CeBufferTooSmall (pcm_wire_bytes c) (length out)))
  ∧ (length pcm = total_samples c → (pcm_wire_bytes c ≤ length out)%nat →
       ∃ out', PcmCodec_encode c pcm out = Ok (out', pcm_wire_bytes c)
         ∧ length out' = length out ∧ bytes (take (pcm_wire_bytes c) out')
         ∧ drop (pcm_wire_bytes c) out' = drop (pcm_wire_bytes c) out
         ∧ ∀ buf, (total_samples c ≤ length buf)%nat →
             PcmCodec_decode c (take (pcm_wire_bytes c) out') buf
             = Ok (pcm ++ drop (total_samples c) buf, samples_per_channel c))
  ∧ (∀ bs buf, (length bs mod 2 ≠ 0)%nat → is_ok (PcmCodec_decode c bs buf) = false).
Proof.
  intros Hch Hi. split_and!.
  - intros Hne. unfold PcmCodec_encode. by rewrite (proj2 (Nat.eqb_neq _ _)).
  - intros Heq Hlt. unfold PcmCodec_encode. rewrite Heq, Nat.eqb_refl. cbn [negb].
    by rewrite (proj2 (Nat.ltb_lt _ _)).
  - intros Heq Hle. rewrite PcmCodec_encode_ok by done.
    assert (length (le_bytes pcm) = pcm_wire_bytes c) as Hl
      by (rewrite length_le_bytes, Heq; done).
    eexists. split; [done|]. rewrite length_app, Hl, length_drop.
    rewrite take_app_length', drop_app_length' by done.
    split_and!; [lia|apply bytes_le_bytes|done|].
    intros buf Hbuf. rewrite PcmCodec_decode_ok by (done || lia). rewrite Heq. f_equal. f_equal.
    rewrite Z.max_l by lia. unfold total_samples. apply Nat.div_mul. lia.
  - intros bs buf Hodd. unfold PcmCodec_decode. by rewrite (proj2 (Nat.eqb_neq _ _)).
Qed.

Lemma pcm_roundtrip_witness :
  let c := PcmCodec_new 8000 1 1 in
  let pcm := [0; 1; -1; 32767; -32768; 300; -300; 7] in
  ∃ out', PcmCodec_encode c pcm (replicate 20 0) = Ok (out', 16%nat)
    ∧ PcmCodec_decode c (take 16 out') (replicate 8 0) = Ok (pcm, 8%nat).
Proof.
  intros c pcm.
  destruct (pcm_roundtrip c pcm (replicate 20 0)) as (_ & _ & Hok & _);
    [vm_compute; discriminate|repeat (constructor; [vm_compute; split; [discriminate|reflexivity]|]);
     constructor|].
  destruct (Hok eq_refl) as (out' & He & _ & _ & _ & Hd); [vm_compute; lia|].
  exists out'. split; [exact He|]. exact (Hd (replicate 8 0) ltac:(vm_compute; lia)).
Defined.

(** A code survives the handshake byte, and the local choice is always a
    codec of this build. *)
Lemma CodecId_code_roundtrip code : CodecId_code (CodecId_from_code code) = code.
Proof. unfold CodecId_from_code. repeat case_match; cbn; lia. Qed.

Lemma negotiate_supported feature_opus id :
  ∃ id', negotiate feature_opus id = Ok id' ∧ id' ∈ supported feature_opus
    ∧ (id ∈ supported feature_opus → id' = id).
Proof.
  unfold negotiate. case_decide; [by exists id|].
  destruct feature_opus; cbn; eexists; (split; [done|]); (split; [by left|done]).
Qed.
