(* ===== verification/CodecSession.v ===== *)
(** * Sessions with a codec

    Models [gravital-talk/src/codec_session.rs]: a session whose payloads are
    encoded audio.  The wrapped [Session] is the one of the [World] the
    operations run in; the codec state, the gap detection and the queue of
    concealment frames are the record [CodecSession].  As for [recv_audio],
    [fuel] bounds the rounds a call waits, and [None] is a caller that gave
    up. *)

From stdpp Require Import strings.
From S2P Require Import Prelude.
From S2P Require Import CoreTypes.
From S2P Require Import Crypto.
From S2P Require Import JitterBuffer.
From S2P Require Import Transport.
From S2P Require Import Session.
From S2P Require Import SessionSeq.
From S2P Require Import Codec.

Local Open Scope Z_scope.

Inductive CodecSessionError : Type :=
  | CsTransport (e : TransportError)
  | CsCodec (e : CodecError)
  | CsCodecMismatch (requested negotiated : CodecId).

Inductive coutcome (A : Type) : Type :=
  | CDone (a : A)
  | CFail (e : CodecSessionError)
  | CCrash.
Arguments CDone {A} a.
Arguments CFail {A} e.
Arguments CCrash {A}.

Section codec_session.
Context `{Audiopus}.

Record CodecSession : Type := mkCodecSession {
  cs_codec_id : CodecId;
  cs_encoder : DynCodec;
  cs_decoder : DynCodec;
  cs_channels : Z;
  cs_frame_samples : nat;
  cs_mtu : nat;
  cs_last_rx_seq : Z;
  cs_plc_queue : list (list Z);
}.

Definition set_encoder (e : DynCodec) (s : CodecSession) : CodecSession :=
  mkCodecSession (cs_codec_id s) e (cs_decoder s) (cs_channels s) (cs_frame_samples s) (cs_mtu s)
    (cs_last_rx_seq s) (cs_plc_queue s).
Definition set_decoder (d : DynCodec) (s : CodecSession) : CodecSession :=
  mkCodecSession (cs_codec_id s) (cs_encoder s) d (cs_channels s) (cs_frame_samples s) (cs_mtu s)
    (cs_last_rx_seq s) (cs_plc_queue s).
Definition set_last_rx_seq (q : Z) (s : CodecSession) : CodecSession :=
  mkCodecSession (cs_codec_id s) (cs_encoder s) (cs_decoder s) (cs_channels s)
    (cs_frame_samples s) (cs_mtu s) q (cs_plc_queue s).
Definition set_plc_queue (q : list (list Z)) (s : CodecSession) : CodecSession :=
  mkCodecSession (cs_codec_id s) (cs_encoder s) (cs_decoder s) (cs_channels s)
    (cs_frame_samples s) (cs_mtu s) (cs_last_rx_seq s) q.

Definition CM (A : Type) : Type := CodecSession → World → CodecSession * World * coutcome A.

#[export] Instance CM_ret : MRet CM := λ A a s w, (s, w, CDone a).
#[export] Instance CM_bind : MBind CM := λ A B f m s w,
  let '(s, w, r) := m s w in
  match r with
  | CDone a => f a s w
  | CFail e => (s, w, CFail e)
  | CCrash => (s, w, CCrash)
  end.

Definition cget : CM CodecSession := λ s w, (s, w, CDone s).
Definition cmodify (f : CodecSession → CodecSession) : CM unit := λ s w, (f s, w, CDone tt).
Definition cthrow {A} (e : CodecSessionError) : CM A := λ s w, (s, w, CFail e).

(** [unwrap] on [None] *)
Definition ccrash {A} : CM A := λ s w, (s, w, CCrash).

(** [self.inner.op().await?] *)
Definition inner {A} (m : SM A) : CM A := λ s w,
  let '(w, r) := m w in
  (s, w, match r with Done a => CDone a | Fail e => CFail (CsTransport e) | Crash => CCrash end).

(** [r?] for a codec result. *)
Definition codec {A} (r : result CodecError A) : CM A := λ s w,
  (s, w, match r with Ok a => CDone a | Err e => CFail (CsCodec e) end).

(** The configuration the wrapped session is built with. *)
Definition codec_config (config : Config) (codec : CodecId) : Config :=
  let supported := cfg_supported_codecs config in
  mkConfig (cfg_sample_rate config) (cfg_channels config) (cfg_frame_duration_ms config)
    (cfg_max_bitrate config) (CodecId_code codec)
    (if decide (CodecId_code codec ∈ supported) then supported
     else CodecId_code codec :: supported)
    (cfg_capability_flags config) (cfg_jitter_buffer_ms config) (cfg_mtu config).

Definition CodecSession_new (feature_opus : bool) (config : Config) (codec : CodecId) :
    checked (result CodecSessionError (CodecSession * Session)) :=
  match build_pair feature_opus codec (cfg_sample_rate config) (cfg_channels config)
          (cfg_frame_duration_ms config) with
  | Err e => Val (Err (CsCodec e))
  | Ok (encoder, decoder) =>
      let frame_samples := dyn_frame_samples encoder in
      session ← Session_new (codec_config config codec);
      Val (Ok (mkCodecSession codec encoder decoder (cfg_channels config) frame_samples
                 (cfg_mtu config) u32_MAX [], session))
  end.

Definition cs_negotiated_codec (s : Session) : option CodecId :=
  if s_negotiated_codec s =? 0 then None else Some (CodecId_from_code (s_negotiated_codec s)).

(** [handshake]; [hs] is the session's handshake in the chosen role. *)
Definition cs_handshake (hs : SM unit) : CM unit :=
  _ ← inner hs;
  s ← inner get;
  let negotiated := CodecId_from_code (s_negotiated_codec s) in
  self ← cget;
  if decide (negotiated ≠ cs_codec_id self)
  then cthrow (CsCodecMismatch (cs_codec_id self) negotiated)
  else mret tt.

Context `{Env} `{Aead}.

Definition send_samples (samples : list Z) : CM unit :=
  self ← cget;
  let out := replicate (Nat.max (cs_mtu self) (Z.to_nat 1500)) 0 in
  let '(enc, r) := dyn_encode (cs_encoder self) samples out in
  _ ← cmodify (set_encoder enc);
  on ← codec r;
  inner (send_audio (take on.2 on.1)).

(** The gap between the previous and the current sequence number;
    [u32::MAX] marks that no frame was received yet. *)
Definition seq_gap (prev sequence : Z) : Z :=
  if prev =? u32_MAX then 0 else Z.max 0 (wrap32 (sequence - prev) - 1).

(** What [recv_samples] does with a frame: the gap before it, the decoding,
    and the queue of concealed frames. *)
Definition on_frame (frame : Frame) : CM (list Z) :=
  self ← cget;
  let expected := (cs_frame_samples self * Z.to_nat (cs_channels self))%nat in
  let gap := seq_gap (cs_last_rx_seq self) (fr_sequence frame) in
  _ ← cmodify (set_last_rx_seq (fr_sequence frame));
  let pcm := replicate (Nat.max expected (Z.to_nat 5760)) 0 in
  let '(dec, r) := dyn_decode (cs_decoder self) (fr_payload frame) pcm in
  _ ← cmodify (set_decoder dec);
  pn ← codec r;
  let pcm := take (pn.2 * Z.to_nat (cs_channels self)) pn.1 in
  if gap =? 0 then mret pcm
  else
    let silence_count := Z.to_nat (Z.min gap 4) in
    self ← cget;
    let q := cs_plc_queue self ++ replicate silence_count (replicate expected 0)
             ++ [pcm] in
    match q with
    | front :: q => _ ← cmodify (set_plc_queue q); mret front
    | [] => ccrash
    end.

Definition recv_samples (fuel : nat) : CM (option (list Z)) :=
  self ← cget;
  match cs_plc_queue self with
  | pcm :: q => _ ← cmodify (set_plc_queue q); mret (Some pcm)
  | [] =>
      frame ← inner (recv_audio fuel);
      match frame with
      | None => mret None
      | Some frame => pcm ← on_frame frame; mret (Some pcm)
      end
  end.

Definition cs_close : CM unit := inner close.

(** ** Calls in a row *)

(** [n] calls of [recv_samples], each of which must deliver. *)
Fixpoint recv_n (fuel n : nat) : CM (list (list Z)) :=
  match n with
  | O => mret []
  | S n =>
      r ← recv_samples fuel;
      match r with
      | None => mret []
      | Some pcm => rest ← recv_n fuel n; mret (pcm :: rest)
      end
  end.

Lemma recv_n_S fuel n s w s1 w1 pcm s2 w2 l :
  recv_samples fuel s w = (s1, w1, CDone (Some pcm)) →
  recv_n fuel n s1 w1 = (s2, w2, CDone l) →
  recv_n fuel (S n) s w = (s2, w2, CDone (pcm :: l)).
Proof.
  intros Hr Hn. cbn [recv_n]. unfold mbind, CM_bind. rewrite Hr. cbn. unfold mbind, CM_bind.
  by rewrite Hn.
Qed.

(** Queued frames are delivered in order without touching the session. *)
Lemma recv_n_queue fuel s w :
  recv_n fuel (length (cs_plc_queue s)) s w = (set_plc_queue [] s, w, CDone (cs_plc_queue s)).
Proof.
  destruct s as [id enc dec ch fs mtu last q]. cbn [cs_plc_queue].
  induction q as [|pcm q IH]; [done|]. cbn [length].
  by eapply recv_n_S; [unfold recv_samples, mbind, CM_bind; reflexivity|].
Qed.

(** How many frames are missing between a frame numbered [last] and the next
    one received, numbered [seq].  Nothing is known before the first frame;
    the source marks that by [u32::MAX], which is also a sequence number. *)
Inductive missing_frames (last seq : Z) : Z → Prop :=
  | MfUnknown : last = u32_MAX → missing_frames last seq 0
  | MfRepeated : seq = last → missing_frames last seq 0
  | MfAfter k :
      last ≠ u32_MAX → 0 ≤ k < u32_MAX → seq = wrap32 (last + 1 + k) → missing_frames last seq k.

Lemma missing_frames_total last seq : u32 last → u32 seq → ∃ k, missing_frames last seq k.
Proof.
  intros Hl Hs. destruct (decide (last = u32_MAX)); [exists 0; by constructor|].
  destruct (decide (seq = last)); [exists 0; by apply MfRepeated|].
  exists (wrap32 (seq - last - 1)). apply MfAfter; [done|..]; dlia.
Qed.

Lemma seq_gap_missing last seq k :
  u32 last → u32 seq → missing_frames last seq k → seq_gap last seq = k.
Proof.
  intros Hl Hs [->| ->|k' Hne Hk ->]; unfold seq_gap; [done|..]; destruct (Z.eqb_spec last u32_MAX); try done.
  - by rewrite Z.sub_diag.
  - dlia.
Qed.

(** C39: packet loss concealment: when a frame arrives and [k] frames are
    missing since the last one received (its sequence number is the last one
    plus [1 + k], modulo 2^32), the next calls of [recv_samples] return one
    frame of silence per missing frame, at most four, each of exactly one
    frame's length, then the decoded frame, in this order, without waiting
    for the network again; when no frame is missing, for a repeated number,
    for the first frame ever, and after a frame numbered [u32::MAX] (which the
    code cannot tell from no frame, so that the gap after it is not
    concealed), the call returns the decoded frame. Afterwards the queue is
    empty and the frame's number is the reference for the next gap. *)
Theorem plc_conceals_gaps fuel s w w' frame k dec buf produced :
  cs_plc_queue s = [] → u32 (cs_last_rx_seq s) → u32 (fr_sequence frame) →
  recv_audio fuel w = (w', Done (Some frame)) →
  missing_frames (cs_last_rx_seq s) (fr_sequence frame) k →
  let expected := (cs_frame_samples s * Z.to_nat (cs_channels s))%nat in
  dyn_decode (cs_decoder s) (fr_payload frame) (replicate (Nat.max expected (Z.to_nat 5760)) 0)
    = (dec, Ok (buf, produced)) →
  let missing := Z.to_nat (Z.min k 4) in
  let pcm := take (produced * Z.to_nat (cs_channels s)) buf in
  ∃ s', recv_n fuel (S missing) s w
        = (s', w', CDone (replicate missing (replicate expected 0) ++ [pcm]))
    ∧ cs_plc_queue s' = [] ∧ cs_last_rx_seq s' = fr_sequence frame ∧ cs_decoder s' = dec.
Proof.
  intros Hq Hl Hs Hrecv <-%seq_gap_missing expected Hdec missing pcm; [|done..].
  set (gap := seq_gap _ _) in missing |- *.
  assert (recv_samples fuel s w
    = (if gap =? 0 then (set_decoder dec (set_last_rx_seq (fr_sequence frame) s), w', CDone (Some pcm))
       else let q := replicate missing (replicate expected 0) ++ [pcm] in
            (set_plc_queue (tail q) (set_decoder dec (set_last_rx_seq (fr_sequence frame) s)), w',
             CDone (head q)))) as Hfirst.
  { unfold recv_samples, on_frame, cget, inner, mbind, CM_bind. rewrite Hq, Hrecv.
    unfold cmodify. cbv zeta. fold expected. rewrite Hdec. unfold codec. fold gap.
    destruct (gap =? 0); [done|]. cbn [cs_plc_queue set_decoder set_last_rx_seq]. rewrite Hq.
    cbn [app]. fold missing pcm. by destruct missing. }
  set (s1 := set_decoder dec (set_last_rx_seq (fr_sequence frame) s)) in Hfirst.
  destruct (Z.eqb_spec gap 0) as [Hz|Hz].
  - unfold missing. rewrite Hz. exists s1. split_and!; [|done..].
    eapply recv_n_S; [exact Hfirst|done].
  - assert (0 ≤ gap) as Hpos by (unfold gap, seq_gap; case_match; lia).
    destruct missing as [|m] eqn:Hm; [lia|]. cbn [replicate app tail head] in Hfirst.
    set (q := replicate m (replicate expected 0) ++ [pcm]) in Hfirst.
    exists (set_plc_queue [] (set_plc_queue q s1)). split_and!; [|done..].
    eapply recv_n_S; [exact Hfirst|].
    pose proof (recv_n_queue fuel (set_plc_queue q s1) w') as Hrest.
    change (cs_plc_queue (set_plc_queue q s1)) with q in Hrest.
    replace (length q) with (S m) in Hrest
      by (unfold q; rewrite length_app, length_replicate; cbn; lia).
    exact Hrest.
Qed.

(** ** Sending *)

(** A PCM frame is handed to the session as its little-endian bytes. *)
Lemma send_samples_pcm c samples s w :
  cs_encoder s = DynPcm c → length samples = total_samples c →
  (pcm_wire_bytes c ≤ Nat.max (cs_mtu s) (Z.to_nat 1500))%nat →
  send_samples samples s w = inner (send_audio (le_bytes samples)) s w.
Proof.
  intros Henc Hlen Hfit. unfold send_samples, mbind, CM_bind, cget, cmodify, codec.
  rewrite Henc. cbn [dyn_encode].
  rewrite PcmCodec_encode_ok by (rewrite ?length_replicate; done). cbn [fst snd].
  rewrite take_app_length' by (by rewrite length_le_bytes, Hlen).
  replace (set_encoder (DynPcm c) s) with s; [done|]. rewrite <- Henc. by destruct s.
Qed.

(** A frame that does not fit the buffer of [send_samples] is never sent. *)
Lemma send_samples_pcm_too_large c samples s w :
  cs_encoder s = DynPcm c →
  (Nat.max (cs_mtu s) (Z.to_nat 1500) < pcm_wire_bytes c)%nat →
  ∃ e, send_samples samples s w = (s, w, CFail (CsCodec e)).
Proof.
  intros Henc Hbig. unfold send_samples, mbind, CM_bind, cget, cmodify, codec.
  rewrite Henc. cbn [dyn_encode]. unfold PcmCodec_encode. rewrite length_replicate.
  replace (set_encoder (DynPcm c) s) with s by (rewrite <- Henc; by destruct s).
  destruct (negb _); [by eexists|]. rewrite (proj2 (Nat.ltb_lt _ _)) by done. by eexists.
Qed.

(** PCM audio can be sent only in frames that fit the send buffer: for a
    PCM session whose frame takes more bytes than the MTU and 1500, every
    call of [send_samples], with any samples, fails with a codec error,
    changes nothing and hands no datagram to the transport; when the frame
    fits and has the configured length, the session sends exactly its
    little-endian bytes. The library's default configuration (48 kHz, 20 ms,
    mono, PCM preferred) is of the first kind: its frames take 1920 bytes. *)
Theorem pcm_frame_limit feature_opus config s session :
  CodecSession_new feature_opus config Pcm = Val (Ok (s, session)) →
  let c := PcmCodec_new (cfg_sample_rate config) (cfg_channels config)
             (cfg_frame_duration_ms config) in
  let room := Nat.max (cfg_mtu config) (Z.to_nat 1500) in
  ((room < pcm_wire_bytes c)%nat →
     ∀ samples w, ∃ e, send_samples samples s w = (s, w, CFail (CsCodec e)))
  ∧ ((pcm_wire_bytes c ≤ room)%nat →
       ∀ samples w, length samples = total_samples c →
         send_samples samples s w = inner (send_audio (le_bytes samples)) s w)
  ∧ (config = Config_default → (room < pcm_wire_bytes c)%nat).
Proof.
  intros Hnew c room. unfold CodecSession_new in Hnew. cbn [build_pair] in Hnew.
  destruct (Session_new _) as [session'|] eqn:Hs; [|done]. cbn in Hnew. simplify_eq.
  split_and!.
  - intros Hbig samples w. by apply (send_samples_pcm_too_large c).
  - intros Hfit samples w Hlen. by apply (send_samples_pcm c).
  - intros ->. unfold room, c. vm_compute. lia.
Qed.
End codec_session.

(** ** Concrete runs *)

(** A build whose Opus backend always fails. *)
Definition no_opus : Audiopus := {|
  opus_enc := unit;
  opus_dec := unit;
  opus_encoder_new _ _ := Err "unavailable";
  opus_set_bitrate e _ := Ok e;
  opus_set_inband_fec e _ := Ok e;
  opus_set_packet_loss_perc e _ := Ok e;
  opus_encode e _ _ := (e, Err "unavailable");
  opus_decoder_new _ _ := Err "unavailable";
  opus_decode d _ _ := (d, Err "unavailable");
|}.

(** A receiver at 1 kHz whose last frame was number 5 and whose jitter buffer
    holds number 8. *)
Definition gap_receiver : CodecSession (H := no_opus) :=
  mkCodecSession (H := no_opus) Pcm (DynPcm (PcmCodec_new 1000 1 2))
    (DynPcm (PcmCodec_new 1000 1 2)) 1 2 1200 5 [].

Definition gap_world : World :=
  let jb := mkJitterBuffer
    (<[8%nat := mkSlot true 8 (Some (mkFrame 8 0 [1; 0; 255; 255]))]> (replicate 16 Slot_empty))
    16 15 8 true in
  mkWorld (set_jitter jb (sample_session (replicate 32 1) (replicate 32 2))) [] 0 0.

Lemma plc_conceals_gaps_witness :
  ∃ s' w', recv_n (H := no_opus) (H0 := quiet_env) (H1 := toy_aead) 1 3 gap_receiver gap_world
    = (s', w', CDone [[0; 0]; [0; 0]; [1; -1]]) ∧ cs_plc_queue s' = [].
Proof.
  destruct (recv_audio (H := quiet_env) (H0 := toy_aead) 1 gap_world) as [w' r] eqn:Hr.
  assert (r = Done (Some (mkFrame 8 0 [1; 0; 255; 255]))) as ->.
  { pose proof (f_equal snd Hr) as Hr2. vm_compute in Hr2. by symmetry. }
  destruct (plc_conceals_gaps (H := no_opus) (H0 := quiet_env) (H1 := toy_aead) 1 gap_receiver
    gap_world w' (mkFrame 8 0 [1; 0; 255; 255]) 2 (DynPcm (PcmCodec_new 1000 1 2))
    ([1; -1] ++ replicate (Z.to_nat 5758) 0) 2) as (s' & Hrun & Hq & _).
  - reflexivity.
  - apply (bool_decide_unpack _). vm_compute. exact I.
  - apply (bool_decide_unpack _). vm_compute. exact I.
  - exact Hr.
  - apply MfAfter; [discriminate|split; [discriminate|reflexivity]|reflexivity].
  - vm_compute. reflexivity.
  -   exists s', w'. split; [exact Hrun|exact Hq].
Defined.

Lemma pcm_frame_limit_witness :
  ∃ s session, CodecSession_new (H := no_opus) false Config_default Pcm = Val (Ok (s, session))
    ∧ ∃ e, send_samples (H := no_opus) (H0 := quiet_env) (H1 := toy_aead) (replicate 960 0) s
             gap_world = (s, gap_world, CFail (CsCodec e)).
Proof.
  destruct (CodecSession_new (H := no_opus) false Config_default Pcm) as [[[s session]|]|] eqn:Hn;
    [|vm_compute in Hn; discriminate..].
  exists s, session. split; [reflexivity|].
  destruct (pcm_frame_limit (H := no_opus) (H0 := quiet_env) (H1 := toy_aead) false Config_default
    s session Hn) as (Hbig & _ & Hdef).
  exact (Hbig (Hdef eq_refl) (replicate 960 0) gap_world).
Defined.
