(* ===== verification/Router.v ===== *)
(** * The relay's routing table

    Models [gravital-talk-relay/src/router.rs]: the table from session ids to
    the endpoints of a group, the eviction of idle sessions, the arbitration
    of the floor, and the directory of rooms.  A concurrent map is a finite
    map, an [Instant] a number of nanoseconds, a WebSocket sender the number
    of its channel.  [route] is split where the code releases its lock on the
    table, so that two calls can be interleaved.  Each call takes the values
    its readings of the clock return.  The Prometheus counters are unbounded
    integers; registration is left out. *)

From S2P Require Import Prelude.
From S2P Require Import CoreTypes.
From S2P Require Import Transport.
From stdpp Require Import gmap strings list.
#[local] Open Scope Z_scope.

Definition FLOOR_MAX_HOLD_SECS : Z := 30.

(** [Duration::from_secs] *)
Definition from_secs (s : Z) : Z := s * 1000000000.

(** [Instant::elapsed], [saturating_duration_since] *)
Definition elapsed (now since : Z) : Z := Z.max 0 (now - since).

Inductive SessionEndpoint : Type :=
  | Udp (addr : SocketAddr)
  | WebSocket (chan : Z).

#[export] Instance SessionEndpoint_eq_dec : EqDecision SessionEndpoint.
Proof. solve_decision. Defined.

Definition is_udp (self : SessionEndpoint) : bool :=
  match self with Udp _ => true | WebSocket _ => false end.
Definition is_ws (self : SessionEndpoint) : bool :=
  match self with WebSocket _ => true | Udp _ => false end.

Definition SessionEndpoint_matches (self other : SessionEndpoint) : bool :=
  match self, other with
  | Udp a, Udp b => bool_decide (a = b)
  | WebSocket a, WebSocket b => a =? b
  | _, _ => false
  end.

Record RouteEntry : Type := mkRouteEntry {
  re_peers : list SessionEndpoint;
  re_last_activity : Z;
  re_floor_holder : option SocketAddr;
  re_floor_granted_at : option Z;
}.

Definition RouteEntry_new (now : Z) : RouteEntry := mkRouteEntry [] now None None.

Definition RouteEntry_floor_is_free (self : RouteEntry) (now : Z) : bool :=
  match re_floor_holder self, re_floor_granted_at self with
  | None, _ => true
  | Some _, Some granted => from_secs FLOOR_MAX_HOLD_SECS <? elapsed now granted
  | Some _, None => false
  end.

Record RelayMetrics : Type := mkRelayMetrics {
  rm_packets_in : Z;
  rm_packets_out : Z;
  rm_bytes_in : Z;
  rm_bytes_out : Z;
  rm_active_sessions : Z;
  rm_dropped : gmap string Z;
}.

Definition RelayMetrics_new : RelayMetrics := mkRelayMetrics 0 0 0 0 0 ∅.

(** [dropped.with_label_values(&[reason]).inc()] *)
Definition inc_dropped (reason : string) (m : RelayMetrics) : RelayMetrics :=
  mkRelayMetrics (rm_packets_in m) (rm_packets_out m) (rm_bytes_in m) (rm_bytes_out m)
    (rm_active_sessions m) (<[reason := default 0 (rm_dropped m !! reason) + 1]> (rm_dropped m)).
Definition set_active (n : Z) (m : RelayMetrics) : RelayMetrics :=
  mkRelayMetrics (rm_packets_in m) (rm_packets_out m) (rm_bytes_in m) (rm_bytes_out m)
    n (rm_dropped m).
Definition inc_in (n : Z) (m : RelayMetrics) : RelayMetrics :=
  mkRelayMetrics (rm_packets_in m + 1) (rm_packets_out m) (rm_bytes_in m + n) (rm_bytes_out m)
    (rm_active_sessions m) (rm_dropped m).
Definition inc_out (n : Z) (m : RelayMetrics) : RelayMetrics :=
  mkRelayMetrics (rm_packets_in m) (rm_packets_out m + 1) (rm_bytes_in m) (rm_bytes_out m + n)
    (rm_active_sessions m) (rm_dropped m).

Record Router : Type := mkRouter {
  ro_routes : gmap Z RouteEntry;
  ro_rooms : gmap (list Z) Z;
  ro_max_sessions : nat;
  ro_max_peers_per_session : nat;
  ro_metrics : RelayMetrics;
}.

Definition Router_new (max_sessions max_peers_per_session : nat) (metrics : RelayMetrics) :
    Router :=
  mkRouter ∅ ∅ max_sessions max_peers_per_session metrics.

Definition set_routes (routes : gmap Z RouteEntry) (self : Router) : Router :=
  mkRouter routes (ro_rooms self) (ro_max_sessions self) (ro_max_peers_per_session self)
    (ro_metrics self).
Definition set_rooms (rooms : gmap (list Z) Z) (self : Router) : Router :=
  mkRouter (ro_routes self) rooms (ro_max_sessions self) (ro_max_peers_per_session self)
    (ro_metrics self).
Definition upd_metrics (f : RelayMetrics → RelayMetrics) (self : Router) : Router :=
  mkRouter (ro_routes self) (ro_rooms self) (ro_max_sessions self)
    (ro_max_peers_per_session self) (f (ro_metrics self)).

Inductive RouteDecision : Type :=
  | Broadcast (targets : list SessionEndpoint)
  | Registered
  | Dropped.

Inductive FloorDecision : Type :=
  | Granted (others : list SessionEndpoint)
  | Denied
  | Released (others : list SessionEndpoint)
  | Unknown.

(** The peers other than [from], to which a message is sent. *)
Definition others_of (from : SessionEndpoint) (peers : list SessionEndpoint) :
    list SessionEndpoint :=
  filter (λ p, SessionEndpoint_matches p from = false) peers.

(** [if targets.is_empty() { Registered } else { Broadcast(targets) }] *)
Definition broadcast_or_registered (targets : list SessionEndpoint) : RouteDecision :=
  match targets with [] => Registered | _ => Broadcast targets end.

(** ** Routing *)

(** The body of [if let Some(mut entry) = self.routes.get_mut(&session_id)]. *)
Definition route_entry (now : Z) (self : Router) (session_id : Z) (from : SessionEndpoint)
    (entry : RouteEntry) : Router * RouteDecision :=
  let entry :=
    mkRouteEntry (re_peers entry) now (re_floor_holder entry) (re_floor_granted_at entry) in
  let known := existsb (λ p, SessionEndpoint_matches p from) (re_peers entry) in
  if known then
    (set_routes (<[session_id := entry]> (ro_routes self)) self,
     broadcast_or_registered (others_of from (re_peers entry)))
  else if (ro_max_peers_per_session self <=? length (re_peers entry))%nat then
    (upd_metrics (inc_dropped "session_full")
       (set_routes (<[session_id := entry]> (ro_routes self)) self), Dropped)
  else
    let existing := re_peers entry in
    let entry :=
      mkRouteEntry (re_peers entry ++ [from]) (re_last_activity entry) (re_floor_holder entry)
        (re_floor_granted_at entry) in
    (set_routes (<[session_id := entry]> (ro_routes self)) self,
     broadcast_or_registered existing).

(** The part of [route] after the lookup failed: a new session. *)
Definition route_create (now : Z) (self : Router) (session_id : Z) (from : SessionEndpoint) :
    Router * RouteDecision :=
  if (ro_max_sessions self <=? size (ro_routes self))%nat then
    (upd_metrics (inc_dropped "max_sessions") self, Dropped)
  else
    let entry := RouteEntry_new now in
    let entry :=
      mkRouteEntry (re_peers entry ++ [from]) (re_last_activity entry) (re_floor_holder entry)
        (re_floor_granted_at entry) in
    let self := set_routes (<[session_id := entry]> (ro_routes self)) self in
    (upd_metrics (set_active (Z.of_nat (size (ro_routes self)))) self, Registered).

Definition Router_route (now : Z) (self : Router) (session_id : Z) (from : SessionEndpoint) :
    Router * RouteDecision :=
  if session_id =? 0 then (upd_metrics (inc_dropped "zero_session") self, Dropped)
  else
    match ro_routes self !! session_id with
    | Some entry => route_entry now self session_id from entry
    | None => route_create now self session_id from
    end.

(** ** Eviction *)

Definition retain_open (closed : Z → bool) (peers : list SessionEndpoint) :
    list SessionEndpoint :=
  filter (λ p, match p with WebSocket tx => negb (closed tx) | Udp _ => true end = true) peers.

(** The closure given to [routes.retain]: the updated entry when it is kept. *)
Definition evict_entry (closed : Z → bool) (now max_age : Z) (entry : RouteEntry) :
    option RouteEntry :=
  let entry :=
    mkRouteEntry (retain_open closed (re_peers entry)) (re_last_activity entry)
      (re_floor_holder entry) (re_floor_granted_at entry) in
  if negb (bool_decide (re_peers entry = []))
     && (elapsed now (re_last_activity entry) <? max_age)
  then Some entry else None.

Definition Router_evict_idle (closed : Z → bool) (now : Z) (self : Router) (max_age_secs : Z) :
    Router * nat :=
  let max_age := from_secs max_age_secs in
  let removed :=
    size (filter (λ ke, evict_entry closed now max_age ke.2 = None) (ro_routes self)) in
  let self := set_routes (omap (evict_entry closed now max_age) (ro_routes self)) self in
  if (0 <? removed)%nat then
    (upd_metrics (set_active (Z.of_nat (size (ro_routes self)))) self, removed)
  else (self, removed).

Definition Router_active_sessions (self : Router) : nat := size (ro_routes self).

Definition Router_peer_count (self : Router) (session_id : Z) : nat :=
  match ro_routes self !! session_id with Some e => length (re_peers e) | None => 0%nat end.

(** ** Floor arbitration *)

(** [clock n] is the value of the clock at the [n]-th of the four places of
    the function that read it. *)
Definition Router_floor_request (clock : nat → Z) (self : Router) (session_id : Z)
    (from : SocketAddr) : Router * FloorDecision :=
  match ro_routes self !! session_id with
  | None => (self, Unknown)
  | Some entry =>
      let is_known := existsb (λ p, SessionEndpoint_matches p (Udp from)) (re_peers entry) in
      if negb is_known then (self, Unknown)
      else
        let entry :=
          if negb (RouteEntry_floor_is_free entry (clock 0%nat)) then
            match re_floor_holder entry, re_floor_granted_at entry with
            | Some holder, Some granted =>
                if from_secs FLOOR_MAX_HOLD_SECS <? elapsed (clock 1%nat) granted then
                  mkRouteEntry (re_peers entry) (re_last_activity entry) None None
                else entry
            | _, _ => entry
            end
          else entry in
        if negb (RouteEntry_floor_is_free entry (clock 2%nat)) then
          (set_routes (<[session_id := entry]> (ro_routes self)) self, Denied)
        else
          let entry :=
            mkRouteEntry (re_peers entry) (re_last_activity entry) (Some from)
              (Some (clock 3%nat)) in
          (set_routes (<[session_id := entry]> (ro_routes self)) self,
           Granted (others_of (Udp from) (re_peers entry)))
  end.

Definition Router_floor_release (now : Z) (self : Router) (session_id : Z)
    (from : SocketAddr) : Router * FloorDecision :=
  match ro_routes self !! session_id with
  | None => (self, Unknown)
  | Some entry =>
      let is_holder :=
        bool_decide (re_floor_holder entry = Some from) || RouteEntry_floor_is_free entry now in
      if negb is_holder then (self, Denied)
      else
        let entry := mkRouteEntry (re_peers entry) (re_last_activity entry) None None in
        (set_routes (<[session_id := entry]> (ro_routes self)) self,
         Released (others_of (Udp from) (re_peers entry)))
  end.

Definition Router_floor_holder (self : Router) (session_id : Z) : option SocketAddr :=
  e ← ro_routes self !! session_id; re_floor_holder e.

(** ** Rooms *)

Definition Router_register_room (self : Router) (code : list Z) (session_id : Z) :
    Router * bool :=
  match ro_rooms self !! code with
  | Some _ => (self, false)
  | None => (set_rooms (<[code := session_id]> (ro_rooms self)) self, true)
  end.

Definition Router_resolve_room (self : Router) (code : list Z) : option Z := ro_rooms self !! code.

Definition Router_remove_room (self : Router) (code : list Z) : Router * bool :=
  (set_rooms (delete code (ro_rooms self)) self, bool_decide (is_Some (ro_rooms self !! code))).

(** In the order of iteration over the map, which the code leaves open. *)
Definition Router_list_rooms (self : Router) : list (list Z * Z * nat) :=
  (λ r, (r.1, r.2, Router_peer_count self r.2)) <$> map_to_list (ro_rooms self).

(** ** Runs *)

Inductive rop : Type :=
  | RRoute (now sid : Z) (from : SessionEndpoint)
  | REvict (closed : Z → bool) (now max_age_secs : Z)
  | RRequest (clock : nat → Z) (sid : Z) (from : SocketAddr)
  | RRelease (now sid : Z) (from : SocketAddr)
  | RRegister (code : list Z) (sid : Z)
  | RRemove (code : list Z).

Definition rstep (r : Router) (o : rop) : Router :=
  match o with
  | RRoute now sid from => (Router_route now r sid from).1
  | REvict closed now age => (Router_evict_idle closed now r age).1
  | RRequest clock sid from => (Router_floor_request clock r sid from).1
  | RRelease now sid from => (Router_floor_release now r sid from).1
  | RRegister code sid => (Router_register_room r code sid).1
  | RRemove code => (Router_remove_room r code).1
  end.

(** What an operation on the floor of session [sid] decides. *)
Definition floor_decision (r : Router) (o : rop) (sid : Z) : option FloorDecision :=
  match o with
  | RRequest clock sid' from =>
      if sid =? sid' then Some (Router_floor_request clock r sid' from).2 else None
  | RRelease now sid' from =>
      if sid =? sid' then Some (Router_floor_release now r sid' from).2 else None
  | _ => None
  end.

Fixpoint floor_decisions (r : Router) (ops : list rop) (sid : Z) : list FloorDecision :=
  match ops with
  | [] => []
  | o :: ops => option_list (floor_decision r o sid) ++ floor_decisions (rstep r o) ops sid
  end.

(** ** The invariant of the table *)

Record entry_inv (max_peers : nat) (e : RouteEntry) : Prop := {
  ei_nodup : NoDup (re_peers e);
  ei_nonempty : re_peers e ≠ [];
  ei_peers : (length (re_peers e) ≤ 1 `max` max_peers)%nat;
  ei_floor : is_Some (re_floor_holder e) ↔ is_Some (re_floor_granted_at e);
  ei_holder a : re_floor_holder e = Some a → Udp a ∈ re_peers e;
}.

Record router_inv (r : Router) : Prop := {
  ri_zero : ro_routes r !! 0 = None;
  ri_size : (size (ro_routes r) ≤ ro_max_sessions r)%nat;
  ri_entries : map_Forall (λ _, entry_inv (ro_max_peers_per_session r)) (ro_routes r);
  ri_gauge : rm_active_sessions (ro_metrics r) = Z.of_nat (size (ro_routes r));
}.

Lemma matches_spec p q : SessionEndpoint_matches p q = true ↔ p = q.
Proof.
  destruct p, q; cbn; rewrite ?bool_decide_eq_true, ?Z.eqb_eq; naive_solver.
Qed.

Lemma matches_false p q : SessionEndpoint_matches p q = false ↔ p ≠ q.
Proof. rewrite <- not_true_iff_false, matches_spec. done. Qed.

Lemma known_spec peers from :
  existsb (λ p, SessionEndpoint_matches p from) peers = true ↔ from ∈ peers.
Proof.
  rewrite existsb_exists. setoid_rewrite matches_spec. setoid_rewrite <- list_elem_of_In.
  naive_solver.
Qed.

Lemma known_false peers from :
  existsb (λ p, SessionEndpoint_matches p from) peers = false ↔ from ∉ peers.
Proof. rewrite <- not_true_iff_false, known_spec. done. Qed.

Lemma elem_of_others p from peers : p ∈ others_of from peers ↔ p ≠ from ∧ p ∈ peers.
Proof. unfold others_of. by rewrite list_elem_of_filter, matches_false. Qed.

Lemma others_of_notin from peers : from ∉ peers → others_of from peers = peers.
Proof.
  intros Hn. unfold others_of. induction peers as [|p ps IH]; [done|].
  apply not_elem_of_cons in Hn as [Hne Hn]. rewrite filter_cons_True; [by f_equal; auto|].
  by apply matches_false.
Qed.

Lemma ei_first mp now from : entry_inv mp (mkRouteEntry [from] now None None).
Proof.
  constructor; cbn; [apply NoDup_singleton|done|lia|by split; intros []|done].
Qed.

Lemma ei_touch mp e now : entry_inv mp e →
  entry_inv mp (mkRouteEntry (re_peers e) now (re_floor_holder e) (re_floor_granted_at e)).
Proof. intros []; by constructor. Qed.

Lemma ei_join mp e from : entry_inv mp e → from ∉ re_peers e →
  (length (re_peers e) < mp)%nat →
  entry_inv mp (mkRouteEntry (re_peers e ++ [from]) (re_last_activity e) (re_floor_holder e)
                  (re_floor_granted_at e)).
Proof.
  intros [] Hn Hlt; constructor; cbn; [..|done|].
  - apply NoDup_app. split_and!; [done|set_solver|apply NoDup_singleton].
  - by destruct (re_peers e).
  - rewrite length_app; cbn; lia.
  - set_solver.
Qed.

Lemma ei_retain mp closed now age e e' :
  entry_inv mp e → evict_entry closed now age e = Some e' → entry_inv mp e'.
Proof.
  intros [] Hev. unfold evict_entry in Hev. cbn in Hev.
  case_bool_decide as Hnil; [done|]. cbn in Hev. case_match; [|done]. simplify_eq.
  constructor; cbn; [|done| |done|].
  - by apply NoDup_filter.
  - etrans; [apply length_filter|done].
  - intros a Ha. unfold retain_open. apply list_elem_of_filter. naive_solver.
Qed.

Lemma ei_floor_set mp e h : entry_inv mp e → match h with Some (a, _) => Udp a ∈ re_peers e
  | None => True end →
  entry_inv mp (mkRouteEntry (re_peers e) (re_last_activity e) (fst <$> h) (snd <$> h)).
Proof.
  intros [] Hh. destruct h as [[a t]|]; constructor; cbn; try done; [naive_solver..].
Qed.

(** Replacing the entry of a known session preserves the invariant. *)
Lemma ri_update r sid e e' :
  router_inv r → ro_routes r !! sid = Some e →
  entry_inv (ro_max_peers_per_session r) e' →
  router_inv (set_routes (<[sid := e']> (ro_routes r)) r).
Proof.
  intros [] Hsid He'. constructor; cbn.
  - rewrite lookup_insert_ne; [done|]. intros ->. congruence.
  - rewrite map_size_insert_Some; [done|by eexists].
  - by apply map_Forall_insert_2.
  - rewrite map_size_insert_Some; [done|by eexists].
Qed.

Lemma ri_drop r why : router_inv r → router_inv (upd_metrics (inc_dropped why) r).
Proof. intros []; by constructor. Qed.

Lemma route_entry_inv now r sid from e :
  router_inv r → ro_routes r !! sid = Some e → router_inv (route_entry now r sid from e).1.
Proof.
  intros Hr Hsid. pose proof (ri_entries _ Hr _ _ Hsid) as He. apply (ei_touch _ _ now) in He.
  unfold route_entry. destruct (existsb _ _) eqn:Hk; cbn; [by eapply ri_update|].
  destruct (_ <=? _)%nat eqn:Hfull; cbn.
  - apply ri_drop. by eapply ri_update.
  - apply Nat.leb_gt in Hfull. eapply ri_update; [done..|].
    apply (ei_join _ _ from He); [by apply known_false|done].
Qed.

Lemma route_create_inv now r sid from :
  router_inv r → sid ≠ 0 → ro_routes r !! sid = None →
  router_inv (route_create now r sid from).1.
Proof.
  intros Hr Hz Hsid. unfold route_create. destruct (_ <=? _)%nat eqn:Hmax; cbn.
  - by apply ri_drop.
  - apply Nat.leb_gt in Hmax. destruct Hr. constructor; cbn; [|rewrite map_size_insert_None by done; lia| |done].
    + by rewrite lookup_insert_ne.
    + apply map_Forall_insert_2; [apply ei_first|done].
Qed.

Lemma evict_sizes closed now age r :
  (size (omap (evict_entry closed now age) (ro_routes r))
   + size (filter (λ ke, evict_entry closed now age ke.2 = None) (ro_routes r))
   = size (ro_routes r))%nat.
Proof.
  induction (ro_routes r) as [|k e m Hk IH] using map_ind; [done|].
  rewrite map_size_insert_None by done. rewrite omap_insert.
  destruct (evict_entry closed now age e) as [e'|] eqn:He; cbn.
  - rewrite map_size_insert_None by (by rewrite lookup_omap, Hk).
    rewrite map_filter_insert_False by (cbn; congruence). rewrite delete_id by done. lia.
  - rewrite delete_id by (by rewrite lookup_omap, Hk).
    rewrite map_filter_insert_True by done.
    rewrite map_size_insert_None by (by rewrite map_lookup_filter, Hk). lia.
Qed.

Lemma evict_removed closed now r age :
  (Router_evict_idle closed now r age).2
  = (size (ro_routes r) - size (omap (evict_entry closed now (from_secs age)) (ro_routes r)))%nat.
Proof.
  pose proof (evict_sizes closed now (from_secs age) r) as Hs.
  unfold Router_evict_idle. case_match; cbn; lia.
Qed.

Lemma evict_routes closed now r age :
  ro_routes (Router_evict_idle closed now r age).1
  = omap (evict_entry closed now (from_secs age)) (ro_routes r).
Proof. unfold Router_evict_idle. by case_match. Qed.

Lemma evict_inv closed now r age :
  router_inv r → router_inv (Router_evict_idle closed now r age).1.
Proof.
  intros [Hz Hs He Hg]. pose proof (evict_sizes closed now (from_secs age) r) as Hsz.
  assert (map_Forall (λ _, entry_inv (ro_max_peers_per_session r))
            (omap (evict_entry closed now (from_secs age)) (ro_routes r))) as He'.
  { intros k e'. rewrite lookup_omap, bind_Some. intros (e & Hk & Hev).
    eapply ei_retain; [by apply (He k)|done]. }
  unfold Router_evict_idle. case_match eqn:Hrem; constructor; cbn;
    try (by rewrite lookup_omap, Hz); try done; try lia.
  apply Nat.ltb_ge in Hrem. lia.
Qed.

Lemma request_inv clock r sid from :
  router_inv r → router_inv (Router_floor_request clock r sid from).1.
Proof.
  intros Hr. unfold Router_floor_request. destruct (ro_routes r !! sid) as [e|] eqn:Hsid; [|done].
  pose proof (ri_entries _ Hr _ _ Hsid) as He.
  destruct (existsb _ _) eqn:Hk; cbn; [|done]. apply known_spec in Hk.
  match goal with |- context [negb (RouteEntry_floor_is_free ?e1 (clock 2%nat))] => set (e1' := e1) end.
  assert (entry_inv (ro_max_peers_per_session r) e1' ∧ re_peers e1' = re_peers e) as [He1 Hp].
  { unfold e1'. repeat case_match; cbn; try done. split; [|done].
    by apply (ei_floor_set _ _ None). }
  case_match; cbn; [by eapply ri_update|]. eapply ri_update; [done..|].
  apply (ei_floor_set _ _ (Some (from, clock 3%nat)) He1). by rewrite Hp.
Qed.

Lemma release_inv now r sid from :
  router_inv r → router_inv (Router_floor_release now r sid from).1.
Proof.
  intros Hr. unfold Router_floor_release. destruct (ro_routes r !! sid) as [e|] eqn:Hsid; [|done].
  case_match; cbn; [done|]. eapply ri_update; [done..|].
  apply (ei_floor_set _ _ None); [|done]. by apply (ri_entries _ Hr _ _ Hsid).
Qed.

Lemma rstep_inv r o : router_inv r → router_inv (rstep r o).
Proof.
  intros Hr. destruct o as [now sid from| | | |code sid|code]; cbn;
    auto using evict_inv, request_inv, release_inv.
  - unfold Router_route. case_match eqn:Hz; cbn; [by apply ri_drop|]. case_match eqn:Hsid.
    + by apply route_entry_inv.
    + apply route_create_inv; [done|lia|done].
  - unfold Router_register_room. case_match; [done|]. destruct Hr; by constructor.
  - destruct Hr; by constructor.
Qed.

Lemma rsteps_inv r ops : router_inv r → router_inv (foldl rstep r ops).
Proof. revert r. induction ops; cbn; auto using rstep_inv. Qed.

Lemma rstep_limits r o :
  ro_max_sessions (rstep r o) = ro_max_sessions r
  ∧ ro_max_peers_per_session (rstep r o) = ro_max_peers_per_session r.
Proof.
  destruct o; cbn; unfold Router_route, route_entry, route_create, Router_evict_idle,
    Router_floor_request, Router_floor_release, Router_register_room; repeat case_match; done.
Qed.

Lemma rsteps_limits r ops :
  ro_max_sessions (foldl rstep r ops) = ro_max_sessions r
  ∧ ro_max_peers_per_session (foldl rstep r ops) = ro_max_peers_per_session r.
Proof.
  revert r. induction ops as [|o ops IH]; intros r; [done|]. cbn.
  destruct (IH (rstep r o)) as [-> ->]. apply rstep_limits.
Qed.

(** After every sequence of calls to the relay's router (routing,
    eviction, floor requests and releases, rooms), whatever the clock reads
    and whichever channels close: session 0 is never created, there are at
    most [max_sessions] sessions, every session has at least one and at most
    [max_peers_per_session] peers (one, if that limit is 0), no peer twice;
    whoever holds the floor is a UDP member of that session and the grant
    carries its time; and the gauge of active sessions is exact. *)
Theorem router_invariant max_sessions max_peers metrics ops :
  rm_active_sessions metrics = 0 →
  let r := foldl rstep (Router_new max_sessions max_peers metrics) ops in
  ro_routes r !! 0 = None
  ∧ (Router_active_sessions r ≤ max_sessions)%nat
  ∧ rm_active_sessions (ro_metrics r) = Z.of_nat (Router_active_sessions r)
  ∧ ∀ sid e, ro_routes r !! sid = Some e →
      NoDup (re_peers e)
      ∧ (1 ≤ Router_peer_count r sid ≤ 1 `max` max_peers)%nat
      ∧ (re_floor_granted_at e = None ↔ re_floor_holder e = None)
      ∧ ∀ a, Router_floor_holder r sid = Some a → Udp a ∈ re_peers e.
Proof.
  intros Hm r. set (r0 := Router_new max_sessions max_peers metrics).
  assert (router_inv r0) as H0.
  { constructor; cbn; [done|rewrite map_size_empty; lia|apply map_Forall_empty|].
    by rewrite map_size_empty. }
  destruct (rsteps_inv r0 ops H0) as [Hz Hs He Hg].
  destruct (rsteps_limits r0 ops) as [Hms Hmp]. fold r in Hz, Hs, He, Hg, Hms, Hmp.
  rewrite Hms in Hs. rewrite Hmp in He. split_and!; [done|exact Hs|done|].
  intros sid e Hsid. destruct (He _ _ Hsid) as [Hnd Hne Hlen Hfl Hh].
  unfold Router_peer_count, Router_floor_holder. rewrite Hsid. cbn. split_and!; [done| |done| |done].
  - destruct (re_peers e); [done|cbn; lia].
  - rewrite !eq_None_not_Some. tauto.
Qed.

Definition udp_peer (port : Z) : SocketAddr := mkSocketAddr (V4 [10; 0; 0; 1]) port.

(** Two peers join session 7, the first takes the floor, a third is refused
    by the limit of two, and session 8 is evicted. *)
Definition sample_rops : list rop :=
  [RRoute 0 7 (Udp (udp_peer 1)); RRoute 1 7 (Udp (udp_peer 2)); RRoute 2 8 (WebSocket 5);
   RRequest (λ _, 3) 7 (udp_peer 1); RRoute 4 7 (Udp (udp_peer 3));
   REvict (λ c, c =? 5) 5 60].

Lemma router_invariant_witness :
  let r := foldl rstep (Router_new 10 2 RelayMetrics_new) sample_rops in
  Router_active_sessions r = 1%nat ∧ Router_floor_holder r 7 = Some (udp_peer 1)
  ∧ rm_active_sessions (ro_metrics r) = 1.
Proof.
  cbv zeta. split; [vm_compute; reflexivity|]. split; [vm_compute; reflexivity|].
  destruct (router_invariant 10 2 RelayMetrics_new sample_rops eq_refl) as (_ & _ & Hg & _).
  rewrite Hg. vm_compute. reflexivity.
Defined.

Definition members (e : option RouteEntry) : list SessionEndpoint :=
  match e with Some e => re_peers e | None => [] end.

(** Whether session [sid] can take another peer. *)
Definition room_for (r : Router) (sid : Z) : Prop :=
  match ro_routes r !! sid with
  | Some e => (length (re_peers e) < ro_max_peers_per_session r)%nat
  | None => (size (ro_routes r) < ro_max_sessions r)%nat
  end.

Definition targets_of (d : RouteDecision) : list SessionEndpoint :=
  match d with Broadcast ts => ts | _ => [] end.

Lemma targets_broadcast ts : targets_of (broadcast_or_registered ts) = ts.
Proof. by destruct ts. Qed.

Lemma broadcast_not_dropped ts : broadcast_or_registered ts ≠ Dropped.
Proof. by destruct ts. Qed.

(** What [route] does, decision by decision. *)
Definition routed (r : Router) (sid : Z) (from : SessionEndpoint) (r' : Router)
    (d : RouteDecision) : Prop :=
  let before := members (ro_routes r !! sid) in
  let after := members (ro_routes r' !! sid) in
  (∀ sid', sid' ≠ sid → ro_routes r' !! sid' = ro_routes r !! sid')
  ∧ (d = Dropped ↔ sid = 0 ∨ ((from ∉ before) ∧ (¬ room_for r sid)))
  ∧ (d = Dropped → after = before ∧ ∃ why, ro_metrics r' = inc_dropped why (ro_metrics r))
  ∧ (d ≠ Dropped →
      after = (if decide (from ∈ before) then before else before ++ [from])
      ∧ targets_of d = others_of from before
      ∧ rm_dropped (ro_metrics r') = rm_dropped (ro_metrics r)).

Lemma route_entry_routed now r sid from e :
  sid ≠ 0 → ro_routes r !! sid = Some e →
  routed r sid from (route_entry now r sid from e).1 (route_entry now r sid from e).2.
Proof.
  intros Hz Hsid. unfold routed, route_entry, room_for. rewrite Hsid. cbn.
  destruct (existsb _ _) eqn:Hk; cbn.
  - apply known_spec in Hk. rewrite lookup_insert_eq. cbn.
    split_and!; [intros; by rewrite lookup_insert_ne| |by intros ?%broadcast_not_dropped|].
    + split; [by intros ?%broadcast_not_dropped|]. tauto.
    + intros _. rewrite decide_True by done. by rewrite targets_broadcast.
  - apply known_false in Hk. destruct (_ <=? _)%nat eqn:Hfull; cbn; rewrite lookup_insert_eq; cbn;
      (split; [intros; by rewrite lookup_insert_ne|]).
    + apply Nat.leb_le in Hfull. split_and!; [|eauto|done].
      split; [|done]. intros _. right. split; [done|lia].
    + apply Nat.leb_gt in Hfull. split_and!; [|by intros ?%broadcast_not_dropped|].
      * split; [by intros ?%broadcast_not_dropped|]. intros [?|[_ ?]]; [done|lia].
      * intros _. rewrite decide_False by done. rewrite targets_broadcast.
        split_and!; [done|symmetry; by apply others_of_notin|done].
Qed.

Lemma route_create_routed now r sid from :
  sid ≠ 0 → ro_routes r !! sid = None →
  routed r sid from (route_create now r sid from).1 (route_create now r sid from).2.
Proof.
  intros Hz Hsid. unfold routed, route_create, room_for. rewrite Hsid. cbn.
  destruct (_ <=? _)%nat eqn:Hmax; cbn.
  - apply Nat.leb_le in Hmax. rewrite Hsid. split_and!; [done| |eauto|done].
    split; [|done]. intros _. right. split; [set_solver|lia].
  - apply Nat.leb_gt in Hmax. rewrite lookup_insert_eq. cbn.
    split_and!; [intros; by rewrite lookup_insert_ne| |done|].
    + split; [done|]. intros [?|[_ ?]]; [done|lia].
    + intros _. by rewrite decide_False by set_solver.
Qed.

Lemma route_routed now r sid from :
  routed r sid from (Router_route now r sid from).1 (Router_route now r sid from).2.
Proof.
  unfold Router_route. destruct (Z.eqb_spec sid 0) as [->|Hz].
  - unfold routed. cbn. split_and!; [done|tauto|eauto|done].
  - case_match; [by apply route_entry_routed|by apply route_create_routed].
Qed.

(** [route] on a session: a packet is dropped exactly when it names
    session 0, or when its sender is not yet a member and the session is full
    (or a new one would exceed [max_sessions]); then it is counted once and
    the membership does not change. Otherwise the sender is a member
    afterwards, and the packet goes to exactly the other members, never back
    to the sender. No other session is ever touched. *)
Theorem route_contract now r sid from r' d :
  Router_route now r sid from = (r', d) →
  let before := members (ro_routes r !! sid) in
  let after := members (ro_routes r' !! sid) in
  (∀ sid', sid' ≠ sid → ro_routes r' !! sid' = ro_routes r !! sid')
  ∧ (d = Dropped ↔ sid = 0 ∨ ((from ∉ before) ∧ (¬ room_for r sid)))
  ∧ (d = Dropped → after = before ∧ ∃ why, ro_metrics r' = inc_dropped why (ro_metrics r))
  ∧ (d ≠ Dropped →
      after = (if decide (from ∈ before) then before else before ++ [from])
      ∧ (∀ p, p ∈ targets_of d ↔ p ∈ before ∧ p ≠ from)
      ∧ rm_dropped (ro_metrics r') = rm_dropped (ro_metrics r)).
Proof.
  intros Hrt before after. pose proof (route_routed now r sid from) as Hr. rewrite Hrt in Hr.
  destruct Hr as (Ho & Hd & Hdrop & Hok). split_and!; [done..|].
  intros Hnd. destruct (Hok Hnd) as (Ha & Ht & Hm). split_and!; [done| |done].
  intros p. cbn in Ht. rewrite Ht, elem_of_others. tauto.
Qed.

Lemma route_contract_witness :
  let r := foldl rstep (Router_new 10 2 RelayMetrics_new) sample_rops in
  let r' := (Router_route 9 r 7 (Udp (udp_peer 2))).1 in
  Router_route 9 r 7 (Udp (udp_peer 2)) = (r', Broadcast [Udp (udp_peer 1)])
  ∧ (Udp (udp_peer 1) ∈ targets_of (Broadcast [Udp (udp_peer 1)])
     ↔ Udp (udp_peer 1) ∈ members (ro_routes r !! 7) ∧ Udp (udp_peer 1) ≠ Udp (udp_peer 2)).
Proof.
  intros r r'. assert (Router_route 9 r 7 (Udp (udp_peer 2)) = (r', Broadcast [Udp (udp_peer 1)]))
    as Hrt by (vm_compute; reflexivity).
  split; [exact Hrt|].
  destruct (route_contract 9 r 7 (Udp (udp_peer 2)) r' _ Hrt) as (_ & _ & _ & Hok).
  destruct (Hok ltac:(discriminate)) as (_ & Ht & _). exact (Ht (Udp (udp_peer 1))).
Defined.

(** Two calls of [route] for a session that does not exist yet, one from the
    UDP task and one from a WebSocket task, may both miss it before either
    inserts it; the second insertion then replaces the first, whose peer was
    told it is registered but is not a member. *)
Example route_race_loses_peer :
  let r := Router_new 10 2 RelayMetrics_new in
  let '(r1, d1) := route_create 1 r 7 (Udp (udp_peer 1)) in
  let '(r2, d2) := route_create 2 r1 7 (WebSocket 5) in
  ro_routes r !! 7 = None ∧ d1 = Registered ∧ d2 = Registered
  ∧ members (ro_routes r2 !! 7) = [WebSocket 5].
Proof. vm_compute. done. Qed.

(** ** Exclusiveness of the floor *)

(** [a] was granted the floor of session [sid] at time [t], and the session
    has been active since [last]. *)
Definition holds (r : Router) (sid : Z) (a : SocketAddr) (t last : Z) : Prop :=
  ∃ e, ro_routes r !! sid = Some e ∧ re_floor_holder e = Some a
    ∧ re_floor_granted_at e = Some t ∧ last ≤ re_last_activity e.

(** The operation happens within the hold time of a grant to [a] at [t], it is
    not [a]'s own release, and an eviction does not find the session idle. *)
Definition within_hold (sid : Z) (a : SocketAddr) (t last : Z) (o : rop) : Prop :=
  let limit := t + from_secs FLOOR_MAX_HOLD_SECS in
  match o with
  | RRoute now sid' _ => sid' = sid → last ≤ now
  | REvict _ now age => elapsed now last < from_secs age
  | RRequest clock sid' _ => sid' = sid → ∀ n, clock n ≤ limit
  | RRelease now sid' from => sid' = sid → from ≠ a ∧ now ≤ limit
  | RRegister _ _ | RRemove _ => True
  end.

Lemma floor_not_free e a t now :
  re_floor_holder e = Some a → re_floor_granted_at e = Some t →
  now ≤ t + from_secs FLOOR_MAX_HOLD_SECS → RouteEntry_floor_is_free e now = false.
Proof.
  intros Ha Ht Hle. unfold RouteEntry_floor_is_free. rewrite Ha, Ht.
  unfold elapsed, from_secs, FLOOR_MAX_HOLD_SECS in *. lia.
Qed.

Lemma holds_other r r' sid a t last :
  ro_routes r' !! sid = ro_routes r !! sid → holds r sid a t last → holds r' sid a t last.
Proof. intros Heq (e & He & Hrest). exists e. by rewrite Heq. Qed.

Lemma holds_insert r sid a t last e :
  re_floor_holder e = Some a → re_floor_granted_at e = Some t → last ≤ re_last_activity e →
  holds (set_routes (<[sid := e]> (ro_routes r)) r) sid a t last.
Proof. intros. exists e. cbn. by rewrite lookup_insert_eq. Qed.

Lemma holds_route r sid a t last now sid' from :
  holds r sid a t last → (sid' = sid → last ≤ now) →
  holds (Router_route now r sid' from).1 sid a t last.
Proof.
  intros Hh Hnow. destruct (decide (sid = sid')) as [<-|Hne].
  - destruct Hh as (e & He & Ha & Ht & Hl). unfold Router_route. rewrite He.
    case_match; cbn; [by exists e|]. unfold route_entry.
    repeat case_match; cbn; apply holds_insert; cbn; auto.
  - destruct (route_routed now r sid' from) as [Ho _]. eapply holds_other; [|done]. by apply Ho.
Qed.

(** A session that is not idle and has a floor holder is kept. *)
Lemma evict_entry_kept mp closed now max_age e a last :
  entry_inv mp e → re_floor_holder e = Some a → last ≤ re_last_activity e →
  elapsed now last < max_age →
  ∃ e', evict_entry closed now max_age e = Some e' ∧ re_floor_holder e' = re_floor_holder e
    ∧ re_floor_granted_at e' = re_floor_granted_at e ∧ re_last_activity e' = re_last_activity e.
Proof.
  intros Hei Ha Hl Hidle. assert (Udp a ∈ retain_open closed (re_peers e)) as Hin.
  { unfold retain_open. apply list_elem_of_filter. split; [done|]. by apply (ei_holder _ _ Hei). }
  unfold evict_entry. cbn.
  rewrite bool_decide_eq_false_2 by (intros Hnil; rewrite Hnil in Hin; set_solver). cbn.
  rewrite (proj2 (Z.ltb_lt _ _)); [by eexists|]. unfold elapsed in *. lia.
Qed.

Lemma holds_evict r sid a t last closed now age :
  router_inv r → holds r sid a t last → elapsed now last < from_secs age →
  holds (Router_evict_idle closed now r age).1 sid a t last.
Proof.
  intros Hr (e & He & Ha & Ht & Hl) Hidle.
  destruct (evict_entry_kept _ closed now (from_secs age) e a last (ri_entries _ Hr _ _ He))
    as (e' & Hev & Ha' & Ht' & Hl'); [done..|].
  exists e'. rewrite evict_routes, lookup_omap, He. cbn. split_and!; [done|congruence..|lia].
Qed.

Lemma holds_request r sid a t last clock from :
  holds r sid a t last → (∀ n, clock n ≤ t + from_secs FLOOR_MAX_HOLD_SECS) →
  holds (Router_floor_request clock r sid from).1 sid a t last
  ∧ ((Router_floor_request clock r sid from).2 = Denied
     ∨ (Router_floor_request clock r sid from).2 = Unknown).
Proof.
  intros (e & He & Ha & Ht & Hl) Hc. unfold Router_floor_request. rewrite He.
  destruct (existsb _ _); cbn; [|split; [by exists e|by right]].
  rewrite (floor_not_free e a t) by done. cbn. rewrite Ha, Ht.
  rewrite (proj2 (Z.ltb_ge _ _)).
  - rewrite (floor_not_free e a t) by done. cbn. split; [by apply holds_insert|by left].
  - specialize (Hc 1%nat). unfold elapsed, from_secs, FLOOR_MAX_HOLD_SECS in *. lia.
Qed.

Lemma holds_release r sid a t last now from :
  holds r sid a t last → from ≠ a → now ≤ t + from_secs FLOOR_MAX_HOLD_SECS →
  Router_floor_release now r sid from = (r, Denied).
Proof.
  intros (e & He & Ha & Ht & Hl) Hne Hnow. unfold Router_floor_release. rewrite He, Ha.
  rewrite (floor_not_free e a t) by done. rewrite bool_decide_eq_false_2 by congruence. done.
Qed.

Lemma request_other clock r sid sid' from :
  sid ≠ sid' → ro_routes (Router_floor_request clock r sid' from).1 !! sid = ro_routes r !! sid.
Proof.
  intros Hne. unfold Router_floor_request.
  repeat case_match; cbn; rewrite ?lookup_insert_ne by done; done.
Qed.

Lemma release_other now r sid sid' from :
  sid ≠ sid' → ro_routes (Router_floor_release now r sid' from).1 !! sid = ro_routes r !! sid.
Proof.
  intros Hne. unfold Router_floor_release.
  repeat case_match; cbn; rewrite ?lookup_insert_ne by done; done.
Qed.

Lemma holds_step r sid a t last o :
  router_inv r → holds r sid a t last → within_hold sid a t last o →
  holds (rstep r o) sid a t last
  ∧ Forall (λ d, d = Denied ∨ d = Unknown) (option_list (floor_decision r o sid)).
Proof.
  intros Hr Hh Hw. destruct o as [now sid' from|closed now age|clock sid' from|now sid' from| |];
    cbn in *.
  - split; [by apply holds_route|done].
  - split; [by apply holds_evict|done].
  - destruct (Z.eqb_spec sid sid') as [<-|Hne].
    + destruct (holds_request r sid a t last clock from Hh (Hw eq_refl)) as [? ?].
      split; [done|]. by apply Forall_singleton.
    + split; [|done]. eapply holds_other; [by apply request_other|done].
  - destruct (Z.eqb_spec sid sid') as [<-|Hne].
    + destruct (Hw eq_refl) as [? ?].
      rewrite (holds_release r sid a t last) by done. split; [done|]. apply Forall_singleton. by left.
    + split; [|done]. eapply holds_other; [by apply release_other|done].
  - split; [|done]. unfold Router_register_room. by case_match.
  - done.
Qed.

Lemma holds_run r sid a t last ops :
  router_inv r → holds r sid a t last → Forall (within_hold sid a t last) ops →
  holds (foldl rstep r ops) sid a t last
  ∧ Forall (λ d, d = Denied ∨ d = Unknown) (floor_decisions r ops sid).
Proof.
  intros Hr Hh Hops. revert r Hr Hh. induction Hops as [|o ops Ho Hops IH]; intros r Hr Hh; [done|].
  destruct (holds_step _ _ _ _ _ _ Hr Hh Ho) as [Hh' Hd].
  destruct (IH (rstep r o) (rstep_inv _ _ Hr) Hh') as [? ?]. cbn.
  split; [done|]. by apply Forall_app.
Qed.

(** When nobody holds the floor, or the hold time has passed at every
    reading of the clock, a member's request is granted. *)
Lemma request_granted clock r sid from e :
  ro_routes r !! sid = Some e → Udp from ∈ re_peers e →
  (∀ t, re_floor_granted_at e = Some t →
        ∀ n, t + from_secs FLOOR_MAX_HOLD_SECS < clock n) →
  is_Some (re_floor_holder e) ↔ is_Some (re_floor_granted_at e) →
  (Router_floor_request clock r sid from).2 = Granted (others_of (Udp from) (re_peers e))
  ∧ holds (Router_floor_request clock r sid from).1 sid from (clock 3%nat) (re_last_activity e).
Proof.
  intros He Hin Hexp Hfl. unfold Router_floor_request. rewrite He.
  rewrite (proj2 (known_spec _ _)) by done. cbn.
  assert (∀ n, RouteEntry_floor_is_free e (clock n) = true) as Hfree.
  { intros n. unfold RouteEntry_floor_is_free. destruct (re_floor_holder e); [|done].
    destruct Hfl as [[t Ht] _]; [by eexists|]. rewrite Ht. specialize (Hexp t Ht n).
    unfold elapsed, from_secs, FLOOR_MAX_HOLD_SECS in *. lia. }
  rewrite !Hfree. cbn. split; [done|]. by apply holds_insert.
Qed.

(** Every decision on a request, with what it says of the floor. *)
Lemma request_decision clock r sid from :
  match (Router_floor_request clock r sid from).2 with
  | Granted others =>
      Udp from ∈ members (ro_routes r !! sid)
      ∧ others = others_of (Udp from) (members (ro_routes r !! sid))
      ∧ Router_floor_holder (Router_floor_request clock r sid from).1 sid = Some from
  | Denied =>
      Udp from ∈ members (ro_routes r !! sid)
      ∧ Router_floor_holder (Router_floor_request clock r sid from).1 sid
        = Router_floor_holder r sid
      ∧ is_Some (Router_floor_holder r sid)
  | Released _ => False
  | Unknown =>
      Udp from ∉ members (ro_routes r !! sid)
      ∧ (Router_floor_request clock r sid from).1 = r
  end.
Proof.
  unfold Router_floor_request, Router_floor_holder.
  destruct (ro_routes r !! sid) as [e|] eqn:He; cbn; [|by split; [set_solver|]].
  destruct (existsb _ _) eqn:Hk; cbn; [apply known_spec in Hk|by apply known_false in Hk].
  match goal with |- context [negb (RouteEntry_floor_is_free ?e1 (clock 2%nat))] => set (e1' := e1) end.
  assert (re_peers e1' = re_peers e
    ∧ (re_floor_holder e1' = re_floor_holder e ∨ re_floor_holder e1' = None)) as [Hp Hh].
  { unfold e1'. repeat case_match; naive_solver. }
  clearbody e1'. destruct (RouteEntry_floor_is_free e1' _) eqn:Hf; cbn.
  - rewrite Hp, lookup_insert_eq. done.
  - rewrite lookup_insert_eq. cbn. unfold RouteEntry_floor_is_free in Hf.
    destruct Hh as [Hh|Hh]; [|by rewrite Hh in Hf]. rewrite Hh in *.
    split_and!; [done..|]. by destruct (re_floor_holder e).
Qed.

(** Likewise for a release. *)
Lemma release_decision now r sid from :
  match (Router_floor_release now r sid from).2 with
  | Released others =>
      others = others_of (Udp from) (members (ro_routes r !! sid))
      ∧ Router_floor_holder (Router_floor_release now r sid from).1 sid = None
      ∧ members (ro_routes (Router_floor_release now r sid from).1 !! sid)
        = members (ro_routes r !! sid)
  | Granted _ => False
  | Denied | Unknown => (Router_floor_release now r sid from).1 = r
  end.
Proof.
  unfold Router_floor_release, Router_floor_holder.
  destruct (ro_routes r !! sid) as [e|] eqn:He; cbn; [|done].
  destruct (_ || _); cbn; [|done]. by rewrite lookup_insert_eq.
Qed.

(** C19: the relay's floor is exclusive and never stuck, when the calls of the
    router run one at a time. Only a member is granted the floor, and then is
    its holder; from then on, for 30 seconds and through any sequence of
    whole calls that route traffic, add members, evict other sessions or
    register and remove rooms, every request for that floor by anyone is
    refused and nobody but the holder can release it; the holder's own release
    frees it at once; and when nobody holds it, or 30 seconds have passed
    since the grant, the next request of any member is granted. (Calls that
    overlap in time can break this: see the counterexample
    [floor_granted_twice] of RouterRace, and RouterFloor for what is left.) *)
Theorem floor_mutual_exclusion r sid e :
  router_inv r → ro_routes r !! sid = Some e →
  (∀ clock b others, (Router_floor_request clock r sid b).2 = Granted others →
     Udp b ∈ re_peers e
     ∧ Router_floor_holder (Router_floor_request clock r sid b).1 sid = Some b)
  ∧ (∀ a t ops, re_floor_holder e = Some a → re_floor_granted_at e = Some t →
       Forall (within_hold sid a t (re_last_activity e)) ops →
       Router_floor_holder (foldl rstep r ops) sid = Some a
       ∧ Forall (λ d, d = Denied ∨ d = Unknown) (floor_decisions r ops sid))
  ∧ (∀ now a, re_floor_holder e = Some a →
       (Router_floor_release now r sid a).2 = Released (others_of (Udp a) (re_peers e))
       ∧ Router_floor_holder (Router_floor_release now r sid a).1 sid = None)
  ∧ (∀ clock b, Udp b ∈ re_peers e →
       (∀ t n, re_floor_granted_at e = Some t → t + from_secs FLOOR_MAX_HOLD_SECS < clock n) →
       (Router_floor_request clock r sid b).2 = Granted (others_of (Udp b) (re_peers e))
       ∧ Router_floor_holder (Router_floor_request clock r sid b).1 sid = Some b).
Proof.
  intros Hr He. unfold Router_floor_holder. split_and!.
  - intros clock b others Hg. pose proof (request_decision clock r sid b) as Hd.
    rewrite Hg, He in Hd. naive_solver.
  - intros a t ops Ha Ht Hops.
    destruct (holds_run r sid a t (re_last_activity e) ops Hr) as [(e' & He' & Ha' & _) ?];
      [by exists e|done|]. by rewrite He'.
  - intros now a Ha. unfold Router_floor_release. rewrite He, Ha.
    rewrite bool_decide_eq_true_2 by done. cbn. by rewrite lookup_insert_eq.
  - intros clock b Hb Hexp.
    destruct (request_granted clock r sid b e He Hb) as [Hg (e' & He' & Hh' & _)]; [naive_solver| |].
    + apply (ei_floor _ _ (ri_entries _ Hr _ _ He)).
    + by rewrite He'.
Qed.

Lemma floor_mutual_exclusion_witness :
  let r := foldl rstep (Router_new 10 2 RelayMetrics_new) sample_rops in
  let later := [RRequest (λ _, 10) 7 (udp_peer 2); RRelease 11 7 (udp_peer 2);
                REvict (λ _, false) 12 60] in
  Router_floor_holder (foldl rstep r later) 7 = Some (udp_peer 1)
  ∧ (Router_floor_request (λ _, 40000000000) r 7 (udp_peer 2)).2 = Granted [Udp (udp_peer 1)].
Proof.
  intros r later.
  assert (router_inv r) as Hr.
  { apply rsteps_inv. constructor; cbn; [done|rewrite map_size_empty; lia|apply map_Forall_empty|done]. }
  destruct (ro_routes r !! 7) as [e|] eqn:He; [|vm_compute in He; discriminate].
  destruct (floor_mutual_exclusion r 7 e Hr He) as (_ & Hex & _ & Hlate).
  vm_compute in He. injection He as <-. split.
  - apply (Hex (udp_peer 1) 3 later eq_refl eq_refl).
    unfold later. constructor; [intros _ n; unfold from_secs, FLOOR_MAX_HOLD_SECS; lia|].
    constructor; [intros _; split; [discriminate|unfold from_secs, FLOOR_MAX_HOLD_SECS; lia]|].
    constructor; [|constructor]. unfold within_hold, elapsed, from_secs. cbn [re_last_activity]. lia.
  - destruct (Hlate (λ _, 40000000000) (udp_peer 2)) as [Hg _]; [apply list_elem_of_further, list_elem_of_here| |].
    + cbn [re_floor_granted_at]. intros t n [= <-]. unfold from_secs, FLOOR_MAX_HOLD_SECS. lia.
    + rewrite Hg. vm_compute. reflexivity.
Defined.
