(* ===== verification/RouterTasks.v ===== *)
(** * The router's operations as tasks

    The relay's tasks (the UDP loop, a task per WebSocket connection, the
    HTTP requests and the eviction timer) share the router of
    [gravital-talk-relay/src/router.rs], whose tables are concurrent maps: one
    access to an entry, and what is done while its guard is held, is one step,
    and other tasks run between two of them.  Here the operations are split at
    these accesses; run alone they are the operations of [Router.v].  The
    length of a map is read in one step.  [retain] visits the entries one by
    one in an order of its own, which is an argument. *)

From S2P Require Import Prelude.
From S2P Require Import CoreTypes.
From S2P Require Import Transport.
From S2P Require Import Router.
From stdpp Require Import gmap strings list.
#[local] Open Scope Z_scope.

(** ** Tasks over the router *)

Unset Elimination Schemes.
Inductive rtask (A : Type) : Type :=
  | RtRet (a : A)
  | RtStep (f : Router → Router * rtask A).
Set Elimination Schemes.
Arguments RtRet {A} a.
Arguments RtStep {A} f.

Definition rtask_tree_ind {A} (P : rtask A → Prop) (Hret : ∀ a, P (RtRet a))
    (Hstep : ∀ f, (∀ r, P (f r).2) → P (RtStep f)) : ∀ t, P t :=
  fix go t :=
    match t with
    | RtRet a => Hret a
    | RtStep f => Hstep f (λ r, go (f r).2)
    end.

#[export] Instance rtask_ret : MRet rtask := λ A a, RtRet a.
#[export] Instance rtask_bind : MBind rtask := λ A B k,
  fix go t :=
    match t with
    | RtRet a => k a
    | RtStep f => RtStep (λ r, let '(r', t) := f r in (r', go t))
    end.

(** One step. *)
Definition rt_atomic {A} (f : Router → Router * A) : rtask A :=
  RtStep (λ r, let '(r', a) := f r in (r', RtRet a)).
Definition rt_read {A} (f : Router → A) : rtask A := rt_atomic (λ r, (r, f r)).
Definition rt_update (f : Router → Router) : rtask unit := rt_atomic (λ r, (f r, tt)).

(** A task that nothing interferes with. *)
Fixpoint rt_alone {A} (t : rtask A) (r : Router) : Router * A :=
  match t with
  | RtRet a => (r, a)
  | RtStep f => let '(r', t) := f r in rt_alone t r'
  end.

(** ** The operations *)

(** [self.metrics.active_sessions.set(self.routes.len() as i64)] *)
Definition gauge_t : rtask unit :=
  n ← rt_read (λ self, size (ro_routes self));
  rt_update (upd_metrics (set_active (Z.of_nat n))).

(** [if let Some(mut entry) = self.routes.get_mut(&session_id) { .. }]: the
    decision if there is an entry. *)
Definition route_known (now session_id : Z) (from : SessionEndpoint) (self : Router) :
    Router * option RouteDecision :=
  match ro_routes self !! session_id with
  | Some entry => let '(self, d) := route_entry now self session_id from entry in (self, Some d)
  | None => (self, None)
  end.

(** The entry of a new session. *)
Definition first_entry (now : Z) (from : SessionEndpoint) : RouteEntry :=
  mkRouteEntry (re_peers (RouteEntry_new now) ++ [from]) now None None.

Definition insert_route (session_id : Z) (entry : RouteEntry) (self : Router) : Router :=
  set_routes (<[session_id := entry]> (ro_routes self)) self.

Definition route_t (now session_id : Z) (from : SessionEndpoint) : rtask RouteDecision :=
  if session_id =? 0 then
    _ ← rt_update (upd_metrics (inc_dropped "zero_session")); mret Dropped
  else
    known ← rt_atomic (route_known now session_id from);
    match known with
    | Some decision => mret decision
    | None =>
        full ← rt_read (λ self, (ro_max_sessions self <=? size (ro_routes self))%nat);
        if full : bool then
          _ ← rt_update (upd_metrics (inc_dropped "max_sessions")); mret Dropped
        else
          _ ← rt_update (insert_route session_id (first_entry now from));
          _ ← gauge_t;
          mret Registered
    end.

(** The visit of [retain] to the entry under [k]; whether it is removed. *)
Definition evict_key (closed : Z → bool) (now max_age k : Z) (self : Router) : Router * bool :=
  match ro_routes self !! k with
  | None => (self, false)
  | Some entry =>
      match evict_entry closed now max_age entry with
      | Some entry => (insert_route k entry self, false)
      | None => (set_routes (delete k (ro_routes self)) self, true)
      end
  end.

Fixpoint evict_loop_t (closed : Z → bool) (now max_age : Z) (visit : list Z) (removed : nat) :
    rtask nat :=
  match visit with
  | [] => mret removed
  | k :: visit =>
      gone ← rt_atomic (evict_key closed now max_age k);
      evict_loop_t closed now max_age visit (if gone : bool then S removed else removed)
  end.

Definition evict_idle_t (closed : Z → bool) (now max_age_secs : Z) (visit : list Z) : rtask nat :=
  removed ← evict_loop_t closed now (from_secs max_age_secs) visit 0;
  _ ← (if (0 <? removed)%nat then gauge_t else mret tt);
  mret removed.

(** The guard of the entry is held throughout. *)
Definition floor_request_t (clock : nat → Z) (session_id : Z) (from : SocketAddr) :
    rtask FloorDecision :=
  rt_atomic (λ self, Router_floor_request clock self session_id from).
Definition floor_release_t (now session_id : Z) (from : SocketAddr) : rtask FloorDecision :=
  rt_atomic (λ self, Router_floor_release now self session_id from).

Definition insert_room (code : list Z) (session_id : Z) (self : Router) : Router :=
  set_rooms (<[code := session_id]> (ro_rooms self)) self.

Definition register_room_t (code : list Z) (session_id : Z) : rtask bool :=
  exists_ ← rt_read (λ self, bool_decide (is_Some (ro_rooms self !! code)));
  if exists_ : bool then mret false
  else
    _ ← rt_update (insert_room code session_id);
    mret true.

Definition remove_room_t (code : list Z) : rtask bool :=
  rt_atomic (λ self, Router_remove_room self code).

(** ** The operations alone *)

Lemma alone_bind {A B} (t : rtask A) (k : A → rtask B) r :
  rt_alone (t ≫= k) r = let '(r', a) := rt_alone t r in rt_alone (k a) r'.
Proof.
  revert r. induction t as [a|f IH] using rtask_tree_ind; intros r; [done|].
  simpl. specialize (IH r). destruct (f r) as [r' t]. exact (IH r').
Qed.

Lemma alone_route now sid from r :
  rt_alone (route_t now sid from) r = Router_route now r sid from.
Proof.
  unfold route_t, Router_route. case_match; [done|]. simpl. unfold route_known.
  destruct (ro_routes r !! sid) as [e|]; simpl; [by destruct (route_entry _ _ _ _ _)|].
  unfold route_create. by case_match.
Qed.

Lemma alone_register code sid r :
  rt_alone (register_room_t code sid) r = Router_register_room r code sid.
Proof.
  unfold register_room_t, Router_register_room. simpl.
  destruct (ro_rooms r !! code); case_bool_decide as E; simpl; [done| |by destruct E|done].
  by destruct E; eexists.
Qed.

(** What the visits to [visit] leave of a table. *)
Definition evicted (closed : Z → bool) (now max_age : Z) (visit : list Z)
    (m : gmap Z RouteEntry) : gmap Z RouteEntry :=
  map_imap (λ k e, if decide (k ∈ visit) then evict_entry closed now max_age e else Some e) m.

Lemma evicted_lookup closed now max_age visit m k :
  evicted closed now max_age visit m !! k
  = if decide (k ∈ visit) then m !! k ≫= evict_entry closed now max_age else m !! k.
Proof. unfold evicted. rewrite map_lookup_imap. destruct (m !! k); simpl; by case_decide. Qed.

Lemma set_routes_routes r : set_routes (ro_routes r) r = r.
Proof. by destruct r. Qed.

Lemma evict_key_spec closed now max_age k r :
  let '(r', gone) := evict_key closed now max_age k r in
  r' = set_routes (evicted closed now max_age [k] (ro_routes r)) r
  ∧ (Nat.b2n gone + size (ro_routes r') = size (ro_routes r))%nat.
Proof.
  assert (∀ m' : gmap Z RouteEntry,
    (∀ i, m' !! i = if decide (i ∈ [k]) then ro_routes r !! k ≫= evict_entry closed now max_age
                    else ro_routes r !! i) →
    m' = evicted closed now max_age [k] (ro_routes r)) as Hext.
  { intros m' Hm. apply map_eq. intros i. rewrite Hm, evicted_lookup.
    case_decide as E; [|done]. by apply list_elem_of_singleton in E as ->. }
  unfold evict_key. destruct (ro_routes r !! k) as [e|] eqn:E; simpl in Hext.
  - destruct (evict_entry closed now max_age e) as [e'|] eqn:Ev; simpl.
    + split; [|by rewrite map_size_insert_Some]. unfold insert_route. f_equal. apply Hext.
      intros i. rewrite lookup_insert. do 2 case_decide; set_solver.
    + pose proof (map_size_ne_0_lookup_2 _ _ (mk_is_Some _ _ E)) as Hne.
      split; [|rewrite map_size_delete_Some by done; lia]. f_equal. apply Hext. intros i. rewrite lookup_delete. do 2 case_decide; set_solver.
  - split; [|done]. rewrite <-(Hext (ro_routes r)), set_routes_routes; [done|].
    intros i. case_decide as Ei; [|done]. by apply list_elem_of_singleton in Ei as ->.
Qed.

Lemma alone_evict_loop closed now max_age visit n r :
  NoDup visit →
  let '(r', removed) := rt_alone (evict_loop_t closed now max_age visit n) r in
  r' = set_routes (evicted closed now max_age visit (ro_routes r)) r
  ∧ (removed + size (ro_routes r') = n + size (ro_routes r))%nat.
Proof.
  intros Hnd. revert n r. induction Hnd as [|k visit Hk Hnd IH]; intros n r; simpl.
  - split; [|done]. rewrite <-(set_routes_routes r) at 1. f_equal. apply map_eq. intros i.
    by rewrite evicted_lookup, decide_False by set_solver.
  - pose proof (evict_key_spec closed now max_age k r) as Hs.
    destruct (evict_key closed now max_age k r) as [r1 gone]. simpl.
    destruct Hs as [-> Hsize].
    match goal with |- context [rt_alone (evict_loop_t _ _ _ _ ?n') ?r1] => specialize (IH n' r1) end.
    destruct (rt_alone _ _) as [r' removed]. destruct IH as [-> IH]. split.
    + unfold set_routes. simpl. f_equal. apply map_eq. intros i. rewrite !evicted_lookup.
      repeat case_decide; set_solver.
    + rewrite IH. destruct gone; simpl in *; lia.
Qed.

Lemma alone_evict closed now age visit r :
  NoDup visit → (∀ k, is_Some (ro_routes r !! k) → k ∈ visit) →
  rt_alone (evict_idle_t closed now age visit) r = Router_evict_idle closed now r age.
Proof.
  intros Hnd Hall. unfold evict_idle_t. rewrite alone_bind.
  pose proof (alone_evict_loop closed now (from_secs age) visit 0 r Hnd) as H.
  destruct (rt_alone _ _) as [r' removed]. destruct H as [-> Hsize].
  assert (evicted closed now (from_secs age) visit (ro_routes r)
          = omap (evict_entry closed now (from_secs age)) (ro_routes r)) as E.
  { apply map_eq. intros k. rewrite evicted_lookup, lookup_omap. case_decide as Hk; [done|].
    destruct (ro_routes r !! k) eqn:Ek; [|done]. destruct Hk. apply Hall. by eexists. }
  pose proof (evict_removed closed now r age) as Hr. rewrite E in Hsize |- *. simpl in Hsize.
  unfold Router_evict_idle in *. simpl in *.
  match type of Hr with context [(0 <? ?n)%nat] => replace n with removed in Hr |- * end.
  - by destruct (0 <? removed)%nat.
  - pose proof (evict_sizes closed now (from_secs age) r). lia.
Qed.
