(* ===== verification/RouterRace.v ===== *)
(** * The router shared by the relay's tasks

    The tasks of the relay (the UDP loop, the WebSocket connections, the HTTP
    requests, the eviction timer) interleaved at the accesses to the router's
    concurrent maps ([RouterTasks.v]).  When one task at most creates sessions
    and one at most registers rooms, as in a relay without WebSocket clients,
    the calls are linearizable; with more, the invariant of the table still
    holds with a weaker limit, and two runs show what can go wrong. *)

From S2P Require Import Prelude.
From S2P Require Import CoreTypes.
From S2P Require Import Transport.
From S2P Require Import Router.
From S2P Require Import RouterTasks.
From stdpp Require Import gmap strings list relations.
#[local] Open Scope Z_scope.

(** ** Calls and tasks *)

Inductive rcall : Type :=
  | CRoute (now sid : Z) (from : SessionEndpoint)
  | CEvict (closed : Z → bool) (now max_age_secs : Z) (visit : list Z)
  | CRequest (clock : nat → Z) (sid : Z) (from : SocketAddr)
  | CRelease (now sid : Z) (from : SocketAddr)
  | CRegister (code : list Z) (sid : Z)
  | CRemove (code : list Z).

Inductive ranswer : Type :=
  | ARoute (d : RouteDecision)
  | AFloor (d : FloorDecision)
  | ACount (n : nat)
  | ABool (b : bool).

Definition answer {A} (f : A → ranswer) (t : rtask A) : rtask ranswer := a ← t; mret (f a).

Definition rcall_t (c : rcall) : rtask ranswer :=
  match c with
  | CRoute now sid from => answer ARoute (route_t now sid from)
  | CEvict closed now age visit => answer ACount (evict_idle_t closed now age visit)
  | CRequest clock sid from => answer AFloor (floor_request_t clock sid from)
  | CRelease now sid from => answer AFloor (floor_release_t now sid from)
  | CRegister code sid => answer ABool (register_room_t code sid)
  | CRemove code => answer ABool (remove_room_t code)
  end.

(** The calls as they should be: each takes effect in one step, and an
    eviction visits the entries one by one. *)
Definition rcall_atomic (c : rcall) : rtask ranswer :=
  match c with
  | CRoute now sid from => answer ARoute (rt_atomic (λ r, Router_route now r sid from))
  | CEvict closed now age visit =>
      answer ACount (evict_loop_t closed now (from_secs age) visit 0)
  | CRequest clock sid from => answer AFloor (floor_request_t clock sid from)
  | CRelease now sid from => answer AFloor (floor_release_t now sid from)
  | CRegister code sid => answer ABool (rt_atomic (λ r, Router_register_room r code sid))
  | CRemove code => answer ABool (remove_room_t code)
  end.

(** What a task of the relay does: calls in turn. *)
Fixpoint calls_t (call : rcall → rtask ranswer) (cs : list rcall) : rtask (list ranswer) :=
  match cs with
  | [] => mret []
  | c :: cs => a ← call c; rest ← calls_t call cs; mret (a :: rest)
  end.

(** The router and its tasks. *)
Abbreviation rpool := (Router * list (rtask (list ranswer)))%type.

Inductive rpool_step : rpool → rpool → Prop :=
  | RpStep r r' ts i f t' :
      ts !! i = Some (RtStep f) → f r = (r', t') → rpool_step (r, ts) (r', <[i := t']> ts).

(** Whether a task creates sessions, and whether it registers rooms. *)
Definition creates (cs : list rcall) : bool :=
  existsb (λ c, match c with CRoute _ _ _ => true | _ => false end) cs.
Definition registers (cs : list rcall) : bool :=
  existsb (λ c, match c with CRegister _ _ => true | _ => false end) cs.

Definition how_many (P : list rcall → bool) (css : list (list rcall)) : nat :=
  sum_list_with (λ cs, Nat.b2n (P cs)) css.

(** ** Tables *)

(** Equal but for the metrics. *)
Definition same_table (r s : Router) : Prop :=
  ro_routes r = ro_routes s ∧ ro_rooms r = ro_rooms s
  ∧ ro_max_sessions r = ro_max_sessions s
  ∧ ro_max_peers_per_session r = ro_max_peers_per_session s.

#[export] Instance same_table_equivalence : Equivalence same_table.
Proof.
  split; unfold same_table.
  - done.
  - intros r s (? & ? & ? & ?). done.
  - intros r s u (? & ? & ? & ?) (? & ? & ? & ?). split_and!; congruence.
Qed.

Lemma same_table_metrics h r : same_table r (upd_metrics h r).
Proof. done. Qed.

Definition same_limits (r r' : Router) : Prop :=
  ro_max_sessions r' = ro_max_sessions r
  ∧ ro_max_peers_per_session r' = ro_max_peers_per_session r.
Definition no_new_route (r r' : Router) : Prop :=
  ∀ k, ro_routes r !! k = None → ro_routes r' !! k = None.
Definition no_new_room (r r' : Router) : Prop :=
  ∀ k, ro_rooms r !! k = None → ro_rooms r' !! k = None.

Lemma no_new_route_size r r' :
  no_new_route r r' → (size (ro_routes r') ≤ size (ro_routes r))%nat.
Proof.
  intros Hn. rewrite <-!size_dom. apply subseteq_size. intros k.
  rewrite !elem_of_dom, <-!not_eq_None_Some. auto.
Qed.

(** A function of the table whose effect and answer do not depend on the
    metrics. *)
Definition table_op {A} (f : Router → Router * A) : Prop :=
  ∀ r s, same_table r s → same_table (f r).1 (f s).1 ∧ (f r).2 = (f s).2.

Ltac table_op :=
  intros [] [] (? & ? & ? & ?); simpl in *; subst; repeat case_match; simplify_eq/=; done.

Lemma table_op_route now sid from : table_op (λ r, Router_route now r sid from).
Proof. unfold Router_route, route_entry, route_create. table_op. Qed.
Lemma table_op_request clock sid from : table_op (λ r, Router_floor_request clock r sid from).
Proof. unfold Router_floor_request. table_op. Qed.
Lemma table_op_release now sid from : table_op (λ r, Router_floor_release now r sid from).
Proof. unfold Router_floor_release. table_op. Qed.
Lemma table_op_register code sid : table_op (λ r, Router_register_room r code sid).
Proof. unfold Router_register_room. table_op. Qed.
Lemma table_op_remove code : table_op (λ r, Router_remove_room r code).
Proof. unfold Router_remove_room. table_op. Qed.
Lemma table_op_evict closed now max_age k : table_op (evict_key closed now max_age k).
Proof. unfold evict_key. table_op. Qed.

(** ** Linearization

    A task of kind [k] may create sessions ([k.1]) and register rooms
    ([k.2]).  What it does not do itself it promises; what it does, it relies
    on the others not to do. *)

Definition guar (k : bool * bool) (r r' : Router) : Prop :=
  same_limits r r' ∧ (k.1 = false → no_new_route r r') ∧ (k.2 = false → no_new_room r r').
Definition rely (k : bool * bool) (r r' : Router) : Prop :=
  same_limits r r' ∧ (k.1 = true → no_new_route r r') ∧ (k.2 = true → no_new_room r r').
Definition stable (k : bool * bool) (I : Router → Prop) : Prop :=
  ∀ r r', rely k r r' → I r → I r'.

(** The task [t], in a table that satisfies [I], does what [a] does: each of
    its steps is a step of [a] or changes nothing but the metrics. *)
Fixpoint lin {A} (k : bool * bool) (t : rtask A) (I : Router → Prop) (a : rtask A) : Prop :=
  match t with
  | RtRet x => a = RtRet x
  | RtStep f => ∀ r, I r →
      let '(r', t') := f r in
      guar k r r'
      ∧ ∃ I', stable k I' ∧ I' r'
        ∧ ((same_table r r' ∧ lin k t' I' a)
           ∨ ∃ g, a = RtStep g
                  ∧ ∀ s, same_table r s → same_table r' (g s).1 ∧ lin k t' I' (g s).2)
  end.

Definition anything (r : Router) : Prop := True.

Section lin.
Context (k : bool * bool).

Lemma stable_anything : stable k anything.
Proof. done. Qed.

Lemma lin_weaken {A} (t a : rtask A) (I J : Router → Prop) :
  (∀ r, J r → I r) → lin k t I a → lin k t J a.
Proof. destruct t as [x|f]; simpl; [done|]. intros HJ Ht r Hr. by apply Ht, HJ. Qed.

Lemma lin_bind {A B} (t a : rtask A) (I : Router → Prop) (u v : A → rtask B) :
  lin k t I a → (∀ x, lin k (u x) anything (v x)) → lin k (t ≫= u) I (a ≫= v).
Proof.
  intros Ht Hu. revert I a Ht. induction t as [x|f IH] using rtask_tree_ind; intros I a; simpl.
  { intros ->. eapply lin_weaken; [|apply Hu]. done. }
  intros Ht r Hr. specialize (Ht r Hr). specialize (IH r). destruct (f r) as [r' t']. simpl in IH.
  destruct Ht as (Hg & I' & Hs & HI & Ht). split; [done|]. exists I'. do 2 (split; [done|]).
  destruct Ht as [[E Ht]|(g & -> & Ht)]; [left; eauto|]. right. eexists. split; [done|].
  intros s Hrs. destruct (Ht s Hrs) as [E Ht']. destruct (g s) as [s' a']. eauto.
Qed.

Lemma lin_answer {A} (f : A → ranswer) (t a : rtask A) I :
  lin k t I a → lin k (answer f t) I (answer f a).
Proof. intros Ht. by apply lin_bind. Qed.

(** A step that is its own linearization point. *)
Lemma lin_atomic {A} (f : Router → Router * A) :
  table_op f → (∀ r, guar k r (f r).1) → lin k (rt_atomic f) anything (rt_atomic f).
Proof.
  intros Hf Hg r _. specialize (Hg r). pose proof (Hf r) as Hr. destruct (f r) as [r' x].
  split; [done|]. exists anything. split; [apply stable_anything|]. split; [done|]. right.
  eexists. split; [done|]. intros s Hs. specialize (Hr s Hs) as [E1 E2].
  destruct (f s) as [s' y]. simpl in *. by subst.
Qed.

Lemma guar_same r r' : same_table r r' → guar k r r'.
Proof.
  intros (E1 & E2 & E3 & E4). unfold guar, same_limits, no_new_route, no_new_room.
  by rewrite E1, E2, E3, E4.
Qed.

(** A step that only changes the metrics. *)
Lemma lin_quiet {A B} (f : Router → Router * A) (u : A → rtask B) I a :
  (∀ r, same_table r (f r).1) → (∀ x, lin k (u x) anything a) →
  lin k (rt_atomic f ≫= u) I a.
Proof.
  intros Hf Hu r _. simpl. specialize (Hf r). destruct (f r) as [r' x]. simpl in *.
  split; [by apply guar_same|].
  exists anything. split; [apply stable_anything|]. split; [done|]. left. auto.
Qed.

Lemma lin_gauge {B} (u : unit → rtask B) I a :
  lin k (u tt) anything a → lin k (gauge_t ≫= u) I a.
Proof.
  intros Hu. change (gauge_t ≫= u) with
    (rt_read (λ self, size (ro_routes self)) ≫=
       λ n, rt_update (upd_metrics (set_active (Z.of_nat n))) ≫= u).
  apply lin_quiet; [done|]. intros n. apply lin_quiet; [done|]. by intros [].
Qed.

Lemma guar_evict closed now max_age i r : guar k r (evict_key closed now max_age i r).1.
Proof.
  unfold evict_key. destruct (ro_routes r !! i) eqn:E; [|by apply guar_same].
  destruct (evict_entry _ _ _ _); (split; [done|split; [|by intros _ j]]); intros _ j Hj; simpl.
  - rewrite lookup_insert_ne; [done|congruence].
  - rewrite lookup_delete. by case_decide.
Qed.

Lemma lin_evict_loop closed now max_age visit n :
  lin k (evict_loop_t closed now max_age visit n) anything
    (evict_loop_t closed now max_age visit n).
Proof.
  revert n. induction visit as [|i visit IH]; intros n; [done|]. cbn [evict_loop_t].
  apply lin_bind; [|intros gone; apply IH]. apply lin_atomic; [apply table_op_evict|].
  intros r. apply guar_evict.
Qed.

(** A step before the linearization point, or the point itself. *)
Lemma lin_step {A B} (f : Router → Router * A) (u : A → rtask B) (h : Router → Router * B)
    (I : Router → Prop) :
  table_op h →
  (∀ r, I r →
     (same_table r (f r).1
      ∧ ∃ I', stable k I' ∧ I' (f r).1 ∧ lin k (u (f r).2) I' (rt_atomic h))
     ∨ (guar k r (f r).1 ∧ same_table (f r).1 (h r).1
        ∧ lin k (u (f r).2) anything (RtRet (h r).2))) →
  lin k (rt_atomic f ≫= u) I (rt_atomic h).
Proof.
  intros Hh Hf r Hr. specialize (Hf r Hr). simpl. destruct (f r) as [r' x]. simpl in Hf.
  destruct Hf as [(E & I' & Hs & HI & Hu)|(Hg & E & Hu)].
  - split; [by apply guar_same|]. exists I'. do 2 (split; [done|]). by left.
  - split; [done|]. exists anything. split; [apply stable_anything|]. split; [done|]. right.
    eexists. split; [done|]. intros s Hs. destruct (Hh r s Hs) as [E1 E2].
    destruct (h s) as [s' y]. simpl in *. split; [by etrans|]. by rewrite <-E2.
Qed.

(** Silent steps after the last of [a]. *)
Lemma lin_then {A} (t a : rtask A) (I : Router → Prop) (u : A → rtask A) :
  lin k t I a → (∀ x, lin k (u x) anything (RtRet x)) → lin k (t ≫= u) I a.
Proof.
  intros Ht Hu. revert I a Ht. induction t as [x|f IH] using rtask_tree_ind; intros I a; simpl.
  { intros ->. eapply lin_weaken; [|apply Hu]. done. }
  intros Ht r Hr. specialize (Ht r Hr). specialize (IH r). destruct (f r) as [r' t']. simpl in IH.
  destruct Ht as (Hg & I' & Hs & HI & Ht). split; [done|]. exists I'. do 2 (split; [done|]).
  destruct Ht as [[E Ht]|(g & -> & Ht)]; [left; eauto|]. right. eexists. split; [done|].
  intros s Hrs. destruct (Ht s Hrs) as [E Ht']. eauto.
Qed.

Lemma lin_evict closed now age visit :
  lin k (evict_idle_t closed now age visit) anything
    (evict_loop_t closed now (from_secs age) visit 0).
Proof.
  apply lin_then; [apply lin_evict_loop|]. intros removed. case_match; [|done]. by apply lin_gauge.
Qed.
End lin.

Lemma route_at now sid from r :
  sid ≠ 0 →
  Router_route now r sid from
  = match ro_routes r !! sid with
    | Some e => route_entry now r sid from e
    | None => route_create now r sid from
    end.
Proof. intros Hz. unfold Router_route. by rewrite (proj2 (Z.eqb_neq _ _) Hz). Qed.

(** A task that creates sessions. *)
Lemma lin_route k now sid from :
  k.1 = true →
  lin k (route_t now sid from) anything (rt_atomic (λ r, Router_route now r sid from)).
Proof.
  intros Hk. unfold route_t. pose proof (table_op_route now sid from) as Hop.
  assert (∀ r r', same_limits r r' → ro_rooms r' = ro_rooms r → guar k r r') as Hg.
  { intros r r' ? E. split; [done|]. split; [congruence|]. intros _ j. by rewrite E. }
  destruct (Z.eqb_spec sid 0) as [->|Hz].
  { apply lin_step; [done|]. intros r _. right. by split; [apply guar_same|]. }
  apply lin_step; [done|]. intros r _. rewrite route_at by done. unfold route_known.
  destruct (ro_routes r !! sid) as [e|] eqn:He; cbn [fst snd].
  { right. destruct (route_entry now r sid from e) as [r' d] eqn:E. cbn [fst snd]. split; [|done].
    unfold route_entry in E. apply Hg; repeat case_match; simplify_eq/=; done. }
  left. split; [done|]. exists (λ r, ro_routes r !! sid = None).
  split; [by intros r1 r2 (_ & Hn & _); apply Hn|]. split; [done|]. clear r He.
  apply lin_step; [done|]. intros r He. rewrite route_at, He by done. unfold route_create.
  cbn [fst snd]. case_match eqn:Hfull.
  { right. split; [by apply guar_same|]. split; [done|]. by apply lin_quiet. }
  left. split; [done|].
  exists (λ r, ro_routes r !! sid = None ∧ (size (ro_routes r) < ro_max_sessions r)%nat).
  split.
  { intros r1 r2 ((Hl & _) & Hn & _) [Hr1 Hsz]. specialize (Hn Hk). split; [by apply Hn|].
    apply no_new_route_size in Hn. rewrite Hl. lia. }
  split; [by apply Nat.leb_gt in Hfull|]. clear r He Hfull.
  apply lin_step; [done|]. intros r [He Hsz]. right. rewrite route_at, He by done.
  unfold route_create. apply Nat.leb_gt in Hsz. rewrite Hsz. cbn [fst snd].
  split; [by apply Hg|]. split; [done|]. by apply lin_gauge.
Qed.

Lemma register_at code sid r :
  Router_register_room r code sid
  = if bool_decide (is_Some (ro_rooms r !! code)) then (r, false)
    else (insert_room code sid r, true).
Proof.
  unfold Router_register_room. destruct (ro_rooms r !! code); case_bool_decide as E; try done.
  by destruct E; eexists.
Qed.

(** A task that registers rooms. *)
Lemma lin_register k code sid :
  k.2 = true →
  lin k (register_room_t code sid) anything (rt_atomic (λ r, Router_register_room r code sid)).
Proof.
  intros Hk. unfold register_room_t. pose proof (table_op_register code sid) as Hop.
  apply lin_step; [done|]. intros r _. rewrite register_at. cbn [fst snd].
  case_bool_decide as He; [right; by split; [apply guar_same|]|]. left. split; [done|].
  exists (λ r, ro_rooms r !! code = None).
  split; [by intros r1 r2 (_ & _ & Hn); apply Hn|]. split; [by apply eq_None_not_Some|].
  clear r He. apply lin_step; [done|]. intros r He. right. rewrite register_at.
  rewrite bool_decide_false by (rewrite He; by intros []). cbn [fst snd].
  split; [|done]. split; [done|]. split; [by intros _ j|congruence].
Qed.

(** Updating an entry. *)
Lemma guar_update k r sid e e' :
  ro_routes r !! sid = Some e → guar k r (set_routes (<[sid := e']> (ro_routes r)) r).
Proof.
  intros He. split; [done|]. split; [|by intros _ j]. intros _ j Hj. simpl.
  rewrite lookup_insert_ne; [done|congruence].
Qed.
Lemma guar_request k clock sid from r : guar k r (Router_floor_request clock r sid from).1.
Proof.
  unfold Router_floor_request. destruct (ro_routes r !! sid) eqn:He; [|by apply guar_same].
  destruct (existsb _ _); simpl; [|by apply guar_same]. case_match; by eapply guar_update.
Qed.
Lemma guar_release k now sid from r : guar k r (Router_floor_release now r sid from).1.
Proof.
  unfold Router_floor_release. destruct (ro_routes r !! sid) eqn:He; [|by apply guar_same].
  case_match; [by apply guar_same|]. by eapply guar_update.
Qed.

(** The kind of a task. *)
Definition kind_of (cs : list rcall) : bool * bool := (creates cs, registers cs).
Definition permits (k : bool * bool) (c : rcall) : Prop :=
  match c with CRoute _ _ _ => k.1 = true | CRegister _ _ => k.2 = true | _ => True end.

Lemma lin_call k c : permits k c → lin k (rcall_t c) anything (rcall_atomic c).
Proof.
  intros Hc. destruct c; simpl in Hc; apply lin_answer.
  - by apply lin_route.
  - apply lin_evict.
  - apply lin_atomic; [apply table_op_request|]. intros r. apply guar_request.
  - apply lin_atomic; [apply table_op_release|]. intros r. apply guar_release.
  - by apply lin_register.
  - apply lin_atomic; [apply table_op_remove|]. intros r. split; [done|]. split; [by intros _ j|].
    intros _ j Hj. simpl. rewrite lookup_delete. by case_decide.
Qed.

Lemma lin_calls k cs :
  Forall (permits k) cs → lin k (calls_t rcall_t cs) anything (calls_t rcall_atomic cs).
Proof.
  induction 1 as [|c cs Hc _ IH]; [done|]. cbn [calls_t].
  apply lin_bind; [by apply lin_call|]. intros a. by apply lin_bind.
Qed.

Lemma permits_own cs : Forall (permits (kind_of cs)) cs.
Proof.
  apply Forall_forall. intros c Hc. destruct c; simpl; try done;
    apply existsb_exists; eexists; (split; [by apply list_elem_of_In|done]).
Qed.

(** ** The whole pool *)

(** No two tasks create sessions, and no two register rooms. *)
Definition apart (ks : list (bool * bool)) : Prop :=
  ∀ i j ki kj, ks !! i = Some ki → ks !! j = Some kj → i ≠ j →
    (kj.1 = true → ki.1 = false) ∧ (kj.2 = true → ki.2 = false).

Lemma guar_rely ki kj r r' :
  (kj.1 = true → ki.1 = false) → (kj.2 = true → ki.2 = false) → guar ki r r' → rely kj r r'.
Proof. intros H1 H2 (Hl & Hr & Hm). split; [done|]. split; auto. Qed.

Definition related (ks : list (bool * bool)) (p q : rpool) : Prop :=
  same_table p.1 q.1 ∧ length p.2 = length ks
  ∧ ∀ i k t, ks !! i = Some k → p.2 !! i = Some t →
      ∃ I a, q.2 !! i = Some a ∧ stable k I ∧ I p.1 ∧ lin k t I a.

Lemma related_step ks p p' q :
  apart ks → rpool_step p p' → related ks p q →
  ∃ q', rtc rpool_step q q' ∧ related ks p' q'.
Proof.
  intros Hap [r r' ts i f t' Hi Hf] (Hrs & Hlen & Hts). destruct q as [s as_]. simpl in *.
  destruct (lookup_lt_is_Some_2 ks i) as [k Hk]; [rewrite <-Hlen; by eapply lookup_lt_Some|].
  destruct (Hts i k _ Hk Hi) as (I & a & Ha & Hst & HI & Hl). specialize (Hl r HI).
  rewrite Hf in Hl. destruct Hl as (Hg & I' & Hst' & HI' & Hl).
  assert (∀ s' a', same_table r' s' → lin k t' I' a' →
    related ks (r', <[i := t']> ts) (s', <[i := a']> as_)) as Hrel.
  { intros s' a' E Ha'. split; [done|]. split; [cbn [snd]; by rewrite length_insert|]. cbn [fst snd].
    intros j kj tj Hkj Hj. destruct (decide (i = j)) as [<-|Hij].
    - rewrite list_lookup_insert_eq in Hj by by eapply lookup_lt_Some.
      assert (kj = k) as -> by congruence. injection Hj as <-. exists I', a'.
      by rewrite list_lookup_insert_eq by by eapply lookup_lt_Some.
    - rewrite list_lookup_insert_ne in Hj |- * by done.
      destruct (Hts j kj tj Hkj Hj) as (J & b & Hb & HJ & HJr & Hb').
      exists J, b. do 2 (split; [done|]). split; [|done]. eapply HJ; [|exact HJr].
      destruct (Hap i j k kj Hk Hkj Hij). by eapply guar_rely. }
  destruct Hl as [[E Hl]|(g & -> & Hl)].
  - exists (s, <[i := a]> as_). split; [by rewrite list_insert_id|]. apply Hrel; [|done].
    etrans; [by symmetry|done].
  - destruct (Hl s Hrs) as [E Hl']. destruct (g s) as [s' a'] eqn:Hgs.
    exists (s', <[i := a']> as_). split; [|by apply Hrel]. eapply rtc_once. by econstructor.
Qed.

Lemma related_steps ks p p' q :
  apart ks → rtc rpool_step p p' → related ks p q →
  ∃ q', rtc rpool_step q q' ∧ related ks p' q'.
Proof.
  intros Hap Hs. revert q. induction Hs as [p|p p1 p' Hp _ IH]; intros q Hq; [by exists q|].
  destruct (related_step ks p p1 q Hap Hp Hq) as (q1 & Hq1 & Hr1).
  destruct (IH q1 Hr1) as (q' & Hq' & Hr'). exists q'. split; [by etrans|done].
Qed.

Lemma related_start r css :
  related (kind_of <$> css) (r, calls_t rcall_t <$> css) (r, calls_t rcall_atomic <$> css).
Proof.
  split; [done|]. cbn [fst snd]. split; [by rewrite !length_fmap|]. intros i k t Hk Ht.
  apply list_lookup_fmap_Some in Hk as (cs & -> & Hcs).
  rewrite list_lookup_fmap, Hcs in Ht. injection Ht as <-.
  exists anything, (calls_t rcall_atomic cs). rewrite list_lookup_fmap, Hcs.
  do 3 (split; [done|]). apply lin_calls, permits_own.
Qed.

(** At most one of a list. *)
Lemma how_many_one P css i cs : css !! i = Some cs → P cs = true → (1 ≤ how_many P css)%nat.
Proof.
  intros Hi Hp. unfold how_many. revert i Hi.
  induction css as [|x css IH]; intros [|i] Hi; simplify_eq/=; [rewrite Hp; simpl; lia|].
  specialize (IH i Hi). lia.
Qed.
Lemma how_many_unique P css i j cs cs' :
  (how_many P css ≤ 1)%nat → css !! i = Some cs → css !! j = Some cs' →
  P cs = true → P cs' = true → i = j.
Proof.
  revert i j. induction css as [|x css IH]; intros [|i] [|j] Hle Hi Hj Hp Hp'; simplify_eq/=;
    try done; unfold how_many in Hle; simpl in Hle; fold (how_many P css) in Hle.
  - pose proof (how_many_one P css j cs' Hj Hp'). rewrite Hp in Hle. simpl in Hle. lia.
  - pose proof (how_many_one P css i cs Hi Hp). rewrite Hp' in Hle. simpl in Hle. lia.
  - f_equal. apply IH; try done. lia.
Qed.

Lemma apart_kinds css :
  (how_many creates css ≤ 1)%nat → (how_many registers css ≤ 1)%nat → apart (kind_of <$> css).
Proof.
  intros Hc Hr i j ki kj Hi Hj Hij.
  apply list_lookup_fmap_Some in Hi as (cs & -> & Hi), Hj as (cs' & -> & Hj). simpl.
  split; intros Hp; apply not_true_iff_false; intros Hp'; apply Hij.
  - by eapply (how_many_unique creates).
  - by eapply (how_many_unique registers).
Qed.

(** ** Termination *)

Inductive rsub {A} : rtask A → rtask A → Prop :=
  | RSub f r : rsub (f r).2 (RtStep f).

Lemma rsub_wf {A} : well_founded (rsub (A := A)).
Proof.
  intros t. induction t as [a|f IH] using rtask_tree_ind; constructor; intros t' Ht;
    inversion Ht; subst. apply IH.
Qed.

Lemma rpool_sn p : sn rpool_step p.
Proof.
  destruct p as [r ts]. revert r. induction (one_descends_wf _ rsub_wf ts) as [ts _ IH]. intros r.
  constructor. intros p' Hp. inversion Hp as [? r' ? i f t' Hi Hf]; subst. apply IH.
  exists i, (RtStep f), t'. split; [done|]. split; [|done].
  replace t' with (f r).2 by by rewrite Hf. constructor.
Qed.

Lemma rpool_nf r ts :
  nf rpool_step (r, ts) → ∀ i t, ts !! i = Some t → ∃ answers, t = RtRet answers.
Proof.
  intros Hnf i [a|f] Hi; [by eexists|]. destruct Hnf. destruct (f r) as [r' t'] eqn:Hf.
  eexists. by econstructor.
Qed.

(** ** What the relay's tasks can rely on *)

Lemma linearize r css p :
  (how_many creates css ≤ 1)%nat → (how_many registers css ≤ 1)%nat →
  rtc rpool_step (r, calls_t rcall_t <$> css) p →
  ∃ q, rtc rpool_step (r, calls_t rcall_atomic <$> css) q ∧ same_table p.1 q.1
    ∧ ∀ i answers, p.2 !! i = Some (RtRet answers) → q.2 !! i = Some (RtRet answers).
Proof.
  intros Hc Hr Hp.
  destruct (related_steps _ _ _ _ (apart_kinds css Hc Hr) Hp (related_start r css))
    as (q & Hq & Hrs & Hlen & Hts).
  exists q. do 2 (split; [done|]). intros i answers Hi.
  destruct (lookup_lt_is_Some_2 (kind_of <$> css) i) as [k Hk].
  { rewrite <-Hlen. by eapply lookup_lt_Some. }
  destruct (Hts i k _ Hk Hi) as (I & a & Ha & _ & _ & ->). done.
Qed.

(** C20: when one task at most creates sessions and one at most registers
    rooms, the calls on the relay's router are linearizable: at every
    interleaving of their accesses to the concurrent maps the table and the
    answers of the calls that have returned are those of a run in which each
    call takes effect in one step (an eviction: in one step per entry it
    visits), in which the tasks make the same calls in the same order.  And
    the calls return: only finitely many steps can be taken, and when none
    can, every task has answered all its calls. *)
Theorem relay_linearizable r css p :
  (how_many creates css ≤ 1)%nat → (how_many registers css ≤ 1)%nat →
  rtc rpool_step (r, calls_t rcall_t <$> css) p →
  (∃ q, rtc rpool_step (r, calls_t rcall_atomic <$> css) q ∧ same_table p.1 q.1
     ∧ ∀ i answers, p.2 !! i = Some (RtRet answers) → q.2 !! i = Some (RtRet answers))
  ∧ sn rpool_step p
  ∧ (nf rpool_step p → ∀ i t, p.2 !! i = Some t → ∃ answers, t = RtRet answers).
Proof.
  intros Hc Hr Hp. split; [by apply linearize|]. split; [apply rpool_sn|destruct p; apply rpool_nf].
Qed.

(** ** The table with any number of creating tasks *)

Record table_inv (r : Router) : Prop := {
  ti_zero : ro_routes r !! 0 = None;
  ti_entries : map_Forall (λ _, entry_inv (ro_max_peers_per_session r)) (ro_routes r);
}.

(** The router with the limit and the gauge its table asks for. *)
Definition fitting (r : Router) : Router :=
  mkRouter (ro_routes r) (ro_rooms r) (size (ro_routes r)) (ro_max_peers_per_session r)
    (set_active (Z.of_nat (size (ro_routes r))) (ro_metrics r)).

Lemma fitting_inv r : table_inv r → router_inv (fitting r).
Proof. intros []. by constructor. Qed.

(** So an operation that does not look at the limit keeps the table. *)
Lemma table_inv_op {A} (f : Router → Router * A) r :
  table_inv r →
  (router_inv (fitting r) → router_inv (f (fitting r)).1) →
  ro_routes (f r).1 = ro_routes (f (fitting r)).1 →
  ro_max_peers_per_session (f r).1 = ro_max_peers_per_session (f (fitting r)).1 →
  table_inv (f r).1.
Proof.
  intros Hr Hf E1 E2. destruct (Hf (fitting_inv r Hr)). constructor; rewrite E1; [done|].
  by rewrite E2.
Qed.

Lemma table_inv_same r r' : same_table r r' → table_inv r → table_inv r'.
Proof. intros (E1 & _ & _ & E4) []. constructor; by rewrite <-?E1, <-?E4. Qed.

Ltac route_entry_cases :=
  unfold route_entry; cbn [fitting re_peers ro_max_peers_per_session];
  destruct (existsb _ _); [|destruct (_ <=? _)%nat].

Lemma table_inv_known now sid from r :
  table_inv r → table_inv (route_known now sid from r).1.
Proof.
  intros Hr. apply table_inv_op; [done|..]; unfold route_known; cbn [fitting ro_routes].
  - intros Hf. destruct (ro_routes r !! sid) as [e|] eqn:He; [|done].
    pose proof (route_entry_inv now (fitting r) sid from e Hf He) as H.
    by destruct (route_entry _ _ _ _ _).
  - destruct (ro_routes r !! sid); [|done]. by route_entry_cases.
  - destruct (ro_routes r !! sid); [|done]. by route_entry_cases.
Qed.
Lemma table_inv_request clock sid from r :
  table_inv r → table_inv (Router_floor_request clock r sid from).1.
Proof.
  intros Hr. apply (table_inv_op (λ r, Router_floor_request clock r sid from)); [done|..].
  - apply request_inv.
  - unfold Router_floor_request. cbn [fitting ro_routes]. by repeat case_match.
  - unfold Router_floor_request. cbn [fitting ro_routes]. by repeat case_match.
Qed.
Lemma table_inv_release now sid from r :
  table_inv r → table_inv (Router_floor_release now r sid from).1.
Proof.
  intros Hr. apply (table_inv_op (λ r, Router_floor_release now r sid from)); [done|..].
  - apply release_inv.
  - unfold Router_floor_release. cbn [fitting ro_routes]. by repeat case_match.
  - unfold Router_floor_release. cbn [fitting ro_routes]. by repeat case_match.
Qed.
Lemma table_inv_evict closed now max_age k r :
  table_inv r → table_inv (evict_key closed now max_age k r).1.
Proof.
  intros [Hz He]. unfold evict_key. destruct (ro_routes r !! k) as [e|] eqn:Hk; [|done].
  destruct (evict_entry closed now max_age e) as [e'|] eqn:Hev; constructor; simpl.
  - rewrite lookup_insert_ne; [done|congruence].
  - apply map_Forall_insert_2; [|done]. eapply ei_retain; [by eapply He|done].
  - rewrite lookup_delete. by case_decide.
  - by apply map_Forall_delete.
Qed.
Lemma table_inv_first now sid from r :
  sid ≠ 0 → table_inv r → table_inv (insert_route sid (first_entry now from) r).
Proof.
  intros Hs [Hz He]. constructor; simpl; [by rewrite lookup_insert_ne|].
  apply map_Forall_insert_2; [apply ei_first|done].
Qed.

(** ** The number of sessions

    [pend] says whether the task has found room for a session and is about to
    insert it, which only a creating task ([cr]) does. *)

Fixpoint bounded {A} (cr pend : bool) (t : rtask A) : Prop :=
  match t with
  | RtRet _ => True
  | RtStep f => ∀ r, table_inv r →
      let '(r', t') := f r in
      table_inv r' ∧ same_limits r r'
      ∧ ∃ pend' : bool, (pend' = true → cr = true)
        ∧ (size (ro_routes r') + Nat.b2n pend' ≤ size (ro_routes r) + Nat.b2n pend
           ∨ size (ro_routes r') < ro_max_sessions r
             ∧ size (ro_routes r') ≤ size (ro_routes r))%nat
        ∧ bounded cr pend' t'
  end.

Lemma bounded_bind {A B} cr pend (t : rtask A) (u : A → rtask B) :
  bounded cr pend t → (∀ pend' x, bounded cr pend' (u x)) → bounded cr pend (t ≫= u).
Proof.
  intros Ht Hu. revert pend Ht. induction t as [x|f IH] using rtask_tree_ind; intros pend Ht.
  { apply Hu. }
  intros r Hr. simpl. specialize (Ht r Hr). specialize (IH r). destruct (f r) as [r' t'].
  destruct Ht as (Hr' & Hl & pend' & Hp & Hs & Ht). do 2 (split; [done|]). exists pend'. auto.
Qed.

Lemma bounded_step {A B} cr pend (f : Router → Router * A) (u : A → rtask B) :
  (∀ r, table_inv r → table_inv (f r).1 ∧ same_limits r (f r).1
     ∧ ∃ pend' : bool, (pend' = true → cr = true)
       ∧ (size (ro_routes (f r).1) + Nat.b2n pend' ≤ size (ro_routes r) + Nat.b2n pend
          ∨ size (ro_routes (f r).1) < ro_max_sessions r
            ∧ size (ro_routes (f r).1) ≤ size (ro_routes r))%nat
       ∧ bounded cr pend' (u (f r).2)) →
  bounded cr pend (rt_atomic f ≫= u).
Proof. intros Hf r Hr. simpl. specialize (Hf r Hr). by destruct (f r). Qed.

(** A step that inserts nothing. *)
Lemma bounded_atomic {A B} cr pend (f : Router → Router * A) (u : A → rtask B) :
  (∀ r, table_inv r → table_inv (f r).1) → (∀ r, guar (false, true) r (f r).1) →
  (∀ x, bounded cr false (u x)) → bounded cr pend (rt_atomic f ≫= u).
Proof.
  intros Ht Hg Hu. apply bounded_step. intros r Hr. destruct (Hg r) as (Hl & Hn & _).
  split; [by apply Ht|]. split; [done|]. exists false. split; [done|]. split; [|apply Hu]. left.
  pose proof (no_new_route_size _ _ (Hn eq_refl)). simpl. lia.
Qed.

Lemma bounded_quiet {A B} cr pend (f : Router → Router * A) (u : A → rtask B) :
  (∀ r, same_table r (f r).1) → (∀ x, bounded cr false (u x)) →
  bounded cr pend (rt_atomic f ≫= u).
Proof.
  intros Hf Hu. apply bounded_atomic; [|by intros r; apply guar_same|done].
  intros r. by apply table_inv_same.
Qed.

Lemma bounded_gauge {B} cr pend (u : unit → rtask B) :
  bounded cr false (u tt) → bounded cr pend (gauge_t ≫= u).
Proof.
  intros Hu. change (gauge_t ≫= u) with
    (rt_read (λ self, size (ro_routes self)) ≫=
       λ n, rt_update (upd_metrics (set_active (Z.of_nat n))) ≫= u).
  apply bounded_quiet; [done|]. intros n. apply bounded_quiet; [done|]. by intros [].
Qed.

(** The two steps of [route] between which the table may fill up. *)
Lemma bounded_route pend now sid from : bounded true pend (route_t now sid from).
Proof.
  unfold route_t. destruct (Z.eqb_spec sid 0) as [->|Hz]; [by apply bounded_quiet|].
  apply bounded_atomic.
  { intros r. apply table_inv_known. }
  { intros r. unfold route_known. destruct (ro_routes r !! sid) eqn:He; [|by apply guar_same].
    unfold route_entry. destruct (existsb _ _); [by eapply guar_update|].
    destruct (_ <=? _)%nat; by eapply guar_update. }
  intros [d|]; [done|]. apply bounded_step. intros r Hr. cbn [fst snd]. do 2 (split; [done|]).
  destruct (_ <=? _)%nat eqn:Hfull.
  { exists false. split; [done|]. split; [left; simpl; lia|]. by apply bounded_quiet. }
  apply Nat.leb_gt in Hfull. exists true. split; [done|]. split; [by right|]. clear r Hr Hfull.
  apply bounded_step. intros r Hr. cbn [fst snd]. split; [by apply table_inv_first|].
  split; [done|]. exists false. split; [done|]. split; [left; simpl|by apply bounded_gauge].
  rewrite map_size_insert. destruct (ro_routes r !! sid); simpl; lia.
Qed.

Lemma bounded_evict cr pend closed now age visit :
  bounded cr pend (evict_idle_t closed now age visit).
Proof.
  unfold evict_idle_t. apply bounded_bind.
  - generalize 0%nat. revert pend. induction visit as [|i visit IH]; intros pend n; [done|].
    cbn [evict_loop_t]. apply bounded_atomic; [| |intros gone; apply IH].
    + intros r. apply table_inv_evict.
    + intros r. apply guar_evict.
  - intros pend' removed. destruct (0 <? removed)%nat; [by apply bounded_gauge|done].
Qed.

Lemma bounded_call cr pend c :
  (∀ now sid from, c = CRoute now sid from → cr = true) → bounded cr pend (rcall_t c).
Proof.
  intros Hc. destruct c; cbn [rcall_t]; unfold answer.
  - rewrite (Hc _ _ _ eq_refl). apply bounded_bind; [apply bounded_route|done].
  - apply bounded_bind; [apply bounded_evict|done].
  - apply bounded_atomic; [|intros r; apply guar_request|done]. intros r. apply table_inv_request.
  - apply bounded_atomic; [|intros r; apply guar_release|done]. intros r. apply table_inv_release.
  - apply bounded_bind; [|done]. apply bounded_quiet; [done|]. intros []; [done|].
    apply bounded_atomic; [by intros r []| |done]. intros r. split; [done|]. split; [by intros _ j|done].
  - apply bounded_atomic; [by intros r []| |done]. intros r. split; [done|].
    split; [by intros _ j|done].
Qed.

Lemma bounded_calls cs : ∀ cr pend,
  (creates cs = true → cr = true) → bounded cr pend (calls_t rcall_t cs).
Proof.
  induction cs as [|c cs IH]; intros cr pend Hcr; [done|]. cbn [calls_t].
  unfold creates in Hcr. simpl in Hcr. apply bounded_bind.
  - apply bounded_call. intros now sid from ->. by apply Hcr.
  - intros pend' a. apply bounded_bind; [|done]. apply IH. intros H. apply Hcr.
    apply orb_true_iff. by right.
Qed.

(** A bound on the sessions of a pool with creating tasks [crs]. *)
Definition pool_bounded (crs : list bool) (p : rpool) : Prop :=
  table_inv p.1 ∧ length p.2 = length crs
  ∧ ∃ pends, Forall2 (λ pend cr : bool, pend = true → cr = true) pends crs
    ∧ (size (ro_routes p.1) + sum_list_with Nat.b2n pends
       ≤ ro_max_sessions p.1 + pred (sum_list_with Nat.b2n crs))%nat
    ∧ ∀ i cr pend t, crs !! i = Some cr → pends !! i = Some pend → p.2 !! i = Some t →
        bounded cr pend t.

Lemma sum_b2n_insert pends i pend pend' :
  pends !! i = Some pend →
  (sum_list_with Nat.b2n (<[i := pend']> pends) + Nat.b2n pend
   = sum_list_with Nat.b2n pends + Nat.b2n pend')%nat.
Proof.
  revert i. induction pends as [|b pends IH]; intros [|i] Hi; simplify_eq/=; [lia|].
  specialize (IH i Hi). lia.
Qed.
Lemma sum_b2n_le pends crs :
  Forall2 (λ pend cr : bool, pend = true → cr = true) pends crs →
  (sum_list_with Nat.b2n pends ≤ sum_list_with Nat.b2n crs)%nat.
Proof.
  induction 1 as [|[] cr pends crs H _ IH]; simpl; [lia| |destruct cr; simpl; lia].
  rewrite H by done. simpl. lia.
Qed.

Lemma pool_bounded_step crs p p' : rpool_step p p' → pool_bounded crs p → pool_bounded crs p'.
Proof.
  intros [r r' ts i f t' Hi Hf] (Hr & Hlen & pends & Hps & Hsum & Hts). cbn [fst snd] in *.
  pose proof (Forall2_length _ _ _ Hps) as Hlen'. pose proof (lookup_lt_Some _ _ _ Hi) as Hlt.
  destruct (lookup_lt_is_Some_2 crs i) as [cr Hcr]; [lia|].
  destruct (lookup_lt_is_Some_2 pends i) as [pend Hpend]; [lia|].
  pose proof (Hts i cr pend _ Hcr Hpend Hi r Hr) as Hb. rewrite Hf in Hb.
  destruct Hb as (Hr' & [Hl _] & pend' & Hp & Hs & Hb). split; [done|]. cbn [fst snd].
  split; [by rewrite length_insert|]. exists (<[i := pend']> pends).
  assert (Forall2 (λ pend cr : bool, pend = true → cr = true) (<[i := pend']> pends) crs) as Hps'.
  { rewrite <-(list_insert_id crs i cr) by done. by apply Forall2_insert. }
  split; [done|]. split.
  - pose proof (sum_b2n_insert pends i pend pend' Hpend). pose proof (sum_b2n_le _ _ Hps').
    rewrite Hl. destruct Hs as [Hs|[Hs _]]; lia.
  - intros j crj pj tj Hcj Hpj Hj. destruct (decide (i = j)) as [<-|Hij].
    + rewrite list_lookup_insert_eq in Hpj by lia. rewrite list_lookup_insert_eq in Hj by lia.
      by simplify_eq.
    + rewrite list_lookup_insert_ne in Hpj by done. rewrite list_lookup_insert_ne in Hj by done.
      by eapply Hts.
Qed.

Lemma pool_bounded_start r css :
  router_inv r → pool_bounded (creates <$> css) (r, calls_t rcall_t <$> css).
Proof.
  intros []. split; [by constructor|]. cbn [fst snd]. split; [by rewrite !length_fmap|].
  exists (replicate (length css) false). split; [|split].
  - induction css; simpl; by constructor.
  - assert (sum_list_with Nat.b2n (replicate (length css) false) = 0%nat) as ->; [|lia].
    induction css; simpl; lia.
  - intros i cr pend t Hcr _ Ht. apply list_lookup_fmap_Some in Hcr as (cs & -> & Hcs).
    rewrite list_lookup_fmap, Hcs in Ht. injection Ht as <-. by apply bounded_calls.
Qed.

(** C22: with any number of tasks, at every interleaving: no session has id 0,
    every session has members, without duplicates and at most
    [max_peers_per_session] (one of them at least), and a floor holder is a
    member; and the limit on sessions is exceeded by at most one per creating
    task but the first, so that it is exact when one task creates them. *)
Theorem relay_concurrent_limits r css p :
  router_inv r → rtc rpool_step (r, calls_t rcall_t <$> css) p →
  ro_routes p.1 !! 0 = None
  ∧ map_Forall (λ _, entry_inv (ro_max_peers_per_session p.1)) (ro_routes p.1)
  ∧ (size (ro_routes p.1) ≤ ro_max_sessions p.1 + pred (how_many creates css))%nat.
Proof.
  intros Hr Hp. assert (pool_bounded (creates <$> css) p) as Hb.
  { pose proof (pool_bounded_start r css Hr) as H0. revert H0.
    induction Hp; eauto using pool_bounded_step. }
  destruct Hb as ([Hz He] & _ & pends & _ & Hsum & _). do 2 (split; [done|]).
  assert (sum_list_with Nat.b2n (creates <$> css) = how_many creates css) as E.
  { clear. unfold how_many. induction css as [|cs css IH]; simpl; [done|]. f_equal. exact IH. }
  lia.
Qed.

(** ** Runs *)

Definition rp_at (i : nat) (p : rpool) : option rpool :=
  match p.2 !! i with
  | Some (RtStep f) => let '(r', t') := f p.1 in Some (r', <[i := t']> p.2)
  | _ => None
  end.

Fixpoint rp_run (sched : list nat) (p : rpool) : option rpool :=
  match sched with
  | [] => Some p
  | i :: sched => p ← rp_at i p; rp_run sched p
  end.

Lemma rp_run_steps sched p p' : rp_run sched p = Some p' → rtc rpool_step p p'.
Proof.
  revert p. induction sched as [|i sched IH]; intros p; simpl; [by intros [= ->]|].
  intros (p1 & Hp & Hr)%bind_Some. eapply rtc_l; [|by apply IH]. unfold rp_at in Hp.
  destruct p as [r ts]. simpl in Hp. destruct (ts !! i) as [[|f]|] eqn:Hi; try discriminate.
  destruct (f r) as [r' t'] eqn:Hf. injection Hp as <-. by econstructor.
Qed.

(** The answers of the tasks and the members of session 7 at the end. *)
Definition rp_result (o : option rpool) :
    option (list (list ranswer) * list SessionEndpoint * option SocketAddr) :=
  p ← o;
  answers ← mapM (λ t, match t with RtRet a => Some a | RtStep _ => None end) p.2;
  Some (answers, members (ro_routes p.1 !! 7), Router_floor_holder p.1 7).

(** The UDP task: two peers register, and both ask for the floor. *)
Definition udp_task : list rcall :=
  [CRoute 1 7 (Udp (udp_peer 1)); CRequest (λ _, 2) 7 (udp_peer 1);
   CRoute 3 7 (Udp (udp_peer 2)); CRequest (λ _, 4) 7 (udp_peer 2)].
Definition ws_task : list rcall := [CRoute 1 7 (WebSocket 5)].

Definition two_creators : rpool :=
  (Router_new 10 3 RelayMetrics_new, calls_t rcall_t <$> [udp_task; ws_task]).

(** A WebSocket task that has found no session 7 inserts it after the UDP task
    has created it and granted its floor: the first peer is no longer a
    member, and the floor is granted to the second while the first holds it.
    In turn the second request is refused. *)
Example floor_granted_twice :
  rp_result (rp_run (replicate 8 0%nat ++ [1%nat]) two_creators)
    = Some ([[ARoute Registered; AFloor (Granted []); ARoute (Broadcast [Udp (udp_peer 1)]);
              AFloor Denied];
             [ARoute (Broadcast [Udp (udp_peer 1); Udp (udp_peer 2)])]],
            [Udp (udp_peer 1); Udp (udp_peer 2); WebSocket 5], Some (udp_peer 1))
  ∧ rp_result (rp_run ([1; 1] ++ replicate 6 0 ++ replicate 3 1 ++ replicate 2 0)%nat two_creators)
    = Some ([[ARoute Registered; AFloor (Granted []); ARoute (Broadcast [WebSocket 5]);
              AFloor (Granted [WebSocket 5])];
             [ARoute Registered]],
            [WebSocket 5; Udp (udp_peer 2)], Some (udp_peer 2)).
Proof. split; vm_compute; reflexivity. Qed.

(** Two requests register the same code of a room, and both are told they
    did. *)
Example room_registered_twice :
  let p := (Router_new 10 3 RelayMetrics_new,
            calls_t rcall_t <$> [[CRegister [65; 66] 7]; [CRegister [65; 66] 8]]) in
  rp_result (rp_run [0; 1; 0; 1]%nat p) = Some ([[ABool true]; [ABool true]], [], None)
  ∧ (p ← rp_run [0; 1; 0; 1]%nat p; Router_resolve_room p.1 [65; 66]) = Some 8.
Proof. split; vm_compute; reflexivity. Qed.

(** The eviction of one session reads the number of sessions before another is
    inserted and publishes it afterwards: the gauge stays wrong. *)
Example gauge_left_behind :
  let r := (Router_route 0 (Router_new 10 3 RelayMetrics_new) 7 (Udp (udp_peer 1))).1 in
  let p := (r, calls_t rcall_t <$> [[CEvict (λ _, false) 1000000000000 60 [7]];
                                    [CRoute 1 8 (Udp (udp_peer 2))]]) in
  (p ← rp_run ([0; 0] ++ replicate 5 1 ++ [0])%nat p;
   Some (size (ro_routes p.1), rm_active_sessions (ro_metrics p.1))) = Some (1%nat, 0).
Proof. vm_compute. reflexivity. Qed.

(** ** Witnesses *)

Definition evict_task : list rcall := [CEvict (λ _, false) 5 60 [7]].
Definition http_task : list rcall := [CRegister [65; 66] 7; CRemove [65; 66]].

(** The UDP task between its lookup and its insertion is overtaken by the
    other two. *)
Definition udp_relay : list nat :=
  [0; 0; 2; 1; 2; 0; 2; 0; 0]%nat ++ replicate 3 0%nat.

Lemma rp_result_Some o answers ms h :
  rp_result o = Some (answers, ms, h) → ∃ p, o = Some p ∧ p.2 = RtRet <$> answers.
Proof.
  unfold rp_result. intros (p & -> & (xs & Hx & [= -> _ _])%bind_Some)%bind_Some.
  exists p. split; [done|]. apply mapM_Some_1 in Hx.
  induction Hx as [|t a ts answers Ht _ IH]; [done|]. simpl.
  destruct t; [|done]. injection Ht as ->. by f_equal.
Qed.

Lemma relay_linearizable_witness :
  ∃ p q, rp_run udp_relay
           (Router_new 10 3 RelayMetrics_new,
            calls_t rcall_t <$> [udp_task; evict_task; http_task]) = Some p
    ∧ rtc rpool_step (Router_new 10 3 RelayMetrics_new,
                      calls_t rcall_atomic <$> [udp_task; evict_task; http_task]) q
    ∧ same_table p.1 q.1
    ∧ q.2 !! 0%nat = Some (RtRet [ARoute Registered; AFloor (Granted []);
                                  ARoute (Broadcast [Udp (udp_peer 1)]); AFloor Denied]).
Proof.
  destruct (rp_result_Some (rp_run udp_relay
    (Router_new 10 3 RelayMetrics_new, calls_t rcall_t <$> [udp_task; evict_task; http_task]))
    [[ARoute Registered; AFloor (Granted []); ARoute (Broadcast [Udp (udp_peer 1)]); AFloor Denied];
     [ACount 0]; [ABool true; ABool true]]
    [Udp (udp_peer 1); Udp (udp_peer 2)] (Some (udp_peer 1))) as (p & Hp & Ha);
    [vm_compute; reflexivity|].
  destruct (relay_linearizable (Router_new 10 3 RelayMetrics_new)
              [udp_task; evict_task; http_task] p) as [(q & Hq & Hs & Hans) _];
    [vm_compute; lia|vm_compute; lia|exact (rp_run_steps _ _ _ Hp)|].
  exists p, q. split; [exact Hp|]. split; [exact Hq|]. split; [exact Hs|].
  apply Hans. rewrite Ha. reflexivity.
Defined.

(** The limit of one session is exceeded. *)
Definition one_session : rpool :=
  (Router_new 1 3 RelayMetrics_new,
   calls_t rcall_t <$> [[CRoute 1 7 (Udp (udp_peer 1))]; [CRoute 1 8 (WebSocket 5)]]).

Lemma relay_concurrent_limits_witness :
  ∃ p, rp_run [0; 0; 1; 1; 0; 1]%nat one_session = Some p
    ∧ size (ro_routes p.1) = 2%nat ∧ (size (ro_routes p.1) ≤ 1 + 1)%nat
    ∧ ro_routes p.1 !! 0 = None.
Proof.
  assert ((λ p : rpool, (size (ro_routes p.1), ro_max_sessions p.1))
            <$> rp_run [0; 0; 1; 1; 0; 1]%nat one_session = Some (2%nat, 1%nat)) as H
    by (vm_compute; reflexivity).
  apply fmap_Some in H as (p & Hp & [= Hsize Hmax]). exists p. split; [exact Hp|].
  split; [exact (eq_sym Hsize)|].
  destruct (relay_concurrent_limits (Router_new 1 3 RelayMetrics_new)
    [[CRoute 1 7 (Udp (udp_peer 1))]; [CRoute 1 8 (WebSocket 5)]] p) as (Hz & _ & Hle).
  - constructor; [reflexivity|vm_compute; lia|apply map_Forall_empty|reflexivity].
  - exact (rp_run_steps _ _ _ Hp).
  - rewrite <-Hmax in Hle. split; [exact Hle|exact Hz].
Defined.
