(* ===== verification/RouterFloor.v ===== *)
(** * The floor between the relay's tasks

    A relay that is used over UDP only has one task that creates sessions, so
    that its calls are linearizable ([RouterRace.v]); with that the floor is
    exclusive also between the steps of the tasks. *)

From S2P Require Import Prelude.
From S2P Require Import CoreTypes.
From S2P Require Import Transport.
From S2P Require Import Router.
From S2P Require Import RouterTasks.
From S2P Require Import RouterRace.
From stdpp Require Import gmap strings list relations.
#[local] Open Scope Z_scope.

Lemma table_inv_route now sid from r : table_inv r → table_inv (Router_route now r sid from).1.
Proof.
  intros Hr. destruct (decide (sid = 0)) as [->|Hz].
  { by apply (table_inv_same r); [|done]. }
  rewrite route_at by done. destruct (ro_routes r !! sid) as [e|] eqn:He.
  - pose proof (table_inv_known now sid from r Hr) as H. unfold route_known in H. rewrite He in H.
    by destruct (route_entry _ _ _ _ _).
  - unfold route_create. case_match; simpl; [by apply (table_inv_same r)|].
    by apply (table_inv_same (insert_route sid (first_entry now from) r)), table_inv_first.
Qed.

(** The operation a call performs. *)
Definition call_op (c : rcall) : rop :=
  match c with
  | CRoute now sid from => RRoute now sid from
  | CEvict closed now age _ => REvict closed now age
  | CRequest clock sid from => RRequest clock sid from
  | CRelease now sid from => RRelease now sid from
  | CRegister code sid => RRegister code sid
  | CRemove code => RRemove code
  end.

(** A call on the floor of [sid] that is refused. *)
Definition refused (sid : Z) (c : rcall) (a : ranswer) : Prop :=
  match c with
  | CRequest _ sid' _ | CRelease _ sid' _ => sid' = sid → a = AFloor Denied ∨ a = AFloor Unknown
  | _ => True
  end.

Section floor.
Context (sid : Z) (a : SocketAddr) (t last : Z).

(** [a] holds the floor of a well-formed table. *)
Definition floor_held (r : Router) : Prop := table_inv r ∧ holds r sid a t last.

(** Every step keeps_floor the floor, and the task ends in [Q]. *)
Fixpoint keeps_floor {A} (u : rtask A) (Q : A → Prop) : Prop :=
  match u with
  | RtRet x => Q x
  | RtStep f => ∀ r, floor_held r → floor_held (f r).1 ∧ keeps_floor (f r).2 Q
  end.

Lemma floor_bind {A B} (u : rtask A) (v : A → rtask B) (P : A → Prop) (Q : B → Prop) :
  keeps_floor u P → (∀ x, P x → keeps_floor (v x) Q) → keeps_floor (u ≫= v) Q.
Proof.
  intros Hu Hv. induction u as [x|f IH] using rtask_tree_ind; [by apply Hv|].
  intros r Hr. specialize (IH r). destruct (Hu r Hr) as [Hr' Hu']. simpl.
  destruct (f r) as [r' u']. auto.
Qed.

Lemma floor_atomic {A} (f : Router → Router * A) (Q : A → Prop) :
  (∀ r, floor_held r → floor_held (f r).1 ∧ Q (f r).2) → keeps_floor (rt_atomic f) Q.
Proof. intros Hf r Hr. simpl. specialize (Hf r Hr). by destruct (f r). Qed.

Lemma held_evict_key closed now max_age k r :
  floor_held r → elapsed now last < max_age → floor_held (evict_key closed now max_age k r).1.
Proof.
  intros [Hr Hh] Hidle. split; [by apply table_inv_evict|]. unfold evict_key.
  destruct (ro_routes r !! k) as [e|] eqn:He; [|done].
  destruct (decide (k = sid)) as [->|Hne].
  - destruct Hh as (e1 & He1 & Ha & Ht & Hl). assert (e1 = e) as -> by congruence.
    destruct (evict_entry_kept _ closed now max_age e a last (ti_entries _ Hr _ _ He))
      as (e' & -> & Ha' & Ht' & Hl'); [done..|].
    apply holds_insert; [congruence..|lia].
  - destruct (evict_entry closed now max_age e); eapply holds_other; try exact Hh; simpl.
    + by rewrite lookup_insert_ne.
    + by rewrite lookup_delete_ne.
Qed.

Lemma floor_evict_loop closed now max_age visit n :
  elapsed now last < max_age → keeps_floor (evict_loop_t closed now max_age visit n) (λ _, True).
Proof.
  intros Hidle. revert n. induction visit as [|k visit IH]; intros n; [done|].
  cbn [evict_loop_t]. eapply floor_bind; [|intros gone _; apply IH].
  apply (floor_atomic _ (λ _, True)). intros r Hr. split; [by apply held_evict_key|done].
Qed.

(** Within the hold time every call keeps_floor the floor and is refused it. *)
Lemma floor_call c :
  within_hold sid a t last (call_op c) → keeps_floor (rcall_atomic c) (refused sid c).
Proof.
  intros Hw. destruct c as [now sid' from|closed now age visit|clock sid' from|now sid' from|code s|code];
    cbn [rcall_atomic]; cbn in Hw.
  - eapply floor_bind; [|by intros]. apply (floor_atomic _ (λ _, True)). intros r [Hr Hh].
    split; [|done]. split; [by apply table_inv_route|by apply holds_route].
  - eapply floor_bind; [by apply floor_evict_loop|by intros].
  - eapply (floor_bind _ _ (λ d, sid' = sid → d = Denied ∨ d = Unknown));
      [|intros d Hd E; destruct (Hd E) as [->| ->]; auto].
    apply floor_atomic. intros r [Hr Hh]. unfold floor_held.
    destruct (decide (sid = sid')) as [<-|Hne].
    + destruct (holds_request r sid a t last clock from Hh (Hw eq_refl)).
      by split; [split; [apply table_inv_request|]|].
    + split; [|by intros ->]. split; [by apply table_inv_request|].
      eapply holds_other; [by apply request_other|done].
  - eapply (floor_bind _ _ (λ d, sid' = sid → d = Denied ∨ d = Unknown));
      [|intros d Hd E; destruct (Hd E) as [->| ->]; auto].
    apply floor_atomic. intros r [Hr Hh]. unfold floor_held.
    destruct (decide (sid = sid')) as [<-|Hne].
    + destruct (Hw eq_refl). rewrite (holds_release r sid a t last) by done. by split; [|left].
    + split; [|by intros ->]. split; [by apply table_inv_release|].
      eapply holds_other; [by apply release_other|done].
  - eapply floor_bind; [|by intros]. apply (floor_atomic _ (λ _, True)). intros r [Hr Hh].
    rewrite register_at. destruct (bool_decide _); [done|]. split; [|done]. by destruct Hr.
  - eapply floor_bind; [|by intros]. apply (floor_atomic _ (λ _, True)). intros r [Hr Hh].
    split; [|done]. by destruct Hr.
Qed.

Lemma floor_calls cs :
  Forall (λ c, within_hold sid a t last (call_op c)) cs →
  keeps_floor (calls_t rcall_atomic cs) (Forall2 (refused sid) cs).
Proof.
  induction 1 as [|c cs Hc _ IH]; [constructor|]. cbn [calls_t].
  eapply floor_bind; [by apply floor_call|]. intros x Hx.
  eapply floor_bind; [exact IH|]. intros xs Hxs. by constructor.
Qed.

(** The pool of atomic calls. *)
Definition pool_keeps (css : list (list rcall)) (q : rpool) : Prop :=
  floor_held q.1 ∧ Forall2 (λ cs u, keeps_floor u (Forall2 (refused sid) cs)) css q.2.

Lemma pool_keeps_step css q q' : rpool_step q q' → pool_keeps css q → pool_keeps css q'.
Proof.
  intros [r r' ts i f u' Hi Hf] [Hr Hts]. cbn [fst snd] in *.
  destruct (Forall2_lookup_r _ _ _ _ _ Hts Hi) as (cs & Hcs & Hk). specialize (Hk r Hr).
  rewrite Hf in Hk. destruct Hk as [Hr' Hk]. split; [done|]. cbn [snd].
  rewrite <-(list_insert_id css i cs) by done. by apply Forall2_insert.
Qed.
End floor.

(** C21: in a relay of which at most one task calls [route] (the call that
    creates sessions) and at most one registers rooms, at every interleaving
    of the steps of the calls: while [a] holds the floor of a session, for 30
    seconds from the grant, and no eviction finds the session idle, [a] stays
    the holder through any calls of the tasks but its own release, and every
    request for the floor and every release of it by another peer is
    refused. (With two tasks that call [route] this fails:
    [floor_granted_twice].) *)
Theorem relay_floor_exclusive r css p sid a t last :
  router_inv r → holds r sid a t last →
  (how_many creates css ≤ 1)%nat → (how_many registers css ≤ 1)%nat →
  Forall (Forall (λ c, within_hold sid a t last (call_op c))) css →
  rtc rpool_step (r, calls_t rcall_t <$> css) p →
  Router_floor_holder p.1 sid = Some a
  ∧ ∀ i cs answers, css !! i = Some cs → p.2 !! i = Some (RtRet answers) →
      Forall2 (refused sid) cs answers.
Proof.
  intros Hr Hh Hc Hreg Hw Hp. destruct (linearize r css p Hc Hreg Hp) as (q & Hq & Hs & Hans).
  assert (pool_keeps sid a t last css q) as [[_ Hf] Hts].
  { assert (pool_keeps sid a t last css (r, calls_t rcall_atomic <$> css)) as H0.
    { split; [split; [by destruct Hr|done]|]. cbn [snd]. clear Hp Hq Hans Hc Hreg.
      induction Hw as [|cs css Hcs _ IH]; constructor; [by apply floor_calls|exact IH]. }
    revert H0. induction Hq; eauto using pool_keeps_step. }
  split.
  - destruct Hf as (e & He & Ha & _). destruct Hs as (E & _).
    unfold Router_floor_holder. by rewrite E, He.
  - intros i cs answers Hi Hpi. exact (Forall2_lookup_lr _ _ _ _ _ _ Hts Hi (Hans i answers Hpi)).
Qed.

(** ** A run *)

(** Peer 1 has the floor of session 7; peer 2 joins and asks for it. *)
Definition floor_taken : Router :=
  let r := (Router_route 1 (Router_new 10 3 RelayMetrics_new) 7 (Udp (udp_peer 1))).1 in
  (Router_floor_request (λ _, 2) r 7 (udp_peer 1)).1.
Definition second_peer : list rcall :=
  [CRoute 3 7 (Udp (udp_peer 2)); CRequest (λ _, 4) 7 (udp_peer 2);
   CRelease 5 7 (udp_peer 2)].

Lemma relay_floor_exclusive_witness :
  ∃ p, rp_run [0; 1; 2; 0; 2; 0; 2]%nat
         (floor_taken, calls_t rcall_t <$> [second_peer; evict_task; http_task]) = Some p
    ∧ Router_floor_holder p.1 7 = Some (udp_peer 1).
Proof.
  destruct (rp_run [0; 1; 2; 0; 2; 0; 2]%nat
    (floor_taken, calls_t rcall_t <$> [second_peer; evict_task; http_task])) as [p|] eqn:Hp;
    [|exfalso; vm_compute in Hp; discriminate Hp].
  exists p. split; [reflexivity|].
  apply (relay_floor_exclusive floor_taken [second_peer; evict_task; http_task] p 7 (udp_peer 1)
           2 1).
  - apply request_inv, (rstep_inv _ (RRoute 1 7 (Udp (udp_peer 1)))).
    constructor; [reflexivity|vm_compute; lia|apply map_Forall_empty|reflexivity].
  - eexists. split; [vm_compute; reflexivity|]. split; [reflexivity|]. split; [reflexivity|].
    vm_compute. discriminate.
  - vm_compute. lia.
  - vm_compute. lia.
  - repeat constructor; cbn; try done; unfold elapsed, from_secs, FLOOR_MAX_HOLD_SECS;
      intros; lia.
  - exact (rp_run_steps _ _ _ Hp).
Defined.
