(* ===== verification/Relay.v ===== *)
(** * The relay's packet loops

    Models [gravital-talk-relay/src/udp.rs] and the handling of one binary
    message in [ws.rs]: a datagram is decoded, floor messages are answered by
    the relay itself, everything else is forwarded to the other members of
    its session.  Sockets and channels are the class [RelayEnv]; every packet
    handed to one of them is logged with its destination. *)

From S2P Require Import Prelude.
From S2P Require Import CoreTypes.
From S2P Require Import Checksum.
From S2P Require Import Header.
From S2P Require Import Packet.
From S2P Require Import Message.
From S2P Require Import Transport.
From S2P Require Import Router.
From stdpp Require Import gmap strings list.
#[local] Open Scope Z_scope.

(** The result of the [n]-th [send_to] ([None] is an I/O error), and whether
    the receiving side of a channel is gone at the [n]-th send. *)
Class RelayEnv : Type := {
  relay_send : nat → list Z → SocketAddr → option Z;
  relay_ws_closed : nat → Z → bool;
}.

Record RelayWorld : Type := mkRelayWorld {
  rw_router : Router;
  rw_out : list (SessionEndpoint * list Z);
}.

Definition on_router (f : Router → Router) (w : RelayWorld) : RelayWorld :=
  mkRelayWorld (f (rw_router w)) (rw_out w).
Definition on_metrics (f : RelayMetrics → RelayMetrics) : RelayWorld → RelayWorld :=
  on_router (upd_metrics f).
Definition log_out (to : SessionEndpoint) (data : list Z) (w : RelayWorld) : RelayWorld :=
  mkRelayWorld (rw_router w) (rw_out w ++ [(to, data)]).

Section relay.
Context `{RelayEnv}.

(** [socket.send_to(&data, addr)] *)
Definition udp_send_to (data : list Z) (addr : SocketAddr) (w : RelayWorld) :
    RelayWorld * option Z :=
  (log_out (Udp addr) data w, relay_send (length (rw_out w)) data addr).

(** [tx.send(data)]: [true] when the receiver is gone. *)
Definition ws_send (tx : Z) (data : list Z) (w : RelayWorld) : RelayWorld * bool :=
  (log_out (WebSocket tx) data w, relay_ws_closed (length (rw_out w)) tx).

Definition forward_to (target : SessionEndpoint) (data : list Z) (w : RelayWorld) : RelayWorld :=
  match target with
  | Udp addr =>
      let '(w, r) := udp_send_to data addr w in
      match r with
      | Some n => on_metrics (inc_out n) w
      | None => on_metrics (inc_dropped "send_error") w
      end
  | WebSocket tx =>
      let '(w, gone) := ws_send tx data w in
      if gone then on_metrics (inc_dropped "ws_disconnected") w
      else on_metrics (inc_out (Z.of_nat (length data))) w
  end.

Definition send_floor_packet (msg_type : MessageType) (session_id : Z) (ssrc_payload : list Z)
    (to : SocketAddr) (w : RelayWorld) : RelayWorld :=
  let header := PacketHeader_new (MessageType_code msg_type) session_id 0 0 in
  match PacketBuilder_encode header ssrc_payload (replicate 64 0) with
  | Ok (n, out) =>
      let '(w, r) := udp_send_to (take n out) to w in
      match r with Some sent => on_metrics (inc_out sent) w | None => w end
  | Err _ => w
  end.

Definition send_floor_msg (msg_type : MessageType) (session_id : Z) (to : SocketAddr)
    (w : RelayWorld) : RelayWorld :=
  send_floor_packet msg_type session_id (be_bytes 4 session_id) to w.

Definition send_floor_msg_to (msg_type : MessageType) (session_id : Z)
    (target : SessionEndpoint) (w : RelayWorld) : RelayWorld :=
  let ssrc_buf := be_bytes 4 session_id in
  let header := PacketHeader_new (MessageType_code msg_type) session_id 0 0 in
  match PacketBuilder_encode header ssrc_buf (replicate 64 0) with
  | Ok (n, out) => forward_to target (take n out) w
  | Err _ => w
  end.

Definition relay_floor_request (now : Z) (clock : nat → Z) (session_id : Z)
    (from : SocketAddr) (w : RelayWorld) : RelayWorld :=
  let w := on_router (λ r, (Router_route now r session_id (Udp from)).1) w in
  let '(r, d) := Router_floor_request clock (rw_router w) session_id from in
  let w := on_router (λ _, r) w in
  match d with
  | Granted others =>
      let w := send_floor_msg FloorGrant session_id from w in
      foldl (λ w other, send_floor_msg_to FloorTaken session_id other w) w others
  | Denied => send_floor_msg FloorDeny session_id from w
  | _ => w
  end.

Definition relay_floor_release (now : Z) (session_id : Z) (from : SocketAddr)
    (w : RelayWorld) : RelayWorld :=
  let '(r, d) := Router_floor_release now (rw_router w) session_id from in
  let w := on_router (λ _, r) w in
  match d with
  | Released others =>
      foldl (λ w other, send_floor_msg_to FloorRelease session_id other w) w others
  | _ => w
  end.

(** The body of the loop of [run], for one datagram. *)
Definition relay_datagram (now : Z) (clock : nat → Z) (data : list Z) (from : SocketAddr)
    (w : RelayWorld) : RelayWorld :=
  let w := on_metrics (inc_in (Z.of_nat (length data))) w in
  match PacketView_decode data with
  | Err _ => on_metrics (inc_dropped "malformed") w
  | Ok view =>
      let session_id := ph_session_id (pv_header view) in
      match MessageType_from_code (ph_msg_type (pv_header view)) with
      | Ok FloorRequest => relay_floor_request now clock session_id from w
      | Ok FloorRelease => relay_floor_release now session_id from w
      | _ =>
          let '(r, d) := Router_route now (rw_router w) session_id (Udp from) in
          let w := on_router (λ _, r) w in
          match d with
          | Broadcast targets => foldl (λ w target, forward_to target data w) w targets
          | Registered | Dropped => w
          end
      end
  end.

(** ** The WebSocket side *)

Definition ws_forward (target : SessionEndpoint) (data : list Z) (w : RelayWorld) : RelayWorld :=
  match target with
  | Udp addr =>
      let '(w, r) := udp_send_to data addr w in
      match r with Some n => on_metrics (inc_out n) w | None => w end
  | WebSocket peer_tx =>
      let '(w, gone) := ws_send peer_tx data w in
      if gone then on_metrics (inc_dropped "ws_disconnected") w
      else on_metrics (inc_out (Z.of_nat (length data))) w
  end.

(** The [Message::Binary] arm of [handle_connection]. *)
Definition ws_message (now : Z) (tx : Z) (data : list Z) (w : RelayWorld) : RelayWorld :=
  let w := on_metrics (inc_in (Z.of_nat (length data))) w in
  match PacketView_decode data with
  | Err _ => on_metrics (inc_dropped "malformed") w
  | Ok view =>
      let session_id := ph_session_id (pv_header view) in
      let '(r, d) := Router_route now (rw_router w) session_id (WebSocket tx) in
      let w := on_router (λ _, r) w in
      match d with
      | Broadcast targets => foldl (λ w target, ws_forward target data w) w targets
      | Registered | Dropped => w
      end
  end.
End relay.

(** ** What a step sends *)

Definition floor_packet (msg : MessageType) (sid : Z) : list Z :=
  packet_image (PacketHeader_new (MessageType_code msg) sid 0 0) (be_bytes 4 sid).

Lemma floor_packet_wf msg sid :
  is_floor_control msg = true → u32 sid →
  packet_wf (PacketHeader_new (MessageType_code msg) sid 0 0) (be_bytes 4 sid).
Proof.
  intros Hm Hs. split; [|split; [done|split; [apply bytes_be_bytes|]]].
  - unfold PacketHeader_wf. cbn. unfold PROTOCOL_VERSION. destruct msg; cbn in *; try done; ulia.
  - rewrite length_be_bytes. unfold MAX_PAYLOAD_SIZE, DEFAULT_MTU, HEADER_SIZE. lia.
Qed.

Lemma floor_packet_encode msg sid :
  is_floor_control msg = true → u32 sid →
  ∃ n out, PacketBuilder_encode (PacketHeader_new (MessageType_code msg) sid 0 0)
             (be_bytes 4 sid) (replicate 64 0) = Ok (n, out)
    ∧ take n out = floor_packet msg sid.
Proof.
  intros Hm Hs. pose proof (floor_packet_wf msg sid Hm Hs) as Hwf.
  rewrite PacketBuilder_encode_image; [|done|].
  - eexists _, _. split; [done|]. rewrite take_app_length'; [done|].
    by rewrite length_packet_image.
  - rewrite length_be_bytes, length_replicate. unfold HEADER_SIZE. lia.
Qed.

(** [w'] is [w] after sending [msgs]: only the log and counters differ. *)
Definition sends (w : RelayWorld) (msgs : list (SessionEndpoint * list Z))
    (w' : RelayWorld) : Prop :=
  rw_out w' = rw_out w ++ msgs ∧ ro_routes (rw_router w') = ro_routes (rw_router w)
  ∧ ro_rooms (rw_router w') = ro_rooms (rw_router w).

Lemma sends_foldl {A} (f : RelayWorld → A → RelayWorld) (g : A → SessionEndpoint * list Z) xs w :
  (∀ w x, sends w [g x] (f w x)) → sends w (g <$> xs) (foldl f w xs).
Proof.
  intros Hf. revert w. induction xs as [|x xs IH]; intros w; cbn.
  - unfold sends. by rewrite app_nil_r.
  - destruct (IH (f w x)) as (Ho & Hr & Hm), (Hf w x) as (Ho' & Hr' & Hm').
    unfold sends. rewrite Ho, Ho', Hr, Hr', Hm, Hm', <- app_assoc. done.
Qed.

Lemma sends_cons w w1 w2 m ms : sends w [m] w1 → sends w1 ms w2 → sends w (m :: ms) w2.
Proof.
  intros (Ho & Hr & Hm) (Ho' & Hr' & Hm'). unfold sends.
  rewrite Ho', Ho, Hr', Hr, Hm', Hm, <- app_assoc. done.
Qed.

Lemma sends_holder w ms w' sid :
  sends w ms w' → Router_floor_holder (rw_router w') sid = Router_floor_holder (rw_router w) sid.
Proof. intros (_ & Hr & _). unfold Router_floor_holder. by rewrite Hr. Qed.

(** The answer to a floor request when the session's entry is [e]: nothing to
    a stranger, a refusal, or the grant with its announcement to every other
    member. *)
Definition floor_answered (e : option RouteEntry) (sid : Z) (from : SocketAddr)
    (w w' : RelayWorld) : Prop :=
  let peers := members e in
  (Udp from ∉ peers) ∧ rw_out w' = rw_out w
  ∨ Udp from ∈ peers
    ∧ rw_out w' = rw_out w ++ [(Udp from, floor_packet FloorDeny sid)]
    ∧ is_Some (e ≫= re_floor_holder)
    ∧ Router_floor_holder (rw_router w') sid = e ≫= re_floor_holder
  ∨ Udp from ∈ peers
    ∧ rw_out w' = rw_out w ++ (Udp from, floor_packet FloorGrant sid)
                  :: ((λ p, (p, floor_packet FloorTaken sid)) <$> others_of (Udp from) peers)
    ∧ Router_floor_holder (rw_router w') sid = Some from.

(** A release is ignored, or frees the floor and is announced. *)
Definition floor_release_announced (sid : Z) (from : SocketAddr) (w w' : RelayWorld) : Prop :=
  let routes := ro_routes (rw_router w) in
  rw_out w' = rw_out w ∧ ro_routes (rw_router w') = routes
  ∨ rw_out w' = rw_out w ++ ((λ p, (p, floor_packet FloorRelease sid))
                             <$> others_of (Udp from) (members (routes !! sid)))
    ∧ Router_floor_holder (rw_router w') sid = None.

Section relay_facts.
Context `{RelayEnv}.

Lemma forward_to_sends target data w : sends w [(target, data)] (forward_to target data w).
Proof. unfold forward_to. destruct target; cbn; case_match; done. Qed.

Lemma ws_forward_sends target data w : sends w [(target, data)] (ws_forward target data w).
Proof. unfold ws_forward. destruct target; cbn; case_match; done. Qed.

Lemma send_floor_msg_sends msg sid to w :
  is_floor_control msg = true → u32 sid →
  sends w [(Udp to, floor_packet msg sid)] (send_floor_msg msg sid to w).
Proof.
  intros Hm Hs. unfold send_floor_msg, send_floor_packet.
  destruct (floor_packet_encode msg sid Hm Hs) as (n & out & Henc & Htk).
  rewrite Henc. unfold udp_send_to. rewrite Htk. by destruct (relay_send _ _ _).
Qed.

Lemma send_floor_msg_to_sends msg sid target w :
  is_floor_control msg = true → u32 sid →
  sends w [(target, floor_packet msg sid)] (send_floor_msg_to msg sid target w).
Proof.
  intros Hm Hs. unfold send_floor_msg_to.
  destruct (floor_packet_encode msg sid Hm Hs) as (n & out & Henc & Htk).
  rewrite Henc, Htk. apply forward_to_sends.
Qed.

Lemma relay_floor_request_sends now clock sid from w :
  u32 sid →
  floor_answered (ro_routes (Router_route now (rw_router w) sid (Udp from)).1 !! sid) sid from w
    (relay_floor_request now clock sid from w).
Proof.
  intros Hs. unfold relay_floor_request. cbn [on_router rw_router].
  set (r := (Router_route now (rw_router w) sid (Udp from)).1).
  pose proof (request_decision clock r sid from) as Hd.
  destruct (Router_floor_request clock r sid from) as [r2 d]. cbn [fst snd] in Hd.
  unfold on_router. cbn [rw_router rw_out]. set (w2 := mkRelayWorld r2 (rw_out w)).
  destruct d as [others| | |].
  - destruct Hd as (Hin & -> & Hh). right; right.
    assert (sends w2 ((Udp from, floor_packet FloorGrant sid)
        :: ((λ p, (p, floor_packet FloorTaken sid)) <$> others_of (Udp from) (members (ro_routes r !! sid))))
      (foldl (λ w other, send_floor_msg_to FloorTaken sid other w)
         (send_floor_msg FloorGrant sid from w2)
         (others_of (Udp from) (members (ro_routes r !! sid))))) as Hsnd.
    { eapply sends_cons; [by apply send_floor_msg_sends|]. apply sends_foldl.
      intros; by apply send_floor_msg_to_sends. }
    split_and!; [done|apply Hsnd|]. by rewrite (sends_holder _ _ _ _ Hsnd).
  - destruct Hd as (Hin & Hh & Hsome). right; left.
    pose proof (send_floor_msg_sends FloorDeny sid from w2 eq_refl Hs) as Hsnd.
    split_and!; [done|apply Hsnd|done|]. by rewrite (sends_holder _ _ _ _ Hsnd).
  - done.
  - left. by destruct Hd.
Qed.

Lemma relay_floor_release_sends now sid from w :
  u32 sid →
  floor_release_announced sid from w (relay_floor_release now sid from w).
Proof.
  intros Hs. unfold relay_floor_release, floor_release_announced.
  pose proof (release_decision now (rw_router w) sid from) as Hd.
  destruct (Router_floor_release now (rw_router w) sid from) as [r2 d]. cbn [fst snd] in Hd.
  unfold on_router. set (w2 := mkRelayWorld r2 (rw_out w)).
  destruct d as [others| |others|]; [done|left; by subst| |left; by subst].
  destruct Hd as (-> & Hh & Hm). right.
  pose proof (sends_foldl (λ w other, send_floor_msg_to FloorRelease sid other w)
    (λ p, (p, floor_packet FloorRelease sid))
    (others_of (Udp from) (members (ro_routes (rw_router w) !! sid))) w2) as Hsnd.
  specialize (Hsnd ltac:(intros; by apply send_floor_msg_to_sends)).
  split; [apply Hsnd|]. rewrite (sends_holder _ _ _ _ Hsnd). done.
Qed.

Lemma relay_route_sends now data sid ep w (f : RelayWorld → SessionEndpoint → RelayWorld) r d :
  (∀ w target, sends w [(target, data)] (f w target)) →
  Router_route now (rw_router w) sid ep = (r, d) →
  sends (on_router (λ _, r) w)
    ((λ p, (p, data)) <$> match d with
       | Dropped => []
       | _ => others_of ep (members (ro_routes (rw_router w) !! sid))
       end)
    (match d with
     | Broadcast targets => foldl f (on_router (λ _, r) w) targets
     | Registered | Dropped => on_router (λ _, r) w
     end).
Proof.
  intros Hf Hrt. pose proof (route_routed now (rw_router w) sid ep) as Hr. rewrite Hrt in Hr.
  destruct Hr as (_ & _ & _ & Hok). cbn [fst snd] in Hok.
  destruct d as [ts| |]; cbn [targets_of] in Hok.
  - destruct Hok as (_ & <- & _); [done|]. by apply sends_foldl.
  - destruct Hok as (_ & <- & _); [done|]. unfold sends. by rewrite app_nil_r.
  - unfold sends. by rewrite app_nil_r.
Qed.
End relay_facts.

Lemma route_upd_metrics f now r sid ep :
  ro_routes (Router_route now (upd_metrics f r) sid ep).1 = ro_routes (Router_route now r sid ep).1
  ∧ (Router_route now (upd_metrics f r) sid ep).2 = (Router_route now r sid ep).2.
Proof.
  unfold Router_route, route_entry, route_create. cbn. repeat case_match; done.
Qed.

(** The relay forwards [data] of [ep] in session [sid]. *)
Definition forwarded (r : Router) (sid : Z) (ep : SessionEndpoint) (data : list Z)
    (w w' : RelayWorld) : Prop :=
  let peers := members (ro_routes r !! sid) in
  (sid = 0 ∨ (ep ∉ peers) ∧ (¬ room_for r sid))
    ∧ rw_out w' = rw_out w ∧ members (ro_routes (rw_router w') !! sid) = peers
  ∨ sid ≠ 0 ∧ ep ∈ members (ro_routes (rw_router w') !! sid)
    ∧ rw_out w' = rw_out w ++ ((λ p, (p, data)) <$> others_of ep peers).

Lemma relay_forwarded now data sid ep w (f : RelayWorld → SessionEndpoint → RelayWorld) r d :
  (∀ w target, sends w [(target, data)] (f w target)) →
  Router_route now (rw_router w) sid ep = (r, d) →
  forwarded (rw_router w) sid ep data w
    (match d with
     | Broadcast targets => foldl f (on_router (λ _, r) w) targets
     | Registered | Dropped => on_router (λ _, r) w
     end).
Proof.
  intros Hf Hrt. destruct (relay_route_sends now data sid ep w f r d Hf Hrt) as (Ho & Hr & _).
  pose proof (route_routed now (rw_router w) sid ep) as Hro. rewrite Hrt in Hro.
  destruct Hro as (_ & Hdrop & Hd & Hok). cbn [fst snd] in *. unfold forwarded. rewrite Hr.
  change (rw_router (on_router (λ _, r) w)) with r.
  change (rw_out (on_router (λ _, r) w)) with (rw_out w) in Ho.
  assert (d = Dropped ∨ d ≠ Dropped) as [->|Hnd] by (destruct d; naive_solver).
  - left. split; [by apply Hdrop|]. split; [by rewrite Ho, app_nil_r|]. by destruct Hd.
  - right. destruct (Hok Hnd) as (Hm & _). split_and!.
    + intros ->. apply Hnd, Hdrop. by left.
    + rewrite Hm. case_decide; set_solver.
    + rewrite Ho. by destruct d.
Qed.

(** C12: what the UDP relay does with a datagram, from any state. A malformed
    one is counted and sends nothing. A floor request is never forwarded: a
    stranger gets no answer, a member gets exactly one, and it is a grant
    only if it is the holder afterwards, announced to every other member, and
    a refusal only if somebody holds the floor, which does not change. A
    release is ignored or frees the floor and is announced to the others.
    Anything else goes, byte for byte, to exactly the other members of its
    session, or nowhere if the sender may not join. Every packet the relay
    makes itself decodes as the floor message it stands for. *)
Theorem relay_datagram_spec `{RelayEnv} now clock data from w :
  bytes data →
  let r := rw_router w in
  let w' := relay_datagram now clock data from w in
  match PacketView_decode data with
  | Err _ =>
      rw_out w' = rw_out w ∧ ro_routes (rw_router w') = ro_routes r
      ∧ rm_dropped (ro_metrics (rw_router w')) !! "malformed"
        = Some (default 0 (rm_dropped (ro_metrics r) !! "malformed") + 1)
  | Ok view =>
      let sid := ph_session_id (pv_header view) in
      match MessageType_from_code (ph_msg_type (pv_header view)) with
      | Ok FloorRequest =>
          floor_answered (ro_routes (Router_route now r sid (Udp from)).1 !! sid) sid from w w'
      | Ok FloorRelease => floor_release_announced sid from w w'
      | _ => forwarded r sid (Udp from) data w w'
      end
      ∧ ∀ msg, is_floor_control msg = true →
          PacketView_decode (floor_packet msg sid)
          = Ok (mkPacketView (PacketHeader_new (MessageType_code msg) sid 0 0) (be_bytes 4 sid))
  end.
Proof.
  intros Hb r w'. unfold w', relay_datagram.
  destruct (PacketView_decode data) as [view|] eqn:Hdec; cbv zeta.
  - destruct (PacketView_decode_sound _ _ Hb Hdec) as [Hwf _].
    assert (u32 (ph_session_id (pv_header view))) as Hs by apply Hwf.
    set (sid := ph_session_id (pv_header view)) in *. split.
    + set (w1 := on_metrics _ w).
      assert (∀ r' d, Router_route now (rw_router w1) sid (Udp from) = (r', d) →
        forwarded r sid (Udp from) data w
          (match d with
           | Broadcast targets => foldl (λ w target, forward_to target data w)
                                    (on_router (λ _, r') w1) targets
           | Registered | Dropped => on_router (λ _, r') w1
           end)) as Hfwd.
      { intros r' d Hrt. apply (relay_forwarded now data sid (Udp from) w1); [|done].
        intros. apply forward_to_sends. }
      pose proof (relay_floor_request_sends now clock sid from w1 Hs) as Hreq.
      change (rw_router w1) with (upd_metrics (inc_in (Z.of_nat (length data))) (rw_router w))
        in Hreq.
      rewrite (proj1 (route_upd_metrics _ now (rw_router w) sid (Udp from))) in Hreq.
      pose proof (relay_floor_release_sends now sid from w1 Hs) as Hrel.
      destruct (Router_route now (rw_router w1) sid (Udp from)) as [r' d] eqn:Hrt.
      specialize (Hfwd r' d eq_refl).
      destruct (MessageType_from_code _) as [[]|]; done.
    + intros msg Hm. by apply PacketView_decode_image, floor_packet_wf.
  - cbn. split_and!; [done..|]. by rewrite lookup_insert_eq.
Qed.

(** The WebSocket side forwards every valid packet verbatim, floor requests
    and releases included: they reach the other members without arbitration. *)
Lemma ws_message_forwarded `{RelayEnv} now tx data w view :
  PacketView_decode data = Ok view →
  forwarded (rw_router w) (ph_session_id (pv_header view)) (WebSocket tx) data w
    (ws_message now tx data w).
Proof.
  intros Hdec. unfold ws_message. rewrite Hdec. set (w1 := on_metrics _ w).
  destruct (Router_route _ _ _ _) as [r d] eqn:Hrt.
  apply (relay_forwarded now data _ (WebSocket tx) w1 _ r d); [|done].
  intros. apply ws_forward_sends.
Qed.

(** ** A concrete relay *)

#[local] Instance lossless : RelayEnv :=
  {| relay_send _ data _ := Some (Z.of_nat (length data)); relay_ws_closed _ _ := false |}.

Definition relay_of (ops : list rop) : RelayWorld :=
  mkRelayWorld (foldl rstep (Router_new 10 2 RelayMetrics_new) ops) [].

(** A floor request of the second member of session 7, while the first holds
    the floor. *)
Lemma relay_datagram_spec_witness :
  let w := relay_of sample_rops in
  let data := floor_packet FloorRequest 7 in
  let w' := relay_datagram 20 (λ _, 21) data (udp_peer 2) w in
  rw_out w' = [(Udp (udp_peer 2), floor_packet FloorDeny 7)]
  ∧ floor_answered (ro_routes (Router_route 20 (rw_router w) 7 (Udp (udp_peer 2))).1 !! 7) 7
      (udp_peer 2) w w'.
Proof.
  intros w data w'. split; [vm_compute; reflexivity|].
  assert (bytes data) as Hb by (apply (bool_decide_unpack _); vm_compute; exact I).
  pose proof (relay_datagram_spec 20 (λ _, 21) data (udp_peer 2) w Hb) as Hspec. cbv zeta in Hspec.
  assert (PacketView_decode data
    = Ok (mkPacketView (PacketHeader_new (MessageType_code FloorRequest) 7 0 0) [0; 0; 0; 7])) as Hd
    by (vm_compute; reflexivity).
  rewrite Hd in Hspec. exact (proj1 Hspec).
Defined.
