(* ===== verification/Rooms.v ===== *)
(** * Room codes

    Models [gravital-talk-relay/src/rooms.rs]: codes of the form [XXXX-NNNN]
    drawn by a 64-bit linear congruential generator seeded with the clock and
    a counter, their validation, and the session ids of new rooms.  A code is
    a list of bytes (it is ASCII).  [t] is the clock in nanoseconds (what
    [unwrap_or] yields when the clock is before the epoch is one of its
    values) and [c] the previous value of the counter. *)

From S2P Require Import Prelude.

(** ["ABCDEFGHJKLMNPRSTUVWXYZ"] *)
Definition LETTERS : list Z :=
  [65; 66; 67; 68; 69; 70; 71; 72; 74; 75; 76; 77; 78; 80; 82; 83; 84; 85; 86; 87; 88; 89; 90].
(** ["23456789"] *)
Definition DIGITS : list Z := [50; 51; 52; 53; 54; 55; 56; 57].

Definition code_seed (t c : Z) : Z := wrap64 (t + wrap64 (c * 6364136223846793005)).

(** The closure [next]: the new state and the byte drawn. *)
Definition lcg_next (rng : Z) : Z * Z :=
  let rng := wrap64 (wrap64 (rng * 6364136223846793005) + 1442695040888963407) in
  (rng, wrap8 (Z.shiftr rng 33)).

(** [ALPHABET[(next() % len) as usize]], [n] times; indexing panics out of
    range. *)
Fixpoint draw (alphabet : list Z) (n : nat) (rng : Z) : checked (Z * list Z) :=
  match n with
  | O => Val (rng, [])
  | S n =>
      let '(rng, b) := lcg_next rng in
      let i := b mod wrap8 (Z.of_nat (length alphabet)) in
      ch ← match alphabet !! Z.to_nat i with Some ch => Val ch | None => Panic end;
      r ← draw alphabet n rng;
      Val (r.1, ch :: r.2)
  end.

Definition generate_code (t c : Z) : checked (list Z) :=
  let rng := code_seed t c in
  letters ← draw LETTERS 4 rng;
  digits ← draw DIGITS 4 letters.1;
  Val (letters.2 ++ [45] ++ digits.2).

Definition is_valid_code (code : list Z) : bool :=
  if negb (length code =? 9)%nat || negb (code !!! 4%nat =? 45) then false
  else
    forallb (λ b, bool_decide (b ∈ LETTERS)) (take 4 code)
    && forallb (λ b, bool_decide (b ∈ DIGITS)) (drop 5 code).

Definition generate_session_id (t c : Z) : Z :=
  let h := wrap64 (t + wrap64 (c * 2654435761)) in
  let id := wrap32 (Z.lxor h (Z.shiftr h 32)) in
  if id =? 0 then 3735928559 else id.

(** ** Correctness *)

Lemma draw_ok alphabet n rng :
  (0 < length alphabet < 256)%nat →
  ∃ rng' cs, draw alphabet n rng = Val (rng', cs) ∧ length cs = n ∧ Forall (.∈ alphabet) cs.
Proof.
  intros Hlen. revert rng. induction n as [|n IH]; intros rng; [by eexists _, []|].
  cbn [draw]. destruct (lcg_next rng) as [rng1 b].
  replace (wrap8 (Z.of_nat (length alphabet))) with (Z.of_nat (length alphabet))
    by (unfold wrap8; rewrite Z.mod_small; lia).
  assert (0 ≤ b mod Z.of_nat (length alphabet) < Z.of_nat (length alphabet)) as Hi
    by (apply Z.mod_pos_bound; lia).
  destruct (alphabet !! Z.to_nat _) as [ch|] eqn:Hch;
    [|apply lookup_ge_None in Hch; lia]. cbn.
  destruct (IH rng1) as (rng' & cs & -> & Hn & Hf). cbn.
  eexists _, _. split_and!; [done|cbn; lia|]. constructor; [|done]. by eapply list_elem_of_lookup_2.
Qed.

Lemma forallb_elem (l cs : list Z) :
  forallb (λ b, bool_decide (b ∈ l)) cs = true ↔ Forall (.∈ l) cs.
Proof.
  rewrite forallb_forall, Forall_forall. setoid_rewrite bool_decide_eq_true.
  by setoid_rewrite list_elem_of_In.
Qed.

Lemma is_valid_code_spec code :
  is_valid_code code = true ↔
  ∃ letters digits, code = letters ++ [45] ++ digits ∧ length letters = 4%nat
    ∧ length digits = 4%nat ∧ Forall (.∈ LETTERS) letters ∧ Forall (.∈ DIGITS) digits.
Proof.
  unfold is_valid_code. split.
  - destruct (Nat.eqb_spec (length code) 9) as [Hlen|]; [|done].
    destruct (Z.eqb_spec (code !!! 4%nat) 45) as [H45|]; [|done]. cbn [negb orb].
    rewrite andb_true_iff, !forallb_elem. intros [Hl Hd].
    exists (take 4 code), (drop 5 code). rewrite length_take, length_drop.
    split_and!; [|lia|lia|done|done].
    do 9 (destruct code as [|? code]; [done|]). destruct code; [|done]. cbn in H45. by subst.
  - intros (letters & digits & -> & Hl & Hd & HL & HD).
    rewrite !length_app, Hl, Hd. cbn [length Nat.add Nat.eqb negb orb].
    rewrite lookup_total_app_r by lia. rewrite Hl. cbn [negb orb]. cbn.
    rewrite andb_true_iff, !forallb_elem.
    rewrite take_app_length' by done. rewrite drop_app, drop_ge by lia. by rewrite Hl.
Qed.

(** Whatever the clock and the counter read, [generate_code] returns a
    code, without an index out of range, and the relay's own [is_valid_code]
    accepts it; [is_valid_code] accepts exactly the strings of four letters
    of the alphabet, a dash and four of its digits; and a generated session
    id is a non-zero 32-bit number, so that the router never drops it as
    session 0. *)
Theorem room_codes_valid t c :
  (∃ code, generate_code t c = Val code ∧ is_valid_code code = true)
  ∧ (∀ code, is_valid_code code = true ↔
       ∃ letters digits, code = letters ++ [45] ++ digits ∧ length letters = 4%nat
         ∧ length digits = 4%nat ∧ Forall (.∈ LETTERS) letters ∧ Forall (.∈ DIGITS) digits)
  ∧ u32 (generate_session_id t c) ∧ generate_session_id t c ≠ 0.
Proof.
  split; [|split; [apply is_valid_code_spec|]].
  - unfold generate_code.
    destruct (draw_ok LETTERS 4 (code_seed t c)) as (rng & ls & -> & Hl & HL); [cbn; lia|].
    cbn [mbind checked_bind fst snd].
    destruct (draw_ok DIGITS 4 rng) as (rng' & ds & -> & Hd & HD); [cbn; lia|].
    cbn [mbind checked_bind fst snd]. eexists. split; [done|]. apply is_valid_code_spec. by exists ls, ds.
  - unfold generate_session_id. case_match eqn:Hz; [by split|].
    apply Z.eqb_neq in Hz. split; [apply wrap32_u32|done].
Qed.

(** The example of the module's documentation. *)
Example code_of_docs : is_valid_code [71; 82; 86; 84; 45; 50; 56; 52; 55] = true.
Proof. reflexivity. Qed.
