(* ===== verification/RoomsApi.v ===== *)
(** * The relay's HTTP interface

    Models [gravital-talk-relay/src/observability.rs]: the dispatch of a
    request, the room directory behind [/api/rooms], and the extraction of
    the session id from a request body.  The HTTP server (hyper) hands over a
    method, a path and a body ([None] when collecting it failed); the text of
    the Prometheus encoder is the class [Prometheus].  The state is the router
    and the process-wide counter of room codes. *)

From S2P Require Import Prelude.
From S2P Require Import Text.
From S2P Require Import Router.
From S2P Require Import Rooms.
From stdpp Require Import gmap strings list.
#[local] Open Scope Z_scope.

Inductive Method : Type := GET | POST | DELETE | OtherMethod.

Record Request : Type := mkRequest {
  rq_method : Method;
  rq_path : list Z;
  rq_body : option (list Z);
}.

Record Response : Type := mkResponse {
  rs_status : Z;
  rs_content_type : list Z;
  rs_body : list Z;
}.

(** The text exposition format of the registry. *)
Class Prometheus : Type := {
  prom_encode : RelayMetrics → list Z;
  prom_format_type : list Z;
}.

Record ApiState : Type := mkApiState {
  as_router : Router;
  as_counter : Z;
}.

(** ** Helpers *)

Definition json_response (status : Z) (body : list Z) : Response :=
  let s := if decide (last body = Some 10) then body else body ++ [10] in
  mkResponse status (ascii_bytes "application/json") s.

Definition method_not_allowed : Response :=
  json_response 405 (json "{'error':'method not allowed'}").

(** [num_str.find(|c| !c.is_ascii_digit()).unwrap_or(num_str.len())] *)
Fixpoint digits_end (s : list Z) : nat :=
  match s with
  | b :: s => if is_digit b then S (digits_end s) else 0%nat
  | [] => 0%nat
  end.

Definition extract_session_id (body : list Z) : option Z :=
  s ← from_utf8 body;
  pos ← find_sub (ascii_bytes "session_id") s;
  colon ← find_sub [58] (drop (pos + 10) s);
  let num_str := trim_start (drop (S colon) (drop (pos + 10) s)) in
  let end_ := digits_end num_str in
  if (end_ =? 0)%nat then None else parse_uint u32_MAX (take end_ num_str).

(** ** Handlers *)

Definition room_created (code : list Z) (session_id : Z) : list Z :=
  json "{'code':'" ++ code ++ json "','session_id':" ++ show session_id ++ json "}".

Definition room_info (code : list Z) (session_id : Z) (peer_count : nat) : list Z :=
  json "{'code':'" ++ code ++ json "','session_id':" ++ show session_id
  ++ json ",'peer_count':" ++ show (Z.of_nat peer_count) ++ json "}".

(** [t] is the clock when a code is generated. *)
Definition handle_create_room (t : Z) (st : ApiState) (body : list Z) :
    checked (ApiState * Response) :=
  match extract_session_id body with
  | Some id =>
      if id =? 0 then Val (st, json_response 400
        (json "{'error':'body must be {\'session_id\':N} with N > 0'}"))
      else
        code ← generate_code t (as_counter st);
        let st := mkApiState (as_router st) (wrap64 (as_counter st + 1)) in
        let '(router, fresh) := Router_register_room (as_router st) code id in
        let st := mkApiState router (as_counter st) in
        if fresh then Val (st, json_response 201 (room_created code id))
        else Val (st, json_response 409 (json "{'error':'room code collision, retry'}"))
  | None => Val (st, json_response 400
      (json "{'error':'body must be {\'session_id\':N} with N > 0'}"))
  end.

Definition handle_get_room (router : Router) (code : list Z) : Response :=
  if negb (is_valid_code code) then
    json_response 400 (json "{'error':'invalid room code format'}")
  else
    match Router_resolve_room router code with
    | Some session_id =>
        json_response 200 (room_info code session_id (Router_peer_count router session_id))
    | None => json_response 404 (json "{'error':'room not found'}")
    end.

Definition handle_delete_room (router : Router) (code : list Z) : Router * Response :=
  let '(router, removed) := Router_remove_room router code in
  (router, if (removed : bool) then json_response 200 (json "{'deleted':true}")
           else json_response 404 (json "{'error':'room not found'}")).

(** [entries.join(",")] *)
Fixpoint join_comma (entries : list (list Z)) : list Z :=
  match entries with
  | [] => []
  | [e] => e
  | e :: es => e ++ [44] ++ join_comma es
  end.

Definition handle_list_rooms (router : Router) : Response :=
  let entries :=
    (λ r : list Z * Z * nat, room_info r.1.1 r.1.2 r.2) <$> Router_list_rooms router in
  json_response 200 ([91] ++ join_comma entries ++ [93; 10]).

Definition handle `{Prometheus} (t : Z) (st : ApiState) (req : Request) :
    checked (ApiState * Response) :=
  let path := rq_path req in
  let body_bytes := default [] (rq_body req) in
  let router := as_router st in
  if decide (path = ascii_bytes "/healthz") then Val (st, json_response 200 (json "'ok'"))
  else if decide (path = ascii_bytes "/metrics") then
    Val (st, mkResponse 200 prom_format_type (prom_encode (ro_metrics router)))
  else if decide (path = ascii_bytes "/api/rooms") then
    match rq_method req with
    | GET => Val (st, handle_list_rooms router)
    | POST => handle_create_room t st body_bytes
    | _ => Val (st, method_not_allowed)
    end
  else
    match after_prefix (ascii_bytes "/api/rooms/") path with
    | Some code =>
        match rq_method req with
        | GET => Val (st, handle_get_room router code)
        | DELETE =>
            let '(router, resp) := handle_delete_room router code in
            Val (mkApiState router (as_counter st), resp)
        | _ => Val (st, method_not_allowed)
        end
    | None =>
        Val (st, mkResponse 404 (ascii_bytes "application/json")
                   (json "{'error':'not found'}" ++ [10]))
    end.

Definition room_path (code : list Z) : list Z := ascii_bytes "/api/rooms/" ++ code.

(** ** Session ids in bodies *)

Lemma find_sub_app b pat pre post :
  b ∉ pre → find_sub (b :: pat) (pre ++ (b :: pat) ++ post) = Some (length pre).
Proof.
  induction pre as [|x pre IH]; intros Hn.
  - change ([] ++ (b :: pat) ++ post) with ((b :: pat) ++ post).
    destruct ((b :: pat) ++ post) as [|y l] eqn:E; [done|]. unfold find_sub. rewrite <- E.
    by rewrite after_prefix_app.
  - apply not_elem_of_cons in Hn as [Hx Hn]. cbn [app find_sub after_prefix].
    rewrite (proj2 (Z.eqb_neq _ _)) by done. change (b :: pat ++ post) with ((b :: pat) ++ post).
    rewrite IH by done. done.
Qed.

Lemma digits_end_app ds rest :
  Forall (λ b, is_digit b = true) ds →
  match rest with b :: _ => is_digit b = false | [] => True end →
  digits_end (ds ++ rest) = length ds.
Proof.
  intros Hd Hr. induction Hd as [|b ds Hb _ IH]; cbn.
  - destruct rest as [|b rest]; cbn; [done|by rewrite Hr].
  - by rewrite Hb, IH.
Qed.

Lemma no_ws_start_digit b s : is_digit b = true → no_ws_start (b :: s).
Proof.
  assert (Forall (λ w, is_digit (default 48 (head w)) = false) WHITE_SPACE) as Hf
    by (apply (bool_decide_unpack _); vm_compute; exact I).
  intros Hb w r Hw E. rewrite Forall_forall in Hf. apply Hf in Hw. destruct w as [|b' w]; [done|].
  injection E as <- _. cbn in Hw. congruence.
Qed.

(** A number after the key, as the relay and its clients write it. *)
Lemma extract_session_id_found pre n rest :
  115 ∉ pre → valid_utf8 pre = true → valid_utf8 rest = true → u32 n →
  match rest with b :: _ => is_digit b = false | [] => True end →
  extract_session_id (pre ++ json "session_id':" ++ show n ++ rest) = Some n.
Proof.
  intros Hpre Hv Hr Hn Hrest. unfold extract_session_id, from_utf8.
  pose proof (show_digits n ltac:(ulia)) as Hd.
  assert (valid_utf8 (pre ++ json "session_id':" ++ show n ++ rest) = true) as ->.
  { rewrite valid_utf8_app by done. rewrite valid_utf8_app.
    2:{ apply valid_utf8_ascii, (bool_decide_unpack _). by vm_compute. }
    rewrite valid_utf8_app by by apply valid_utf8_ascii, digits_ascii. done. }
  cbn [mbind option_bind].
  change (json "session_id':" ++ show n ++ rest)
    with ((115 :: ascii_bytes "ession_id") ++ [34; 58] ++ show n ++ rest).
  change (ascii_bytes "session_id") with (115 :: ascii_bytes "ession_id").
  rewrite find_sub_app by done. cbn [mbind option_bind].
  rewrite drop_app, drop_ge by lia. rewrite Nat.add_sub_swap, Nat.sub_diag by lia.
  cbn [app Nat.add ascii_bytes drop].
  assert (find_sub [58] (34 :: 58 :: show n ++ rest) = Some 1%nat) as -> by done.
  cbn [mbind option_bind drop]. rewrite drop_0.
  assert (trim_start (show n ++ rest) = show n ++ rest) as ->.
  { change (show n ++ rest) with ([] ++ (show n ++ rest)) at 1.
    apply trim_start_unique; [apply spaces_nil|].
    pose proof (show_fuel_nonempty (Z.to_nat (Z.log2 n)) n). fold (show n) in H.
    destruct (show n) as [|b s]; [done|]. apply Forall_cons in Hd as [Hb _].
    by apply no_ws_start_digit. }
  rewrite digits_end_app by done.
  rewrite (proj2 (Nat.eqb_neq _ _)).
  - rewrite take_app_length. apply parse_show. ulia.
  - pose proof (show_fuel_nonempty (Z.to_nat (Z.log2 n)) n). fold (show n) in H.
    by destruct (show n).
Qed.

(** The bytes of a room code are neither lower-case letters nor outside
    ASCII. *)
Lemma valid_code_bytes code :
  is_valid_code code = true → Forall (λ b, 45 ≤ b ≤ 90) code.
Proof.
  assert (Forall (λ b, 45 ≤ b ≤ 90) LETTERS ∧ Forall (λ b, 45 ≤ b ≤ 90) DIGITS) as [HL HD]
    by (split; apply (bool_decide_unpack _); vm_compute; exact I).
  rewrite Forall_forall in HL, HD. rewrite is_valid_code_spec.
  intros (ls & ds & -> & _ & _ & Hls & Hds). rewrite Forall_forall in Hls, Hds.
  rewrite !Forall_app. split_and!; [..|repeat constructor; lia|]; apply Forall_forall; naive_solver.
Qed.

Lemma code_prefix_clean code :
  is_valid_code code = true →
  (115 ∉ json "{'code':'" ++ code ++ json "','") ∧ ascii (json "{'code':'" ++ code ++ json "','").
Proof.
  intros Hc%valid_code_bytes. split.
  - rewrite !not_elem_of_app. split_and!.
    + apply (bool_decide_unpack _). by vm_compute.
    + intros Hin. rewrite Forall_forall in Hc. apply Hc in Hin. lia.
    + apply (bool_decide_unpack _). by vm_compute.
  - rewrite !ascii_app. split_and!.
    + apply (bool_decide_unpack _). by vm_compute.
    + eapply Forall_impl; [exact Hc|]. cbn. lia.
    + apply (bool_decide_unpack _). by vm_compute.
Qed.

(** What the relay writes about a room, it reads back. *)
Lemma extract_room_created code n extra :
  is_valid_code code = true → u32 n → ascii extra →
  extract_session_id (room_created code n ++ extra) = Some n.
Proof.
  intros Hc Hn He. destruct (code_prefix_clean code Hc) as [H115 Ha].
  replace (room_created code n ++ extra)
    with ((json "{'code':'" ++ code ++ json "','") ++ json "session_id':" ++ show n ++ (json "}" ++ extra))
    by (unfold room_created; change (json "','session_id':") with (json "','" ++ json "session_id':");
        by rewrite <- !app_assoc).
  apply extract_session_id_found; [done|by apply valid_utf8_ascii| |done|done].
  apply valid_utf8_ascii, ascii_app. split; [|done]. apply (bool_decide_unpack _). by vm_compute.
Qed.

Lemma extract_room_info code n k extra :
  is_valid_code code = true → u32 n → ascii extra →
  extract_session_id (room_info code n k ++ extra) = Some n.
Proof.
  intros Hc Hn He. destruct (code_prefix_clean code Hc) as [H115 Ha].
  set (rest := json ",'peer_count':" ++ show (Z.of_nat k) ++ json "}" ++ extra).
  replace (room_info code n k ++ extra)
    with ((json "{'code':'" ++ code ++ json "','") ++ json "session_id':" ++ show n ++ rest)
    by (unfold room_info, rest; change (json "','session_id':") with (json "','" ++ json "session_id':");
        by rewrite <- !app_assoc).
  apply extract_session_id_found; [done|by apply valid_utf8_ascii| |done|done].
  apply valid_utf8_ascii. unfold rest. rewrite !ascii_app. split_and!.
  - apply (bool_decide_unpack _). by vm_compute.
  - apply digits_ascii, show_digits. lia.
  - apply (bool_decide_unpack _). by vm_compute.
  - done.
Qed.

(** The body [gs room create] sends. *)
Definition create_body (n : Z) : list Z := json "{'session_id':" ++ show n ++ json "}".

Lemma extract_create_body n : u32 n → extract_session_id (create_body n) = Some n.
Proof.
  intros Hn. change (create_body n) with (json "{'" ++ json "session_id':" ++ show n ++ json "}").
  apply extract_session_id_found; [|done|done|done|done].
  apply (bool_decide_unpack _). by vm_compute.
Qed.

Lemma extract_session_id_u32 body n : extract_session_id body = Some n → u32 n.
Proof.
  unfold extract_session_id. destruct (from_utf8 body); [|done]. cbn [mbind option_bind].
  destruct (find_sub _ _); [|done]. cbn [mbind option_bind].
  destruct (find_sub _ _); [|done]. cbn [mbind option_bind].
  destruct (_ =? 0)%nat; [done|]. intros Hn%parse_uint_bound; ulia.
Qed.

(** ** The directory *)

Lemma generate_code_ok t c : ∃ code, generate_code t c = Val code ∧ is_valid_code code = true.
Proof. apply (room_codes_valid t c). Qed.

Lemma json_response_body status body :
  last body = Some 125 → rs_body (json_response status body) = body ++ [10].
Proof. intros Hl. unfold json_response. by rewrite Hl. Qed.

Section api.
Context `{Prometheus}.

(** The directory of rooms: what a request does to it and how it is
    answered, without text.  A new room gets the code [code]. *)
Inductive room_reply : Type :=
  | RoomCreated (code : list Z) (sid : Z)
  | RoomInfo (code : list Z) (sid : Z)
  | RoomDeleted
  | RoomRefused (status : Z)
  | RoomOther.

Definition dir_step (code : list Z) (dir : gmap (list Z) Z) (req : Request) :
    gmap (list Z) Z * room_reply :=
  if decide (rq_path req = ascii_bytes "/api/rooms") then
    match rq_method req with
    | POST =>
        match extract_session_id (default [] (rq_body req)) with
        | None => (dir, RoomRefused 400)
        | Some sid =>
            if sid =? 0 then (dir, RoomRefused 400)
            else match dir !! code with
                 | Some _ => (dir, RoomRefused 409)
                 | None => (<[code := sid]> dir, RoomCreated code sid)
                 end
        end
    | _ => (dir, RoomOther)
    end
  else
    match after_prefix (ascii_bytes "/api/rooms/") (rq_path req), rq_method req with
    | Some c, GET =>
        if is_valid_code c then
          match dir !! c with Some sid => (dir, RoomInfo c sid) | None => (dir, RoomRefused 404) end
        else (dir, RoomRefused 400)
    | Some c, DELETE =>
        match dir !! c with Some _ => (delete c dir, RoomDeleted) | None => (dir, RoomRefused 404) end
    | _, _ => (dir, RoomOther)
    end.

(** The status of an answer, and what its text says: an answer about a room
    names its code and, read with the relay's own parser, its session id. *)
Definition replies (r : room_reply) (resp : Response) : Prop :=
  match r with
  | RoomCreated code sid =>
      rs_status resp = 201 ∧ (∃ a b, rs_body resp = a ++ code ++ b)
      ∧ (u32 sid → extract_session_id (rs_body resp) = Some sid)
  | RoomInfo code sid =>
      rs_status resp = 200 ∧ (∃ a b, rs_body resp = a ++ code ++ b)
      ∧ (u32 sid → extract_session_id (rs_body resp) = Some sid)
  | RoomDeleted => rs_status resp = 200
  | RoomRefused s => rs_status resp = s
  | RoomOther => True
  end.

Lemma ascii_newline : ascii [10].
Proof. apply (bool_decide_unpack _). by vm_compute. Qed.

Lemma replies_created code sid :
  is_valid_code code = true →
  replies (RoomCreated code sid) (json_response 201 (room_created code sid)).
Proof.
  intros Hc. split; [done|]. rewrite json_response_body.
  2:{ unfold room_created. change (json "}") with [125]. by rewrite !app_assoc, last_snoc. }
  split; [|intros Hs; apply extract_room_created; [done|done|apply ascii_newline]].
  exists (json "{'code':'"), (json "','session_id':" ++ show sid ++ json "}" ++ [10]).
  unfold room_created. by rewrite <- !app_assoc.
Qed.

Lemma replies_info code sid k :
  is_valid_code code = true →
  replies (RoomInfo code sid) (json_response 200 (room_info code sid k)).
Proof.
  intros Hc. split; [done|]. rewrite json_response_body.
  2:{ unfold room_info. change (json "}") with [125]. by rewrite !app_assoc, last_snoc. }
  split; [|intros Hs; apply extract_room_info; [done|done|apply ascii_newline]].
  exists (json "{'code':'"), (json "','session_id':" ++ show sid ++ json ",'peer_count':"
    ++ show (Z.of_nat k) ++ json "}" ++ [10]).
  unfold room_info. by rewrite <- !app_assoc.
Qed.

(** Every request is answered, without a panic, as the directory prescribes;
    it changes neither the routing table nor, except by creating or deleting
    a room, the directory. *)
Lemma handle_refines t st req :
  ∃ code st' resp, generate_code t (as_counter st) = Val code ∧ is_valid_code code = true
    ∧ handle t st req = Val (st', resp)
    ∧ ro_rooms (as_router st') = (dir_step code (ro_rooms (as_router st)) req).1
    ∧ replies (dir_step code (ro_rooms (as_router st)) req).2 resp
    ∧ set_rooms (ro_rooms (as_router st)) (as_router st') = as_router st.
Proof.
  destruct (generate_code_ok t (as_counter st)) as (code & Hg & Hc).
  destruct st as [r c], req as [m p b]. exists code. cbn [as_counter as_router rq_path rq_method rq_body] in *.
  unfold handle, dir_step. cbn [rq_path rq_method rq_body as_router].
  assert (∀ r : Router, set_rooms (ro_rooms r) r = r) as Hid by by intros [].
  destruct (decide (p = ascii_bytes "/healthz")) as [->|]; [by eexists _, _|].
  destruct (decide (p = ascii_bytes "/metrics")) as [->|]; [by eexists _, _|].
  destruct (decide (p = ascii_bytes "/api/rooms")).
  { destruct m; try by eexists _, _. unfold handle_create_room.
    destruct (extract_session_id (default [] b)) as [id|]; [|by eexists _, _].
    destruct (id =? 0); [by eexists _, _|]. cbn [as_counter]. rewrite Hg. cbn [mbind checked_bind].
    unfold Router_register_room. cbn [as_router as_counter].
    destruct (ro_rooms r !! code) eqn:E; eexists _, _; split_and!; try done; [by apply replies_created|].
    by destruct r. }
  destruct (after_prefix _ p) as [cd|]; [|by destruct m; eexists _, _].
  destruct m; try by eexists _, _.
  - unfold handle_get_room, Router_resolve_room. destruct (is_valid_code cd) eqn:Hcd; [|by eexists _, _].
    destruct (ro_rooms r !! cd); [|by eexists _, _]. eexists _, _. split_and!; try done.
    by apply replies_info.
  - unfold handle_delete_room, Router_remove_room.
    destruct (ro_rooms r !! cd) eqn:E; eexists _, _; split_and!; try done; try by destruct r.
    cbn. by apply delete_id.
Qed.
End api.
