(* ===== verification/Stun.v ===== *)
(** * The STUN client

    Models the message handling of [gravital-talk-transport/src/stun.rs]: the
    Binding Request and the parsing of Binding Responses (RFC 5389).  Indexing
    and slicing panic out of range, as in the source; DNS, sockets, timeouts
    and the random transaction id are outside the model. *)

From S2P Require Import Prelude.
From S2P Require Import CoreTypes.
From S2P Require Import Message.
From S2P Require Import Transport.

Definition MAGIC_COOKIE : Z := 554869826.
Definition BINDING_REQUEST : Z := 1.
Definition BINDING_RESPONSE : Z := 257.
Definition ATTR_XOR_MAPPED_ADDRESS : Z := 32.
Definition ATTR_MAPPED_ADDRESS : Z := 1.
Definition FAMILY_IPV4 : Z := 1.

(** [buf[i]] and [&buf[a..b]] *)
Definition idx (buf : list Z) (i : nat) : checked Z :=
  match buf !! i with Some b => Val b | None => Panic end.
Definition range (buf : list Z) (a b : nat) : checked (list Z) :=
  if (a <=? b)%nat && (b <=? length buf)%nat then Val (slice a (b - a) buf) else Panic.

Definition build_binding_request (tx_id : list Z) : list Z :=
  let pkt := replicate 20 0 in
  let pkt := blit 0 (be_bytes 2 BINDING_REQUEST) pkt in
  let pkt := blit 2 (be_bytes 2 0) pkt in
  let pkt := blit 4 (be_bytes 4 MAGIC_COOKIE) pkt in
  blit 8 tx_id pkt.

Definition parse_xor_mapped_address (val : list Z) : checked (option SocketAddr) :=
  if (length val <? 8)%nat then Val None
  else
    family ← idx val 1;
    if negb (family =? FAMILY_IPV4) then Val None
    else
      p ← range val 2 4;
      a ← range val 4 8;
      let port := Z.lxor (from_be p) (wrap16 (Z.shiftr MAGIC_COOKIE 16)) in
      let addr := Z.lxor (from_be a) MAGIC_COOKIE in
      Val (Some (mkSocketAddr (V4 (be_bytes 4 addr)) port)).

Definition parse_mapped_address (val : list Z) : checked (option SocketAddr) :=
  if (length val <? 8)%nat then Val None
  else
    family ← idx val 1;
    if negb (family =? FAMILY_IPV4) then Val None
    else
      p ← range val 2 4;
      ip ← range val 4 8;
      Val (Some (mkSocketAddr (V4 ip) (from_be p))).

(** The loop over the attributes; [fuel] is more than the bytes left. *)
Fixpoint parse_attrs (fuel : nat) (buf : list Z) (pos end_ : nat)
    (fallback : option SocketAddr) : checked (option SocketAddr) :=
  match fuel with
  | O => Panic
  | S fuel =>
      if (pos + 4 <=? end_)%nat then
        ty ← range buf pos (pos + 2);
        ln ← range buf (pos + 2) (pos + 4);
        let attr_type := from_be ty in
        let attr_len := Z.to_nat (from_be ln) in
        let pos := (pos + 4)%nat in
        if (end_ <? pos + attr_len)%nat then Val fallback
        else
          attr_val ← range buf pos (pos + attr_len);
          let padded := Z.to_nat (Z.land (Z.of_nat attr_len + 3) (Z.lnot 3)) in
          if attr_type =? ATTR_XOR_MAPPED_ADDRESS then
            r ← parse_xor_mapped_address attr_val;
            match r with
            | Some addr => Val (Some addr)
            | None => parse_attrs fuel buf (pos + padded) end_ fallback
            end
          else if attr_type =? ATTR_MAPPED_ADDRESS then
            r ← parse_mapped_address attr_val;
            match r with
            | Some addr => parse_attrs fuel buf (pos + padded) end_ (Some addr)
            | None => parse_attrs fuel buf (pos + padded) end_ fallback
            end
          else parse_attrs fuel buf (pos + padded) end_ fallback
      else Val fallback
  end.

Definition parse_binding_response (buf expected_tx_id : list Z) : checked (option SocketAddr) :=
  if (length buf <? 20)%nat then Val None
  else
    ty ← range buf 0 2;
    if negb (from_be ty =? BINDING_RESPONSE) then Val None
    else
      ln ← range buf 2 4;
      let msg_len := Z.to_nat (from_be ln) in
      if (length buf <? 20 + msg_len)%nat then Val None
      else
        magic ← range buf 4 8;
        if negb (from_be magic =? MAGIC_COOKIE) then Val None
        else
          tx ← range buf 8 20;
          if negb (bool_decide (tx = expected_tx_id)) then Val None
          else parse_attrs (S (length buf)) buf 20 (20 + msg_len) None.

(** ** Reading within bounds *)

Lemma range_ok buf a b :
  (a ≤ b)%nat → (b ≤ length buf)%nat → range buf a b = Val (slice a (b - a) buf).
Proof.
  intros Ha Hb. unfold range. by rewrite (proj2 (Nat.leb_le a b)), (proj2 (Nat.leb_le _ _)).
Qed.

Lemma idx_ok buf i : (i < length buf)%nat → ∃ b, idx buf i = Val b.
Proof.
  intros Hi. destruct (lookup_lt_is_Some_2 buf i Hi) as [b Hb]. exists b. unfold idx. by rewrite Hb.
Qed.

Lemma parse_xor_total val : ∃ o, parse_xor_mapped_address val = Val o.
Proof.
  unfold parse_xor_mapped_address. destruct (Nat.ltb_spec (length val) 8); [by eexists|].
  destruct (idx_ok val 1) as [b ->]; [lia|]. cbn [mbind checked_bind].
  case_match; [by eexists|]. rewrite !range_ok by lia. by eexists.
Qed.

Lemma parse_mapped_total val : ∃ o, parse_mapped_address val = Val o.
Proof.
  unfold parse_mapped_address. destruct (Nat.ltb_spec (length val) 8); [by eexists|].
  destruct (idx_ok val 1) as [b ->]; [lia|]. cbn [mbind checked_bind].
  case_match; [by eexists|]. rewrite !range_ok by lia. by eexists.
Qed.

Lemma parse_attrs_total fuel buf pos end_ fb :
  (end_ ≤ length buf)%nat → (end_ < pos + fuel)%nat → (0 < fuel)%nat →
  ∃ o, parse_attrs fuel buf pos end_ fb = Val o.
Proof.
  intros He. revert pos fb. induction fuel as [|fuel IH]; intros pos fb Hf Hpos; [lia|].
  cbn [parse_attrs]. destruct (Nat.leb_spec (pos + 4) end_); [|by eexists].
  rewrite !range_ok by lia. cbn [mbind checked_bind].
  match goal with |- context [Z.to_nat (from_be ?l)] => set (n := Z.to_nat (from_be l)) end.
  destruct (Nat.ltb_spec end_ (pos + 4 + n)); [by eexists|].
  rewrite range_ok by lia. cbn [mbind checked_bind].
  match goal with |- context [parse_xor_mapped_address ?v] =>
    destruct (parse_xor_total v) as [ox ->], (parse_mapped_total v) as [om ->] end.
  cbn [mbind checked_bind].
  repeat case_match; try (by eexists); apply IH; lia.
Qed.

(** ** What a server's response says *)

(** An attribute as RFC 5389 lays it out, padded to four bytes. *)
Definition stun_attr (tv : Z * list Z) : list Z :=
  be_bytes 2 tv.1 ++ be_bytes 2 (Z.of_nat (length tv.2)) ++ tv.2
    ++ replicate (Z.to_nat (- Z.of_nat (length tv.2) mod 4)) 0.

Definition stun_body (attrs : list (Z * list Z)) : list Z := mjoin (stun_attr <$> attrs).

Definition stun_response (tx_id : list Z) (attrs : list (Z * list Z)) : list Z :=
  be_bytes 2 BINDING_RESPONSE ++ be_bytes 2 (Z.of_nat (length (stun_body attrs)))
    ++ be_bytes 4 MAGIC_COOKIE ++ tx_id ++ stun_body attrs.

Definition stun_attr_wf (tv : Z * list Z) : Prop := u16 tv.1 ∧ u16 (Z.of_nat (length tv.2)).

(** The value a checked parser returned. *)
Definition parsed (r : checked (option SocketAddr)) : option SocketAddr :=
  match r with Val o => o | Panic => None end.

(** The first XOR-MAPPED-ADDRESS that parses, else the last MAPPED-ADDRESS
    that parses. *)
Fixpoint stun_pick (fallback : option SocketAddr) (attrs : list (Z * list Z)) :
    option SocketAddr :=
  match attrs with
  | [] => fallback
  | (ty, val) :: rest =>
      if ty =? ATTR_XOR_MAPPED_ADDRESS then
        match parsed (parse_xor_mapped_address val) with
        | Some addr => Some addr
        | None => stun_pick fallback rest
        end
      else if ty =? ATTR_MAPPED_ADDRESS then
        match parsed (parse_mapped_address val) with
        | Some addr => stun_pick (Some addr) rest
        | None => stun_pick fallback rest
        end
      else stun_pick fallback rest
  end.

(** The value of an XOR-MAPPED-ADDRESS attribute for an IPv4 address. *)
Definition xor_mapped_value (addr port : Z) : list Z :=
  [0; FAMILY_IPV4] ++ be_bytes 2 (Z.lxor port (wrap16 (Z.shiftr MAGIC_COOKIE 16)))
    ++ be_bytes 4 (Z.lxor addr MAGIC_COOKIE).

Lemma parse_xor_value addr port :
  u32 addr → u16 port →
  parse_xor_mapped_address (xor_mapped_value addr port)
  = Val (Some (mkSocketAddr (V4 (be_bytes 4 addr)) port)).
Proof.
  intros Ha Hp. unfold parse_xor_mapped_address, xor_mapped_value.
  assert (u16 (Z.lxor port 8466)) as Hp' by (apply lxor_u16; [done|unfold u16; lia]).
  assert (u32 (Z.lxor addr MAGIC_COOKIE)) as Ha'
    by (apply (lxor_bound 32); [lia|done|unfold MAGIC_COOKIE; lia]).
  change (wrap16 (Z.shiftr MAGIC_COOKIE 16)) with 8466.
  set (P := be_bytes 2 _). set (A := be_bytes 4 (Z.lxor addr _)).
  assert (length P = 2%nat) as HlP by apply length_be_bytes.
  assert (length A = 4%nat) as HlA by apply length_be_bytes.
  rewrite !length_app, HlP, HlA. cbn [length Nat.add Nat.ltb Nat.leb].
  cbn [idx app lookup list_lookup mbind checked_bind]. cbn [Z.eqb FAMILY_IPV4 negb Pos.eqb].
  rewrite !range_ok by (cbn; rewrite ?length_app, ?HlP, ?HlA; lia).
  cbn [mbind checked_bind]. unfold slice. cbn [Nat.sub drop].
  replace (drop 2 (P ++ A)) with A by (by rewrite drop_app_length').
  rewrite drop_0, take_app_length' by done. rewrite (take_ge A) by lia.
  unfold P, A. rewrite from_be_be16, from_be_be32 by done.
  by rewrite !Z.lxor_assoc, !Z.lxor_nilpotent, !Z.lxor_0_r.
Qed.

Lemma padded_len n : Z.land (n + 3) (Z.lnot 3) = n + - n mod 4.
Proof.
  change (Z.land (n + 3) (Z.lnot 3)) with (Z.ldiff (n + 3) (Z.ones 2)).
  rewrite Z.ldiff_ones_r, Z.shiftl_mul_pow2, Z.shiftr_div_pow2 by lia.
  change (2 ^ 2) with 4. Z.to_euclidean_division_equations. lia.
Qed.

Lemma length_stun_attr tv :
  length (stun_attr tv) = (4 + Z.to_nat (Z.land (Z.of_nat (length tv.2) + 3) (Z.lnot 3)))%nat.
Proof.
  rewrite padded_len. unfold stun_attr.
  rewrite !length_app, !length_be_bytes, length_replicate.
  pose proof (Z.mod_pos_bound (- Z.of_nat (length tv.2)) 4 ltac:(lia)). lia.
Qed.

Lemma range_mid pre mid post a b :
  a = length pre → b = (length pre + length mid)%nat → range (pre ++ mid ++ post) a b = Val mid.
Proof.
  intros -> ->. rewrite range_ok by (rewrite ?length_app; lia). f_equal. unfold slice.
  rewrite drop_app_length. apply take_app_length'. lia.
Qed.

(** [parsed] of the value parsers is what they return. *)
Lemma parse_xor_parsed val :
  parse_xor_mapped_address val = Val (parsed (parse_xor_mapped_address val)).
Proof. by destruct (parse_xor_total val) as [o ->]. Qed.

Lemma parse_mapped_parsed val :
  parse_mapped_address val = Val (parsed (parse_mapped_address val)).
Proof. by destruct (parse_mapped_total val) as [o ->]. Qed.

(** The loop on a buffer whose unread part is the encoding of [attrs]. *)
Lemma parse_attrs_spec attrs fuel pre post fb :
  Forall stun_attr_wf attrs → (length (stun_body attrs) < fuel)%nat →
  parse_attrs fuel (pre ++ stun_body attrs ++ post) (length pre)
    (length pre + length (stun_body attrs)) fb
  = Val (stun_pick fb attrs).
Proof.
  intros Hwf. revert fuel pre fb. induction Hwf as [|[ty val] attrs [Hty Hln] Hwf IH];
    intros fuel pre fb Hf; (destruct fuel as [|fuel]; [lia|]); cbn [parse_attrs].
  { cbn. by rewrite (proj2 (Nat.leb_gt _ _)) by lia. }
  pose proof (length_stun_attr (ty, val)) as Hla. cbn [fst snd] in *.
  set (padded := Z.to_nat (Z.land _ _)) in Hla.
  change (stun_body ((ty, val) :: attrs)) with (stun_attr (ty, val) ++ stun_body attrs) in *.
  rewrite length_app, Hla in Hf |- *. rewrite (proj2 (Nat.leb_le _ _)) by lia.
  assert (length val ≤ padded)%nat as Hpad 
    by (pose proof (Z.mod_pos_bound (- Z.of_nat (length val)) 4 ltac:(lia));
        unfold padded; rewrite padded_len; lia).
  set (buf := pre ++ (stun_attr (ty, val) ++ stun_body attrs) ++ post).
  assert (range buf (length pre) (length pre + 2) = Val (be_bytes 2 ty)) as ->.
  { unfold buf, stun_attr. cbn [fst snd]. rewrite <- !app_assoc. apply range_mid; [done|].
    by rewrite length_be_bytes. }
  assert (range buf (length pre + 2) (length pre + 4)
    = Val (be_bytes 2 (Z.of_nat (length val)))) as ->.
  { unfold buf, stun_attr. cbn [fst snd]. rewrite <- !app_assoc.
    rewrite (app_assoc pre). apply range_mid; rewrite length_app, !length_be_bytes; lia. }
  cbn [mbind checked_bind]. rewrite !from_be_be16 by done. rewrite Nat2Z.id.
  rewrite (proj2 (Nat.ltb_ge _ _)) by lia.
  assert (range buf (length pre + 4) (length pre + 4 + length val) = Val val) as ->.
  { unfold buf, stun_attr. cbn [fst snd]. rewrite <- !app_assoc.
    rewrite (app_assoc (be_bytes 2 ty)), (app_assoc pre).
    apply range_mid; rewrite !length_app, !length_be_bytes; lia. }
  cbn [mbind checked_bind]. rewrite parse_xor_parsed, parse_mapped_parsed. cbn [mbind checked_bind].
  assert (∀ fb, parse_attrs fuel buf (length pre + 4 + padded)
    (length pre + (4 + padded + length (stun_body attrs))) fb = Val (stun_pick fb attrs)) as Hrest.
  { intros fb'. unfold buf. rewrite <- app_assoc, (app_assoc pre).
    rewrite <- (IH fuel (pre ++ stun_attr (ty, val)) fb') by lia.
    rewrite length_app, Hla. f_equal; lia. }
  fold padded. cbn [stun_pick]. rewrite !Hrest. repeat case_match; done.
Qed.

Lemma parse_binding_response_total buf tx : ∃ o, parse_binding_response buf tx = Val o.
Proof.
  unfold parse_binding_response. destruct (Nat.ltb_spec (length buf) 20); [by eexists|].
  rewrite !range_ok by lia. cbn [mbind checked_bind]. case_match; [by eexists|].
  match goal with |- context [(length buf <? ?n)%nat] =>
    destruct (Nat.ltb_spec (length buf) n); [by eexists|] end.
  case_match; [by eexists|]. case_match; [by eexists|]. apply parse_attrs_total; lia.
Qed.

Lemma parse_binding_response_tx buf tx addr :
  parse_binding_response buf tx = Val (Some addr) → (20 ≤ length buf)%nat ∧ slice 8 12 buf = tx.
Proof.
  unfold parse_binding_response. destruct (Nat.ltb_spec (length buf) 20); [done|].
  rewrite !range_ok by lia. cbn [mbind checked_bind Nat.sub].
  repeat (case_match; [done|]). intros _. split; [done|].
  match goal with Hb : negb (bool_decide _) = false |- _ =>
    by apply negb_false_iff, bool_decide_eq_true in Hb end.
Qed.

Lemma parse_response_spec tx attrs extra :
  length tx = 12%nat → Forall stun_attr_wf attrs → u16 (Z.of_nat (length (stun_body attrs))) →
  parse_binding_response (stun_response tx attrs ++ extra) tx = Val (stun_pick None attrs).
Proof.
  intros Htx Hwf Hlen. unfold parse_binding_response.
  set (body := stun_body attrs) in *. set (L := be_bytes 2 (Z.of_nat (length body))).
  set (T := be_bytes 2 BINDING_RESPONSE). set (C := be_bytes 4 MAGIC_COOKIE).
  assert (stun_response tx attrs ++ extra = (T ++ L ++ C ++ tx) ++ body ++ extra) as ->
    by (unfold stun_response; by rewrite <- !app_assoc).
  assert (length (T ++ L ++ C ++ tx) = 20%nat) as Hpre
    by (unfold T, L, C; rewrite !length_app, !length_be_bytes, Htx; lia).
  rewrite length_app, Hpre, length_app. rewrite (proj2 (Nat.ltb_ge _ _)) by lia.
  assert (∀ a b mid post, (a ≤ b)%nat → (b ≤ 20)%nat →
    drop a (T ++ L ++ C ++ tx) = mid ++ post → length mid = (b - a)%nat →
    range ((T ++ L ++ C ++ tx) ++ body ++ extra) a b = Val mid) as Hr.
  { intros a b mid post Ha Hb Hd Hm. rewrite range_ok; [|done|rewrite length_app, Hpre; lia].
    f_equal. unfold slice. rewrite drop_app_le by lia. rewrite Hd, <- app_assoc.
    by apply take_app_length'. }
  assert (length T = 2%nat ∧ length L = 2%nat ∧ length C = 4%nat) as (HT & HL & HC)
    by (unfold T, L, C; by rewrite !length_be_bytes).
  rewrite (Hr 0%nat 2%nat T (L ++ C ++ tx)) by (rewrite ?drop_0; lia || done).
  cbn [mbind checked_bind]. unfold T at 1. rewrite from_be_be16 by (unfold BINDING_RESPONSE; ulia).
  rewrite Z.eqb_refl. cbn [negb].
  rewrite (Hr 2%nat 4%nat L (C ++ tx)) by (rewrite ?drop_app_length'; lia || done).
  cbn [mbind checked_bind].
  assert (Z.to_nat (from_be L) = length body) as ->
    by (unfold L; rewrite from_be_be16 by done; by rewrite Nat2Z.id).
  rewrite (proj2 (Nat.ltb_ge _ _)) by lia.
  rewrite (Hr 4%nat 8%nat C tx)
    by (rewrite ?(app_assoc T), ?drop_app_length'; rewrite ?length_app; lia || done).
  cbn [mbind checked_bind]. unfold C at 1. rewrite from_be_be32 by (unfold MAGIC_COOKIE; ulia).
  rewrite Z.eqb_refl. cbn [negb].
  rewrite (Hr 8%nat 20%nat tx [])
    by (rewrite ?app_nil_r, ?(app_assoc T), ?(app_assoc _ C), ?drop_app_length';
        rewrite ?length_app; lia || done).
  cbn [mbind checked_bind]. rewrite bool_decide_eq_true_2 by done. cbn [negb].
  rewrite <- Hpre at 2 3. apply parse_attrs_spec; [done|]. unfold body. lia.
Qed.

Lemma stun_pick_xor pre addr port rest :
  u32 addr → u16 port → Forall (λ tv, tv.1 ≠ ATTR_XOR_MAPPED_ADDRESS) pre →
  ∀ fb, stun_pick fb (pre ++ (ATTR_XOR_MAPPED_ADDRESS, xor_mapped_value addr port) :: rest)
  = Some (mkSocketAddr (V4 (be_bytes 4 addr)) port).
Proof.
  intros Ha Hp Hpre. induction Hpre as [|[ty val] pre Hty Hpre IH]; intros fb; cbn [app stun_pick].
  - by rewrite Z.eqb_refl, parse_xor_value.
  - cbn in Hty. rewrite (proj2 (Z.eqb_neq _ _)) by done. repeat case_match; apply IH.
Qed.

(** The STUN parser on anything the network delivers: it always
    terminates with an answer and never reads out of range, and it reports an
    address only from a response that carries the transaction id of the
    request. On every response laid out as RFC 5389 says, with any attributes
    in any order and trailing bytes, it returns the first XOR-MAPPED-ADDRESS
    that parses, else the last MAPPED-ADDRESS; and for the IPv4 address and
    port a server put into an XOR-MAPPED-ADDRESS it returns exactly these. *)
Theorem stun_response_correct tx :
  length tx = 12%nat →
  (∀ buf, ∃ o, parse_binding_response buf tx = Val o
     ∧ (is_Some o → (20 ≤ length buf)%nat ∧ slice 8 12 buf = tx))
  ∧ (∀ attrs extra, Forall stun_attr_wf attrs → u16 (Z.of_nat (length (stun_body attrs))) →
       parse_binding_response (stun_response tx attrs ++ extra) tx = Val (stun_pick None attrs)
       ∧ ∀ pre rest addr port, u32 addr → u16 port →
           attrs = pre ++ (ATTR_XOR_MAPPED_ADDRESS, xor_mapped_value addr port) :: rest →
           Forall (λ tv, tv.1 ≠ ATTR_XOR_MAPPED_ADDRESS) pre →
           parse_binding_response (stun_response tx attrs ++ extra) tx
           = Val (Some (mkSocketAddr (V4 (be_bytes 4 addr)) port))).
Proof.
  intros Htx. split.
  - intros buf. destruct (parse_binding_response_total buf tx) as [o Ho]. exists o. split; [done|].
    intros [a ->]. by eapply parse_binding_response_tx.
  - intros attrs extra Hwf Hlen. rewrite parse_response_spec by done. split; [done|].
    intros pre rest addr port Ha Hp -> Hpre. f_equal. by apply stun_pick_xor.
Qed.

(** A response to transaction 1..12 with a SOFTWARE attribute of three bytes
    (one of padding) before the mapped address 192.0.2.1:4660. *)
Lemma stun_response_correct_witness :
  let tx := [1; 2; 3; 4; 5; 6; 7; 8; 9; 10; 11; 12] in
  let attrs := [(32802, [103; 115; 49]);
                (ATTR_XOR_MAPPED_ADDRESS, xor_mapped_value 3221225985 4660)] in
  length (stun_response tx attrs) = 40%nat
  ∧ parse_binding_response (stun_response tx attrs ++ []) tx
    = Val (Some (mkSocketAddr (V4 [192; 0; 2; 1]) 4660)).
Proof.
  intros tx attrs. split; [reflexivity|].
  destruct (stun_response_correct tx eq_refl) as [_ Hspec].
  assert (Forall stun_attr_wf attrs) as Hwf.
  { constructor; [split; cbn; ulia|]. constructor; [|constructor].
    split; vm_compute; (split; [discriminate|reflexivity]). }
  destruct (Hspec attrs [] Hwf) as [_ Hx]; [vm_compute; split; [discriminate|reflexivity]|].
  apply (Hx [(32802, [103; 115; 49])] [] 3221225985 4660); [ulia|ulia|reflexivity|].
  constructor; [discriminate|constructor].
Defined.

Example build_binding_request_wire tx :
  length tx = 12%nat →
  build_binding_request tx = [0; 1; 0; 0; 33; 18; 164; 66] ++ tx.
Proof. intros Htx. unfold build_binding_request. do 12 (destruct tx as [|? tx]; [done|]). by destruct tx. Qed.
