(* ===== verification/StunClient.v ===== *)
(** * Finding the public address

    Models [discover_public_addr] and [do_stun_exchange] of
    [gravital-talk-transport/src/stun.rs] over the message handling of
    [Stun].  Name resolution, the socket and the random transaction ids are
    the class [StunEnv]; what arrives during one exchange is the list of
    events before its five seconds are over, so an exchange that has used up
    its events is one that timed out. *)

From S2P Require Import Prelude.
From S2P Require Import Text.
From S2P Require Import Transport.
From S2P Require Import Stun.
From stdpp Require Import strings list.
#[local] Open Scope Z_scope.

Inductive StunError : Type :=
  | SeIo
  | SeTimeout
  | SeMalformed
  | SeResolve.

Inductive StunEvent : Type :=
  | StunData (data : list Z) (from : SocketAddr)
  | StunRecvError.

(** For the [i]-th server: the first address its name resolves to, the
    transaction id drawn, whether the request could be sent, and the events
    within the timeout. *)
Class StunEnv : Type := {
  stun_bind : SocketAddr → bool;
  stun_lookup : nat → list Z → option SocketAddr;
  stun_tx_id : nat → list Z;
  stun_send : nat → list Z → SocketAddr → bool;
  stun_events : nat → list StunEvent;
}.

Definition STUN_SERVERS : list (list Z) :=
  ascii_bytes <$> ["stun.l.google.com:19302"; "stun1.l.google.com:19302";
                   "stun2.l.google.com:19302"]%string.

(** The loop of [do_stun_exchange], under its timeout ([None] when it
    fires); the buffer has 512 bytes, and the sender is not looked at. *)
Fixpoint stun_wait (events : list StunEvent) (tx_id : list Z) :
    checked (option (result StunError SocketAddr)) :=
  match events with
  | [] => Val None
  | StunRecvError :: _ => Val (Some (Err SeIo))
  | StunData data _ :: events =>
      r ← parse_binding_response (take 512 data) tx_id;
      match r with
      | Some addr => Val (Some (Ok addr))
      | None => stun_wait events tx_id
      end
  end.

Section client.
Context `{StunEnv}.

Definition do_stun_exchange (i : nat) (server : SocketAddr) (request tx_id : list Z) :
    checked (option (result StunError SocketAddr)) :=
  if negb (stun_send i request server) then Val (Some (Err SeIo))
  else stun_wait (stun_events i) tx_id.

(** The loop over the servers from the [i]-th on, with the requests sent. *)
Fixpoint stun_servers (i : nat) (servers : list (list Z)) :
    checked (list (list Z * SocketAddr) * result StunError SocketAddr) :=
  match servers with
  | [] => Val ([], Err SeTimeout)
  | server :: servers =>
      match stun_lookup i server with
      | None => stun_servers (S i) servers
      | Some server_addr =>
          let tx_id := stun_tx_id i in
          let request := build_binding_request tx_id in
          r ← do_stun_exchange i server_addr request tx_id;
          match r with
          | Some (Ok addr) => Val ([(request, server_addr)], Ok addr)
          | Some (Err _) | None =>
              rest ← stun_servers (S i) servers;
              Val ((request, server_addr) :: rest.1, rest.2)
          end
      end
  end.

Definition discover_public_addr (local_port : Z) :
    checked (list (list Z * SocketAddr) * result StunError SocketAddr) :=
  if negb (stun_bind (mkSocketAddr (V4 [0; 0; 0; 0]) local_port)) then Val ([], Err SeIo)
  else stun_servers 0 STUN_SERVERS.

(** ** What the exchange finds *)

(** The answer of the exchange with the [i]-th server: the first datagram
    that is a response to its request, if no error comes before it. *)
Fixpoint first_answer (events : list StunEvent) (tx_id : list Z) : option SocketAddr :=
  match events with
  | StunData data _ :: events =>
      match parsed (parse_binding_response (take 512 data) tx_id) with
      | Some addr => Some addr
      | None => first_answer events tx_id
      end
  | _ => None
  end.

Definition exchange_answer (i : nat) (server : list Z) : option SocketAddr :=
  match stun_lookup i server with
  | Some a =>
      if stun_send i (build_binding_request (stun_tx_id i)) a
      then first_answer (stun_events i) (stun_tx_id i) else None
  | None => None
  end.

Lemma stun_wait_answer events tx :
  ∃ r, stun_wait events tx = Val r
    ∧ match r with Some (Ok a) => first_answer events tx = Some a | _ => first_answer events tx = None end.
Proof.
  induction events as [|[data from|] events IH]; cbn; [by eexists| |by eexists].
  destruct (parse_binding_response_total (take 512 data) tx) as [o ->]. cbn.
  destruct o as [a|]; [by eexists|done].
Qed.

Lemma exchange_answers i server a :
  stun_lookup i server = Some a →
  ∃ r, do_stun_exchange i a (build_binding_request (stun_tx_id i)) (stun_tx_id i) = Val r
    ∧ exchange_answer i server = match r with Some (Ok x) => Some x | _ => None end.
Proof.
  intros Ha. unfold do_stun_exchange, exchange_answer. rewrite Ha.
  destruct (stun_send _ _ _); cbn [negb]; [|by eexists].
  destruct (stun_wait_answer (stun_events i) (stun_tx_id i)) as (r & -> & Hr).
  exists r. split; [done|]. destruct r as [[x|]|]; done.
Qed.

(** The servers are asked in order until one answers. *)
Lemma stun_servers_spec i servers :
  ∃ log, stun_servers i servers
    = Val (log, match head (omap (λ p : nat * list Z, exchange_answer p.1 p.2)
                              (zip (seq i (length servers)) servers)) with
                | Some a => Ok a | None => Err SeTimeout end).
Proof.
  revert i. induction servers as [|server servers IH]; intros i; [by eexists|].
  cbn [stun_servers length seq zip zip_with omap list_omap fst snd].
  destruct (stun_lookup i server) as [a|] eqn:Ha.
  - destruct (exchange_answers i server a Ha) as (r & -> & ->). cbn [mbind checked_bind].
    destruct (IH (S i)) as [log Hlog].
    destruct r as [[x|e]|]; [by eexists|rewrite Hlog; by eexists..].
  - unfold exchange_answer. rewrite Ha. apply IH.
Qed.

Lemma first_answer_tx events tx a :
  length tx = 12%nat → first_answer events tx = Some a →
  ∃ data from, StunData data from ∈ events ∧ slice 8 12 (take 512 data) = tx.
Proof.
  intros Hl. induction events as [|[data from|] events IH]; cbn; [done| |done].
  destruct (parsed _) as [x|] eqn:E.
  - intros [= ->]. exists data, from. split; [left|].
    destruct (parse_binding_response (take 512 data) tx) as [[y|]|] eqn:Ep; try done.
    by eapply parse_binding_response_tx.
  - intros Ha. destruct (IH Ha) as (d & f & Hin & Htx). exists d, f. split; [by right|done].
Qed.

(** A well-formed response of the server, after any other traffic, answers
    the exchange. *)
Lemma first_answer_honest before after attrs extra tx pre rest addr port from :
  length tx = 12%nat →
  Forall stun_attr_wf attrs → u16 (Z.of_nat (length (stun_body attrs))) →
  (length (stun_response tx attrs ++ extra) ≤ 512)%nat →
  attrs = pre ++ (ATTR_XOR_MAPPED_ADDRESS, xor_mapped_value addr port) :: rest →
  Forall (λ tv, tv.1 ≠ ATTR_XOR_MAPPED_ADDRESS) pre → u32 addr → u16 port →
  Forall (λ e, match e with StunData d _ => slice 8 12 (take 512 d) ≠ tx | _ => False end) before →
  first_answer (before ++ StunData (stun_response tx attrs ++ extra) from :: after) tx
  = Some (mkSocketAddr (V4 (be_bytes 4 addr)) port).
Proof.
  intros Htx Hwf Hlen H512 Hat Hpre Ha Hp Hb.
  induction Hb as [|[d f|] before Hd _ IH]; cbn [app first_answer]; [| |done].
  - rewrite take_ge by done. rewrite parse_response_spec by done. cbn [parsed].
    by rewrite Hat, stun_pick_xor.
  - destruct (parse_binding_response_total (take 512 d) tx) as [[y|] Ho]; rewrite Ho; cbn [parsed];
      [|done]. destruct Hd. by eapply parse_binding_response_tx.
Qed.
End client.

(** The first server with an answer decides. *)
Lemma head_omap_zip {A B} (f : nat → A → option B) (l : list A) i :
  match head (omap (λ p : nat * A, f p.1 p.2) (zip (seq i (length l)) l)) with
  | Some b => ∃ k x, l !! k = Some x ∧ f (i + k)%nat x = Some b
                ∧ ∀ j y, (j < k)%nat → l !! j = Some y → f (i + j)%nat y = None
  | None => ∀ k x, l !! k = Some x → f (i + k)%nat x = None
  end.
Proof.
  revert i. induction l as [|x l IH]; intros i; cbn [length seq zip zip_with omap list_omap fst snd];
    [done|]. destruct (f i x) as [b|] eqn:Hf; cbn [head].
  - exists 0%nat, x. rewrite Nat.add_0_r. split; [done|]. split; [done|]. intros j y. lia.
  - specialize (IH (S i)). destruct (head _) as [b|].
    + destruct IH as (k & y & Hk & Hy & Hmin). exists (S k), y. rewrite Nat.add_succ_r.
      split; [done|]. split; [done|]. intros [|j] z Hj Hz.
      * cbn in Hz. injection Hz as <-. by rewrite Nat.add_0_r.
      * rewrite Nat.add_succ_r. apply (Hmin j); [lia|done].
    + intros [|k] y Hy; [cbn in Hy; injection Hy as <-; by rewrite Nat.add_0_r|].
      rewrite Nat.add_succ_r. by apply IH.
Qed.

(** C34: finding the public address.  Whatever the network delivers, the
    client ends without a panic; it asks the servers in order and returns the
    answer of the first one that gives one, and it reports a timeout exactly
    when none does.  An address it returns comes from a datagram that carries
    the transaction id of the exchange with that server, so late or foreign
    responses are never taken.  And a server whose IPv4 response is laid out
    as RFC 5389 says is believed exactly: when its name resolves, the request
    is sent, the servers before it give no answer, the whole datagram has at
    most 512 bytes, and before it come only datagrams that do not carry the
    transaction id (no receive error and no timeout), the result is the
    address and port in its first XOR-MAPPED-ADDRESS, whatever other
    attributes the response has.  (A longer response, which RFC 5389 allows,
    is cut at 512 bytes and dropped.) *)
Theorem public_addr_discovery `{StunEnv} local_port :
  (∀ i, length (stun_tx_id i) = 12%nat) →
  stun_bind (mkSocketAddr (V4 [0; 0; 0; 0]) local_port) = true →
  ∃ log r, discover_public_addr local_port = Val (log, r)
    ∧ (r = Err SeTimeout ↔ ∀ i s, STUN_SERVERS !! i = Some s → exchange_answer i s = None)
    ∧ (∀ a, r = Ok a → ∃ i s data from,
         STUN_SERVERS !! i = Some s ∧ exchange_answer i s = Some a
         ∧ (∀ j s', (j < i)%nat → STUN_SERVERS !! j = Some s' → exchange_answer j s' = None)
         ∧ StunData data from ∈ stun_events i ∧ slice 8 12 (take 512 data) = stun_tx_id i)
    ∧ ∀ i s sa before after from attrs extra pre rest addr port,
        STUN_SERVERS !! i = Some s → stun_lookup i s = Some sa →
        stun_send i (build_binding_request (stun_tx_id i)) sa = true →
        (∀ j s', (j < i)%nat → STUN_SERVERS !! j = Some s' → exchange_answer j s' = None) →
        stun_events i
        = before ++ StunData (stun_response (stun_tx_id i) attrs ++ extra) from :: after →
        Forall (λ e, match e with
                     | StunData d _ => slice 8 12 (take 512 d) ≠ stun_tx_id i
                     | _ => False end) before →
        Forall stun_attr_wf attrs → u16 (Z.of_nat (length (stun_body attrs))) →
        (length (stun_response (stun_tx_id i) attrs ++ extra) ≤ 512)%nat →
        attrs = pre ++ (ATTR_XOR_MAPPED_ADDRESS, xor_mapped_value addr port) :: rest →
        Forall (λ tv, tv.1 ≠ ATTR_XOR_MAPPED_ADDRESS) pre → u32 addr → u16 port →
        r = Ok (mkSocketAddr (V4 (be_bytes 4 addr)) port).
Proof.
  intros Htx Hb. unfold discover_public_addr. rewrite Hb. cbn [negb].
  destruct (stun_servers_spec 0 STUN_SERVERS) as [log Hrun].
  pose proof (head_omap_zip exchange_answer STUN_SERVERS 0) as Hhd. cbn [Nat.add] in Hhd.
  rewrite Hrun. clear Hrun. set (o := head _) in *. clearbody o.
  eexists log, _. split; [reflexivity|]. split_and!.
  - destruct o as [b|]; [|done]. destruct Hhd as (k & x & Hk & Hx & _). split; [done|].
    intros Hn. by rewrite (Hn k x Hk) in Hx.
  - destruct o as [b|]; [|done]. intros a [= <-]. destruct Hhd as (k & x & Hk & Hx & Hmin).
    pose proof Hx as Hans. unfold exchange_answer in Hans. destruct (stun_lookup _ _); [|done].
    destruct (stun_send _ _ _); [|done].
    apply first_answer_tx in Hans as (data & from & Hin & Ht); [|done].
    exists k, x, data, from. split_and!; [done|done| |done|done]. intros j y Hj Hy. by apply (Hmin j).
  - intros i s sa before after from attrs extra pre rest addr port Hi Hsa Hsend Hnone Hev Hbef Hwf Hlen
      H512 Hat Hpre Ha Hp.
    assert (exchange_answer i s = Some (mkSocketAddr (V4 (be_bytes 4 addr)) port)) as Hans.
    { unfold exchange_answer. rewrite Hsa, Hsend, Hev.
      eapply first_answer_honest; [apply Htx|done..]. }
    destruct o as [b|]; [|by rewrite (Hhd i s Hi) in Hans].
    destruct Hhd as (k & x & Hk & Hx & Hmin). f_equal.
    destruct (lt_eq_lt_dec k i) as [[Hlt| ->]|Hgt].
    + by rewrite (Hnone k x Hlt Hk) in Hx.
    + rewrite Hi in Hk. injection Hk as ->. rewrite Hx in Hans. by injection Hans.
    + by rewrite (Hmin i s Hgt Hi) in Hans.
Qed.

(** The first name does not resolve; the second server's response, for
    192.0.2.1:4660, comes after unrelated traffic. *)
Definition stun_sample : StunEnv := {|
  stun_bind _ := true;
  stun_lookup i _ := if (i =? 0)%nat then None else Some (mkSocketAddr (V4 [198; 51; 100; 1]) 19302);
  stun_tx_id i := replicate 12 (Z.of_nat i);
  stun_send _ _ _ := true;
  stun_events i :=
    [StunData [1; 2; 3] (mkSocketAddr (V4 [10; 0; 0; 1]) 5);
     StunData (stun_response (replicate 12 (Z.of_nat i))
       [(ATTR_XOR_MAPPED_ADDRESS, xor_mapped_value 3221225985 4660)])
       (mkSocketAddr (V4 [198; 51; 100; 1]) 19302)];
|}.

Lemma public_addr_discovery_witness :
  ∃ log, discover_public_addr (H := stun_sample) 0
    = Val (log, Ok (mkSocketAddr (V4 [192; 0; 2; 1]) 4660)) ∧ length log = 1%nat.
Proof.
  destruct (public_addr_discovery (H := stun_sample) 0) as (log & r & Hrun & _ & _ & Hans).
  - intros i. reflexivity.
  - reflexivity.
  - exists log. rewrite Hrun.
    rewrite (Hans 1%nat (ascii_bytes "stun1.l.google.com:19302") (mkSocketAddr (V4 [198; 51; 100; 1]) 19302)
      [StunData [1; 2; 3] (mkSocketAddr (V4 [10; 0; 0; 1]) 5)] [] (mkSocketAddr (V4 [198; 51; 100; 1]) 19302)
      [(ATTR_XOR_MAPPED_ADDRESS, xor_mapped_value 3221225985 4660)] [] [] [] 3221225985 4660).
    2-4: reflexivity.
    2:{ intros [|j] s' Hj Hs'; [reflexivity|lia]. }
    2: reflexivity.
    2:{ constructor; [|constructor]. vm_compute. discriminate. }
    2-8: first [reflexivity | (apply (bool_decide_unpack _); vm_compute; exact I)
                | (constructor; [|constructor]; split; apply (bool_decide_unpack _); vm_compute; exact I)
                | constructor].
    split; [reflexivity|]. vm_compute in Hrun. injection Hrun as <- _. reflexivity.
Defined.
