(* ===== verification/RelayDaemon.v ===== *)
(** * The relay process

    Puts the parts of the relay together ([gravital-talk-relay/src/config.rs],
    [main.rs], [udp.rs], [ws.rs], [observability.rs], and [cmd_relay] of the
    command line): how its configuration is found, and the running process
    as a transition system whose steps are those of its tasks (one datagram,
    one WebSocket event, one HTTP request, one round of garbage collection),
    in any order.  Reading files, the TOML parser and binding sockets are the
    class [RelayHost]. *)

From S2P Require Import Prelude.
From S2P Require Import Text.
From S2P Require Import CoreTypes.
From S2P Require Import Header.
From S2P Require Import Packet.
From S2P Require Import Message.
From S2P Require Import Transport.
From S2P Require Import NetAddr.
From S2P Require Import Router.
From S2P Require Import Relay.
From S2P Require Import Rooms.
From S2P Require Import RoomsApi.
From stdpp Require Import gmap strings list.
#[local] Open Scope Z_scope.

(** ** Configuration *)

Record RelayConfig : Type := mkRelayConfig {
  rc_udp_bind : SocketAddr;
  rc_ws_bind : SocketAddr;
  rc_observability_bind : SocketAddr;
  rc_session_ttl_secs : Z;
  rc_max_sessions : nat;
  rc_max_peers_per_session : nat;
}.

(** The fields of a configuration file that are present. *)
Record RelayToml : Type := mkRelayToml {
  rt_udp_bind : option SocketAddr;
  rt_ws_bind : option SocketAddr;
  rt_observability_bind : option SocketAddr;
  rt_session_ttl_secs : option Z;
  rt_max_sessions : option nat;
  rt_max_peers_per_session : option nat;
}.

(** [literal.parse().unwrap()] *)
Definition parse_unwrap (s : string) : checked SocketAddr :=
  match parse_socket_addr (ascii_bytes s) with Some a => Val a | None => Panic end.

Definition default_udp : checked SocketAddr := parse_unwrap "0.0.0.0:9000".
Definition default_ws : checked SocketAddr := parse_unwrap "0.0.0.0:9090".
Definition default_obs : checked SocketAddr := parse_unwrap "0.0.0.0:9100".
Definition default_ttl : Z := 300.
Definition default_max_sessions : nat := Z.to_nat 10000.
Definition default_max_peers : nat := 50.

Definition RelayConfig_default : checked RelayConfig :=
  udp ← default_udp; ws ← default_ws; obs ← default_obs;
  Val (mkRelayConfig udp ws obs default_ttl default_max_sessions default_max_peers).

(** [#[serde(default = "f")]] *)
Definition field_or {A} (f : option A) (d : checked A) : checked A :=
  match f with Some a => Val a | None => d end.

Definition RelayConfig_from_toml (t : RelayToml) : checked RelayConfig :=
  udp ← field_or (rt_udp_bind t) default_udp;
  ws ← field_or (rt_ws_bind t) default_ws;
  obs ← field_or (rt_observability_bind t) default_obs;
  Val (mkRelayConfig udp ws obs (default default_ttl (rt_session_ttl_secs t))
         (default default_max_sessions (rt_max_sessions t))
         (default default_max_peers (rt_max_peers_per_session t))).

Class RelayHost : Type := {
  host_read : list Z → option (list Z);
  toml_from_str : list Z → option RelayToml;
  host_bind_udp : SocketAddr → bool;
  host_bind_tcp : SocketAddr → bool;
}.

(** The arguments of the [gs-relay] binary. *)
Record Args : Type := mkArgs {
  ar_config : option (list Z);
  ar_udp_bind : option SocketAddr;
  ar_ws_bind : option SocketAddr;
  ar_observability_bind : option SocketAddr;
}.

(** Those of [gs relay]; the flags have defaults, so they are always there. *)
Record RelayFlags : Type := mkRelayFlags {
  rf_config : option (list Z);
  rf_bind : list Z;
  rf_udp_port : Z;
  rf_ws_port : Z;
  rf_obs_port : Z;
  rf_session_ttl : Z;
  rf_max_sessions : nat;
  rf_max_peers : nat;
}.

Definition RelayFlags_default : RelayFlags :=
  mkRelayFlags None (ascii_bytes "0.0.0.0") 9000 9090 9100 300 (Z.to_nat 10000) 50.

Section config.
Context `{RelayHost}.

(** [None] is an error of reading or parsing. *)
Definition RelayConfig_from_file (path : list Z) : checked (option RelayConfig) :=
  match host_read path ≫= toml_from_str with
  | Some t => c ← RelayConfig_from_toml t; Val (Some c)
  | None => Val None
  end.

Definition load_config (path : option (list Z)) : checked (option RelayConfig) :=
  match path with
  | Some p => RelayConfig_from_file p
  | None => c ← RelayConfig_default; Val (Some c)
  end.

(** The configuration [main] of [gs-relay] runs with. *)
Definition override_binds (a : Args) (cfg : RelayConfig) : RelayConfig :=
  mkRelayConfig (default (rc_udp_bind cfg) (ar_udp_bind a))
    (default (rc_ws_bind cfg) (ar_ws_bind a))
    (default (rc_observability_bind cfg) (ar_observability_bind a))
    (rc_session_ttl_secs cfg) (rc_max_sessions cfg) (rc_max_peers_per_session cfg).

Definition gs_relay_config (a : Args) : checked (option RelayConfig) :=
  cfg ← load_config (ar_config a);
  Val (option_map (override_binds a) cfg).

(** The configuration [cmd_relay] runs with. *)
Definition cmd_relay_config (f : RelayFlags) : checked (option RelayConfig) :=
  cfg ← load_config (rf_config f);
  match cfg with
  | None => Val None
  | Some cfg =>
      match parse_socket_addr (host_port (rf_bind f) (rf_udp_port f)) with
      | None => Val None
      | Some udp =>
          match parse_socket_addr (host_port (rf_bind f) (rf_ws_port f)) with
          | None => Val None
          | Some ws =>
              match parse_socket_addr (host_port (rf_bind f) (rf_obs_port f)) with
              | None => Val None
              | Some obs =>
                  Val (Some (mkRelayConfig udp ws obs (rf_session_ttl f) (rf_max_sessions f)
                               (rf_max_peers f)))
              end
          end
      end
  end.
End config.

(** ** The running process *)

(** A WebSocket connection has a reader and a writer task. *)
Inductive conn : Type :=
  | ConnOpen      (* both run *)
  | ConnDraining  (* the reader has ended, the writer waits for its channel to close *)
  | ConnDeaf.     (* the writer has ended, the reader still runs *)

#[export] Instance conn_eq_dec : EqDecision conn.
Proof. solve_decision. Defined.

Definition writer_runs (c : conn) : bool := match c with ConnDeaf => false | _ => true end.

Record Daemon : Type := mkDaemon {
  dm_world : RelayWorld;
  dm_counter : Z;
  dm_conns : gmap Z conn;
  dm_next_conn : Z;
  dm_ws_connections : Z;
  dm_ttl : Z;
}.

Definition dm_router (d : Daemon) : Router := rw_router (dm_world d).

(** What the HTTP interface works on. *)
Definition dm_api (d : Daemon) : ApiState := mkApiState (dm_router d) (dm_counter d).

Definition set_world (w : RelayWorld) (d : Daemon) : Daemon :=
  mkDaemon w (dm_counter d) (dm_conns d) (dm_next_conn d) (dm_ws_connections d) (dm_ttl d).
Definition set_conns (cs : gmap Z conn) (gauge : Z) (d : Daemon) : Daemon :=
  mkDaemon (dm_world d) (dm_counter d) cs (dm_next_conn d) gauge (dm_ttl d).

(** The state [main] sets up before its tasks start. *)
Definition relay_start (cfg : RelayConfig) : Daemon :=
  mkDaemon
    (mkRelayWorld (Router_new (rc_max_sessions cfg) (rc_max_peers_per_session cfg) RelayMetrics_new) [])
    0 ∅ 0 0 (rc_session_ttl_secs cfg).

(** Whether the receiving end of a channel is gone: its writer has ended. *)
Definition chan_closed (d : Daemon) (k : Z) : bool :=
  match dm_conns d !! k with Some c => negb (writer_runs c) | None => true end.

Inductive event : Type :=
  | EvDatagram (data : list Z) (from : SocketAddr)
  | EvAccept (k : Z)
  | EvBinary (k : Z) (data : list Z)
  | EvReaderEnds (k : Z)
  | EvSinkFails (k : Z)
  | EvChannelCloses (k : Z)
  | EvHttp (req : Request) (resp : Response)
  | EvGc.

Section system.
Context `{RelayEnv} `{Prometheus}.

(** Every event is handled whole, as one step: this is the daemon whose tasks
    do not overlap in time.  In the source the handlers run in several tasks
    and each access to the concurrent map is a step of its own; RouterTasks
    splits the calls of the router that way, RouterRace relates the two views
    and shows where they differ. *)
Inductive daemon_step : Daemon → event → Daemon → Prop :=
  | step_datagram d now clock data from :
      daemon_step d (EvDatagram data from)
        (set_world (relay_datagram now clock data from (dm_world d)) d)
  | step_accept d :
      daemon_step d (EvAccept (dm_next_conn d))
        (mkDaemon (dm_world d) (dm_counter d) (<[dm_next_conn d := ConnOpen]> (dm_conns d))
           (dm_next_conn d + 1) (dm_ws_connections d + 1) (dm_ttl d))
  | step_binary d k c now data :
      dm_conns d !! k = Some c → c ≠ ConnDraining →
      daemon_step d (EvBinary k data) (set_world (ws_message now k data (dm_world d)) d)
  | step_reader_ends d k :
      dm_conns d !! k = Some ConnOpen →
      daemon_step d (EvReaderEnds k)
        (set_conns (<[k := ConnDraining]> (dm_conns d)) (dm_ws_connections d) d)
  | step_reader_ends_deaf d k :
      dm_conns d !! k = Some ConnDeaf →
      daemon_step d (EvReaderEnds k) (set_conns (delete k (dm_conns d)) (dm_ws_connections d) d)
  | step_sink_fails d k :
      dm_conns d !! k = Some ConnOpen →
      daemon_step d (EvSinkFails k)
        (set_conns (<[k := ConnDeaf]> (dm_conns d)) (dm_ws_connections d - 1) d)
  | step_sink_fails_draining d k :
      dm_conns d !! k = Some ConnDraining →
      daemon_step d (EvSinkFails k) (set_conns (delete k (dm_conns d)) (dm_ws_connections d - 1) d)
  | step_channel_closes d k :
      dm_conns d !! k = Some ConnDraining →
      (∀ sid e, ro_routes (dm_router d) !! sid = Some e → WebSocket k ∉ re_peers e) →
      daemon_step d (EvChannelCloses k)
        (set_conns (delete k (dm_conns d)) (dm_ws_connections d - 1) d)
  | step_http d t req st resp :
      handle t (mkApiState (dm_router d) (dm_counter d)) req = Val (st, resp) →
      daemon_step d (EvHttp req resp)
        (mkDaemon (mkRelayWorld (as_router st) (rw_out (dm_world d))) (as_counter st) (dm_conns d)
           (dm_next_conn d) (dm_ws_connections d) (dm_ttl d))
  | step_gc d now :
      daemon_step d EvGc
        (set_world (on_router (λ r, (Router_evict_idle (chan_closed d) now r (dm_ttl d)).1) (dm_world d)) d).

Inductive daemon_run : Daemon → list event → Daemon → Prop :=
  | run_nil d : daemon_run d [] d
  | run_snoc d es d1 e d2 : daemon_run d es d1 → daemon_step d1 e d2 → daemon_run d (es ++ [e]) d2.

(** ** How a step changes the router *)

(** Counting something other than active sessions. *)
Definition counts (f : RelayMetrics → RelayMetrics) : Prop :=
  ∀ m, rm_active_sessions (f m) = rm_active_sessions m.

(** Operations of the router that satisfy [P], with counting in between. *)
Inductive moves (P : rop → Prop) : Router → Router → Prop :=
  | moves_refl r : moves P r r
  | moves_op r o r' : P o → moves P (rstep r o) r' → moves P r r'
  | moves_count r f r' : counts f → moves P (upd_metrics f r) r' → moves P r r'.

Lemma moves_trans P r1 r2 r3 : moves P r1 r2 → moves P r2 r3 → moves P r1 r3.
Proof. induction 1; intros H3; [done|by eapply moves_op, IHmoves|by eapply moves_count, IHmoves]. Qed.

Lemma moves_one P r o : P o → moves P r (rstep r o).
Proof. intros Ho. eapply moves_op; [exact Ho|constructor]. Qed.

Lemma moves_counted P r f : counts f → moves P r (upd_metrics f r).
Proof. intros Hf. eapply moves_count; [exact Hf|constructor]. Qed.

Lemma counts_in n : counts (inc_in n).
Proof. done. Qed.
Lemma counts_out n : counts (inc_out n).
Proof. done. Qed.
Lemma counts_dropped why : counts (inc_dropped why).
Proof. done. Qed.
#[local] Hint Resolve counts_in counts_out counts_dropped moves_counted moves_refl : core.

Lemma moves_inv P r r' :
  moves P r r' → router_inv r →
  router_inv r' ∧ ro_max_sessions r' = ro_max_sessions r
  ∧ ro_max_peers_per_session r' = ro_max_peers_per_session r.
Proof.
  induction 1 as [r|r o r' _ _ IH|r f r' Hf _ IH]; intros Hr; [done| |].
  - destruct (rstep_limits r o) as [Hs Hp]. rewrite <- Hs, <- Hp. by apply IH, rstep_inv.
  - apply IH. destruct Hr as [Hz Hs He Hg]. split; [done|done|done|]. cbn. by rewrite Hf.
Qed.

(** An operation on the routing table. *)
Definition table_op (o : rop) : Prop :=
  match o with RRegister _ _ | RRemove _ => False | _ => True end.

Lemma rstep_rooms r o : table_op o → ro_rooms (rstep r o) = ro_rooms r.
Proof.
  destruct o as [now sid from|closed now age|clock sid from|now sid from| |]; intros Ho; try done; cbn.
  - unfold Router_route, route_entry, route_create. repeat case_match; done.
  - unfold Router_evict_idle. by case_match.
  - unfold Router_floor_request. repeat case_match; done.
  - unfold Router_floor_release. repeat case_match; done.
Qed.

Lemma moves_rooms r r' : moves table_op r r' → ro_rooms r' = ro_rooms r.
Proof.
  induction 1 as [r|r o r' Ho _ IH|r f r' Hf _ IH]; [done| |done]. by rewrite IH, rstep_rooms.
Qed.

Lemma forward_to_moves P target data w :
  moves P (rw_router w) (rw_router (forward_to target data w)).
Proof. unfold forward_to. destruct target; cbn; case_match; cbn; auto. Qed.

Lemma ws_forward_moves P target data w :
  moves P (rw_router w) (rw_router (ws_forward target data w)).
Proof. unfold ws_forward. destruct target; cbn; case_match; cbn; auto. Qed.

Lemma foldl_moves {A} P (f : RelayWorld → A → RelayWorld) xs w :
  (∀ w x, moves P (rw_router w) (rw_router (f w x))) →
  moves P (rw_router w) (rw_router (foldl f w xs)).
Proof.
  intros Hf. revert w. induction xs as [|x xs IH]; intros w; cbn; [constructor|].
  eapply moves_trans; [apply Hf|apply IH].
Qed.

Lemma send_floor_moves P msg sid to w :
  moves P (rw_router w) (rw_router (send_floor_msg msg sid to w)).
Proof.
  unfold send_floor_msg, send_floor_packet. case_match; [|constructor]. case_match.
  cbn. case_match; cbn; auto.
Qed.

Lemma send_floor_to_moves P msg sid target w :
  moves P (rw_router w) (rw_router (send_floor_msg_to msg sid target w)).
Proof.
  unfold send_floor_msg_to. case_match; [|constructor]. case_match. apply forward_to_moves.
Qed.

Lemma datagram_moves now clock data from w :
  moves table_op (rw_router w) (rw_router (relay_datagram now clock data from w)).
Proof.
  eapply moves_trans; [apply (moves_counted _ _ (inc_in (Z.of_nat (length data)))); auto|].
  unfold relay_datagram. set (w1 := on_metrics _ w). change (upd_metrics _ _) with (rw_router w1).
  destruct (PacketView_decode data) as [view|]; [|by apply moves_counted].
  set (sid := ph_session_id _).
  assert (moves table_op (rw_router w1) (rw_router
    (let '(r, d) := Router_route now (rw_router w1) sid (Udp from) in
     let w := on_router (λ _, r) w1 in
     match d with
     | Broadcast targets => foldl (λ w target, forward_to target data w) w targets
     | Registered | Dropped => w
     end))) as Hroute.
  { pose proof (moves_one table_op (rw_router w1) (RRoute now sid (Udp from)) I) as Hm. cbn [rstep] in Hm.
    destruct (Router_route _ _ _ _) as [r d]. destruct d; [|exact Hm..].
    eapply moves_trans; [exact Hm|].
    apply (foldl_moves _ (λ w target, forward_to target data w) targets (on_router (λ _, r) w1)).
    intros. apply forward_to_moves. }
  destruct (MessageType_from_code _) as [[]|]; try exact Hroute.
  - unfold relay_floor_request.
    pose proof (moves_one table_op (rw_router w1) (RRoute now sid (Udp from)) I) as Hm. cbn [rstep] in Hm.
    eapply moves_trans; [exact Hm|]. clear Hm. cbn [on_router rw_router].
    set (r1 := (Router_route _ _ _ _).1).
    pose proof (moves_one table_op r1 (RRequest clock sid from) I) as Hm. cbn [rstep] in Hm.
    destruct (Router_floor_request _ _ _ _) as [r d]. eapply moves_trans; [exact Hm|].
    set (w2 := on_router (λ _, r) _). change (r, d).1 with (rw_router w2).
    destruct d; [|apply send_floor_moves|constructor..].
    eapply moves_trans; [|apply foldl_moves; intros; apply send_floor_to_moves]. apply send_floor_moves.
  - unfold relay_floor_release.
    pose proof (moves_one table_op (rw_router w1) (RRelease now sid from) I) as Hm. cbn [rstep] in Hm.
    destruct (Router_floor_release _ _ _ _) as [r d]. eapply moves_trans; [exact Hm|].
    set (w2 := on_router (λ _, r) _). change (r, d).1 with (rw_router w2).
    destruct d; [constructor|constructor| |constructor].
    apply foldl_moves. intros. apply send_floor_to_moves.
Qed.

Lemma ws_message_moves now k data w :
  moves table_op (rw_router w) (rw_router (ws_message now k data w)).
Proof.
  eapply moves_trans; [apply (moves_counted _ _ (inc_in (Z.of_nat (length data)))); auto|].
  unfold ws_message. set (w1 := on_metrics _ w). change (upd_metrics _ _) with (rw_router w1).
  destruct (PacketView_decode data) as [view|]; [|by apply moves_counted].
  pose proof (moves_one table_op (rw_router w1)
    (RRoute now (ph_session_id (pv_header view)) (WebSocket k)) I) as Hm. cbn [rstep] in Hm.
  destruct (Router_route _ _ _ _) as [r d]. destruct d; [|exact Hm..].
  eapply moves_trans; [exact Hm|].
  apply (foldl_moves _ (λ w target, ws_forward target data w) targets (on_router (λ _, r) w1)).
  intros. apply ws_forward_moves.
Qed.

(** ** Reachable states *)

(** The connections whose writer runs. *)
Definition running (cs : gmap Z conn) : gmap Z unit :=
  omap (λ c, if writer_runs c then Some tt else None) cs.

Definition room_ok (code : list Z) (sid : Z) : Prop :=
  is_valid_code code = true ∧ u32 sid ∧ sid ≠ 0.

Record daemon_inv (cfg : RelayConfig) (d : Daemon) : Prop := {
  di_router : router_inv (dm_router d);
  di_sessions : ro_max_sessions (dm_router d) = rc_max_sessions cfg;
  di_peers : ro_max_peers_per_session (dm_router d) = rc_max_peers_per_session cfg;
  di_rooms : map_Forall room_ok (ro_rooms (dm_router d));
  di_gauge : dm_ws_connections d = Z.of_nat (size (running (dm_conns d)));
  di_fresh k : is_Some (dm_conns d !! k) → k < dm_next_conn d;
}.

Lemma start_inv cfg : daemon_inv cfg (relay_start cfg).
Proof.
  split; cbn.
  - split; cbn; [done|rewrite map_size_empty; lia|apply map_Forall_empty|by rewrite map_size_empty].
  - done.
  - done.
  - apply map_Forall_empty.
  - unfold running. by rewrite omap_empty, map_size_empty.
  - intros k. rewrite lookup_empty. by intros [? ?].
Qed.

(** A step that only moves the router within its table. *)
Lemma world_inv cfg d w :
  daemon_inv cfg d → moves table_op (dm_router d) (rw_router w) → daemon_inv cfg (set_world w d).
Proof.
  intros [Hr Hs Hp Hro Hg Hf] Hm. destruct (moves_inv _ _ _ Hm Hr) as (Hr' & Hs' & Hp').
  split; try done; unfold dm_router, set_world; cbn; [congruence..|].
  by rewrite (moves_rooms _ _ Hm).
Qed.

Lemma running_insert cs k c :
  running (<[k := c]> cs)
  = if writer_runs c then <[k := tt]> (running cs) else delete k (running cs).
Proof. unfold running. rewrite omap_insert. by destruct (writer_runs c). Qed.

Lemma running_lookup cs k c :
  cs !! k = Some c → running cs !! k = if writer_runs c then Some tt else None.
Proof. intros Hk. unfold running. by rewrite lookup_omap, Hk. Qed.

Lemma running_delete cs k : running (delete k cs) = delete k (running cs).
Proof. apply omap_delete. Qed.

Lemma running_pred cs k c :
  cs !! k = Some c → writer_runs c = true →
  Z.of_nat (size (delete k (running cs))) = Z.of_nat (size (running cs)) - 1.
Proof.
  intros Hk Hc. pose proof (running_lookup cs k c Hk) as Hl. rewrite Hc in Hl.
  rewrite map_size_delete_Some by by eexists.
  assert (size (running cs) ≠ 0%nat); [|lia]. intros Hz%map_size_empty_iff. by rewrite Hz in Hl.
Qed.

Lemma conns_inv cfg d cs g :
  daemon_inv cfg d → g = Z.of_nat (size (running cs)) →
  (∀ k, is_Some (cs !! k) → is_Some (dm_conns d !! k)) → daemon_inv cfg (set_conns cs g d).
Proof. intros [Hr Hs Hp Hro Hg Hf] Hgauge Hsub. split; try done. cbn. intros k Hk. by apply Hf, Hsub. Qed.

Lemma insert_sub (cs : gmap Z conn) k c k' :
  is_Some (cs !! k) → is_Some (<[k := c]> cs !! k') → is_Some (cs !! k').
Proof. intros Hk. destruct (decide (k = k')) as [->|]; [done|]. by rewrite lookup_insert_ne. Qed.

Lemma delete_sub (cs : gmap Z conn) k k' : is_Some (delete k cs !! k') → is_Some (cs !! k').
Proof. rewrite lookup_delete_is_Some. naive_solver. Qed.

(** What a request makes of the rooms is well formed. *)
Lemma dir_step_ok code dir req :
  is_valid_code code = true → map_Forall room_ok dir → map_Forall room_ok (dir_step code dir req).1.
Proof.
  intros Hc Hd. unfold dir_step. repeat case_match; subst; try done.
  - apply map_Forall_insert_2; [|done]. split; [done|]. split; [by eapply extract_session_id_u32|].
    by apply Z.eqb_neq.
  - by apply map_Forall_delete.
Qed.

Lemma http_inv cfg d t req st resp :
  daemon_inv cfg d → handle t (mkApiState (dm_router d) (dm_counter d)) req = Val (st, resp) →
  daemon_inv cfg (mkDaemon (mkRelayWorld (as_router st) (rw_out (dm_world d))) (as_counter st)
    (dm_conns d) (dm_next_conn d) (dm_ws_connections d) (dm_ttl d)).
Proof.
  intros [Hr Hs Hp Hro Hg Hf] Hh.
  destruct (handle_refines t (mkApiState (dm_router d) (dm_counter d)) req)
    as (code & st' & resp' & _ & Hc & Hh' & Hrooms & _ & Hsame).
  rewrite Hh in Hh'. injection Hh' as <- <-. cbn [as_router] in *.
  assert (ro_routes (as_router st) = ro_routes (dm_router d)
    ∧ ro_max_sessions (as_router st) = ro_max_sessions (dm_router d)
    ∧ ro_max_peers_per_session (as_router st) = ro_max_peers_per_session (dm_router d)
    ∧ ro_metrics (as_router st) = ro_metrics (dm_router d)) as (E1 & E2 & E3 & E4).
  { rewrite <- Hsame. done. }
  split; unfold dm_router; cbn [dm_world rw_router dm_conns dm_ws_connections dm_next_conn]; try done.
  - destruct Hr as [Hz Hsz He Hga]. split; rewrite ?E1, ?E2, ?E3, ?E4; done.
  - by rewrite E2.
  - by rewrite E3.
  - rewrite Hrooms. by apply dir_step_ok.
Qed.

Lemma step_inv cfg d e d' : daemon_inv cfg d → daemon_step d e d' → daemon_inv cfg d'.
Proof.
  intros Hd Hstep. pose proof Hd as [_ _ _ _ Hg Hf].
  destruct Hstep as [d now clock data from|d|d k c now data Hk _|d k Hk|d k Hk|d k Hk|d k Hk
    |d k Hk _|d t req st resp Hh|d now].
  - apply world_inv; [done|apply datagram_moves].
  - destruct Hd as [Hr Hs Hp Hro _ _]. split; try done; cbn.
    + rewrite running_insert. cbn. rewrite map_size_insert_None; [lia|].
      unfold running. rewrite lookup_omap. destruct (dm_conns d !! dm_next_conn d) eqn:E; [|done].
      specialize (Hf _ (mk_is_Some _ _ E)). lia.
    + intros k. destruct (decide (k = dm_next_conn d)) as [->|Hne]; [lia|].
      rewrite lookup_insert_ne by done. intros Hk%Hf. lia.
  - apply world_inv; [done|apply ws_message_moves].
  - apply conns_inv; [done| |intros k'; apply insert_sub; by eexists].
    rewrite running_insert, insert_id; [done|]. by rewrite (running_lookup _ _ _ Hk).
  - apply conns_inv; [done| |intros k'; apply delete_sub].
    rewrite running_delete, delete_id; [done|]. by rewrite (running_lookup _ _ _ Hk).
  - apply conns_inv; [done| |intros k'; apply insert_sub; by eexists].
    rewrite running_insert. cbn. erewrite running_pred by done. lia.
  - apply conns_inv; [done| |intros k'; apply delete_sub].
    rewrite running_delete. erewrite running_pred by done. lia.
  - apply conns_inv; [done| |intros k'; apply delete_sub].
    rewrite running_delete. erewrite running_pred by done. lia.
  - by eapply http_inv.
  - apply world_inv; [done|]. cbn. apply (moves_one _ _ (REvict _ now (dm_ttl d))). done.
Qed.

Lemma run_inv cfg d es d' : daemon_inv cfg d → daemon_run d es d' → daemon_inv cfg d'.
Proof. intros Hd. induction 1 as [|d es d1 e d2 _ IH Hs]; [done|]. eapply step_inv; [by apply IH|done]. Qed.

(** ** Rooms over time *)

Definition deletes (code : list Z) (e : event) : Prop :=
  match e with
  | EvHttp req _ => rq_method req = DELETE ∧ rq_path req = room_path code
  | _ => False
  end.

Lemma dir_step_keeps code' dir req code sid :
  dir !! code = Some sid → ¬ (rq_method req = DELETE ∧ rq_path req = room_path code) →
  (dir_step code' dir req).1 !! code = Some sid.
Proof.
  intros Hc Hnd. unfold dir_step. repeat case_match; subst; try done; cbn.
  - rewrite lookup_insert_ne; [done|]. congruence.
  - rewrite lookup_delete_ne; [done|]. intros ->. apply Hnd. split; [done|].
    by apply after_prefix_spec.
Qed.

(** The directory before and after a request, with its answer. *)
Lemma http_step_dir d req resp d' :
  daemon_step d (EvHttp req resp) d' →
  ∃ code, is_valid_code code = true
    ∧ ro_rooms (dm_router d') = (dir_step code (ro_rooms (dm_router d)) req).1
    ∧ replies (dir_step code (ro_rooms (dm_router d)) req).2 resp.
Proof.
  inversion 1 as [| | | | | | | |? t ? st ? Hh|]; subst.
  destruct (handle_refines t (mkApiState (dm_router d) (dm_counter d)) req)
    as (code & st' & resp' & _ & Hc & Hh' & Hrooms & Hrep & _).
  rewrite Hh in Hh'. injection Hh' as <- <-. by exists code.
Qed.

Lemma step_keeps_room d e d' code sid :
  daemon_step d e d' → ro_rooms (dm_router d) !! code = Some sid → ¬ deletes code e →
  ro_rooms (dm_router d') !! code = Some sid.
Proof.
  intros Hs Hc Hnd. destruct e as [data from| | | | | |req resp|].
  - inversion Hs; subst. unfold dm_router, set_world. cbn [dm_world].
    by rewrite (moves_rooms _ _ (datagram_moves _ _ _ _ _)).
  - by inversion Hs.
  - inversion Hs; subst. unfold dm_router, set_world. cbn [dm_world].
    by rewrite (moves_rooms _ _ (ws_message_moves _ _ _ _)).
  - by inversion Hs.
  - by inversion Hs.
  - by inversion Hs.
  - apply http_step_dir in Hs as (code' & _ & -> & _). by apply dir_step_keeps.
  - inversion Hs; subst. unfold dm_router. cbn. unfold Router_evict_idle. by case_match.
Qed.

Lemma run_keeps_room d es d' code sid :
  daemon_run d es d' → ro_rooms (dm_router d) !! code = Some sid →
  Forall (λ e, ¬ deletes code e) es → ro_rooms (dm_router d') !! code = Some sid.
Proof.
  intros Hr Hc. induction Hr as [|d es d1 e d2 _ IH Hs]; intros Hf; [done|].
  apply Forall_app in Hf as [Hf He]. apply Forall_cons in He as [He _].
  eapply step_keeps_room; [exact Hs|by apply IH|done].
Qed.

(** What [GET /api/rooms/{code}] answers. *)
Definition get_room (d : Daemon) (code : list Z) (resp : Response) : Prop :=
  ∀ t, handle t (mkApiState (dm_router d) (dm_counter d)) (mkRequest GET (room_path code) None)
       = Val (mkApiState (dm_router d) (dm_counter d), resp).

Lemma room_path_routes code :
  room_path code ≠ ascii_bytes "/healthz" ∧ room_path code ≠ ascii_bytes "/metrics"
  ∧ room_path code ≠ ascii_bytes "/api/rooms".
Proof. split_and!; by destruct code. Qed.

Lemma get_room_handled d code :
  get_room d code (handle_get_room (dm_router d) code).
Proof.
  intros t. unfold handle. cbn [rq_path rq_method].
  destruct (room_path_routes code) as (H1 & H2 & H3).
  rewrite !decide_False by done. unfold room_path. by rewrite after_prefix_app.
Qed.

Lemma get_room_found d code sid :
  is_valid_code code = true → u32 sid → ro_rooms (dm_router d) !! code = Some sid →
  ∃ resp, get_room d code resp ∧ rs_status resp = 200 ∧ extract_session_id (rs_body resp) = Some sid.
Proof.
  intros Hc Hs Hr. eexists. split; [apply get_room_handled|]. unfold handle_get_room, Router_resolve_room.
  rewrite Hc, Hr. cbn [negb]. split; [done|]. by apply (replies_info code sid).
Qed.

Lemma get_room_absent d code :
  is_valid_code code = true → ro_rooms (dm_router d) !! code = None →
  ∃ resp, get_room d code resp ∧ rs_status resp = 404.
Proof.
  intros Hc Hr. eexists. split; [apply get_room_handled|]. unfold handle_get_room, Router_resolve_room.
  by rewrite Hc, Hr.
Qed.
End system.

(** C13: every state the relay can reach from its start, by any interleaving
    of datagrams, WebSocket connections and messages, HTTP requests and
    garbage collections, each taken as one step, with any clock: session 0 does not exist; the number
    of sessions and of members of a session stay within the configured limits
    (at least one member is admitted); a session has a member and none twice;
    whoever holds the floor is a UDP member of the session and the grant has
    a time; the gauges of active sessions and of WebSocket connections are
    exact; and every room has a well-formed code and a non-zero session id. *)
Theorem relay_reachable_invariant `{RelayEnv} `{Prometheus} cfg es d :
  daemon_run (relay_start cfg) es d →
  let r := dm_router d in
  ro_routes r !! 0 = None
  ∧ (Router_active_sessions r ≤ rc_max_sessions cfg)%nat
  ∧ rm_active_sessions (ro_metrics r) = Z.of_nat (Router_active_sessions r)
  ∧ dm_ws_connections d = Z.of_nat (size (running (dm_conns d)))
  ∧ (∀ sid e, ro_routes r !! sid = Some e →
       NoDup (re_peers e) ∧ (1 ≤ length (re_peers e) ≤ 1 `max` rc_max_peers_per_session cfg)%nat
       ∧ (re_floor_holder e = None ↔ re_floor_granted_at e = None)
       ∧ ∀ a, re_floor_holder e = Some a → Udp a ∈ re_peers e)
  ∧ ∀ code sid, Router_resolve_room r code = Some sid → is_valid_code code = true ∧ u32 sid ∧ sid ≠ 0.
Proof.
  intros Hrun r. destruct (run_inv cfg _ _ _ (start_inv cfg) Hrun) as [[Hz Hsz He Hg] Hs Hp Hro Hws _].
  fold r in Hz, Hsz, He, Hg, Hs, Hp, Hro. rewrite Hs in Hsz. rewrite Hp in He.
  split_and!; [done|exact Hsz|exact Hg|exact Hws| |exact Hro].
  intros sid e Hsid. destruct (He _ _ Hsid) as [Hnd Hne Hlen Hfl Hh]. split_and!; [done| |done| |done].
  - destruct (re_peers e); [done|cbn; lia].
  - rewrite !eq_None_not_Some. tauto.
Qed.


(** ** Where the configuration comes from *)

Definition with_config (path : option (list Z)) (f : RelayFlags) : RelayFlags :=
  mkRelayFlags path (rf_bind f) (rf_udp_port f) (rf_ws_port f) (rf_obs_port f) (rf_session_ttl f)
    (rf_max_sessions f) (rf_max_peers f).

Definition any_host (port : Z) : SocketAddr := mkSocketAddr (V4 [0; 0; 0; 0]) port.

Lemma defaults_parse :
  default_udp = Val (any_host 9000) ∧ default_ws = Val (any_host 9090)
  ∧ default_obs = Val (any_host 9100).
Proof. split_and!; vm_compute; reflexivity. Qed.

Lemma config_from_toml t :
  RelayConfig_from_toml t
  = Val (mkRelayConfig (default (any_host 9000) (rt_udp_bind t)) (default (any_host 9090) (rt_ws_bind t))
           (default (any_host 9100) (rt_observability_bind t)) (default default_ttl (rt_session_ttl_secs t))
           (default default_max_sessions (rt_max_sessions t))
           (default default_max_peers (rt_max_peers_per_session t))).
Proof.
  unfold RelayConfig_from_toml. destruct defaults_parse as (-> & -> & ->).
  by destruct t as [[] [] [] ? ? ?].
Qed.

(** Where the relay's settings come from.  The daemon [gs-relay] takes a
    listening address from its flag, else from the configuration file, else
    the built-in one, and its limits from the file, else the built-in ones.
    The command [gs relay], although its file is documented as the base that
    flags override, never uses it: its flags have defaults, and with any file
    that loads it runs with exactly the settings it would have without one. *)
Theorem relay_config_sources `{RelayHost} path t f octets u w o :
  host_read path ≫= toml_from_str = Some t →
  length octets = 4%nat → bytes octets → rf_bind f = show_ipv4 octets →
  u16 (rf_udp_port f) → u16 (rf_ws_port f) → u16 (rf_obs_port f) →
  gs_relay_config (mkArgs (Some path) u w o)
  = Val (Some (mkRelayConfig (default (default (any_host 9000) (rt_udp_bind t)) u)
      (default (default (any_host 9090) (rt_ws_bind t)) w)
      (default (default (any_host 9100) (rt_observability_bind t)) o)
      (default 300 (rt_session_ttl_secs t)) (default (Z.to_nat 10000) (rt_max_sessions t))
      (default 50%nat (rt_max_peers_per_session t))))
  ∧ cmd_relay_config (with_config (Some path) f) = cmd_relay_config (with_config None f)
  ∧ cmd_relay_config (with_config (Some path) f)
    = Val (Some (mkRelayConfig (mkSocketAddr (V4 octets) (rf_udp_port f))
        (mkSocketAddr (V4 octets) (rf_ws_port f)) (mkSocketAddr (V4 octets) (rf_obs_port f))
        (rf_session_ttl f) (rf_max_sessions f) (rf_max_peers f))).
Proof.
  intros Ht Hl Hb Hf Hu Hw Ho.
  assert (∀ cfg path', load_config path' = Val (Some cfg) →
    cmd_relay_config (with_config path' f)
    = Val (Some (mkRelayConfig (mkSocketAddr (V4 octets) (rf_udp_port f))
        (mkSocketAddr (V4 octets) (rf_ws_port f)) (mkSocketAddr (V4 octets) (rf_obs_port f))
        (rf_session_ttl f) (rf_max_sessions f) (rf_max_peers f)))) as Hcmd.
  { intros cfg path' Hload. unfold cmd_relay_config. cbn [with_config rf_config]. rewrite Hload.
    cbn [mbind checked_bind with_config rf_bind rf_udp_port rf_ws_port rf_obs_port]. rewrite Hf.
    by rewrite !parse_host_port_v4. }
  assert (load_config (Some path) = Val (Some (mkRelayConfig
    (default (any_host 9000) (rt_udp_bind t)) (default (any_host 9090) (rt_ws_bind t))
    (default (any_host 9100) (rt_observability_bind t)) (default default_ttl (rt_session_ttl_secs t))
    (default default_max_sessions (rt_max_sessions t))
    (default default_max_peers (rt_max_peers_per_session t))))) as Hload.
  { cbn [load_config]. unfold RelayConfig_from_file. rewrite Ht. by rewrite config_from_toml. }
  split_and!; [|erewrite !Hcmd; [done|..]|by eapply Hcmd].
  - unfold gs_relay_config. cbn [ar_config]. by rewrite Hload.
  - cbn [load_config]. unfold RelayConfig_default. destruct defaults_parse as (-> & -> & ->). done.
  - exact Hload.
Qed.

Definition toml_host : RelayHost := {|
  host_read p := if decide (p = ascii_bytes "/etc/gs-relay.toml") then Some [] else None;
  toml_from_str _ :=
    Some (mkRelayToml (Some (mkSocketAddr (V4 [127; 0; 0; 1]) 7000)) None None (Some 60) None (Some 4%nat));
  host_bind_udp _ := true;
  host_bind_tcp _ := true;
|}.

Lemma relay_config_sources_witness :
  ∃ daemon cmd, gs_relay_config (H := toml_host) (mkArgs (Some (ascii_bytes "/etc/gs-relay.toml")) None None None)
      = Val (Some daemon)
    ∧ cmd_relay_config (H := toml_host)
        (with_config (Some (ascii_bytes "/etc/gs-relay.toml")) RelayFlags_default) = Val (Some cmd)
    ∧ rc_session_ttl_secs daemon = 60 ∧ rc_session_ttl_secs cmd = 300
    ∧ rc_max_peers_per_session daemon = 4%nat ∧ rc_max_peers_per_session cmd = 50%nat.
Proof.
  destruct (relay_config_sources (H := toml_host) (ascii_bytes "/etc/gs-relay.toml")
    (mkRelayToml (Some (mkSocketAddr (V4 [127; 0; 0; 1]) 7000)) None None (Some 60) None (Some 4%nat))
    RelayFlags_default [0; 0; 0; 0] None None None) as (Hd & _ & Hc).
  1-7: first [reflexivity | (apply (bool_decide_unpack _); vm_compute; exact I)].
  eexists _, _. split; [exact Hd|]. split; [exact Hc|]. repeat split.
Defined.

(** ** A concrete run *)

#[local] Instance plain_prometheus : Prometheus :=
  {| prom_encode _ := ascii_bytes "# no metrics"; prom_format_type := ascii_bytes "text/plain" |}.

Definition sample_config : RelayConfig :=
  mkRelayConfig (any_host 9000) (any_host 9090) (any_host 9100) 300 2 2.

Definition room_request (n : Z) : Request :=
  mkRequest POST (ascii_bytes "/api/rooms") (Some (create_body n)).

(** The state after a WebSocket client connected and a room was created. *)
Definition sample_daemon : Daemon * Response :=
  let d := mkDaemon (dm_world (relay_start sample_config)) 0 {[0 := ConnOpen]} 1 1 300 in
  match handle 1700000000 (mkApiState (dm_router d) 0) (room_request 4242) with
  | Val (st, resp) =>
      (mkDaemon (mkRelayWorld (as_router st) []) (as_counter st) (dm_conns d) 1 1 300, resp)
  | Panic => (d, method_not_allowed)
  end.

Lemma sample_run :
  daemon_run (H := lossless) (relay_start sample_config)
    ([EvAccept 0] ++ [EvHttp (room_request 4242) sample_daemon.2]) sample_daemon.1.
Proof.
  eapply run_snoc; [apply (run_snoc _ [] _ _ _ (run_nil _)), step_accept|].
  eapply step_http with (t := 1700000000). vm_compute. reflexivity.
Defined.

Lemma relay_reachable_invariant_witness :
  dm_ws_connections sample_daemon.1 = Z.of_nat (size (running (dm_conns sample_daemon.1)))
  ∧ (Router_active_sessions (dm_router sample_daemon.1) ≤ 2)%nat
  ∧ size (ro_rooms (dm_router sample_daemon.1)) = 1%nat.
Proof.
  destruct (relay_reachable_invariant (H := lossless) sample_config _ _ sample_run)
    as (_ & Hs & _ & Hw & _).
  split; [exact Hw|]. split; [exact Hs|]. vm_compute. reflexivity.
Defined.

