(* ===== verification/RelayStart.v ===== *)
(** * Starting the relay process

    The start of [gs-relay] ([gravital-talk-relay/src/main.rs]) and of
    [gs relay] ([cmd_relay] in [gravital-talk-cli/src/main.rs]): the
    registration of the metrics ([gravital-talk-relay/src/metrics.rs]), the
    sockets that are bound in turn, and the state the tasks start in.  The
    registry of the [prometheus] crate is the class [PromRegistry]. *)

From S2P Require Import Prelude.
From S2P Require Import Text.
From S2P Require Import CoreTypes.
From S2P Require Import Transport.
From S2P Require Import NetAddr.
From S2P Require Import Router.
From S2P Require Import Relay.
From S2P Require Import RoomsApi.
From S2P Require Import RelayDaemon.
From Stdlib Require Import Ascii.
From stdpp Require Import gmap strings list.
#[local] Open Scope Z_scope.

(** ** Metrics *)

Record Opts : Type := mkOpts {
  op_name : string;
  op_labels : list string;
}.

Class PromRegistry : Type := {
  prom_registry : Type;
  prom_new : prom_registry;
  (** Whether [with_opts] accepts the name and the labels. *)
  prom_with_opts : Opts → bool;
  prom_register : prom_registry → Opts → option prom_registry;
}.

(** The names the data model of Prometheus admits:
    [[a-zA-Z_:][a-zA-Z0-9_:]*], for labels without the colon. *)
Definition name_start (colon : bool) (c : ascii) : bool :=
  let n := Ascii.nat_of_ascii c in
  ((97 <=? n)%nat && (n <=? 122)%nat) || ((65 <=? n)%nat && (n <=? 90)%nat)
  || (n =? 95)%nat || (colon && (n =? 58)%nat).
Definition name_char (colon : bool) (c : ascii) : bool :=
  let n := Ascii.nat_of_ascii c in
  name_start colon c || ((48 <=? n)%nat && (n <=? 57)%nat).
Definition valid_name (colon : bool) (s : string) : bool :=
  match String.list_ascii_of_string s with
  | [] => false
  | c :: cs => name_start colon c && forallb (name_char colon) cs
  end.
Definition valid_opts (o : Opts) : bool :=
  valid_name true (op_name o) && forallb (valid_name false) (op_labels o).

(** What the crate documents: valid names are accepted, and a metric is
    registered unless one of its name is there already. *)
Class PromRegistryLaws `{PromRegistry} : Type := {
  prom_names : prom_registry → list string;
  prom_new_names : prom_names prom_new = [];
  prom_with_opts_valid o : valid_opts o = true → prom_with_opts o = true;
  prom_register_new r o :
    op_name o ∉ prom_names r →
    ∃ r', prom_register r o = Some r' ∧ prom_names r' = prom_names r ++ [op_name o];
}.

Definition relay_opts : list Opts :=
  [mkOpts "gs_relay_packets_in_total" []; mkOpts "gs_relay_packets_out_total" [];
   mkOpts "gs_relay_bytes_in_total" []; mkOpts "gs_relay_bytes_out_total" [];
   mkOpts "gs_relay_active_sessions" []; mkOpts "gs_relay_dropped_total" ["reason"%string];
   mkOpts "gs_relay_ws_connections" []].

Section start.
Context `{PromRegistry} `{RelayHost}.

(** [with_opts(..).unwrap()] for each metric. *)
Fixpoint with_opts_all (os : list Opts) : checked unit :=
  match os with
  | [] => Val tt
  | o :: os => if prom_with_opts o then with_opts_all os else Panic
  end.

(** [registry.register(..).unwrap()] for each metric. *)
Fixpoint register_all (registry : prom_registry) (os : list Opts) : checked prom_registry :=
  match os with
  | [] => Val registry
  | o :: os =>
      match prom_register registry o with
      | Some registry => register_all registry os
      | None => Panic
      end
  end.

Definition RelayMetrics_registered : checked (prom_registry * RelayMetrics) :=
  _ ← with_opts_all relay_opts;
  registry ← register_all prom_new relay_opts;
  Val (registry, RelayMetrics_new).

(** ** Start *)

Inductive StartError : Type :=
  | StConfig
  | StBindUdp (a : SocketAddr)
  | StBindWs (a : SocketAddr)
  | StBindObs (a : SocketAddr).

(** From the configuration to the state the tasks start in, common to both
    programs. *)
Definition relay_serve (cfg : RelayConfig) : checked (result StartError Daemon) :=
  _ ← RelayMetrics_registered;
  if negb (host_bind_udp (rc_udp_bind cfg)) then Val (Err (StBindUdp (rc_udp_bind cfg)))
  else if negb (host_bind_tcp (rc_ws_bind cfg)) then Val (Err (StBindWs (rc_ws_bind cfg)))
  else if negb (host_bind_tcp (rc_observability_bind cfg)) then
    Val (Err (StBindObs (rc_observability_bind cfg)))
  else Val (Ok (relay_start cfg)).

Definition serve_config (cfg : checked (option RelayConfig)) : checked (result StartError Daemon) :=
  c ← cfg;
  match c with
  | None => Val (Err StConfig)
  | Some cfg => relay_serve cfg
  end.

Definition gs_relay_main (a : Args) : checked (result StartError Daemon) :=
  serve_config (gs_relay_config a).
Definition cmd_relay (f : RelayFlags) : checked (result StartError Daemon) :=
  serve_config (cmd_relay_config f).
End start.

(** ** Facts *)

Section facts.
Context `{PromRegistryLaws} `{RelayHost}.

Lemma with_opts_valid os : forallb valid_opts os = true → with_opts_all os = Val tt.
Proof.
  induction os as [|o os IH]; simpl; [done|]. intros [Ho Hos]%andb_true_iff.
  rewrite prom_with_opts_valid by done. auto.
Qed.

Lemma register_distinct os r :
  NoDup (prom_names r ++ (op_name <$> os)) →
  ∃ r', register_all r os = Val r' ∧ prom_names r' = prom_names r ++ (op_name <$> os).
Proof.
  revert r. induction os as [|o os IH]; intros r Hnd; simpl.
  { exists r. by rewrite app_nil_r. }
  destruct (prom_register_new r o) as (r1 & -> & Hr1).
  { apply NoDup_app in Hnd as (_ & Hd & _). intros Hin. apply (Hd _ Hin). left. }
  destruct (IH r1) as (r' & -> & Hr'); [rewrite Hr1, <-app_assoc; done|].
  exists r'. split; [done|]. rewrite Hr', Hr1, <-app_assoc. done.
Qed.

Lemma metrics_registered :
  ∃ registry, RelayMetrics_registered = Val (registry, RelayMetrics_new)
    ∧ prom_names registry = op_name <$> relay_opts.
Proof.
  unfold RelayMetrics_registered. rewrite with_opts_valid by (vm_compute; reflexivity).
  destruct (register_distinct relay_opts prom_new) as (r & Hr & Hn).
  { rewrite prom_new_names. apply (bool_decide_unpack _). vm_compute. exact I. }
  exists r. cbn [mbind checked_bind]. rewrite Hr, Hn, prom_new_names. done.
Qed.
(** The configuration is found or refused, without a panic. *)
Lemma load_config_total path : ∃ c, load_config path = Val c.
Proof.
  destruct path as [p|]; cbn [load_config].
  - unfold RelayConfig_from_file. destruct (host_read p ≫= toml_from_str); [|by eexists].
    rewrite config_from_toml. by eexists.
  - unfold RelayConfig_default. destruct defaults_parse as (-> & -> & ->). by eexists.
Qed.
Lemma gs_relay_config_total a : ∃ c, gs_relay_config a = Val c.
Proof.
  unfold gs_relay_config. destruct (load_config_total (ar_config a)) as [c ->]. by eexists.
Qed.
Lemma cmd_relay_config_total f : ∃ c, cmd_relay_config f = Val c.
Proof.
  unfold cmd_relay_config. destruct (load_config_total (rf_config f)) as [c ->].
  cbn [mbind checked_bind]. repeat case_match; by eexists.
Qed.

(** What a start from the configuration [c] gives. *)
Definition start_outcome `{RelayEnv} `{Prometheus} (c : option RelayConfig)
    (res : result StartError Daemon) : Prop :=
  match res, c with
  | Ok d, Some cfg =>
      host_bind_udp (rc_udp_bind cfg) = true ∧ host_bind_tcp (rc_ws_bind cfg) = true
      ∧ host_bind_tcp (rc_observability_bind cfg) = true
      ∧ ro_max_sessions (dm_router d) = rc_max_sessions cfg
      ∧ ro_max_peers_per_session (dm_router d) = rc_max_peers_per_session cfg
      ∧ dm_ttl d = rc_session_ttl_secs cfg
      ∧ ∀ es d', daemon_run d es d' → daemon_inv cfg d'
  | Err (StBindUdp a), Some cfg => a = rc_udp_bind cfg ∧ host_bind_udp a = false
  | Err (StBindWs a), Some cfg => a = rc_ws_bind cfg ∧ host_bind_tcp a = false
  | Err (StBindObs a), Some cfg => a = rc_observability_bind cfg ∧ host_bind_tcp a = false
  | Err StConfig, None => True
  | _, _ => False
  end.

Lemma serve_outcome `{RelayEnv} `{Prometheus} c :
  ∃ res, serve_config (Val c) = Val res ∧ start_outcome c res.
Proof.
  destruct c as [cfg|]; [|by eexists]. unfold serve_config, relay_serve. cbn [mbind checked_bind].
  destruct metrics_registered as (registry & -> & _). cbn [mbind checked_bind].
  destruct (host_bind_udp (rc_udp_bind cfg)) eqn:Hu; [|by eexists]. cbn [negb].
  destruct (host_bind_tcp (rc_ws_bind cfg)) eqn:Hw; [|by eexists]. cbn [negb].
  destruct (host_bind_tcp (rc_observability_bind cfg)) eqn:Ho; [|by eexists]. cbn [negb].
  eexists. split; [done|]. do 6 (split; [done|]). intros es d'. apply run_inv, start_inv.
Qed.
End facts.

(** Starting the relay, with either program, never panics: it serves exactly
    when a configuration is found and the three sockets can be bound, with the
    limits of the configuration, and then the invariant of the daemon holds in
    every state it reaches; else the error says what failed first. *)
Theorem relay_startup `{PromRegistryLaws} `{RelayHost} `{RelayEnv} `{Prometheus} :
  (∀ a, ∃ c res, gs_relay_config a = Val c ∧ gs_relay_main a = Val res ∧ start_outcome c res)
  ∧ (∀ f, ∃ c res, cmd_relay_config f = Val c ∧ cmd_relay f = Val res ∧ start_outcome c res).
Proof.
  split.
  - intros a. destruct (gs_relay_config_total a) as [c Hc]. unfold gs_relay_main. rewrite Hc.
    destruct (serve_outcome c) as (res & ? & ?). by exists c, res.
  - intros f. destruct (cmd_relay_config_total f) as [c Hc]. unfold cmd_relay. rewrite Hc.
    destruct (serve_outcome c) as (res & ? & ?). by exists c, res.
Qed.

(** ** An instance *)

#[local] Instance list_registry : PromRegistry := {|
  prom_registry := list string;
  prom_new := [];
  prom_with_opts := valid_opts;
  prom_register r o := if decide (op_name o ∈ r) then None else Some (r ++ [op_name o]);
|}.
#[local] Instance list_registry_laws : PromRegistryLaws.
Proof.
  unshelve esplit; [exact id|done|done|]. intros r o Ho. simpl.
  exists (r ++ [op_name o]). by rewrite decide_False.
Defined.

(** A port that is taken is reported, with the address. *)
Example ws_port_taken :
  let host := {| host_read _ := None; toml_from_str _ := None; host_bind_udp _ := true;
                 host_bind_tcp a := negb (sa_port a =? 9090) |} in
  cmd_relay (H0 := host) RelayFlags_default
  = Val (Err (StBindWs (mkSocketAddr (V4 [0; 0; 0; 0]) 9090))).
Proof. vm_compute. reflexivity. Qed.
