(* ===== verification/RelayedCall.v ===== *)
(** * A call through the relay

    The session and the relay together: what happens to the handshake of
    [gravital-talk-transport/src/session.rs] when both parties address a
    relay ([gravital-talk-relay/src/udp.rs], [router.rs]) instead of each
    other. *)

From S2P Require Import Prelude.
From S2P Require Import CoreTypes.
From S2P Require Import Header.
From S2P Require Import Packet.
From S2P Require Import Message.
From S2P Require Import SessionFsm.
From S2P Require Import Transport.
From S2P Require Import Session.
From S2P Require Import SessionSeq.
From S2P Require Import Audio.
From S2P Require Import Handshake.
From S2P Require Import Agreement.
From S2P Require Import Router.
From S2P Require Import Relay.
From stdpp Require Import gmap strings list.
#[local] Open Scope Z_scope.

(** Delivering [data] to the relay, from any address, in any state and at any
    time, makes it send nothing and leaves its sessions alone. *)
Definition relay_ignores `{RelayEnv} (data : list Z) : Prop :=
  ∀ now clock from v,
    let v' := relay_datagram now clock data from v in
    rw_out v' = rw_out v ∧ ro_routes (rw_router v') = ro_routes (rw_router v).

Lemma relay_ignores_hello `{RelayEnv} seq ts payload :
  u32 seq → u64 ts → bytes payload → (length payload ≤ 84)%nat →
  relay_ignores (control_packet HandshakeClientHello 0 seq ts payload).
Proof.
  intros Hq Ht Hb Hl now clock from v. cbv zeta. unfold relay_datagram.
  rewrite control_packet_decode by (done || ulia). done.
Qed.

Section blocked.
Context `{Env} `{KexLaws} `{RelayEnv}.

(** Nothing ever arrives. *)
Definition silent_net : Prop := ∀ n, env_recv n = RecvTimeout.

Lemma client_loop_blocked fuel rc peer (ch : ClientHello) attempt v :
  net_ok → silent_net → wire_wf ch → u32 (tx v) → (112 ≤ cfg_mtu (s_config (w_sess v)))%nat →
  ∃ v' r pkts, handshake_client_loop fuel rc peer (wire_bytes ch) attempt v = (v', r)
    ∧ w_out v' = w_out v ++ pkts ∧ Forall (λ d, relay_ignores d.1) pkts
    ∧ s_state (w_sess v') = s_state (w_sess v)
    ∧ match r with Done b => b = false | Fail e => e = TeHandshake "client retries exhausted"
      | Crash => False end.
Proof.
  intros Hnet Hsil Hch. destruct (wire_bytes_ok ch Hch) as (_ & Hl & Hb & _).
  change (wire_size ClientHello) with 80%nat in Hl.
  revert attempt v. induction fuel as [|fuel IH]; intros attempt v Htx Hmtu;
    cbn [handshake_client_loop];
    (destruct (send_control_ok HandshakeClientHello 0 (wire_bytes ch) peer v) as [n Hsend];
      [done|done|ulia|done|done|lia|done|]);
    (assert (relay_ignores (control_packet HandshakeClientHello 0 (tx v) (env_clock (w_ticks v))
       (wire_bytes ch))) as Hign by (apply relay_ignores_hello; [done|apply Hnet|done|lia]));
    set (pkt := control_packet _ _ _ _ _) in *; (erewrite SM_bind_done; [|exact Hsend]).
  - eexists _, _, [(pkt, peer)]. split_and!; [done|done|by constructor|done|done].
  - erewrite SM_bind_done; [|reflexivity]. rewrite Hsil.
    destruct (6 <? _).
    + eexists _, _, [(pkt, peer)]. split_and!; [done|done|by constructor|done|done].
    + set (v1 := mkWorld _ _ _ _).
      destruct (IH (Z.min u32_MAX (attempt + 1)) v1) as (v' & r & pkts & Hrun & Ho & Hf & Hst & Hr);
        [apply wrap32_u32|done|].
      exists v', r, ((pkt, peer) :: pkts). split_and!; [exact Hrun| |by constructor|by rewrite Hst|done].
      rewrite Ho. unfold v1. cbn. by rewrite <- app_assoc.
Qed.

Lemma wait_client_hello_silent fuel peer v :
  silent_net → ∃ v', wait_client_hello fuel peer v = (v', Done None) ∧ w_out v' = w_out v.
Proof.
  intros Hsil. revert v. induction fuel as [|fuel IH]; intros v; [by eexists|].
  cbn [wait_client_hello]. erewrite SM_bind_done; [|reflexivity]. rewrite Hsil.
  destruct (IH (mkWorld (w_sess v) (w_out v) (w_ticks v) (S (w_recvs v)))) as (v' & -> & Ho).
  by eexists.
Qed.

Lemma handshake_failed res w :
  sm_state (s_state (w_sess w)) = Handshaking → res ≠ Ok true →
  ∃ e, handshake_result res w
    = (mkWorld (set_state (mkSessionStateMachine Closed) (w_sess w)) (w_out w) (w_ticks w)
         (w_recvs w), Fail e).
Proof.
  intros Hs Hne. destruct w as [sess out tk rv], sess, s_state as [st]; cbn in Hs; subst st.
  destruct res as [[]|e]; [done|by eexists..].
Qed.

Lemma client_blocked fuel rc peer w :
  hs_ready w → silent_net → wire_wf (client_hello_of (s_config (w_sess w)) rc) →
  ∃ w' e pkts, handshake_as_client fuel rc peer w = (w', Fail e)
    ∧ w_out w' = w_out w ++ pkts ∧ Forall (λ d, relay_ignores d.1) pkts
    ∧ sm_state (s_state (w_sess w')) = Closed.
Proof.
  intros [Hidle Htx Hmtu _ Hnet] Hsil Hch. unfold handshake_as_client. rewrite SM_bind_assoc.
  erewrite SM_bind_done; [|apply start_handshake; [done|by left]].
  set (w1 := mkWorld _ _ _ _).
  destruct (wire_bytes_ok _ Hch) as (Hchi & _ & _ & _).
  destruct (client_loop_blocked fuel rc peer _ 0 w1 Hnet Hsil Hch)
    as (w2 & r & pkts & Hrun & Ho & Hf & Hst & Hr); [done|done|].
  assert (catch (handshake_client fuel rc peer) w1
    = (w2, match r with Done a => Done (Ok a) | Fail e => Done (Err e) | Crash => Crash end)) as Hc.
  { unfold catch, handshake_client. erewrite SM_bind_done; [|reflexivity].
    erewrite SM_bind_done; [|unfold proto; change (s_config (w_sess w1)) with (s_config (w_sess w));
      rewrite Hchi; reflexivity]. by rewrite Hrun. }
  assert (∃ res, res ≠ Ok true ∧ catch (handshake_client fuel rc peer) w1 = (w2, Done res))
    as (res & Hne & Hc').
  { destruct r as [b|e|]; [subst b; by exists (Ok false)|by exists (Err e)|done]. }
  destruct (handshake_failed res w2) as [e He]; [by rewrite Hst|done|].
  eexists _, e, pkts. split; [erewrite SM_bind_done; [|exact Hc']; exact He|]. done.
Qed.
End blocked.

(** C23: a call cannot be set up through the relay, although the relay is
    documented as the fallback that always works: the client sends its hello
    with session id 0, and the relay drops every packet of session 0, in
    every state. Since nothing comes back, the client only repeats that
    hello, every one of its packets is dropped, and its handshake fails and
    leaves the session closed; the server, which waits for the hello, never
    sends anything. *)
Theorem relay_blocks_handshake (EC ES : Env) `{KexLaws} `{RelayEnv} fuel rc rs relay w v :
  @hs_ready EC w → wire_wf (client_hello_of (s_config (w_sess w)) rc) →
  @silent_net EC → @silent_net ES →
  (∃ w' e pkts, @handshake_as_client EC _ fuel rc relay w = (w', Fail e)
     ∧ w_out w' = w_out w ++ pkts ∧ Forall (λ d, relay_ignores d.1) pkts
     ∧ sm_state (s_state (w_sess w')) = Closed)
  ∧ (∃ v', @handshake_server ES _ fuel rs relay v = (v', Done false) ∧ w_out v' = w_out v).
Proof.
  intros Hrdy Hch HsC HsS. split; [by apply (client_blocked (H := EC))|].
  destruct (wait_client_hello_silent (H := ES) fuel relay v HsS) as (v' & Hw & Ho).
  exists v'. split; [|done]. unfold handshake_server. by erewrite SM_bind_done; [|exact Hw].
Qed.

Lemma relay_blocks_handshake_witness :
  let relay := mkSocketAddr (V4 [203; 0; 113; 9]) 9000 in
  ∃ w' e pkts, handshake_as_client (H := quiet_env) (H0 := toy_kex) 3 sample_rc relay idle_world
      = (w', Fail e)
    ∧ w_out w' = [] ++ pkts ∧ length pkts = 4%nat
    ∧ Forall (λ d, relay_ignores (H := lossless) d.1) pkts.
Proof.
  intros relay.
  assert (@hs_ready quiet_env idle_world) as Hrdy.
  { split; [reflexivity|unfold tx; simpl; ulia|simpl; unfold DEFAULT_MTU; lia|reflexivity|].
    split; [done|]. intros n. cbn [env_clock quiet_env].
    pose proof (Nat.mod_upper_bound n 1000). unfold u64. lia. }
  destruct (relay_blocks_handshake quiet_env quiet_env (H := toy_kex) (H1 := lossless) 3 sample_rc
    sample_rs relay idle_world idle_world Hrdy) as [(w' & e & pkts & Hrun & Ho & Hf & _) _].
  - exact (proj1 sample_hello_wf).
  - done.
  - done.
  - exists w', e, pkts. split; [exact Hrun|]. split; [exact Ho|]. split; [|exact Hf].
    change (w_out idle_world ++ pkts) with pkts in Ho. rewrite <- Ho.
    apply (f_equal (λ p, length (w_out p.1))) in Hrun. cbn [fst] in Hrun. rewrite <- Hrun.
    vm_compute. reflexivity.
Defined.
