(* ===== verification/Udp.v ===== *)
(** * The UDP transport

    Models [gravital-talk-transport/src/udp.rs]: the socket calls [bind]
    makes, in order, and the transport's operations in terms of the socket.
    The operating system is the class [Sockets]. *)

From S2P Require Import Prelude.
From S2P Require Import CoreTypes.
From S2P Require Import Transport.
From stdpp Require Import list.
#[local] Open Scope Z_scope.

Inductive LatencyClass : Type := RealTime | Interactive | Bulk.

#[export] Instance LatencyClass_eq_dec : EqDecision LatencyClass.
Proof. solve_decision. Defined.

Definition DEFAULT_SOCKET_BUFFER : Z := 4 * 1024 * 1024.
Definition DSCP_EF : Z := 184.

Record UdpConfig : Type := mkUdpConfig {
  uc_bind_addr : SocketAddr;
  uc_peer : option SocketAddr;
  uc_socket_buffer_bytes : Z;
  uc_latency_class : LatencyClass;
  uc_reuse_port : bool;
  uc_ttl : option Z;
}.

Definition UdpConfig_default : UdpConfig :=
  mkUdpConfig (mkSocketAddr (V4 [0; 0; 0; 0]) 0) None DEFAULT_SOCKET_BUFFER RealTime true None.

Inductive SocketCall : Type :=
  | NewSocket (ipv6 : bool)
  | SetNonblocking
  | SetReuseAddress
  | SetReusePort
  | SetSendBuffer (n : Z)
  | SetRecvBuffer (n : Z)
  | SetTtl (n : Z)
  | SetTos (n : Z)
  | BindTo (a : SocketAddr)
  | FromStd
  | ConnectTo (a : SocketAddr).

(** [sys_unix] is the build's target; [sys_call] whether a call succeeds. *)
Class Sockets : Type := {
  sys_unix : bool;
  sys_call : SocketCall → bool;
}.

Record UdpTransport : Type := mkUdpTransport {
  ut_calls : list SocketCall;
  ut_default_peer : option SocketAddr;
}.

Section udp.
Context `{Sockets}.

(** The calls of [bind], each with whether its failure ends it. *)
Definition bind_calls (config : UdpConfig) : list (SocketCall * bool) :=
  [(NewSocket (match sa_ip (uc_bind_addr config) with V4 _ => false | V6 _ => true end), true);
   (SetNonblocking, true); (SetReuseAddress, true)]
  ++ (if sys_unix && uc_reuse_port config then [(SetReusePort, true)] else [])
  ++ [(SetSendBuffer (uc_socket_buffer_bytes config), true);
      (SetRecvBuffer (uc_socket_buffer_bytes config), true)]
  ++ match uc_ttl config with Some ttl => [(SetTtl ttl, true)] | None => [] end
  ++ (if bool_decide (uc_latency_class config = RealTime) && sys_unix
      then [(SetTos DSCP_EF, false)] else [])
  ++ [(BindTo (uc_bind_addr config), true); (FromStd, true)]
  ++ match uc_peer config with Some peer => [(ConnectTo peer, true)] | None => [] end.

(** The calls up to the first fatal failure. *)
Fixpoint run_calls (calls : list (SocketCall * bool)) : list SocketCall * bool :=
  match calls with
  | [] => ([], true)
  | (c, fatal) :: calls =>
      if negb (sys_call c) && fatal then ([c], false)
      else let '(done, ok) := run_calls calls in (c :: done, ok)
  end.

Definition UdpTransport_bind (config : UdpConfig) : result TransportError UdpTransport :=
  let '(done, ok) := run_calls (bind_calls config) in
  if ok then Ok (mkUdpTransport done (uc_peer config)) else Err TeIo.

(** [bind] succeeds exactly when every call but the marking of the traffic
    class does, and the socket is bound before it is connected. *)
Lemma run_calls_ok calls :
  (run_calls calls).2 = true ↔ Forall (λ cf, cf.2 = true → sys_call cf.1 = true) calls.
Proof.
  induction calls as [|[c fatal] calls IH]; simpl; [done|].
  rewrite Forall_cons. simpl. destruct (sys_call c), fatal; simpl;
    try (destruct (run_calls calls)); naive_solver.
Qed.

Lemma UdpTransport_bind_ok config :
  is_ok (UdpTransport_bind config) = true
  ↔ Forall (λ cf, cf.2 = true → sys_call cf.1 = true) (bind_calls config).
Proof.
  unfold UdpTransport_bind. rewrite <- run_calls_ok. by destruct (run_calls _) as [? []].
Qed.
End udp.

(** ** Operations on the socket *)

(** The socket of one transport: [sock_send_to] and [sock_send] (to the
    connected peer), and what the next receive yields. *)
Class Socket : Type := {
  sock_send_to : list Z → SocketAddr → result TransportError Z;
  sock_send : list Z → result TransportError Z;
  sock_recv_from : result TransportError (list Z * SocketAddr);
}.

Section ops.
Context `{Socket}.

Definition UdpTransport_send (self : UdpTransport) (bytes : list Z) : result TransportError Z :=
  match ut_default_peer self with
  | Some peer => sock_send_to bytes peer
  | None => sock_send bytes
  end.

Definition UdpTransport_send_to (self : UdpTransport) (bytes : list Z) (dest : SocketAddr) :
    result TransportError Z := sock_send_to bytes dest.

(** The datagram, cut to the buffer. *)
Definition UdpTransport_recv (self : UdpTransport) (cap : nat) :
    result TransportError (list Z * SocketAddr) :=
  match sock_recv_from with
  | Ok (data, from) => Ok (take cap data, from)
  | Err e => Err e
  end.

(** Nothing is closed, and later operations go on. *)
Definition UdpTransport_close (self : UdpTransport) : result TransportError unit * UdpTransport :=
  (Ok tt, self).
End ops.
