(* ===== verification/AudioIo.v ===== *)
(** * Audio devices

    Models [gravital-talk-io]: the selection of devices ([devices.rs]), the
    capture callbacks that cut what a microphone delivers into frames
    ([capture.rs]), the playback queue and its callbacks ([playback.rs]) and
    the stream configuration ([lib.rs]).  The host's devices (cpal) are the
    class [AudioHost]. *)

From Stdlib Require Import SpecFloat.
From S2P Require Import Prelude.
From S2P Require Import Text.
From S2P Require Import Ieee.
From S2P Require Import Codec.
From stdpp Require Import strings list.
#[local] Open Scope Z_scope.

(** ** Configuration and errors *)

Record StreamConfig : Type := mkStreamConfig {
  sc_sample_rate : Z;
  sc_channels : Z;
  sc_frame_duration_ms : Z;
}.

Definition StreamConfig_default : StreamConfig := mkStreamConfig 48000 1 10.

(** [(rate as usize * ms as usize) / 1000 * channels as usize] *)
Definition frame_len (sample_rate frame_duration_ms channels : Z) : nat :=
  Z.to_nat (sample_rate * frame_duration_ms / 1000 * channels).

Definition samples_per_frame (self : StreamConfig) : nat :=
  frame_len (sc_sample_rate self) (sc_frame_duration_ms self) (sc_channels self).

Inductive IoError : Type :=
  | NoHost
  | NoDevice (kind : string)
  | UnsupportedConfig
  | Cpal (what : string)
  | ChannelClosed.

(** ** Devices *)

Inductive SampleFormat : Type := F32 | I16 | U16 | OtherFormat.

Record SupportedConfig : Type := mkSupportedConfig {
  su_format : SampleFormat;
  su_channels : Z;
  su_sample_rate : Z;
}.

(** A device: its name if it can be read, its default configurations if it
    has them, and whether a stream can be built and started on it. *)
Record Device : Type := mkDevice {
  dev_name : option (list Z);
  dev_input_config : option SupportedConfig;
  dev_output_config : option SupportedConfig;
  dev_build : bool;
  dev_play : bool;
}.

Class AudioHost : Type := {
  host_ok : bool;
  default_input_device : option Device;
  default_output_device : option Device;
  input_devices : option (list Device);
  output_devices : option (list Device);
}.

Record DeviceInfo : Type := mkDeviceInfo {
  di_name : list Z;
  di_is_default : bool;
}.

Section devices.
Context `{AudioHost}.

Definition host : result IoError unit := if host_ok then Ok tt else Err (Cpal "devices").

(** [from.ok_or(e)] *)
Definition ok_or {A} (o : option A) (e : IoError) : result IoError A :=
  match o with Some a => Ok a | None => Err e end.

Definition device_info (default_name : option (list Z)) (d : Device) : DeviceInfo :=
  let name := default (ascii_bytes "<unnamed>") (dev_name d) in
  mkDeviceInfo name (bool_decide (default_name = Some name)).

Definition list_input_devices : result IoError (list DeviceInfo) :=
  _ ← host;
  devs ← ok_or input_devices (Cpal "devices");
  Ok (map (device_info (default_input_device ≫= dev_name)) devs).

Definition list_output_devices : result IoError (list DeviceInfo) :=
  _ ← host;
  devs ← ok_or output_devices (Cpal "devices");
  Ok (map (device_info (default_output_device ≫= dev_name)) devs).

(** The first device of that name. *)
Fixpoint device_named (hint : list Z) (devs : list Device) : option Device :=
  match devs with
  | [] => None
  | d :: devs => if decide (dev_name d = Some hint) then Some d else device_named hint devs
  end.

Definition pick_device (kind : string) (dflt : option Device) (devs : option (list Device))
    (name_hint : option (list Z)) : result IoError Device :=
  _ ← host;
  match name_hint with
  | Some hint =>
      if decide (hint = ascii_bytes "default") then ok_or dflt (NoDevice kind)
      else
        devs ← ok_or devs (Cpal "devices");
        ok_or (device_named hint devs) (NoDevice kind)
  | None => ok_or dflt (NoDevice kind)
  end.

Definition pick_input : option (list Z) → result IoError Device :=
  pick_device "input" default_input_device input_devices.
Definition pick_output : option (list Z) → result IoError Device :=
  pick_device "output" default_output_device output_devices.
End devices.

(** ** Samples *)

(** [x as i16]: truncation, saturating; NaN gives 0. *)
Definition f_to_i16 (x : float) : Z :=
  match x with
  | S754_nan | S754_zero _ => 0
  | S754_infinity s => if s then -32768 else 32767
  | S754_finite s m e =>
      let t := f_trunc m e in if s then Z.max (-32768) (- t) else Z.min 32767 t
  end.

(** [(s.clamp(-1.0, 1.0) * i16::MAX as f32) as i16] *)
Definition f32_to_sample (s : float) : Z :=
  f_to_i16 (f32_mul (f_clamp s (f32_of_Z (-1)) (f32_of_Z 1)) (f32_of_Z 32767)).

(** [s as f32 / i16::MAX as f32] *)
Definition sample_to_f32 (s : Z) : float := f32_div (f32_of_Z s) (f32_of_Z 32767).

(** [u.wrapping_sub(0x8000) as i16] and [(s as i32 + 0x8000) as u16] *)
Definition u16_to_sample (u : Z) : Z := as_i16 (wrap16 (u - 32768)).
Definition sample_to_u16 (s : Z) : Z := wrap16 (s + 32768).

(** ** Capture *)

(** What the callbacks keep: the samples of the frame being filled, and the
    frames handed to the channel. *)
Record CaptureState : Type := mkCaptureState {
  ca_accum : list Z;
  ca_sent : list (list Z);
}.

(** [tx.send(frame)], which fails once the receiver is gone; [open n] is
    whether it is still there at the [n]-th frame. *)
Definition tx_send (open : nat → bool) (frame : list Z) (sent : list (list Z)) :
    option (list (list Z)) :=
  if open (length sent) then Some (sent ++ [frame]) else None.

(** The loops of [push_f32] and [push_u16], which differ in [conv]. *)
Fixpoint push_each {A} (conv : A → Z) (open : nat → bool) (frame_samples : nat) (data : list A)
    (st : CaptureState) : CaptureState :=
  match data with
  | [] => st
  | s :: data =>
      let accum := ca_accum st ++ [conv s] in
      if (frame_samples <=? length accum)%nat then
        match tx_send open accum (ca_sent st) with
        | Some sent => push_each conv open frame_samples data (mkCaptureState [] sent)
        | None => mkCaptureState [] (ca_sent st)
        end
      else push_each conv open frame_samples data (mkCaptureState accum (ca_sent st))
  end.

Definition push_f32 : (nat → bool) → nat → list float → CaptureState → CaptureState :=
  push_each f32_to_sample.
Definition push_u16 : (nat → bool) → nat → list Z → CaptureState → CaptureState :=
  push_each u16_to_sample.

(** The loop of [push_i16]; [None] when it has not ended after [fuel]
    rounds. *)
Fixpoint push_i16_loop (open : nat → bool) (fuel frame_samples : nat) (st : CaptureState) :
    option CaptureState :=
  match fuel with
  | O => None
  | S fuel =>
      if (frame_samples <=? length (ca_accum st))%nat then
        let rest := drop frame_samples (ca_accum st) in
        let frame := take frame_samples (ca_accum st) in
        match tx_send open frame (ca_sent st) with
        | Some sent => push_i16_loop open fuel frame_samples (mkCaptureState rest sent)
        | None => Some (mkCaptureState rest (ca_sent st))
        end
      else Some st
  end.

Definition push_i16 (open : nat → bool) (fuel frame_samples : nat) (data : list Z)
    (st : CaptureState) : option CaptureState :=
  push_i16_loop open fuel frame_samples (mkCaptureState (ca_accum st ++ data) (ca_sent st)).

(** A started capture stream: the format its callback expects and the frame
    length it cuts. *)
Record AudioCapture : Type := mkAudioCapture {
  ac_format : SampleFormat;
  ac_frame_samples : nat;
}.

Definition AudioCapture_start `{AudioHost} (config : StreamConfig) (device_hint : option (list Z)) :
    result IoError AudioCapture :=
  device ← pick_input device_hint;
  supported ← ok_or (dev_input_config device) (Cpal "default config");
  let frame_samples :=
    frame_len (su_sample_rate supported) (sc_frame_duration_ms config) (su_channels supported) in
  match su_format supported with
  | OtherFormat => Err UnsupportedConfig
  | fmt =>
      if negb (dev_build device) then Err (Cpal "build stream")
      else if negb (dev_play device) then Err (Cpal "play stream")
      else Ok (mkAudioCapture fmt frame_samples)
  end.

(** ** Playback *)

(** The pump thread moves frames from the channel into the shared queue. *)
Definition pump (queue frame : list Z) : list Z := queue ++ frame.

(** Filling [n] slots of the device's buffer. *)
Fixpoint pull {A} (conv : option Z → A) (n : nat) (queue : list Z) : list A * list Z :=
  match n with
  | O => ([], queue)
  | S n =>
      let '(out, rest) := pull conv n (tail queue) in (conv (head queue) :: out, rest)
  end.

Definition pull_f32 : nat → list Z → list float * list Z :=
  pull (λ s, match s with Some s => sample_to_f32 s | None => f32_of_Z 0 end).
Definition pull_i16 : nat → list Z → list Z * list Z := pull (default 0).
Definition pull_u16 : nat → list Z → list Z * list Z := pull (λ s, sample_to_u16 (default 0 s)).

Definition AudioPlayback_start `{AudioHost} (config : StreamConfig) (device_hint : option (list Z)) :
    result IoError SampleFormat :=
  device ← pick_output device_hint;
  supported ← ok_or (dev_output_config device) (Cpal "default config");
  match su_format supported with
  | OtherFormat => Err UnsupportedConfig
  | fmt =>
      if negb (dev_build device) then Err (Cpal "build stream")
      else if negb (dev_play device) then Err (Cpal "play stream")
      else Ok fmt
  end.

(** [self.tx.send(samples).map_err(|_| IoError::ChannelClosed)] *)
Definition AudioPlayback_push (pump_alive : bool) (queue samples : list Z) :
    result IoError (list Z) :=
  if pump_alive then Ok (pump queue samples) else Err ChannelClosed.

(** ** The capture callbacks cut a stream into frames *)

(** What holds of the channel and the accumulator between callbacks. *)
Definition framed (frame_samples : nat) (st : CaptureState) : Prop :=
  (length (ca_accum st) < frame_samples)%nat
  ∧ Forall (λ f, length f = frame_samples) (ca_sent st).

(** All samples a state accounts for, in order. *)
Definition stream_of (st : CaptureState) : list Z := concat (ca_sent st) ++ ca_accum st.

Definition capture_init : CaptureState := mkCaptureState [] [].

(** A framed state is determined by its stream. *)
Lemma frames_inj (n : nat) fs1 : ∀ fs2 r1 r2,
  Forall (λ f : list Z, length f = n) fs1 → Forall (λ f, length f = n) fs2 →
  (length r1 < n)%nat → (length r2 < n)%nat →
  concat fs1 ++ r1 = concat fs2 ++ r2 → fs1 = fs2 ∧ r1 = r2.
Proof.
  induction fs1 as [|f1 fs1 IH]; intros [|f2 fs2] r1 r2 H1 H2 Hr1 Hr2 Heq; simpl in Heq;
    rewrite ?Forall_cons in *; destruct_and?.
  - done.
  - apply (f_equal length) in Heq. rewrite !length_app in Heq. lia.
  - apply (f_equal length) in Heq. rewrite !length_app in Heq. lia.
  - rewrite <- !app_assoc in Heq. apply app_inj_1 in Heq as [-> Heq]; [|congruence].
    destruct (IH fs2 r1 r2) as [-> ->]; auto.
Qed.

Lemma framed_ext n st1 st2 :
  framed n st1 → framed n st2 → stream_of st1 = stream_of st2 → st1 = st2.
Proof.
  destruct st1, st2. intros [? ?] [? ?] Heq. simpl in *.
  by edestruct frames_inj as [-> ->]; [| | | |exact Heq|].
Qed.

Lemma push_each_framed {A} (conv : A → Z) open n data : ∀ st,
  framed n st → framed n (push_each conv open n data st).
Proof.
  induction data as [|s data IH]; intros st [Ha Hs]; simpl; [done|].
  rewrite length_app, Nat.leb_compare. simpl. destruct (Nat.compare_spec n (length (ca_accum st) + 1)).
  - unfold tx_send. destruct (open _).
    + apply IH. split; simpl; [lia|]. apply Forall_app. split; [done|].
      apply Forall_singleton. rewrite length_app. simpl. lia.
    + split; simpl; [lia|done].
  - lia.
  - apply IH. split; simpl; [rewrite length_app; simpl; lia|done].
Qed.

(** With the receiver there, no sample is lost or reordered. *)
Lemma push_each_stream {A} (conv : A → Z) n data : ∀ st,
  stream_of (push_each conv (λ _, true) n data st) = stream_of st ++ (conv <$> data).
Proof.
  induction data as [|s data IH]; intros st; simpl; [by rewrite app_nil_r|].
  case_match; rewrite IH; unfold stream_of; simpl.
  - by rewrite concat_app; simpl; rewrite ?app_nil_r, <- ?app_assoc.
  - by rewrite <- !app_assoc.
Qed.

Lemma push_i16_loop_ends open n : (0 < n)%nat → ∀ fuel st,
  (length (ca_accum st) < fuel)%nat → Forall (λ f, length f = n) (ca_sent st) →
  ∃ st', push_i16_loop open fuel n st = Some st'
    ∧ Forall (λ f, length f = n) (ca_sent st')
    ∧ (length (ca_accum st') ≤ length (ca_accum st))%nat
    ∧ ((∀ k, open k = true) → framed n st' ∧ stream_of st' = stream_of st).
Proof.
  intros Hn. induction fuel as [|fuel IH]; intros st Hf Hs; [lia|]. simpl.
  destruct (Nat.leb_spec n (length (ca_accum st))); [|by eexists; eauto].
  unfold tx_send. destruct (open _) eqn:Ho.
  - destruct (IH (mkCaptureState (drop n (ca_accum st)) (ca_sent st ++ [take n (ca_accum st)])))
      as (st' & -> & Hs' & Hl & Hall); simpl.
    + rewrite length_drop. lia.
    + apply Forall_app. split; [done|]. apply Forall_singleton. rewrite length_take. lia.
    + simpl in Hl. rewrite length_drop in Hl. exists st'. split_and!; [done..|lia|].
      intros Hopen. destruct (Hall Hopen) as [? ->]. split; [done|].
      unfold stream_of. simpl. rewrite concat_app. simpl.
      by rewrite app_nil_r, <- app_assoc, take_drop.
  - eexists. split_and!; [done|done| |intros Hopen; congruence].
    simpl. rewrite length_drop. lia.
Qed.

Lemma push_i16_framed n fuel data st :
  framed n st → (n + length data ≤ fuel)%nat →
  push_i16 (λ _, true) fuel n data st = Some (push_each id (λ _, true) n data st).
Proof.
  intros [Ha Hs] Hf. destruct (push_i16_loop_ends (λ _, true) n ltac:(lia) fuel
    (mkCaptureState (ca_accum st ++ data) (ca_sent st))) as (st' & Heq & _ & _ & Hall); simpl; auto.
  { rewrite length_app. lia. }
  unfold push_i16. rewrite Heq. f_equal. destruct (Hall (λ _, eq_refl)) as [Hfr Hst].
  apply (framed_ext n); [done|by apply push_each_framed|].
  rewrite Hst, push_each_stream, list_fmap_id. unfold stream_of. simpl. by rewrite app_assoc.
Qed.

Lemma push_i16_loop_more open n fuel : ∀ fuel' st st',
  (fuel ≤ fuel')%nat → push_i16_loop open fuel n st = Some st' →
  push_i16_loop open fuel' n st = Some st'.
Proof.
  induction fuel as [|fuel IH]; intros [|fuel'] st st' Hle Heq; [done|done|lia|].
  simpl in *. repeat case_match; eauto with lia.
Qed.

Lemma push_i16_loop_empty open : (∀ k, open k = true) → ∀ fuel st,
  push_i16_loop open fuel 0 st = None.
Proof.
  intros Ho. induction fuel as [|fuel IH]; intros st; simpl; [done|].
  unfold tx_send. by rewrite Ho, IH.
Qed.

(** The callbacks of one stream, one after the other. *)
Definition capture_run {A} (conv : A → Z) (n : nat) (datas : list (list A)) : CaptureState :=
  foldl (λ st d, push_each conv (λ _, true) n d st) capture_init datas.
Definition capture_run_i16 (fuel n : nat) (datas : list (list Z)) : option CaptureState :=
  foldl (λ st d, st ≫= push_i16 (λ _, true) fuel n d) (Some capture_init) datas.

Lemma capture_run_snoc {A} (conv : A → Z) n datas d :
  capture_run conv n (datas ++ [d]) = push_each conv (λ _, true) n d (capture_run conv n datas).
Proof. unfold capture_run. by rewrite foldl_snoc. Qed.

Lemma capture_run_spec {A} (conv : A → Z) n datas :
  (0 < n)%nat →
  framed n (capture_run conv n datas) ∧ stream_of (capture_run conv n datas) = conv <$> concat datas.
Proof.
  intros Hn. induction datas as [|d datas [IHf IHs]] using rev_ind; [by repeat split|].
  rewrite capture_run_snoc. split; [by apply push_each_framed|].
  rewrite push_each_stream, IHs, concat_app, fmap_app. simpl. by rewrite app_nil_r.
Qed.

Lemma capture_run_i16_spec fuel n datas :
  (0 < n)%nat → Forall (λ d, n + length d ≤ fuel)%nat datas →
  capture_run_i16 fuel n datas = Some (capture_run id n datas).
Proof.
  intros Hn. induction datas as [|d datas IH] using rev_ind; intros Hall; [done|].
  apply Forall_app in Hall as [Hall Hd]. rewrite Forall_singleton in Hd.
  unfold capture_run_i16 in *. rewrite foldl_snoc, IH, capture_run_snoc by done. simpl.
  apply push_i16_framed; [|done]. by apply capture_run_spec.
Qed.

(** However a device cuts what it delivers into callbacks, the frames a
    capture stream hands over have exactly the frame length, fewer samples
    than that wait for the next callback, and frames and waiting samples are
    the samples delivered, converted, in order and without loss; the result
    depends on the stream of samples alone, and the block-wise loop of
    [push_i16] computes what the sample-wise loops of [push_f32] and
    [push_u16] do. *)
Theorem capture_stream_frames {A} (conv : A → Z) (n fuel : nat) (datas datas' : list (list A)) :
  (0 < n)%nat → concat datas' = concat datas → Forall (λ d, n + length d ≤ fuel)%nat datas →
  framed n (capture_run conv n datas)
  ∧ stream_of (capture_run conv n datas) = conv <$> concat datas
  ∧ capture_run conv n datas' = capture_run conv n datas
  ∧ capture_run_i16 fuel n (map (map conv) datas) = Some (capture_run conv n datas).
Proof.
  intros Hn Hcat Hfuel. destruct (capture_run_spec conv n datas Hn) as [Hf Hs].
  split_and!; [done|done| |].
  - destruct (capture_run_spec conv n datas' Hn) as [Hf' Hs'].
    apply (framed_ext n); [done..|]. by rewrite Hs', Hs, Hcat.
  - rewrite capture_run_i16_spec; [|done|].
    + f_equal. destruct (capture_run_spec id n (map (map conv) datas) Hn) as [Hf' Hs'].
      apply (framed_ext n); [done..|]. rewrite Hs', Hs, list_fmap_id.
      by rewrite <- concat_map.
    + apply Forall_map. eapply Forall_impl; [exact Hfuel|]. intros d. simpl.
      by rewrite length_map.
Qed.

Definition capture_example : list (list Z) := [[32769; 32770]; []; [32771; 32772; 32773]].

Lemma capture_stream_frames_witness :
  capture_run u16_to_sample 2 capture_example = mkCaptureState [5] [[1; 2]; [3; 4]]
  ∧ framed 2 (capture_run u16_to_sample 2 capture_example).
Proof.
  split; [reflexivity|].
  refine (proj1 (capture_stream_frames u16_to_sample 2 8 capture_example
    [[32769; 32770; 32771]; [32772; 32773]] _ _ _)); [lia|reflexivity|].
  repeat constructor.
Defined.

(** C36: the loop of [push_i16] ends for every positive frame length, whether
    or not the receiver is still there and whatever it has accumulated, and
    more rounds change nothing; every frame it sends has that length.  For
    frame length zero it ends only once the receiver is gone: with a live
    receiver it sends empty frames for ever, and a stream started with a
    frame duration of zero has that frame length. *)
Theorem push_i16_terminates `{AudioHost} open (data : list Z) st n fuel :
  Forall (λ f, length f = n) (ca_sent st) → (length (ca_accum st ++ data) < fuel)%nat →
  ((0 < n)%nat →
     ∃ st', (∀ fuel', (fuel ≤ fuel')%nat → push_i16 open fuel' n data st = Some st')
       ∧ Forall (λ f, length f = n) (ca_sent st'))
  ∧ ((∀ k, open k = true) → ∀ fuel', push_i16 open fuel' 0 data st = None)
  ∧ (open (length (ca_sent st)) = false →
     push_i16 open 1 0 data st = Some (mkCaptureState (ca_accum st ++ data) (ca_sent st)))
  ∧ (∀ config hint c, sc_frame_duration_ms config = 0 →
     AudioCapture_start config hint = Ok c → ac_frame_samples c = 0%nat).
Proof.
  intros Hs Hf. split_and!.
  - intros Hn. destruct (push_i16_loop_ends open n Hn fuel
      (mkCaptureState (ca_accum st ++ data) (ca_sent st))) as (st' & Heq & Hs' & _); [done..|].
    exists st'. split; [|done]. intros fuel' Hle. by eapply push_i16_loop_more.
  - intros Ho fuel'. by apply push_i16_loop_empty.
  - intros Ho. unfold push_i16. simpl. unfold tx_send. simpl. by rewrite Ho.
  - intros config hint c Hz Hc. apply bind_Ok in Hc as (dev & _ & Hc).
    apply bind_Ok in Hc as (su & _ & Hc). rewrite Hz in Hc. unfold frame_len in Hc.
    rewrite Z.mul_0_r, Z.div_0_l, Z.mul_0_l in Hc by done. simpl in Hc.
    repeat case_match; naive_solver.
Qed.

(** A host with one microphone, for the examples. *)
Definition microphone : Device :=
  mkDevice (Some (ascii_bytes "mic")) (Some (mkSupportedConfig I16 1 48000)) None true true.
Definition one_microphone : AudioHost :=
  Build_AudioHost true (Some microphone) None (Some [microphone]) (Some []).

Lemma push_i16_terminates_witness :
  (∃ st', ∀ fuel', (6 ≤ fuel')%nat →
     push_i16 (λ _, true) fuel' 2 [1; 2; 3; 4; 5] capture_init = Some st')
  ∧ AudioCapture_start (H := one_microphone) (mkStreamConfig 48000 1 0) None
    = Ok (mkAudioCapture I16 0)
  ∧ ∀ fuel, push_i16 (λ _, true) fuel 0 [1] capture_init = None.
Proof.
  split_and!; [|reflexivity|].
  - destruct (push_i16_terminates (H := one_microphone) (λ _, true) [1; 2; 3; 4; 5] capture_init 2 6)
      as [Ht _]; [constructor|simpl; lia|].
    destruct Ht as (st' & Heq & _); [lia|]. by exists st'.
  - apply (push_i16_terminates (H := one_microphone) (λ _, true) [1] capture_init 0 2);
      [constructor|simpl; lia|reflexivity].
Defined.

(** ** The playback queue *)

(** What happens to an output stream: the application pushes a frame, or the
    device asks for [n] samples. *)
Inductive PlaybackEvent : Type := Push (frame : list Z) | Pull (n : nat).

Definition play_event {A} (conv : option Z → A) (st : list A * list Z) (ev : PlaybackEvent) :
    list A * list Z :=
  match ev with
  | Push frame => (st.1, pump st.2 frame)
  | Pull n => let r := pull conv n st.2 in (st.1 ++ r.1, r.2)
  end.
Definition play {A} (conv : option Z → A) : list PlaybackEvent → list A * list Z :=
  foldl (play_event conv) ([], []).

Definition pushed (evs : list PlaybackEvent) : list Z :=
  concat (omap (λ ev, match ev with Push f => Some f | Pull _ => None end) evs).
Definition asked (evs : list PlaybackEvent) : nat :=
  sum_list_with (λ ev, match ev with Push _ => 0 | Pull n => n end)%nat evs.

Lemma pull_spec {A} (conv : option Z → A) n : ∀ queue,
  pull conv n queue
  = (conv <$> ((Some <$> take n queue) ++ replicate (n - length queue) None), drop n queue).
Proof.
  induction n as [|n IH]; intros queue; [done|]. simpl. rewrite IH.
  destruct queue as [|s queue]; simpl; [|done]. by rewrite Nat.sub_0_r, take_nil, drop_nil.
Qed.

Lemma omap_id_some (l : list Z) k : omap id ((Some <$> l) ++ replicate k None) = l.
Proof.
  induction l as [|x l IH]; simpl; [by induction k|]. f_equal. exact IH.
Qed.

(** A playback stream plays what was pushed, in order, each sample once:
    whatever the interleaving of pushes and device callbacks, what the device
    got without the silence, followed by the queue, is what was pushed; every
    callback is filled completely, and with silence only for the samples the
    queue does not have. *)
Theorem playback_fifo {A} (conv : option Z → A) (evs : list PlaybackEvent) :
  (∃ heard : list (option Z),
     (play conv evs).1 = conv <$> heard
     ∧ omap id heard ++ (play conv evs).2 = pushed evs
     ∧ length heard = asked evs)
  ∧ ∀ n queue, pull conv n queue
      = (conv <$> ((Some <$> take n queue) ++ replicate (n - length queue) None), drop n queue).
Proof.
  split; [|intros; apply pull_spec].
  induction evs as [|ev evs (heard & Hh & Hq & Hl)] using rev_ind; [by exists []|].
  unfold play in *. rewrite foldl_snoc. set (st := foldl _ _ evs) in *.
  unfold pushed, asked in *. rewrite omap_app, concat_app, sum_list_with_app, <- Hq.
  destruct ev as [f|n]; simpl.
  - exists heard. split_and!; [done| |lia]. unfold pump. by rewrite app_nil_r, app_assoc.
  - rewrite pull_spec. simpl.
    exists (heard ++ (Some <$> take n st.2) ++ replicate (n - length st.2) None). split_and!.
    + by rewrite Hh, (fmap_app conv heard).
    + rewrite (omap_app _ heard), omap_id_some, <- app_assoc, take_drop. by rewrite app_nil_r.
    + rewrite !length_app, length_fmap, length_take, length_replicate. lia.
Qed.

(** ** From an output device back into an input device *)

(** [f] holds of the numbers that extend [base] by [n] bits. *)
Fixpoint forall_bits (f : Z → bool) (n : nat) (base : Z) : bool :=
  match n with
  | O => f base
  | S n => forall_bits f n (2 * base) && forall_bits f n (2 * base + 1)
  end.

Lemma forall_bits_spec f n : ∀ base x,
  forall_bits f n base = true → base * 2 ^ Z.of_nat n ≤ x < (base + 1) * 2 ^ Z.of_nat n →
  f x = true.
Proof.
  induction n as [|n IH]; intros base x Hall Hx; simpl in Hall.
  - by assert (x = base) as -> by lia.
  - apply andb_true_iff in Hall as [H0 H1].
    replace (2 ^ Z.of_nat (S n)) with (2 * 2 ^ Z.of_nat n) in Hx
      by (rewrite <- Z.pow_succ_r by lia; f_equal; lia).
    destruct (decide (x < (2 * base + 1) * 2 ^ Z.of_nat n)).
    + by apply (IH (2 * base)); [done|nia].
    + by apply (IH (2 * base + 1)); [done|nia].
Qed.

(** One positive sample through a floating-point device, with either sign. *)
Definition f32_sample_ok (s : Z) : bool :=
  match sample_to_f32 s with
  | S754_finite false m e =>
      (f32_to_sample (S754_finite false m e) =? s)
      && (f32_to_sample (S754_finite true m e) =? - s)
  | _ => s =? 0
  end.

Lemma f32_samples_ok : forall_bits f32_sample_ok 15 0 = true.
Proof. vm_compute. reflexivity. Qed.

(** The sign passes through rounding and through division. *)
Lemma round_aux_opp m e l :
  binary_round_aux f32_prec f32_emax true m e l
  = SFopp (binary_round_aux f32_prec f32_emax false m e l).
Proof. unfold binary_round_aux. by repeat case_match. Qed.

Lemma div_opp x m e :
  f32_div (SFopp x) (S754_finite false m e) = SFopp (f32_div x (S754_finite false m e)).
Proof.
  unfold f32_div. destruct x as [[]|[]| |[] mx ex]; try done; simpl SFopp; unfold SFdiv;
    destruct (SFdiv_core_binary _ _ _ _ _) as [[mz ez] lz]; simpl xorb; cbv iota;
    rewrite round_aux_opp; [|done].
  by destruct (binary_round_aux _ _ false _ _ _) as [[]|[]| |[]].
Qed.

Lemma sample_to_f32_opp p : sample_to_f32 (Z.neg p) = SFopp (sample_to_f32 (Z.pos p)).
Proof.
  unfold sample_to_f32. replace (f32_of_Z (Z.neg p)) with (SFopp (f32_of_Z (Z.pos p))).
  - exact (div_opp _ 16776704 (-9)).
  - unfold f32_of_Z, binary_normalize, binary_round.
    destruct (shl_align _ _ _) as [mz ez]. by rewrite round_aux_opp.
Qed.

(** A floating-point device changes the most negative sample only. *)
Lemma f32_loopback s : i16 s → f32_to_sample (sample_to_f32 s) = Z.max (-32767) s.
Proof.
  intros Hs. destruct (decide (s = -32768)) as [->|]; [by vm_compute|].
  rewrite Z.max_r by (unfold i16 in Hs; lia).
  assert (f32_sample_ok (Z.abs s) = true) as Hok.
  { apply (forall_bits_spec _ 15 0); [apply f32_samples_ok|]. unfold i16 in Hs. lia. }
  unfold f32_sample_ok in Hok. destruct s as [|p|p]; unfold Z.abs in Hok; [done| |].
  - destruct (sample_to_f32 (Z.pos p)) as [| | |[] m e]; try (apply Z.eqb_eq in Hok; discriminate Hok).
    by apply andb_true_iff in Hok as [Hok%Z.eqb_eq _].
  - rewrite sample_to_f32_opp.
    destruct (sample_to_f32 (Z.pos p)) as [| | |[] m e]; try (apply Z.eqb_eq in Hok; discriminate Hok).
    by apply andb_true_iff in Hok as [_ Hok%Z.eqb_eq].
Qed.

Lemma u16_loopback s : i16 s → u16_to_sample (sample_to_u16 s) = s.
Proof.
  unfold i16, u16_to_sample, sample_to_u16, as_i16, wrap16. intros Hs.
  rewrite (Z.mod_small (s + 32768)) by lia. 
  destruct (decide (0 ≤ s)).
  - rewrite Z.mod_small by lia. case_match; lia.
  - replace (s + 32768 - 32768) with (s + 65536 + (-1) * 65536) by lia.
    rewrite Z.mod_add, Z.mod_small by lia. case_match; lia.
Qed.

(** Samples played on a device and captured again come back unchanged
    through a 16-bit device of either signedness; through a floating-point
    device they do as well, except that the most negative sample becomes
    -32767. *)
Theorem device_loopback (l : list Z) (n : nat) :
  Forall i16 l →
  stream_of (push_u16 (λ _, true) n (pull_u16 (length l) l).1 capture_init) = l
  ∧ stream_of (push_each id (λ _, true) n (pull_i16 (length l) l).1 capture_init) = l
  ∧ stream_of (push_f32 (λ _, true) n (pull_f32 (length l) l).1 capture_init)
    = Z.max (-32767) <$> l.
Proof.
  intros Hl. unfold push_u16, push_f32, pull_u16, pull_i16, pull_f32.
  rewrite !push_each_stream, !pull_spec, Nat.sub_diag, firstn_all, app_nil_r. simpl.
  rewrite <- !list_fmap_compose. split_and!.
  - transitivity (id <$> l); [|apply list_fmap_id]. apply Forall_fmap_ext_1.
    eapply Forall_impl; [exact Hl|]. intros s Hs. by apply u16_loopback.
  - transitivity (id <$> l); [|apply list_fmap_id]. by apply Forall_fmap_ext_1, Forall_true.
  - apply Forall_fmap_ext_1. eapply Forall_impl; [exact Hl|]. intros s Hs. by apply f32_loopback.
Qed.

Lemma device_loopback_witness :
  stream_of (push_f32 (λ _, true) 2 (pull_f32 4 [-32768; -1; 0; 32767]).1 capture_init)
  = [-32767; -1; 0; 32767].
Proof.
  apply (device_loopback [-32768; -1; 0; 32767] 2). repeat constructor; unfold i16; lia.
Defined.
