(* ===== verification/Resampler.v ===== *)
(** * The resampler

    Models [gravital-talk-io/src/resampler.rs]: 16-bit samples in, converted
    to floats and collected per channel until the resampler proper has the
    input it asks for, blocks of a fixed size out.  The resampler proper
    ([rubato::FftFixedOut]) is the class [Rubato]; [RubatoLaws] is what its
    documentation promises. *)

From Stdlib Require Import SpecFloat.
From S2P Require Import Prelude.
From S2P Require Import Ieee.
From S2P Require Import Codec.
From S2P Require Import AudioIo.
From stdpp Require Import strings list.
#[local] Open Scope Z_scope.

(** [process_into_buffer] returns whether it succeeded, the output buffers
    and the state after it. *)
Class Rubato : Type := {
  rb_state : Type;
  rb_new : Z → Z → nat → nat → nat → option rb_state;
  rb_input_frames_next : rb_state → nat;
  rb_process : rb_state → list (list float) → list (list float) → bool * list (list float) * rb_state;
}.

Definition shape (channels n : nat) (b : list (list float)) : Prop :=
  length b = channels ∧ Forall (λ c, length c = n) b.

(** A synchronous resampler of fixed output size: every call with the input it
    asked for succeeds and fills the [n] frames of the output buffers.  The
    ratio of the rates is fixed, so [k] frames of input make at most
    [rb_yield * k] frames of output ([rb_yield] the ratio rounded up), and
    what a call returns beyond that was stored by earlier calls.  Nothing is
    said about how much input is asked for: it may be none, as long as the
    stored frames last, and for [n = 0] it may be none for ever. *)
Class RubatoLaws `(R : Rubato) : Type := {
  rb_valid : nat → nat → rb_state → Prop;
  rb_stored : rb_state → nat;
  rb_yield : nat;
  rb_new_valid i o n sub ch st : rb_new i o n sub ch = Some st → rb_valid ch n st;
  rb_process_valid ch n st inp out :
    rb_valid ch n st → shape ch (rb_input_frames_next st) inp → shape ch n out →
    ∃ out' st', rb_process st inp out = (true, out', st') ∧ shape ch n out' ∧ rb_valid ch n st'
      ∧ (rb_stored st' + n ≤ rb_stored st + rb_yield * rb_input_frames_next st)%nat;
}.

Section resampler.
Context `{R : Rubato}.

(** The per-channel buffers have [channels] entries each. *)
Record Resampler : Type := mkResampler {
  rs_inner : rb_state;
  rs_in_rate : Z;
  rs_out_rate : Z;
  rs_channels : nat;
  rs_out_frames_per_channel : nat;
  rs_in_f32 : list (list float);
  rs_out_f32 : list (list float);
  rs_pending_in : list (list float);
}.

Definition Resampler_new (in_rate out_rate : Z) (channels : Z) (out_frames_per_channel : nat) :
    result IoError Resampler :=
  if channels =? 0 then Err UnsupportedConfig
  else
    let channels := Z.to_nat channels in
    match rb_new in_rate out_rate out_frames_per_channel 2 channels with
    | None => Err UnsupportedConfig
    | Some inner =>
        Ok (mkResampler inner in_rate out_rate channels out_frames_per_channel
              (replicate channels [])
              (replicate channels (replicate out_frames_per_channel (f32_of_Z 0)))
              (replicate channels []))
    end.

Definition out_block_size (self : Resampler) : nat :=
  (rs_out_frames_per_channel self * rs_channels self)%nat.

(** [samples.chunks_exact(n)] for positive [n] *)
Fixpoint chunks_exact_fuel (fuel n : nat) (l : list Z) : list (list Z) :=
  match fuel with
  | O => []
  | S fuel =>
      if (n <=? length l)%nat then take n l :: chunks_exact_fuel fuel n (drop n l) else []
  end.
Definition chunks_exact (n : nat) (l : list Z) : list (list Z) := chunks_exact_fuel (length l) n l.

(** One interleaved frame: a sample for each channel. *)
Definition push_frame (pending : list (list float)) (frame : list Z) : list (list float) :=
  zip_with (λ c s, c ++ [sample_to_f32 s]) pending frame.

(** [out_concat] of one block; [None] is an index out of range. *)
Definition interleave (frames : nat) (out : list (list float)) : option (list Z) :=
  @concat Z <$> mapM (λ i, mapM (λ c : list float, f32_to_sample <$> c !! i) out) (seq 0 frames).

(** The loop of [push]; [None] when it has not ended after [fuel] rounds. *)
Fixpoint resample_loop (fuel : nat) (self : Resampler) (out_concat : list Z) :
    option (checked (result IoError (list Z) * Resampler)) :=
  match fuel with
  | O => None
  | S fuel =>
      let needed := rb_input_frames_next (rs_inner self) in
      if (length (hd [] (rs_pending_in self)) <? needed)%nat then Some (Val (Ok out_concat, self))
      else if negb (forallb (λ c, needed <=? length c)%nat (rs_pending_in self)) then Some Panic
      else
        let in_f32 := take needed <$> rs_pending_in self in
        let pending_in := drop needed <$> rs_pending_in self in
        let '(ok, out_f32, inner) := rb_process (rs_inner self) in_f32 (rs_out_f32 self) in
        let self := mkResampler inner (rs_in_rate self) (rs_out_rate self) (rs_channels self)
          (rs_out_frames_per_channel self) in_f32 out_f32 pending_in in
        if negb ok then Some (Val (Err UnsupportedConfig, self))
        else
          match interleave (rs_out_frames_per_channel self) out_f32 with
          | None => Some Panic
          | Some block => resample_loop fuel self (out_concat ++ block)
          end
  end.

Definition with_pending (self : Resampler) (pending_in : list (list float)) : Resampler :=
  mkResampler (rs_inner self) (rs_in_rate self) (rs_out_rate self) (rs_channels self)
    (rs_out_frames_per_channel self) (rs_in_f32 self) (rs_out_f32 self) pending_in.

Definition resample_push (fuel : nat) (self : Resampler) (samples_in : list Z) :
    option (checked (result IoError (list Z) * Resampler)) :=
  if negb (length samples_in mod rs_channels self =? 0)%nat
  then Some (Val (Err UnsupportedConfig, self))
  else
    let pending := foldl push_frame (rs_pending_in self) (chunks_exact (rs_channels self) samples_in) in
    resample_loop fuel (with_pending self pending) [].

(** ** Channels *)

(** The columns of a list of frames. *)
Fixpoint columns (ch : nat) (frames : list (list Z)) : list (list float) :=
  match frames with
  | [] => replicate ch []
  | f :: frames => zip_with (λ s c, sample_to_f32 s :: c) f (columns ch frames)
  end.

Definition extend (pending more : list (list float)) : list (list float) := zip_with (++) pending more.

Lemma shape_zip_with {A} (f : A → list float → list float) ch n m l b :
  length l = ch → shape ch n b → (∀ a c, length c = n → length (f a c) = m) →
  shape ch m (zip_with f l b).
Proof.
  intros Hl [Hb Hs] Hf. split; [rewrite length_zip_with; lia|].
  clear Hl Hb. revert l. induction Hs as [|c b Hc Hs IH]; intros [|a l]; simpl; auto.
Qed.

Lemma shape_columns ch frames :
  Forall (λ f, length f = ch) frames → shape ch (length frames) (columns ch frames).
Proof.
  induction 1 as [|f frames Hf _ IH]; simpl.
  - split; [by rewrite length_replicate|]. by apply Forall_replicate.
  - eapply shape_zip_with; [done|exact IH|]. intros s c <-. done.
Qed.

Lemma shape_extend ch n m p q :
  shape ch n p → shape ch m q → shape ch (n + m) (extend p q).
Proof.
  intros [Hp Hps] [Hq Hqs]. split; [unfold extend; rewrite length_zip_with; lia|].
  clear Hp Hq. revert q Hqs. induction Hps as [|c p Hc Hp IH]; intros [|d q] Hq; simpl; auto.
  apply Forall_cons in Hq as [Hd Hq]. constructor; [|by apply IH].
  rewrite length_app, Hc, Hd. done.
Qed.

Lemma extend_assoc p q r : extend (extend p q) r = extend p (extend q r).
Proof.
  revert q r. induction p as [|a p IH]; intros [|b q] [|c r]; simpl; try done.
  unfold extend in *. simpl. by rewrite <- app_assoc, IH.
Qed.

Lemma extend_nil ch n p : shape ch n p → extend p (replicate ch []) = p.
Proof.
  intros [<- _]. unfold extend. induction p as [|a p IH]; simpl; [done|]. by rewrite app_nil_r, IH.
Qed.

Lemma extend_nil_l ch n p : shape ch n p → extend (replicate ch []) p = p.
Proof. intros [<- _]. unfold extend. induction p as [|a p IH]; simpl; [done|]. by rewrite IH. Qed.

Lemma extend_columns_app ch fs gs :
  Forall (λ f, length f = ch) fs → Forall (λ f, length f = ch) gs →
  columns ch (fs ++ gs) = extend (columns ch fs) (columns ch gs).
Proof.
  intros Hfs Hgs. induction Hfs as [|f fs Hf _ IH]; simpl.
  - by erewrite extend_nil_l by by apply shape_columns.
  - rewrite IH. unfold extend. clear. revert f.
    generalize (columns ch fs) (columns ch gs). intros p.
    induction p as [|a p IH]; intros [|b q] [|x f]; simpl; try done. by rewrite IH.
Qed.

Lemma push_frames_extend ch n p frames :
  shape ch n p → Forall (λ f, length f = ch) frames →
  foldl push_frame p frames = extend p (columns ch frames).
Proof.
  intros Hp Hfr. revert n p Hp. induction Hfr as [|f frames Hf Hfr IH]; intros n p Hp; simpl.
  - by erewrite extend_nil.
  - rewrite (IH (S n)).
    + unfold extend, push_frame. clear. revert f. generalize (columns ch frames).
      induction p as [|a p IH]; intros [|c q] [|x f]; simpl; try done.
      by rewrite IH, <- app_assoc.
    + destruct Hp as [Hp Hs]. split; [unfold push_frame; rewrite length_zip_with; lia|].
      unfold push_frame. clear -Hs. revert f. induction Hs as [|c p Hc Hs IH];
        intros [|x f]; simpl; auto. constructor; [|done]. rewrite length_app. simpl. lia.
Qed.

Lemma chunks_exact_fuel_spec n l : (0 < n)%nat → ∀ fuel k,
  length l = (k * n)%nat → (k ≤ fuel)%nat →
  Forall (λ f, length f = n) (chunks_exact_fuel fuel n l)
  ∧ length (chunks_exact_fuel fuel n l) = k ∧ concat (chunks_exact_fuel fuel n l) = l.
Proof.
  intros Hn fuel. revert l. induction fuel as [|fuel IH]; intros l k Hl Hk; simpl.
  - assert (k = 0%nat) as -> by lia. by apply nil_length_inv in Hl as ->.
  - destruct (Nat.leb_spec n (length l)) as [Hle|Hlt].
    + destruct k as [|k]; [lia|]. destruct (IH (drop n l) k) as (Hf & Hlen & Hc);
        [rewrite length_drop; lia|lia|]. simpl. rewrite Hlen, Hc, take_drop.
      split_and!; [|done|done]. constructor; [|done]. rewrite length_take. lia.
    + destruct k as [|k]; [|lia]. by apply nil_length_inv in Hl as ->.
Qed.

(** Cutting into equal frames is determined by what is cut. *)
Lemma chunks_exact_spec n l :
  (0 < n)%nat → (length l mod n = 0)%nat →
  Forall (λ f, length f = n) (chunks_exact n l) ∧ concat (chunks_exact n l) = l.
Proof.
  intros Hn Hm. pose proof (Nat.div_mod_eq (length l) n) as Hd.
  destruct (chunks_exact_fuel_spec n l Hn (length l) (length l / n)) as (? & _ & ?);
    [nia|nia|done].
Qed.

Lemma chunks_exact_app n l1 l2 :
  (0 < n)%nat → (length l1 mod n = 0)%nat → (length l2 mod n = 0)%nat →
  chunks_exact n (l1 ++ l2) = chunks_exact n l1 ++ chunks_exact n l2.
Proof.
  intros Hn H1 H2. destruct (chunks_exact_spec n l1 Hn H1) as [Hf1 Hc1].
  destruct (chunks_exact_spec n l2 Hn H2) as [Hf2 Hc2].
  destruct (chunks_exact_spec n (l1 ++ l2) Hn) as [Hf Hc].
  { rewrite length_app, Nat.Div0.add_mod, H1, H2. by apply Nat.Div0.mod_0_l. }
  apply (frames_inj n _ _ [] []); [done|by apply Forall_app|done|done|].
  by rewrite concat_app, Hc, Hc1, Hc2.
Qed.

(** ** Blocks *)

Lemma f_to_i16_range x : i16 (f_to_i16 x).
Proof.
  unfold i16, f_to_i16. destruct x as [| [] | |[] m e]; try lia;
    assert (0 ≤ f_trunc m e) by (unfold f_trunc; case_match;
      [apply Z.mul_nonneg_nonneg; lia|apply Z.div_pos; lia]); lia.
Qed.

Lemma interleave_shape ch n out :
  shape ch n out →
  ∃ b, interleave n out = Some b ∧ length b = (n * ch)%nat ∧ Forall i16 b.
Proof.
  intros [Hl Hs].
  assert (∀ l, Forall (λ i, i < n)%nat l → ∃ b,
    mapM (λ i, mapM (λ c : list float, f32_to_sample <$> c !! i) out) l = Some b
    ∧ length (concat b) = (length l * ch)%nat ∧ Forall i16 (concat b)) as Hm.
  { induction 1 as [|i l Hi Hl' (b & Hb & Hlen & H16)]; [by exists []|].
    destruct (mapM (λ c : list float, f32_to_sample <$> c !! i) out) as [row|] eqn:Hrow.
    - exists (row :: b). simpl. rewrite Hrow. simpl. rewrite Hb. split_and!; [done| |].
      + rewrite length_app, Hlen, <- (length_mapM _ _ _ Hrow). lia.
      + apply Forall_app. split; [|done]. apply mapM_Some_1 in Hrow.
        clear -Hrow. induction Hrow as [|c s out row Hc _ IH]; constructor; [|done].
        destruct (c !! i); [|done]. injection Hc as <-. apply f_to_i16_range.
    - apply mapM_None_1 in Hrow. apply Exists_exists in Hrow as (c & Hc & Hnone).
      apply fmap_None, lookup_ge_None in Hnone. rewrite Forall_forall in Hs.
      specialize (Hs c Hc). lia. }
  destruct (Hm (seq 0 n)) as (b & Hb & Hlen & H16).
  { apply Forall_seq. lia. }
  exists (concat b). unfold interleave. rewrite Hb, Hlen, length_seq. done.
Qed.

Section laws.
Context {L : RubatoLaws R}.

Definition needed (self : Resampler) : nat := rb_input_frames_next (rs_inner self).

(** [n] samples of each channel are pending. *)
Definition resampler_wf (self : Resampler) (n : nat) : Prop :=
  (0 < rs_channels self)%nat
  ∧ rb_valid (rs_channels self) (rs_out_frames_per_channel self) (rs_inner self)
  ∧ shape (rs_channels self) (rs_out_frames_per_channel self) (rs_out_f32 self)
  ∧ shape (rs_channels self) n (rs_pending_in self).

(** One round of the loop: the state after it and the block it adds. *)
Definition process (self : Resampler) : bool * list (list float) * rb_state :=
  rb_process (rs_inner self) (take (needed self) <$> rs_pending_in self) (rs_out_f32 self).
Definition round (self : Resampler) : Resampler :=
  mkResampler (process self).2 (rs_in_rate self) (rs_out_rate self) (rs_channels self)
    (rs_out_frames_per_channel self) (take (needed self) <$> rs_pending_in self)
    (process self).1.2 (drop (needed self) <$> rs_pending_in self).
Definition block (self : Resampler) : list Z :=
  default [] (interleave (rs_out_frames_per_channel self) (process self).1.2).

Lemma wf_hd self n : resampler_wf self n → length (hd [] (rs_pending_in self)) = n.
Proof.
  intros (Hc & _ & _ & Hl & Hs). destruct (rs_pending_in self) as [|c p]; [simpl in Hl; lia|].
  by apply Forall_cons in Hs as [Hs _].
Qed.

Lemma shape_take ch n k p : shape ch n p → (k ≤ n)%nat → shape ch k (take k <$> p).
Proof.
  intros [Hl Hs] Hk. split; [by rewrite length_fmap|]. apply Forall_fmap.
  eapply Forall_impl; [exact Hs|]. intros c Hc. cbn in *. rewrite length_take. lia.
Qed.

Lemma shape_drop ch n k p : shape ch n p → shape ch (n - k) (drop k <$> p).
Proof.
  intros [Hl Hs]. split; [by rewrite length_fmap|]. apply Forall_fmap.
  eapply Forall_impl; [exact Hs|]. intros c Hc. cbn in *. rewrite length_drop. lia.
Qed.

Lemma loop_stop self n fuel acc :
  resampler_wf self n → (n < needed self)%nat →
  resample_loop (S fuel) self acc = Some (Val (Ok acc, self)).
Proof.
  intros Hwf Hn. simpl. rewrite (wf_hd _ _ Hwf). fold (needed self).
  by rewrite (proj2 (Nat.ltb_lt _ _)).
Qed.

Lemma loop_round self n :
  resampler_wf self n → (needed self ≤ n)%nat →
  (∀ fuel acc, resample_loop (S fuel) self acc = resample_loop fuel (round self) (acc ++ block self))
  ∧ resampler_wf (round self) (n - needed self)
  ∧ (rb_stored (rs_inner (round self)) + rs_out_frames_per_channel self
     ≤ rb_stored (rs_inner self) + rb_yield * needed self)%nat
  ∧ length (block self) = out_block_size self ∧ Forall i16 (block self).
Proof.
  intros Hwf Hn. pose proof (wf_hd _ _ Hwf) as Hhd. destruct Hwf as (Hc & Hv & Ho & Hp).
  destruct (rb_process_valid _ _ _ (take (needed self) <$> rs_pending_in self) (rs_out_f32 self) Hv)
    as (out' & st' & Hproc & Hout' & Hv' & Hst'); [by eapply shape_take|done|].
  destruct (interleave_shape _ _ _ Hout') as (b & Hb & Hblen & Hb16).
  assert (process self = (true, out', st')) as Hpr by done.
  unfold block, round. rewrite Hpr. simpl. rewrite Hb. simpl.
  split; [|split; [|done]].
  - intros fuel acc. rewrite Hhd. fold (needed self).
    rewrite (proj2 (Nat.ltb_ge _ _)) by done.
    replace (forallb _ _) with true.
    + simpl. rewrite Hproc. simpl. by rewrite Hb.
    + symmetry. apply forallb_forall. intros c Hin%list_elem_of_In. apply Nat.leb_le.
      destruct Hp as [_ Hp]. rewrite Forall_forall in Hp. rewrite (Hp c Hin). done.
  - split_and!; [done..|]. by eapply shape_drop.
Qed.

(** The rounds of one call, to their end. *)
Inductive drains : Resampler → list Z → Resampler → Prop :=
  | drains_stop self n :
      resampler_wf self n → (n < needed self)%nat → drains self [] self
  | drains_round self n o self' :
      resampler_wf self n → (needed self ≤ n)%nat → drains (round self) o self' →
      drains self (block self ++ o) self'.

(** With a positive frame count every round takes at least one of the frames
    that are stored or can be made of the pending input. *)
Lemma drains_total self n :
  (0 < rs_out_frames_per_channel self)%nat → resampler_wf self n → ∃ o self', drains self o self'.
Proof.
  remember (rb_stored (rs_inner self) + rb_yield * n)%nat as m eqn:Hm. revert self n Hm.
  induction m as [m IH] using lt_wf_ind. intros self n -> Hf Hwf.
  destruct (decide (needed self ≤ n)%nat) as [Hle|Hlt];
    [|exists [], self; by apply (drains_stop _ n); [|lia]].
  destruct (loop_round self n Hwf Hle) as (_ & Hwf' & Hst & _).
  edestruct (IH (rb_stored (rs_inner (round self)) + rb_yield * (n - needed self))%nat)
    as (o & self' & Hd); [|reflexivity|exact Hf|exact Hwf'|].
  { rewrite Nat.mul_sub_distr_l. pose proof (Nat.mul_le_mono_l _ _ rb_yield Hle). lia. }
  exists (block self ++ o), self'. by eapply drains_round.
Qed.

(** With no frames to return, a resampler that asks for nothing keeps the loop
    running: [push] does not return. *)
Lemma zero_frames_spin self n fuel acc :
  (∀ st, rb_valid (rs_channels self) (rs_out_frames_per_channel self) st →
     rb_input_frames_next st = 0%nat) →
  resampler_wf self n → resample_loop fuel self acc = None.
Proof.
  revert self n acc. induction fuel as [|fuel IH]; intros self n acc Hz Hwf; [done|].
  assert (needed self = 0%nat) as Hn by apply Hz, Hwf.
  destruct (loop_round self n Hwf ltac:(lia)) as (Hl & Hwf' & _). rewrite Hl. by eapply IH.
Qed.

Lemma drains_loop self o self' :
  drains self o self' →
  ∃ F, ∀ fuel acc, (F ≤ fuel)%nat → resample_loop fuel self acc = Some (Val (Ok (acc ++ o), self')).
Proof.
  induction 1 as [self n Hwf Hn|self n o self' Hwf Hn _ (F & IH)].
  - exists 1%nat. intros [|fuel] acc Hf; [lia|]. rewrite app_nil_r. by eapply loop_stop.
  - exists (S F). intros [|fuel] acc Hf; [lia|].
    destruct (loop_round self n Hwf Hn) as (Hl & _). by rewrite Hl, IH, app_assoc by lia.
Qed.

Definition add (self : Resampler) (more : list (list float)) : Resampler :=
  with_pending self (extend (rs_pending_in self) more).

Lemma extend_take_drop ch n k m p q :
  shape ch n p → shape ch m q → (k ≤ n)%nat →
  take k <$> extend p q = take k <$> p ∧ drop k <$> extend p q = extend (drop k <$> p) q.
Proof.
  intros [Hp Hps] [Hq _] Hk. assert (length p = length q) as Hl by lia. clear Hp Hq.
  unfold extend. revert q Hl. induction Hps as [|c p Hc _ IH]; intros [|d q] Hl;
    simpl in *; [done..|]. destruct (IH q) as [IH1 IH2]; [lia|].
  split; f_equal; rewrite ?take_app_le, ?drop_app_le by (simpl in *; lia); auto.
Qed.

Lemma wf_add self n m more :
  resampler_wf self n → shape (rs_channels self) m more → resampler_wf (add self more) (n + m).
Proof. intros (?&?&?&?) ?. split_and!; [done..|]. by apply shape_extend. Qed.

Lemma round_add self n m more :
  resampler_wf self n → (needed self ≤ n)%nat → shape (rs_channels self) m more →
  round (add self more) = add (round self) more ∧ block (add self more) = block self.
Proof.
  intros (_ & _ & _ & Hp) Hn Hm.
  destruct (extend_take_drop _ n (needed self) m _ _ Hp Hm Hn) as [Ht Hd].
  assert (process (add self more) = process self) as Hpr.
  { unfold process, needed, add, with_pending in *. simpl. by rewrite Ht. }
  unfold round, block. rewrite Hpr. split; [|done].
  unfold needed, add, with_pending in *. simpl. by rewrite Ht, Hd.
Qed.

(** Draining, adding input and draining again is adding all input first. *)
Lemma drains_add self o self' m more o' self'' :
  drains self o self' → shape (rs_channels self) m more →
  drains (add self' more) o' self'' → drains (add self more) (o ++ o') self''.
Proof.
  intros Hd Hm Hd'. induction Hd as [self n Hwf Hn|self n o self' Hwf Hn Hd IH]; [done|].
  destruct (round_add self n m more Hwf Hn Hm) as [Hr Hb].
  rewrite <- app_assoc, <- Hb. eapply drains_round; [by eapply wf_add|unfold needed in *; simpl; lia|].
  rewrite Hr. by apply IH.
Qed.

(** What stays the same and what a call leaves. *)
Lemma drains_post self o self' :
  drains self o self' →
  rs_channels self' = rs_channels self
  ∧ rs_out_frames_per_channel self' = rs_out_frames_per_channel self
  ∧ (∃ n, resampler_wf self' n ∧ (n < needed self')%nat)
  ∧ (∃ k, length o = (k * out_block_size self)%nat) ∧ Forall i16 o.
Proof.
  induction 1 as [self n Hwf Hn|self n o self' Hwf Hn _ (IH1 & IH2 & IH3 & (k & IH4) & IH5)].
  - split_and!; [done..|by exists n|by exists 0%nat|done].
  - destruct (loop_round self n Hwf Hn) as (_ & _ & _ & Hbl & Hb). split_and!; [done..| |].
    + exists (S k). rewrite length_app, Hbl, IH4. unfold out_block_size. simpl. lia.
    + by apply Forall_app.
Qed.

(** Successive calls, their outputs one after the other. *)
Fixpoint pushes (fuel : nat) (self : Resampler) (parts : list (list Z)) (acc : list Z) :
    option (checked (result IoError (list Z) * Resampler)) :=
  match parts with
  | [] => Some (Val (Ok acc, self))
  | p :: parts =>
      match resample_push fuel self p with
      | Some (Val (Ok o, self)) => pushes fuel self parts (acc ++ o)
      | r => r
      end
  end.

Lemma pushes_snoc fuel q parts : ∀ self acc o self',
  pushes fuel self parts acc = Some (Val (Ok o, self')) →
  pushes fuel self (parts ++ [q]) acc = pushes fuel self' [q] o.
Proof.
  induction parts as [|p parts IH]; intros self acc o self'; simpl; [naive_solver|].
  destruct (resample_push fuel self p) as [[[[o1|e1] s1]|]|]; [apply IH|done..].
Qed.

Definition lanes (self : Resampler) (samples : list Z) : list (list float) :=
  columns (rs_channels self) (chunks_exact (rs_channels self) samples).

Lemma shape_lanes self samples :
  (0 < rs_channels self)%nat → (length samples mod rs_channels self = 0)%nat →
  ∃ m, shape (rs_channels self) m (lanes self samples).
Proof.
  intros Hc Hm. eexists. by apply shape_columns, chunks_exact_spec.
Qed.

Lemma resample_push_loop self n samples fuel :
  resampler_wf self n → (length samples mod rs_channels self = 0)%nat →
  resample_push fuel self samples = resample_loop fuel (add self (lanes self samples)) [].
Proof.
  intros (Hc & _ & _ & Hp) Hm. unfold resample_push. rewrite Hm, Nat.eqb_refl. simpl.
  by rewrite (push_frames_extend _ _ _ _ Hp) by by apply chunks_exact_spec.
Qed.

Lemma concat_mod (ch : nat) (parts : list (list Z)) :
  Forall (λ p, length p mod ch = 0)%nat parts → (length (concat parts) mod ch = 0)%nat.
Proof.
  induction 1 as [|x l Hx _ IH]; [by apply Nat.Div0.mod_0_l|].
  simpl. rewrite length_app, Nat.Div0.add_mod, Hx, IH. by apply Nat.Div0.mod_0_l.
Qed.

Lemma resample_push_drains self n samples :
  (0 < rs_out_frames_per_channel self)%nat → resampler_wf self n → (length samples mod rs_channels self = 0)%nat →
  ∃ F o self', drains (add self (lanes self samples)) o self'
    ∧ ∀ fuel, (F ≤ fuel)%nat → resample_push fuel self samples = Some (Val (Ok o, self')).
Proof.
  intros Hf Hwf Hm. assert (0 < rs_channels self)%nat as Hc by apply Hwf.
  destruct (shape_lanes self samples Hc Hm) as (m & Hs).
  destruct (drains_total (add self (lanes self samples)) (n + m) Hf (wf_add _ _ _ _ Hwf Hs))
    as (o & self' & Hd).
  destruct (drains_loop _ _ _ Hd) as (F & HF). exists F, o, self'. split; [done|].
  intros fuel Hfuel. rewrite (resample_push_loop _ n) by done. exact (HF fuel [] Hfuel).
Qed.

Lemma pushes_drains self n p parts :
  (0 < rs_out_frames_per_channel self)%nat → resampler_wf self n →
  Forall (λ p, length p mod rs_channels self = 0)%nat (p :: parts) →
  ∃ F o self', drains (add self (lanes self (concat (p :: parts)))) o self'
    ∧ ∀ fuel, (F ≤ fuel)%nat → pushes fuel self (p :: parts) [] = Some (Val (Ok o, self')).
Proof.
  intros Hf Hwf. assert (0 < rs_channels self)%nat as Hc by apply Hwf.
  induction parts as [|q parts IH] using rev_ind; intros Hall.
  - simpl. rewrite app_nil_r. apply Forall_cons in Hall as [Hp _].
    destruct (resample_push_drains self n p Hf Hwf Hp) as (F & o & self' & Hd & HF).
    exists F, o, self'. split; [done|]. intros fuel Hfuel. by rewrite HF.
  - change (p :: parts ++ [q]) with ((p :: parts) ++ [q]) in *.
    apply Forall_app in Hall as [Hall Hq]. rewrite Forall_singleton in Hq.
    destruct (IH Hall) as (F & o & self' & Hd & HF).
    destruct (drains_post _ _ _ Hd) as (Hch & Hfr & (n' & Hwf' & _) & _).
    simpl in Hch, Hfr. rewrite <- Hfr in Hf.
    destruct (resample_push_drains self' n' q Hf Hwf') as (F' & o' & self'' & Hd' & HF').
    { by rewrite Hch. }
    destruct (shape_lanes self q Hc Hq) as (m & Hs).
    exists (F + F')%nat, (o ++ o'), self''. split.
    + assert (lanes self' q = lanes self q) as Hl by (unfold lanes; by rewrite Hch).
      rewrite Hl in Hd'. pose proof (drains_add _ _ _ _ _ _ _ Hd Hs Hd') as Hd2.
      pose proof (concat_mod _ _ Hall) as Hcat.
      unfold add, with_pending in Hd2. simpl in Hd2. rewrite extend_assoc in Hd2.
      rewrite concat_app. simpl concat at 2. rewrite app_nil_r.
      unfold lanes in *. rewrite chunks_exact_app, extend_columns_app;
        [done|by apply chunks_exact_spec..|done|done|done].
    + intros fuel Hfuel. rewrite (pushes_snoc _ _ _ _ _ o self') by (apply HF; lia).
      simpl. by rewrite HF' by lia.
Qed.

End laws.
End resampler.

(** ** A resampler between equal rates *)

Definition passthrough : Rubato := {|
  rb_state := nat;
  rb_new in_rate out_rate n _ _ := if in_rate =? out_rate then Some n else None;
  rb_input_frames_next n := n;
  rb_process n inp _ := (true, inp, n);
|}.

#[export] Instance passthrough_laws : RubatoLaws passthrough.
Proof.
  refine {| rb_valid _ n (st : @rb_state passthrough) := @eq nat st n;
            rb_stored _ := 0%nat; rb_yield := 1%nat |}.
  - intros i o n sub ch st Hnew. simpl in *. by destruct (i =? o); simplify_eq.
  - intros ch n st inp out -> Hi Ho. exists inp, n. split_and!; [done..|simpl; lia].
Defined.

Definition stereo : result IoError (Resampler (R := passthrough)) :=
  Resampler_new (R := passthrough) 48000 48000 2 2.


(** The constructor accepts a frame count of 0; [push] then never returns, not
    even for no input at all. *)
Example zero_frames_never_return self fuel :
  Resampler_new (R := passthrough) 48000 48000 2 0 = Ok self → resample_push fuel self [] = None.
Proof.
  intros [= <-]. unfold resample_push. cbn [negb rs_channels length].
  apply (zero_frames_spin _ 0).
  - intros st Hst. exact Hst.
  - split_and!; [cbn; lia|done|..]; (split; [done|repeat constructor]).
Qed.
