(* ===== verification/Ffi.v ===== *)
(** * The C interface

    Models [gravital-talk-ffi/src/lib.rs]: opaque handles to heap-allocated
    sessions, status codes, the thread's last error, and every exported
    function with its pointer checks.  A pointer is the address of a session
    ([0] is null), or an [option] of what it points to.  A call returns, does
    not return (the session call it blocks on does not), is undefined
    behaviour, or aborts because a panic reached the C boundary. *)

From S2P Require Import Prelude.
From S2P Require Import CoreTypes.
From S2P Require Import Text.
From S2P Require Import SessionFsm.
From S2P Require Import Crypto.
From S2P Require Import JitterBuffer.
From S2P Require Import Ieee.
From S2P Require Import Metrics.
From S2P Require Import Transport.
From S2P Require Import NetAddr.
From S2P Require Import Session.
From S2P Require Import Handshake.
From S2P Require Import Stun.
From S2P Require Import StunClient.
From S2P Require Import Udp.
From stdpp Require Import gmap strings list.
#[local] Open Scope Z_scope.

(** ** Data *)

Inductive GsStatus : Type :=
  | GS_OK
  | GS_ERR_NULL_POINTER
  | GS_ERR_INVALID_ARGUMENT
  | GS_ERR_IO
  | GS_ERR_TIMEOUT
  | GS_ERR_HANDSHAKE
  | GS_ERR_PROTOCOL
  | GS_ERR_INVALID_STATE
  | GS_ERR_CLOSED
  | GS_ERR_BUFFER_TOO_SMALL
  | GS_ERR_INTERNAL.

#[export] Instance GsStatus_eq_dec : EqDecision GsStatus.
Proof. solve_decision. Defined.

Definition GsStatus_code (s : GsStatus) : Z :=
  match s with
  | GS_OK => 0
  | GS_ERR_NULL_POINTER => -1
  | GS_ERR_INVALID_ARGUMENT => -2
  | GS_ERR_IO => -3
  | GS_ERR_TIMEOUT => -4
  | GS_ERR_HANDSHAKE => -5
  | GS_ERR_PROTOCOL => -6
  | GS_ERR_INVALID_STATE => -7
  | GS_ERR_CLOSED => -8
  | GS_ERR_BUFFER_TOO_SMALL => -9
  | GS_ERR_INTERNAL => -99
  end.

Definition GsSessionState_from (s : SessionState) : Z :=
  match s with
  | Idle => 0
  | Handshaking => 1
  | Active => 2
  | Paused => 3
  | Closing => 4
  | Closed => 5
  | SError => 6
  | Reconnecting => 7
  end.

Definition GS_ABI_VERSION : Z := 1.
Definition gs_protocol_version : Z := PROTOCOL_VERSION.
Definition gs_abi_version : Z := GS_ABI_VERSION.
Definition gs_ping : Z := 0.

Record GsConfig : Type := mkGsConfig {
  gc_sample_rate : Z;
  gc_channels : Z;
  gc_frame_duration_ms : Z;
  gc_max_bitrate : Z;
  gc_codec_preferred : Z;
  gc_capability_flags : Z;
  gc_jitter_buffer_ms : Z;
  gc_mtu : Z;
}.

Definition RustConfig_from (c : GsConfig) : Config :=
  mkConfig (gc_sample_rate c) (gc_channels c) (gc_frame_duration_ms c) (gc_max_bitrate c)
    (gc_codec_preferred c) [1; 2] (gc_capability_flags c) (gc_jitter_buffer_ms c)
    (Z.to_nat (gc_mtu c)).

Record GsMetrics : Type := mkGsMetrics {
  gm_rtt_ms : float;
  gm_jitter_ms : float;
  gm_loss_percent : float;
  gm_reorder_percent : float;
  gm_buffer_fill_percent : float;
  gm_estimated_mos : float;
  gm_packets_sent : Z;
  gm_packets_received : Z;
  gm_bytes_sent : Z;
  gm_bytes_received : Z;
}.

Definition GsMetrics_from (s : MetricsSnapshot) : GsMetrics :=
  mkGsMetrics (ms_rtt_ms s) (ms_jitter_ms s) (ms_loss_percent s) (ms_reorder_percent s)
    (ms_buffer_fill_percent s) (ms_estimated_mos s) (ms_packets_sent s) (ms_packets_received s)
    (ms_bytes_sent s) (ms_bytes_received s).

(** [(occupied as f32 / self.capacity as f32) * 100.0] *)
Definition JitterBuffer_fill_percent (self : JitterBuffer) : float :=
  f32_mul (f32_div (f32_of_Z (Z.of_nat (JitterBuffer_occupied self))) (f32_of_Z (jb_capacity self)))
    (f32_of_Z 100).

(** What the text of the last error says. *)
Inductive FfiError : Type :=
  | FeRuntime (what : string)
  | FeBind (e : TransportError)
  | FeSession (call : string) (e : TransportError)
  | FeStun (e : StunError).

(** A session on the heap; [si_id] tells which socket it has. *)
Record SessionInner : Type := mkSessionInner {
  si_id : nat;
  si_world : World;
}.

(** The process: the sessions on the heap, the thread's last error, and the
    number of calls made and of sessions created. *)
Record Ffi : Type := mkFfi {
  ff_heap : gmap Z SessionInner;
  ff_last_error : option FfiError;
  ff_calls : nat;
  ff_created : nat;
}.

(** What the process runs on: whether the runtime of a call can be built, the
    socket calls and the network of the [n]-th session, the allocator, and
    the randomness of each call.  The limits bound how long a blocking call
    is followed. *)
Class FfiHost `{Kex} : Type := {
  fh_runtime : nat → bool;
  fh_sockets : nat → Sockets;
  fh_env : nat → Env;
  fh_local_addr : nat → result TransportError SocketAddr;
  fh_alloc : gset Z → Z;
  fh_client_random : nat → ClientRandom;
  fh_server_random : nat → nat → ServerRandom;
  fh_stun : nat → StunEnv;
  fh_fuel : nat;
  fh_attempts : nat;
}.

(** An allocation is not null and not in use. *)
Class FfiHostLaws `{FfiHost} : Prop := {
  fh_alloc_fresh X : fh_alloc X ∉ X;
  fh_alloc_nonnull X : fh_alloc X ≠ 0;
}.

(** ** Calls *)

Inductive fres (A : Type) : Type :=
  | Returns (a : A)
  | Blocks
  | Undefined
  | Aborts.
Arguments Returns {A} a.
Arguments Blocks {A}.
Arguments Undefined {A}.
Arguments Aborts {A}.

Definition FM (A : Type) : Type := Ffi → Ffi * fres A.

#[export] Instance FM_ret : MRet FM := λ A a st, (st, Returns a).
#[export] Instance FM_bind : MBind FM := λ A B f m st,
  let '(st, r) := m st in
  match r with
  | Returns a => f a st
  | Blocks => (st, Blocks)
  | Undefined => (st, Undefined)
  | Aborts => (st, Aborts)
  end.

Definition undefined {A} : FM A := λ st, (st, Undefined).
Definition aborts {A} : FM A := λ st, (st, Aborts).
Definition with_heap (st : Ffi) (heap : gmap Z SessionInner) : Ffi :=
  mkFfi heap (ff_last_error st) (ff_calls st) (ff_created st).
Definition set_last_error (e : FfiError) : FM unit := λ st,
  (mkFfi (ff_heap st) (Some e) (ff_calls st) (ff_created st), Returns tt).
Definition gs_error_last : FM (option FfiError) := λ st, (st, Returns (ff_last_error st)).
Definition gs_error_clear : FM unit := λ st,
  (mkFfi (ff_heap st) None (ff_calls st) (ff_created st), Returns tt).

(** [&*(handle as *mut SessionInner)] *)
Definition deref (handle : Z) : FM SessionInner := λ st,
  (st, match ff_heap st !! handle with Some inner => Returns inner | None => Undefined end).

(** [std::slice::from_raw_parts(data, len)]: the pointer must not be null and
    must be good for [len] bytes. *)
Definition from_raw_parts (data : option (list Z)) (len : nat) : FM (list Z) :=
  match data with
  | Some mem => if (len <=? length mem)%nat then mret (take len mem) else undefined
  | None => undefined
  end.

Definition is_null {A} (p : option A) : bool := match p with Some _ => false | None => true end.

Section ffi.
Context `{Aead} `{FfiHost}.

(** [runtime.block_on(op)] on the session of a handle; [None] when [op] is
    still running. *)
Definition block_on {A} (handle : Z) (op : Env → SM (option A)) : FM (result TransportError A) :=
  λ st,
  match ff_heap st !! handle with
  | None => (st, Undefined)
  | Some inner =>
      let '(w, r) := op (fh_env (si_id inner)) (si_world inner) in
      (with_heap st (<[handle := mkSessionInner (si_id inner) w]> (ff_heap st)),
       match r with
       | Done (Some a) => Returns (Ok a)
       | Done None => Blocks
       | Fail e => Returns (Err e)
       | Crash => Aborts
       end)
  end.

Definition always {A} (m : SM A) : SM (option A) := a ← m; mret (Some a).

(** An operation, its last error and its status. *)
Definition report {A} (call : string) (status : GsStatus) (r : result TransportError A) :
    FM GsStatus :=
  match r with
  | Ok _ => mret GS_OK
  | Err e => _ ← set_last_error (FeSession call e); mret status
  end.

Definition gs_config_default (out : bool) : GsStatus * option GsConfig :=
  if negb out then (GS_ERR_NULL_POINTER, None)
  else
    let d := Config_default in
    (GS_OK, Some (mkGsConfig (cfg_sample_rate d) (cfg_channels d) (cfg_frame_duration_ms d)
       (cfg_max_bitrate d) (cfg_codec_preferred d) (cfg_capability_flags d)
       (cfg_jitter_buffer_ms d) (wrap32 (Z.of_nat (cfg_mtu d))))).

Definition call_number : FM nat := λ st, (st, Returns (ff_calls st)).

(** [Box::into_raw(Box::new(inner))] *)
Definition box_into_raw (session : Session) : FM Z := λ st,
  let handle := fh_alloc (dom (ff_heap st)) in
  (mkFfi (<[handle := mkSessionInner (ff_created st) (mkWorld session [] 0 0)]> (ff_heap st))
     (ff_last_error st) (ff_calls st) (S (ff_created st)), Returns handle).

(** The text of [bind_addr]; empty text is the unspecified address. *)
Definition bind_ip (addr : list Z) : option IpAddr :=
  s ← from_utf8 addr;
  match parse_ip_addr s with
  | Some ip => Some ip
  | None => if decide (s = []) then Some (V4 [0; 0; 0; 0]) else None
  end.

Definition gs_session_create (config : option GsConfig) (bind_addr : option (list Z))
    (bind_port : Z) (out_handle : bool) : FM (GsStatus * option Z) :=
  match config, bind_addr, out_handle with
  | Some cfg_c, Some addr, true =>
      match bind_ip addr with
      | None => mret (GS_ERR_INVALID_ARGUMENT, None)
      | Some ip =>
          n ← call_number;
          if negb (fh_runtime n) then
            _ ← set_last_error (FeRuntime "failed to build runtime"); mret (GS_ERR_INTERNAL, None)
          else
            let udp := mkUdpConfig (mkSocketAddr ip bind_port) None DEFAULT_SOCKET_BUFFER RealTime
              true None in
            match UdpTransport_bind (H := fh_sockets n) udp with
            | Err e => _ ← set_last_error (FeBind e); mret (GS_ERR_IO, None)
            | Ok _ =>
                match Session_new (RustConfig_from cfg_c) with
                | Panic => aborts
                | Val session =>
                    handle ← box_into_raw session;
                    mret (GS_OK, Some handle)
                end
            end
      end
  | _, _, _ => mret (GS_ERR_NULL_POINTER, None)
  end.

(** Dropping the box: the session is gone. *)
Definition box_drop (handle : Z) : FM unit := λ st,
  (with_heap st (delete handle (ff_heap st)), Returns tt).

Definition gs_session_destroy (handle : Z) : FM unit :=
  if handle =? 0 then mret tt
  else _ ← deref handle; box_drop handle.

Definition peer_ip (addr : list Z) : option IpAddr := s ← from_utf8 addr; parse_ip_addr s.

Definition handshake (role : SessionRole) (n : nat) (peer : SocketAddr) (env : Env) : SM unit :=
  match role with
  | Client => handshake_as_client (H := env) fh_fuel (fh_client_random n) peer
  | Server => handshake_as_server (H := env) fh_fuel (fh_server_random n 0) peer
  end.

Definition handshake_common (handle : Z) (peer_addr : option (list Z)) (peer_port : Z)
    (role : SessionRole) : FM GsStatus :=
  match peer_addr with
  | Some addr =>
      if handle =? 0 then mret GS_ERR_NULL_POINTER
      else
        _ ← deref handle;
        match peer_ip addr with
        | None => mret GS_ERR_INVALID_ARGUMENT
        | Some ip =>
            n ← call_number;
            r ← block_on handle (λ env, always (handshake role n (mkSocketAddr ip peer_port) env));
            report "handshake" GS_ERR_HANDSHAKE r
        end
  | None => mret GS_ERR_NULL_POINTER
  end.

Definition gs_session_connect (handle : Z) (peer_addr : option (list Z)) (peer_port : Z) :
    FM GsStatus := handshake_common handle peer_addr peer_port Client.
Definition gs_session_accept (handle : Z) (peer_addr : option (list Z)) (peer_port : Z) :
    FM GsStatus := handshake_common handle peer_addr peer_port Server.

Definition gs_session_accept_any (handle : Z) : FM GsStatus :=
  if handle =? 0 then mret GS_ERR_NULL_POINTER
  else
    n ← call_number;
    r ← block_on handle (λ env,
          handshake_open (H := env) fh_attempts fh_fuel (fh_server_random n));
    match r with
    | Ok _ => mret GS_OK
    | Err (TePeerClosed _) | Err TeClosed => mret GS_ERR_CLOSED
    | Err e => _ ← set_last_error (FeSession "accept_any" e); mret GS_ERR_HANDSHAKE
    end.

Definition gs_session_send_audio (handle : Z) (data : option (list Z)) (len : nat) : FM GsStatus :=
  if (handle =? 0) || (is_null data && negb (len =? 0)%nat) then mret GS_ERR_NULL_POINTER
  else
    _ ← deref handle;
    payload ← from_raw_parts data len;
    r ← block_on handle (λ env, always (send_audio (H := env) payload));
    report "send_audio" GS_ERR_IO r.

(** [buf] is the number of bytes that can be written there; the bytes
    written and the new [*len_inout] are returned. *)
Definition gs_session_recv_audio (handle : Z) (buf : option nat) (len_inout : option nat) :
    FM (GsStatus * list Z * option nat) :=
  match buf, len_inout with
  | Some mem, Some cap =>
      if handle =? 0 then mret (GS_ERR_NULL_POINTER, [], Some cap)
      else
        r ← block_on handle (λ env, recv_audio (H := env) fh_fuel);
        match r with
        | Err e =>
            _ ← set_last_error (FeSession "recv_audio" e); mret (GS_ERR_IO, [], Some cap)
        | Ok frame =>
            let n := length (fr_payload frame) in
            if (cap <? n)%nat then mret (GS_ERR_BUFFER_TOO_SMALL, [], Some n)
            else if (mem <? n)%nat then undefined
            else mret (GS_OK, fr_payload frame, Some n)
        end
  | _, _ => mret (GS_ERR_NULL_POINTER, [], len_inout)
  end.

Definition gs_session_close (handle : Z) : FM GsStatus :=
  if handle =? 0 then mret GS_ERR_NULL_POINTER
  else _ ← block_on handle (λ env, always (close (H := env))); mret GS_OK.

Definition gs_session_ptt_press (handle : Z) : FM GsStatus :=
  if handle =? 0 then mret GS_ERR_NULL_POINTER
  else
    r ← block_on handle (λ env, always (ptt_press (H := env)));
    report "ptt_press" GS_ERR_IO r.

Definition gs_session_ptt_release (handle : Z) : FM GsStatus :=
  if handle =? 0 then mret GS_ERR_NULL_POINTER
  else
    r ← block_on handle (λ env, always (ptt_release (H := env)));
    report "ptt_release" GS_ERR_IO r.

(** The functions that only read: [read] is what goes to the pointer. *)
Definition read_session {A} (handle : Z) (out : bool) (read : SessionInner → A) :
    FM (GsStatus * option A) :=
  if (handle =? 0) || negb out then mret (GS_ERR_NULL_POINTER, None)
  else inner ← deref handle; mret (GS_OK, Some (read inner)).

Definition gs_session_state (handle : Z) (out : bool) : FM (GsStatus * option Z) :=
  read_session handle out (λ i, GsSessionState_from (sm_state (s_state (w_sess (si_world i))))).
Definition gs_session_id (handle : Z) (out : bool) : FM (GsStatus * option Z) :=
  read_session handle out (λ i, s_session_id (w_sess (si_world i))).
Definition gs_session_local_ssrc (handle : Z) (out : bool) : FM (GsStatus * option Z) :=
  read_session handle out (λ i, s_local_ssrc (w_sess (si_world i))).
Definition gs_session_metrics (handle : Z) (out : bool) : FM (GsStatus * option GsMetrics) :=
  read_session handle out (λ i,
    let s := w_sess (si_world i) in
    GsMetrics_from (Metrics_snapshot (s_metrics s) (JitterBuffer_fill_percent (s_jitter s)))).

Definition gs_session_is_peer_ptt_active (handle : Z) : FM Z :=
  if handle =? 0 then mret 0
  else
    inner ← deref handle;
    mret (if s_peer_ptt_active (w_sess (si_world inner)) then 1 else 0).

Definition gs_session_local_port (handle : Z) (out : bool) : FM (GsStatus * option Z) :=
  if (handle =? 0) || negb out then mret (GS_ERR_NULL_POINTER, None)
  else
    inner ← deref handle;
    match fh_local_addr (si_id inner) with
    | Ok addr => mret (GS_OK, Some (sa_port addr))
    | Err e => _ ← set_last_error (FeSession "local_addr" e); mret (GS_ERR_IO, None)
    end.

(** [out_buf] is the number of bytes that can be written there. *)
Definition gs_discover_public_addr (local_port : Z) (out_buf : option nat) (buf_len : nat) :
    FM (GsStatus * list Z) :=
  match out_buf with
  | Some mem =>
      if (buf_len <? 8)%nat then mret (GS_ERR_NULL_POINTER, [])
      else
        n ← call_number;
        if negb (fh_runtime n) then
          _ ← set_last_error (FeRuntime "runtime"); mret (GS_ERR_INTERNAL, [])
        else
          match discover_public_addr (H := fh_stun n) local_port with
          | Panic => aborts
          | Val (_, Ok addr) =>
              let bytes := show_socket_addr addr in
              if (buf_len <? length bytes + 1)%nat then mret (GS_ERR_BUFFER_TOO_SMALL, [])
              else if (mem <? length bytes + 1)%nat then undefined
              else mret (GS_OK, bytes ++ [0])
          | Val (_, Err e) => _ ← set_last_error (FeStun e); mret (GS_ERR_TIMEOUT, [])
          end
  | None => mret (GS_ERR_NULL_POINTER, [])
  end.
End ffi.
