(* ===== verification/ErrorText.v ===== *)
(** * The texts of errors

    The [Display] implementations of [gravital-talk-core/src/error.rs] and
    [floor.rs], of [gravital-talk-transport/src/error.rs] and [stun.rs], and
    the message that [gs_error_last] of [gravital-talk-ffi/src/lib.rs] gives a
    C caller.  The text of an error of the operating system is the class
    [IoText]. *)

From S2P Require Import Prelude.
From S2P Require Import Text.
From S2P Require Import CoreTypes.
From S2P Require Import Floor.
From S2P Require Import Transport.
From S2P Require Import StunClient.
From S2P Require Import Ffi.
From stdpp Require Import strings list.
#[local] Open Scope Z_scope.

(** ** Texts *)

(** One digit of [{:X}]. *)
Definition upper_hex (n : Z) : Z := if n <? 10 then 48 + n else 55 + n.
(** [{t:02X}] of a byte. *)
Definition show_02X (t : Z) : list Z := [upper_hex (t / 16); upper_hex (t mod 16)].

Definition Error_display (self : Error) : list Z :=
  match self with
  | TooShort => ascii_bytes "buffer shorter than header size"
  | BadMagic => ascii_bytes "magic bytes mismatch"
  | ProtocolMismatch => ascii_bytes "unsupported protocol version"
  | LengthMismatch => ascii_bytes "payload length does not match buffer"
  | BadChecksum => ascii_bytes "CRC-16 checksum mismatch"
  | UnknownMessageType t => ascii_bytes "unknown message type: 0x" ++ show_02X t
  | BufferTooSmall => ascii_bytes "output buffer too small"
  | PayloadTooLarge => ascii_bytes "payload exceeds maximum size"
  | TooManyFragments => ascii_bytes "fragment count exceeds maximum"
  | FragmentOutOfRange => ascii_bytes "fragment index out of range"
  | DuplicateFragment => ascii_bytes "duplicate fragment received"
  | IncompleteReassembly => ascii_bytes "cannot pop incomplete reassembly"
  | InvalidStateTransition => ascii_bytes "invalid session state transition"
  | MalformedPayload => ascii_bytes "malformed payload structure"
  | DecryptionFailed => ascii_bytes "AEAD decryption/authentication failed"
  | ReservedFieldNonZero => ascii_bytes "reserved header bytes must be zero"
  | VersionNegotiationFailed => ascii_bytes "protocol version negotiation failed"
  end.

Definition FloorState_display (self : FloorState) : list Z :=
  match self with
  | FsIdle => ascii_bytes "idle"
  | FsRequested => ascii_bytes "requested"
  | FsGranted => ascii_bytes "granted"
  | FsReleased => ascii_bytes "released"
  end.

(** [#[derive(Debug)]]: the names of the variants. *)
Definition FloorState_debug (self : FloorState) : list Z :=
  match self with
  | FsIdle => ascii_bytes "Idle"
  | FsRequested => ascii_bytes "Requested"
  | FsGranted => ascii_bytes "Granted"
  | FsReleased => ascii_bytes "Released"
  end.
Definition FloorEvent_debug (self : FloorEvent) : list Z :=
  match self with
  | FeRequest => ascii_bytes "Request"
  | FeGrant => ascii_bytes "Grant"
  | FeDeny => ascii_bytes "Deny"
  | FeRelease => ascii_bytes "Release"
  | FeTaken => ascii_bytes "Taken"
  | FeTimeout => ascii_bytes "Timeout"
  | FeReset => ascii_bytes "Reset"
  end.
Definition FloorTransitionError_display (self : FloorTransitionError) : list Z :=
  ascii_bytes "invalid floor transition " ++ FloorState_debug (fte_from self)
  ++ ascii_bytes " + " ++ FloorEvent_debug (fte_event self).

(** The texts of an [io::Error] and of an error of name resolution. *)
Class IoText : Type := {
  io_text : list Z;
  resolve_text : list Z;
}.

Section texts.
Context `{IoText}.

Definition TransportError_display (self : TransportError) : list Z :=
  match self with
  | TeIo => ascii_bytes "I/O error: " ++ io_text
  | TeTimeout => ascii_bytes "operation timed out"
  | TeClosed => ascii_bytes "transport is closed"
  | TeBufferTooSmall needed have =>
      ascii_bytes "buffer too small: need " ++ show needed ++ ascii_bytes ", have " ++ show have
  | TeProtocol e => ascii_bytes "protocol error: " ++ Error_display e
  | TeHandshake why => ascii_bytes "handshake failed: " ++ ascii_bytes why
  | TeInvalidState why => ascii_bytes "invalid state: " ++ ascii_bytes why
  | TePeerClosed why => ascii_bytes "peer closed session: " ++ ascii_bytes why
  | TeAuthenticationFailed why =>
      ascii_bytes "handshake authentication failed: " ++ ascii_bytes why
  end.

Definition StunError_display (self : StunError) : list Z :=
  match self with
  | SeIo => ascii_bytes "I/O error: " ++ io_text
  | SeTimeout => ascii_bytes "all STUN servers timed out or failed"
  | SeMalformed => ascii_bytes "malformed STUN response"
  | SeResolve => ascii_bytes "STUN resolve error: " ++ resolve_text
  end.

(** The messages given to [set_last_error]. *)
Definition last_error_message (e : FfiError) : list Z :=
  match e with
  | FeRuntime what => ascii_bytes what ++ ascii_bytes ": " ++ io_text
  | FeBind e => ascii_bytes "bind failed: " ++ TransportError_display e
  | FeSession call e => ascii_bytes call ++ ascii_bytes ": " ++ TransportError_display e
  | FeStun e => ascii_bytes "STUN: " ++ StunError_display e
  end.
End texts.

(** [CString::new(msg)], which fails on a zero byte, as the C caller reads it. *)
Definition last_error_cstring (msg : list Z) : list Z :=
  if existsb (λ b, b =? 0) msg then ascii_bytes "invalid error message" else msg.

(** ** Theorems *)

Lemma upper_hex_inj m n : 0 ≤ m < 16 → 0 ≤ n < 16 → upper_hex m = upper_hex n → m = n.
Proof. unfold upper_hex. intros Hm Hn. destruct (Z.ltb_spec m 10), (Z.ltb_spec n 10); lia. Qed.

Lemma show_02X_inj t t' : u8 t → u8 t' → show_02X t = show_02X t' → t = t'.
Proof.
  unfold u8, show_02X. intros Ht Ht' [= E1 E2].
  apply upper_hex_inj in E1; [|split; [apply Z.div_pos; lia|apply Z.div_lt_upper_bound; lia]..].
  apply upper_hex_inj in E2; [|apply Z.mod_pos_bound; lia..].
  rewrite (Z.div_mod t 16), (Z.div_mod t' 16) by lia. congruence.
Qed.

(** The bytes an error carries are those of its type. *)
Definition error_typed (e : Error) : Prop :=
  match e with UnknownMessageType t => u8 t | _ => True end.

(** The text of a protocol error tells which one it is. *)
Theorem error_display_injective e e' :
  error_typed e → error_typed e' → Error_display e = Error_display e' → e = e'.
Proof.
  intros He He' E.
  assert (take 13 (Error_display e) = take 13 (Error_display e')) as E' by by rewrite E.
  destruct e, e'; try reflexivity; try discriminate E'.
  f_equal. apply show_02X_inj; [done|done|]. by apply (app_inv_head (ascii_bytes "unknown message type: 0x")).
Qed.

(** No zero byte. *)
Definition no_nul (l : list Z) : Prop := Forall (λ b, b ≠ 0) l.

Definition transport_plain (e : TransportError) : Prop :=
  match e with
  | TeBufferTooSmall needed have => 0 ≤ needed ∧ 0 ≤ have
  | TeProtocol e => error_typed e
  | TeHandshake why | TeInvalidState why | TePeerClosed why | TeAuthenticationFailed why =>
      no_nul (ascii_bytes why)
  | _ => True
  end.
Definition ffi_plain (e : FfiError) : Prop :=
  match e with
  | FeRuntime what => no_nul (ascii_bytes what)
  | FeBind e => transport_plain e
  | FeSession call e => no_nul (ascii_bytes call) ∧ transport_plain e
  | FeStun _ => True
  end.

Lemma no_nul_app l k : no_nul l → no_nul k → no_nul (l ++ k).
Proof. intros. by apply Forall_app. Qed.
Lemma no_nul_true l : forallb (λ b, negb (b =? 0)) l = true → no_nul l.
Proof.
  intros Hl. apply Forall_forall. intros b Hb ->. rewrite forallb_forall in Hl.
  specialize (Hl 0). discriminate Hl. by apply list_elem_of_In.
Qed.
Lemma no_nul_show n : 0 ≤ n → no_nul (show n).
Proof.
  intros Hn. eapply Forall_impl; [by apply show_digits|]. intros b Hb ->. discriminate Hb.
Qed.
Lemma no_nul_02X t : u8 t → no_nul (show_02X t).
Proof.
  unfold u8, show_02X, upper_hex. intros Ht.
  pose proof (Z.div_pos t 16). pose proof (Z.mod_pos_bound t 16).
  repeat constructor; case_match; lia.
Qed.

Ltac plain_text :=
  repeat match goal with
  | H : ?P |- ?P => exact H
  | |- no_nul (_ ++ _) => apply no_nul_app
  | |- no_nul (show _) => apply no_nul_show; assumption
  | |- no_nul (show_02X _) => apply no_nul_02X; assumption
  | |- no_nul (ascii_bytes _) => apply no_nul_true; vm_compute; reflexivity
  end.

Lemma no_nul_error e : error_typed e → no_nul (Error_display e).
Proof. intros Ht. destruct e; unfold Error_display; unfold error_typed in Ht; plain_text. Qed.

Lemma no_nul_transport `{IoText} e :
  no_nul io_text → transport_plain e → no_nul (TransportError_display e).
Proof.
  intros Hio He. destruct e as [| | |needed have|e| | | |]; unfold TransportError_display;
    unfold transport_plain in He; try (by plain_text).
  - destruct He. plain_text.
  - apply no_nul_app; [plain_text|by apply no_nul_error].
Qed.

(** Every error a session call reports reaches the C caller as its message:
    the conversion to a C string never replaces it, when the texts of the
    operating system and of the calls have no zero byte. *)
Theorem last_error_reaches_caller `{IoText} e :
  no_nul io_text → no_nul resolve_text → ffi_plain e →
  last_error_cstring (last_error_message e) = last_error_message e.
Proof.
  intros Hio Hres He. assert (no_nul (last_error_message e)) as Hn.
  { destruct e as [what|e|call e|e]; unfold last_error_message; unfold ffi_plain in He.
    - plain_text.
    - apply no_nul_app; [plain_text|by apply no_nul_transport].
    - destruct He. plain_text. by apply no_nul_transport.
    - destruct e; unfold StunError_display; plain_text. }
  unfold last_error_cstring. destruct (existsb _ _) eqn:E; [|done].
  apply existsb_exists in E as (b & Hb & Hz%Z.eqb_eq). unfold no_nul in Hn.
  rewrite Forall_forall in Hn. by destruct (Hn b); [apply list_elem_of_In|].
Qed.
