(* ===== verification/Jni.v ===== *)
(** * The Java interface

    Models [gravital-talk-ffi/src/jni_bridge.rs]: the functions Android calls,
    as they call the C interface.  A handle is a [jlong], a Java string or
    array an [option] of its contents ([None] when it cannot be read); whether
    the virtual machine can make a new object is the class [Jvm]. *)

From S2P Require Import Prelude.
From S2P Require Import CoreTypes.
From S2P Require Import Text.
From S2P Require Import Ieee.
From S2P Require Import Crypto.
From S2P Require Import Transport.
From S2P Require Import Session.
From S2P Require Import Handshake.
From S2P Require Import Ffi.
From stdpp Require Import gmap strings list.
#[local] Open Scope Z_scope.

Class Jvm : Type := { jvm_new : nat → bool }.

Section jni.
Context `{Aead} `{FfiHost} `{Jvm}.

Definition status_jint (s : GsStatus) : Z := GsStatus_code s.

(** [new_string] or [byte_array_from_slice]; null when it fails. *)
Definition java_new {A} (a : A) : FM (option A) :=
  n ← call_number; mret (if jvm_new n then Some a else None).

Definition nativeCreate (sample_rate channels bind_port : Z) : FM Z :=
  let cfg := mkGsConfig (wrap32 sample_rate) (wrap8 channels) 20 64000 1 0 60 1200 in
  r ← gs_session_create (Some cfg) (Some (ascii_bytes "0.0.0.0")) (wrap16 bind_port) true;
  mret (match r with (GS_OK, Some handle) => handle | _ => 0 end).

Definition nativeDestroy (handle : Z) : FM unit :=
  if negb (handle =? 0) then gs_session_destroy handle else mret tt.

(** [CString::new] refuses a string with a NUL in it. *)
Definition c_string (s : list Z) : option (list Z) :=
  if decide (0 ∈ s) then None else Some s.

(** The host name of [nativeConnect] and [nativeAccept]. *)
Definition jni_host (host : option (list Z)) : option (list Z) := s ← host; c_string s.

Definition nativeConnect (handle : Z) (host : option (list Z)) (port : Z) : FM Z :=
  if handle =? 0 then mret (status_jint GS_ERR_NULL_POINTER)
  else
    match jni_host host with
    | None => mret (status_jint GS_ERR_INVALID_ARGUMENT)
    | Some c_host =>
        st ← gs_session_connect handle (Some c_host) (wrap16 port); mret (status_jint st)
    end.

Definition nativeAccept (handle : Z) (peer_host : option (list Z)) (peer_port : Z) : FM Z :=
  if handle =? 0 then mret (status_jint GS_ERR_NULL_POINTER)
  else
    match jni_host peer_host with
    | None => mret (status_jint GS_ERR_INVALID_ARGUMENT)
    | Some c_host =>
        st ← gs_session_accept handle (Some c_host) (wrap16 peer_port); mret (status_jint st)
    end.

Definition nativeSendAudio (handle : Z) (pcm : option (list Z)) : FM Z :=
  if handle =? 0 then mret (status_jint GS_ERR_NULL_POINTER)
  else
    match pcm with
    | None => mret (status_jint GS_ERR_INVALID_ARGUMENT)
    | Some bytes =>
        st ← gs_session_send_audio handle (Some bytes) (length bytes); mret (status_jint st)
    end.

Definition nativeRecvAudio (handle : Z) : FM (option (list Z)) :=
  if handle =? 0 then mret None
  else
    r ← gs_session_recv_audio handle (Some 4096%nat) (Some 4096%nat);
    match r with
    | (GS_OK, buf, Some len) => java_new (take len (buf ++ replicate (4096 - length buf) 0))
    | _ => mret None
    end.

Definition nativePttPress (handle : Z) : FM Z :=
  if handle =? 0 then mret (status_jint GS_ERR_NULL_POINTER)
  else st ← gs_session_ptt_press handle; mret (status_jint st).

Definition nativePttRelease (handle : Z) : FM Z :=
  if handle =? 0 then mret (status_jint GS_ERR_NULL_POINTER)
  else st ← gs_session_ptt_release handle; mret (status_jint st).

Definition nativeIsPeerPttActive (handle : Z) : FM Z :=
  if handle =? 0 then mret 0 else gs_session_is_peer_ptt_active handle.

Definition nativeGetMetrics (handle : Z) : FM (option (list float)) :=
  if handle =? 0 then java_new []
  else
    r ← gs_session_metrics handle true;
    match r with
    | (GS_OK, Some m) =>
        a ← java_new [gm_rtt_ms m; gm_jitter_ms m; gm_loss_percent m; gm_estimated_mos m];
        match a with Some vals => mret (Some vals) | None => java_new [] end
    | _ => java_new []
    end.

(** [id as jint] *)
Definition nativeGetSessionId (handle : Z) : FM Z :=
  if handle =? 0 then mret 0
  else
    r ← gs_session_id handle true;
    mret (match r with (GS_OK, Some id) => as_i32 id | _ => 0 end).

Definition nativeClose (handle : Z) : FM Z :=
  if handle =? 0 then mret (status_jint GS_ERR_NULL_POINTER)
  else st ← gs_session_close handle; mret (status_jint st).

Definition nativeGetLocalPort (handle : Z) : FM Z :=
  if handle =? 0 then mret 0
  else
    r ← gs_session_local_port handle true;
    mret (match r with (GS_OK, Some port) => port | _ => 0 end).

(** The bytes before the first NUL. *)
Fixpoint c_str (s : list Z) : list Z :=
  match s with
  | [] => []
  | b :: s => if b =? 0 then [] else b :: c_str s
  end.

Definition nativeDiscoverPublicAddr (bind_port : Z) : FM (option (list Z)) :=
  r ← gs_discover_public_addr (wrap16 bind_port) (Some 64%nat) 64;
  match r with
  | (GS_OK, buf) =>
      match from_utf8 (c_str buf) with
      | Some s => java_new s
      | None => mret None
      end
  | _ => mret None
  end.

Definition nativeAcceptAny (handle : Z) : FM Z :=
  if handle =? 0 then mret (status_jint GS_ERR_NULL_POINTER)
  else st ← gs_session_accept_any handle; mret (status_jint st).
End jni.
