(* ===== verification/FfiClient.v ===== *)
(** * Programs that use the C and the Java interface

    A client makes a sequence of calls; the theorems say what it may rely on:
    which sequences never run into undefined behaviour, that the session
    behind a handle is determined by the calls made with that handle, what
    the status codes and the last error tell, and that the Java interface
    makes only well-formed C calls. *)

From S2P Require Import Prelude.
From S2P Require Import CoreTypes.
From S2P Require Import Text.
From S2P Require Import Ieee.
From S2P Require Import JitterBuffer.
From S2P Require Import Crypto.
From S2P Require Import SessionFsm.
From S2P Require Import Transport.
From S2P Require Import NetAddr.
From S2P Require Import Session.
From S2P Require Import SessionSeq.
From S2P Require Import Handshake.
From S2P Require Import Agreement.
From S2P Require Import StunClient.
From S2P Require Import Udp.
From S2P Require Import Ffi.
From S2P Require Import Jni.
From stdpp Require Import gmap strings list.
#[local] Open Scope Z_scope.

(** ** Calls *)

Inductive FfiCall : Type :=
  | CCreate (config : option GsConfig) (bind_addr : option (list Z)) (bind_port : Z) (out : bool)
  | CDestroy (handle : Z)
  | CConnect (handle : Z) (peer_addr : option (list Z)) (peer_port : Z)
  | CAccept (handle : Z) (peer_addr : option (list Z)) (peer_port : Z)
  | CAcceptAny (handle : Z)
  | CSendAudio (handle : Z) (data : option (list Z)) (len : nat)
  | CRecvAudio (handle : Z) (buf len_inout : option nat)
  | CClose (handle : Z)
  | CPress (handle : Z)
  | CRelease (handle : Z)
  | CState (handle : Z) (out : bool)
  | CId (handle : Z) (out : bool)
  | CSsrc (handle : Z) (out : bool)
  | CMetrics (handle : Z) (out : bool)
  | CPort (handle : Z) (out : bool)
  | CPeerPtt (handle : Z)
  | CStun (local_port : Z) (out_buf : option nat) (buf_len : nat)
  | CErrorLast
  | CErrorClear.

(** What the client sees of a call: its status and a new handle. *)
Definition seen {A} (f : A → GsStatus * option Z) (m : FM A) : FM (GsStatus * option Z) :=
  a ← m; mret (f a).

Section client.
Context `{Aead} `{FfiHost}.

Definition ffi_call (c : FfiCall) : FM (GsStatus * option Z) :=
  match c with
  | CCreate config addr port out => gs_session_create config addr port out
  | CDestroy h => seen (λ _, (GS_OK, None)) (gs_session_destroy h)
  | CConnect h addr port => seen (λ s, (s, None)) (gs_session_connect h addr port)
  | CAccept h addr port => seen (λ s, (s, None)) (gs_session_accept h addr port)
  | CAcceptAny h => seen (λ s, (s, None)) (gs_session_accept_any h)
  | CSendAudio h data len => seen (λ s, (s, None)) (gs_session_send_audio h data len)
  | CRecvAudio h buf len => seen (λ r, (r.1.1, None)) (gs_session_recv_audio h buf len)
  | CClose h => seen (λ s, (s, None)) (gs_session_close h)
  | CPress h => seen (λ s, (s, None)) (gs_session_ptt_press h)
  | CRelease h => seen (λ s, (s, None)) (gs_session_ptt_release h)
  | CState h out => seen (λ r, (r.1, None)) (gs_session_state h out)
  | CId h out => seen (λ r, (r.1, None)) (gs_session_id h out)
  | CSsrc h out => seen (λ r, (r.1, None)) (gs_session_local_ssrc h out)
  | CMetrics h out => seen (λ r, (r.1, None)) (gs_session_metrics h out)
  | CPort h out => seen (λ r, (r.1, None)) (gs_session_local_port h out)
  | CPeerPtt h => seen (λ _, (GS_OK, None)) (gs_session_is_peer_ptt_active h)
  | CStun port buf len => seen (λ r, (r.1, None)) (gs_discover_public_addr port buf len)
  | CErrorLast => seen (λ _, (GS_OK, None)) gs_error_last
  | CErrorClear => seen (λ _, (GS_OK, None)) gs_error_clear
  end.

(** One call, counted. *)
Definition ffi_step (c : FfiCall) : FM (GsStatus * option Z) := λ st,
  let '(st, r) := ffi_call c st in
  (mkFfi (ff_heap st) (ff_last_error st) (S (ff_calls st)) (ff_created st), r).

Definition ffi_init : Ffi := mkFfi ∅ None 0 0.

(** ** The effect of a call on one session *)

Definition on_handle (h h' : Z) (f : World → World) (w : World) : World :=
  if decide (h = h') then f w else w.

(** What the [n]-th call does to the session behind [h]. *)
Definition call_effect (n : nat) (c : FfiCall) (h : Z) (env : Env) (w : World) : World :=
  match c with
  | CConnect h' (Some addr) port =>
      match peer_ip addr with
      | Some ip => on_handle h h' (λ w, (handshake Client n (mkSocketAddr ip port) env w).1) w
      | None => w
      end
  | CAccept h' (Some addr) port =>
      match peer_ip addr with
      | Some ip => on_handle h h' (λ w, (handshake Server n (mkSocketAddr ip port) env w).1) w
      | None => w
      end
  | CAcceptAny h' =>
      on_handle h h' (λ w,
        (handshake_open (H := env) fh_attempts fh_fuel (fh_server_random n) w).1) w
  | CSendAudio h' (Some mem) len =>
      on_handle h h' (λ w, (send_audio (H := env) (take len mem) w).1) w
  | CRecvAudio h' (Some _) (Some _) =>
      on_handle h h' (λ w, (recv_audio (H := env) fh_fuel w).1) w
  | CClose h' => on_handle h h' (λ w, (close (H := env) w).1) w
  | CPress h' => on_handle h h' (λ w, (ptt_press (H := env) w).1) w
  | CRelease h' => on_handle h h' (λ w, (ptt_release (H := env) w).1) w
  | _ => w
  end.

(** A computation that leaves the sessions and the counters alone. *)
Definition keeps {A} (m : FM A) : Prop := ∀ st,
  ff_heap (m st).1 = ff_heap st ∧ ff_calls (m st).1 = ff_calls st
  ∧ ff_created (m st).1 = ff_created st.

Lemma ffi_keeps_ret {A} (a : A) : keeps (mret a).
Proof. done. Qed.

Lemma ffi_keeps_bind {A B} (m : FM A) (f : A → FM B) :
  keeps m → (∀ a, keeps (f a)) → keeps (m ≫= f).
Proof.
  intros Hm Hf st. unfold mbind, FM_bind. specialize (Hm st).
  destruct (m st) as [st1 [a| | |]]; simpl in *; [|done..].
  destruct (Hf a st1) as (-> & -> & ->). done.
Qed.

Lemma keeps_report {A} call status (r : result TransportError A) : keeps (report call status r).
Proof. by destruct r. Qed.

Lemma keeps_read {A} h out (f : SessionInner → A) : keeps (read_session h out f).
Proof. unfold read_session. case_match; [done|]. by apply ffi_keeps_bind. Qed.

(** What a call does to the table of sessions: [f] to the one behind [h]. *)
Definition at_handle (h : Z) (f : SessionInner → SessionInner) (st st' : Ffi) : Prop :=
  ff_heap st' = alter f h (ff_heap st) ∧ ff_calls st' = ff_calls st
  ∧ ff_created st' = ff_created st.

Lemma block_on_at {A B} h (op : Env → SM (option A)) (k : result TransportError A → FM B) st :
  (∀ r, keeps (k r)) →
  at_handle h (λ i, mkSessionInner (si_id i) (op (fh_env (si_id i)) (si_world i)).1) st
    ((block_on h op ≫= k) st).1.
Proof.
  intros Hk. unfold at_handle, mbind, FM_bind, block_on.
  destruct (ff_heap st !! h) as [i|] eqn:Hi; simpl.
  2:{ split; [|done]. apply map_eq. intros h'. destruct (decide (h = h')) as [<-|];
        [by rewrite lookup_alter_eq, Hi|by rewrite lookup_alter_ne]. }
  destruct (op _ _) as [w r] eqn:Hop. destruct r as [[a|]|e|]; simpl;
    try match goal with |- context [k ?r ?s] => destruct (Hk r s) as (-> & -> & ->) end; simpl;
    split; try done; apply map_eq; intros h'; (destruct (decide (h = h')) as [<-|];
    [by rewrite lookup_insert_eq, lookup_alter_eq, Hi; simpl; rewrite Hop
    |by rewrite lookup_insert_ne, lookup_alter_ne]).
Qed.

Lemma keeps_at {A} h (m : FM A) st :
  keeps m → ff_heap st !! h = None → at_handle h id st (m st).1.
Proof.
  intros Hm Hh. destruct (Hm st) as (Hh1 & ? & ?). split; [|done]. rewrite Hh1.
  apply map_eq. intros h'. destruct (decide (h = h')) as [<-|];
    [by rewrite lookup_alter_eq, Hh|by rewrite lookup_alter_ne].
Qed.

(** The table after a call that neither makes nor destroys a session. *)
Definition session_after (n : nat) (c : FfiCall) (h : Z) (i : SessionInner) : SessionInner :=
  mkSessionInner (si_id i) (call_effect n c h (fh_env (si_id i)) (si_world i)).

Definition effect_on (c : FfiCall) (st st' : Ffi) : Prop :=
  ff_calls st' = ff_calls st ∧ ff_created st' = ff_created st
  ∧ ∀ h, ff_heap st' !! h = session_after (ff_calls st) c h <$> ff_heap st !! h.

Lemma effect_keeps {A} c (m : FM A) st :
  keeps m → (∀ h i, ff_heap st !! h = Some i → session_after (ff_calls st) c h i = i) →
  effect_on c st (m st).1.
Proof.
  intros Hm Hc. destruct (Hm st) as (Hh & ? & ?). split_and!; [done..|].
  intros h. rewrite Hh. destruct (ff_heap st !! h) eqn:Hi; simpl; [|done]. by rewrite Hc.
Qed.

Lemma effect_block_on {A B} c h (op : Env → SM (option A)) (k : result TransportError A → FM B) st :
  (∀ r, keeps (k r)) →
  (∀ env w, call_effect (ff_calls st) c h env w = (op env w).1) →
  (∀ h' env w, h' ≠ h → call_effect (ff_calls st) c h' env w = w) →
  effect_on c st ((block_on h op ≫= k) st).1.
Proof.
  intros Hk Hop Hne. destruct (block_on_at h op k st Hk) as (Hh & ? & ?).
  split_and!; [done..|]. intros h'. rewrite Hh. destruct (decide (h = h')) as [<-|Hd].
  - rewrite lookup_alter_eq. destruct (ff_heap st !! h); simpl; [|done].
    unfold session_after. by rewrite Hop.
  - rewrite lookup_alter_ne by done. destruct (ff_heap st !! h') as [[id w]|]; simpl; [|done].
    unfold session_after. by rewrite Hne.
Qed.

Lemma always_fst {A} (m : SM A) w : (always m w).1 = (m w).1.
Proof. unfold always, mbind, SM_bind. by destruct (m w) as [w' []]. Qed.

Lemma session_after_id n c h i :
  (∀ env w, call_effect n c h env w = w) → session_after n c h i = i.
Proof. intros Hc. unfold session_after. rewrite Hc. by destruct i. Qed.

Lemma seen_state {A} (f : A → GsStatus * option Z) m st : (seen f m st).1 = (m st).1.
Proof. unfold seen, mbind, FM_bind. by destruct (m st) as [st' []]. Qed.

Lemma seen_undefined {A} (f : A → GsStatus * option Z) m st :
  (seen f m st).2 = Undefined ↔ (m st).2 = Undefined.
Proof. unfold seen, mbind, FM_bind. by destruct (m st) as [st' []]. Qed.

Lemma bind_deref {B} h (K : SessionInner → FM B) st :
  (deref h ≫= K) st
  = match ff_heap st !! h with Some i => K i st | None => (st, Undefined) end.
Proof. unfold mbind, FM_bind, deref. by destruct (ff_heap st !! h). Qed.

Definition lives (c : FfiCall) : Prop :=
  match c with CCreate _ _ _ _ | CDestroy _ => False | _ => True end.

#[export] Instance lives_dec c : Decision (lives c).
Proof. destruct c; simpl; apply _. Defined.

Lemma effect_handshake role h addr port st c :
  ff_heap st !! 0 = None →
  (∀ h' env w, call_effect (ff_calls st) c h' env w =
     match addr ≫= peer_ip with
     | Some ip => on_handle h' h (λ w,
         (handshake role (ff_calls st) (mkSocketAddr ip port) env w).1) w
     | None => w
     end) →
  effect_on c st (handshake_common h addr port role st).1.
Proof.
  intros H0' Hc. unfold handshake_common.
  assert (∀ A (m : FM A), keeps m → h = 0 ∨ addr ≫= peer_ip = None → effect_on c st (m st).1) as Hk.
  { intros A m Hm Hor. apply effect_keeps; [done|]. intros h' i Hi. apply session_after_id.
    intros env w. rewrite Hc. destruct Hor as [->| ->]; [|done].
    case_match; [|done]. unfold on_handle. case_decide; [congruence|done]. }
  destruct addr as [addr|]; [|by apply Hk; [|right]].
  destruct (Z.eqb_spec h 0) as [->|Hh]; [by apply Hk; [|left]|].
  rewrite bind_deref. destruct (ff_heap st !! h) as [i|] eqn:Hi.
  2:{ split_and!; [done..|]. intros h'. destruct (ff_heap st !! h') as [[id w]|] eqn:Hi'; [|done].
      simpl. unfold session_after. rewrite Hc. case_match; [|done]. unfold on_handle.
      case_decide; [congruence|done]. }
  simpl in Hc. destruct (peer_ip addr) as [ip|] eqn:Hip; [|by apply Hk; [|right]].
  apply (effect_block_on c h (λ env, always (handshake role (ff_calls st) (mkSocketAddr ip port) env)));
    [intros r; apply keeps_report|..].
  - intros env w. rewrite Hc, always_fst. unfold on_handle. by rewrite decide_True.
  - intros h' env w Hne. rewrite Hc. unfold on_handle. by rewrite decide_False.
Qed.

(** The same for an operation that only needs its handle. *)
Lemma effect_operation {A B} c h (op : Env → SM (option A)) (k : result TransportError A → FM B)
    (null : B) st :
  ff_heap st !! 0 = None → (∀ r, keeps (k r)) →
  (∀ h' env w, call_effect (ff_calls st) c h' env w = on_handle h' h (λ w, (op env w).1) w) →
  effect_on c st ((if h =? 0 then mret null else block_on h op ≫= k) st).1.
Proof.
  intros H0' Hk Hc. destruct (Z.eqb_spec h 0) as [->|Hh].
  - apply effect_keeps; [apply ffi_keeps_ret|]. intros h' i Hi. apply session_after_id.
    intros env w. rewrite Hc. unfold on_handle. case_decide; [congruence|done].
  - apply effect_block_on; [done|..]; intros; rewrite Hc; unfold on_handle; by case_decide.
Qed.

Lemma keeps_discover port buf len : keeps (gs_discover_public_addr port buf len).
Proof.
  intros st. unfold gs_discover_public_addr, mbind, FM_bind, call_number. simpl.
  destruct buf; [|done]. case_match; [done|]. case_match; [done|].
  destruct (discover_public_addr port) as [[? []]|]; [|done|done]. repeat case_match; done.
Qed.

Lemma effect_send_audio h data len st :
  ff_heap st !! 0 = None → (gs_session_send_audio h data len st).2 ≠ Undefined →
  effect_on (CSendAudio h data len) st (gs_session_send_audio h data len st).1.
Proof.
  intros H0' Hu. unfold gs_session_send_audio in *. destruct (Z.eqb_spec h 0) as [->|Hh].
  { apply effect_keeps; [done|]. intros h' i Hi. apply session_after_id. intros env w.
    simpl. destruct data; [|done]. unfold on_handle. case_decide; [congruence|done]. }
  destruct data as [mem|]; simpl in *.
  2:{ destruct (len =? 0)%nat; simpl in *.
      - rewrite bind_deref in Hu. by destruct (ff_heap st !! h).
      - split_and!; [done..|]. intros h'. destruct (ff_heap st !! h') as [i|]; simpl; [|done].
        by rewrite session_after_id. }
  rewrite bind_deref in *. destruct (ff_heap st !! h) as [i|] eqn:Hi; [|done].
  destruct (len <=? length mem)%nat; [|done].
  apply (effect_block_on _ h (λ env, always (send_audio (H := env) (take len mem))));
    [intros r; apply keeps_report|..]; intros; simpl; unfold on_handle.
  - by rewrite decide_True, always_fst.
  - by rewrite decide_False.
Qed.

Lemma effect_recv_audio h buf len st :
  ff_heap st !! 0 = None →
  effect_on (CRecvAudio h buf len) st (gs_session_recv_audio h buf len st).1.
Proof.
  intros H0'. unfold gs_session_recv_audio.
  destruct buf as [mem|]; [|by apply effect_keeps; [|intros; apply session_after_id]].
  destruct len as [cap|]; [|by apply effect_keeps; [|intros; apply session_after_id]].
  apply effect_operation; [done|..|done]. intros [frame|e]; [|done].
  by repeat case_match.
Qed.

Lemma effect_accept_any h st :
  ff_heap st !! 0 = None → effect_on (CAcceptAny h) st (gs_session_accept_any h st).1.
Proof.
  intros H0'. unfold gs_session_accept_any. destruct (Z.eqb_spec h 0) as [->|Hh].
  - apply effect_keeps; [done|]. intros h' i Hi. apply session_after_id. intros env w.
    simpl. unfold on_handle. case_decide; [congruence|done].
  - apply (effect_block_on _ h (λ env, handshake_open (H := env) fh_attempts fh_fuel
      (fh_server_random (ff_calls st)))); [by intros [|[]]|..]; intros; simpl; unfold on_handle.
    + by rewrite decide_True.
    + by rewrite decide_False.
Qed.

(** A call that neither makes nor destroys a session changes the session
    behind its handle by its operation, and no other. *)
Lemma call_effect_on c st :
  ff_heap st !! 0 = None → lives c → (ffi_call c st).2 ≠ Undefined →
  effect_on c st (ffi_call c st).1.
Proof.
  intros H0' Hl Hu. destruct c; try done; cbn [ffi_call] in *; rewrite seen_state;
    rewrite seen_undefined in Hu;
    try (apply effect_keeps; [|intros; by apply session_after_id]).
  - apply effect_handshake; [done|]. intros. by destruct peer_addr.
  - apply effect_handshake; [done|]. intros. by destruct peer_addr.
  - by apply effect_accept_any.
  - by apply effect_send_audio.
  - by apply effect_recv_audio.
  - apply effect_operation; [done|by intros|]. intros. unfold on_handle. by rewrite always_fst.
  - apply effect_operation; [done|apply keeps_report|]. intros. unfold on_handle. by rewrite always_fst.
  - apply effect_operation; [done|apply keeps_report|]. intros. unfold on_handle. by rewrite always_fst.
  - apply keeps_read.
  - apply keeps_read.
  - apply keeps_read.
  - apply keeps_read.
  - unfold gs_session_local_port. case_match; [done|]. apply ffi_keeps_bind; [done|].
    intros i. by case_match.
  - unfold gs_session_is_peer_ptt_active. case_match; [done|]. by apply ffi_keeps_bind.
  - apply keeps_discover.
  - done.
  - done.
Qed.

(** Creating a session: it is new, or the table stays. *)
Lemma create_cases config addr port out st :
  (∃ r, ffi_call (CCreate config addr port out) st = r ∧ r.2 ≠ Undefined
     ∧ ff_heap r.1 = ff_heap st ∧ ff_calls r.1 = ff_calls st ∧ ff_created r.1 = ff_created st
     ∧ ∀ rep, r.2 = Returns rep → rep.2 = None)
  ∨ ∃ cfg session, config = Some cfg ∧ out = true ∧ Session_new (RustConfig_from cfg) = Val session
     ∧ ffi_call (CCreate config addr port out) st
       = (mkFfi (<[fh_alloc (dom (ff_heap st)) :=
                     mkSessionInner (ff_created st) (mkWorld session [] 0 0)]> (ff_heap st))
            (ff_last_error st) (ff_calls st) (S (ff_created st)),
          Returns (GS_OK, Some (fh_alloc (dom (ff_heap st))))).
Proof.
  cbn [ffi_call]. unfold gs_session_create.
  destruct config as [cfg|]; [|left; eexists; split; [done|]; naive_solver].
  destruct addr as [addr|]; [|left; eexists; split; [done|]; naive_solver].
  destruct out; [|left; eexists; split; [done|]; naive_solver].
  destruct (bind_ip addr) as [ip|]; [|left; eexists; split; [done|]; naive_solver].
  unfold mbind, FM_bind, call_number. simpl.
  destruct (fh_runtime _); simpl; [|left; eexists; split; [done|]; naive_solver].
  destruct (UdpTransport_bind _) as [t|e]; simpl; [|left; eexists; split; [done|]; naive_solver].
  destruct (Session_new _) as [session|] eqn:Hs; simpl;
    [|left; eexists; split; [done|]; naive_solver].
  right. by exists cfg, session.
Qed.

Lemma destroy_cases h st :
  ff_heap st !! 0 = None →
  ((ffi_call (CDestroy h) st).2 = Undefined ∧ h ≠ 0 ∧ ff_heap st !! h = None)
  ∨ (ffi_call (CDestroy h) st).2 = Returns (GS_OK, None)
    ∧ ff_heap (ffi_call (CDestroy h) st).1 = delete h (ff_heap st)
    ∧ ff_calls (ffi_call (CDestroy h) st).1 = ff_calls st
    ∧ ff_created (ffi_call (CDestroy h) st).1 = ff_created st.
Proof.
  intros H0'. cbn [ffi_call]. unfold gs_session_destroy, seen, mbind, FM_bind, deref.
  destruct (Z.eqb_spec h 0) as [->|Hh]; simpl.
  - right. by rewrite delete_id.
  - destruct (ff_heap st !! h) eqn:Hi; simpl; [by right|by left].
Qed.

(** ** Runs *)

Fixpoint ffi_run (calls : list FfiCall) (st : Ffi) : Ffi * fres unit :=
  match calls with
  | [] => (st, Returns tt)
  | c :: calls =>
      match ffi_step c st with
      | (st, Returns _) => ffi_run calls st
      | (st, Blocks) => (st, Blocks)
      | (st, Undefined) => (st, Undefined)
      | (st, Aborts) => (st, Aborts)
      end
  end.

Lemma ffi_run_snoc calls c : ∀ st st',
  ffi_run (calls ++ [c]) st = (st', Returns tt) →
  ∃ st1 rep, ffi_run calls st = (st1, Returns tt) ∧ ffi_step c st1 = (st', Returns rep).
Proof.
  induction calls as [|c' calls IH]; intros st st' Hr; simpl in Hr |- *.
  - exists st. destruct (ffi_step c st) as [st1 []]; naive_solver.
  - destruct (ffi_step c' st) as [st1 []]; naive_solver.
Qed.

Lemma ffi_run_snoc_ok calls c : ∀ st st1 st' rep,
  ffi_run calls st = (st1, Returns tt) → ffi_step c st1 = (st', Returns rep) →
  ffi_run (calls ++ [c]) st = (st', Returns tt).
Proof.
  induction calls as [|c' calls IH]; intros st st1 st' rep Hr Hs; simpl in Hr |- *.
  - injection Hr as ->. by rewrite Hs.
  - destruct (ffi_step c' st) as [st2 []]; [by eapply IH|done..].
Qed.

(** The calls from the [n]-th on, as the session behind [h] sees them. *)
Fixpoint session_trace (n : nat) (calls : list FfiCall) (h : Z) (env : Env) (w : World) : World :=
  match calls with
  | [] => w
  | c :: calls => session_trace (S n) calls h env (call_effect n c h env w)
  end.

Lemma session_trace_snoc calls c h env : ∀ n w,
  session_trace n (calls ++ [c]) h env w
  = call_effect (n + length calls) c h env (session_trace n calls h env w).
Proof.
  induction calls as [|c' calls IH]; intros n w; simpl; [by rewrite Nat.add_0_r|].
  by rewrite IH, Nat.add_succ_r.
Qed.

(** The session behind [h] after [calls]: the [k]-th call made it from its
    configuration and answered with [h], which named no session before, and
    the session has seen the later calls. *)
Definition made_by (calls : list FfiCall) (h : Z) (i : SessionInner) : Prop :=
  ∃ k cfg addr port session before after,
    calls !! k = Some (CCreate (Some cfg) addr port true)
    ∧ ffi_run (take k calls) ffi_init = (before, Returns tt)
    ∧ ffi_step (CCreate (Some cfg) addr port true) before = (after, Returns (GS_OK, Some h))
    ∧ ff_heap before !! h = None ∧ si_id i = ff_created before
    ∧ Session_new (RustConfig_from cfg) = Val session
    ∧ (CDestroy h ∉ drop (S k) calls)
    ∧ si_world i
      = session_trace (S k) (drop (S k) calls) h (fh_env (si_id i)) (mkWorld session [] 0 0).

Record ffi_inv (calls : list FfiCall) (st : Ffi) : Prop := {
  fi_run : ffi_run calls ffi_init = (st, Returns tt);
  fi_calls : ff_calls st = length calls;
  fi_null : ff_heap st !! 0 = None;
  fi_ids h i : ff_heap st !! h = Some i → (si_id i < ff_created st)%nat;
  fi_sockets h1 h2 i1 i2 : ff_heap st !! h1 = Some i1 → ff_heap st !! h2 = Some i2 →
    si_id i1 = si_id i2 → h1 = h2;
  fi_made h i : ff_heap st !! h = Some i → made_by calls h i;
}.

Lemma made_by_snoc calls c h i :
  made_by calls h i → c ≠ CDestroy h →
  made_by (calls ++ [c]) h (session_after (length calls) c h i).
Proof.
  intros (k & cfg & addr & port & session & before & after & Hk & Hr & Hst & Hn & Hid & Hs & Hd & Hw) Hc.
  pose proof (lookup_lt_Some _ _ _ Hk) as Hlt.
  exists k, cfg, addr, port, session, before, after. split_and!; try done.
  - by rewrite lookup_app_l.
  - by rewrite take_app_le by lia.
  - rewrite drop_app_le by lia. rewrite elem_of_app, list_elem_of_singleton. naive_solver.
  - rewrite drop_app_le, session_trace_snoc, length_drop by lia. simpl.
    rewrite <- Hw. f_equal. lia.
Qed.

Section laws.
Context `{!FfiHostLaws}.

Lemma ffi_inv_lives calls c st st' rep :
  lives c → ffi_inv calls st → ffi_step c st = (st', Returns rep) → ffi_inv (calls ++ [c]) st'.
Proof.
  intros Hl [Hrun Hn H0' Hid Hsock Hmade] Hs.
  pose proof (ffi_run_snoc_ok _ _ _ _ _ _ Hrun Hs) as Hrun'. unfold ffi_step in Hs.
  destruct (ffi_call c st) as [st1 r1] eqn:Hc. injection Hs as <- ->.
  destruct (call_effect_on c st H0' Hl) as (Hcalls & Hcr & Hh); rewrite Hc in *; [done|].
  simpl in *.
  assert (∀ h i', ff_heap st1 !! h = Some i' →
    ∃ i, ff_heap st !! h = Some i ∧ i' = session_after (length calls) c h i) as Hback.
  { intros h i' Hi. rewrite Hh in Hi. apply fmap_Some in Hi as (i & Hi & ->).
    exists i. by rewrite Hn. }
  split; simpl; [done|..].
  - rewrite length_app, Hcalls, Hn. simpl. lia.
  - by rewrite Hh, H0'.
  - intros h i' (i & Hi & ->)%Hback. rewrite Hcr. exact (Hid h i Hi).
  - intros h1 h2 i1 i2 (j1 & Hj1 & ->)%Hback (j2 & Hj2 & ->)%Hback Heq.
    exact (Hsock _ _ _ _ Hj1 Hj2 Heq).
  - intros h i' (i & Hi & ->)%Hback. apply made_by_snoc; [by apply Hmade|].
    intros ->. exact Hl.
Qed.

Lemma ffi_inv_create calls config addr port out st st' rep :
  ffi_inv calls st → ffi_step (CCreate config addr port out) st = (st', Returns rep) →
  ffi_inv (calls ++ [CCreate config addr port out]) st'.
Proof.
  intros [Hrun Hn H0' Hid Hsock Hmade] Hs.
  pose proof (ffi_run_snoc_ok _ _ _ _ _ _ Hrun Hs) as Hrun'.
  pose proof Hs as Hstep. unfold ffi_step in Hs.
  assert (∀ h i, ff_heap st !! h = Some i → made_by (calls ++ [CCreate config addr port out]) h i)
    as Hkept.
  { intros h i Hi. rewrite <- (session_after_id (length calls) (CCreate config addr port out) h i);
      [|done]. by apply made_by_snoc; [apply Hmade|]. }
  destruct (create_cases config addr port out st) as
    [(r & Hr & Hu & Hh & Hc & Hcr & Hrep)|(cfg & session & -> & -> & Hsess & Hr)]; rewrite Hr in Hs.
  - destruct r as [st1 r1]. injection Hs as <- ->. simpl in *.
    split; simpl; [done|..]; rewrite ?Hh, ?Hcr, ?Hc, ?length_app, ?Hn; simpl; eauto with lia.
  - injection Hs as <- <-. set (h0 := fh_alloc _) in *.
    assert (ff_heap st !! h0 = None) as Hnew by apply not_elem_of_dom, fh_alloc_fresh.
    split; simpl; [done|..].
    + rewrite length_app, Hn. simpl. lia.
    + rewrite lookup_insert_ne; [done|]. apply fh_alloc_nonnull.
    + intros h i [[<- <-]|[_ Hi]]%lookup_insert_Some; simpl; [lia|]. apply Hid in Hi. lia.
    + intros h1 h2 i1 i2 [[<- <-]|[_ Hi1]]%lookup_insert_Some [[<- <-]|[_ Hi2]]%lookup_insert_Some
        Heq; simpl in *; [done| | |by eapply Hsock].
      * apply Hid in Hi2. lia.
      * apply Hid in Hi1. lia.
    + intros h i [[<- <-]|[_ Hi]]%lookup_insert_Some; [|by apply Hkept].
      eexists (length calls), cfg, addr, port, session, st, _.
      rewrite drop_ge, take_app_length by (rewrite length_app; simpl; lia).
      split_and!; [|done|exact Hstep|done|done|done| |done].
      * rewrite lookup_app_r, Nat.sub_diag by lia. done.
      * apply not_elem_of_nil.
Qed.

Lemma ffi_inv_destroy calls h0 st st' rep :
  ffi_inv calls st → ffi_step (CDestroy h0) st = (st', Returns rep) →
  ffi_inv (calls ++ [CDestroy h0]) st'.
Proof.
  intros [Hrun Hn H0' Hid Hsock Hmade] Hs.
  pose proof (ffi_run_snoc_ok _ _ _ _ _ _ Hrun Hs) as Hrun'. unfold ffi_step in Hs.
  destruct (destroy_cases h0 st H0') as [(Hu & _)|(Hr & Hh & Hc & Hcr)];
    destruct (ffi_call (CDestroy h0) st) as [st1 r1]; simpl in *; [by subst|].
  injection Hs as <- ->.
  split; simpl; [done|..]; rewrite ?Hh, ?Hcr, ?Hc, ?length_app, ?Hn; simpl; [lia|..].
  - by rewrite lookup_delete_None; right.
  - intros h i [_ Hi]%lookup_delete_Some. eauto.
  - intros h1 h2 i1 i2 [_ Hi1]%lookup_delete_Some [_ Hi2]%lookup_delete_Some. eauto.
  - intros h i [Hne Hi]%lookup_delete_Some.
    rewrite <- (session_after_id (length calls) (CDestroy h0) h i); [|done].
    apply made_by_snoc; [by apply Hmade|]. congruence.
Qed.

Lemma ffi_inv_run calls : ∀ st,
  ffi_run calls ffi_init = (st, Returns tt) → ffi_inv calls st.
Proof.
  induction calls as [|c calls IH] using rev_ind; intros st Hr.
  - injection Hr as <-. split; [done|done|done|..]; intros *; simpl; rewrite lookup_empty; done.
  - apply ffi_run_snoc in Hr as (st1 & rep & Hr1 & Hs). specialize (IH _ Hr1).
    destruct c; try (eapply ffi_inv_lives; [|done..]; done).
    + by eapply ffi_inv_create.
    + by eapply ffi_inv_destroy.
Qed.

(** ** Defined behaviour *)

Definition handle_ok (live : gset Z) (h : Z) : Prop := h = 0 ∨ h ∈ live.

(** The pointers of a call are null or good, and an empty buffer to send is
    not given as null. *)
Definition call_ok (live : gset Z) (c : FfiCall) : Prop :=
  match c with
  | CCreate _ _ _ _ | CErrorLast | CErrorClear => True
  | CSendAudio h data len =>
      handle_ok live h
      ∧ match data with Some mem => (len ≤ length mem)%nat | None => len ≠ 0%nat end
  | CRecvAudio h buf len =>
      handle_ok live h
      ∧ match buf, len with Some mem, Some cap => (cap ≤ mem)%nat | _, _ => True end
  | CStun _ buf len => match buf with Some mem => (len ≤ mem)%nat | None => True end
  | CDestroy h | CConnect h _ _ | CAccept h _ _ | CAcceptAny h | CClose h | CPress h | CRelease h
  | CState h _ | CId h _ | CSsrc h _ | CMetrics h _ | CPort h _ | CPeerPtt h => handle_ok live h
  end.

(** The handles the client holds after a call. *)
Definition live_after (live : gset Z) (c : FfiCall) (rep : GsStatus * option Z) : gset Z :=
  match c, rep.2 with
  | CCreate _ _ _ _, Some h => {[h]} ∪ live
  | CDestroy h, _ => live ∖ {[h]}
  | _, _ => live
  end.

(** A client that keeps to the rules, with the handles it was given. *)
Fixpoint client_ok (live : gset Z) (st : Ffi) (calls : list FfiCall) : Prop :=
  match calls with
  | [] => True
  | c :: calls =>
      call_ok live c
      ∧ match ffi_step c st with
        | (st, Returns rep) => client_ok (live_after live c rep) st calls
        | _ => True
        end
  end.

#[export] Instance call_ok_dec live c : Decision (call_ok live c).
Proof.
  destruct c as [| | | | |? []|? [] []| | | | | | | | | |? []| |]; simpl;
    unfold handle_ok; apply _.
Defined.

#[export] Instance client_ok_dec live st calls : Decision (client_ok live st calls).
Proof.
  revert live st. induction calls as [|c calls IH]; intros live st; simpl; [apply _|].
  apply and_dec; [apply _|]. destruct (ffi_step c st) as [? []]; [apply IH|apply _..].
Defined.

Definition defined {A} (m : FM A) : Prop := ∀ st, (m st).2 ≠ Undefined.

Lemma defined_bind {A B} (m : FM A) (f : A → FM B) st :
  (m st).2 ≠ Undefined → (∀ a, defined (f a)) → ((m ≫= f) st).2 ≠ Undefined.
Proof.
  intros Hm Hf. unfold mbind, FM_bind. destruct (m st) as [st1 []]; simpl in *; [apply Hf|done..].
Qed.

Lemma defined_block_on {A B} h (op : Env → SM (option A)) (k : result TransportError A → FM B) st :
  is_Some (ff_heap st !! h) → (∀ r, defined (k r)) → ((block_on h op ≫= k) st).2 ≠ Undefined.
Proof.
  intros [i Hi] Hk. apply defined_bind; [|done]. unfold block_on. rewrite Hi.
  destruct (op _ _) as [w [[]| |]]; done.
Qed.

Lemma defined_report {A} call status (r : result TransportError A) : defined (report call status r).
Proof. by destruct r. Qed.

Lemma defined_deref {B} h (K : SessionInner → FM B) st :
  is_Some (ff_heap st !! h) → (∀ i, defined (K i)) → ((deref h ≫= K) st).2 ≠ Undefined.
Proof. intros [i Hi] HK. rewrite bind_deref, Hi. apply HK. Qed.

Lemma defined_handshake role h addr port st :
  h = 0 ∨ is_Some (ff_heap st !! h) → (handshake_common h addr port role st).2 ≠ Undefined.
Proof.
  intros Hh. unfold handshake_common. destruct addr as [addr|]; [|done].
  destruct (Z.eqb_spec h 0); [done|]. destruct Hh as [|Hh]; [done|].
  destruct Hh as [i Hi]. rewrite bind_deref, Hi. destruct (peer_ip addr) as [ip|]; [|done].
  apply (defined_block_on h (λ env, always (handshake role (ff_calls st) (mkSocketAddr ip port) env)));
    [by exists i|]. intros r. apply defined_report.
Qed.

Lemma defined_read {A} h out (f : SessionInner → A) st :
  h = 0 ∨ is_Some (ff_heap st !! h) → (read_session h out f st).2 ≠ Undefined.
Proof.
  intros Hh. unfold read_session. destruct (Z.eqb_spec h 0); [done|]. destruct Hh as [|Hh]; [done|].
  destruct out; [|done]. by apply defined_deref.
Qed.

Lemma defined_send_audio h data len st :
  h = 0 ∨ is_Some (ff_heap st !! h) →
  match data with Some mem => (len ≤ length mem)%nat | None => len ≠ 0%nat end →
  (gs_session_send_audio h data len st).2 ≠ Undefined.
Proof.
  intros Hh Hd. unfold gs_session_send_audio. destruct (Z.eqb_spec h 0); [done|].
  destruct Hh as [|[i Hi]]; [done|]. destruct data as [mem|]; simpl.
  - rewrite bind_deref, Hi. rewrite (proj2 (Nat.leb_le _ _) Hd).
    apply (defined_block_on h (λ env, always (send_audio (H := env) (take len mem))));
      [by exists i|]. intros r. apply defined_report.
  - by rewrite (proj2 (Nat.eqb_neq _ _) Hd).
Qed.

Lemma defined_recv_audio h buf len st :
  h = 0 ∨ is_Some (ff_heap st !! h) →
  match buf, len with Some mem, Some cap => (cap ≤ mem)%nat | _, _ => True end →
  (gs_session_recv_audio h buf len st).2 ≠ Undefined.
Proof.
  intros Hh Hd. unfold gs_session_recv_audio. destruct buf as [mem|]; [|done].
  destruct len as [cap|]; [|done]. destruct (Z.eqb_spec h 0); [done|]. destruct Hh as [|Hh]; [done|].
  apply defined_block_on; [done|]. intros [frame|e] st'; [|done].
  destruct (Nat.ltb_spec cap (length (fr_payload frame))); [done|].
  by rewrite (proj2 (Nat.ltb_ge _ _)) by lia.
Qed.

Lemma defined_discover port buf len st :
  match buf with Some mem => (len ≤ mem)%nat | None => True end →
  (gs_discover_public_addr port buf len st).2 ≠ Undefined.
Proof.
  intros Hd. unfold gs_discover_public_addr, mbind, FM_bind, call_number.
  destruct buf as [mem|]; [|done]. case_match; [done|]. simpl. case_match; [done|].
  destruct (discover_public_addr port) as [[? [addr|]]|]; [|done|done].
  destruct (Nat.ltb_spec len (length (show_socket_addr addr) + 1)); [done|].
  by rewrite (proj2 (Nat.ltb_ge _ _)) by lia.
Qed.

Lemma call_defined live c st :
  live = dom (ff_heap st) → call_ok live c → (ffi_call c st).2 ≠ Undefined.
Proof.
  intros -> Hc.
  assert (∀ h, handle_ok (dom (ff_heap st)) h → h = 0 ∨ is_Some (ff_heap st !! h)) as Hh.
  { intros h [?|?%elem_of_dom]; auto. }
  destruct c; cbn [ffi_call call_ok] in *; rewrite ?seen_undefined; try done;
    try (by apply defined_read, Hh); try (by apply defined_handshake, Hh).
  - destruct (create_cases config bind_addr bind_port out st) as
      [(r & Hr & Hu & _)|(cfg & session & _ & _ & _ & Hr)]; cbn [ffi_call] in Hr;
      rewrite Hr; done.
  - unfold gs_session_destroy. case_match; [done|]. destruct (Hh _ Hc); [lia|].
    by apply defined_deref.
  - unfold gs_session_accept_any. destruct (Z.eqb_spec handle 0); [done|].
    destruct (Hh _ Hc) as [|Hs]; [done|].
    apply (defined_block_on handle (λ env, handshake_open (H := env) fh_attempts fh_fuel
      (fh_server_random (ff_calls st)))); [done|]. by intros [|[]].
  - destruct Hc. apply defined_send_audio; [by apply Hh|done].
  - destruct Hc. apply defined_recv_audio; [by apply Hh|done].
  - unfold gs_session_close. destruct (Z.eqb_spec handle 0); [done|].
    destruct (Hh _ Hc); [done|]. by apply defined_block_on.
  - unfold gs_session_ptt_press. destruct (Z.eqb_spec handle 0); [done|].
    destruct (Hh _ Hc); [done|]. apply defined_block_on; [done|]. intros. apply defined_report.
  - unfold gs_session_ptt_release. destruct (Z.eqb_spec handle 0); [done|].
    destruct (Hh _ Hc); [done|]. apply defined_block_on; [done|]. intros. apply defined_report.
  - unfold gs_session_local_port. destruct (Z.eqb_spec handle 0); [done|].
    destruct (Hh _ Hc); [done|]. destruct out; [|done]. apply defined_deref; [done|].
    intros i st'. by case_match.
  - unfold gs_session_is_peer_ptt_active. destruct (Z.eqb_spec handle 0); [done|].
    destruct (Hh _ Hc); [done|]. by apply defined_deref.
  - by apply defined_discover.
Qed.

Lemma live_step live c st st' rep :
  live = dom (ff_heap st) → ff_heap st !! 0 = None → ffi_step c st = (st', Returns rep) →
  live_after live c rep = dom (ff_heap st') ∧ ff_heap st' !! 0 = None.
Proof.
  intros -> H0' Hs. unfold ffi_step in Hs. destruct (ffi_call c st) as [st1 r1] eqn:Hc.
  injection Hs as <- ->. simpl. destruct (decide (lives c)) as [Hl|Hl].
  - destruct (call_effect_on c st H0' Hl) as (_ & _ & Hh); rewrite Hc in *; [done|]. simpl in Hh.
    split; [|by rewrite Hh, H0'].
    replace (live_after (dom (ff_heap st)) c rep) with (dom (ff_heap st))
      by (destruct c, rep as [? []]; done).
    apply set_eq. intros h. rewrite !elem_of_dom, Hh. by rewrite fmap_is_Some.
  - destruct c; try (by destruct Hl); clear Hl.
    + destruct (create_cases config bind_addr bind_port out st) as
        [(r & Hr & _ & Hh & _ & _ & Hrep)|(cfg & session & _ & _ & _ & Hr)]; rewrite Hr in Hc;
        subst; simpl in *.
      * rewrite Hh, (Hrep rep eq_refl). done.
      * injection Hc as <- <-. simpl. split; [by rewrite dom_insert_L|].
        rewrite lookup_insert_ne; [done|]. apply fh_alloc_nonnull.
    + destruct (destroy_cases handle st H0') as [(Hu & _)|(Hr & Hh & _)]; rewrite Hc in *;
        simpl in *; [done|]. rewrite Hh. split; [by rewrite dom_delete_L; destruct rep as [? []]|].
      by rewrite lookup_delete_None; right.
Qed.

Lemma client_ok_run calls : ∀ live st,
  live = dom (ff_heap st) → ff_heap st !! 0 = None → client_ok live st calls →
  (ffi_run calls st).2 ≠ Undefined.
Proof.
  induction calls as [|c calls IH]; intros live st Hl H0' Hok; simpl in *; [done|].
  destruct Hok as [Hc Hok]. destruct (ffi_step c st) as [st' r] eqn:Hs.
  assert (r ≠ Undefined) as Hu.
  { pose proof (call_defined live c st Hl Hc) as Hd. unfold ffi_step in Hs.
    destruct (ffi_call c st). injection Hs as _ <-. exact Hd. }
  destruct r as [rep| | |]; [|done..].
  destruct (live_step live c st st' rep Hl H0' Hs). by eapply IH.
Qed.
End laws.
End client.

(** C24: the C interface never runs into undefined behaviour for a client that
    keeps to its rules, whatever the network does and in whatever order it
    makes its calls: it passes null or a handle it was given and has not
    destroyed, buffers that are as long as it says, and no null buffer of
    length zero to [gs_session_send_audio].  That last rule is needed: null
    and zero pass that function's check and are made into a slice. *)
Theorem ffi_no_undefined_behaviour `{Aead} `{FfiHostLaws} (calls : list FfiCall) :
  client_ok ∅ ffi_init calls →
  (ffi_run calls ffi_init).2 ≠ Undefined
  ∧ ∀ st h, (ffi_call (CSendAudio h None 0) st).2 = (if h =? 0 then Returns (GS_ERR_NULL_POINTER, None) else Undefined).
Proof.
  intros Hok. split; [by apply (client_ok_run calls ∅)|].
  intros st h. cbn [ffi_call]. unfold gs_session_send_audio. destruct (h =? 0); [done|]. simpl.
  unfold seen, mbind, FM_bind, deref. by destruct (ff_heap st !! h).
Qed.

(** C25: sessions behind different handles are independent.  After any
    sequence of calls that returned, a live handle is not null, has a socket
    no other handle has, and was answered by one of the calls, which made a
    session from its configuration: the handle named no session when that
    call was made, it was not destroyed since, and its session is the new one
    of that call, changed by exactly the operations that were called with this
    handle afterwards, in order, and by nothing done with other handles,
    their creation and destruction included. *)
Theorem ffi_sessions_independent `{Aead} `{FfiHostLaws} (calls : list FfiCall) st h i :
  ffi_run calls ffi_init = (st, Returns tt) → ff_heap st !! h = Some i →
  h ≠ 0 ∧ made_by calls h i
  ∧ ∀ h' i', ff_heap st !! h' = Some i' → si_id i' = si_id i → h' = h.
Proof.
  intros Hr Hi. destruct (ffi_inv_run calls st Hr) as [_ _ H0' _ Hsock Hmade].
  split_and!; [congruence|by apply Hmade|]. intros h' i' Hi' Heq. by eapply Hsock.
Qed.

(** ** Status codes and the last error *)

Section reporting.
Context `{Aead} `{FfiHost}.

(** The error of operation [op] on the session behind [h]. *)
Definition session_failure {A} (st : Ffi) (h : Z) (call : string) (op : Env → SM A) :
    option FfiError :=
  if h =? 0 then None
  else
    i ← ff_heap st !! h;
    match (op (fh_env (si_id i)) (si_world i)).2 with
    | Fail e => Some (FeSession call e)
    | _ => None
    end.

(** What fails in a call: the runtime, the socket, the exchange with the STUN
    servers or the operation of the session. *)
Definition call_failure (st : Ffi) (c : FfiCall) : option FfiError :=
  let n := ff_calls st in
  match c with
  | CCreate (Some _) (Some addr) port true =>
      ip ← bind_ip addr;
      if negb (fh_runtime n) then Some (FeRuntime "failed to build runtime")
      else
        match UdpTransport_bind (H := fh_sockets n)
                (mkUdpConfig (mkSocketAddr ip port) None DEFAULT_SOCKET_BUFFER RealTime true None) with
        | Err e => Some (FeBind e)
        | Ok _ => None
        end
  | CConnect h (Some addr) port =>
      ip ← peer_ip addr;
      session_failure st h "handshake" (handshake Client n (mkSocketAddr ip port))
  | CAccept h (Some addr) port =>
      ip ← peer_ip addr;
      session_failure st h "handshake" (handshake Server n (mkSocketAddr ip port))
  | CAcceptAny h =>
      session_failure st h "accept_any" (λ env,
        handshake_open (H := env) fh_attempts fh_fuel (fh_server_random n))
  | CSendAudio h (Some mem) len =>
      session_failure st h "send_audio" (λ env, send_audio (H := env) (take len mem))
  | CRecvAudio h (Some _) (Some _) =>
      session_failure st h "recv_audio" (λ env, recv_audio (H := env) fh_fuel)
  | CClose h => session_failure st h "close" (λ env, close (H := env))
  | CPress h => session_failure st h "ptt_press" (λ env, ptt_press (H := env))
  | CRelease h => session_failure st h "ptt_release" (λ env, ptt_release (H := env))
  | CPort h true =>
      if h =? 0 then None
      else
        i ← ff_heap st !! h;
        match fh_local_addr (si_id i) with
        | Err e => Some (FeSession "local_addr" e)
        | Ok _ => None
        end
  | CStun port (Some _) len =>
      if (len <? 8)%nat then None
      else if negb (fh_runtime n) then Some (FeRuntime "runtime")
      else
        match discover_public_addr (H := fh_stun n) port with
        | Val (_, Err e) => Some (FeStun e)
        | _ => None
        end
  | _ => None
  end.

(** The status of a failure that is recorded. *)
Definition failure_status (c : FfiCall) (e : FfiError) : GsStatus :=
  match c, e with
  | (CConnect _ _ _ | CAccept _ _ _ | CAcceptAny _), _ => GS_ERR_HANDSHAKE
  | _, FeRuntime _ => GS_ERR_INTERNAL
  | _, FeStun _ => GS_ERR_TIMEOUT
  | _, _ => GS_ERR_IO
  end.

(** The failures that are not recorded, with their status: those of a close,
    which is always a success, and an [accept_any] on a closed session. *)
Definition unrecorded (c : FfiCall) (e : FfiError) : option GsStatus :=
  match c, e with
  | CClose _, _ => Some GS_OK
  | CAcceptAny _, FeSession _ (TePeerClosed _ | TeClosed) => Some GS_ERR_CLOSED
  | _, _ => None
  end.

(** The statuses of calls in which nothing fails. *)
Definition unfailing (code : GsStatus) : Prop :=
  match code with
  | GS_OK | GS_ERR_NULL_POINTER | GS_ERR_INVALID_ARGUMENT | GS_ERR_BUFFER_TOO_SMALL => True
  | _ => False
  end.

(** How a call answers with [code], and what becomes of the last error. *)
Definition answers (c : FfiCall) (f : option FfiError) (code : GsStatus) (st st' : Ffi) : Prop :=
  match f with
  | Some e =>
      match unrecorded c e with
      | Some code' => code = code' ∧ ff_last_error st' = ff_last_error st
      | None => code = failure_status c e ∧ ff_last_error st' = Some e
      end
  | None => unfailing code ∧ ff_last_error st' = ff_last_error st
  end.

(** An operation on a session, whose outcome [k] turns into an answer. *)
Lemma answers_block_on {A B} c h call (op : Env → SM (option A)) (status : B → GsStatus)
    (k : result TransportError A → FM B) st st' b :
  h ≠ 0 →
  (∀ st1 r st2 b, ff_last_error st1 = ff_last_error st → k r st1 = (st2, Returns b) →
     answers c (match r with Ok _ => None | Err e => Some (FeSession call e) end) (status b) st st2) →
  (block_on h op ≫= k) st = (st', Returns b) →
  answers c (session_failure st h call op) (status b) st st'.
Proof.
  intros Hh Hk. unfold session_failure. rewrite (proj2 (Z.eqb_neq h 0) Hh).
  unfold mbind, FM_bind, block_on. destruct (ff_heap st !! h) as [i|]; [|done].
  cbn [option_bind]. destruct (op _ _) as [w [[a|]|e|]]; cbn [fst snd]; intros Hr; try done.
  - eapply (Hk _ (Ok a)); [|exact Hr]. done.
  - eapply (Hk _ (Err e)); [|exact Hr]. done.
Qed.

Lemma session_failure_always {A} st h call (op : Env → SM A) :
  session_failure st h call (λ env, always (op env)) = session_failure st h call op.
Proof.
  unfold session_failure. case_match; [done|]. destruct (ff_heap st !! h) as [i|]; [|done]. simpl.
  unfold always, mbind, SM_bind. by destruct (op _ _) as [w []].
Qed.

(** The operations whose outcome is reported as it is. *)
Lemma answers_report {A} c h call (op : Env → SM A) status st st' code :
  h ≠ 0 → (∀ e, unrecorded c (FeSession call e) = None) →
  (∀ e, failure_status c (FeSession call e) = status) →
  (r ← block_on h (λ env, always (op env)); report call status r) st = (st', Returns code) →
  answers c (session_failure st h call op) code st st'.
Proof.
  intros Hh Hu Hf Hr. rewrite <- session_failure_always.
  eapply (answers_block_on c h call _ id) in Hr; [exact Hr|done|].
  intros st1 [a|e] st2 b Hst; unfold report, set_last_error, mbind, FM_bind; simpl;
    intros [= <- <-]; simpl; [by split|].
  by rewrite Hu, Hf.
Qed.

Lemma seen_returns {A} (f : A → GsStatus * option Z) m st st' rep :
  seen f m st = (st', Returns rep) → ∃ a, m st = (st', Returns a) ∧ rep = f a.
Proof.
  unfold seen, mbind, FM_bind. destruct (m st) as [st1 [a| | |]]; [|done..].
  intros [= <- <-]. by exists a.
Qed.

Lemma answers_create config addr port out st st' code hnew :
  gs_session_create config addr port out st = (st', Returns (code, hnew)) →
  answers (CCreate config addr port out) (call_failure st (CCreate config addr port out)) code st st'.
Proof.
  unfold gs_session_create, call_failure, answers.
  destruct config; [|intros [= <- <- _]; by split].
  destruct addr as [addr|]; [|intros [= <- <- _]; by split].
  destruct out; [|intros [= <- <- _]; by split].
  destruct (bind_ip addr) as [ip|]; [|intros [= <- <- _]; by split].
  unfold mbind, FM_bind, call_number. simpl.
  destruct (fh_runtime _); simpl; [|by intros [= <- <- _]].
  destruct (UdpTransport_bind _) as [t|e]; simpl; [|by intros [= <- <- _]].
  destruct (Session_new _) as [session|]; simpl; [|done].
  intros [= <- <- _]. by split.
Qed.

Lemma answers_nothing c code st : unfailing code → answers c None code st st.
Proof. by split. Qed.

Lemma answers_handshake c role h addr port st st' code :
  (∀ e, unrecorded c (FeSession "handshake" e) = None) →
  (∀ e, failure_status c (FeSession "handshake" e) = GS_ERR_HANDSHAKE) →
  handshake_common h addr port role st = (st', Returns code) →
  answers c ((addr ≫= peer_ip) ≫= λ ip,
    session_failure st h "handshake" (handshake role (ff_calls st) (mkSocketAddr ip port))) code st st'.
Proof.
  intros Hu Hf. unfold handshake_common.
  destruct addr as [addr|]; [|intros [= <- <-]; by apply answers_nothing].
  destruct (Z.eqb_spec h 0) as [->|Hh].
  { intros [= <- <-]. simpl. destruct (peer_ip addr); by apply answers_nothing. }
  rewrite bind_deref. destruct (ff_heap st !! h) as [i|]; [|done]. simpl.
  destruct (peer_ip addr) as [ip|]; simpl;
    [|intros [= <- <-]; by apply answers_nothing].
  by apply answers_report.
Qed.
Lemma answers_discover port buf len st st' code out :
  gs_discover_public_addr port buf len st = (st', Returns (code, out)) →
  answers (CStun port buf len) (call_failure st (CStun port buf len)) code st st'.
Proof.
  unfold gs_discover_public_addr, call_failure, answers.
  destruct buf as [mem|]; [|by intros [= <- <- _]].
  destruct (len <? 8)%nat; [by intros [= <- <- _]|]. unfold mbind, FM_bind, call_number.
  destruct (fh_runtime _); simpl; [|by intros [= <- <- _]].
  destruct (discover_public_addr port) as [[log [addr|e]]|]; simpl; [|by intros [= <- <- _]|done].
  destruct (_ <? _)%nat; [by intros [= <- <- _]|]. destruct (_ <? _)%nat; [done|].
  by intros [= <- <- _].
Qed.

Lemma answers_accept_any h st st' code :
  gs_session_accept_any h st = (st', Returns code) →
  answers (CAcceptAny h) (call_failure st (CAcceptAny h)) code st st'.
Proof.
  unfold gs_session_accept_any. cbn [call_failure].
  destruct (Z.eqb_spec h 0) as [->|Hh]; [intros [= <- <-]; by apply answers_nothing|].
  apply (answers_block_on _ h "accept_any" (λ env, handshake_open (H := env) fh_attempts fh_fuel
    (fh_server_random (ff_calls st))) id); [done|].
  intros st1 [[]|e] st2 b Hst; [by intros [= <- <-]|].
  destruct e; cbn; by intros [= <- <-].
Qed.

Lemma answers_recv_audio h buf len st st' code out len' :
  gs_session_recv_audio h buf len st = (st', Returns (code, out, len')) →
  answers (CRecvAudio h buf len) (call_failure st (CRecvAudio h buf len)) code st st'.
Proof.
  unfold gs_session_recv_audio. cbn [call_failure].
  destruct buf as [mem|]; [|intros [= <- <- _]; by apply answers_nothing].
  destruct len as [cap|]; [|intros [= <- <- _]; by apply answers_nothing].
  destruct (Z.eqb_spec h 0) as [->|Hh]; [intros [= <- <- _]; by apply answers_nothing|].
  apply (answers_block_on _ h "recv_audio" (λ env, recv_audio (H := env) fh_fuel) (λ r, r.1.1));
    [done|].
  intros st1 [frame|e] st2 b Hst; [|intros [= <- <-]; by split].
  destruct (_ <? _)%nat; [intros [= <- <-]; by split|]. destruct (_ <? _)%nat; [done|].
  intros [= <- <-]. by split.
Qed.

Lemma answers_send_audio h data len st st' code :
  gs_session_send_audio h data len st = (st', Returns code) →
  answers (CSendAudio h data len) (call_failure st (CSendAudio h data len)) code st st'.
Proof.
  unfold gs_session_send_audio. cbn [call_failure].
  destruct (Z.eqb_spec h 0) as [->|Hh].
  { intros [= <- <-]. destruct data; by apply answers_nothing. }
  destruct data as [mem|]; simpl.
  - rewrite bind_deref. destruct (ff_heap st !! h); [|done].
    destruct (len <=? length mem)%nat; [|done]. intros Hr.
    by apply (answers_report _ h "send_audio" (λ env, send_audio (H := env) (take len mem)) GS_ERR_IO).
  - destruct (len =? 0)%nat; simpl; [|intros [= <- <-]; by split].
    rewrite bind_deref. by destruct (ff_heap st !! h).
Qed.

Lemma answers_port h out st st' code o :
  gs_session_local_port h out st = (st', Returns (code, o)) →
  answers (CPort h out) (call_failure st (CPort h out)) code st st'.
Proof.
  unfold gs_session_local_port. cbn [call_failure].
  destruct out; [|rewrite orb_true_r; intros [= <- <- _]; by apply answers_nothing].
  rewrite orb_false_r. destruct (h =? 0); [intros [= <- <- _]; by apply answers_nothing|].
  rewrite bind_deref. destruct (ff_heap st !! h) as [i|]; [|done]. simpl.
  destruct (fh_local_addr _); by intros [= <- <- _].
Qed.

Lemma answers_close h st st' code :
  gs_session_close h st = (st', Returns code) →
  answers (CClose h) (call_failure st (CClose h)) code st st'.
Proof.
  unfold gs_session_close. cbn [call_failure].
  destruct (Z.eqb_spec h 0) as [->|Hh]; [intros [= <- <-]; by apply answers_nothing|].
  rewrite <- session_failure_always.
  apply (answers_block_on _ h "close" (λ env, always (close (H := env))) id); [done|].
  intros st1 [[]|e] st2 b Hst; by intros [= <- <-].
Qed.

Lemma answers_read {A} c h out (f : SessionInner → A) st st' code o :
  read_session h out f st = (st', Returns (code, o)) → answers c None code st st'.
Proof.
  unfold read_session. case_match; [intros [= <- <- _]; by apply answers_nothing|].
  rewrite bind_deref. destruct (ff_heap st !! h); [|done]. intros [= <- <- _]. by apply answers_nothing.
Qed.

Lemma answers_destroy h st st' u :
  gs_session_destroy h st = (st', Returns u) → answers (CDestroy h) None GS_OK st st'.
Proof.
  unfold gs_session_destroy. case_match; [intros [= <- _]; by apply answers_nothing|].
  rewrite bind_deref. destruct (ff_heap st !! h); [|done]. by intros [= <- _].
Qed.

(** The codes for protocol errors and invalid states are not used. *)
Lemma answers_codes c f code st st' :
  answers c f code st st' → code ≠ GS_ERR_PROTOCOL ∧ code ≠ GS_ERR_INVALID_STATE.
Proof.
  unfold answers. destruct f as [e|]; [|intros [Hu _]; by destruct code].
  destruct (unrecorded c e) as [code'|] eqn:Hu; intros [-> _].
  - destruct c; try done; [destruct e as [| |? []|]; try done|]; by injection Hu as <-.
  - by destruct c, e.
Qed.

Lemma answers_call c st st' code hnew :
  c ≠ CErrorClear → ffi_call c st = (st', Returns (code, hnew)) →
  answers c (call_failure st c) code st st'.
Proof.
  intros Hc. destruct c; try done; cbn [ffi_call]; [by apply answers_create|..];
    intros (a & Hr & [= -> ->])%seen_returns; cbn [call_failure].
  - by eapply answers_destroy.
  - apply (answers_handshake (CConnect handle peer_addr peer_port)) in Hr; [|done..].
    by destruct peer_addr.
  - apply (answers_handshake (CAccept handle peer_addr peer_port)) in Hr; [|done..].
    by destruct peer_addr.
  - by apply answers_accept_any.
  - by apply answers_send_audio.
  - destruct a as [[a out] len]. by eapply answers_recv_audio.
  - by apply answers_close.
  - unfold gs_session_ptt_press in Hr. destruct (Z.eqb_spec handle 0) as [->|Hh].
    + injection Hr as <- <-. by apply answers_nothing.
    + by apply (answers_report _ _ "ptt_press" (λ env, ptt_press (H := env)) GS_ERR_IO).
  - unfold gs_session_ptt_release in Hr. destruct (Z.eqb_spec handle 0) as [->|Hh].
    + injection Hr as <- <-. by apply answers_nothing.
    + by apply (answers_report _ _ "ptt_release" (λ env, ptt_release (H := env)) GS_ERR_IO).
  - destruct a. by eapply answers_read.
  - destruct a. by eapply answers_read.
  - destruct a. by eapply answers_read.
  - destruct a. by eapply answers_read.
  - destruct a. by eapply answers_port.
  - unfold gs_session_is_peer_ptt_active in Hr. case_match.
    + injection Hr as <- _. by apply answers_nothing.
    + rewrite bind_deref in Hr. destruct (ff_heap st !! handle); [|done].
      injection Hr as <- _. by apply answers_nothing.
  - destruct a. by eapply answers_discover.
  - injection Hr as <- _. by apply answers_nothing.
Qed.
End reporting.

Lemma send_audio_inactive `{Env} `{Aead} payload w :
  sm_state (s_state (w_sess w)) ≠ Active →
  send_audio payload w = (w, Fail (TeInvalidState "not active")).
Proof.
  intros Hst. unfold send_audio. unfold mbind at 1, SM_bind at 1. cbn [get].
  by rewrite decide_True.
Qed.

(** C26: how the C interface reports errors.  When the runtime, the socket, the
    exchange with the STUN servers or the session fails in a call (a call other
    than [gs_error_clear] that returns), the call returns the status for that
    kind of failure and the last error is this failure, replacing an older
    one; with two exceptions, which leave the last error: a failed close
    returns success, and an [accept_any] that finds the session or the peer
    closed returns [GS_ERR_CLOSED].  A call in which nothing fails returns
    success or refuses its arguments, and leaves the last error as it was, so
    that it outlives later successes.  The codes for protocol errors and
    invalid states are never returned, and sending outside the active state is
    reported as an I/O error.  A receive buffer that is too small costs the
    frame: the session is left as a receive that delivered it leaves it. *)
Theorem ffi_error_reporting `{Aead} `{FfiHost} (st st' : Ffi) (h : Z) :
  (∀ c code hnew, c ≠ CErrorClear → ffi_call c st = (st', Returns (code, hnew)) →
     match call_failure st c with
     | Some e =>
         match unrecorded c e with
         | Some code' => code = code' ∧ ff_last_error st' = ff_last_error st
         | None => code = failure_status c e ∧ ff_last_error st' = Some e
         end
     | None => unfailing code ∧ ff_last_error st' = ff_last_error st
     end
     ∧ code ≠ GS_ERR_PROTOCOL ∧ code ≠ GS_ERR_INVALID_STATE)
  ∧ (∀ i mem, h ≠ 0 → ff_heap st !! h = Some i →
       sm_state (s_state (w_sess (si_world i))) ≠ Active →
       gs_session_send_audio h (Some mem) (length mem) st
       = (mkFfi (ff_heap st) (Some (FeSession "send_audio" (TeInvalidState "not active")))
            (ff_calls st) (ff_created st), Returns GS_ERR_IO))
  ∧ (∀ mem cap out len,
       gs_session_recv_audio h (Some mem) (Some cap) st
       = (st', Returns (GS_ERR_BUFFER_TOO_SMALL, out, len)) →
       ∃ payload, out = [] ∧ len = Some (length payload) ∧ (cap < length payload)%nat
         ∧ gs_session_recv_audio h (Some (length payload)) (Some (length payload)) st
           = (st', Returns (GS_OK, payload, Some (length payload)))).
Proof.
  split_and!.
  - intros c code hnew Hc Hr. pose proof (answers_call c st st' code hnew Hc Hr) as Ha.
    split; [exact Ha|by apply (answers_codes c _ _ _ _ Ha)].
  - intros i mem Hh Hi Hst. unfold gs_session_send_audio.
    rewrite (proj2 (Z.eqb_neq _ _) Hh). simpl. rewrite bind_deref, Hi. unfold from_raw_parts.
    rewrite Nat.leb_refl, firstn_all. unfold mbind, FM_bind, block_on. simpl. rewrite Hi.
    unfold always. unfold mbind, SM_bind. rewrite send_audio_inactive by done. simpl.
    unfold with_heap. simpl. rewrite insert_id; [done|]. rewrite Hi. by destruct i.
  - intros mem cap out len Hr. unfold gs_session_recv_audio in *. destruct (h =? 0); [done|].
    unfold mbind, FM_bind in *. destruct (block_on _ _ st) as [st1 [[frame|e]| | |]]; [|done..].
    destruct (Nat.ltb_spec cap (length (fr_payload frame))).
    + injection Hr as <- <- <-. exists (fr_payload frame). by rewrite Nat.ltb_irrefl.
    + by destruct (mem <? _)%nat.
Qed.

(** ** A process *)

Definition next_addr (X : gset Z) : Z := set_fold Z.max 0 X + 1.

Lemma next_addr_above (X : gset Z) : 0 ≤ set_fold Z.max 0 X ∧ ∀ x, x ∈ X → x ≤ set_fold Z.max 0 X.
Proof.
  apply (set_fold_ind_L (λ r Y, 0 ≤ r ∧ ∀ x, x ∈ Y → x ≤ r)); [split; [done|set_solver]|].
  intros x Y r Hx [Hr HY]. split; [lia|]. intros y [->%elem_of_singleton|Hy%HY]%elem_of_union; lia.
Qed.

#[export] Instance sample_process : FfiHost (H := toy_kex) := {|
  fh_runtime _ := true;
  fh_sockets _ := {| sys_unix := true; sys_call _ := true |};
  fh_env _ := quiet_env;
  fh_local_addr _ := Ok sample_peer;
  fh_alloc := next_addr;
  fh_client_random _ := sample_rc;
  fh_server_random _ _ := sample_rs;
  fh_stun _ := stun_sample;
  fh_fuel := 2;
  fh_attempts := 1;
|}.

#[export] Instance sample_process_laws : FfiHostLaws.
Proof.
  split; intros X; simpl; unfold next_addr; destruct (next_addr_above X) as [H0 HX].
  - intros Hin%HX. lia.
  - lia.
Qed.

Definition default_cfg : GsConfig := mkGsConfig 48000 1 10 64000 1 0 40 1200.

Definition sample_calls : list FfiCall :=
  [CCreate (Some default_cfg) (Some (ascii_bytes "127.0.0.1")) 0 true;
   CCreate (Some default_cfg) (Some []) 0 true;
   CSendAudio 1 (Some [1; 2; 3]) 2; CPress 2; CClose 2; CDestroy 2; CSendAudio 0 None 7;
   CConnect 1 (Some (ascii_bytes "not an address")) 9; CState 1 true; CErrorClear].

Lemma ffi_no_undefined_behaviour_witness :
  client_ok (H := toy_aead) ∅ ffi_init sample_calls
  ∧ (ffi_run (H := toy_aead) sample_calls ffi_init).2 ≠ Undefined.
Proof.
  assert (client_ok (H := toy_aead) ∅ ffi_init sample_calls) as Hok.
  { apply (bool_decide_unpack _). vm_compute. exact I. }
  split; [exact Hok|]. apply (ffi_no_undefined_behaviour (H := toy_aead) sample_calls Hok).
Defined.

Lemma ffi_sessions_independent_witness :
  ∃ st i, ffi_run (H := toy_aead) sample_calls ffi_init = (st, Returns tt)
    ∧ ff_heap st !! 1 = Some i ∧ made_by (H := toy_aead) sample_calls 1 i.
Proof.
  destruct (ffi_run (H := toy_aead) sample_calls ffi_init) as [st r] eqn:Hr.
  assert ((ffi_run (H := toy_aead) sample_calls ffi_init).2 = Returns tt) as H2
    by (vm_compute; reflexivity).
  assert (is_Some (ff_heap (ffi_run (H := toy_aead) sample_calls ffi_init).1 !! 1)) as [i Hi]
    by (vm_compute; eexists; reflexivity).
  rewrite Hr in H2, Hi. simpl in H2, Hi. rewrite H2 in *.
  exists st, i. split; [reflexivity|]. split; [exact Hi|].
  exact (proj1 (proj2 (ffi_sessions_independent (H := toy_aead) sample_calls st 1 i Hr Hi))).
Defined.

Lemma ffi_error_reporting_witness :
  let st := (ffi_run (H := toy_aead) (take 2 sample_calls) ffi_init).1 in
  (gs_session_send_audio (H := toy_aead) 1 (Some [1; 2]) 2 st).2 = Returns GS_ERR_IO.
Proof.
  intros st. assert (is_Some (ff_heap st !! 1)) as [i Hi] by (vm_compute; eexists; reflexivity).
  assert (from_option (λ i, bool_decide (sm_state (s_state (w_sess (si_world i))) ≠ Active)) false
    (ff_heap st !! 1) = true) as Hs by (vm_compute; reflexivity).
  rewrite Hi in Hs. simpl in Hs. apply bool_decide_eq_true in Hs.
  destruct (ffi_error_reporting (H := toy_aead) st st 1) as (_ & Hsend & _).
  change 2%nat with (length [1; 2]). rewrite (Hsend i [1; 2]); [reflexivity|lia|exact Hi|exact Hs].
Defined.

(** ** The Java interface *)

Inductive JniCall : Type :=
  | JCreate (sample_rate channels bind_port : Z)
  | JDestroy (handle : Z)
  | JConnect (handle : Z) (host : option (list Z)) (port : Z)
  | JAccept (handle : Z) (host : option (list Z)) (port : Z)
  | JSendAudio (handle : Z) (pcm : option (list Z))
  | JRecvAudio (handle : Z)
  | JPress (handle : Z)
  | JRelease (handle : Z)
  | JPeerPtt (handle : Z)
  | JMetrics (handle : Z)
  | JId (handle : Z)
  | JClose (handle : Z)
  | JPort (handle : Z)
  | JStun (bind_port : Z)
  | JAcceptAny (handle : Z).

Definition void {A} (m : FM A) : FM unit := _ ← m; mret tt.

Section java.
Context `{Aead} `{FfiHost} `{Jvm}.

Definition jni_call (j : JniCall) : FM unit :=
  match j with
  | JCreate sample_rate channels port => void (nativeCreate sample_rate channels port)
  | JDestroy h => nativeDestroy h
  | JConnect h host port => void (nativeConnect h host port)
  | JAccept h host port => void (nativeAccept h host port)
  | JSendAudio h pcm => void (nativeSendAudio h pcm)
  | JRecvAudio h => void (nativeRecvAudio h)
  | JPress h => void (nativePttPress h)
  | JRelease h => void (nativePttRelease h)
  | JPeerPtt h => void (nativeIsPeerPttActive h)
  | JMetrics h => void (nativeGetMetrics h)
  | JId h => void (nativeGetSessionId h)
  | JClose h => void (nativeClose h)
  | JPort h => void (nativeGetLocalPort h)
  | JStun port => void (nativeDiscoverPublicAddr port)
  | JAcceptAny h => void (nativeAcceptAny h)
  end.

(** The C call behind a Java call, if it gets that far. *)
Definition c_call (j : JniCall) : option FfiCall :=
  match j with
  | JCreate sample_rate channels port =>
      Some (CCreate (Some (mkGsConfig (wrap32 sample_rate) (wrap8 channels) 20 64000 1 0 60 1200))
              (Some (ascii_bytes "0.0.0.0")) (wrap16 port) true)
  | JDestroy h => Some (CDestroy h)
  | JConnect h host port => (λ s, CConnect h (Some s) (wrap16 port)) <$> jni_host host
  | JAccept h host port => (λ s, CAccept h (Some s) (wrap16 port)) <$> jni_host host
  | JSendAudio h pcm => (λ b, CSendAudio h (Some b) (length b)) <$> pcm
  | JRecvAudio h => Some (CRecvAudio h (Some 4096%nat) (Some 4096%nat))
  | JPress h => Some (CPress h)
  | JRelease h => Some (CRelease h)
  | JPeerPtt h => Some (CPeerPtt h)
  | JMetrics h => Some (CMetrics h true)
  | JId h => Some (CId h true)
  | JClose h => Some (CClose h)
  | JPort h => Some (CPort h true)
  | JStun port => Some (CStun (wrap16 port) (Some 64%nat) 64)
  | JAcceptAny h => Some (CAcceptAny h)
  end.

(** The handle a Java call is given; 0 for a call without one. *)
Definition j_handle (j : JniCall) : Z :=
  match j with
  | JCreate _ _ _ | JStun _ => 0
  | JDestroy h | JConnect h _ _ | JAccept h _ _ | JSendAudio h _ | JRecvAudio h | JPress h
  | JRelease h | JPeerPtt h | JMetrics h | JId h | JClose h | JPort h | JAcceptAny h => h
  end.

(** Two calls with the same effect, up to what they return. *)
Definition alike {A B} (m : FM A) (m' : FM B) (st : Ffi) : Prop :=
  (m st).1 = (m' st).1 ∧ ((m st).2 = Undefined ↔ (m' st).2 = Undefined).

(** A continuation that only reads. *)
Definition harmless {A} (m : FM A) : Prop := ∀ st, (m st).1 = st ∧ (m st).2 ≠ Undefined.

Lemma harmless_java_new {A} (a : A) : harmless (java_new a).
Proof. done. Qed.

Lemma alike_call {A B} h (null : B) (m : FM A) (f : A → FM B) (g : A → GsStatus * option Z) st :
  (h = 0 → harmless m) → (∀ a, harmless (f a)) →
  alike (void (if h =? 0 then mret null else m ≫= f)) (seen g m) st.
Proof.
  intros H0' Hf. unfold alike, void, seen, mbind, FM_bind. destruct (Z.eqb_spec h 0) as [Hh|].
  - destruct (H0' Hh st) as [Hm Hu]. destruct (m st) as [st1 []]; simpl in *; by subst.
  - destruct (m st) as [st1 [a| | |]]; [|done..]. destruct (Hf a st1) as [Hf1 Hf2].
    destruct (f a st1) as [st2 []]; simpl in *; by subst.
Qed.

Lemma alike_plain {A B} (m : FM A) (f : A → FM B) st :
  (∀ a, harmless (f a)) → alike (void (m ≫= f)) m st.
Proof.
  intros Hf. unfold alike, void, mbind, FM_bind. destruct (m st) as [st1 [a| | |]]; [|done..].
  destruct (Hf a st1) as [Hf1 Hf2]. destruct (f a st1) as [st2 []]; simpl in *; by subst.
Qed.

Lemma jni_alike j c st : c_call j = Some c → alike (jni_call j) (ffi_call c) st.
Proof.
  intros Hc. destruct j; cbn [c_call] in Hc; try (injection Hc as <-); cbn [jni_call ffi_call].
  - by apply alike_plain.
  - unfold nativeDestroy, gs_session_destroy, alike, seen, mbind, FM_bind.
    destruct (handle =? 0); simpl; [done|]. destruct (ff_heap st !! handle); done.
  - apply fmap_Some in Hc as (s & Hs & ->). cbn [ffi_call]. unfold nativeConnect. rewrite Hs.
    apply alike_call; [|done]. by intros ->.
  - apply fmap_Some in Hc as (s & Hs & ->). cbn [ffi_call]. unfold nativeAccept. rewrite Hs.
    apply alike_call; [|done]. by intros ->.
  - apply fmap_Some in Hc as (s & -> & ->). cbn [ffi_call]. unfold nativeSendAudio.
    apply alike_call; [|done]. by intros ->.
  - apply alike_call; [by intros ->|]. intros [[code out] len]. by destruct code, len.
  - apply alike_call; [|done]. by intros ->.
  - apply alike_call; [|done]. by intros ->.
  - unfold alike, void, nativeIsPeerPttActive, seen, mbind, FM_bind.
    unfold gs_session_is_peer_ptt_active. destruct (handle =? 0); [done|].
    rewrite bind_deref. by destruct (ff_heap st !! handle).
  - unfold alike, void, nativeGetMetrics, seen, mbind, FM_bind, gs_session_metrics.
    unfold read_session. destruct (handle =? 0); [done|]. simpl. rewrite bind_deref.
    destruct (ff_heap st !! handle); [|done]. unfold java_new, mbind, FM_bind, call_number. simpl.
    by destruct (jvm_new _).
  - apply alike_call; [|done]. by intros ->.
  - apply alike_call; [|done]. by intros ->.
  - apply alike_call; [|done]. by intros ->.
  - unfold alike, void, nativeDiscoverPublicAddr, seen, mbind, FM_bind.
    destruct (gs_discover_public_addr _ _ _ st) as [st1 [[code buf]| | |]]; [|done..].
    destruct code; try done. by destruct (from_utf8 _).
  - apply alike_call; [|done]. by intros ->.
Qed.

Lemma jni_none j st : c_call j = None → jni_call j st = (st, Returns tt).
Proof.
  intros Hc. destruct j; simpl in Hc; try done; cbn [jni_call].
  - unfold nativeConnect. apply fmap_None in Hc as ->. by destruct (handle =? 0).
  - unfold nativeAccept. apply fmap_None in Hc as ->. by destruct (handle =? 0).
  - unfold nativeSendAudio. destruct pcm; [done|]. by destruct (handle =? 0).
Qed.

Lemma jni_call_ok live j c : c_call j = Some c → handle_ok live (j_handle j) → call_ok live c.
Proof.
  intros Hc Hh. destruct j; cbn [c_call j_handle] in *;
    first [injection Hc as <-|apply fmap_Some in Hc as (? & ? & ->)]; cbn [call_ok]; eauto.
Qed.
End java.

(** The Java interface is the C interface with its rules kept: a call with
    handle zero or a live handle, whatever its other arguments, makes at most
    one C call, which is well-formed; it changes the process as that call
    does, and is never undefined behaviour.  A call that makes none returns
    at once and changes nothing. *)
Theorem jni_refines_c `{Aead} `{FfiHost} `{Jvm} (j : JniCall) (st : Ffi) :
  handle_ok (dom (ff_heap st)) (j_handle j) →
  (jni_call j st).2 ≠ Undefined
  ∧ match c_call j with
    | Some c => call_ok (dom (ff_heap st)) c ∧ (jni_call j st).1 = (ffi_call c st).1
    | None => jni_call j st = (st, Returns tt)
    end.
Proof.
  intros Hh. destruct (c_call j) as [c|] eqn:Hc.
  - pose proof (jni_call_ok _ j c Hc Hh) as Hok. destruct (jni_alike j c st Hc) as [Hst Hu].
    split; [|done]. rewrite Hu. by eapply call_defined.
  - rewrite jni_none by done. done.
Qed.

#[export] Instance sample_jvm : Jvm := {| jvm_new _ := true |}.

Lemma jni_refines_c_witness :
  let st := (ffi_run (H := toy_aead) (take 2 sample_calls) ffi_init).1 in
  (jni_call (H := toy_aead) (JSendAudio 2 (Some [])) st).2 ≠ Undefined.
Proof.
  intros st. assert (handle_ok (dom (ff_heap st)) 2) as Hh.
  { right. apply (bool_decide_unpack _). vm_compute. exact I. }
  exact (proj1 (jni_refines_c (H := toy_aead) (JSendAudio 2 (Some [])) st Hh)).
Defined.
