(* ===== verification/PySdk.v ===== *)
(** * The Python binding

    Models [sdks/python/src/lib.rs]: the classes [Config], [Metrics] and
    [Session] of the module [_gravital_talk], with the exceptions each call
    raises.  A call returns, raises a Python exception, panics (PyO3 turns
    the panic into a [PanicException]), or blocks for longer than it is
    followed.  What a session runs on (sockets, network, randomness) is the
    host of the C interface, [Ffi.v]; texts are UTF-8 bytes, and PyO3 has
    already converted the arguments to their Rust types.  The formatting of
    [Metrics.__repr__] (decimals of floating-point numbers) is not modelled. *)

From S2P Require Import Prelude.
From S2P Require Import CoreTypes.
From S2P Require Import Text.
From S2P Require Import Message.
From S2P Require Import SessionFsm.
From S2P Require Import Crypto.
From S2P Require Import JitterBuffer.
From S2P Require Import Ieee.
From S2P Require Import Metrics.
From S2P Require Import Congestion.
From S2P Require Import Transport.
From S2P Require Import NetAddr.
From S2P Require Import Session.
From S2P Require Import SessionSeq.
From S2P Require Import Audio.
From S2P Require Import Handshake.
From S2P Require Import Agreement.
From S2P Require Import SessionTypes.
From S2P Require Import StunClient.
From S2P Require Import Udp.
From S2P Require Import Ffi.
From S2P Require Import Jni.
From S2P Require Import FfiClient.
From stdpp Require Import gmap strings list.
#[local] Open Scope Z_scope.

(** ** Results *)

Inductive PyErr : Type :=
  | PyValueError
  | PyIOError (e : TransportError)
  | PyRuntimeError (e : TransportError).

Inductive PyResult (A : Type) : Type :=
  | PyOk (a : A)
  | PyRaise (e : PyErr)
  | PyPanic
  | PyBlocks.
Arguments PyOk {A} a.
Arguments PyRaise {A} e.
Arguments PyPanic {A}.
Arguments PyBlocks {A}.

(** ** [Config] *)

Record PyConfig : Type := mkPyConfig { pc_inner : Config }.

(** The arguments that are not given take the defaults of the signature. *)
Definition PyConfig_new (sample_rate channels frame_duration_ms jitter_buffer_ms : option Z) :
    PyConfig :=
  let c := Config_default in
  mkPyConfig (mkConfig (default 48000 sample_rate) (default 1 channels)
    (default 20 frame_duration_ms) (cfg_max_bitrate c) (cfg_codec_preferred c)
    (cfg_supported_codecs c) (cfg_capability_flags c) (default 40 jitter_buffer_ms) (cfg_mtu c)).

Definition PyConfig_sample_rate (self : PyConfig) : Z := cfg_sample_rate (pc_inner self).
Definition PyConfig_channels (self : PyConfig) : Z := cfg_channels (pc_inner self).
Definition PyConfig_frame_duration_ms (self : PyConfig) : Z :=
  cfg_frame_duration_ms (pc_inner self).
Definition PyConfig_jitter_buffer_ms (self : PyConfig) : Z := cfg_jitter_buffer_ms (pc_inner self).

Definition PyConfig_repr (self : PyConfig) : list Z :=
  ascii_bytes "Config(sample_rate=" ++ show (cfg_sample_rate (pc_inner self))
  ++ ascii_bytes ", channels=" ++ show (cfg_channels (pc_inner self))
  ++ ascii_bytes ", frame_duration_ms=" ++ show (cfg_frame_duration_ms (pc_inner self))
  ++ ascii_bytes ", jitter_buffer_ms=" ++ show (cfg_jitter_buffer_ms (pc_inner self))
  ++ ascii_bytes ")".

Example PyConfig_repr_default :
  PyConfig_repr (PyConfig_new None None None None)
  = ascii_bytes "Config(sample_rate=48000, channels=1, frame_duration_ms=20, jitter_buffer_ms=40)".
Proof. reflexivity. Qed.

(** ** [Metrics] *)

Record PyMetrics : Type := mkPyMetrics { pm_snap : MetricsSnapshot }.

Definition PyMetrics_rtt_ms (self : PyMetrics) : float := ms_rtt_ms (pm_snap self).
Definition PyMetrics_jitter_ms (self : PyMetrics) : float := ms_jitter_ms (pm_snap self).
Definition PyMetrics_loss_percent (self : PyMetrics) : float := ms_loss_percent (pm_snap self).
Definition PyMetrics_reorder_percent (self : PyMetrics) : float :=
  ms_reorder_percent (pm_snap self).
Definition PyMetrics_buffer_fill_percent (self : PyMetrics) : float :=
  ms_buffer_fill_percent (pm_snap self).
Definition PyMetrics_estimated_mos (self : PyMetrics) : float := ms_estimated_mos (pm_snap self).
Definition PyMetrics_packets_sent (self : PyMetrics) : Z := ms_packets_sent (pm_snap self).
Definition PyMetrics_packets_received (self : PyMetrics) : Z := ms_packets_received (pm_snap self).
Definition PyMetrics_bytes_sent (self : PyMetrics) : Z := ms_bytes_sent (pm_snap self).
Definition PyMetrics_bytes_received (self : PyMetrics) : Z := ms_bytes_received (pm_snap self).

(** ** [Session] *)

(** [ps_id] tells which socket the session has. *)
Record PySession : Type := mkPySession {
  ps_id : nat;
  ps_world : World;
  ps_local_addr : SocketAddr;
}.

Section python.
Context `{Aead} `{FfiHost}.

(** The [n]-th session; without a configuration the default one. *)
Definition PySession_new (n : nat) (config : option PyConfig) (bind_addr : list Z)
    (bind_port : Z) : PyResult PySession :=
  let cfg := match config with Some c => pc_inner c | None => Config_default end in
  match parse_ip_addr bind_addr with
  | None => PyRaise PyValueError
  | Some ip =>
      let udp := mkUdpConfig (mkSocketAddr ip bind_port) (uc_peer UdpConfig_default)
        (uc_socket_buffer_bytes UdpConfig_default) (uc_latency_class UdpConfig_default)
        (uc_reuse_port UdpConfig_default) (uc_ttl UdpConfig_default) in
      match UdpTransport_bind (H := fh_sockets n) udp with
      | Err e => PyRaise (PyIOError e)
      | Ok _ =>
          match fh_local_addr n with
          | Err e => PyRaise (PyIOError e)
          | Ok local_addr =>
              match Session_new cfg with
              | Panic => PyPanic
              | Val session => PyOk (mkPySession n (mkWorld session [] 0 0) local_addr)
              end
          end
      end
  end.

(** [RUNTIME.block_on(op).map_err(..)] with the interpreter lock released;
    [None] when [op] is still running. *)
Definition py_block_on {A} (self : PySession) (op : Env → SM (option A))
    (err : TransportError → PyErr) : PySession * PyResult A :=
  let '(w, r) := op (fh_env (ps_id self)) (ps_world self) in
  (mkPySession (ps_id self) w (ps_local_addr self),
   match r with
   | Done (Some a) => PyOk a
   | Done None => PyBlocks
   | Fail e => PyRaise (err e)
   | Crash => PyPanic
   end).

(** The handshake of the [n]-th call. *)
Definition py_handshake (self : PySession) (n : nat) (role : SessionRole) (host : list Z)
    (port : Z) : PySession * PyResult unit :=
  match parse_socket_addr (host_port host port) with
  | None => (self, PyRaise PyValueError)
  | Some peer => py_block_on self (λ env, always (handshake role n peer env)) PyRuntimeError
  end.

Definition PySession_connect (self : PySession) (n : nat) (host : list Z) (port : Z) :
    PySession * PyResult unit := py_handshake self n Client host port.
Definition PySession_accept (self : PySession) (n : nat) (host : list Z) (port : Z) :
    PySession * PyResult unit := py_handshake self n Server host port.

Definition PySession_send_audio (self : PySession) (data : list Z) : PySession * PyResult unit :=
  py_block_on self (λ env, always (send_audio (H := env) data)) PyIOError.

(** The bytes of the frame. *)
Definition PySession_recv_audio (self : PySession) : PySession * PyResult (list Z) :=
  let '(self, r) := py_block_on self (λ env, recv_audio (H := env) fh_fuel) PyIOError in
  (self, match r with
         | PyOk frame => PyOk (fr_payload frame)
         | PyRaise e => PyRaise e
         | PyPanic => PyPanic
         | PyBlocks => PyBlocks
         end).

Definition PySession_close (self : PySession) : PySession * PyResult unit :=
  py_block_on self (λ env, always (close (H := env))) PyIOError.

Definition PySession_session_id (self : PySession) : Z := s_session_id (w_sess (ps_world self)).
Definition PySession_local_port (self : PySession) : Z := sa_port (ps_local_addr self).
Definition PySession_local_addr (self : PySession) : list Z :=
  show_socket_addr (ps_local_addr self).

Definition PySession_metrics (self : PySession) : PyMetrics :=
  let s := w_sess (ps_world self) in
  let fill := JitterBuffer_fill_percent (s_jitter s) in
  mkPyMetrics (Metrics_snapshot (s_metrics s) fill).
End python.

(** ** The same sessions as through the C interface *)

(** The C heap holds the same session under a handle. *)
Definition same_session (st : Ffi) (handle : Z) (self : PySession) : Prop :=
  ff_heap st !! handle = Some (mkSessionInner (ps_id self) (ps_world self)).

(** Two calls that change the session alike and agree on success, failure,
    panicking and blocking. *)
Definition corresponds {A B} (handle : Z) (status : A → GsStatus) (c : Ffi * fres A)
    (py : PySession * PyResult B) : Prop :=
  same_session c.1 handle py.1
  ∧ match py.2, c.2 with
    | PyOk _, Returns a => status a = GS_OK
    | PyRaise _, Returns a => status a ≠ GS_OK
    | PyPanic, Aborts | PyBlocks, Blocks => True
    | _, _ => False
    end.

Lemma show_ipv4_ascii octets : length octets = 4%nat → bytes octets → ascii (show_ipv4 octets).
Proof.
  intros Hl Hb. destruct octets as [|a [|b [|c [|d [|]]]]]; try discriminate Hl.
  unfold bytes in Hb. rewrite !Forall_cons in Hb. destruct Hb as (Ha & Hb & Hc & Hd & _).
  unfold u8 in *. unfold show_ipv4. cbn [lookup_total list_lookup_total]. rewrite !ascii_app.
  assert (ascii [46]) by (apply (bool_decide_unpack _); vm_compute; exact I).
  split_and!; try done; apply digits_ascii, show_digits; lia.
Qed.

Lemma parse_ip_v4 octets :
  length octets = 4%nat → bytes octets → parse_ip_addr (show_ipv4 octets) = Some (V4 octets).
Proof.
  intros Hl Hb. pose proof (read_ipv4_show octets [] Hl Hb I) as Hr. rewrite app_nil_r in Hr.
  unfold parse_ip_addr, parse_with, read_ip_addr, read_or, mbind, reader_bind, mret, reader_ret.
  by rewrite Hr.
Qed.

Lemma peer_ip_v4 octets :
  length octets = 4%nat → bytes octets → peer_ip (show_ipv4 octets) = Some (V4 octets).
Proof.
  intros Hl Hb. unfold peer_ip, from_utf8. rewrite valid_utf8_ascii by (by apply show_ipv4_ascii).
  by apply parse_ip_v4.
Qed.

Section correspondence.
Context `{Aead} `{FfiHost}.

(** [block_on] of both bindings. *)
Lemma block_on_corresponds {A} st handle self (op : Env → SM (option A)) err call status :
  same_session st handle self → status ≠ GS_OK →
  corresponds handle id ((r ← block_on handle op; report call status r) st)
    (py_block_on self op err).
Proof.
  intros Hs Hst. unfold corresponds, same_session in *. unfold mbind, FM_bind, block_on, py_block_on.
  rewrite Hs. cbn [si_id si_world]. destruct (op _ _) as [w [[a|]|e|]]; simpl;
    (split; [by rewrite lookup_insert_eq|done]).
Qed.

Lemma handshake_corresponds st handle self role octets port :
  handle ≠ 0 → same_session st handle self →
  length octets = 4%nat → bytes octets → u16 port →
  corresponds handle id (handshake_common handle (Some (show_ipv4 octets)) port role st)
    (py_handshake self (ff_calls st) role (show_ipv4 octets) port).
Proof.
  intros Hh Hs Hl Hb Hp. unfold handshake_common, py_handshake.
  rewrite (proj2 (Z.eqb_neq _ _)) by done. rewrite parse_host_port_v4, peer_ip_v4 by done.
  pose proof (block_on_corresponds st handle self
    (λ env, always (handshake role (ff_calls st) (mkSocketAddr (V4 octets) port) env))
    PyRuntimeError "handshake" GS_ERR_HANDSHAKE Hs) as Hc.
  unfold mbind, FM_bind, deref, call_number in *. unfold same_session in Hs. rewrite Hs. by apply Hc.
Qed.

Lemma close_done (w : World) (E : Env) : ∃ w', close (H := E) w = (w', Done tt).
Proof.
  unfold close. do 4 (erewrite SM_bind_done; [|done]). cbn [w_sess].
  match goal with |- context [(_ ≫= _) ?w1] => set (v := w1) end.
  assert (∃ w1, (match s_peer (w_sess v) with
     | Some p => ignore (send_control MtClose (s_session_id (w_sess v)) [] p)
     | None => mret tt end) v = (w1, Done tt)) as [w1 Hw1].
  { destruct (s_peer (w_sess v)); [|by exists v].
    destruct (no_crash_send_control MtClose (s_session_id (w_sess v)) [] s v) as (w1 & ? & _).
    by exists w1. }
  erewrite SM_bind_done; [|exact Hw1]. unfold mbind, SM_bind, mret, SM_ret, transition.
  destruct (SessionStateMachine_transition _ _) as [sm r]. simpl.
  destruct (SessionStateMachine_transition _ _) as [sm' r']. by eexists.
Qed.

(** C27: the Python and the C interface agree: for a session that both hold,
    [connect] and [accept] with an IPv4 address, [send_audio], [close] and
    [recv_audio] change it in the same way, succeed, fail, panic and block
    together, a received frame is the same bytes (or too large for the
    caller's buffer in C), [close] never raises, and [session_id] and
    [metrics] return the same values. *)
Theorem python_matches_c st handle self :
  handle ≠ 0 → same_session st handle self →
  (∀ octets port, length octets = 4%nat → bytes octets → u16 port →
     corresponds handle id (gs_session_connect handle (Some (show_ipv4 octets)) port st)
       (PySession_connect self (ff_calls st) (show_ipv4 octets) port)
     ∧ corresponds handle id (gs_session_accept handle (Some (show_ipv4 octets)) port st)
         (PySession_accept self (ff_calls st) (show_ipv4 octets) port))
  ∧ (∀ data, corresponds handle id (gs_session_send_audio handle (Some data) (length data) st)
               (PySession_send_audio self data))
  ∧ (corresponds handle id (gs_session_close handle st) (PySession_close self)
     ∧ (PySession_close self).2 = PyOk tt)
  ∧ (∀ cap,
       let '(st', c) := gs_session_recv_audio handle (Some cap) (Some cap) st in
       let '(self', py) := PySession_recv_audio self in
       same_session st' handle self'
       ∧ match py, c with
         | PyOk payload, Returns (status, out, len) =>
             len = Some (length payload)
             ∧ if decide (length payload ≤ cap)%nat then status = GS_OK ∧ out = payload
               else status = GS_ERR_BUFFER_TOO_SMALL ∧ out = []
         | PyRaise _, Returns (status, out, len) => status = GS_ERR_IO ∧ out = [] ∧ len = Some cap
         | PyPanic, Aborts | PyBlocks, Blocks => True
         | _, _ => False
         end)
  ∧ gs_session_id handle true st = (st, Returns (GS_OK, Some (PySession_session_id self)))
  ∧ gs_session_metrics handle true st
    = (st, Returns (GS_OK, Some (GsMetrics_from (pm_snap (PySession_metrics self))))).
Proof.
  intros Hh Hs. pose proof (proj2 (Z.eqb_neq handle 0) Hh) as Hz. split_and!.
  - intros octets port Hl Hb Hp. split; by apply handshake_corresponds.
  - intros data. unfold gs_session_send_audio. rewrite Hz.
    pose proof (block_on_corresponds st handle self
      (λ env, always (send_audio (H := env) data)) PyIOError "send_audio" GS_ERR_IO Hs) as Hc.
    unfold from_raw_parts. rewrite Nat.leb_refl, firstn_all. cbn [orb is_null andb].
    unfold mbind, FM_bind, deref, mret, FM_ret in *. unfold same_session in Hs. rewrite Hs.
    by apply Hc.
  - unfold gs_session_close, PySession_close, corresponds, same_session in *. rewrite Hz.
    unfold mbind, FM_bind, block_on, py_block_on. rewrite Hs. cbn [si_id si_world].
    unfold always, mbind, SM_bind. destruct (close_done (ps_world self) (fh_env (ps_id self))) as [w ->].
    simpl. split; [by rewrite lookup_insert_eq|done].
  - unfold PySession_close, py_block_on, always, mbind, SM_bind.
    by destruct (close_done (ps_world self) (fh_env (ps_id self))) as [w ->].
  - intros cap. unfold gs_session_recv_audio, PySession_recv_audio, same_session in *. rewrite Hz.
    unfold mbind, FM_bind, block_on, py_block_on. rewrite Hs. cbn [si_id si_world].
    destruct (recv_audio _ _) as [w [[frame|]|e|]]; simpl; rewrite ?lookup_insert_eq; try done.
    destruct (Nat.ltb_spec cap (length (fr_payload frame))); simpl; rewrite ?lookup_insert_eq;
      (split; [done|]).
    + split; [done|]. by rewrite decide_False by lia.
    + split; [done|]. by rewrite decide_True by lia.
  - unfold gs_session_id, read_session. rewrite Hz. unfold mbind, FM_bind, deref, same_session in *.
    cbn [orb negb]. by rewrite Hs.
  - unfold gs_session_metrics, read_session. rewrite Hz.
    unfold mbind, FM_bind, deref, same_session in *. cbn [orb negb]. by rewrite Hs.
Qed.
End correspondence.

(** IPv6: the C interface takes the address as it is, the Python one only in
    brackets, because it parses [host:port]. *)
Example python_ipv6_host :
  peer_ip (ascii_bytes "::1") = Some (V6 [0; 0; 0; 0; 0; 0; 0; 0; 0; 0; 0; 0; 0; 0; 0; 1])
  ∧ parse_socket_addr (host_port (ascii_bytes "::1") 9000) = None
  ∧ parse_socket_addr (host_port (ascii_bytes "[::1]") 9000)
    = Some (mkSocketAddr (V6 [0; 0; 0; 0; 0; 0; 0; 0; 0; 0; 0; 0; 0; 0; 0; 1]) 9000).
Proof. split_and!; vm_compute; reflexivity. Qed.

(** ** Programs *)

Inductive PyCall : Type :=
  | PyConnect (n : nat) (host : list Z) (port : Z)
  | PyAccept (n : nat) (host : list Z) (port : Z)
  | PySendAudio (data : list Z)
  | PyRecvAudio
  | PyClose.

(** A call's result without its value. *)
Definition py_status {A} (r : PyResult A) : PyResult unit :=
  match r with
  | PyOk _ => PyOk tt
  | PyRaise e => PyRaise e
  | PyPanic => PyPanic
  | PyBlocks => PyBlocks
  end.

Section programs.
Context `{AeadLaws} `{KexLaws} `{!FfiHost}.

Definition py_call (c : PyCall) (self : PySession) : PySession * PyResult unit :=
  match c with
  | PyConnect n host port => PySession_connect self n host port
  | PyAccept n host port => PySession_accept self n host port
  | PySendAudio data => PySession_send_audio self data
  | PyRecvAudio => let '(self, r) := PySession_recv_audio self in (self, py_status r)
  | PyClose => PySession_close self
  end.

(** The calls in turn; the program catches the exceptions. *)
Fixpoint py_run (calls : list PyCall) (self : PySession) : PySession * list (PyResult unit) :=
  match calls with
  | [] => (self, [])
  | c :: calls =>
      let '(self, r) := py_call c self in
      let '(self, rs) := py_run calls self in
      (self, r :: rs)
  end.

(** What the host promises: a 64-bit clock, datagrams of bytes, 32-bit
    session ids, and a build without overflow checks. *)
Record py_host_ok : Prop := {
  pho_clock n : EnvLaws (H := fh_env n);
  pho_bytes n : EnvBytes (H := fh_env n);
  pho_ids n k : u32 (sr_session_id (fh_server_random n k));
  pho_release n : env_overflow_checks (Env := fh_env n) = false;
}.

Context (Hhost : py_host_ok).

Lemma py_block_on_safe {A} self (op : Env → SM (option A)) err Q :
  safe (H := fh_env (ps_id self)) (talks := true) (op (fh_env (ps_id self))) Q →
  session_typed (w_sess (ps_world self)) →
  session_typed (w_sess (ps_world (py_block_on self op err).1))
  ∧ (py_block_on self op err).2 ≠ PyPanic.
Proof.
  intros Hop Hs. unfold py_block_on. specialize (Hop _ Hs).
  destruct (op _ _) as [w [[a|]|e|]]; simpl in *; destruct Hop as [Hw Hr]; (split; [done|]); try done.
  by rewrite pho_release in Hr.
Qed.

Lemma safe_always {A} `{E : Env} (m : SM A) Q :
  safe (talks := true) m Q → safe (talks := true) (always m) (λ _, True).
Proof.
  intros Hm. eapply safe_bind; [exact Hm|]. intros a _. by apply safe_ret.
Qed.

Lemma py_call_safe c self :
  session_typed (w_sess (ps_world self)) →
  session_typed (w_sess (ps_world (py_call c self).1)) ∧ (py_call c self).2 ≠ PyPanic.
Proof.
  intros Hs. pose proof (pho_clock Hhost (ps_id self)). pose proof (pho_bytes Hhost (ps_id self)).
  destruct c; cbn [py_call].
  - unfold PySession_connect, py_handshake. case_match; [|done]. eapply py_block_on_safe; [|done].
    eapply safe_always, safe_handshake_as_client.
  - unfold PySession_accept, py_handshake. case_match; [|done]. eapply py_block_on_safe; [|done].
    eapply safe_always, safe_handshake_as_server, Hhost.
  - eapply py_block_on_safe; [|done]. eapply safe_always, safe_send_audio.
  - unfold PySession_recv_audio.
    pose proof (py_block_on_safe self (λ env, recv_audio (H := env) fh_fuel) PyIOError (λ _, True)
      (safe_recv_audio _) Hs) as [Hw Hp].
    destruct (py_block_on _ _ _) as [self' []]; done.
  - eapply py_block_on_safe; [|done]. eapply safe_always, safe_close.
Qed.

Lemma py_run_safe calls : ∀ self,
  session_typed (w_sess (ps_world self)) →
  session_typed (w_sess (ps_world (py_run calls self).1))
  ∧ Forall (λ r, r ≠ PyPanic) (py_run calls self).2.
Proof.
  induction calls as [|c calls IH]; intros self Ht; simpl; [done|].
  destruct (py_call_safe c self Ht) as [Ht1 Hp]. destruct (py_call c self) as [self1 r].
  specialize (IH self1 Ht1). destruct (py_run calls self1) as [self2 rs]. simpl in *.
  destruct IH. split; [done|by constructor].
Qed.

(** Arguments of their Rust types. *)
Definition py_config_args (sample_rate channels frame_duration_ms jitter_buffer_ms : Z) : Prop :=
  u32 sample_rate ∧ u8 channels ∧ u8 frame_duration_ms ∧ u16 jitter_buffer_ms.

(** Python programs are safe: constructing a session raises [ValueError]
    exactly when the bind address is not the text of an IP address, and
    panics only when the jitter buffer spans more than 2048 frames; on a
    constructed session any sequence of calls, whatever the network delivers
    and whichever calls raise, keeps all fields within their types, and no
    call panics. *)
Theorem python_sessions_safe n sr ch fd jb addr port calls :
  py_config_args sr ch fd jb →
  let config := PyConfig_new (Some sr) (Some ch) (Some fd) (Some jb) in
  match PySession_new n (Some config) addr port with
  | PyOk self =>
      parse_ip_addr addr ≠ None ∧ jb / Z.max fd 1 ≤ 2048
      ∧ session_typed (w_sess (ps_world (py_run calls self).1))
      ∧ Forall (λ r, r ≠ PyPanic) (py_run calls self).2
  | PyRaise e => e = PyValueError ↔ parse_ip_addr addr = None
  | PyPanic => 2048 < jb / Z.max fd 1
  | PyBlocks => False
  end.
Proof.
  intros (Hsr & Hch & Hfd & Hjb) config. unfold PySession_new.
  destruct (parse_ip_addr addr) as [ip|]; [|done].
  destruct (UdpTransport_bind _); [|done]. destruct (fh_local_addr n) as [local|]; [|done].
  assert (config_wf (pc_inner config)) as Hc by (split_and!; [done|done|vm_compute; split; congruence]).
  pose proof (session_new_panics_iff _ Hc) as Hnew.
  destruct (Session_new (pc_inner config)) as [s|] eqn:Es.
  - destruct Hnew as (_ & Hle & _). split; [done|]. split; [done|].
    apply py_run_safe. apply (session_inv_new true _ s Hc); [|exact Es].
    repeat constructor; vm_compute; congruence.
  - destruct Hnew as [Hb|?]; [|done]. vm_compute in Hb. discriminate Hb.
Qed.
End programs.

(** ** A program *)

Lemma sample_host_ok : py_host_ok (H3 := sample_process).
Proof.
  split.
  - intros n. split. intros k. simpl. pose proof (Nat.mod_upper_bound k 1000). unfold u64. lia.
  - intros n k data from. discriminate.
  - intros n k. apply (bool_decide_unpack _). vm_compute. exact I.
  - done.
Qed.

Definition sample_py_calls : list PyCall :=
  [PyConnect 0 (ascii_bytes "127.0.0.1") 9000; PySendAudio [1; 2]; PyRecvAudio;
   PyAccept 1 (ascii_bytes "::1") 9000; PyClose].

Lemma python_sessions_safe_witness :
  ∃ self, PySession_new 0 (Some (PyConfig_new (Some 48000) (Some 1) (Some 20) (Some 40)))
            (ascii_bytes "0.0.0.0") 0 = PyOk self
    ∧ session_typed (w_sess (ps_world (py_run (H := toy_aead) sample_py_calls self).1))
    ∧ Forall (λ r, r ≠ PyPanic) (py_run (H := toy_aead) sample_py_calls self).2.
Proof.
  pose proof (python_sessions_safe (H := toy_aead) sample_host_ok 0 48000 1 20 40
                (ascii_bytes "0.0.0.0") 0 sample_py_calls
                ltac:(split_and!; vm_compute; split; congruence)) as Hs.
  cbv zeta in Hs.
  destruct (PySession_new 0 _ (ascii_bytes "0.0.0.0") 0) as [self|e| |] eqn:E;
    [|exfalso; vm_compute in E; discriminate E..].
  exists self. split; [reflexivity|]. apply Hs.
Defined.

(** A C session and a Python session on the same socket. *)
Definition shared_py : PySession :=
  mkPySession 0 (mkWorld (sample_session (replicate 32 1) (replicate 32 2)) [] 0 0) sample_peer.

Definition shared_ffi : Ffi := mkFfi {[ 5 := mkSessionInner 0 (ps_world shared_py) ]} None 3 1.

Lemma python_matches_c_witness :
  corresponds 5 id (gs_session_send_audio (H := toy_aead) 5 (Some [1; 2; 3]) 3 shared_ffi)
    (PySession_send_audio (H := toy_aead) shared_py [1; 2; 3])
  ∧ (PySession_close shared_py).2 = PyOk tt.
Proof.
  destruct (python_matches_c (H := toy_aead) shared_ffi 5 shared_py) as (_ & Hsend & [_ Hclose] & _).
  - discriminate.
  - unfold same_session. simpl. apply lookup_singleton_eq.
  - split; [exact (Hsend [1; 2; 3])|exact Hclose].
Defined.
