(* ===== verification/Tone.v ===== *)
(** * Push-to-talk tones

    Models [gravital-talk-transport/src/tone.rs].  The sine of the platform's
    math library is the class [Libm]. *)

From Stdlib Require Import SpecFloat.
From S2P Require Import Prelude.
From S2P Require Import CoreTypes.
From S2P Require Import Header.
From S2P Require Import Packet.
From S2P Require Import SessionFsm.
From S2P Require Import Crypto.
From S2P Require Import Ieee.
From S2P Require Import Transport.
From S2P Require Import Session.
From S2P Require Import SessionSeq.
From S2P Require Import Audio.
From S2P Require Import Codec.
From S2P Require Import AudioIo.
From S2P Require Import Resampler.
From stdpp Require Import strings list.
#[local] Open Scope Z_scope.

Class Libm : Type := { f32_sin : float → float }.

(** [std::f32::consts::PI] and [TAU] *)
Definition PI : float := S754_finite false 13176795 (-22).
Definition TAU : float := S754_finite false 13176795 (-21).

Definition PTT_PRESS_FREQ_HZ : float := f32_of_Z 880.
Definition PTT_RELEASE_FREQ_HZ : float := f32_of_Z 440.
Definition PTT_PRESS_DURATION_MS : Z := 100.
Definition PTT_RELEASE_DURATION_MS : Z := 80.

(** [2.0 * PI * freq_hz / sample_rate as f32] *)
Definition phase_step (freq_hz : float) (sample_rate : Z) : float :=
  f32_div (f32_mul (f32_mul (f32_of_Z 2) PI) freq_hz) (f32_of_Z sample_rate).

(** [phase += step; if phase > TAU { phase -= TAU }] *)
Definition next_phase (step phase : float) : float :=
  let phase := f32_add phase step in
  if f_gt phase TAU then f32_sub phase TAU else phase.

Section tone.
Context `{Libm}.

Fixpoint tone_loop (n : nat) (step phase : float) : list Z :=
  match n with
  | O => []
  | S n =>
      f_to_i16 (f32_mul (f32_sin phase) (f32_of_Z 20000)) :: tone_loop n step (next_phase step phase)
  end.

Definition generate_pcm_tone (freq_hz : float) (duration_ms sample_rate : Z) : list Z :=
  let n_samples := Z.to_nat (sample_rate * duration_ms / 1000) in
  tone_loop n_samples (phase_step freq_hz sample_rate) (f32_of_Z 0).

Fixpoint pcm_to_bytes (samples : list Z) : list Z :=
  match samples with
  | [] => []
  | s :: samples => let '(lo, hi) := i16_to_le s in [lo; hi] ++ pcm_to_bytes samples
  end.

Definition ptt_press_tone (sample_rate : Z) : list Z :=
  pcm_to_bytes (generate_pcm_tone PTT_PRESS_FREQ_HZ PTT_PRESS_DURATION_MS sample_rate).
Definition ptt_release_tone (sample_rate : Z) : list Z :=
  pcm_to_bytes (generate_pcm_tone PTT_RELEASE_FREQ_HZ PTT_RELEASE_DURATION_MS sample_rate).

Lemma pcm_to_bytes_le samples : pcm_to_bytes samples = le_bytes samples.
Proof. induction samples as [|s samples IH]; [done|]. simpl. by rewrite IH. Qed.

Lemma tone_loop_spec n step : ∀ phase,
  length (tone_loop n step phase) = n ∧ Forall i16 (tone_loop n step phase).
Proof.
  induction n as [|n IH]; intros phase; simpl; [done|].
  destruct (IH (next_phase step phase)) as [-> ?]. split; [done|].
  constructor; [apply f_to_i16_range|done].
Qed.
End tone.

(** ** Payloads that fit no packet *)

Section limits.
Context `{Env} `{AeadLaws}.

Lemma transmit_too_large h payload peer w :
  (MAX_PAYLOAD_SIZE < length payload)%nat →
  transmit h payload peer w = (w, Fail (TeProtocol PayloadTooLarge)).
Proof.
  intros Hl. unfold transmit. erewrite SM_bind_done by done. apply SM_bind_fail.
  unfold proto, PacketBuilder_encode. by rewrite decide_True.
Qed.

Lemma seal_length key seq sid h plain w :
  (∃ e, Session.seal key seq sid h plain w = (w, Fail e))
  ∨ ∃ out, Session.seal key seq sid h plain w = (w, Done out)
      ∧ length out = (length plain + TAG_SIZE)%nat.
Proof.
  unfold Session.seal. destruct (PacketHeader_encode _ _) as [hdr|e] eqn:Hh.
  2:{ left. exists (TeProtocol e). by apply SM_bind_fail. }
  erewrite SM_bind_done by done. cbv zeta. set (buffer := plain ++ replicate TAG_SIZE 0).
  assert (length buffer = (length plain + TAG_SIZE)%nat ∧ take (length plain) buffer = plain)
    as [Hbuf Htake]
    by (unfold buffer; by rewrite length_app, length_replicate, take_app_length).
  clearbody buffer. destruct (encrypt_in_place _ _ _ _ _) as [r|e] eqn:He.
  2:{ left. exists (TeProtocol e). by apply SM_bind_fail. }
  right. exists (take r.2 r.1). erewrite SM_bind_done by done. split; [done|].
  unfold encrypt_in_place in He. case_decide as Hd; [done|]. rewrite Htake in He.
  destruct (aead_encrypt _ _ _ _) as [[ct tag]|] eqn:Ha; [|done].
  apply aead_encrypt_length in Ha as [Hct Htag]. injection He as <-. cbn [fst snd].
  assert (length (blit 0 ct buffer) = length buffer) as Hb1 by (apply length_blit; lia).
  rewrite length_take, length_blit; lia.
Qed.

(** A payload that no packet can hold is never sent. *)
Lemma send_audio_too_large payload w :
  (MAX_PAYLOAD_SIZE < length payload)%nat →
  ∃ w' e, send_audio payload w = (w', Fail e) ∧ w_out w' = w_out w.
Proof.
  intros Hl. unfold send_audio. erewrite SM_bind_done by done.
  case_decide; [by eexists _, _|]. destruct (s_peer (w_sess w)) as [peer|]; [|by eexists _, _].
  unfold next_audio_seq, next_sequence, micros_since_epoch.
  do 4 (erewrite SM_bind_done by done).
  set (w1 := mkWorld _ _ _ _). destruct (s_encrypt_key (w_sess w1)) as [key|].
  - match goal with |- context [Session.seal ?k ?q ?i ?h ?p] =>
      destruct (seal_length k q i h p w1) as [(e & Hs)|(out & Hs & Ho)] end.
    + exists w1, e. split; [|done]. apply SM_bind_fail, SM_bind_fail, Hs.
    + exists w1, (TeProtocol PayloadTooLarge). split; [|done]. apply SM_bind_fail.
      erewrite SM_bind_done by exact Hs. apply transmit_too_large. rewrite Ho, length_app. lia.
  - exists w1, (TeProtocol PayloadTooLarge). split; [|done]. apply SM_bind_fail.
    apply transmit_too_large. rewrite length_app. lia.
Qed.
End limits.

(** The push-to-talk tones.  A tone has one 16-bit sample per sampling
    interval of its duration, and the PCM codec decodes its bytes back to its
    samples.  At 8 kHz and above neither tone can be given to [send_audio]:
    it holds more bytes than any packet, the call fails and nothing is
    sent. *)
Theorem ptt_tones_correct `{Libm} `{Env} `{AeadLaws} (sample_rate : Z) :
  8000 ≤ sample_rate →
  (∀ freq ms c buf,
     let tone := generate_pcm_tone freq ms sample_rate in
     length tone = Z.to_nat (sample_rate * ms / 1000) ∧ Forall i16 tone
     ∧ ((length tone ≤ length buf)%nat →
        PcmCodec_decode c (pcm_to_bytes tone) buf
        = Ok (tone ++ drop (length tone) buf,
              (length tone / Z.to_nat (Z.max (pcm_channels c) 1))%nat)))
  ∧ ∀ tone w, tone = ptt_press_tone sample_rate ∨ tone = ptt_release_tone sample_rate →
      ∃ w' e, send_audio tone w = (w', Fail e) ∧ w_out w' = w_out w.
Proof.
  intros Hr. split.
  - intros freq ms c buf tone.
    destruct (tone_loop_spec (Z.to_nat (sample_rate * ms / 1000)) (phase_step freq sample_rate)
      (f32_of_Z 0)) as [Hlen Hi].
    split_and!; [done..|]. intros Hb. rewrite pcm_to_bytes_le. by apply PcmCodec_decode_ok.
  - intros tone w Htone. apply send_audio_too_large.
    assert (∀ freq ms, 80 ≤ ms →
      (MAX_PAYLOAD_SIZE < length (pcm_to_bytes (generate_pcm_tone freq ms sample_rate)))%nat) as Hbig.
    { intros freq ms Hms. rewrite pcm_to_bytes_le, length_le_bytes. unfold generate_pcm_tone.
      rewrite (proj1 (tone_loop_spec _ _ _)). unfold MAX_PAYLOAD_SIZE, DEFAULT_MTU, HEADER_SIZE.
      enough (640 ≤ sample_rate * ms / 1000) by lia. apply Z.div_le_lower_bound; nia. }
    destruct Htone as [-> | ->]; by apply Hbig.
Qed.

(** A crude sine, for the examples. *)
Definition flat_sine : Libm := {| f32_sin _ := f32_of_Z 1 |}.

Lemma ptt_tones_correct_witness :
  length (generate_pcm_tone (H := flat_sine) (f32_of_Z 880) 1 8000) = 8%nat
  ∧ ∀ w, ∃ w' e, send_audio (H := quiet_env) (H0 := toy_aead)
      (ptt_press_tone (H := flat_sine) 48000) w = (w', Fail e) ∧ w_out w' = w_out w.
Proof.
  split.
  - exact (proj1 (proj1 (ptt_tones_correct (H := flat_sine) (H0 := quiet_env) (H1 := toy_aead)
      8000 ltac:(lia)) (f32_of_Z 880) 1 (PcmCodec_new 8000 1 1) [])).
  - intros w. apply (ptt_tones_correct (H := flat_sine) (H0 := quiet_env) (H1 := toy_aead) 48000);
      [lia|left; reflexivity].
Defined.
