(* ===== verification/CliAudio.v ===== *)
(** * Sending and receiving from the command line

    Models the part of [gravital-talk-cli/src/main.rs] behind [gs send] and
    [gs receive]: the sources of frames (a sine, a WAV file, a microphone)
    and the loops that send and receive them.  The contents of a WAV file
    ([hound]) and the frames of a microphone are arguments. *)

From Stdlib Require Import SpecFloat.
From S2P Require Import Prelude.
From S2P Require Import CoreTypes.
From S2P Require Import Text.
From S2P Require Import SessionFsm.
From S2P Require Import Crypto.
From S2P Require Import Ieee.
From S2P Require Import Transport.
From S2P Require Import NetAddr.
From S2P Require Import Session.
From S2P Require Import SessionSeq.
From S2P Require Import Handshake.
From S2P Require Import Codec.
From S2P Require Import CodecSession.
From S2P Require Import Udp.
From S2P Require Import AudioIo.
From S2P Require Import Tone.
From stdpp Require Import strings list.
#[local] Open Scope Z_scope.

(** ** Sources of frames *)

Section sine.
Context `{Libm}.

(** The samples of one frame, and the phase after it. *)
Fixpoint sine_samples (n : nat) (channels : nat) (step phase : float) : list Z * float :=
  match n with
  | O => ([], phase)
  | S n =>
      let sample := f_to_i16 (f32_mul (f32_sin phase) (f32_of_Z 16000)) in
      let '(rest, last) := sine_samples n channels step (next_phase step phase) in
      (replicate channels sample ++ rest, last)
  end.

(** The iterator of [sine_frames_i16]; with no channels the division
    panics. *)
Definition sine_next (samples_per_frame : nat) (channels sample_rate : Z) (phase : float) :
    checked (option (list Z * float)) :=
  if channels =? 0 then Panic
  else
    let mono_samples := (samples_per_frame / Z.to_nat channels)%nat in
    Val (Some (sine_samples mono_samples (Z.to_nat channels)
                 (phase_step (f32_of_Z 440) sample_rate) phase)).
End sine.

(** The iterator of [wav_frames_i16]. *)
Definition wav_next (samples_per_frame : nat) (samples : list Z) :
    checked (option (list Z * list Z)) :=
  match samples with
  | [] => Val None
  | _ =>
      let n := Nat.min samples_per_frame (length samples) in
      Val (Some (take n samples, drop n samples))
  end.

(** A WAV file as [hound] reads it: its channels and, if all of them can be
    read, its samples. *)
Record Wav : Type := mkWav {
  wav_channels : Z;
  wav_samples : option (list Z);
}.

Inductive CliError : Type :=
  | BadAddress
  | CliIo
  | WavError
  | WavChannels
  | CliAudio (e : IoError)
  | CliSession (e : CodecSessionError).

Definition wav_open (file : option Wav) (channels : Z) : result CliError (list Z) :=
  match file with
  | None => Err WavError
  | Some w =>
      if negb (wav_channels w =? channels) then Err WavChannels
      else match wav_samples w with Some samples => Ok samples | None => Err WavError end
  end.

(** ** The sending loop *)

Section send.
Context `{Audiopus} `{Env} `{Aead}.

(** [for samples in iter.take(total)]: the frames sent. *)
Fixpoint send_next {S} (next : S → checked (option (list Z * S))) (total : nat) (src : S) : CM nat :=
  match total with
  | O => mret 0%nat
  | Datatypes.S total =>
      match next src with
      | Panic => ccrash
      | Val None => mret 0%nat
      | Val (Some (frame, src)) =>
          _ ← send_samples frame;
          sent ← send_next next total src;
          mret (Datatypes.S sent)
      end
  end.

(** [while let Ok(samples) = rx.recv()] *)
Fixpoint send_captured (frames : list (list Z)) : CM unit :=
  match frames with
  | [] => mret tt
  | frame :: frames => _ ← send_samples frame; send_captured frames
  end.

(** The frames the PCM encoder takes, one after the other. *)
Fixpoint send_pcm (frames : list (list Z)) : CM nat :=
  match frames with
  | [] => mret 0%nat
  | f :: frames =>
      _ ← inner (send_audio (le_bytes f));
      sent ← send_pcm frames;
      mret (Datatypes.S sent)
  end.

Lemma CM_bind_ext {A B} (m : CM A) (f g : A → CM B) s w :
  (∀ a s' w', m s w = (s', w', CDone a) → f a s' w' = g a s' w') → (m ≫= f) s w = (m ≫= g) s w.
Proof.
  intros Hfg. unfold mbind, CM_bind. destruct (m s w) as [[s' w'] [a| |]] eqn:Hm; [|done..].
  by apply Hfg.
Qed.

Lemma CM_bind_head {A B} (m m' : CM A) (f : A → CM B) s w :
  m s w = m' s w → (m ≫= f) s w = (m' ≫= f) s w.
Proof. intros Hm. unfold mbind, CM_bind. by rewrite Hm. Qed.

Lemma CM_bind_assoc {A B C} (m : CM A) (f : A → CM B) (g : B → CM C) s w :
  ((m ≫= f) ≫= g) s w = (m ≫= λ a, f a ≫= g) s w.
Proof. unfold mbind, CM_bind. by destruct (m s w) as [[s' w'] []]. Qed.

Lemma inner_keeps {A} (m : SM A) s w s' w' a : inner m s w = (s', w', CDone a) → s' = s.
Proof. unfold inner. destruct (m w) as [? []]; naive_solver. Qed.

Lemma send_samples_mismatch c samples s w :
  cs_encoder s = DynPcm c → length samples ≠ total_samples c →
  send_samples samples s w
  = (s, w, CFail (CsCodec (CeFrameSizeMismatch (total_samples c) (length samples)))).
Proof.
  intros Henc Hl. unfold send_samples, mbind, CM_bind, cget, cmodify, codec.
  rewrite Henc. cbn [dyn_encode]. unfold PcmCodec_encode. rewrite (proj2 (Nat.eqb_neq _ _)) by done.
  replace (set_encoder (DynPcm c) s) with s by (rewrite <- Henc; by destruct s). done.
Qed.

(** What becomes of the samples of a file: the frames sent whole, and what
    is left. *)
Lemma send_wav_frames c frames : ∀ total rest s w,
  cs_encoder s = DynPcm c → (pcm_wire_bytes c ≤ Nat.max (cs_mtu s) (Z.to_nat 1500))%nat →
  (0 < total_samples c)%nat → Forall (λ f, length f = total_samples c) frames →
  (length rest < total_samples c)%nat → (length frames < total)%nat →
  send_next (wav_next (total_samples c)) total (concat frames ++ rest) s w
  = (sent ← send_pcm frames;
     match rest with
     | [] => mret sent
     | _ => cthrow (CsCodec (CeFrameSizeMismatch (total_samples c) (length rest)))
     end) s w.
Proof.
  induction frames as [|f frames IH]; intros [|total] rest s w Henc Hfit Hpos Hfr Hrest Htot;
    simpl in Htot; [lia| |lia|].
  - simpl. destruct rest as [|x rest]; [done|]. cbn [wav_next].
    rewrite Nat.min_r by lia. rewrite firstn_all.
    unfold mbind, CM_bind. rewrite (send_samples_mismatch c) by (done || lia). done.
  - apply Forall_cons in Hfr as [Hf Hfr]. cbn [concat]. rewrite <- app_assoc.
    destruct f as [|x f]; [simpl in Hf; lia|]. cbn [send_next send_pcm app wav_next].
    change (x :: f ++ concat frames ++ rest) with ((x :: f) ++ concat frames ++ rest).
    rewrite Nat.min_l by (rewrite length_app; lia).
    rewrite take_app_length', drop_app_length' by done.
    rewrite CM_bind_assoc.
    rewrite (CM_bind_head _ (inner (send_audio (le_bytes (x :: f))))) by by apply (send_samples_pcm c).
    apply CM_bind_ext. intros [] s' w' ->%inner_keeps. rewrite CM_bind_assoc.
    rewrite (CM_bind_head _ _ _ _ _ (IH total rest s w' Henc Hfit Hpos Hfr Hrest ltac:(lia))).
    rewrite CM_bind_assoc. apply CM_bind_ext. intros n s2 w2 _. by destruct rest.
Qed.
End send.

(** ** The commands *)

Inductive cli (A : Type) : Type :=
  | CliOk (a : A)
  | CliErr (e : CliError)
  | CliPanic.
Arguments CliOk {A} a.
Arguments CliErr {A} e.
Arguments CliPanic {A}.

(** [?] on the outcome of a session operation. *)
Definition cli_of {A} (r : coutcome A) : cli A :=
  match r with CDone a => CliOk a | CFail e => CliErr (CliSession e) | CCrash => CliPanic end.

(** [Config { sample_rate, channels, frame_duration_ms: 10, ..Config::default() }] *)
Definition stream_config (sample_rate channels : Z) : Config :=
  mkConfig sample_rate channels 10 (cfg_max_bitrate Config_default)
    (cfg_codec_preferred Config_default) (cfg_supported_codecs Config_default)
    (cfg_capability_flags Config_default) (cfg_jitter_buffer_ms Config_default)
    (cfg_mtu Config_default).

(** What [gs send] takes its frames from: a microphone, by the result of
    opening it and the frames it delivers, a sine, or a file. *)
Inductive source : Type :=
  | FromDevice (frames : result IoError (list (list Z)))
  | FromSine
  | FromWav (file : option Wav).

Lemma frame_len_pcm sample_rate channels :
  0 ≤ sample_rate → 0 ≤ channels →
  frame_len sample_rate 10 channels = total_samples (PcmCodec_new sample_rate channels 10).
Proof.
  intros Hr Hc. unfold frame_len, total_samples, samples_per_channel. simpl.
  rewrite Z2Nat.inj_mul; [done|apply Z.div_pos; lia|done].
Qed.

Section commands.
Context `{Libm} `{Audiopus} `{Env} `{Aead} `{Kex}.

(** [duration_s * frames_per_sec] in 64 bits *)
Definition total_frames (duration_s : Z) : checked nat :=
  let total := duration_s * 100 in
  if env_overflow_checks && (u64_MAX <? total) then Panic else Val (Z.to_nat (wrap64 total)).

(** The sending half of [cmd_send], with the closing of the session. *)
Definition send_stream (src : source) (duration_s sample_rate channels : Z) (s : CodecSession)
    (w : World) : World * cli unit :=
  let samples_per_frame := frame_len sample_rate 10 channels in
  let close_after (r : CodecSession * World * coutcome nat) : World * cli unit :=
    match r with
    | (s, w, CDone _) => let '(s, w, r) := cs_close s w in (w, cli_of r)
    | (s, w, CFail e) => (w, CliErr (CliSession e))
    | (s, w, CCrash) => (w, CliPanic)
    end in
  match src with
  | FromDevice (Err e) => (w, CliErr (CliAudio e))
  | FromDevice (Ok frames) => close_after ((_ ← send_captured frames; mret 0%nat) s w)
  | FromSine =>
      match total_frames duration_s with
      | Panic => (w, CliPanic)
      | Val total =>
          close_after (send_next (sine_next samples_per_frame channels sample_rate) total
                         (f32_of_Z 0) s w)
      end
  | FromWav file =>
      match total_frames duration_s with
      | Panic => (w, CliPanic)
      | Val total =>
          match wav_open file channels with
          | Err e => (w, CliErr e)
          | Ok samples => close_after (send_next (wav_next samples_per_frame) total samples s w)
          end
      end
  end.

(** Parsing the peer, binding, building the session and the handshake; the
    beginning of [cmd_send] and of [cmd_receive]. *)
Definition open_session `{Sockets} (feature_opus : bool) (peer : option SocketAddr)
    (bind_addr : option SocketAddr) (sample_rate channels : Z) (codec_id : CodecId)
    (hs : SocketAddr → SM unit) : option World * cli (CodecSession * World) :=
  match bind_addr, peer with
  | Some bind_addr, Some peer =>
      let udp := mkUdpConfig bind_addr None DEFAULT_SOCKET_BUFFER RealTime true None in
      match UdpTransport_bind udp with
      | Err _ => (None, CliErr CliIo)
      | Ok _ =>
          match CodecSession_new feature_opus (stream_config sample_rate channels) codec_id with
          | Panic => (None, CliPanic)
          | Val (Err e) => (None, CliErr (CliSession e))
          | Val (Ok (s, session)) =>
              let '(s, w, r) := cs_handshake (hs peer) s (mkWorld session [] 0 0) in
              (Some w, match r with
                       | CDone _ => CliOk (s, w)
                       | CFail e => CliErr (CliSession e)
                       | CCrash => CliPanic
                       end)
          end
      end
  | _, _ => (None, CliErr BadAddress)
  end.

Definition any_address : SocketAddr := mkSocketAddr (V4 [0; 0; 0; 0]) 0.

Definition cmd_send `{Sockets} (feature_opus : bool) (host : list Z) (port : Z) (src : source)
    (codec_id : CodecId) (duration_s sample_rate channels : Z) (fuel : nat) (rnd : ClientRandom) :
    option World * cli unit :=
  match open_session feature_opus (parse_socket_addr (host_port host port)) (Some any_address)
          sample_rate channels codec_id (handshake_as_client fuel rnd) with
  | (_, CliOk (s, w)) =>
      let '(w, r) := send_stream src duration_s sample_rate channels s w in (Some w, r)
  | (w, CliErr e) => (w, CliErr e)
  | (w, CliPanic) => (w, CliPanic)
  end.

(** The receiving loop: [rounds] calls of [recv_samples] fit into the time,
    and the next one is cut off by it.  The samples written to the file; an
    error of the session ends the loop, not the command. *)
Fixpoint receive_loop (fuel rounds : nat) (s : CodecSession) (w : World) (written : list Z) :
    CodecSession * World * cli (list Z) :=
  match rounds with
  | O => (s, w, CliOk written)
  | S rounds =>
      match recv_samples fuel s w with
      | (s, w, CDone (Some samples)) => receive_loop fuel rounds s w (written ++ samples)
      | (s, w, CDone None) => (s, w, CliOk written)
      | (s, w, CFail _) => (s, w, CliOk written)
      | (s, w, CCrash) => (s, w, CliPanic)
      end
  end.

(** [file_ok] is whether the output file can be created and written, and
    [device] the result of opening the output device, if one is asked for. *)
Definition cmd_receive `{Sockets} (feature_opus : bool) (bind : list Z) (port : Z) (peer : list Z)
    (peer_port : Z) (file_ok : bool) (device : result IoError unit) (codec_id : CodecId)
    (rounds : nat) (sample_rate channels : Z) (fuel : nat) (rnd : ServerRandom) :
    option World * cli (list Z) :=
  match open_session feature_opus (parse_socket_addr (host_port peer peer_port))
          (parse_socket_addr (host_port bind port)) sample_rate channels codec_id
          (handshake_as_server fuel rnd) with
  | (w, CliErr e) => (w, CliErr e)
  | (w, CliPanic) => (w, CliPanic)
  | (_, CliOk (s, w)) =>
      if negb file_ok then (Some w, CliErr WavError)
      else
        match device with
        | Err e => (Some w, CliErr (CliAudio e))
        | Ok _ =>
            match receive_loop fuel rounds s w [] with
            | (s, w, CliOk written) =>
                let '(s, w, r) := cs_close s w in
                (Some w, match cli_of r with
                         | CliOk _ => CliOk written
                         | CliErr e => CliErr e
                         | CliPanic => CliPanic
                         end)
            | (s, w, CliErr e) => (Some w, CliErr e)
            | (s, w, CliPanic) => (Some w, CliPanic)
            end
        end
  end.

(** Sending a WAV file with the PCM codec.  The file's whole frames go
    out in order as their little-endian bytes.  If the file ends on a frame
    boundary the session is then closed; if it ends within a frame, and the
    duration reaches that far, the command fails with a frame size mismatch
    after having sent all whole frames, and the session is not closed. *)
Theorem wav_last_frame c frames rest duration_s sample_rate channels total s w :
  c = PcmCodec_new sample_rate channels 10 → cs_encoder s = DynPcm c →
  (pcm_wire_bytes c ≤ Nat.max (cs_mtu s) (Z.to_nat 1500))%nat →
  0 ≤ sample_rate → 0 ≤ channels → (0 < total_samples c)%nat →
  Forall (λ f, length f = total_samples c) frames → (length rest < total_samples c)%nat →
  total_frames duration_s = Val total → (length frames < total)%nat →
  send_stream (FromWav (Some (mkWav channels (Some (concat frames ++ rest)))))
    duration_s sample_rate channels s w
  = match send_pcm frames s w with
    | (s', w', CDone _) =>
        match rest with
        | [] => ((cs_close s' w').1.2, cli_of (cs_close s' w').2)
        | _ => (w', CliErr (CliSession (CsCodec (CeFrameSizeMismatch (total_samples c) (length rest)))))
        end
    | (s', w', CFail e) => (w', CliErr (CliSession e))
    | (s', w', CCrash) => (w', CliPanic)
    end.
Proof.
  intros Hc Henc Hfit Hr Hch Hpos Hfr Hrest Htot Hlen. unfold send_stream.
  rewrite Htot, (frame_len_pcm sample_rate channels), <- Hc by done.
  unfold wav_open. simpl. rewrite Z.eqb_refl. simpl.
  rewrite (send_wav_frames c) by done.
  unfold mbind, CM_bind. destruct (send_pcm frames s w) as [[s' w'] [n| |]]; [|done..].
  destruct rest; [|done]. simpl. by destruct (cs_close s' w') as [[? ?] ?].
Qed.
End commands.

(** A PCM session at 8 kHz, and a file of two frames and three samples. *)
Definition pcm_8k : PcmCodec := PcmCodec_new 8000 1 10.
Definition pcm_8k_session : CodecSession (H := no_opus) :=
  mkCodecSession (H := no_opus) Pcm (DynPcm (H := no_opus) pcm_8k) (DynPcm (H := no_opus) pcm_8k)
    1 80 1200 u32_MAX [].
Definition short_file : Wav := mkWav 1 (Some (replicate 163 7)).

Lemma wav_last_frame_witness :
  let w := mkWorld (sample_session (replicate 32 1) (replicate 32 2)) [] 0 0 in
  ∃ w', send_stream (H := flat_sine) (H0 := no_opus) (H1 := quiet_env) (H2 := toy_aead)
          (FromWav (Some short_file)) 10 8000 1 pcm_8k_session w
        = (w', CliErr (CliSession (CsCodec (CeFrameSizeMismatch 80 3))))
    ∧ length (w_out w') = 2%nat ∧ s_closed (w_sess w') = false.
Proof.
  intros w. unfold short_file.
  change (replicate 163 7) with (concat [replicate 80 7; replicate 80 7] ++ [7; 7; 7]).
  rewrite (wav_last_frame (H := flat_sine) (H0 := no_opus) (H1 := quiet_env) (H2 := toy_aead)
    pcm_8k [replicate 80 7; replicate 80 7] [7; 7; 7] 10 8000 1 1000).
  2-11: first [reflexivity|lia|vm_compute; lia|repeat constructor; reflexivity].
  set (r := send_pcm _ _ _).
  assert (r.2 = CDone 2%nat ∧ length (w_out r.1.2) = 2%nat ∧ s_closed (w_sess r.1.2) = false)
    as (H1 & H2 & H3) by (vm_compute; split_and!; reflexivity).
  destruct r as [[s' w'] o]. simpl in H1, H2, H3. rewrite H1. exists w'.
  split; [reflexivity|]. split; [exact H2|exact H3].
Defined.
