(* ===== verification/CliRooms.v ===== *)
(** * Rooms from the command line

    Models the HTTP client of [gravital-talk-cli/src/main.rs] and the
    commands built on it: [gs room] and the choice of the peer in [gs ptt].
    The relay answers with the model of its HTTP interface; the HTTP server
    library (hyper), which turns bytes into requests and responses into
    bytes, is the class [HttpServer], and [HttpLaws] what the protocol says
    about the requests this client makes. *)

From S2P Require Import Prelude.
From S2P Require Import CoreTypes.
From S2P Require Import Text.
From S2P Require Import Transport.
From S2P Require Import NetAddr.
From S2P Require Import Session.
From S2P Require Import Router.
From S2P Require Import Rooms.
From S2P Require Import RoomsApi.
From S2P Require Import Relay.
From S2P Require Import RelayDaemon.
From stdpp Require Import gmap strings list.
#[local] Open Scope Z_scope.

Definition CRLF : list Z := [13; 10].
Definition BLANK_LINE : list Z := [13; 10; 13; 10].

Inductive HttpError : Type := HBadAddress | HIo | HMalformed.

(** ** Requests and responses as text *)

Definition http_get_text (host : list Z) (port : Z) (path : list Z) : list Z :=
  ascii_bytes "GET " ++ path ++ ascii_bytes " HTTP/1.1" ++ CRLF
  ++ ascii_bytes "Host: " ++ host_port host port ++ CRLF
  ++ ascii_bytes "Connection: close" ++ CRLF ++ CRLF.

Definition http_post_text (host : list Z) (port : Z) (path body : list Z) : list Z :=
  ascii_bytes "POST " ++ path ++ ascii_bytes " HTTP/1.1" ++ CRLF
  ++ ascii_bytes "Host: " ++ host_port host port ++ CRLF
  ++ ascii_bytes "Content-Type: application/json" ++ CRLF
  ++ ascii_bytes "Content-Length: " ++ show (Z.of_nat (length body)) ++ CRLF
  ++ ascii_bytes "Connection: close" ++ CRLF ++ CRLF ++ body.

(** [raw.windows(4).position(|w| w == sep)] *)
Definition extract_http_body (raw : list Z) : result HttpError (list Z) :=
  match find_sub BLANK_LINE raw with
  | Some pos => Ok (trim (from_utf8_lossy (drop (pos + 4) raw)))
  | None => Err HMalformed
  end.

Class HttpServer : Type := {
  hs_parse : list Z → option Request;
  hs_print : Response → list Z;
  hs_reject : list Z → list Z;
  hs_reach : SocketAddr → bool;
}.

(** The characters a path may have without being encoded. *)
Definition path_char (b : Z) : bool :=
  is_digit b || byte_in 65 90 b || byte_in 97 122 b || bool_decide (b ∈ [45; 46; 47; 95; 126]).

(** A request line, a host given by number and the usual headers are read as
    they are meant; a response is a head, an empty line and its body. *)
Class HttpLaws `{HttpServer} : Prop := {
  hs_parse_get octets port path :
    length octets = 4%nat → bytes octets → u16 port →
    Forall (λ b, path_char b = true) path → head path = Some 47 →
    ∃ b, hs_parse (http_get_text (show_ipv4 octets) port path) = Some (mkRequest GET path b);
  hs_parse_post octets port path body :
    length octets = 4%nat → bytes octets → u16 port →
    Forall (λ b, path_char b = true) path → head path = Some 47 →
    hs_parse (http_post_text (show_ipv4 octets) port path body)
    = Some (mkRequest POST path (Some body));
  hs_print_head resp :
    ∃ head, hs_print resp = head ++ BLANK_LINE ++ rs_body resp
      ∧ ∀ rest, find_sub BLANK_LINE (head ++ BLANK_LINE ++ rest) = Some (length head);
}.

Section client.
Context `{Prometheus} `{HttpServer}.

(** One connection to the relay, at time [t]. *)
Definition serve (t : Z) (st : ApiState) (raw : list Z) : checked (ApiState * list Z) :=
  match hs_parse raw with
  | None => Val (st, hs_reject raw)
  | Some req => r ← handle t st req; Val (r.1, hs_print r.2)
  end.

Definition exchange (t : Z) (st : ApiState) (host : list Z) (port : Z) (text : list Z) :
    checked (ApiState * result HttpError (list Z)) :=
  match parse_socket_addr (host_port host port) with
  | None => Val (st, Err HBadAddress)
  | Some addr =>
      if negb (hs_reach addr) then Val (st, Err HIo)
      else r ← serve t st text; Val (r.1, extract_http_body r.2)
  end.

Definition http_get (t : Z) (st : ApiState) (host : list Z) (port : Z) (path : list Z) :
    checked (ApiState * result HttpError (list Z)) :=
  exchange t st host port (http_get_text host port path).

Definition http_post (t : Z) (st : ApiState) (host : list Z) (port : Z) (path body : list Z) :
    checked (ApiState * result HttpError (list Z)) :=
  exchange t st host port (http_post_text host port path body).

(** ** [gs room] *)

Inductive RoomAction : Type :=
  | RoomCreate (relay : list Z) (obs_port session_id : Z)
  | RoomJoin (code relay : list Z) (obs_port : Z)
  | RoomList (relay : list Z) (obs_port : Z).

(** What is printed, or the error. *)
Definition cmd_room (t : Z) (st : ApiState) (action : RoomAction) :
    checked (ApiState * result HttpError (list Z)) :=
  match action with
  | RoomCreate relay obs_port session_id =>
      http_post t st relay obs_port (ascii_bytes "/api/rooms") (create_body session_id)
  | RoomJoin code relay obs_port => http_get t st relay obs_port (room_path code)
  | RoomList relay obs_port => http_get t st relay obs_port (ascii_bytes "/api/rooms")
  end.

(** ** The peer of [gs ptt] *)

Inductive PttError : Type := PttHttp (e : HttpError) | PttBadAddress | PttUsage.

Record PttTarget : Type := mkPttTarget {
  pt_peer : SocketAddr;
  pt_role : SessionRole;
  pt_via_relay : bool;
}.

Record PttArgs : Type := mkPttArgs {
  pa_relay : option (list Z);
  pa_relay_port : Z;
  pa_relay_obs_port : Z;
  pa_room : option (list Z);
  pa_peer : option (list Z);
  pa_peer_port : Z;
  pa_listen : bool;
}.

Definition ptt_target (t : Z) (st : ApiState) (a : PttArgs) :
    checked (ApiState * result PttError PttTarget) :=
  match pa_relay a, pa_room a, pa_peer a with
  | Some relay_host, Some room_code, None =>
      r ← http_get t st relay_host (pa_relay_obs_port a) (room_path room_code);
      match r.2 with
      | Err e => Val (r.1, Err (PttHttp e))
      | Ok _ =>
          Val (r.1, match parse_socket_addr (host_port relay_host (pa_relay_port a)) with
                    | Some relay_udp => Ok (mkPttTarget relay_udp Client true)
                    | None => Err PttBadAddress
                    end)
      end
  | None, None, Some host =>
      Val (st, match parse_socket_addr (host_port host (pa_peer_port a)) with
               | Some peer => Ok (mkPttTarget peer (if pa_listen a then Server else Client) false)
               | None => Err PttBadAddress
               end)
  | _, _, _ => Val (st, Err PttUsage)
  end.
End client.

(** ** Trimming a JSON answer *)

Lemma ws_edges : Forall (λ w, w ≠ [] ∧ head w ≠ Some 123 ∧ last w ≠ Some 125) WHITE_SPACE.
Proof. apply (bool_decide_unpack _). vm_compute. exact I. Qed.

Lemma trim_json body :
  trim ([123] ++ body ++ [125] ++ [10]) = [123] ++ body ++ [125].
Proof.
  pose proof ws_edges as Hws. rewrite Forall_forall in Hws. unfold trim.
  replace (trim_start ([123] ++ body ++ [125] ++ [10])) with (([123] ++ body ++ [125]) ++ [10]).
  - apply trim_end_unique.
    + exists [[10]]. split; [|done]. repeat constructor.
    + intros w r Hw E. apply Hws in Hw as (Hn & _ & Hl). apply Hl.
      apply (f_equal last) in E. rewrite app_assoc, last_snoc, last_app in E.
      by destruct (last w) eqn:El; [congruence|apply last_None in El].
  - rewrite <- !app_assoc. symmetry. apply (trim_start_unique []); [apply spaces_nil|].
    intros w r Hw E. apply Hws in Hw as (Hn & Hh & _). apply Hh.
    destruct w; [done|]. simpl in *. congruence.
Qed.

Lemma trim_body body :
  ascii body → trim (from_utf8_lossy ([123] ++ body ++ [125] ++ [10])) = [123] ++ body ++ [125].
Proof.
  intros Ha. rewrite from_utf8_lossy_valid; [apply trim_json|]. apply valid_utf8_ascii.
  rewrite !ascii_app. split_and!; [|done|..]; apply (bool_decide_unpack _); vm_compute; exact I.
Qed.

Lemma ascii_json s : forallb (λ b, byte_in 0 127 b) (json s) = true → ascii (json s).
Proof.
  intros Hf. apply Forall_forall. intros b Hb. apply list_elem_of_In in Hb.
  rewrite forallb_forall in Hf. apply Hf in Hb. unfold byte_in in Hb.
  apply andb_true_iff in Hb as [?%Z.leb_le ?%Z.leb_le]. lia.
Qed.

Lemma ascii_code code : is_valid_code code = true → ascii code.
Proof. intros Hc%valid_code_bytes. eapply Forall_impl; [exact Hc|]. simpl. lia. Qed.

Lemma ascii_show n : 0 ≤ n → ascii (show n).
Proof. intros. by apply digits_ascii, show_digits. Qed.

(** What is printed of an answer about a room is its JSON text. *)
Lemma printed_created code n :
  is_valid_code code = true → u32 n →
  trim (from_utf8_lossy (rs_body (json_response 201 (room_created code n)))) = room_created code n.
Proof.
  intros Hc Hn. rewrite json_response_body.
  2:{ unfold room_created. change (json "}") with [125]. by rewrite !app_assoc, last_snoc. }
  set (body := json "'code':'" ++ code ++ json "','session_id':" ++ show n).
  assert (room_created code n = [123] ++ body ++ [125]) as ->.
  { unfold room_created, body. change (json "{'code':'") with ([123] ++ json "'code':'").
    change (json "}") with [125]. by rewrite <- !app_assoc. }
  rewrite <- !app_assoc. apply trim_body. unfold body. rewrite !ascii_app.
  split_and!; [by apply ascii_json|by apply ascii_code|by apply ascii_json|apply ascii_show; ulia].
Qed.

Lemma printed_info code n k :
  is_valid_code code = true → u32 n →
  trim (from_utf8_lossy (rs_body (json_response 200 (room_info code n k)))) = room_info code n k.
Proof.
  intros Hc Hn. rewrite json_response_body.
  2:{ unfold room_info. change (json "}") with [125]. by rewrite !app_assoc, last_snoc. }
  set (body := json "'code':'" ++ code ++ json "','session_id':" ++ show n ++ json ",'peer_count':"
    ++ show (Z.of_nat k)).
  assert (room_info code n k = [123] ++ body ++ [125]) as ->.
  { unfold room_info, body. change (json "{'code':'") with ([123] ++ json "'code':'").
    change (json "}") with [125]. by rewrite <- !app_assoc. }
  rewrite <- !app_assoc. apply trim_body. unfold body. rewrite !ascii_app.
  split_and!; [by apply ascii_json|by apply ascii_code|by apply ascii_json|apply ascii_show; ulia
    |by apply ascii_json|apply ascii_show; lia].
Qed.

(** ** Exchanges with the relay *)

Section exchanges.
Context `{Prometheus} `{HttpLaws} (octets : list Z) (port : Z).
Context (Hlen : length octets = 4%nat) (Hbytes : bytes octets) (Hport : u16 port).
Context (Hreach : hs_reach (mkSocketAddr (V4 octets) port) = true).

Definition printed (resp : Response) : list Z := trim (from_utf8_lossy (rs_body resp)).

Lemma extract_print resp : extract_http_body (hs_print resp) = Ok (printed resp).
Proof.
  destruct (hs_print_head resp) as (head & -> & Hf). unfold extract_http_body. rewrite Hf.
  do 2 f_equal. unfold printed. do 2 f_equal.
  replace (length head + 4)%nat with (length (head ++ BLANK_LINE)) by (by rewrite length_app).
  by rewrite app_assoc, drop_app_length.
Qed.

Lemma exchange_request t st text req st' resp :
  hs_parse text = Some req → handle t st req = Val (st', resp) →
  exchange t st (show_ipv4 octets) port text = Val (st', Ok (printed resp)).
Proof.
  intros Hp Hh. unfold exchange. rewrite parse_host_port_v4 by done. rewrite Hreach. simpl.
  unfold serve. rewrite Hp, Hh. simpl. by rewrite extract_print.
Qed.

Lemma rooms_path : Forall (λ b, path_char b = true) (ascii_bytes "/api/rooms").
Proof. apply (bool_decide_unpack _). vm_compute. exact I. Qed.

Lemma room_path_chars code :
  Forall (λ b, path_char b = true) code → Forall (λ b, path_char b = true) (room_path code).
Proof.
  intros Hc. apply Forall_app. split; [|done]. apply (bool_decide_unpack _). vm_compute. exact I.
Qed.

Lemma code_path code : is_valid_code code = true → Forall (λ b, path_char b = true) code.
Proof.
  assert (Forall (λ b, path_char b = true) LETTERS ∧ Forall (λ b, path_char b = true) DIGITS)
    as [HL HD] by (split; apply (bool_decide_unpack _); vm_compute; exact I).
  rewrite Forall_forall in HL, HD. rewrite is_valid_code_spec.
  intros (ls & ds & -> & _ & _ & Hls & Hds). rewrite Forall_forall in Hls, Hds.
  rewrite !Forall_app. split_and!; [..|by repeat constructor|]; apply Forall_forall; naive_solver.
Qed.

(** Looking things up changes nothing. *)
Lemma handle_get t st p b :
  ∃ resp, handle t st (mkRequest GET p b) = Val (st, resp)
    ∧ ∀ code, p = room_path code → resp = handle_get_room (as_router st) code.
Proof.
  unfold handle. cbn [rq_path rq_method].
  assert (∀ code s, room_path code = ascii_bytes s → after_prefix (ascii_bytes "/api/rooms/")
    (ascii_bytes s) = Some code) as Hpre.
  { intros code s <-. unfold room_path. apply after_prefix_app. }
  destruct (decide (p = ascii_bytes "/healthz")) as [->|].
  { eexists. split; [done|]. intros code Hc. symmetry in Hc. apply Hpre in Hc. by vm_compute in Hc. }
  destruct (decide (p = ascii_bytes "/metrics")) as [->|].
  { eexists. split; [done|]. intros code Hc. symmetry in Hc. apply Hpre in Hc. by vm_compute in Hc. }
  destruct (decide (p = ascii_bytes "/api/rooms")) as [->|].
  { eexists. split; [done|]. intros code Hc. symmetry in Hc. apply Hpre in Hc. by vm_compute in Hc. }
  destruct (after_prefix (ascii_bytes "/api/rooms/") p) as [c|] eqn:Hp; eexists; (split; [done|]);
    intros code ->; unfold room_path in Hp; rewrite after_prefix_app in Hp; by simplify_eq.
Qed.

Lemma http_get_room t st code :
  Forall (λ b, path_char b = true) code →
  http_get t st (show_ipv4 octets) port (room_path code)
  = Val (st, Ok (printed (handle_get_room (as_router st) code))).
Proof.
  intros Hc. destruct (hs_parse_get octets port (room_path code)) as (b & Hp);
    [done..|by apply room_path_chars|done|].
  destruct (handle_get t st (room_path code) b) as (resp & Hh & Hresp).
  rewrite <- (Hresp code eq_refl). by eapply exchange_request.
Qed.

Lemma http_post_room t st n code :
  generate_code t (as_counter st) = Val code → u32 n → n ≠ 0 →
  http_post t st (show_ipv4 octets) port (ascii_bytes "/api/rooms") (create_body n)
  = Val (mkApiState (Router_register_room (as_router st) code n).1 (wrap64 (as_counter st + 1)),
         Ok (printed (if (Router_register_room (as_router st) code n).2
                      then json_response 201 (room_created code n)
                      else json_response 409 (json "{'error':'room code collision, retry'}")))).
Proof.
  intros Hg Hn Hn0. eapply exchange_request;
    [apply hs_parse_post; [done..|apply rooms_path|done]|].
  unfold handle. cbn [rq_path rq_method rq_body].
  do 2 (rewrite decide_False by (vm_compute; congruence)). rewrite decide_True by done.
  unfold handle_create_room. simpl default. rewrite extract_create_body by done.
  rewrite (proj2 (Z.eqb_neq _ _)) by done. rewrite Hg. simpl.
  by destruct (Router_register_room (as_router st) code n) as [r []].
Qed.
End exchanges.

(** Joining a room the relay knows. *)
Lemma cmd_room_join `{Prometheus} `{HttpLaws} octets port t st code n :
  length octets = 4%nat → bytes octets → u16 port →
  hs_reach (mkSocketAddr (V4 octets) port) = true → is_valid_code code = true → u32 n →
  ro_rooms (as_router st) !! code = Some n →
  cmd_room t st (RoomJoin code (show_ipv4 octets) port)
  = Val (st, Ok (room_info code n (Router_peer_count (as_router st) n))).
Proof.
  intros Hl Hb Hp Hr Hc Hn Hroom. unfold cmd_room.
  rewrite (http_get_room octets port Hl Hb Hp Hr) by by apply code_path.
  unfold handle_get_room, Router_resolve_room. rewrite Hc, Hroom. cbn [negb]. unfold printed.
  by rewrite printed_info.
Qed.

(** C38: rooms end to end.  Against a relay given by its IPv4 address, [gs room
    create] with a non-zero session id prints the JSON description of a new
    room with a well-formed code, unless the generated code is in use, in
    which case the relay's tables do not change.  After the creation, the
    relay handles any further events one after the other (datagrams,
    connections, HTTP requests, the eviction of idle sessions), of which none
    deletes the room: [gs room join] with that code then prints the same code
    and session id, with the number of peers of the session at that time, and
    changes nothing.  Both texts, read with the relay's own parser, name the
    session id. *)
Theorem room_commands_roundtrip `{Prometheus} `{HttpLaws} `{RelayEnv} octets port t1 t2 st n :
  length octets = 4%nat → bytes octets → u16 port →
  hs_reach (mkSocketAddr (V4 octets) port) = true → u32 n → n ≠ 0 →
  ∃ code, generate_code t1 (as_counter st) = Val code ∧ is_valid_code code = true
    ∧ (ro_rooms (as_router st) !! code = None →
       ∃ st1, cmd_room t1 st (RoomCreate (show_ipv4 octets) port n)
              = Val (st1, Ok (room_created code n))
         ∧ extract_session_id (room_created code n) = Some n
         ∧ ∀ d1 es d2, dm_api d1 = st1 → daemon_run d1 es d2 → Forall (λ e, ¬ deletes code e) es →
             let k := Router_peer_count (dm_router d2) n in
             cmd_room t2 (dm_api d2) (RoomJoin code (show_ipv4 octets) port)
             = Val (dm_api d2, Ok (room_info code n k))
             ∧ extract_session_id (room_info code n k) = Some n)
    ∧ (is_Some (ro_rooms (as_router st) !! code) →
       ∃ st1 text, cmd_room t1 st (RoomCreate (show_ipv4 octets) port n) = Val (st1, Ok text)
         ∧ as_router st1 = as_router st).
Proof.
  intros Hl Hb Hp Hr Hn Hn0. destruct (generate_code_ok t1 (as_counter st)) as (code & Hg & Hc).
  exists code. split_and!; [done..| |].
  - intros Hfresh. unfold cmd_room at 1.
    rewrite (http_post_room octets port Hl Hb Hp Hr _ _ _ code) by done.
    unfold Router_register_room. rewrite Hfresh. simpl.
    eexists. split; [by unfold printed; rewrite printed_created|]. split.
    { rewrite <- (app_nil_r (room_created code n)). apply extract_room_created; (done || constructor). }
    intros d1 es d2 Hd1 Hrun Hes.
    generalize (cmd_room_join octets port t2 (dm_api d2) code n Hl Hb Hp Hr Hc Hn).
    change (as_router (dm_api d2)) with (dm_router d2).
    generalize (Router_peer_count (dm_router d2) n). intros k Hjoin.
    assert (ro_rooms (dm_router d1) !! code = Some n) as Hin.
    { change (dm_router d1) with (as_router (dm_api d1)). rewrite Hd1. apply lookup_insert_eq. }
    split; [apply Hjoin; by eapply run_keeps_room|].
    rewrite <- (app_nil_r (room_info code n k)). apply extract_room_info; (done || constructor).
  - intros [sid Hsid]. unfold cmd_room.
    rewrite (http_post_room octets port Hl Hb Hp Hr _ _ _ code) by done.
    unfold Router_register_room. rewrite Hsid. by eexists _, _.
Qed.

(** Whom [gs ptt] calls.  With a peer, the peer's address, as the server
    if and only if it listens.  With a relay and a room, the relay's UDP port
    as a client; the room is asked for, but whatever the relay answers, a
    room it does not know included, the outcome is the same, and the relay's
    state does not change.  Any other combination is refused, and so is a
    relay given as host and port. *)
Theorem ptt_target_correct `{Prometheus} `{HttpLaws} octets t st a :
  length octets = 4%nat → bytes octets →
  u16 (pa_relay_port a) → u16 (pa_relay_obs_port a) → u16 (pa_peer_port a) →
  hs_reach (mkSocketAddr (V4 octets) (pa_relay_obs_port a)) = true →
  (∀ room, Forall (λ b, path_char b = true) room →
     pa_relay a = Some (show_ipv4 octets) → pa_room a = Some room → pa_peer a = None →
     ptt_target t st a
     = Val (st, Ok (mkPttTarget (mkSocketAddr (V4 octets) (pa_relay_port a)) Client true)))
  ∧ (pa_relay a = None → pa_room a = None → pa_peer a = Some (show_ipv4 octets) →
     ptt_target t st a
     = Val (st, Ok (mkPttTarget (mkSocketAddr (V4 octets) (pa_peer_port a))
                      (if pa_listen a then Server else Client) false)))
  ∧ (match pa_relay a, pa_room a, pa_peer a with
     | Some _, Some _, None | None, None, Some _ => False
     | _, _, _ => True
     end → ptt_target t st a = Val (st, Err PttUsage))
  ∧ (pa_relay a = Some (ascii_bytes "1.2.3.4:9100") → is_Some (pa_room a) → pa_peer a = None →
     ptt_target t st a = Val (st, Err (PttHttp HBadAddress))).
Proof.
  intros Hl Hb Hrp Hop Hpp Hr. unfold ptt_target. split_and!.
  - intros room Hroom -> -> ->. rewrite (http_get_room octets _ Hl Hb Hop Hr) by done. simpl.
    by rewrite parse_host_port_v4.
  - intros -> -> ->. by rewrite parse_host_port_v4.
  - intros Hcomb. by destruct (pa_relay a), (pa_room a), (pa_peer a).
  - intros -> [room ->] ->. done.
Qed.

(** A relay at 127.0.0.1, and a server that reads a request line and a
    length, for the examples. *)
Definition read_request (raw : list Z) : option Request :=
  match after_prefix (ascii_bytes "GET ") raw, after_prefix (ascii_bytes "POST ") raw with
  | Some rest, _ => Some (mkRequest GET (split_once 32 rest).1 (Some []))
  | None, Some rest =>
      pos ← find_sub BLANK_LINE rest;
      Some (mkRequest POST (split_once 32 rest).1 (Some (drop (pos + 4) rest)))
  | None, None => None
  end.

#[export] Instance plain_server : HttpServer := {|
  hs_parse := read_request;
  hs_print resp := ascii_bytes "HTTP/1.1" ++ BLANK_LINE ++ rs_body resp;
  hs_reject _ := [];
  hs_reach _ := true;
|}.

Lemma find_sub_cons pat b s :
  after_prefix pat (b :: s) = None → find_sub pat (b :: s) = S <$> find_sub pat s.
Proof. intros Hp. cbn [find_sub]. by rewrite Hp. Qed.

Lemma find_blank_line seg rest :
  13 ∉ seg → head rest ≠ Some 13 →
  find_sub BLANK_LINE (seg ++ CRLF ++ rest)
  = (λ k, (length seg + 2 + k)%nat) <$> find_sub BLANK_LINE rest.
Proof.
  intros Hs Hr. induction seg as [|b seg IH].
  - cbn [app CRLF]. rewrite !find_sub_cons; [by destruct (find_sub BLANK_LINE rest)|done|].
    destruct rest as [|c rest]; [done|]. simpl in Hr.
    assert (13 ≠ c) as Hc by congruence. apply Z.eqb_neq in Hc. cbn [BLANK_LINE after_prefix].
    by rewrite Hc.
  - apply not_elem_of_cons in Hs as [Hb Hs]. cbn [app].
    rewrite find_sub_cons by (cbn [BLANK_LINE after_prefix]; by rewrite (proj2 (Z.eqb_neq 13 b))).
    rewrite IH by done. by destruct (find_sub BLANK_LINE rest).
Qed.

Lemma no_cr s : Forall (λ b, b ≠ 13) s → 13 ∉ s.
Proof. intros Hs Hin. rewrite Forall_forall in Hs. by eapply Hs. Qed.

Lemma digits_no_cr s : Forall (λ b, is_digit b = true) s → Forall (λ b, b ≠ 13) s.
Proof. intros Hs. eapply Forall_impl; [exact Hs|]. by intros b Hb ->. Qed.

Lemma host_port_no_cr octets port :
  bytes octets → length octets = 4%nat → u16 port →
  Forall (λ b, b ≠ 13) (host_port (show_ipv4 octets) port).
Proof.
  intros Hb Hl Hp. destruct octets as [|o0 [|o1 [|o2 [|o3 []]]]]; try done.
  apply Forall_cons in Hb as [H0 Hb]. apply Forall_cons in Hb as [H1 Hb].
  apply Forall_cons in Hb as [H2 Hb]. apply Forall_cons in Hb as [H3 _].
  unfold host_port, show_ipv4. rewrite !Forall_app. simpl lookup_total.
  split_and!; try (repeat constructor; lia); apply digits_no_cr, show_digits; ulia.
Qed.

Lemma path_no b path : path_char b = false → Forall (λ b, path_char b = true) path → b ∉ path.
Proof. intros Hb Hp Hin. rewrite Forall_forall in Hp. apply Hp in Hin. congruence. Qed.

(** Header lines, the last one without its line end. *)
Definition head_text (lines : list (list Z)) (final : list Z) : list Z :=
  foldr (λ l acc, l ++ CRLF ++ acc) final lines.

Definition line_ok (l : list Z) : Prop := (13 ∉ l) ∧ l ≠ [].

Lemma find_head lines final body :
  Forall line_ok lines → line_ok final →
  find_sub BLANK_LINE (head_text lines final ++ BLANK_LINE ++ body)
  = Some (length (head_text lines final)).
Proof.
  intros Hl [Hf Hf0]. induction Hl as [|l lines [Hl _] Hls IH]; cbn [head_text foldr].
  - by apply (find_sub_app 13 [10; 13; 10]).
  - rewrite <- !app_assoc, find_blank_line; [|done|].
    + fold (head_text lines final). rewrite IH. simpl. f_equal. rewrite !length_app. simpl. lia.
    + fold (head_text lines final). destruct Hls as [|l' lines [Hl' Hl0'] _]; cbn [head_text foldr].
      * destruct final; [done|]. simpl. set_solver.
      * destruct l'; [done|]. simpl. set_solver.
Qed.

Lemma ascii_line s :
  negb (length (ascii_bytes s) =? 0)%nat && forallb (λ b, negb (b =? 13)) (ascii_bytes s) = true →
  line_ok (ascii_bytes s).
Proof.
  intros [H1 H2]%andb_true_iff. split.
  - intros Hin%list_elem_of_In. rewrite forallb_forall in H2. by apply H2 in Hin.
  - intros E. by rewrite E in H1.
Qed.

Lemma line_app a b : line_ok a → 13 ∉ b → line_ok (a ++ b).
Proof. intros [Ha Hn] Hb. split; [by apply not_elem_of_app|]. by destruct a. Qed.

Lemma read_post_text hp path body :
  Forall (λ b, path_char b = true) path → head path = Some 47 → 13 ∉ hp →
  read_request (ascii_bytes "POST " ++ path ++ ascii_bytes " HTTP/1.1" ++ CRLF
    ++ ascii_bytes "Host: " ++ hp ++ CRLF ++ ascii_bytes "Content-Type: application/json" ++ CRLF
    ++ ascii_bytes "Content-Length: " ++ show (Z.of_nat (length body)) ++ CRLF
    ++ ascii_bytes "Connection: close" ++ CRLF ++ CRLF ++ body)
  = Some (mkRequest POST path (Some body)).
Proof.
  intros Hp Hhd Hhp. unfold read_request. rewrite after_prefix_app.
  replace (after_prefix (ascii_bytes "GET ") _) with (@None (list Z)) by done. cbv beta iota.
  set (len := show (Z.of_nat (length body))).
  assert (13 ∉ len) as Hlen by (apply no_cr, digits_no_cr, show_digits; lia).
  set (lines := [path ++ ascii_bytes " HTTP/1.1"; ascii_bytes "Host: " ++ hp;
    ascii_bytes "Content-Type: application/json"; ascii_bytes "Content-Length: " ++ len]).
  match goal with |- context [find_sub BLANK_LINE ?text] =>
    assert (text = head_text lines (ascii_bytes "Connection: close") ++ BLANK_LINE ++ body)
      as Htext end.
  { unfold lines, head_text. cbn [foldr]. by rewrite <- !app_assoc. }
  rewrite Htext, find_head; [|repeat constructor|by apply ascii_line].
  - cbn [mbind option_bind]. do 2 f_equal.
    + rewrite <- Htext. change (ascii_bytes " HTTP/1.1") with (32 :: ascii_bytes "HTTP/1.1").
      cbn [app]. by rewrite split_once_app by by apply (path_no 32).
    + f_equal. rewrite app_assoc.
      replace (length (head_text lines (ascii_bytes "Connection: close")) + 4)%nat
        with (length (head_text lines (ascii_bytes "Connection: close") ++ BLANK_LINE))
        by (by rewrite length_app).
      apply drop_app_length.
  - apply not_elem_of_app. split; [by apply (path_no 13)|by apply ascii_line].
  - by destruct path.
  - apply line_app; [by apply ascii_line|done].
  - by apply line_app; [apply ascii_line|].
  - by apply ascii_line.
  - by apply ascii_line.
  - by apply line_app; [apply ascii_line|].
  - by apply line_app; [apply ascii_line|].
Qed.

#[export] Instance plain_server_laws : HttpLaws.
Proof.
  split.
  - intros octets port path _ _ _ Hp _. eexists. simpl. unfold read_request, http_get_text.
    rewrite after_prefix_app. do 2 f_equal.
    change (ascii_bytes " HTTP/1.1") with (32 :: ascii_bytes "HTTP/1.1"). cbn [app].
    by rewrite split_once_app by by apply (path_no 32).
  - intros octets port path body Hl Hb Hu Hp Hhd.
    apply read_post_text; [done..|]. by apply no_cr, host_port_no_cr.
  - intros resp. exists (ascii_bytes "HTTP/1.1"). split; [done|]. intros rest.
    apply (find_sub_app 13 [10; 13; 10]). apply (bool_decide_unpack _). vm_compute. exact I.
Qed.

#[export] Instance no_metrics : Prometheus :=
  {| prom_encode _ := []; prom_format_type := ascii_bytes "text/plain" |}.

Definition fresh_relay : ApiState := mkApiState (Router_new 10 5 RelayMetrics_new) 0.

(** A relay that has just created the room, as a daemon, evicts its idle
    sessions before the room is joined. *)
Lemma room_commands_roundtrip_witness :
  ∃ code st1 d2 k,
    cmd_room 1700000000 fresh_relay (RoomCreate (show_ipv4 [127; 0; 0; 1]) 9100 4242)
    = Val (st1, Ok (room_created code 4242))
    ∧ daemon_run (H := lossless)
        (mkDaemon (mkRelayWorld (as_router st1) []) (as_counter st1) ∅ 0 0 300) [EvGc] d2
    ∧ cmd_room 1700000009 (dm_api d2) (RoomJoin code (show_ipv4 [127; 0; 0; 1]) 9100)
      = Val (dm_api d2, Ok (room_info code 4242 k)).
Proof.
  destruct (room_commands_roundtrip (H2 := lossless) [127; 0; 0; 1] 9100 1700000000 1700000009
              fresh_relay 4242)
    as (code & _ & _ & Hok & _); [reflexivity|repeat constructor; ulia|ulia|reflexivity|ulia|lia|].
  destruct (Hok eq_refl) as (st1 & Hc & _ & Hj).
  set (d1 := mkDaemon (mkRelayWorld (as_router st1) []) (as_counter st1) ∅ 0 0 300).
  eexists code, st1, _, _. split; [exact Hc|].
  assert (daemon_run (H := lossless) d1 ([] ++ [EvGc]) _) as Hrun
    by (eapply run_snoc; [apply run_nil|apply (step_gc _ 7)]).
  split; [exact Hrun|]. apply (Hj d1 [EvGc]); [|exact Hrun|].
  - unfold dm_api, d1. cbn. by destruct st1.
  - constructor; [intros []|constructor].
Defined.

Definition ptt_relay_args : PttArgs :=
  mkPttArgs (Some (show_ipv4 [127; 0; 0; 1])) 9000 9100 (Some (ascii_bytes "GRVT-2847")) None 9000 false.

(** The relay knows no room, and the call goes ahead. *)
Lemma ptt_target_correct_witness :
  ptt_target 0 fresh_relay ptt_relay_args
  = Val (fresh_relay, Ok (mkPttTarget (mkSocketAddr (V4 [127; 0; 0; 1]) 9000) Client true)).
Proof.
  apply (ptt_target_correct [127; 0; 0; 1] 0 fresh_relay ptt_relay_args) with (room := ascii_bytes "GRVT-2847");
    try reflexivity; try (simpl; ulia); try (repeat constructor; ulia).
Defined.
