(* ===== verification/Ptt.v ===== *)
(** * Push-to-talk from the command line

    Models [cmd_ptt] and [ptt_ui_loop] of [gravital-talk-cli/src/main.rs],
    after the choice of the peer: the reconnection loop with its back-off, the
    receiving task, the sending task and the capture thread of a connection,
    the handling of keys and the clean-up.  The terminal, the audio device and
    the network of each attempt are arguments.  A round of the interface, a
    round of a receive, a send, and the release and the closing of the
    clean-up are one step each; any steps of the tasks fall between them. *)

From S2P Require Import Prelude.
From S2P Require Import CoreTypes.
From S2P Require Import Message.
From S2P Require Import SessionFsm.
From S2P Require Import Crypto.
From S2P Require Import Ieee.
From S2P Require Import Transport.
From S2P Require Import Metrics.
From S2P Require Import JitterBuffer.
From S2P Require Import Session.
From S2P Require Import SessionSeq.
From S2P Require Import Audio.
From S2P Require Import Handshake.
From S2P Require Import Agreement.
From S2P Require Import SessionTypes.
From S2P Require Import Codec.
From S2P Require Import CodecSession.
From S2P Require Import Tone.
From stdpp Require Import strings list.
#[local] Open Scope Z_scope.

(** ** What survives a reconnection *)

(** The flags, what was handed to playback, and the capture threads of former
    connections that still run, each with whether it holds the microphone. *)
Record PttShared : Type := mkPttShared {
  sh_ptt_on : bool;
  sh_quit : bool;
  sh_played : list (list Z);
  sh_threads : list bool;
}.

Definition PttShared_new : PttShared := mkPttShared false false [] [].

Definition set_ptt_on (b : bool) (sh : PttShared) : PttShared :=
  mkPttShared b (sh_quit sh) (sh_played sh) (sh_threads sh).
Definition set_quit (b : bool) (sh : PttShared) : PttShared :=
  mkPttShared (sh_ptt_on sh) b (sh_played sh) (sh_threads sh).
Definition play_tone (samples : list Z) (sh : PttShared) : PttShared :=
  mkPttShared (sh_ptt_on sh) (sh_quit sh) (sh_played sh ++ [samples]) (sh_threads sh).
Definition set_threads (ts : list bool) (sh : PttShared) : PttShared :=
  mkPttShared (sh_ptt_on sh) (sh_quit sh) (sh_played sh) ts.

(** ** The capture thread *)

Inductive try_recv : Type := TryFrame (f : list Z) | TryEmpty | TryClosed.

(** One round of the thread, on the open device (if any) and the bridge to the
    sending task, which holds four frames; [connected] is whether that task
    still holds the other end, [start] whether the device can be opened.
    [None] when the thread ends. *)
Definition capture_step (connected quit ptt start : bool) (recv : try_recv) (device : bool)
    (bridge : list (list Z)) : option (bool * list (list Z)) :=
  if quit then None
  else if ptt then
    if device || start then
      Some (match recv with
            | TryFrame f =>
                (true, if connected && (length bridge <? 4)%nat then bridge ++ [f] else bridge)
            | TryEmpty => (true, bridge)
            | TryClosed => (false, bridge)
            end)
    else Some (false, bridge)
  else Some (false, bridge).

(** ** The user interface *)

(** A terminal event: a key, by its character and whether control is held,
    or anything else. *)
Inductive TermEvent : Type := TKey (c : option Z) (ctrl : bool) | TOther.

(** What the other threads do between two rounds of the interface: a step of
    the receiving task (the start of a call of [recv_samples], or one round of
    the loop it waits in), a round of the sending task, a round of the capture
    thread of the connection, or of that of the [k]-th former one. *)
Inductive Task : Type :=
  | TRecv
  | TSend
  | TCapture (start : bool) (recv : try_recv)
  | TFormer (k : nat) (start : bool) (recv : try_recv).

(** Where the receiving task is: between two calls, in the loop of
    [recv_audio] with its extension and deadline, or gone. *)
Inductive RecvState : Type :=
  | RecvReady
  | RecvWaiting (skip_us deadline_us : Z)
  | RecvGone.

Record UiInput : Type := mkUiInput {
  ui_tasks : list Task;
  ui_draw_ok : bool;
  ui_poll : result unit (option TermEvent);
}.

Inductive PttUiResult : Type := Quit | Reconnect.

Inductive KeyAction : Type := KeyQuit | KeyToggle | KeyNothing.

Definition key_action (c : option Z) (ctrl : bool) : KeyAction :=
  match c with
  | Some c =>
      if (c =? 113) || (c =? 81) then KeyQuit
      else if (c =? 99) && ctrl then KeyQuit
      else if c =? 32 then KeyToggle
      else if (c =? 116) || (c =? 84) then KeyToggle
      else KeyNothing
  | None => KeyNothing
  end.

(** How a round ends: it goes on, the loop returns, or it panics. *)
Inductive ui_outcome : Type :=
  | UiGoesOn
  | UiReturns (r : result unit PttUiResult)
  | UiPanics.

(** [let _ = op.await]; [None] is a panic. *)
Definition dropped (op : SM unit) (w : World) : option World :=
  match op w with (_, Crash) => None | (w, _) => Some w end.

Definition INITIAL_DELAY : Z := 2.
Definition next_delay (d : Z) : Z := Z.min (d * 2) 30.

Definition ptt_config : Config :=
  mkConfig 48000 1 20 (cfg_max_bitrate Config_default) (cfg_codec_preferred Config_default)
    (cfg_supported_codecs Config_default) (cfg_capability_flags Config_default)
    (cfg_jitter_buffer_ms Config_default) (cfg_mtu Config_default).

Inductive ptt_end : Type :=
  | PttRuns
  | PttQuits
  | PttFails
  | PttPanics.

Section ptt.
Context `{Libm} `{Audiopus} `{Aead} `{Kex}.

(** [recv_audio] a step at a time: its first lines, and one round of its loop,
    which ends with a frame or with the deadline of the next round. *)
Definition recv_start `{Env} : SM (Z * Z) :=
  s ← get;
  let skip_us := cfg_jitter_buffer_ms (s_config s) * 3 * 1000 in
  now ← micros_since_epoch;
  deadline_us ← may_panic (u64_add env_overflow_checks now skip_us);
  mret (skip_us, deadline_us).

Definition recv_round `{Env} (skip_us deadline_us : Z) : SM (Frame + Z) :=
  now_us ← micros_since_epoch;
  s ← get;
  r ← may_panic (JitterBuffer_pop_with_deadline (s_jitter s) now_us deadline_us);
  _ ← modify (set_jitter r.1);
  match r.2 with
  | Some frame => mret (inl frame)
  | None =>
      if deadline_us <=? now_us then
        deadline_us ← may_panic (u64_add env_overflow_checks now_us skip_us);
        mret (inr deadline_us)
      else
        ev ← recv;
        match ev with
        | RecvData data _ => _ ← on_datagram data; mret (inr deadline_us)
        | RecvErr e => throw e
        | RecvTimeout => mret (inr deadline_us)
        end
  end.

(** A connection: its session, where its receiving task is, whether its
    sending task runs, whether a task of it panicked, the signal of the
    receiving task, and its capture thread. *)
Record Conn : Type := mkConn {
  cn_cs : CodecSession;
  cn_world : World;
  cn_recv : RecvState;
  cn_send : bool;
  cn_panicked : bool;
  cn_disc : bool;
  cn_capture : bool;
  cn_device : bool;
  cn_bridge : list (list Z);
}.

Definition on_session (cs : CodecSession) (w : World) (c : Conn) : Conn :=
  mkConn cs w (cn_recv c) (cn_send c) (cn_panicked c) (cn_disc c) (cn_capture c) (cn_device c)
    (cn_bridge c).
Definition set_recv (r : RecvState) (c : Conn) : Conn :=
  mkConn (cn_cs c) (cn_world c) r (cn_send c) (cn_panicked c) (cn_disc c) (cn_capture c)
    (cn_device c) (cn_bridge c).
Definition stop_send (c : Conn) : Conn :=
  mkConn (cn_cs c) (cn_world c) (cn_recv c) false (cn_panicked c) (cn_disc c) (cn_capture c)
    (cn_device c) (cn_bridge c).
Definition set_panicked (c : Conn) : Conn :=
  mkConn (cn_cs c) (cn_world c) (cn_recv c) (cn_send c) true (cn_disc c) (cn_capture c)
    (cn_device c) (cn_bridge c).
Definition signal (c : Conn) : Conn :=
  mkConn (cn_cs c) (cn_world c) (cn_recv c) (cn_send c) (cn_panicked c) true (cn_capture c)
    (cn_device c) (cn_bridge c).
Definition set_bridge (bridge : list (list Z)) (c : Conn) : Conn :=
  mkConn (cn_cs c) (cn_world c) (cn_recv c) (cn_send c) (cn_panicked c) (cn_disc c) (cn_capture c)
    (cn_device c) bridge.
Definition set_capture (s : option (bool * list (list Z))) (c : Conn) : Conn :=
  match s with
  | Some (device, bridge) =>
      mkConn (cn_cs c) (cn_world c) (cn_recv c) (cn_send c) (cn_panicked c) (cn_disc c) true device
        bridge
  | None =>
      mkConn (cn_cs c) (cn_world c) (cn_recv c) (cn_send c) (cn_panicked c) (cn_disc c) false false
        (cn_bridge c)
  end.

(** What a step of the receiving task came to: the call goes on, or it returns
    samples.  A failed call signals the interface and ends the task; a panic
    ends it without a signal. *)
Definition recv_result (r : coutcome (Z * Z + list Z)) (sh : PttShared) (c : Conn) :
    PttShared * Conn :=
  match r with
  | CDone (inl (skip_us, deadline_us)) => (sh, set_recv (RecvWaiting skip_us deadline_us) c)
  | CDone (inr samples) => (play_tone samples sh, set_recv RecvReady c)
  | CFail _ => (sh, signal (set_recv RecvGone c))
  | CCrash => (sh, set_panicked (set_recv RecvGone c))
  end.

(** [recv_samples] a step at a time. *)
Definition recv_samples_start `{Env} : CM (Z * Z + list Z) :=
  self ← cget;
  match cs_plc_queue self with
  | pcm :: q => _ ← cmodify (set_plc_queue q); mret (inr pcm)
  | [] => d ← inner recv_start; mret (inl d)
  end.

Definition recv_samples_round `{Env} (skip_us deadline_us : Z) : CM (Z * Z + list Z) :=
  r ← inner (recv_round skip_us deadline_us);
  match r with
  | inl frame => pcm ← on_frame frame; mret (inr pcm)
  | inr deadline_us => mret (inl (skip_us, deadline_us))
  end.

Definition recv_task (E : Env) (sh : PttShared) (c : Conn) : PttShared * Conn :=
  match cn_recv c with
  | RecvGone => (sh, c)
  | RecvReady =>
      if sh_quit sh then (sh, set_recv RecvGone c)
      else
        let '(cs, w, r) := recv_samples_start (cn_cs c) (cn_world c) in
        recv_result r sh (on_session cs w c)
  | RecvWaiting skip_us deadline_us =>
      let '(cs, w, r) := recv_samples_round skip_us deadline_us (cn_cs c) (cn_world c) in
      recv_result r sh (on_session cs w c)
  end.

Definition send_task (E : Env) (sh : PttShared) (c : Conn) : Conn :=
  if negb (cn_send c) then c
  else if sh_quit sh then stop_send c
  else
    match cn_bridge c with
    | samples :: bridge =>
        match send_samples samples (cn_cs c) (cn_world c) with
        | (cs, w, CCrash) => set_panicked (stop_send (set_bridge bridge (on_session cs w c)))
        | (cs, w, _) => set_bridge bridge (on_session cs w c)
        end
    | [] => if cn_capture c then c else stop_send c
    end.

(** A round of the capture thread of a former connection; nobody reads its
    bridge. *)
Definition former_step (k : nat) (start : bool) (recv : try_recv) (sh : PttShared) : PttShared :=
  match sh_threads sh !! k with
  | Some device =>
      set_threads
        (match capture_step false (sh_quit sh) (sh_ptt_on sh) start recv device [] with
         | Some (device, _) => <[k := device]> (sh_threads sh)
         | None => delete k (sh_threads sh)
         end) sh
  | None => sh
  end.

Definition task_step (E : Env) (s : PttShared * Conn) (t : Task) : PttShared * Conn :=
  let '(sh, c) := s in
  match t with
  | TRecv => recv_task E sh c
  | TSend => (sh, send_task E sh c)
  | TCapture start recv =>
      if cn_capture c then
        (sh, set_capture (capture_step (cn_send c) (sh_quit sh) (sh_ptt_on sh) start recv
                            (cn_device c) (cn_bridge c)) c)
      else (sh, c)
  | TFormer k start recv => (former_step k start recv sh, c)
  end.

Definition on_world (w : World) (c : Conn) : Conn := on_session (cn_cs c) w c.

Definition on_toggle (E : Env) (sample_rate : Z) (sh : PttShared) (c : Conn) :
    option (PttShared * Conn) :=
  let was_on := sh_ptt_on sh in
  let sh := set_ptt_on (negb was_on) sh in
  if negb was_on then
    w ← dropped ptt_press (cn_world c);
    Some (play_tone (generate_pcm_tone (f32_of_Z 880) 100 sample_rate) sh, on_world w c)
  else
    w ← dropped ptt_release (cn_world c);
    Some (play_tone (generate_pcm_tone (f32_of_Z 440) 80 sample_rate) sh, on_world w c).

Definition ui_round (E : Env) (sample_rate : Z) (i : UiInput) (s : PttShared * Conn) :
    PttShared * Conn * ui_outcome :=
  let '(sh, c) := foldl (task_step E) s (ui_tasks i) in
  if cn_disc c then (sh, c, UiReturns (Ok Reconnect))
  else if negb (ui_draw_ok i) then (sh, c, UiReturns (Err tt))
  else
    match ui_poll i with
    | Err _ => (sh, c, UiReturns (Err tt))
    | Ok (Some (TKey k ctrl)) =>
        match key_action k ctrl with
        | KeyQuit => (set_quit true sh, c, UiReturns (Ok Quit))
        | KeyToggle =>
            match on_toggle E sample_rate sh c with
            | Some (sh, c) => (sh, c, UiGoesOn)
            | None => (sh, c, UiPanics)
            end
        | KeyNothing => (sh, c, UiGoesOn)
        end
    | Ok _ => (sh, c, UiGoesOn)
    end.

(** The loop over its inputs; [UiGoesOn] when it is still running after the
    last of them. *)
Fixpoint ptt_ui_loop (E : Env) (sample_rate : Z) (inputs : list UiInput) (s : PttShared * Conn) :
    PttShared * Conn * ui_outcome :=
  match inputs with
  | [] => (s, UiGoesOn)
  | i :: inputs =>
      match ui_round E sample_rate i s with
      | (s, UiGoesOn) => ptt_ui_loop E sample_rate inputs s
      | r => r
      end
  end.

(** What the tasks of a connection still do when it ends: before they are
    aborted, and, since [abort] only asks for it, after the flag was cleared,
    after the floor was released and after the session was closed. *)
Record LateTasks : Type := mkLateTasks {
  late_abort : list Task;
  late_flag : list Task;
  late_release : list Task;
  late_close : list Task;
}.

(** The end of a connection: the tasks are aborted, the flag is cleared, the
    floor released and the session closed.  The capture thread, if it did not
    end before, stays. *)
Definition cleanup (E : Env) (late : LateTasks) (sh : PttShared) (c : Conn) :
    option (PttShared * Conn) :=
  let '(sh, c) := foldl (task_step E) (sh, c) (late_abort late) in
  let sh := set_ptt_on false sh in
  let '(sh, c) := foldl (task_step E) (sh, c) (late_flag late) in
  w ← dropped ptt_release (cn_world c);
  let '(sh, c) := foldl (task_step E) (sh, on_world w c) (late_release late) in
  w ← dropped close (cn_world c);
  let '(sh, c) := foldl (task_step E) (sh, on_world w c) (late_close late) in
  let c := stop_send (set_recv RecvGone c) in
  let sh := if cn_capture c then set_threads (sh_threads sh ++ [cn_device c]) sh else sh in
  Some (sh, c).

(** ** Reconnection *)

(** What an attempt meets: whether the socket can be bound, its network, the
    numbers it draws, and what the user and the tasks do. *)
Inductive attempt : Type :=
  | NoSocket
  | Attempt (E : Env) (rc : ClientRandom) (rs : ServerRandom) (fuel : nat)
      (inputs : list UiInput) (late : LateTasks).

Record PttSetup : Type := mkPttSetup {
  ps_opus : bool;
  ps_codec : CodecId;
  ps_role : SessionRole;
  ps_peer : SocketAddr;
}.

Inductive connect_result : Type :=
  | Connected (c : Conn)
  | ConnectFails
  | ConnectRetry
  | ConnectPanics.

Definition connect (p : PttSetup) (E : Env) (rc : ClientRandom) (rs : ServerRandom) (fuel : nat) :
    connect_result :=
  match CodecSession_new (ps_opus p) ptt_config (ps_codec p) with
  | Panic => ConnectPanics
  | Val (Err _) => ConnectFails
  | Val (Ok (cs, s)) =>
      let hs := match ps_role p with
                | Client => handshake_as_client fuel rc (ps_peer p)
                | Server => handshake_as_server fuel rs (ps_peer p)
                end in
      match cs_handshake hs cs (mkWorld s [] 0 0) with
      | (cs, w, CDone _) => Connected (mkConn cs w RecvReady true false false true false [])
      | (_, _, CFail _) => ConnectRetry
      | (_, _, CCrash) => ConnectPanics
      end
  end.

(** The loop over the attempts: the seconds slept, the connections made, and
    how it ended. *)
Fixpoint reconnect_loop (p : PttSetup) (attempts : list attempt) (delay : Z) (sh : PttShared) :
    list Z * list Conn * PttShared * ptt_end :=
  match attempts with
  | [] => ([], [], sh, PttRuns)
  | NoSocket :: _ => ([], [], sh, PttFails)
  | Attempt E rc rs fuel inputs late :: attempts =>
      match connect p E rc rs fuel with
      | ConnectPanics => ([], [], sh, PttPanics)
      | ConnectFails => ([], [], sh, PttFails)
      | ConnectRetry =>
          let '(sleeps, cs, sh, e) := reconnect_loop p attempts (next_delay delay) sh in
          (delay :: sleeps, cs, sh, e)
      | Connected c =>
          match ptt_ui_loop E (cfg_sample_rate ptt_config) inputs (sh, c) with
          | (sh, c, UiGoesOn) => ([], [c], sh, PttRuns)
          | (sh, c, UiPanics) => ([], [c], sh, PttPanics)
          | (sh, c, UiReturns r) =>
              match cleanup E late sh c with
              | None => ([], [c], sh, PttPanics)
              | Some (sh, c) =>
                  match r with
                  | Ok Quit => ([], [c], sh, PttQuits)
                  | Ok Reconnect =>
                      let '(sleeps, cs, sh, e) := reconnect_loop p attempts INITIAL_DELAY sh in
                      (sleeps, c :: cs, sh, e)
                  | Err _ => ([], [c], sh, PttFails)
                  end
              end
          end
      end
  end.
End ptt.

(** ** Who writes the push-to-talk and the closing flag *)

Definition ptt_of (w : World) : bool := s_ptt_active (w_sess w).
Definition flags_of (w : World) : bool * bool := (s_ptt_active (w_sess w), s_closed (w_sess w)).

Definition keeps_flags {A} (m : SM A) : Prop :=
  ∀ w, flags_of (m w).1 = flags_of w ∧ (m w).2 ≠ Crash.

Lemma keeps_flags_bind {A B} (m : SM A) (f : A → SM B) :
  keeps_flags m → (∀ a, keeps_flags (f a)) → keeps_flags (m ≫= f).
Proof.
  intros Hm Hf w. unfold mbind, SM_bind. destruct (Hm w) as [Hw Hc].
  destruct (m w) as [w1 [a|e|]]; simpl in *; [|done..]. rewrite <- Hw. apply Hf.
Qed.

Lemma dropped_keeps (m : SM unit) w :
  keeps_flags m → ∃ w', dropped m w = Some w' ∧ flags_of w' = flags_of w.
Proof.
  intros Hm. destruct (Hm w) as [Hw Hc]. unfold dropped.
  destruct (m w) as [w' []]; simpl in *; [by eexists..|done].
Qed.

Lemma dropped_modify f (m : SM unit) w :
  dropped (_ ← modify f; m) w = dropped m (mkWorld (f (w_sess w)) (w_out w) (w_ticks w) (w_recvs w)).
Proof. done. Qed.

Section flag.
Context `{Env} `{Aead}.

Lemma keeps_flags_send_control msg sid payload peer :
  keeps_flags (send_control msg sid payload peer).
Proof.
  apply keeps_flags_bind; [done|]. intros seq. apply keeps_flags_bind; [done|]. intros ts.
  unfold transmit. apply keeps_flags_bind; [done|]. intros s.
  apply keeps_flags_bind; [intros w; unfold proto; by case_match|]. intros nb.
  apply keeps_flags_bind; [intros w; unfold send_to; simpl; by case_match|]. done.
Qed.

Lemma keeps_flags_ignore {A} (m : SM A) : keeps_flags m → keeps_flags (ignore m).
Proof.
  intros Hm w. destruct (Hm w) as [Hw Hc]. unfold ignore. by destruct (m w) as [w1 []].
Qed.

Lemma keeps_flags_transition ev : keeps_flags (transition ev).
Proof. intros w. unfold transition. by destruct (SessionStateMachine_transition _ _). Qed.

(** The messages of a press or release. *)
Lemma keeps_flags_floor msg1 msg2 :
  keeps_flags (s ← get;
    match s_peer s with
    | Some p =>
        _ ← send_control msg1 (s_session_id s) (be_bytes 4 (s_session_id s)) p;
        send_control msg2 (s_session_id s) [] p
    | None => mret tt
    end).
Proof.
  apply keeps_flags_bind; [done|]. intros s. case_match; [|done].
  apply keeps_flags_bind; [apply keeps_flags_send_control|]. intros. apply keeps_flags_send_control.
Qed.

Lemma ptt_press_flag w : ∃ w', dropped ptt_press w = Some w' ∧ ptt_of w' = true.
Proof.
  unfold ptt_press. rewrite dropped_modify.
  edestruct (dropped_keeps _ (mkWorld (set_ptt_active true (w_sess w)) (w_out w) (w_ticks w) (w_recvs w))
    (keeps_flags_floor FloorRequest ControlResume)) as (w' & Hd & Hf).
  exists w'. split; [exact Hd|]. by injection Hf.
Qed.

Lemma ptt_release_flag w : ∃ w', dropped ptt_release w = Some w' ∧ ptt_of w' = false.
Proof.
  unfold ptt_release. rewrite dropped_modify.
  edestruct (dropped_keeps _ (mkWorld (set_ptt_active false (w_sess w)) (w_out w) (w_ticks w) (w_recvs w))
    (keeps_flags_floor FloorRelease ControlPause)) as (w' & Hd & Hf).
  exists w'. split; [exact Hd|]. by injection Hf.
Qed.

Lemma close_flags w :
  ∃ w', dropped close w = Some w' ∧ ptt_of w' = ptt_of w ∧ s_closed (w_sess w') = true.
Proof.
  unfold close. rewrite !dropped_modify.
  match goal with |- context [dropped ?m ?w1] => destruct (dropped_keeps m w1) as (w' & Hd & Hf) end.
  - apply keeps_flags_bind; [done|]. intros s. apply keeps_flags_bind.
    { case_match; [apply keeps_flags_ignore, keeps_flags_send_control|done]. }
    intros _. do 2 (apply keeps_flags_bind; [apply keeps_flags_transition|intros ?]). done.
  - exists w'. split; [exact Hd|]. by injection Hf.
Qed.

End flag.

(** ** Receiving a round at a time *)

Section rounds.
Context `{Env} `{Aead}.

Fixpoint recv_rounds (fuel : nat) (skip_us deadline_us : Z) : SM (option Frame) :=
  match fuel with
  | O => mret None
  | S fuel =>
      r ← recv_round skip_us deadline_us;
      match r with
      | inl frame => mret (Some frame)
      | inr deadline_us => recv_rounds fuel skip_us deadline_us
      end
  end.

Lemma recv_loop_rounds fuel skip : ∀ deadline w,
  recv_rounds fuel skip deadline w = recv_audio_loop fuel skip deadline w.
Proof.
  induction fuel as [|fuel IH]; intros deadline w; [done|].
  cbn [recv_rounds recv_audio_loop]. unfold recv_round, mbind, SM_bind, micros_since_epoch, get,
    may_panic, modify, recv, throw, mret, SM_ret.
  destruct (JitterBuffer_pop_with_deadline _ _ _) as [[jb [frame|]]|]; cbn; [done| |done].
  destruct (deadline <=? _); [by destruct (u64_add _ _ _); cbn|]. cbn.
  destruct (env_recv _) as [data from|e|]; cbn; [|done|by rewrite IH].
  by destruct (on_datagram data _) as [w1 [[]|e|]].
Qed.

(** Rounds that nothing comes between are the call. *)
Lemma recv_audio_rounds fuel w :
  (d ← recv_start; recv_rounds fuel d.1 d.2) w = recv_audio fuel w.
Proof.
  unfold recv_start, recv_audio, mbind, SM_bind, micros_since_epoch, get, may_panic, mret, SM_ret.
  destruct (u64_add _ _ _); cbn; [|done]. apply recv_loop_rounds.
Qed.

(** A round and a loop of one round leave the same world, and panic together. *)
Lemma recv_round_one skip deadline w :
  let '(w', r) := recv_round skip deadline w in
  ∃ r', recv_audio_loop 1 skip deadline w = (w', r') ∧ (r = Crash → r' = Crash).
Proof.
  rewrite <- recv_loop_rounds. cbn [recv_rounds]. unfold mbind, SM_bind.
  destruct (recv_round skip deadline w) as [w' [[frame|d]|e|]]; by eexists.
Qed.

(** ** Nothing but [close] writes the closing flag *)

Definition keeps_closed {A} (m : SM A) : Prop :=
  ∀ w, s_closed (w_sess (m w).1) = s_closed (w_sess w).

Lemma keeps_closed_bind {A B} (m : SM A) (f : A → SM B) :
  keeps_closed m → (∀ a, keeps_closed (f a)) → keeps_closed (m ≫= f).
Proof.
  intros Hm Hf w. unfold mbind, SM_bind. specialize (Hm w).
  destruct (m w) as [w1 [a|e|]]; [|done..]. by rewrite (Hf a w1).
Qed.

Lemma keeps_closed_pure {A} (m : SM A) : (∀ w, w_sess (m w).1 = w_sess w) → keeps_closed m.
Proof. intros Hm w. by rewrite Hm. Qed.

Lemma keeps_closed_modify f : (∀ s, s_closed (f s) = s_closed s) → keeps_closed (modify f).
Proof. intros Hf w. apply Hf. Qed.

Lemma keeps_closed_ignore {A} (m : SM A) : keeps_closed m → keeps_closed (ignore m).
Proof. intros Hm w. unfold ignore. specialize (Hm w). by destruct (m w) as [w1 []]. Qed.

Lemma keeps_closed_transition ev : keeps_closed (transition ev).
Proof. intros w. unfold transition. by destruct (SessionStateMachine_transition _ _). Qed.

Ltac kept :=
  repeat first
    [ progress intros
    | solve [auto 2]
    | apply keeps_closed_bind
    | apply keeps_closed_ignore
    | apply keeps_closed_transition
    | apply keeps_closed_modify; intros; reflexivity
    | apply keeps_closed_pure; intros; reflexivity
    | match goal with
      | |- keeps_closed (match ?x with _ => _ end) => destruct x
      | |- keeps_closed (if ?b then _ else _) => destruct b
      end ].

Lemma keeps_closed_control msg sid payload peer : keeps_closed (send_control msg sid payload peer).
Proof. unfold send_control, transmit, next_sequence, count. kept. Qed.

Lemma keeps_closed_send_audio payload : keeps_closed (send_audio payload).
Proof.
  assert (∀ k q i h p, keeps_closed (Session.seal k q i h p)) by (unfold Session.seal; kept).
  assert (∀ h p peer, keeps_closed (transmit h p peer)) by (unfold transmit, count; kept).
  assert (∀ parity peer sid, keeps_closed (send_fec_parity parity peer sid)).
  { unfold send_fec_parity, next_sequence. kept. }
  unfold send_audio, next_audio_seq, next_sequence. kept.
Qed.

Lemma keeps_closed_on_datagram data : keeps_closed (on_datagram data).
Proof.
  pose proof keeps_closed_control.
  assert (∀ frame, keeps_closed (push_jitter frame)) by (unfold push_jitter; kept).
  assert (∀ ts p, keeps_closed (deliver_audio ts p)) by (unfold deliver_audio, count; kept).
  unfold on_datagram, dispatch_packet, dispatch_audio, dispatch_fec, count. kept.
Qed.

Lemma keeps_closed_round skip deadline : keeps_closed (recv_round skip deadline).
Proof. pose proof keeps_closed_on_datagram. unfold recv_round. kept. Qed.

Lemma keeps_closed_start : keeps_closed recv_start.
Proof. unfold recv_start. kept. Qed.
End rounds.

(** ** The loops *)

Definition attempt_ok `{Kex} (a : attempt) : Prop :=
  match a with
  | NoSocket => True
  | Attempt E _ rs _ _ _ =>
      EnvLaws (H := E) ∧ EnvBytes (H := E) ∧ @env_overflow_checks E = false
      ∧ u32 (sr_session_id rs)
  end.

(** The delay before the [k]-th retry. *)
Definition backoff (k : nat) : Z := Z.min (2 ^ Z.of_nat (S k)) 30.

Section loops.
Context `{Libm} `{Audiopus} `{AL : AeadLaws} `{KL : KexLaws}.

Section connection.
Context (E : Env) (EL : EnvLaws (H := E)) (EB : EnvBytes (H := E)) (Hoc : @env_overflow_checks E = false).

(** Codec session calls keep the session's invariant and its closing flag, and
    do not panic. *)
Definition ckeeps {A} (talks : bool) (m : CM A) : Prop :=
  ∀ s w, session_inv talks (w_sess w) →
    session_inv talks (w_sess (m s w).1.2) ∧ s_closed (w_sess (m s w).1.2) = s_closed (w_sess w)
    ∧ (m s w).2 ≠ CCrash.

Lemma ckeeps_bind {A B} talks (m : CM A) (f : A → CM B) :
  ckeeps talks m → (∀ a, ckeeps talks (f a)) → ckeeps talks (m ≫= f).
Proof.
  intros Hm Hf s w Hw. unfold mbind, CM_bind. destruct (Hm s w Hw) as (Hi & Hc & Hn).
  destruct (m s w) as [[s1 w1] [a|e|]]; [|done..]. cbn in *. rewrite <- Hc. by apply Hf.
Qed.

Lemma ckeeps_pure {A} talks (m : CM A) :
  (∀ s w, (m s w).1.2 = w ∧ (m s w).2 ≠ CCrash) → ckeeps talks m.
Proof. intros Hm s w Hw. destruct (Hm s w) as [-> ?]. done. Qed.

Lemma ckeeps_inner {A} talks (m : SM A) Q :
  safe (talks := talks) m Q → keeps_closed m → ckeeps talks (inner m).
Proof.
  intros Hm Hk s w Hw. unfold inner. destruct (Hm w Hw) as [? Hr]. specialize (Hk w).
  destruct (m w) as [w1 []]; cbn in *; [done..|congruence].
Qed.

Ltac cpure := apply ckeeps_pure; intros; by split.

Lemma ckeeps_codec {A} talks (r : result CodecError A) : ckeeps talks (codec r).
Proof. apply ckeeps_pure. intros s w. by destruct r. Qed.

Lemma ckeeps_on_frame talks frame : ckeeps talks (on_frame frame).
Proof.
  apply ckeeps_bind; [cpure|]. intros self. cbv zeta. apply ckeeps_bind; [cpure|]. intros _.
  destruct (dyn_decode _ _ _) as [dec r]. apply ckeeps_bind; [cpure|]. intros _.
  apply ckeeps_bind; [apply ckeeps_codec|]. intros pn. destruct (_ =? 0); [cpure|].
  apply ckeeps_bind; [cpure|]. intros self'.
  destruct (cs_plc_queue self' ++ _) as [|front q] eqn:Hq.
  { apply (f_equal length) in Hq. rewrite !length_app in Hq. simpl in Hq. lia. }
  apply ckeeps_bind; intros; cpure.
Qed.

Lemma ckeeps_recv_start talks : ckeeps talks recv_samples_start.
Proof.
  apply ckeeps_bind; [cpure|]. intros self. case_match; [|by apply ckeeps_bind; intros; cpure].
  apply ckeeps_bind; [|intros; cpure].
  eapply (ckeeps_inner _ _ (λ _, True)); [|apply keeps_closed_start].
  intros w Hw. unfold recv_start, mbind, SM_bind, micros_since_epoch, get, may_panic, mret, SM_ret.
  pose proof (u64_add_checks env_overflow_checks (env_clock (w_ticks w))
    (cfg_jitter_buffer_ms (s_config (w_sess w)) * 3 * 1000)) as Hch.
  by destruct (u64_add _ _ _).
Qed.

Lemma safe_recv_round talks skip deadline :
  safe (talks := talks) (recv_round skip deadline) (λ _, True).
Proof.
  intros w Hw. pose proof (recv_round_one skip deadline w) as Hone.
  destruct (safe_recv_audio_loop 1 skip deadline w Hw) as [Hi Hr].
  destruct (recv_round skip deadline w) as [w' r]. destruct Hone as (r' & Heq & Hcr).
  rewrite Heq in Hi, Hr. split; [done|]. cbn in *. destruct r; [done..|]. by rewrite Hcr in Hr.
Qed.

Lemma ckeeps_recv_round talks skip deadline : ckeeps talks (recv_samples_round skip deadline).
Proof.
  apply ckeeps_bind; [eapply ckeeps_inner; [apply safe_recv_round|apply keeps_closed_round]|].
  intros [frame|d]; [|cpure]. apply ckeeps_bind; [apply ckeeps_on_frame|intros; cpure].
Qed.

Lemma ckeeps_send_samples talks samples : ckeeps talks (send_samples samples).
Proof.
  apply ckeeps_bind; [cpure|]. intros self. cbv zeta. destruct (dyn_encode _ _ _) as [enc r].
  apply ckeeps_bind; [cpure|]. intros _. apply ckeeps_bind; [apply ckeeps_codec|]. intros on.
  eapply ckeeps_inner; [apply safe_send_audio|apply keeps_closed_send_audio].
Qed.

(** What the tasks keep: the session's invariant and closing flag, that none
    of them panicked, the flags of the program and, unless the user quit, the
    capture threads. *)
Record tasks_keep (talks : bool) (sh : PttShared) (c : Conn) (sh' : PttShared) (c' : Conn) : Prop := {
  tk_inv : session_inv talks (w_sess (cn_world c'));
  tk_closed : s_closed (w_sess (cn_world c')) = s_closed (w_sess (cn_world c));
  tk_panicked : cn_panicked c' = cn_panicked c;
  tk_ptt : sh_ptt_on sh' = sh_ptt_on sh;
  tk_quit : sh_quit sh' = sh_quit sh;
  tk_threads : sh_quit sh = false → length (sh_threads sh') = length (sh_threads sh);
  tk_capture : sh_quit sh = false → cn_capture c' = cn_capture c;
}.

Lemma tasks_keep_refl talks sh c :
  session_inv talks (w_sess (cn_world c)) → tasks_keep talks sh c sh c.
Proof. by split. Qed.

Lemma tasks_keep_trans talks sh c sh1 c1 sh2 c2 :
  tasks_keep talks sh c sh1 c1 → tasks_keep talks sh1 c1 sh2 c2 → tasks_keep talks sh c sh2 c2.
Proof.
  intros [] []. split; try congruence; intros Hq.
  - rewrite tk_threads1, tk_threads0; congruence.
  - rewrite tk_capture1, tk_capture0; congruence.
Qed.

Lemma recv_result_keep talks r sh c cs w :
  session_inv talks (w_sess w) → s_closed (w_sess w) = s_closed (w_sess (cn_world c)) → r ≠ CCrash →
  let s := recv_result r sh (on_session cs w c) in tasks_keep talks sh c s.1 s.2.
Proof. intros Hi Hc Hr. by destruct r as [[[skip d]|samples]|e|]; split. Qed.

Lemma recv_task_keep talks sh c :
  session_inv talks (w_sess (cn_world c)) →
  tasks_keep talks sh c (recv_task E sh c).1 (recv_task E sh c).2.
Proof.
  intros Hc. unfold recv_task. destruct (cn_recv c) as [|skip d|]; [case_match; [by split|]| |by split].
  - destruct (ckeeps_recv_start talks (cn_cs c) (cn_world c) Hc) as (Hi & Hk & Hr).
    destruct (recv_samples_start _ _) as [[cs w] r]. by apply recv_result_keep.
  - destruct (ckeeps_recv_round talks skip d (cn_cs c) (cn_world c) Hc) as (Hi & Hk & Hr).
    destruct (recv_samples_round _ _ _ _) as [[cs w] r]. by apply recv_result_keep.
Qed.

Lemma send_task_keep talks sh c :
  session_inv talks (w_sess (cn_world c)) → tasks_keep talks sh c sh (send_task E sh c).
Proof.
  intros Hc. unfold send_task. case_match; [by split|]. case_match; [by split|].
  destruct (cn_bridge c) as [|samples bridge]; [by case_match; split|].
  destruct (ckeeps_send_samples talks samples (cn_cs c) (cn_world c) Hc) as (Hi & Hk & Hr).
  destruct (send_samples _ _ _) as [[cs w] []]; by split.
Qed.

Lemma former_step_keep talks k start recv sh c :
  session_inv talks (w_sess (cn_world c)) → tasks_keep talks sh c (former_step k start recv sh) c.
Proof.
  intros Hc. unfold former_step. case_match; [|by split]. split; try done. cbn. intros Hq.
  unfold capture_step. rewrite Hq. repeat case_match; simplify_eq; apply length_insert.
Qed.

Lemma capture_keep talks start recv sh c :
  session_inv talks (w_sess (cn_world c)) →
  tasks_keep talks sh c (task_step E (sh, c) (TCapture start recv)).1
    (task_step E (sh, c) (TCapture start recv)).2.
Proof.
  intros Hc. cbn. destruct (cn_capture c) eqn:Hcap; [|by split].
  destruct (capture_step _ _ _ _ _ _ _) as [[device bridge]|] eqn:Hs; [by split|].
  split; try done. intros Hq. unfold capture_step in Hs. rewrite Hq in Hs.
  by repeat case_match.
Qed.

Lemma tasks_keep_run talks tasks : ∀ sh c,
  session_inv talks (w_sess (cn_world c)) →
  ∃ sh' c', foldl (task_step E) (sh, c) tasks = (sh', c') ∧ tasks_keep talks sh c sh' c'.
Proof.
  induction tasks as [|t tasks IH]; intros sh c Hc.
  { exists sh, c. split; [done|]. by apply tasks_keep_refl. }
  cbn [foldl].
  assert (tasks_keep talks sh c (task_step E (sh, c) t).1 (task_step E (sh, c) t).2) as Hk.
  { destruct t; [by apply recv_task_keep|by apply send_task_keep|by apply capture_keep|
      by apply former_step_keep]. }
  destruct (task_step E (sh, c) t) as [sh1 c1]. destruct (IH sh1 c1) as (sh2 & c2 & -> & Hk2); [apply Hk|].
  exists sh2, c2. split; [done|]. by eapply tasks_keep_trans.
Qed.

Lemma session_inv_true talks s : session_inv talks s → session_inv true s.
Proof. intros Hs. by destruct Hs; split. Qed.
Lemma session_inv_off talks talks' s :
  session_inv talks s → s_ptt_active s = false → session_inv talks' s.
Proof. intros Hs Hp. destruct Hs; split; try done. by rewrite Hp. Qed.

Lemma dropped_inv talks (m : SM unit) Q w w' :
  safe (talks := talks) m Q → session_inv talks (w_sess w) → dropped m w = Some w' →
  session_inv talks (w_sess w').
Proof.
  intros Hm Hw Hd. destruct (Hm w Hw) as [? _]. unfold dropped in Hd.
  destruct (m w) as [w1 []]; by simplify_eq.
Qed.

Lemma on_inv talks w :
  session_inv talks (w_sess w) →
  ∃ w', dropped ptt_press w = Some w' ∧ session_inv true (w_sess w') ∧ ptt_of w' = true.
Proof.
  intros Hw. destruct (ptt_press_flag w) as (w' & Hd & Hf). exists w'. split_and!; [done| |done].
  eapply dropped_inv; [by apply safe_ptt_press|by eapply session_inv_true|done].
Qed.

Lemma off_inv talks w :
  session_inv talks (w_sess w) →
  ∃ w', dropped ptt_release w = Some w' ∧ session_inv false (w_sess w').
Proof.
  intros Hw. destruct (ptt_release_flag w) as (w' & Hd & Hf). exists w'. split; [done|].
  eapply session_inv_off; [|exact Hf].
  eapply dropped_inv; [apply safe_ptt_release|exact Hw|done].
Qed.

(** A running connection: the session's push-to-talk flag is set only while
    the interface's is, no task panicked, and the capture thread runs unless
    the user quit. *)
Record conn_ok (sh : PttShared) (c : Conn) : Prop := {
  co_inv : session_inv (sh_ptt_on sh) (w_sess (cn_world c));
  co_panicked : cn_panicked c = false;
  co_capture : sh_quit sh = false → cn_capture c = true;
}.

(** The quit flag is that of [sh], or set by a [quits]; the capture threads of
    former connections stay unless it is set. *)
Definition shared_ok (quits : bool) (sh sh' : PttShared) : Prop :=
  sh_quit sh' = sh_quit sh || quits
  ∧ (sh_quit sh' = false → length (sh_threads sh') = length (sh_threads sh)).

Lemma shared_ok_trans q sh sh1 sh2 :
  shared_ok false sh sh1 → shared_ok q sh1 sh2 → shared_ok q sh sh2.
Proof.
  intros [Hq1 Ht1] [Hq2 Ht2]. rewrite orb_false_r in Hq1. split; [congruence|].
  intros Hq. rewrite Ht2 by done. apply Ht1. rewrite Hq2 in Hq. by apply orb_false_elim in Hq as [].
Qed.

Lemma tasks_ok tasks sh c :
  conn_ok sh c →
  ∃ sh' c', foldl (task_step E) (sh, c) tasks = (sh', c') ∧ conn_ok sh' c' ∧ shared_ok false sh sh'.
Proof.
  intros [Hi Hp Hc]. destruct (tasks_keep_run _ tasks sh c Hi) as (sh' & c' & Hrun & []).
  exists sh', c'. split; [done|]. split; split; rewrite ?orb_false_r; try congruence.
  - intros Hq. rewrite tk_capture0; [apply Hc|]; congruence.
  - intros Hq. apply tk_threads0. congruence.
Qed.

Lemma on_toggle_ok sr sh c :
  conn_ok sh c →
  ∃ sh' c', on_toggle E sr sh c = Some (sh', c') ∧ conn_ok sh' c'
    ∧ sh_ptt_on sh' = negb (sh_ptt_on sh) ∧ ptt_of (cn_world c') = sh_ptt_on sh'
    ∧ shared_ok false sh sh'.
Proof.
  intros [Hi Hp Hc]. unfold on_toggle. destruct (sh_ptt_on sh); simpl.
  - destruct (off_inv _ _ Hi) as (w' & -> & Hw). eexists _, _. split; [done|].
    split; [done|]. split; [done|]. split; [|split; [by rewrite orb_false_r|done]].
    pose proof (ty_ptt _ _ Hw) as Hoff. unfold ptt_of. simpl.
    destruct (s_ptt_active (w_sess w')); [by destruct Hoff|done].
  - destruct (on_inv _ _ Hi) as (w' & -> & Hw & Hf). eexists _, _. split; [done|].
    split; [done|]. split; [done|]. split; [done|]. split; [by rewrite orb_false_r|done].
Qed.

Definition ui_quits (r : ui_outcome) : bool :=
  match r with UiReturns (Ok Quit) => true | _ => false end.

Lemma ui_round_ok sr i sh c :
  conn_ok sh c →
  ∃ sh' c' r, ui_round E sr i (sh, c) = (sh', c', r) ∧ conn_ok sh' c' ∧ r ≠ UiPanics
    ∧ shared_ok (ui_quits r) sh sh'.
Proof.
  intros Hc. unfold ui_round.
  destruct (tasks_ok (ui_tasks i) sh c Hc) as (sh1 & c1 & -> & Hc1 & Hsh).
  destruct (cn_disc c1); [by eexists _, _, _|].
  destruct (ui_draw_ok i); [|by eexists _, _, _]. cbn [negb].
  destruct (ui_poll i) as [[[k ctrl|]|]|]; [|by eexists _, _, _..].
  destruct (key_action k ctrl); [| |by eexists _, _, _].
  - eexists _, _, _. split; [done|]. destruct Hc1. split; [by split|]. split; [done|].
    eapply shared_ok_trans; [exact Hsh|]. split; [by rewrite orb_true_r|done].
  - destruct (on_toggle_ok sr sh1 c1 Hc1) as (sh2 & c2 & -> & Hc2 & _ & _ & Hsh2).
    eexists _, _, _. split; [done|]. split; [done|]. split; [done|].
    by eapply shared_ok_trans.
Qed.

Lemma ptt_ui_loop_ok sr inputs : ∀ sh c,
  conn_ok sh c →
  ∃ sh' c' r, ptt_ui_loop E sr inputs (sh, c) = (sh', c', r) ∧ conn_ok sh' c' ∧ r ≠ UiPanics
    ∧ shared_ok (ui_quits r) sh sh'.
Proof.
  induction inputs as [|i inputs IH]; intros sh c Hc.
  { eexists _, _, _. split; [done|]. split; [done|]. split; [done|]. split; [by rewrite orb_false_r|done]. }
  cbn [ptt_ui_loop]. destruct (ui_round_ok sr i sh c Hc) as (sh1 & c1 & r & -> & Hc1 & Hp & Hsh).
  destruct r as [|r|]; [|by eexists _, _, _|done].
  destruct (IH sh1 c1 Hc1) as (sh2 & c2 & r2 & -> & Hc2 & Hp2 & Hsh2).
  eexists _, _, _. split; [done|]. split; [done|]. split; [done|]. by eapply shared_ok_trans.
Qed.

(** A connection that is over: its session is closed and its push-to-talk flag
    cleared, and its tasks are gone, none by a panic. *)
Definition conn_over (c : Conn) : Prop :=
  s_closed (w_sess (cn_world c)) = true ∧ ptt_of (cn_world c) = false
  ∧ cn_recv c = RecvGone ∧ cn_send c = false ∧ cn_panicked c = false.

Lemma session_inv_silent s : session_inv false s → s_ptt_active s = false.
Proof. intros Hs. apply not_true_is_false. intros Hp. by pose proof (ty_ptt _ _ Hs Hp). Qed.

Lemma cleanup_ok late sh c :
  conn_ok sh c →
  ∃ sh' c', cleanup E late sh c = Some (sh', c') ∧ conn_over c' ∧ sh_ptt_on sh' = false
    ∧ sh_quit sh' = sh_quit sh
    ∧ (sh_quit sh' = false → length (sh_threads sh') = S (length (sh_threads sh))).
Proof.
  intros [Hi Hp Hc]. unfold cleanup.
  destruct (tasks_keep_run _ (late_abort late) sh c Hi) as (sh1 & c1 & -> & K1).
  destruct (tasks_keep_run _ (late_flag late) (set_ptt_on false sh1) c1 (tk_inv _ _ _ _ _ K1))
    as (sh2 & c2 & -> & K2).
  destruct (off_inv _ _ (tk_inv _ _ _ _ _ K2)) as (w2 & -> & Hw2). cbn [mbind option_bind].
  destruct (tasks_keep_run false (late_release late) sh2 (on_world w2 c2) Hw2)
    as (sh3 & c3 & -> & K3).
  destruct (close_flags (cn_world c3)) as (w3 & Hd & _ & Hcl). rewrite Hd. cbn [mbind option_bind].
  assert (session_inv false (w_sess w3)) as Hw3.
  { eapply dropped_inv; [apply safe_close|apply K3|done]. }
  destruct (tasks_keep_run false (late_close late) sh3 (on_world w3 c3) Hw3)
    as (sh4 & c4 & -> & K4).
  destruct K1, K2, K3, K4; cbn in *.
  assert (sh_quit sh4 = sh_quit sh) as Hq by congruence.
  eexists _, _. split; [done|]. split.
  { unfold conn_over, ptt_of. cbn. split_and!; try congruence. by apply session_inv_silent. }
  assert (sh_quit sh = false → cn_capture c4 = true) as Hrun.
  { intros Hf. rewrite tk_capture3, tk_capture2, tk_capture1, tk_capture0 by congruence. auto. }
  cbn. destruct (cn_capture c4); cbn; (split; [congruence|]); (split; [done|]); intros Hq'.
  - rewrite length_app. cbn. rewrite tk_threads3, tk_threads2, tk_threads1, tk_threads0 by congruence. lia.
  - by discriminate Hrun; rewrite <- Hq.
Qed.

Lemma ptt_session_new codec : ∃ s, Session_new (codec_config ptt_config codec) = Val s.
Proof. eexists. vm_compute. reflexivity. Qed.

Lemma connect_ok p rc rs fuel :
  u32 (sr_session_id rs) →
  match connect p E rc rs fuel with
  | Connected c => ∀ sh, sh_ptt_on sh = false → conn_ok sh c
  | ConnectPanics => False
  | _ => True
  end.
Proof.
  intros Hrs. unfold connect, CodecSession_new.
  destruct (build_pair _ _ _ _ _) as [[enc dec]|] eqn:Hb; [|done].
  assert (ps_codec p = Pcm ∨ ps_codec p = Opus) as Hcodec.
  { destruct (ps_codec p); [by left|by right|done]. }
  destruct (ptt_session_new (ps_codec p)) as [s Hs]. rewrite Hs. cbn [mbind checked_bind].
  assert (session_inv false s) as Hinv.
  { eapply session_inv_new; [| |exact Hs].
    - split_and!; apply (bool_decide_unpack _); by destruct Hcodec as [-> | ->].
    - by destruct Hcodec as [-> | ->]; apply (bool_decide_unpack _). }
  set (hs := match ps_role p with Client => _ | Server => _ end).
  assert (safe (talks := false) hs (λ _, True)) as Hsafe.
  { subst hs. destruct (ps_role p); [apply safe_handshake_as_client|by apply safe_handshake_as_server]. }
  unfold cs_handshake, mbind, CM_bind, inner.
  destruct (Hsafe (mkWorld s [] 0 0) Hinv) as [Hw Hr].
  destruct (hs _) as [w [[]|e|]]; [|done|congruence]. cbn. case_decide; [done|].
  intros sh Hoff. split; [by rewrite Hoff|done..].
Qed.
End connection.

(** The connections made: those that are over, and the current one if the
    program still runs.  While the user has not quit, the capture thread of
    every one of them runs, besides the [n] there were. *)
Definition conns_ok (n : nat) (cs : list Conn) (sh : PttShared) (e : ptt_end) : Prop :=
  ∃ past current, cs = past ++ current ∧ Forall conn_over past
    ∧ match current with
      | [] => sh_ptt_on sh = false
      | [c] => e = PttRuns ∧ conn_ok sh c
      | _ => False
      end
    ∧ (sh_quit sh = false → length (sh_threads sh) = (n + length past)%nat).

Definition ptt_quits (e : ptt_end) : bool := match e with PttQuits => true | _ => false end.

(** What a run of the reconnection loop from [sh] promises. *)
Definition loop_ok (sh : PttShared) (r : list Z * list Conn * PttShared * ptt_end) : Prop :=
  let '(sleeps, cs, sh', e) := r in
  Forall (λ d, 2 ≤ d ≤ 30) sleeps ∧ e ≠ PttPanics ∧ conns_ok (length (sh_threads sh)) cs sh' e
  ∧ sh_quit sh' = sh_quit sh || ptt_quits e.

(** A connection that ends in [sh1], followed by more of the loop or not. *)
Lemma loop_ok_end sh sh1 c e :
  conn_over c → sh_ptt_on sh1 = false → e ≠ PttPanics → sh_quit sh1 = sh_quit sh || ptt_quits e →
  (sh_quit sh1 = false → length (sh_threads sh1) = S (length (sh_threads sh))) →
  loop_ok sh ([], [c], sh1, e).
Proof.
  intros Hc Hoff He Hq Ht. split_and!; [done|done| |done]. exists [c], [].
  split_and!; [done|by constructor|done|]. intros Hf. rewrite Ht by done. simpl. lia.
Qed.

Lemma loop_ok_more sh sh1 c r :
  conn_over c → sh_quit sh1 = sh_quit sh →
  (sh_quit sh1 = false → length (sh_threads sh1) = S (length (sh_threads sh))) → loop_ok sh1 r →
  loop_ok sh (let '(sleeps, cs, sh', e) := r in (sleeps, c :: cs, sh', e)).
Proof.
  destruct r as [[[sleeps cs] sh'] e]. intros Hc Hq Ht (Hs & He & Hcs & Hq').
  split_and!; [done|done| |by rewrite Hq', Hq].
  destruct Hcs as (past & cur & -> & Hp & Hcur & Hth). exists (c :: past), cur.
  split_and!; [done|by constructor|done|]. intros Hf. rewrite Hth, Ht; [simpl; lia| |done].
  rewrite Hq' in Hf. by apply orb_false_elim in Hf as [].
Qed.

Lemma reconnect_loop_ok p attempts : ∀ delay sh,
  Forall attempt_ok attempts → sh_ptt_on sh = false → 2 ≤ delay ≤ 30 →
  loop_ok sh (reconnect_loop p attempts delay sh).
Proof.
  assert (∀ sh e, sh_ptt_on sh = false → e ≠ PttPanics → ptt_quits e = false →
    loop_ok sh ([], [], sh, e)) as Hnone.
  { intros sh e Hoff He Hq. split_and!; [done|done| |by rewrite Hq, orb_false_r].
    exists [], []. split_and!; [done..|simpl; lia]. }
  induction attempts as [|a attempts IH]; intros delay sh Hall Hoff Hd; cbn [reconnect_loop]; [by auto|].
  apply Forall_cons_1 in Hall as [Ha Hall]. destruct a as [|E rc rs fuel inputs late]; [by auto|].
  destruct Ha as (EL & EB & Hoc & Hrs). pose proof (connect_ok E EL EB Hoc p rc rs fuel Hrs) as Hconn.
  destruct (connect p E rc rs fuel) as [c| | |]; [|by auto| |done].
  - destruct (ptt_ui_loop_ok E EL EB Hoc (cfg_sample_rate ptt_config) inputs sh c)
      as (sh1 & c1 & r & -> & Hc1 & Hp & Hq & Ht); [by apply Hconn|].
    destruct r as [|r|]; [|clear Hp|done].
    { split_and!; [done|done| |done]. exists [], [c1]. split_and!; [done..|]. simpl. by rewrite Nat.add_0_r. }
    destruct (cleanup_ok E EL EB Hoc late sh1 c1 Hc1) as (sh2 & c2 & -> & Hover & Hoff2 & Hq2 & Ht2).
    assert (sh_quit sh2 = false → length (sh_threads sh2) = S (length (sh_threads sh))) as Hth.
    { intros Hf. rewrite Ht2, Ht; congruence. }
    rewrite <- Hq2 in Hq. destruct r as [[]|]; cbn in Hq.
    + by apply loop_ok_end.
    + rewrite orb_false_r in Hq. apply (loop_ok_more sh sh2); [done..|].
      apply IH; [done|done|unfold INITIAL_DELAY; lia].
    + by apply loop_ok_end.
  - specialize (IH (next_delay delay) sh Hall Hoff).
    destruct (reconnect_loop p attempts (next_delay delay) sh) as [[[sleeps cs] sh'] e].
    destruct IH as (Hs & Hrest); [unfold next_delay; lia|]. split; [by constructor|done].
Qed.

(** An attempt whose handshake fails. *)
Definition retries (p : PttSetup) (a : attempt) : Prop :=
  match a with
  | NoSocket => False
  | Attempt E rc rs fuel _ _ => connect p E rc rs fuel = ConnectRetry
  end.

Lemma backoff_next k : next_delay (backoff k) = backoff (S k).
Proof.
  unfold next_delay, backoff. rewrite !Nat2Z.inj_succ, !Z.pow_succ_r by lia.
  pose proof (Z.pow_pos_nonneg 2 (Z.of_nat k)). lia.
Qed.

Lemma failing_handshakes p attempts : ∀ k sh,
  Forall (retries p) attempts →
  reconnect_loop p attempts (backoff k) sh = (backoff <$> seq k (length attempts), [], sh, PttRuns).
Proof.
  induction attempts as [|a attempts IH]; intros k sh Hall; [done|].
  apply Forall_cons_1 in Hall as [Ha Hall]. destruct a as [|E rc rs fuel inputs late]; [done|].
  cbn [reconnect_loop length seq fmap list_fmap]. cbn in Ha. rewrite Ha, backoff_next.
  by rewrite IH.
Qed.

(** C32: push-to-talk over reconnections.  Whatever the networks of the
    attempts deliver, the user types and the device gives, however the steps of
    the tasks (a round of a receive, a whole send, a round of a capture thread)
    fall between the rounds of the interface, and wherever the aborted tasks
    stop between the calls of the clean-up or after them, in a release build
    neither the program nor one of its tasks panics.  The program waits 2, 4,
    8, 16, 30, 30, ... seconds after handshakes that fail in a row from the
    start, and never less than 2 or more than 30.  Between rounds, the
    push-to-talk flag of the running session is set only while that of the
    interface is.  The sessions of all former connections are closed, with the
    flag cleared and their two tasks gone.  The quit flag is set exactly when
    the user quit.  And until then no capture thread ends: that of the running
    connection runs, and exactly one for every former connection. *)
Theorem ptt_loop_correct p attempts :
  Forall attempt_ok attempts →
  loop_ok PttShared_new (reconnect_loop p attempts INITIAL_DELAY PttShared_new)
  ∧ (Forall (retries p) attempts →
     reconnect_loop p attempts INITIAL_DELAY PttShared_new
     = (backoff <$> seq 0 (length attempts), [], PttShared_new, PttRuns)).
Proof.
  intros Hall. split.
  - apply reconnect_loop_ok; [done|done|unfold INITIAL_DELAY; lia].
  - apply (failing_handshakes p attempts 0).
Qed.
End loops.

(** ** A concrete run *)

Lemma client_env_laws : EnvLaws (H := client_env) ∧ EnvBytes (H := client_env).
Proof.
  split.
  - split. apply script_net_ok.
  - intros [|[|n]] data from Hr; [| |done]; vm_compute in Hr; injection Hr as <- _;
      apply (bool_decide_unpack _); vm_compute; exact I.
Qed.

Lemma quiet_env_laws : EnvLaws (H := quiet_env) ∧ EnvBytes (H := quiet_env).
Proof.
  split; [|done]. split. intros n. cbn [env_clock quiet_env].
  pose proof (Nat.mod_upper_bound n 1000). unfold u64. lia.
Qed.

(** Nothing happens to the tasks of a connection that ends. *)
Definition no_late : LateTasks := mkLateTasks [] [] [] [].

(** A server that does not answer, then one that does; the user talks, stops
    and quits, and the tasks go on during the clean-up. *)
Definition sample_attempts : list attempt :=
  let key k := mkUiInput [TCapture true TryEmpty; TRecv; TRecv; TSend] true
                 (Ok (Some (TKey (Some k) false))) in
  [Attempt quiet_env sample_rc sample_rs 20 [] no_late;
   Attempt client_env sample_rc sample_rs 4 [key 32; key 116; key 113]
     (mkLateTasks [TRecv] [TSend] [TRecv; TCapture true TryEmpty] [TRecv; TSend])].

Definition sample_setup : PttSetup := mkPttSetup false Pcm Client server_addr.

Lemma ptt_loop_correct_witness :
  let r := reconnect_loop (H := flat_sine) (H0 := no_opus) sample_setup sample_attempts
             INITIAL_DELAY PttShared_new in
  loop_ok PttShared_new r ∧ r.1.1.1 = [2] ∧ r.2 = PttQuits ∧ length (sh_played r.1.2) = 2%nat.
Proof.
  intros r. destruct (ptt_loop_correct (H := flat_sine) (H0 := no_opus) sample_setup sample_attempts)
    as [Hok _].
  - constructor; [|constructor; [|constructor]]; (split_and!; [apply quiet_env_laws || apply client_env_laws
      |apply quiet_env_laws || apply client_env_laws|reflexivity|vm_compute; split; congruence]).
  - split; [exact Hok|]. split_and!; vm_compute; reflexivity.
Defined.

(** A network that fails once the connection stands. *)
Definition failing_env : Env := {|
  env_clock := @env_clock client_env;
  env_send := @env_send client_env;
  env_recv n := if (n <? 2)%nat then @env_recv client_env n else RecvErr TeClosed;
  env_overflow_checks := false;
|}.

(** A connection that fails while the user talks, and a second one on which
    the user talks again: the capture thread of the first opens the microphone
    a second time, and nobody reads its frames. *)
Definition talking_twice : list attempt :=
  let key k tasks := mkUiInput tasks true (Ok (Some (TKey (Some k) false))) in
  let idle tasks := mkUiInput tasks true (Ok None) in
  [Attempt failing_env sample_rc sample_rs 4
     [key 32 [TRecv]; idle [TCapture true TryEmpty]; idle [TRecv]] no_late;
   Attempt client_env sample_rc sample_rs 4
     [idle [TFormer 0 true TryEmpty]; key 32 [];
      idle [TFormer 0 true (TryFrame [1]); TCapture true TryEmpty]] no_late].

Example microphone_held_twice :
  let '(_, cs, sh, e) := reconnect_loop (H := flat_sine) (H0 := no_opus) sample_setup talking_twice
                           INITIAL_DELAY PttShared_new in
  e = PttRuns ∧ length cs = 2%nat ∧ cn_device <$> last cs = Some true ∧ sh_threads sh = [true].
Proof. vm_compute. split_and!; reflexivity. Qed.
