(* ===== verification/Cli.v ===== *)
(** * The command line tool

    The rest of [gravital-talk-cli/src/main.rs]: the codec argument, the
    commands that only report ([devices], [bench], [info], [doctor],
    [discover]), and the dispatch of a parsed command line; [send] and
    [receive] are in [CliAudio.v], [room] in [CliRooms.v], [relay] in
    [RelayDaemon.v] and [ptt] in [Ptt.v].  What a command prints is the list
    of its lines.  The texts of errors of the system and of [cpal], and the
    constants of the build, are the class [Console]; a number printed with
    two decimals, and a duration, is kept as the number. *)

From S2P Require Import Prelude.
From S2P Require Import CoreTypes.
From S2P Require Import Text.
From S2P Require Import Header.
From S2P Require Import Packet.
From S2P Require Import SessionFsm.
From S2P Require Import Crypto.
From S2P Require Import Ieee.
From S2P Require Import JitterBuffer.
From S2P Require Import Metrics.
From S2P Require Import Transport.
From S2P Require Import NetAddr.
From S2P Require Import Discovery.
From S2P Require Import Session.
From S2P Require Import SessionSeq.
From S2P Require Import Handshake.
From S2P Require Import Codec.
From S2P Require Import CodecSession.
From S2P Require Import Router.
From S2P Require Import RelayDaemon.
From S2P Require Import Udp.
From S2P Require Import AudioIo.
From S2P Require Import Ffi.
From S2P Require Import CliAudio.
From S2P Require Import CliRooms.
From stdpp Require Import strings list.
#[local] Open Scope Z_scope.

(** ** The codec argument *)

(** [CodecOpus] exists with the feature [opus]. *)
Inductive CodecArg : Type := ArgPcm | ArgOpus.

Definition CodecArg_to_codec_id (self : CodecArg) : CodecId :=
  match self with ArgPcm => Pcm | ArgOpus => Opus end.

Definition CodecArg_from_str (feature_opus : bool) (s : list Z) : result (list Z) CodecArg :=
  if decide (s = ascii_bytes "pcm") then Ok ArgPcm
  else if feature_opus && bool_decide (s = ascii_bytes "opus") then Ok ArgOpus
  else Err (ascii_bytes "unknown codec '" ++ s ++ ascii_bytes "'").

(** ** Output *)

Inductive output : Type :=
  | Line (text : list Z)
  | Decimals (label : list Z) (x : float)
  | Elapsed (label : list Z) (nanos : Z).

Class Console : Type := {
  io_error_text : IoError → list Z;
  os_error_text : list Z;
  pkg_version : list Z;
  target_os : list Z;
  target_arch : list Z;
}.

(** [{:08X}] *)
Definition hex_digit_upper (n : Z) : Z := if n <? 10 then 48 + n else 55 + n.
Definition show_hex8 (n : Z) : list Z :=
  (λ i, hex_digit_upper (n / 16 ^ Z.of_nat (7 - i) mod 16)) <$> seq 0 8.

(** The derived [Debug] of a state. *)
Definition SessionState_debug (s : SessionState) : list Z :=
  ascii_bytes match s with
              | Idle => "Idle" | Handshaking => "Handshaking" | Active => "Active"
              | Paused => "Paused" | Closing => "Closing" | Closed => "Closed"
              | SError => "Error" | Reconnecting => "Reconnecting"
              end.

Section report.
Context `{Console}.

(** ** [gs devices] *)

Definition device_lines (r : result IoError (list DeviceInfo)) : list output :=
  match r with
  | Ok [] => [Line (ascii_bytes "  (none)")]
  | Ok devs =>
      (λ d, Line (ascii_bytes "  " ++ di_name d
                  ++ (if di_is_default d then ascii_bytes " [default]" else []))) <$> devs
  | Err e => [Line (ascii_bytes "  error: " ++ io_error_text e)]
  end.

Definition cmd_devices `{AudioHost} : list output :=
  [Line (ascii_bytes "─── Input devices ───")] ++ device_lines list_input_devices
  ++ [Line (ascii_bytes "─── Output devices ───")] ++ device_lines list_output_devices.

(** ** [gs doctor] *)

(** [bound]: the address of a UDP socket bound to [0.0.0.0:0], or [None];
    its text is empty when it cannot be read. *)
Definition cmd_doctor (bound : option (option SocketAddr)) : list output :=
  [Line (ascii_bytes "Gravital Talk doctor");
   Line (ascii_bytes " version        : " ++ pkg_version);
   Line (ascii_bytes " protocol       : v" ++ show PROTOCOL_VERSION);
   Line (ascii_bytes " target_os      : " ++ target_os);
   Line (ascii_bytes " target_arch    : " ++ target_arch);
   match bound with
   | Some addr =>
       Line (ascii_bytes " udp bind       : OK (ephemeral "
             ++ match addr with Some a => show_socket_addr a | None => [] end ++ ascii_bytes ")")
   | None => Line (ascii_bytes " udp bind       : FAILED: " ++ os_error_text)
   end].

(** ** [gs discover] *)

(** [None] while the scan runs. *)
Definition cmd_discover `{LanEnv} (fuel : nat) (timeout_s : Z) : option (list output) :=
  r ← discover_lan fuel (timeout_s * 1000000000);
  Some ([Line (ascii_bytes "Scanning LAN for Gravital Talk peers (" ++ show timeout_s
               ++ ascii_bytes "s)...")]
        ++ match r with
           | Some [] => [Line (ascii_bytes "No peers found.")]
           | Some peers =>
               Line (ascii_bytes "Found " ++ show (Z.of_nat (length peers))
                     ++ ascii_bytes " peer(s):")
               :: ((λ p, Line (ascii_bytes "  " ++ show_socket_addr (pi_addr p)
                               ++ ascii_bytes " — session_id=" ++ show (pi_session_id p)
                               ++ ascii_bytes " — " ++ [34] ++ pi_name p ++ [34])) <$> peers)
           | None => [Line (ascii_bytes "Discovery error: " ++ os_error_text)]
           end).
End report.

(** ** [gs bench] *)

(** The loop; [clock] gives the nanoseconds of the [i]-th reading, and the
    loop has run [iters] times with a sum and maximum of the times taken.
    [None] when it has not ended. *)
Fixpoint bench_loop (fuel : nat) (clock : nat → Z) (deadline : Z) (i : nat) (out : list Z)
    (iters sum_ns max_ns : Z) : option (checked (Z * Z * Z)) :=
  match fuel with
  | O => None
  | S fuel =>
      if clock i <? deadline then
        let header := PacketHeader_new 0x10 0xDEADBEEF 0 0 in
        let payload := replicate 960 0 in
        let t0 := clock (S i) in
        match PacketBuilder_encode header payload out with
        | Err _ => Some Panic
        | Ok (n, out) =>
            match PacketView_decode (take n out) with
            | Err _ => Some Panic
            | Ok _ =>
                let elapsed := clock (S (S i)) - t0 in
                bench_loop fuel clock deadline (S (S (S i))) out (iters + 1) (sum_ns + elapsed)
                  (if max_ns <? elapsed then elapsed else max_ns)
            end
        end
      else Some (Val (iters, sum_ns, max_ns))
  end.

Inductive BenchError : Type := OnlyLoopback.

(** [Instant + Duration] panics when the seconds do not fit an [i64]. *)
Definition instant_add (t nanos : Z) : checked Z :=
  if (t + nanos) / 1000000000 <=? i64_MAX then Val (t + nanos) else Panic.

(** The iterations, their average and their maximum. *)
Definition cmd_bench (fuel : nat) (clock : nat → Z) (mode : list Z) (duration_s : Z) :
    option (checked (result BenchError (Z * Z * Z))) :=
  if decide (mode ≠ ascii_bytes "loopback") then Some (Val (Err OnlyLoopback))
  else
    match instant_add (clock 0%nat) (duration_s * 1000000000) with
    | Panic => Some Panic
    | Val deadline =>
        r ← bench_loop fuel clock deadline 1 (replicate 1200 0) 0 0 0;
        Some match r with
             | Panic => Panic
             | Val (iters, sum_ns, max_ns) =>
                 Val (Ok (iters, sum_ns / Z.max iters 1, max_ns))
             end
    end.

(** The packet of the benchmark encodes and decodes. *)
Definition bench_header : PacketHeader := PacketHeader_new 0x10 0xDEADBEEF 0 0.

Lemma bench_packet_wf : packet_wf bench_header (replicate 960 0).
Proof. apply (bool_decide_unpack _). vm_compute. exact I. Qed.

Lemma bench_round out :
  length out = 1200%nat →
  ∃ out', PacketBuilder_encode bench_header (replicate 960 0) out = Ok (988%nat, out')
    ∧ length out' = 1200%nat
    ∧ PacketView_decode (take 988 out') = Ok (mkPacketView bench_header (replicate 960 0)).
Proof.
  intros Hl. pose proof bench_packet_wf as Hwf.
  pose proof (length_packet_image bench_header (replicate 960 0)) as Hi.
  rewrite length_replicate in Hi. unfold HEADER_SIZE in Hi. cbn [Nat.add] in Hi.
  eexists. split_and!.
  - apply (PacketBuilder_encode_image bench_header (replicate 960 0) out Hwf).
    rewrite length_replicate, Hl. unfold HEADER_SIZE. lia.
  - rewrite length_app, length_drop, Hi, Hl, length_replicate. unfold HEADER_SIZE. lia.
  - rewrite take_app_le, take_ge by lia. by apply PacketView_decode_image.
Qed.

Lemma bench_loop_ends clock deadline : ∀ k fuel i out iters sum_ns max_ns,
  (∀ i, clock i ≤ clock (S i)) → (k < fuel)%nat → deadline ≤ clock (i + 3 * k)%nat →
  length out = 1200%nat → 0 ≤ iters → 0 ≤ sum_ns ≤ iters * max_ns →
  ∃ iters' sum' max',
    bench_loop fuel clock deadline i out iters sum_ns max_ns = Some (Val (iters', sum', max'))
    ∧ iters ≤ iters' ≤ iters + Z.of_nat k ∧ 0 ≤ sum' ≤ iters' * max'.
Proof.
  induction k as [|k IH]; intros fuel i out iters sum_ns max_ns Hmono Hf Hd Hl Hi Hs;
    (destruct fuel as [|fuel]; [lia|]); cbn [bench_loop].
  - rewrite Nat.mul_0_r, Nat.add_0_r in Hd. rewrite (proj2 (Z.ltb_ge _ _)) by lia.
    eexists _, _, _. split; [done|]. lia.
  - destruct (Z.ltb_spec (clock i) deadline); [|by eexists _, _, _; split; [done|]; lia].
    destruct (bench_round out Hl) as (out' & Henc & Hl' & Hdec). unfold bench_header in *.
    cbv zeta. rewrite Henc, Hdec. pose proof (Hmono (S i)).
    clear Henc Hdec. set (e := clock (S (S i)) - clock (S i)).
    destruct (IH fuel (S (S (S i))) out' (iters + 1) (sum_ns + e) (if max_ns <? e then e else max_ns))
      as (iters' & sum' & max' & -> & Hit & Hsum); [exact Hmono|lia| |exact Hl'|lia| |].
    + replace (S (S (S i)) + 3 * k)%nat with (i + 3 * S k)%nat by lia. exact Hd.
    + destruct (Z.ltb_spec max_ns e); subst e; nia.
    + eexists _, _, _. split; [reflexivity|]. lia.
Qed.

(** The benchmark ends and never panics: with a clock that does not go
    back and passes the deadline by its [3k + 2]-nd reading, [gs bench]
    encodes and decodes without failing, stops after at most [k] rounds, and
    reports an average that is not above the maximum; any mode but [loopback]
    is refused. *)
Theorem bench_terminates fuel k clock mode duration_s :
  (∀ i, clock i ≤ clock (S i)) → (k < fuel)%nat →
  clock 0%nat + duration_s * 1000000000 ≤ clock (1 + 3 * k)%nat →
  (clock 0%nat + duration_s * 1000000000) / 1000000000 ≤ i64_MAX →
  if decide (mode = ascii_bytes "loopback") then
    ∃ iters avg max_ns,
      cmd_bench fuel clock mode duration_s = Some (Val (Ok (iters, avg, max_ns)))
      ∧ 0 ≤ iters ≤ Z.of_nat k ∧ (0 < iters → 0 ≤ avg ≤ max_ns)
  else cmd_bench fuel clock mode duration_s = Some (Val (Err OnlyLoopback)).
Proof.
  intros Hmono Hf Hd Hfit. unfold cmd_bench, instant_add. case_decide as Hm.
  - rewrite decide_False by (intros Hn; by apply Hn).
    rewrite (proj2 (Z.leb_le _ _)) by done.
    destruct (bench_loop_ends clock (clock 0%nat + duration_s * 1000000000) k fuel 1
                (replicate 1200 0) 0 0 0) as (iters & sum & mx & -> & Hi & Hs);
      [done|done|done|by rewrite length_replicate|done|lia|].
    cbn [mbind option_bind]. eexists _, _, _. split; [done|]. split; [lia|]. intros Hpos.
    rewrite Z.max_l by lia. split; [apply Z.div_pos; lia|]. apply Z.div_le_upper_bound; lia.
  - by rewrite decide_True.
Qed.

Definition millisecond_clock (i : nat) : Z := 1000000 * Z.of_nat i.

Lemma bench_terminates_witness :
  ∃ iters avg max_ns,
    cmd_bench 400 millisecond_clock (ascii_bytes "loopback") 1 = Some (Val (Ok (iters, avg, max_ns)))
    ∧ 0 ≤ iters ≤ 333 ∧ (0 < iters → 0 ≤ avg ≤ max_ns).
Proof.
  pose proof (bench_terminates 400 333 millisecond_clock (ascii_bytes "loopback") 1) as Hb.
  rewrite decide_True in Hb by reflexivity. apply Hb.
  - intros i. unfold millisecond_clock. lia.
  - lia.
  - unfold millisecond_clock. lia.
  - unfold millisecond_clock, i64_MAX. vm_compute. discriminate.
Defined.

(** ** [gs info] *)

(** [rtt] is the time the handshake took.  Without a handshake the session
    is dropped as it is. *)
Definition cmd_info `{Env} `{Kex} `{Sockets} (host : list Z) (port : Z) (fuel : nat)
    (rnd : ClientRandom) (rtt : Z) : option World * cli (list output) :=
  match parse_socket_addr (host_port host port) with
  | None => (None, CliErr BadAddress)
  | Some peer =>
      let udp := mkUdpConfig any_address None DEFAULT_SOCKET_BUFFER RealTime true None in
      match UdpTransport_bind udp with
      | Err _ => (None, CliErr CliIo)
      | Ok _ =>
          match Session_new Config_default with
          | Panic => (None, CliPanic)
          | Val session =>
              match handshake_as_client fuel rnd peer (mkWorld session [] 0 0) with
              | (w, Fail e) => (Some w, CliErr (CliSession (CsTransport e)))
              | (w, Crash) => (Some w, CliPanic)
              | (w, Done _) =>
                  let s := w_sess w in
                  let snap := Metrics_snapshot (s_metrics s)
                                (JitterBuffer_fill_percent (s_jitter s)) in
                  let lines :=
                    [Line (ascii_bytes "─── session info ───");
                     Line (ascii_bytes " peer           : " ++ show_socket_addr peer);
                     Line (ascii_bytes " session_id     : 0x" ++ show_hex8 (s_session_id s));
                     Elapsed (ascii_bytes " handshake_rtt  : ") rtt;
                     Line (ascii_bytes " protocol       : v" ++ show PROTOCOL_VERSION);
                     Line (ascii_bytes " state          : "
                           ++ SessionState_debug (sm_state (s_state s)));
                     Decimals (ascii_bytes " estimated MOS  : ") (ms_estimated_mos snap);
                     Decimals (ascii_bytes " loss%          : ") (ms_loss_percent snap);
                     Decimals (ascii_bytes " jitter ms      : ") (ms_jitter_ms snap)] in
                  let '(w, r) := close w in
                  (Some w, match r with
                           | Done _ => CliOk lines
                           | Fail e => CliErr (CliSession (CsTransport e))
                           | Crash => CliPanic
                           end)
              end
          end
      end
  end.
